(* ===== verification/_CoqProject ===== *)
-Q . S2P
Prelude.v
GoStd.v
Digest.v
Effects.v
ApiTypes.v
GoHeap.v
DeepCopy.v
Kube.v
Ark.v
StateMachine.v
Status.v
Ini.v
Resources.v
Workload.v
CurseForge.v
FakeForge.v
ModUpdate.v
Coexist.v
Rcon.v
FakeArk.v
TestUtils.v
Finalizer.v
Webhook.v
Controller.v
ControllerSafety.v
ControllerFlows.v
MapPass.v
BlueGreen.v
Life.v
Settled.v
Upkeep.v
ModRollout.v
Scenarios.v
Cooperate.v
CoopPass.v
World.v
Progress.v
Converge.v
Flag.v
Operator.v
Ownership.v
