(* ===== verification/Prelude.v ===== *)
(** * ark-asa-operator: a verification development

    The operator runs clusters of ARK: Survival Ascended servers on Kubernetes.  A custom resource,
    [ArkCluster], lists the maps of a cluster; for each map the operator keeps one pod, two server
    volumes ([server-a] and [server-b], one active), a volume for the saves, two INI files and a
    service.  An update is installed by a job into the inactive volume; players are given notice
    over RCON, the world is saved, and the pod is replaced by one on the other volume.  A new
    version that crash-loops is rolled back.  A second controller polls CurseForge for new versions
    of the mods and triggers such an update.

    ** The parts and how they meet

    - The two controllers see the world only through calls: the Kubernetes client, the network, the
      clock, the random generator, HTTP.  [Effects.v] has the programs over calls (a free monad),
      their executions, and weakest preconditions with a rely (what the world answers) and a
      guarantee (what every call satisfies, given the calls before it).  [Kube.v] has the calls and
      the objects; what client libraries do on their own (owner references, quantities, finalizer
      lists) is the class [K8sLib], with its documented laws in [K8sLaws].
    - The controllers share the [ArkCluster] object: its status holds, per map, the state of the
      update (active volume, deadline of the drain, known good volume, phase), and every reconcile
      starts from what was stored.  A write of the status answers with the new version, or with a
      conflict.  One annotation carries the digest of the mods from one controller to the other.

    ** Files

    - [Prelude.v]: record update, tactics, strings as byte lists, generic lemmas; [GoStd.v] and
      [Digest.v]: the functions of Go's standard library the code calls (integers at their width,
      [strings], [strconv], sorting, SHA-256, hex, base64); [Flag.v]: package [flag].
    - [ApiTypes.v]: [api/v1alpha1/arkcluster_types.go], a [Record] per struct; [DeepCopy.v]:
      [zz_generated.deepcopy.go], over the structs as they lie in memory ([GoHeap.v]: pointers,
      slices and maps in a heap of typed cells).
    - [Ark.v]: [internal/ark] (ports, slugs, launch command, mod set and pod-template hashes).
    - [StateMachine.v]: [internal/statemachine]; [Status.v]: [internal/reconcile/status.go].
    - [Ini.v]: [configmap.go]; [Resources.v]: [pvc.go], [secret.go], [service.go]; [Workload.v]:
      [pod.go], [job.go], all of [internal/reconcile].  A callback of [CreateOrUpdate] is a
      definition [mutate_...] of its own.
    - [Rcon.v]: [internal/rcon], byte by byte; [FakeArk.v]: [test/fake-ark-server], the server that
      the tests run it against; [TestUtils.v]: [test/utils/utils.go], with calls of its own.
    - [CurseForge.v]: [internal/curseforge/client.go]; [FakeForge.v]: [internal/curseforge/fake].
    - [ModUpdate.v]: [internal/controller/modupdate_controller.go]; [Coexist.v], [ModRollout.v]:
      what it leaves alone, and what it triggers.
    - [Finalizer.v]: [internal/finalizer]; [Webhook.v]: [internal/webhook/v1alpha1].
    - [Controller.v]: [internal/controller/arkcluster_controller.go], a definition per function, in
      the monad [rM] over the cluster a reconcile holds and its flag [busy].  A long function is
      split where it branches: [rollUpdate] into [start_drain] and [swap], [Reconcile] into
      [reconcile_cluster] and what comes before it.
    - [Operator.v]: [cmd/operator/main.go], [groupversion_info.go] and the [SetupWithManager] functions.

    The pointers [mapStatus] of the code point into [cluster.Status.Maps]: they are indices, so that
    writes through them and writes of [SetMapCondition] meet. An instant is a number of nanoseconds,
    a context its deadline. A time of the status loses its nanoseconds when it is stored: a status
    update that succeeds decodes the stored object into the cluster ([with_version], [wire]), and
    the next reconcile reads such an object; a frame or a life is up to that rounding. A loop over a
    Go map is a definition over a list of the map's entries in any order, and theorems show that the
    order is irrelevant where the code relies on that.

    ** What is shown

    - Of one flow ([ControllerSafety.v], [ControllerFlows.v]): what must have happened before each
      call of [rollUpdate], [steady] and [firstStart], in every execution, and what each makes of
      the entry of its map.  The code goes on after a status update that was refused with a
      conflict as if it had been stored; so a status that must come first is stated to be
      [status_written]: stored, or refused with a conflict; and, as long as no update was refused
      with a conflict, [persisted]: stored.
    - Of one pass over a map ([MapPass.v]) and one reconcile ([Life.v], [Settled.v]): the same for
      [reconcileMap] and [reconcile_cluster]; which calls are made at all; which flow is taken for
      which pods and hash; when the reconcile rests.  The map that holds the updates of the others back
      is the one that [mid_flight] finds in the status that was read: two maps may start their
      updates in one reconcile ([Scenarios.one_at_a_time_starts_two]).
    - Of any number of reconciles ([Life.v]): [BlueGreen.v] is the abstract contract of a map's volumes;
      a life is a chain of reconciles, each cut off after any of its writes, mixed with edits of the
      spec and with reconciles of the mod controller; every life follows the contract, and so no pod
      is evicted for an update without a deadline that was set in its life and, to the second, has
      passed; and before the eviction a status without the deadline was sent.
    - Of progress, in a world that cooperates ([Cooperate.v]: its rely, and what a pass of each flow
      makes of a map in it): the passes of an update end ([Progress.v]); and ([CoopPass.v],
      [World.v], [Converge.v]) whole reconciles take a cluster that is not being deleted to one that
      runs, on ready pods of the wanted version, and keep it there. Such a world stores what is
      written, ends install jobs and warms pods up, lets time pass, and keeps the user's ConfigMaps
      and secrets as they are; the sizes of the storage are quantities, maps have distinct slugs,
      and a status has one entry per map and none that goes by the slug of another
      ([Scenarios.renamed_entry_blocks] shows what happens otherwise).
    - Of ownership ([Ownership.v]): whatever a reconcile makes is controlled by its cluster, labelled
      with its name and, install jobs apart, watched.
    - Of upkeep ([Upkeep.v]): garbage collection deletes exactly the orphans; what the pod hash
      sees and what it does not.
    - Of memory ([DeepCopy.v]): a deep copy shares no cell with its original, which is why the other
      files may treat an object as a value.
    - Of the components: round trips and bounds of the RCON format, preservation by the INI merge,
      the ports of a cluster, what a service selects, what a job installs, immutable fields, the
      merge of mod versions, the order of the operator's start and its hardened defaults.
    - Of the test helpers ([TestUtils.v], [FakeArk.v]): what is run and what is found in its output;
      that [UncommentCode] undoes commenting; that the test server serves each connection as if it
      were alone, in whatever order its goroutines run.
    - Of components together: the RCON client against the test server, the CurseForge client
      against the fake API, the mod controller against the pod hash, the start of the operator against
      the URL that is polled.
    - [Scenarios.v]: evaluated runs that show where the code does less than its comments promise.

    Every theorem about a program quantifies over all its executions, with no condition on the
    answers unless it states one.

    ** Fuel and bounds

    Programs over calls are finite trees: each ends for every choice of answers ([exec_total]). The
    loops of the code are structural recursions over lists. Only [FakeArk.serve] has fuel, the
    number of requests served, since the server's loop has no end; its theorem is stated for every
    fuel that covers the requests made. The passes of an update have no bound of their own:
    [Progress.v] bounds them by a measure, the passes the install job and the drain still need, and
    [Converge.v] bounds the reconciles of a cluster by the sum of such a measure over its maps.
    Integers wrap where the code's type makes them ([Int.int32], [Int.int64]); the lengths of RCON
    packets keep the code's limit of 4096.

    ** Not modelled

    - The deep copies of the Kubernetes libraries' types, which [DeepCopy.v] takes as a class with
      its law.
    - Logging; the fields of Kubernetes objects that the operator neither reads nor writes.
    - HTTP below the call [HttpPost], and the text of JSON: the call answers with the status and the
      decoded entries.  Between the client and the test server a JSON value is passed, written and
      read by the tags of the fields ([GoStd.json]).
    - The cache and the work queue of controller-runtime: reconciles of one cluster run one at a
      time, and a reconcile may read any cluster the theorem quantifies over.  Cancellation of a
      context before its deadline.
    - The end-to-end tests themselves, and the
      YAML of [config] and [deploy]; the schema's bounds on ports are a hypothesis where they matter. *)

From stdpp Require Export base tactics option list sorting gmap strings.
From Stdlib Require Export ZArith Lia Ascii.

#[global] Open Scope Z_scope.
#[global] Set Default Proof Using "Type".

(** ** Record update

    [r <| f := v |>] is the record [r] with field [f] replaced by [v], the way the Go code
    assigns to one field of a struct.  A record type becomes updatable by giving its
    eta-expansion through its projections as an instance of [Settable]. *)

Class Settable (R : Type) := eta_of : R -> R.
Class Setter {R E : Type} (f : R -> E) := set_with : (E -> E) -> R -> R.
Arguments set_with {R E} f {_} _ _ /.

Ltac build_setter R E f :=
  let s := constr:(@eta_of R _) in
  let b := eval hnf in s in
  exact (fun (g : E -> E) (r : R) =>
    ltac:(let body := eval cbv beta in (b r) in
          match body with
          | context C [f r] => let body' := context C [g (f r)] in exact body'
          end)).

#[export] Hint Extern 1 (@Setter ?R ?E ?f) => build_setter R E f : typeclass_instances.

Declare Scope record_scope.
Delimit Scope record_scope with rec.
Notation "r <| f := v |>" := (set_with f (fun _ => v) r)
  (at level 1, left associativity, format "r  <| f  :=  v |>") : record_scope.
Notation "r <| f ::= g |>" := (set_with f g r)
  (at level 1, left associativity, format "r  <| f  ::=  g |>") : record_scope.
#[global] Open Scope record_scope.

(** ** Automation

    [ark] collects the lemmas that close the common goals of the components, [ark_rw] the
    rewriting rules that simplify them. *)

Create HintDb ark.
Create Rewrite HintDb ark_rw.

(** Case analysis on the scrutinee of a [match] or [if] of the goal or of a hypothesis. *)
Ltac break_goal :=
  match goal with
  | |- context [match ?x with _ => _ end] => destruct x eqn:?
  end.
Ltac break_hyp :=
  match goal with
  | H : context [match ?x with _ => _ end] |- _ => destruct x eqn:?
  end.

(** Turns boolean tests on integers, strings and conjunctions into propositions. *)
Ltac to_prop :=
  repeat match goal with
  | H : andb _ _ = true |- _ => apply andb_prop in H as [? ?]
  | H : andb _ _ = false |- _ => apply andb_false_iff in H
  | H : orb _ _ = true |- _ => apply orb_true_iff in H
  | H : orb _ _ = false |- _ => apply orb_false_iff in H as [? ?]
  | H : negb _ = true |- _ => apply negb_true_iff in H
  | H : negb _ = false |- _ => apply negb_false_iff in H
  | H : (_ <=? _) = true |- _ => apply Z.leb_le in H
  | H : (_ <=? _) = false |- _ => apply Z.leb_gt in H
  | H : (_ <? _) = true |- _ => apply Z.ltb_lt in H
  | H : (_ <? _) = false |- _ => apply Z.ltb_ge in H
  | H : (_ =? _) = true |- _ => apply Z.eqb_eq in H
  | H : (_ =? _) = false |- _ => apply Z.eqb_neq in H
  | H : String.eqb _ _ = true |- _ => apply String.eqb_eq in H
  | H : String.eqb _ _ = false |- _ => apply String.eqb_neq in H
  | H : bool_decide _ = true |- _ => apply bool_decide_eq_true in H
  | H : bool_decide _ = false |- _ => apply bool_decide_eq_false in H
  end.

(** ** Strings as lists of bytes *)

Abbreviation bytes_of := String.list_ascii_of_string.

Lemma str_app_nil_l (s : string) : "" +:+ s = s.
Proof. reflexivity. Qed.

Lemma str_app_cons c (s t : string) : String c s +:+ t = String c (s +:+ t).
Proof. reflexivity. Qed.

Lemma str_app_nil_r (s : string) : s +:+ "" = s.
Proof. induction s; [done|]. by rewrite str_app_cons, IHs. Qed.

Lemma str_app_assoc (s t u : string) : (s +:+ t) +:+ u = s +:+ t +:+ u.
Proof. induction s; [done|]. by rewrite !str_app_cons, IHs. Qed.

#[export] Hint Rewrite str_app_nil_l str_app_cons str_app_nil_r str_app_assoc : ark_rw.

Lemma bytes_of_app (s t : string) : bytes_of (s +:+ t) = bytes_of s ++ bytes_of t.
Proof. induction s; [done|]. rewrite str_app_cons. cbn. by rewrite IHs. Qed.

Lemma bytes_of_inj (s t : string) : bytes_of s = bytes_of t -> s = t.
Proof.
  intros H. rewrite <- (String.string_of_list_ascii_of_string s), H.
  apply String.string_of_list_ascii_of_string.
Qed.

Lemma str_app_inj_l (p s t : string) : p +:+ s = p +:+ t -> s = t.
Proof. intros H. apply bytes_of_inj. apply (f_equal bytes_of) in H.
  rewrite !bytes_of_app in H. by apply app_inv_head in H. Qed.

Lemma str_app_inj_r (p q s : string) : p +:+ s = q +:+ s -> p = q.
Proof. intros H. apply bytes_of_inj. apply (f_equal bytes_of) in H.
  rewrite !bytes_of_app in H. by apply app_inv_tail in H. Qed.

Lemma str_length_bytes (s : string) : String.length s = length (bytes_of s).
Proof. induction s; cbn; auto. Qed.

Lemma str_length_app (s t : string) :
  String.length (s +:+ t) = (String.length s + String.length t)%nat.
Proof. by rewrite !str_length_bytes, bytes_of_app, length_app. Qed.

(** A predicate that holds of every byte of a string. *)
Definition str_all (P : ascii -> Prop) (s : string) : Prop := Forall P (bytes_of s).

Lemma str_all_app P s t : str_all P (s +:+ t) <-> str_all P s /\ str_all P t.
Proof. unfold str_all. by rewrite bytes_of_app, Forall_app. Qed.

Lemma str_all_cons P c s : str_all P (String c s) <-> P c /\ str_all P s.
Proof. unfold str_all. cbn. apply Forall_cons. Qed.

Lemma str_all_nil P : str_all P "".
Proof. constructor. Qed.

#[export] Hint Resolve str_all_nil : ark.

(** Two strings with a separator byte that occurs in neither of the parts before it are
    equal only when the parts are. *)
Lemma str_split_at (c : ascii) (p q s t : string) :
  str_all (.≠ c) p -> str_all (.≠ c) q ->
  p +:+ String c s = q +:+ String c t -> p = q /\ s = t.
Proof.
  revert q. induction p as [|a p IH]; intros [|b q] Hp Hq H; autorewrite with ark_rw in H.
  - by inv H.
  - inv H. apply str_all_cons in Hq as [? _]. done.
  - inv H. apply str_all_cons in Hp as [? _]. done.
  - inv H. apply str_all_cons in Hp as [? Hp], Hq as [? Hq].
    by destruct (IH q Hp Hq) as [-> ->].
Qed.

(** ** Lists *)

Lemma filter_bool_in {A} (f : A -> bool) (l : list A) x :
  x ∈ List.filter f l <-> x ∈ l /\ f x = true.
Proof. rewrite !list_elem_of_In. apply List.filter_In. Qed.

Lemma in_snoc {A} (l : list A) x : x ∈ l ++ [x].
Proof. apply elem_of_app. right. by left. Qed.

Lemma sublist_app_mid {A} (l1 m l2 : list A) : l1 ++ l2 `sublist_of` l1 ++ m ++ l2.
Proof.
  apply sublist_app; [done|]. by apply sublist_inserts_l.
Qed.

(** A map built by inserting the elements of a list keeps the last one of each key. *)
Lemma foldl_insert_last {A B} (k : A -> Z) (f : A -> B) (l : list A) (i : Z) :
  foldl (fun m x => <[k x := f x]> m) (∅ : gmap Z B) l !! i
  = f <$> last (List.filter (fun x => k x =? i) l).
Proof.
  induction l as [|x l IH] using rev_ind; [done|].
  rewrite foldl_snoc, List.filter_app, last_app. cbn.
  destruct (Z.eqb_spec (k x) i) as [->|Hne]; cbn; by rewrite ?lookup_insert_eq, ?lookup_insert_ne.
Qed.

Lemma last_filter_unique {A} (k : A -> Z) (l : list A) x :
  NoDup (k <$> l) -> x ∈ l -> last (List.filter (fun y => k y =? k x) l) = Some x.
Proof.
  intros Hnd Hx. destruct (last _) as [y|] eqn:E.
  - apply last_Some_elem_of, filter_bool_in in E as [Hy Hk]. to_prop. f_equal.
    apply list_elem_of_lookup in Hx as [i Hi], Hy as [j Hj].
    assert (i = j) as ->; [|congruence].
    eapply (NoDup_lookup _ _ _ (k x)); [exact Hnd|..]; rewrite list_lookup_fmap, ?Hi, ?Hj; cbn; congruence.
  - apply last_None in E. exfalso. assert (Hin : x ∈ List.filter (fun y => k y =? k x) l).
    { apply filter_bool_in. split; [done|]. apply Z.eqb_refl. }
    rewrite E in Hin. by apply elem_of_nil in Hin.
Qed.

Lemma existsb_Permutation {A} (f : A -> bool) l l' : l ≡ₚ l' -> existsb f l = existsb f l'.
Proof.
  intros H. apply eq_true_iff_eq. rewrite !existsb_exists.
  split; intros (x & Hx & Hf); exists x; (split; [|done]); apply list_elem_of_In;
    apply list_elem_of_In in Hx; [by rewrite <- H|by rewrite H].
Qed.

Lemma take_drop_snoc {A} (l : list A) n x :
  l !! n = Some x -> l = take n l ++ x :: drop (S n) l.
Proof. intros. by rewrite take_drop_middle. Qed.

#[export] Hint Resolve sublist_app_mid : ark.
