(* ===== verification/GoStd.v ===== *)
(** * The part of Go and of its standard library that the operator uses

    Integers at their width (conversions wrap), [strconv], the functions of package
    [strings] on byte strings, and sorting.  A Go [string] is a sequence of bytes; it is
    modelled by [string], whose characters are bytes.  A Go slice is a [list]. *)

From Stdlib Require Import DecimalString DecimalZ.
From S2P Require Import Prelude.

(** ** Integers *)

Module Int.

(** Two's-complement conversion to [w] bits. *)
Definition wrap (w z : Z) : Z := (z + 2 ^ (w - 1)) mod 2 ^ w - 2 ^ (w - 1).

Definition int32 : Z -> Z := wrap 32.
Definition int64 : Z -> Z := wrap 64.

Definition min32 : Z := - 2 ^ 31.
Definition max32 : Z := 2 ^ 31 - 1.

Lemma wrap_id w z : 0 < w -> - 2 ^ (w - 1) <= z < 2 ^ (w - 1) -> wrap w z = z.
Proof.
  intros Hw Hz. unfold wrap. rewrite Z.mod_small; [lia|].
  replace (2 ^ w) with (2 * 2 ^ (w - 1)); [lia|].
  rewrite <- Z.pow_succ_r by lia. f_equal. lia.
Qed.

Lemma int32_id z : - 2 ^ 31 <= z < 2 ^ 31 -> int32 z = z.
Proof. intros. by apply wrap_id. Qed.

Lemma int64_id z : - 2 ^ 63 <= z < 2 ^ 63 -> int64 z = z.
Proof. intros. by apply wrap_id. Qed.

Lemma int32_range z : - 2 ^ 31 <= int32 z < 2 ^ 31.
Proof. unfold int32, wrap. pose proof (Z.mod_pos_bound (z + 2 ^ (32 - 1)) (2 ^ 32)). lia. Qed.

End Int.

(** ** strconv *)

(** [strconv.FormatInt(z, 10)], also what [%d] prints. *)
Definition FormatInt (z : Z) : string := NilZero.string_of_int (Z.to_int z).

Definition is_digit (c : ascii) : bool := (48 <=? nat_of_ascii c)%nat && (nat_of_ascii c <=? 57)%nat.
Definition num_char (c : ascii) : Prop := is_digit c = true \/ c = "-"%char.

Lemma uint_digits (d : Decimal.uint) : str_all (fun c => is_digit c = true) (NilEmpty.string_of_uint d).
Proof. induction d; cbn; rewrite ?str_all_cons; auto with ark. Qed.

Lemma FormatInt_chars z : str_all num_char (FormatInt z).
Proof.
  assert (H : forall d, str_all (fun c => is_digit c = true) (NilZero.string_of_uint d)).
  { intros []; try apply (uint_digits (Decimal.D0 _)); try apply uint_digits. by repeat constructor. }
  assert (H' : forall d, str_all num_char (NilZero.string_of_uint d)).
  { intros d. unfold str_all. eapply Forall_impl; [apply H|]. by left. }
  unfold FormatInt. destruct (Z.to_int z); cbn; [apply H'|].
  apply str_all_cons. split; [by right|apply H'].
Qed.

Lemma FormatInt_inj z1 z2 : FormatInt z1 = FormatInt z2 -> z1 = z2.
Proof.
  intros H. apply (f_equal NilZero.int_of_string) in H. unfold FormatInt in H.
  assert (Hn : forall z, Z.to_int z <> Decimal.Pos Decimal.Nil /\ Z.to_int z <> Decimal.Neg Decimal.Nil).
  { intros []; cbn; split; intros E; inv E; by eapply DecimalPos.Unsigned.to_uint_nonnil. }
  rewrite !NilZero.isi in H by apply Hn. inv H.
  by apply DecimalZ.to_int_inj.
Qed.

Lemma num_char_not (c : ascii) s : ~ num_char c -> str_all num_char s -> str_all (.≠ c) s.
Proof. intros Hc H. eapply Forall_impl; [exact H|]. cbn. by intros a Ha ->. Qed.

Lemma FormatInt_no_comma z : str_all (.≠ ","%char) (FormatInt z).
Proof. eapply num_char_not; [|apply FormatInt_chars]. intros [?|?]; done. Qed.

Lemma FormatInt_no_bar z : str_all (.≠ "|"%char) (FormatInt z).
Proof. eapply num_char_not; [|apply FormatInt_chars]. intros [?|?]; done. Qed.

Lemma FormatInt_nonempty z : FormatInt z <> "".
Proof.
  unfold FormatInt. destruct (Z.to_int z) as [d|d]; [|done].
  by destruct d.
Qed.

(** ** strings *)

(** [s[:n]] and [s[n:]]. *)
Fixpoint str_take (n : nat) (s : string) : string :=
  match n, s with S n, String c s => String c (str_take n s) | _, _ => "" end.
Fixpoint str_drop (n : nat) (s : string) : string :=
  match n, s with S n, String _ s => str_drop n s | _, _ => s end.

Fixpoint HasPrefix (s p : string) : bool :=
  match p, s with
  | EmptyString, _ => true
  | String a p, String b s => Ascii.eqb a b && HasPrefix s p
  | String _ _, EmptyString => false
  end.

Definition HasSuffix (s suffix : string) : bool :=
  (String.length suffix <=? String.length s)%nat &&
  String.eqb (str_drop (String.length s - String.length suffix) s) suffix.

Definition TrimSuffix (s suffix : string) : string :=
  if HasSuffix s suffix then str_take (String.length s - String.length suffix) s else s.

Fixpoint Join (l : list string) (sep : string) : string :=
  match l with
  | [] => ""
  | [x] => x
  | x :: l => x +:+ sep +:+ Join l sep
  end.

(** [strings.Split(s, sep)] for a one-byte separator. *)
Fixpoint Split (s : string) (sep : ascii) : list string :=
  match s with
  | "" => [""]
  | String c s =>
      if Ascii.eqb c sep then "" :: Split s sep
      else match Split s sep with
           | [] => [String c ""]
           | x :: l => String c x :: l
           end
  end.

(** [strings.ReplaceAll(s, old, new)] for a non-empty [old]: the leftmost occurrences, which
    do not overlap.  [skip] counts the bytes of the current occurrence still to be passed. *)
Fixpoint replace_from (skip : nat) (s old new : string) : string :=
  match s with
  | "" => ""
  | String c s' =>
      match skip with
      | S k => replace_from k s' old new
      | O => if HasPrefix s old
             then new +:+ replace_from (String.length old - 1) s' old new
             else String c (replace_from 0 s' old new)
      end
  end.
Definition ReplaceAll (s old new : string) : string := replace_from 0 s old new.

(** [strings.Trim(s, "c")] for a one-byte cutset. *)
Fixpoint trim_left (s : string) (c : ascii) : string :=
  match s with
  | String a s' => if Ascii.eqb a c then trim_left s' c else s
  | "" => ""
  end.
Fixpoint trim_right (s : string) (c : ascii) : string :=
  match s with
  | "" => ""
  | String a s' =>
      match trim_right s' c with
      | "" => if Ascii.eqb a c then "" else String a ""
      | t => String a t
      end
  end.
Definition Trim (s : string) (c : ascii) : string := trim_right (trim_left s c) c.

(** *** strings.TrimSpace

    [unicode.IsSpace] on the UTF-8 encodings: one byte for the ASCII spaces, two for U+0085
    and U+00A0, three for U+1680, U+2000..U+200A, U+2028, U+2029, U+202F, U+205F, U+3000. *)
Definition byte_is (c : ascii) (l : list nat) : bool := existsb (Nat.eqb (nat_of_ascii c)) l.

Definition space1 (a : ascii) : bool := byte_is a [9; 10; 11; 12; 13; 32]%nat.
Definition space2 (a b : ascii) : bool := byte_is a [194]%nat && byte_is b [133; 160]%nat.
Definition space3 (a b c : ascii) : bool :=
  (byte_is a [225]%nat && byte_is b [154]%nat && byte_is c [128]%nat) ||
  (byte_is a [226]%nat && byte_is b [128]%nat &&
     byte_is c [128; 129; 130; 131; 132; 133; 134; 135; 136; 137; 138; 168; 169; 175]%nat) ||
  (byte_is a [226]%nat && byte_is b [129]%nat && byte_is c [159]%nat) ||
  (byte_is a [227]%nat && byte_is b [128]%nat && byte_is c [128]%nat).

Fixpoint trim_space_left (s : string) : string :=
  match s with
  | "" => ""
  | String a s1 =>
      if space1 a then trim_space_left s1 else
      match s1 with
      | "" => s
      | String b s2 =>
          if space2 a b then trim_space_left s2 else
          match s2 with
          | "" => s
          | String c s3 => if space3 a b c then trim_space_left s3 else s
          end
      end
  end.

Definition all_space (s : string) : bool := String.eqb (trim_space_left s) "".

(** The cut is at the first position from which only spaces follow: no encoding of a space
    is a suffix of another one, so this is where the scan from the right stops. *)
Fixpoint trim_space_right (s : string) : string :=
  match s with
  | "" => ""
  | String a s' => if all_space s then "" else String a (trim_space_right s')
  end.

Definition TrimSpace (s : string) : string := trim_space_right (trim_space_left s).

(** *** strings.ToLower

    ASCII letters, and the two letters above ASCII whose lower case is ASCII: U+0130 and
    U+212A.  The lower case of every other letter above ASCII is above ASCII; it is left
    unchanged here, which the operator cannot tell apart: [MapSlug], the only caller,
    replaces each run of bytes above ASCII by one dash. *)
Definition lower_byte (a : ascii) : ascii :=
  let n := nat_of_ascii a in
  if (65 <=? n)%nat && (n <=? 90)%nat then ascii_of_nat (n + 32) else a.

Fixpoint ToLower (s : string) : string :=
  match s with
  | "" => ""
  | String a s1 =>
      match s1 with
      | String b s2 =>
          if byte_is a [196]%nat && byte_is b [176]%nat then String "i" (ToLower s2) else
          match s2 with
          | String c s3 =>
              if byte_is a [226]%nat && byte_is b [132]%nat && byte_is c [170]%nat
              then String "k" (ToLower s3)
              else String (lower_byte a) (ToLower s1)
          | "" => String (lower_byte a) (ToLower s1)
          end
      | "" => String (lower_byte a) ""
      end
  end.

(** ** encoding/json

    Values of JSON, the fields of an object in order.  The library writes a value as text and reads
    it back as it was; what it does between structs and values is modelled: fields go by their
    tags, a nil slice is null, an absent field or null is the zero value, and in a string each byte
    that is not part of the UTF-8 encoding of a character is replaced by U+FFFD. *)
Inductive json :=
  | JNull
  | JBool (b : bool)
  | JNum (z : Z)
  | JStr (s : string)
  | JArr (l : list json)
  | JObj (fields : list (string * json)).

Definition byte_between (lo hi : nat) (c : ascii) : bool :=
  let n := nat_of_ascii c in (lo <=? n)%nat && (n <=? hi)%nat.

(** The encodings of [utf8.DecodeRune]: without overlong ones, surrogates and code points above
    U+10FFFF. *)
Definition utf8_next (c : ascii) : bool := byte_between 128 191 c.
Definition utf8_1 (a : ascii) : bool := byte_between 0 127 a.
Definition utf8_2 (a b : ascii) : bool := byte_between 194 223 a && utf8_next b.
Definition utf8_3 (a b c : ascii) : bool :=
  ((byte_is a [224]%nat && byte_between 160 191 b) ||
   (byte_is a [237]%nat && byte_between 128 159 b) ||
   ((byte_between 225 236 a || byte_between 238 239 a) && utf8_next b)) && utf8_next c.
Definition utf8_4 (a b c d : ascii) : bool :=
  ((byte_is a [240]%nat && byte_between 144 191 b) ||
   (byte_is a [244]%nat && byte_between 128 143 b) ||
   (byte_between 241 243 a && utf8_next b)) && utf8_next c && utf8_next d.

(** U+FFFD. *)
Definition rune_error : string := String "239" (String "191" (String "189" "")).

(** What a string is after it was written and read. *)
Fixpoint json_text (s : string) : string :=
  match s with
  | "" => ""
  | String a s1 =>
      if utf8_1 a then String a (json_text s1) else
      match s1 with
      | "" => rune_error
      | String b s2 =>
          if utf8_2 a b then String a (String b (json_text s2)) else
          match s2 with
          | "" => rune_error +:+ json_text s1
          | String c s3 =>
              if utf8_3 a b c then String a (String b (String c (json_text s3))) else
              match s3 with
              | "" => rune_error +:+ json_text s1
              | String d s4 =>
                  if utf8_4 a b c d then String a (String b (String c (String d (json_text s4))))
                  else rune_error +:+ json_text s1
              end
          end
      end
  end.

(** [utf8.ValidString]. *)
Fixpoint ValidString (s : string) : bool :=
  match s with
  | "" => true
  | String a s1 =>
      if utf8_1 a then ValidString s1 else
      match s1 with
      | "" => false
      | String b s2 =>
          if utf8_2 a b then ValidString s2 else
          match s2 with
          | "" => false
          | String c s3 =>
              if utf8_3 a b c then ValidString s3 else
              match s3 with
              | "" => false
              | String d s4 => if utf8_4 a b c d then ValidString s4 else false
              end
          end
      end
  end.

Lemma json_text_valid s : ValidString s = true -> json_text s = s.
Proof.
  remember (String.length s) as n eqn:Hn. revert s Hn.
  induction n as [n IH] using lt_wf_ind. intros s -> Hv.
  assert (Hrec : forall t, (String.length t < String.length s)%nat -> ValidString t = true -> json_text t = t)
    by (intros t Ht; by apply (IH _ Ht)). clear IH.
  destruct s as [|a s1]; [done|]. cbn [json_text ValidString String.length] in *.
  destruct (utf8_1 a); [f_equal; apply Hrec; [lia|done]|].
  destruct s1 as [|b s2]; [done|]. cbn [json_text ValidString String.length] in *.
  destruct (utf8_2 a b); [do 2 f_equal; apply Hrec; [lia|done]|].
  destruct s2 as [|c s3]; [done|]. cbn [json_text ValidString String.length] in *.
  destruct (utf8_3 a b c); [do 3 f_equal; apply Hrec; [lia|done]|].
  destruct s3 as [|d s4]; [done|]. cbn [json_text ValidString String.length] in *.
  destruct (utf8_4 a b c d); [|done]. do 4 f_equal. apply Hrec; [lia|done].
Qed.

(** The field of an object with the tag. *)
Definition json_field (tag : string) (j : json) : json :=
  match j with
  | JObj fields =>
      match List.find (fun f => String.eqb f.1 tag) fields with Some f => f.2 | None => JNull end
  | _ => JNull
  end.

(** Reading a value into a variable of a Go type; [None] is a type error. *)
Definition json_int (j : json) : option Z :=
  match j with JNull => Some 0 | JNum z => Some z | _ => None end.
Definition json_string (j : json) : option string :=
  match j with JNull => Some "" | JStr s => Some s | _ => None end.
Definition json_bool (j : json) : option bool :=
  match j with JNull => Some false | JBool b => Some b | _ => None end.
Definition json_list {A} (f : json -> option A) (j : json) : option (list A) :=
  match j with JNull => Some [] | JArr l => mapM f l | _ => None end.
Definition json_struct {A} (f : json -> option A) (j : json) : option A :=
  match j with JNull | JObj _ => f j | _ => None end.

(** ** sort *)

(** [sort.Strings] and [sort.Slice] with [<] on integers: on a total order every sorting
    algorithm gives the same list. *)
Definition sort_strings : list string -> list string := merge_sort String.le.
Definition sort_ints : list Z -> list Z := merge_sort (≤)%Z.

(** ** Lemmas *)

Lemma HasPrefix_app p s : HasPrefix (p +:+ s) p = true.
Proof. induction p; [by destruct s|]. autorewrite with ark_rw. cbn. by rewrite Ascii.eqb_refl. Qed.

Lemma HasPrefix_spec s p : HasPrefix s p = true <-> exists t, s = p +:+ t.
Proof.
  split; [|intros [t ->]; apply HasPrefix_app].
  revert s. induction p as [|a p IH]; intros s H; [by exists s|].
  destruct s as [|b s]; [done|]. cbn in H. to_prop. apply Ascii.eqb_eq in H as ->.
  destruct (IH s) as [t ->]; [done|]. by exists t.
Qed.

Lemma str_drop_app p s : str_drop (String.length p) (p +:+ s) = s.
Proof. by induction p. Qed.

Lemma str_take_app p s : str_take (String.length p) (p +:+ s) = p.
Proof. induction p; cbn; [by destruct s|]. rewrite str_app_cons. cbn. by f_equal. Qed.

Lemma str_take_drop n s : str_take n s +:+ str_drop n s = s.
Proof. revert s. induction n; intros []; cbn; rewrite ?str_app_cons, ?IHn; done. Qed.

Lemma str_take_length n s : (n <= String.length s)%nat -> String.length (str_take n s) = n.
Proof. revert s. induction n; intros [] ?; cbn in *; try lia. rewrite IHn; lia. Qed.

Lemma HasSuffix_app s t : HasSuffix (s +:+ t) t = true.
Proof.
  unfold HasSuffix. rewrite str_length_app. apply andb_true_intro. split.
  - apply Nat.leb_le. lia.
  - replace (_ + _ - _)%nat with (String.length s) by lia.
    rewrite str_drop_app. apply String.eqb_refl.
Qed.

Lemma str_all_take P n s : str_all P s -> str_all P (str_take n s).
Proof. intros H. rewrite <- (str_take_drop n s) in H. by apply str_all_app in H as [? _]. Qed.

(** [Split] and [Join] are inverse to each other. *)
Lemma Split_nonempty s c : Split s c <> [].
Proof. destruct s; cbn; [done|]. destruct (Ascii.eqb _ _); [done|]. by destruct (Split s c). Qed.

Lemma Join_cons x l sep : l <> [] -> Join (x :: l) sep = x +:+ sep +:+ Join l sep.
Proof. by destruct l. Qed.

Lemma Join_Split s c : Join (Split s c) (String c "") = s.
Proof.
  induction s as [|a s IH]; [done|]. cbn [Split].
  pose proof (Split_nonempty s c) as Hne.
  destruct (Ascii.eqb_spec a c) as [->|Ha].
  - rewrite Join_cons, IH by done. by autorewrite with ark_rw.
  - destruct (Split s c) as [|x [|y l]]; [done|..]; rewrite <- IH; cbn;
      autorewrite with ark_rw; done.
Qed.

Lemma Split_no_sep s c : Forall (str_all (.≠ c)) (Split s c).
Proof.
  induction s as [|a s IH]; cbn; [by repeat constructor|].
  destruct (Ascii.eqb_spec a c) as [->|Ha]; [by constructor; auto with ark|].
  destruct (Split s c) as [|x l]; [by repeat constructor|].
  inv IH. constructor; [|done]. by apply str_all_cons.
Qed.

Lemma Split_app_sep x s c : str_all (.≠ c) x -> Split (x +:+ String c s) c = x :: Split s c.
Proof.
  induction x as [|a x IH]; intros H; autorewrite with ark_rw; cbn.
  - by rewrite Ascii.eqb_refl.
  - apply str_all_cons in H as [Ha Hx]. destruct (Ascii.eqb_spec a c); [done|].
    by rewrite IH.
Qed.

Lemma Split_none x c : str_all (.≠ c) x -> Split x c = [x].
Proof.
  induction x as [|a x IH]; intros H; cbn; [done|].
  apply str_all_cons in H as [Ha Hx]. destruct (Ascii.eqb_spec a c); [done|]. by rewrite IH.
Qed.

Lemma Split_Join l c : l <> [] -> Forall (str_all (.≠ c)) l -> Split (Join l (String c "")) c = l.
Proof.
  induction l as [|x [|y l] IH]; intros Hne H; [done| |].
  - inv H. by apply Split_none.
  - inv H. rewrite Join_cons by done. rewrite str_app_cons, str_app_nil_l, Split_app_sep by done.
    by rewrite IH.
Qed.

(** A joined list of non-empty parts that do not hold the separator determines the list. *)
Lemma Join_inj c l1 l2 :
  Forall (fun s => str_all (.≠ c) s /\ s <> "") l1 ->
  Forall (fun s => str_all (.≠ c) s /\ s <> "") l2 ->
  Join l1 (String c "") = Join l2 (String c "") -> l1 = l2.
Proof.
  intros H1 H2 H. destruct (decide (l1 = [])) as [->|N1], (decide (l2 = [])) as [->|N2]; try done.
  - destruct l2 as [|x [|y l2]]; [done|..]; apply Forall_cons in H2 as [[_ ?] _]; destruct x; cbn in H; done.
  - destruct l1 as [|x [|y l1]]; [done|..]; apply Forall_cons in H1 as [[_ ?] _]; destruct x; cbn in H; done.
  - apply (f_equal (fun s => Split s c)) in H.
    rewrite !Split_Join in H; try done; (eapply Forall_impl; [eassumption|]; by intros ? [? _]).
Qed.

(** Sorting depends only on the multiset of the elements. *)
Lemma sort_ints_Permutation l : sort_ints l ≡ₚ l.
Proof. apply merge_sort_Permutation. Qed.
Lemma sort_strings_Permutation l : sort_strings l ≡ₚ l.
Proof. apply merge_sort_Permutation. Qed.
Lemma sort_ints_Sorted l : Sorted (≤) (sort_ints l).
Proof. apply Sorted_merge_sort, _. Qed.
Lemma sort_strings_Sorted l : Sorted String.le (sort_strings l).
Proof. apply Sorted_merge_sort, _. Qed.

#[export] Instance sort_ints_Proper : Proper ((≡ₚ) ==> (=)) sort_ints.
Proof.
  intros l1 l2 H. apply (Sorted_unique (≤)%Z); [apply sort_ints_Sorted..|].
  by rewrite !sort_ints_Permutation.
Qed.

#[export] Instance sort_strings_Proper : Proper ((≡ₚ) ==> (=)) sort_strings.
Proof.
  intros l1 l2 H. apply (Sorted_unique String.le); [apply sort_strings_Sorted..|].
  by rewrite !sort_strings_Permutation.
Qed.

#[export] Hint Resolve sort_ints_Permutation sort_strings_Permutation sort_ints_Sorted
  sort_strings_Sorted HasPrefix_app HasSuffix_app FormatInt_no_comma FormatInt_no_bar
  FormatInt_nonempty Split_nonempty : ark.

(** *** Trimming and replacing *)

Lemma HasSuffix_spec s t : HasSuffix s t = true <-> exists p, s = p +:+ t.
Proof.
  split; [|intros [p ->]; apply HasSuffix_app].
  unfold HasSuffix. intros [_ H]%andb_prop. apply String.eqb_eq in H.
  exists (str_take (String.length s - String.length t) s).
  rewrite <- (str_take_drop (String.length s - String.length t) s) at 1. by rewrite H.
Qed.

Lemma TrimSuffix_none s t : HasSuffix s t = false -> TrimSuffix s t = s.
Proof. intros H. unfold TrimSuffix. by rewrite H. Qed.

Lemma TrimSuffix_app s t : TrimSuffix (s +:+ t) t = s.
Proof.
  unfold TrimSuffix. rewrite HasSuffix_app, str_length_app.
  replace (_ + _ - _)%nat with (String.length s) by lia. apply str_take_app.
Qed.

Lemma str_all_TrimSuffix P s t : str_all P s -> str_all P (TrimSuffix s t).
Proof. intros. unfold TrimSuffix. case_match; [by apply str_all_take|done]. Qed.

Lemma str_all_trim_left P s c : str_all P s -> str_all P (trim_left s c).
Proof.
  induction s; cbn; [done|]. rewrite str_all_cons. intros [? ?].
  case_match; [auto|]. by apply str_all_cons.
Qed.

Lemma str_all_trim_right P s c : str_all P s -> str_all P (trim_right s c).
Proof.
  induction s as [|a s IH]; cbn; [done|]. rewrite str_all_cons. intros [Ha H].
  specialize (IH H). destruct (trim_right s c); [case_match; [apply str_all_nil|]|];
    by apply str_all_cons.
Qed.

Lemma trim_left_head s c : HasPrefix (trim_left s c) (String c "") = false.
Proof.
  induction s as [|a s IH]; [done|]. cbn. destruct (Ascii.eqb_spec a c); [done|].
  cbn. by destruct (Ascii.eqb_spec c a); subst.
Qed.

Lemma HasPrefix_byte a s c : HasPrefix (String a s) (String c "") = Ascii.eqb c a.
Proof. cbn. rewrite andb_comm. by destruct s. Qed.

Lemma trim_right_head s c : HasPrefix s (String c "") = false ->
  HasPrefix (trim_right s c) (String c "") = false.
Proof.
  destruct s as [|a s]; [done|]. rewrite HasPrefix_byte. intros H. cbn [trim_right].
  destruct (trim_right s c); [case_match; [done|]|]; by rewrite HasPrefix_byte.
Qed.

Lemma trim_right_last s c : HasSuffix (trim_right s c) (String c "") = false.
Proof.
  apply not_true_iff_false. intros [p Hp]%HasSuffix_spec. revert p Hp.
  induction s as [|a s IH]; intros p Hp; [by destruct p|]. cbn in Hp.
  destruct (trim_right s c) as [|b t].
  - destruct (Ascii.eqb_spec a c); [by destruct p|]. destruct p as [|? [|??]]; inv Hp; done.
  - destruct p as [|x p]; [by inv Hp|]. rewrite str_app_cons in Hp. inv Hp. by eapply IH.
Qed.

Lemma trim_left_id s c : HasPrefix s (String c "") = false -> trim_left s c = s.
Proof.
  destruct s as [|a s]; [done|]. cbn. rewrite Ascii.eqb_sym.
  by destruct (Ascii.eqb a c); [destruct s|].
Qed.

Lemma trim_right_id s c : HasSuffix s (String c "") = false -> trim_right s c = s.
Proof.
  intros H. assert (Hp : forall p, s <> p +:+ String c "").
  { intros p ->. by rewrite HasSuffix_app in H. }
  clear H. induction s as [|a s IH]; [done|]. cbn.
  rewrite IH by (intros p ->; by eapply (Hp (String a p))).
  destruct s; [|done]. destruct (Ascii.eqb_spec a c) as [->|]; [by edestruct (Hp "")|done].
Qed.

Lemma Trim_id s c :
  HasPrefix s (String c "") = false -> HasSuffix s (String c "") = false -> Trim s c = s.
Proof. intros. unfold Trim. rewrite trim_left_id by done. by apply trim_right_id. Qed.

(** Replacing a pattern whose first byte does not occur in the text around it. *)
Lemma replace_skip p s old new : replace_from (String.length p) (p +:+ s) old new = replace_from 0 s old new.
Proof. induction p as [|a p IH]; [by destruct s|]. cbn. apply IH. Qed.

Lemma ReplaceAll_none s a old new : str_all (.≠ a) s -> ReplaceAll s (String a old) new = s.
Proof.
  unfold ReplaceAll. induction s as [|b s IH]; intros H; [done|]. cbn.
  apply str_all_cons in H as [Hb Hs]. destruct (Ascii.eqb_spec a b); [done|]. cbn.
  by rewrite IH.
Qed.

Lemma ReplaceAll_app p s a old new :
  str_all (.≠ a) p -> ReplaceAll (p +:+ s) (String a old) new = p +:+ ReplaceAll s (String a old) new.
Proof.
  unfold ReplaceAll. induction p as [|b p IH]; intros H; [done|].
  apply str_all_cons in H as [Hb Hs]. rewrite !str_app_cons. cbn.
  destruct (Ascii.eqb_spec a b); [done|]. cbn. by rewrite IH.
Qed.

Lemma ReplaceAll_match s a old new :
  ReplaceAll (String a old +:+ s) (String a old) new = new +:+ ReplaceAll s (String a old) new.
Proof.
  unfold ReplaceAll. rewrite str_app_cons. cbn [replace_from].
  rewrite <- str_app_cons, HasPrefix_app. cbn [String.length].
  rewrite Nat.sub_succ, Nat.sub_0_r. by rewrite replace_skip.
Qed.

(** A join nested in a join with the same separator is one join. *)
Lemma Join_app l1 l2 sep : l1 <> [] -> l2 <> [] ->
  Join (l1 ++ l2) sep = Join l1 sep +:+ sep +:+ Join l2 sep.
Proof.
  intros H1 H2. induction l1 as [|x [|y l1] IH]; [done| |].
  - apply Join_cons, H2.
  - change ((x :: y :: l1) ++ l2) with (x :: ((y :: l1) ++ l2)).
    rewrite !Join_cons, IH by done. by autorewrite with ark_rw.
Qed.

Lemma Join_nested l1 l l2 sep : l <> [] ->
  Join (l1 ++ Join l sep :: l2) sep = Join (l1 ++ l ++ l2) sep.
Proof.
  intros Hl.
  assert (H : forall l2, Join (Join l sep :: l2) sep = Join (l ++ l2) sep).
  { intros [|y m]; [by rewrite app_nil_r|]. by rewrite Join_cons, Join_app. }
  destruct l1 as [|x l1]; [apply H|].
  rewrite (Join_app (x :: l1) (Join l sep :: l2)), (Join_app (x :: l1) (l ++ l2)), H;
    try done. by destruct l.
Qed.

(** ** Text by lines *)

Definition newline : ascii := ascii_of_nat 10.
Definition nl : string := String newline "".

(** [strings.Index]; [None] is -1. *)
Fixpoint Index (s sub : string) : option nat :=
  if HasPrefix s sub then Some O
  else match s with
       | "" => None
       | String _ s => S <$> Index s sub
       end.
Definition Contains (s sub : string) : bool := bool_decide (is_Some (Index s sub)).

Definition TrimPrefix (s prefix : string) : string :=
  if HasPrefix s prefix then str_drop (String.length prefix) s else s.

(** The tokens of a [bufio.Scanner] with its split function [ScanLines]: without their line ends,
    [\r] included; no token after a last line end; a line that fills the buffer of
    [MaxScanTokenSize] bytes ends the scan. *)
Definition MaxScanTokenSize : Z := 64 * 1024.
Definition dropCR (line : string) : string := TrimSuffix line (String (ascii_of_nat 13) "").
Fixpoint scan_tokens (lines : list string) : list string :=
  match lines with
  | [] | [""] => []
  | line :: lines =>
      if MaxScanTokenSize <=? Z.of_nat (String.length line) then [] else dropCR line :: scan_tokens lines
  end.
Definition ScanLines (text : string) : list string := scan_tokens (Split text newline).

(** A part without the separator lies within one part of the split. *)
Lemma Split_app_line c s t : str_all (.≠ c) s ->
  exists x l, Split t c = x :: l /\ Split (s +:+ t) c = (s +:+ x) :: l.
Proof.
  intros Hs. destruct (Split t c) as [|x l] eqn:E; [by apply Split_nonempty in E|]. exists x, l. split; [done|].
  induction s as [|a s IH]; [done|]. apply str_all_cons in Hs as [Ha Hs]. rewrite !str_app_cons. cbn [Split].
  destruct (Ascii.eqb_spec a c); [done|]. by rewrite (IH Hs).
Qed.

Lemma Split_keeps c p s t : str_all (.≠ c) s ->
  exists l1 a b l2, Split (p +:+ s +:+ t) c = l1 ++ (a +:+ s +:+ b) :: l2.
Proof.
  intros Hs. induction p as [|ch p (l1 & a & b & l2 & IH)].
  - destruct (Split_app_line c s t Hs) as (x & l & _ & H). rewrite str_app_nil_l, H. by exists [], "", x, l.
  - rewrite str_app_cons. cbn [Split]. rewrite IH. destruct (Ascii.eqb ch c).
    + by exists ("" :: l1), a, b, l2.
    + destruct l1 as [|y l1]; cbn [app]; [by exists [], (String ch a), b, l2|by exists (String ch y :: l1), a, b, l2].
Qed.

(** The first occurrence, and no earlier one. *)
Lemma Index_spec s sub i : Index s sub = Some i ->
  exists t, s = str_take i s +:+ sub +:+ t /\ String.length (str_take i s) = i /\
    forall j, (j < i)%nat -> HasPrefix (str_drop j s) sub = false.
Proof.
  revert i. induction s as [|a s IH]; intros i; cbn [Index].
  - destruct (HasPrefix "" sub) eqn:Hp; [|done]. intros [= <-]. apply HasPrefix_spec in Hp as [t Ht].
    exists t. split; [exact Ht|]. split; [done|lia].
  - destruct (HasPrefix (String a s) sub) eqn:Hp.
    + intros [= <-]. apply HasPrefix_spec in Hp as [t Ht]. exists t. split; [exact Ht|]. split; [done|lia].
    + destruct (Index s sub) as [k|]; [|done]. intros [= <-]. destruct (IH k eq_refl) as (t & Hs & Hl & Hno).
      exists t. cbn [str_take]. split; [by rewrite str_app_cons, <- Hs|]. split; [cbn; by rewrite Hl|].
      intros [|j] Hj; [exact Hp|]. apply Hno. lia.
Qed.

Lemma Index_none s sub : Index s sub = None <-> forall j, HasPrefix (str_drop j s) sub = false.
Proof.
  induction s as [|a s IH]; cbn [Index].
  - destruct (HasPrefix "" sub) eqn:Hp; split; try done; [|by intros _ []].
    intros H. specialize (H O). cbn [str_drop] in H. congruence.
  - destruct (HasPrefix (String a s) sub) eqn:Hp.
    + split; [done|]. intros H. specialize (H O). cbn [str_drop] in H. congruence.
    + rewrite fmap_None, IH. split; [intros H [|j]; [exact Hp|apply H]|intros H j; apply (H (S j))].
Qed.

Lemma Contains_spec s sub : Contains s sub = true <-> exists p t, s = p +:+ sub +:+ t.
Proof.
  unfold Contains. rewrite bool_decide_eq_true. split.
  - intros [i (t & Hs & _)%Index_spec]. by exists (str_take i s), t.
  - intros (p & t & ->). apply not_eq_None_Some. rewrite Index_none. intros H.
    specialize (H (String.length p)). by rewrite str_drop_app, HasPrefix_app in H.
Qed.

Lemma TrimPrefix_app p s : TrimPrefix (p +:+ s) p = s.
Proof. unfold TrimPrefix. by rewrite HasPrefix_app, str_drop_app. Qed.

Lemma TrimPrefix_nil s : TrimPrefix s "" = s.
Proof. by destruct s. Qed.

Lemma Index_app s t : Index (s +:+ t) s = Some O.
Proof.
  assert (H : HasPrefix (s +:+ t) s = true) by apply HasPrefix_app. destruct (s +:+ t); cbn [Index]; by rewrite H.
Qed.

(** Lines that a scan gives back as they are. *)
Definition plain_line (line : string) : Prop :=
  str_all (.≠ newline) line /\ HasSuffix line (String (ascii_of_nat 13) "") = false /\
  Z.of_nat (String.length line) < MaxScanTokenSize.

Lemma scan_tokens_cons line lines :
  plain_line line -> line <> "" \/ lines <> [] -> scan_tokens (line :: lines) = line :: scan_tokens lines.
Proof.
  intros (_ & Hcr & Hlen) Hne. transitivity (dropCR line :: scan_tokens lines).
  - cbn [scan_tokens]. rewrite (proj2 (Z.leb_gt _ _) Hlen). by destruct line, lines, Hne.
  - unfold dropCR. by rewrite TrimSuffix_none.
Qed.

Lemma scan_tokens_plain lines :
  Forall plain_line lines -> last lines <> Some "" -> scan_tokens lines = lines.
Proof.
  intros Hall. induction Hall as [|line lines Hline Hall IH]; intros Hlast; [done|].
  rewrite scan_tokens_cons; [|done|].
  - f_equal. apply IH. intros H. apply Hlast. rewrite last_cons. by rewrite H.
  - destruct lines; [left|by right]. intros ->. by apply Hlast.
Qed.

Lemma ScanLines_plain lines :
  lines <> [] -> Forall plain_line lines -> last lines <> Some "" -> ScanLines (Join lines nl) = lines.
Proof.
  intros Hne Hall Hlast. unfold ScanLines, nl. rewrite Split_Join; [by apply scan_tokens_plain|done|].
  eapply Forall_impl; [exact Hall|]. by intros line [].
Qed.
