(* ===== verification/Digest.v ===== *)
(** * The digests the operator computes: SHA-256, hexadecimal and base64

    [crypto/sha256] (FIPS 180-4), [encoding/hex] and [encoding/base64], executable, so that
    the hashes the controller compares are the ones the program prints. *)

From S2P Require Import Prelude GoStd.

(** ** SHA-256 *)

Definition w32 (z : Z) : Z := z mod 2 ^ 32.
Definition rotr (n x : Z) : Z := Z.lor (Z.shiftr x n) (w32 (Z.shiftl x (32 - n))).

Definition Sha_K : list Z := [
    1116352408; 1899447441; 3049323471; 3921009573; 961987163; 1508970993; 2453635748;
    2870763221; 3624381080; 310598401; 607225278; 1426881987; 1925078388; 2162078206;
    2614888103; 3248222580; 3835390401; 4022224774; 264347078; 604807628; 770255983;
    1249150122; 1555081692; 1996064986; 2554220882; 2821834349; 2952996808; 3210313671;
    3336571891; 3584528711; 113926993; 338241895; 666307205; 773529912; 1294757372;
    1396182291; 1695183700; 1986661051; 2177026350; 2456956037; 2730485921; 2820302411;
    3259730800; 3345764771; 3516065817; 3600352804; 4094571909; 275423344; 430227734;
    506948616; 659060556; 883997877; 958139571; 1322822218; 1537002063; 1747873779;
    1955562222; 2024104815; 2227730452; 2361852424; 2428436474; 2756734187; 3204031479;
    3329325298].

Definition Sha_H0 : list Z := [
    1779033703; 3144134277; 1013904242; 2773480762; 1359893119; 2600822924; 528734635;
    1541459225].

Definition byte_val (c : ascii) : Z := Z.of_N (N_of_ascii c).
Definition byte_of (z : Z) : ascii := ascii_of_N (Z.to_N z).

(** Big-endian words of a byte list whose length is a multiple of four. *)
Fixpoint be_words (l : list Z) : list Z :=
  match l with
  | a :: b :: c :: d :: l => a * 2 ^ 24 + b * 2 ^ 16 + c * 2 ^ 8 + d :: be_words l
  | _ => []
  end.

(** [n] bytes, most significant first. *)
Fixpoint be_bytes (n : nat) (z : Z) : list Z :=
  match n with
  | O => []
  | S k => (z / 2 ^ (8 * Z.of_nat k)) mod 256 :: be_bytes k z
  end.

Definition sha_pad (l : list Z) : list Z :=
  let n := Z.of_nat (length l) in
  l ++ 128 :: replicate (Z.to_nat ((55 - n) mod 64)) 0 ++ be_bytes 8 (8 * n).

(** The message schedule, most recent word first: [k] more words. *)
Fixpoint schedule (k : nat) (w : list Z) : list Z :=
  match k with
  | O => w
  | S k =>
      let w15 := nth 14 w 0 in
      let w2 := nth 1 w 0 in
      let s0 := Z.lxor (Z.lxor (rotr 7 w15) (rotr 18 w15)) (Z.shiftr w15 3) in
      let s1 := Z.lxor (Z.lxor (rotr 17 w2) (rotr 19 w2)) (Z.shiftr w2 10) in
      schedule k (w32 (nth 15 w 0 + s0 + nth 6 w 0 + s1) :: w)
  end.

Record sha_state := Sha { sa : Z; sb : Z; sc : Z; sd : Z; se : Z; sf : Z; sg : Z; sh : Z }.

Definition sha_round (st : sha_state) (kw : Z * Z) : sha_state :=
  let '(Sha a b c d e f g h) := st in
  let s1 := Z.lxor (Z.lxor (rotr 6 e) (rotr 11 e)) (rotr 25 e) in
  let ch := Z.lxor (Z.land e f) (Z.land (2 ^ 32 - 1 - e) g) in
  let t1 := h + s1 + ch + fst kw + snd kw in
  let s0 := Z.lxor (Z.lxor (rotr 2 a) (rotr 13 a)) (rotr 22 a) in
  let maj := Z.lxor (Z.lxor (Z.land a b) (Z.land a c)) (Z.land b c) in
  Sha (w32 (t1 + s0 + maj)) a b c (w32 (d + t1)) e f g.

Definition sha_block (st : sha_state) (words : list Z) : sha_state :=
  let w := reverse (schedule 48 (reverse words)) in
  let '(Sha a b c d e f g h) := foldl sha_round st (zip Sha_K w) in
  Sha (w32 (sa st + a)) (w32 (sb st + b)) (w32 (sc st + c)) (w32 (sd st + d))
      (w32 (se st + e)) (w32 (sf st + f)) (w32 (sg st + g)) (w32 (sh st + h)).

(** [k] blocks of sixteen words. *)
Fixpoint sha_blocks (k : nat) (st : sha_state) (words : list Z) : sha_state :=
  match k with
  | O => st
  | S k => sha_blocks k (sha_block st (take 16 words)) (drop 16 words)
  end.

Definition sha_init : sha_state :=
  match Sha_H0 with
  | [a; b; c; d; e; f; g; h] => Sha a b c d e f g h
  | _ => Sha 0 0 0 0 0 0 0 0
  end.

(** [sha256.Sum256]: the 32 bytes of the digest. *)
Definition Sum256 (s : string) : list Z :=
  let words := be_words (sha_pad (map byte_val (bytes_of s))) in
  let '(Sha a b c d e f g h) := sha_blocks (Nat.div (length words) 16) sha_init words in
  concat (map (be_bytes 4) [a; b; c; d; e; f; g; h]).

(** ** encoding/hex and encoding/base64 *)

Definition hex_digit (n : Z) : ascii :=
  byte_of (if n <? 10 then 48 + n else 87 + n).

(** [hex.EncodeToString]. *)
Fixpoint hex_encode (l : list Z) : string :=
  match l with
  | [] => ""
  | b :: l => String (hex_digit (b / 16)) (String (hex_digit (b mod 16)) (hex_encode l))
  end.

Definition b64_digit (n : Z) : ascii :=
  byte_of (if n <? 26 then 65 + n
           else if n <? 52 then 71 + n
           else if n <? 62 then n - 4
           else if n =? 62 then 45 else 95).

(** [base64.URLEncoding.EncodeToString], padded with ["="]. *)
Fixpoint b64_encode (l : list Z) : string :=
  match l with
  | [] => ""
  | [a] => String (b64_digit (a / 4)) (String (b64_digit (a mod 4 * 16)) "==")
  | [a; b] =>
      String (b64_digit (a / 4)) (String (b64_digit (a mod 4 * 16 + b / 16))
        (String (b64_digit (b mod 16 * 4)) "="))
  | a :: b :: c :: l =>
      String (b64_digit (a / 4)) (String (b64_digit (a mod 4 * 16 + b / 16))
        (String (b64_digit (b mod 16 * 4 + c / 64)) (String (b64_digit (c mod 64)) (b64_encode l))))
  end.

(** ** Facts *)

Example sha256_abc :
  hex_encode (Sum256 "abc") = "ba7816bf8f01cfea414140de5dae2223b00361a396177a9cb410ff61f20015ad".
Proof. vm_compute. reflexivity. Qed.

Example sha256_two_blocks :
  hex_encode (Sum256 "abcdbcdecdefdefgefghfghighijhijkijkljklmklmnlmnomnopnopq")
  = "248d6a61d20638b8e5c026930c3e6039a33ce45964ff2167f6ecedd419db06c1".
Proof. vm_compute. reflexivity. Qed.

Lemma be_bytes_length n z : length (be_bytes n z) = n.
Proof. induction n; cbn; auto. Qed.

Lemma be_bytes_range n z : Forall (fun b => 0 <= b < 256) (be_bytes n z).
Proof. induction n; constructor; [|done]. apply Z.mod_pos_bound. lia. Qed.

Lemma Sum256_length s : length (Sum256 s) = 32%nat.
Proof. unfold Sum256. destruct (sha_blocks _ _ _). done. Qed.

Lemma Sum256_range s : Forall (fun b => 0 <= b < 256) (Sum256 s).
Proof.
  unfold Sum256. destruct (sha_blocks _ _ _).
  apply Forall_concat, Forall_forall. intros l (x & -> & _)%list_elem_of_fmap.
  apply be_bytes_range.
Qed.

Definition is_hex (c : ascii) : bool :=
  is_digit c || ((97 <=? nat_of_ascii c)%nat && (nat_of_ascii c <=? 102)%nat).

Definition small (n : nat) : list Z := map Z.of_nat (List.seq 0 n).

Lemma small_in (n : nat) z : 0 <= z < Z.of_nat n -> z ∈ small n.
Proof.
  intros. apply list_elem_of_In, in_map_iff. exists (Z.to_nat z).
  split; [lia|]. apply in_seq. lia.
Qed.

(** A boolean test that holds of every integer below [n], checked by evaluation. *)
Lemma small_forall (f : Z -> bool) (n : nat) z :
  forallb f (small n) = true -> 0 <= z < Z.of_nat n -> f z = true.
Proof. intros H Hz. apply (proj1 (forallb_forall _ _) H), list_elem_of_In, small_in, Hz. Qed.

Lemma hex_digit_hex n : 0 <= n < 16 -> is_hex (hex_digit n) = true.
Proof. apply (small_forall (fun n => is_hex (hex_digit n)) 16). reflexivity. Qed.

Lemma hex_encode_length l : String.length (hex_encode l) = (2 * length l)%nat.
Proof. induction l; cbn; lia. Qed.

Lemma hex_encode_hex l :
  Forall (fun b => 0 <= b < 256) l -> str_all (fun c => is_hex c = true) (hex_encode l).
Proof.
  induction 1 as [|b l Hb Hl IH]; [apply str_all_nil|]. cbn.
  rewrite !str_all_cons. split; [|split; [|done]]; apply hex_digit_hex.
  - split; [apply Z.div_pos; lia|apply Z.div_lt_upper_bound; lia].
  - apply Z.mod_pos_bound. lia.
Qed.

Definition is_b64 (c : ascii) : bool :=
  is_digit c || ((97 <=? nat_of_ascii c)%nat && (nat_of_ascii c <=? 122)%nat)
  || ((65 <=? nat_of_ascii c)%nat && (nat_of_ascii c <=? 90)%nat)
  || Ascii.eqb c "-" || Ascii.eqb c "_".

Lemma b64_digit_ok n : 0 <= n < 64 -> is_b64 (b64_digit n) = true.
Proof. apply (small_forall (fun n => is_b64 (b64_digit n)) 64). reflexivity. Qed.

(** Three bytes make four digits, and no padding appears at the end of whole groups. *)
Lemma b64_encode_groups k l :
  length l = (3 * k)%nat -> Forall (fun b => 0 <= b < 256) l ->
  String.length (b64_encode l) = (4 * k)%nat /\ str_all (fun c => is_b64 c = true) (b64_encode l).
Proof.
  revert l. induction k as [|k IH]; intros l Hl Hr.
  { destruct l; [|done]. split; [done|apply str_all_nil]. }
  destruct l as [|a [|b [|c l]]]; cbn in Hl; try lia.
  apply Forall_cons in Hr as [Ha Hr]. apply Forall_cons in Hr as [Hb Hr].
  apply Forall_cons in Hr as [Hc Hr]. destruct (IH l) as [Hlen Hall]; [lia|done|].
  cbn [b64_encode String.length]. split; [lia|].
  rewrite !str_all_cons. repeat split; try done; apply b64_digit_ok;
    pose proof (Z.mod_pos_bound a 4); pose proof (Z.mod_pos_bound b 16);
    pose proof (Z.mod_pos_bound c 64); pose proof (Z.div_mod a 4);
    pose proof (Z.div_mod b 16); pose proof (Z.div_mod c 64); lia.
Qed.

#[export] Hint Resolve Sum256_range Sum256_length hex_encode_hex : ark.
