(* ===== verification/Effects.v ===== *)
(** * Programs that call the outside world

    The operator's code is sequential Go that calls a Kubernetes client, a network connection,
    the clock and the random generator.  None of those is code of the repository, so they are
    not defined here: a program is a tree that names the calls it makes and says how it goes
    on for every answer.  An [exec]ution pairs such a tree with one choice of answers; [wp]
    quantifies over all the answers a [rely] condition admits and states, besides the
    postcondition, a guarantee that every call made satisfies given the calls and answers
    before it; [run] executes a program against an environment given as a function. *)

From S2P Require Import Prelude.

(** ** Errors *)

(** What [apierrors.IsNotFound], [IsConflict] and [IsAlreadyExists] tell apart; wrapping an
    error with [%w] keeps its reason, as [errors.As] looks through the wrapping. *)
Inductive reason := ReasonNotFound | ReasonConflict | ReasonAlreadyExists | ReasonOther.
#[export] Instance reason_eq_dec : EqDecision reason.
Proof. solve_decision. Defined.

Record error := Error { err_reason : reason; err_msg : string }.

Definition IsNotFound (e : error) : bool := bool_decide (err_reason e = ReasonNotFound).
Definition IsConflict (e : error) : bool := bool_decide (err_reason e = ReasonConflict).
Definition IsAlreadyExists (e : error) : bool := bool_decide (err_reason e = ReasonAlreadyExists).

(** [fmt.Errorf("<prefix>: %w", err)] and [fmt.Errorf("<msg>")]. *)
Definition wrap_err (prefix : string) (e : error) : error :=
  Error (err_reason e) (prefix +:+ ": " +:+ err_msg e).
Definition Errorf (msg : string) : error := Error ReasonOther msg.

Inductive res (A : Type) := Ok (a : A) | Err (e : error).
Arguments Ok {A} _.
Arguments Err {A} _.

Definition res_map {A B} (f : A -> B) (r : res A) : res B :=
  match r with Ok a => Ok (f a) | Err e => Err e end.

(** ** Programs, executions and weakest preconditions *)

Section Programs.
Context {call : Type} {resp : call -> Type}.

Inductive prog (A : Type) : Type :=
| Ret (a : A)
| Act (c : call) (k : resp c -> prog A).
Arguments Ret {A} a.
Arguments Act {A} c k.

Fixpoint bind {A B} (p : prog A) (f : A -> prog B) : prog B :=
  match p with
  | Ret a => f a
  | Act c k => Act c (fun r => bind (k r) f)
  end.

Definition do_call (c : call) : prog (resp c) := Act c Ret.

Inductive event := Ev (c : call) (r : resp c).
Definition ev_call (e : event) : call := match e with Ev c _ => c end.

(** [exec p tr a]: with the answers of [tr], the program makes the calls of [tr] and
    returns [a]. *)
Inductive exec {A} : prog A -> list event -> A -> Prop :=
| exec_ret a : exec (Ret a) [] a
| exec_act c k r tr a : exec (k r) tr a -> exec (Act c k) (Ev c r :: tr) a.

Lemma exec_ret_inv {A} (a b : A) tr : exec (Ret a) tr b -> tr = [] /\ a = b.
Proof.
  intros H. change (match Ret a with Ret a => tr = [] /\ a = b | Act _ _ => True end).
  by destruct H.
Qed.

Lemma exec_act_inv {A} c (k : resp c -> prog A) tr a :
  exec (Act c k) tr a -> exists r tr', tr = Ev c r :: tr' /\ exec (k r) tr' a.
Proof.
  intros H. change (match Act c k with
    | Ret _ => True
    | Act c k => exists r tr', tr = Ev c r :: tr' /\ exec (k r) tr' a end).
  destruct H; [done|]. eauto.
Qed.

(** The converse of [exec_bind_inv]. *)
Lemma exec_bind {A B} (p : prog A) (f : A -> prog B) tr1 a tr2 b :
  exec p tr1 a -> exec (f a) tr2 b -> exec (bind p f) (tr1 ++ tr2) b.
Proof. intros Hp Hf. induction Hp; cbn; [done|]. constructor. auto. Qed.

Lemma exec_bind_inv {A B} (p : prog A) (f : A -> prog B) tr b :
  exec (bind p f) tr b ->
  exists tr1 a tr2, tr = tr1 ++ tr2 /\ exec p tr1 a /\ exec (f a) tr2 b.
Proof.
  revert tr. induction p as [a|c k IH]; intros tr H; cbn in H.
  - exists [], a, tr. split_and!; [done|constructor|done].
  - apply exec_act_inv in H as (r & tr' & -> & H).
    apply IH in H as (tr1 & a & tr2 & -> & H1 & H2).
    exists (Ev c r :: tr1), a, tr2. split_and!; [done|by constructor|done].
Qed.

Section Wp.
Variable rely : list event -> forall c, resp c -> Prop.
Variable guar : list event -> call -> Prop.

Fixpoint wp {A} (p : prog A) (Q : A -> list event -> Prop) (h : list event) : Prop :=
  match p with
  | Ret a => Q a h
  | Act c k => guar h c /\ forall r, rely h c r -> wp (k r) Q (h ++ [Ev c r])
  end.

Lemma wp_mono {A} (p : prog A) (Q Q' : A -> list event -> Prop) h :
  (forall a h, Q a h -> Q' a h) -> wp p Q h -> wp p Q' h.
Proof.
  intros HQ. revert h. induction p as [a|c k IH]; intros h; cbn; [apply HQ|].
  intros [Hg H]. split; [done|]. intros r Hr. by apply IH, H.
Qed.

Lemma wp_bind {A B} (p : prog A) (f : A -> prog B) Q h :
  wp (bind p f) Q h <-> wp p (fun a => wp (f a) Q) h.
Proof.
  revert h. induction p as [a|c k IH]; intros h; cbn; [done|].
  split; intros [Hg H]; (split; [done|]); intros r Hr; by apply IH, H.
Qed.

Lemma wp_ret {A} (a : A) Q h : Q a h -> wp (Ret a) Q h.
Proof. done. Qed.

Lemma wp_act {A} c (k : resp c -> prog A) Q h :
  guar h c -> (forall r, rely h c r -> wp (k r) Q (h ++ [Ev c r])) -> wp (Act c k) Q h.
Proof. by split. Qed.

Lemma wp_seq {A B} (p : prog A) (f : A -> prog B) Q h :
  wp p (fun a => wp (f a) Q) h -> wp (bind p f) Q h.
Proof. apply wp_bind. Qed.

Lemma wp_guard (guar' : list event -> call -> Prop) {A} (p : prog A) (Q : A -> list event -> Prop) h :
  (forall tr c, guar' (h ++ tr) c -> guar (h ++ tr) c) ->
  (fix wp' {A} (p : prog A) (Q : A -> list event -> Prop) (h : list event) : Prop :=
     match p with
     | Ret a => Q a h
     | Act c k => guar' h c /\ forall r, rely h c r -> wp' (k r) Q (h ++ [Ev c r])
     end) A p Q h -> wp p Q h.
Proof.
  intros Hg. revert h Hg. induction p as [a|c k IH]; intros h Hg; cbn; [done|].
  intros [Hc Hk]. split.
  - rewrite <- (app_nil_r h). apply Hg. by rewrite app_nil_r.
  - intros r Hr. apply IH; [|by apply Hk]. intros tr c'. rewrite <- app_assoc. apply Hg.
Qed.

Lemma wp_call c Q h :
  wp (do_call c) Q h <-> guar h c /\ forall r, rely h c r -> Q r (h ++ [Ev c r]).
Proof. done. Qed.
End Wp.

(** A stronger guarantee, on the histories that extend the present one, is as good. *)
Lemma wp_weaken rely (guar guar' : list event -> call -> Prop) {A} (p : prog A) Q h :
  wp rely guar' p Q h -> (forall tr c, guar' (h ++ tr) c -> guar (h ++ tr) c) -> wp rely guar p Q h.
Proof. intros Hwp Hg. by apply (wp_guard rely guar guar'). Qed.

(** The history only grows. *)
Lemma wp_extend rely guar {A} (p : prog A) Q h :
  wp rely guar p Q h -> wp rely guar p (fun a h' => Q a h' /\ exists tr, h' = h ++ tr) h.
Proof.
  revert h. induction p as [a|c k IH]; intros h; cbn.
  - intros HQ. split; [done|]. exists []. by rewrite app_nil_r.
  - intros [Hg Hk]. split; [done|]. intros r Hr. eapply wp_mono; [|by apply IH, Hk].
    cbn. intros a h' (HQ & tr & ->). split; [done|]. exists (Ev c r :: tr). by rewrite <- app_assoc.
Qed.

(** The answers of a trace satisfy a rely condition, and its calls a guarantee, each with
    the events before it. *)
Fixpoint admits (rely : list event -> forall c, resp c -> Prop) (h tr : list event) : Prop :=
  match tr with
  | [] => True
  | Ev c r :: tr => rely h c r /\ admits rely (h ++ [Ev c r]) tr
  end.

Lemma wp_exec rely guar {A} (p : prog A) Q h tr a :
  wp rely guar p Q h -> exec p tr a -> admits rely h tr ->
  Q a (h ++ tr) /\ forall tr1 c r tr2, tr = tr1 ++ Ev c r :: tr2 -> guar (h ++ tr1) c.
Proof.
  intros Hwp Hex. revert h Hwp. induction Hex as [a|c k r tr a Hex IH]; intros h Hwp Hadm.
  - rewrite app_nil_r. split; [done|]. intros [|??]; discriminate.
  - destruct Hwp as [Hg Hk], Hadm as [Hr Hadm].
    destruct (IH _ (Hk r Hr) Hadm) as [HQ HG]. rewrite <- app_assoc in HQ. split; [done|].
    intros [|e tr1] c' r' tr2 Heq; inv Heq; [by rewrite app_nil_r|].
    rewrite cons_middle, app_assoc. by eapply HG.
Qed.

(** No condition on the answers. *)
Definition any (h : list event) (c : call) (r : resp c) : Prop := True.

Lemma admits_any h tr : admits any h tr.
Proof. revert h. induction tr as [|[c r] tr IH]; intros h; cbn; [done|]. by split. Qed.

(** A program all of whose calls satisfy [P]. *)
Definition emits (P : call -> Prop) {A} (p : prog A) : Prop :=
  wp any (fun _ => P) p (fun _ _ => True) [].

Lemma emits_at P {A} (p : prog A) h : emits P p -> wp any (fun _ => P) p (fun _ _ => True) h.
Proof.
  unfold emits. generalize (@nil event). revert h.
  induction p as [a|c k IH]; intros h h'; cbn; [done|].
  intros [Hc Hk]. split; [done|]. intros r Hr. by eapply IH, Hk.
Qed.

Lemma emits_any P {A} (p : prog A) h :
  wp any (fun _ => P) p (fun _ _ => True) h -> emits P p.
Proof.
  unfold emits. generalize (@nil event). revert h.
  induction p as [a|c k IH]; intros h h'; cbn; [done|].
  intros [Hc Hk]. split; [done|]. intros r Hr. by eapply IH, Hk.
Qed.

Lemma emits_mono (P P' : call -> Prop) {A} (p : prog A) :
  (forall c, P c -> P' c) -> emits P p -> emits P' p.
Proof.
  intros HP. unfold emits. generalize (@nil event).
  induction p as [a|c k IH]; intros h; cbn; [done|]. intros [? ?]. split; auto.
Qed.

Lemma emits_bind P {A B} (p : prog A) (f : A -> prog B) :
  emits P p -> (forall a, emits P (f a)) -> emits P (bind p f).
Proof.
  intros Hp Hf. unfold emits. rewrite wp_bind. eapply wp_mono; [|exact Hp].
  cbn. intros. by apply emits_at.
Qed.

Lemma emits_ret P {A} (a : A) : emits P (Ret a).
Proof. done. Qed.

Lemma emits_act P {A} c (k : resp c -> prog A) :
  P c -> (forall r, emits P (k r)) -> emits P (Act c k).
Proof. intros Hc Hk. split; [done|]. intros r _. by apply emits_at. Qed.

Lemma emits_exec P {A} (p : prog A) tr a :
  emits P p -> exec p tr a -> forall e, e ∈ tr -> P (ev_call e).
Proof.
  intros He Hex [c r] Hin. apply list_elem_of_split in Hin as (l1 & l2 & ->).
  destruct (wp_exec _ _ _ _ _ _ _ He Hex (admits_any _ _)) as [_ H]. by eapply H.
Qed.

(** An invariant of the history that the calls of kind [P] keep is kept by a program that
    makes only such calls. *)
Lemma wp_emits rely guar P (Inv : list event -> Prop) {A} (p : prog A) h :
  (forall h c, P c -> Inv h -> guar h c) ->
  (forall h c r, P c -> Inv h -> Inv (h ++ [Ev c r])) ->
  emits P p -> Inv h -> wp rely guar p (fun _ => Inv) h.
Proof.
  intros Hg Hi He. apply (emits_at _ _ h) in He. revert h He.
  induction p as [a|c k IH]; intros h; cbn; [done|].
  intros [Hc Hk] Hinv. split; [by apply Hg|]. intros r _. apply IH; [by apply Hk|by apply Hi].
Qed.

(** A program all of whose calls satisfy [P] only adds such calls to the history. *)
Lemma wp_only rely guar P {A} (p : prog A) h :
  emits P p ->
  (forall tr c, (forall e, e ∈ tr -> P (ev_call e)) -> P c -> guar (h ++ tr) c) ->
  wp rely guar p (fun _ h' => exists tr, h' = h ++ tr /\ forall e, e ∈ tr -> P (ev_call e)) h.
Proof.
  intros He Hg.
  eapply (wp_emits rely guar P (fun h' => exists tr, h' = h ++ tr /\ forall e, e ∈ tr -> P (ev_call e)));
    [| |exact He|].
  - intros h' c Hc (tr & -> & Htr). by apply Hg.
  - intros h' c r Hc (tr & -> & Htr). exists (tr ++ [Ev c r]). rewrite app_assoc.
    split; [done|]. intros e [?|Hx]%elem_of_app; [auto|]. apply list_elem_of_singleton in Hx as ->. done.
  - exists []. rewrite app_nil_r. split; [done|]. intros e ?%elem_of_nil. done.
Qed.

(** The same, with what an execution of the program tells about its result. *)
Lemma wp_exec_intro rely guar P {A} (p : prog A) (Q : A -> list event -> Prop) h :
  emits P p ->
  (forall tr c, (forall e, e ∈ tr -> P (ev_call e)) -> P c -> guar (h ++ tr) c) ->
  (forall tr a, exec p tr a -> (forall e, e ∈ tr -> P (ev_call e)) -> Q a (h ++ tr)) ->
  wp rely guar p Q h.
Proof.
  revert h. induction p as [a|c k IH]; intros h He Hg HQ; cbn.
  - rewrite <- (app_nil_r h). apply HQ; [constructor|]. by intros e ?%elem_of_nil.
  - destruct He as [Hc Hk]. split.
    { rewrite <- (app_nil_r h). apply Hg; [|done]. by intros e ?%elem_of_nil. }
    intros r Hr. apply IH.
    + by eapply emits_any, Hk.
    + intros tr c' Htr Hc'. rewrite <- app_assoc. apply Hg; [|done].
      intros e [->|?]%elem_of_cons; [done|auto].
    + intros tr a Hex Htr. rewrite <- app_assoc. apply HQ; [by constructor|].
      intros e [->|?]%elem_of_cons; [done|auto].
Qed.

(** ** Running a program against an environment *)

Section Run.
Context {W : Type} (env : forall c : call, W -> resp c * W).

Fixpoint run {A} (p : prog A) (w : W) : list event * A * W :=
  match p with
  | Ret a => ([], a, w)
  | Act c k =>
      let '(r, w) := env c w in
      let '(tr, a, w) := run (k r) w in
      (Ev c r :: tr, a, w)
  end.

Lemma run_exec {A} (p : prog A) w tr a w' : run p w = (tr, a, w') -> exec p tr a.
Proof.
  revert w tr a w'. induction p as [a0|c k IH]; intros w tr a w' H; cbn in H.
  - inv H. constructor.
  - destruct (env c w) as [r w1] eqn:E1. destruct (run (k r) w1) as [[tr1 a1] w2] eqn:E2.
    inv H. constructor. eauto.
Qed.

Lemma run_bind {A B} (p : prog A) (f : A -> prog B) w :
  run (bind p f) w =
  let '(tr1, a, w) := run p w in
  let '(tr2, b, w) := run (f a) w in (tr1 ++ tr2, b, w).
Proof.
  revert w. induction p as [a|c k IH]; intros w; cbn.
  - by destruct (run (f a) w) as [[]].
  - destruct (env c w) as [r w']. rewrite IH. destruct (run (k r) w') as [[tr1 a] w1].
    by destruct (run (f a) w1) as [[tr2 b] w2].
Qed.
End Run.

(** Every program terminates: each choice of answers gives an execution. *)
Lemma exec_total {A} (p : prog A) (ans : forall c : call, resp c) : exists tr a, exec p tr a.
Proof.
  induction p as [a|c k IH]; [by exists [], a; constructor|].
  destruct (IH (ans c)) as (tr & a & H). exists (Ev c (ans c) :: tr), a. by constructor.
Qed.

(** ** Programs over a Go object that they mutate

    [M S A] is the body of a function that returns [(A, error)] and writes to an object of
    type [S] it holds a pointer to: the writes stay when it returns an error. *)

Definition M (S A : Type) : Type := S -> prog (res A * S).

Definition m_ret {S A} (a : A) : M S A := fun s => Ret (Ok a, s).
Definition m_fail {S A} (e : error) : M S A := fun s => Ret (Err e, s).
Definition m_bind {S A B} (m : M S A) (f : A -> M S B) : M S B :=
  fun s => bind (m s) (fun '(r, s) =>
    match r with Ok a => f a s | Err e => Ret (Err e, s) end).
Definition m_get {S} : M S S := fun s => Ret (Ok s, s).
Definition m_modify {S} (f : S -> S) : M S unit := fun s => Ret (Ok tt, f s).
(** The error as a value, for the calls whose error the code inspects or drops. *)
Definition m_try {S A} (m : M S A) : M S (res A) :=
  fun s => bind (m s) (fun '(r, s) => Ret (Ok r, s)).
Definition m_lift {S A} (p : prog A) : M S A := fun s => bind p (fun a => Ret (Ok a, s)).
(** A program that returns [(A, error)], with its error returned at once. *)
Definition m_lift_res {S A} (p : prog (res A)) : M S A := fun s => bind p (fun r => Ret (r, s)).

(** [for _, x := range l { body }], left at the first error. *)
Fixpoint m_for {S A} (l : list A) (body : A -> M S unit) : M S unit :=
  match l with
  | [] => m_ret tt
  | x :: l => m_bind (body x) (fun _ => m_for l body)
  end.
End Programs.

Arguments prog {call} resp A.
Arguments Ret {call resp A} a.
Arguments Act {call resp A} c k.
Arguments event {call} resp.
Arguments M {call} resp S A.
Arguments do_call {call resp} c.

Declare Scope prog_scope.
Delimit Scope prog_scope with prog.
(** [let*] sequences calls, [let!] sequences steps of [M] and leaves at an error. *)
Notation "'let*' x := p 'in' q" := (bind p (fun x => q))
  (at level 10, x pattern, p at level 100, q at level 200) : prog_scope.
Notation "'let!' x := p 'in' q" := (m_bind p (fun x => q))
  (at level 10, x pattern, p at level 100, q at level 200) : prog_scope.
Notation "p ;;! q" := (m_bind p (fun _ => q))
  (at level 199, right associativity) : prog_scope.

Arguments bind {call resp A B} !p f /.
Arguments emits {call resp} P {A} p : simpl never.
Arguments m_bind {call resp S A B} m f s /.
Arguments m_ret {call resp S A} a s /.
Arguments m_fail {call resp S A} e s /.
Arguments m_get {call resp S} s /.
Arguments m_modify {call resp S} f s /.
Arguments m_try {call resp S A} m s /.
Arguments m_lift {call resp S A} p s /.
Arguments m_lift_res {call resp S A} p s /.

Arguments wp {call resp} rely guar {A} p Q h : simpl never.

(** One step of a weakest precondition: a return, a call, a sequence, a case of the program. *)
Ltac wp_step :=
  lazymatch goal with
  | |- wp _ _ (Ret _) _ _ => apply wp_ret
  | |- wp _ _ (Act _ _) _ _ => apply wp_act; [|intros ? ?]
  | |- wp _ _ (do_call _) _ _ => apply wp_act; [|intros ? ?]
  | |- wp _ _ (bind _ _) _ _ => apply wp_seq
  | |- wp _ _ (match ?x with _ => _ end) _ _ => destruct x eqn:?
  end.

(** The steps of a program over an object. *)
Lemma wp_m_bind {call} {resp : call -> Type} (rely : list (event resp) -> forall c, resp c -> Prop)
    guar {S A B} (m : M resp S A) (f : A -> M resp S B) (s : S) Q h :
  wp rely guar (m s) (fun x h =>
    match x with
    | (Ok a, s) => wp rely guar (f a s) Q h
    | (Err e, s) => Q (Err e, s) h
    end) h ->
  wp rely guar (m_bind m f s) Q h.
Proof.
  intros H. unfold m_bind. apply wp_seq. eapply wp_mono, H. by intros [[a|e] s'] h'.
Qed.

Section MSteps.
Context {call : Type} {resp : call -> Type} {S : Type}.
Variable rely : list (event resp) -> forall c, resp c -> Prop.
Variable guar : list (event resp) -> call -> Prop.

Lemma wp_m_lift {A} (p : prog resp A) (s : S) Q h :
  wp rely guar p (fun a h => Q (Ok a, s) h) h -> wp rely guar (m_lift p s) Q h.
Proof. intros H. unfold m_lift. by apply wp_seq. Qed.

Lemma wp_m_lift_res {A} (p : prog resp (res A)) (s : S) Q h :
  wp rely guar p (fun r h => Q (r, s) h) h -> wp rely guar (m_lift_res p s) Q h.
Proof. intros H. unfold m_lift_res. by apply wp_seq. Qed.

Lemma wp_m_try {A} (m : M resp S A) (s : S) Q h :
  wp rely guar (m s) (fun x h => Q (Ok x.1, x.2) h) h -> wp rely guar (m_try m s) Q h.
Proof. intros H. unfold m_try. apply wp_seq. eapply wp_mono, H. by intros [r s'] h'. Qed.

(** A loop keeps what its body keeps. *)
Lemma wp_m_for {A} (l : list A) (body : A -> M resp S unit) (I : S -> list (event resp) -> Prop) s h :
  (forall x s h, x ∈ l -> I s h -> wp rely guar (body x s) (fun r h' => I r.2 h') h) ->
  I s h -> wp rely guar (m_for l body s) (fun r h' => I r.2 h') h.
Proof.
  revert s h. induction l as [|x l IH]; intros s h Hbody HI; cbn; [by apply wp_ret|].
  apply wp_seq. eapply wp_mono; [|apply Hbody; [by left|done]].
  intros [[[]|e] s'] h' HI'; cbn in HI' |- *.
  - apply IH; [|done]. intros x' s1 h1 Hx. apply Hbody. by right.
  - by apply wp_ret.
Qed.

(** The same with what the body has achieved for the elements it is done with. *)
Lemma wp_m_for_done {A} (l : list A) (body : A -> M resp S unit) (I : list A -> S -> list (event resp) -> Prop) l0 s h :
  (forall l1 x l2 s h, l0 ++ l = l1 ++ x :: l2 -> I l1 s h ->
     wp rely guar (body x s) (fun r h' => r.1 = Ok tt -> I (l1 ++ [x]) r.2 h') h) ->
  I l0 s h -> wp rely guar (m_for l body s) (fun r h' => r.1 = Ok tt -> I (l0 ++ l) r.2 h') h.
Proof.
  revert l0 s h. induction l as [|x l IH]; intros l0 s h Hbody HI; cbn.
  { apply wp_ret. by rewrite app_nil_r. }
  apply wp_seq. eapply wp_mono; [|by apply (Hbody l0 x l)].
  intros [[[]|e] s'] h' HI'; [|by apply wp_ret]. cbn in HI' |- *.
  rewrite cons_middle, app_assoc. apply IH; [|by apply HI'].
  intros l1 y l2 s1 h1. rewrite <- app_assoc. apply Hbody.
Qed.
End MSteps.

(** Inverts the executions of the hypotheses step by step. *)
Ltac exec_inv :=
  repeat match goal with
  | H : exec (Ret _) _ _ |- _ => apply exec_ret_inv in H as [? ?]; subst
  | H : exec (Act _ _) _ _ |- _ =>
      let r := fresh "r" in let tr := fresh "tr" in
      apply exec_act_inv in H as (r & tr & -> & H)
  | H : exec (bind _ _) _ _ |- _ =>
      let tr1 := fresh "tr" in let a := fresh "a" in let tr2 := fresh "tr" in
      let H1 := fresh "Hex" in
      apply exec_bind_inv in H as (tr1 & a & tr2 & -> & H1 & H)
  | H : exec (do_call _) _ _ |- _ => unfold do_call in H
  end.

#[export] Hint Resolve emits_ret : ark.
