(* ===== verification/ApiTypes.v ===== *)
(** * The API types (api/v1alpha1/arkcluster_types.go) and the Kubernetes objects

    The structs of the custom resource, field by field; of the Kubernetes objects, the fields
    the operator reads or writes.  A pointer field is an [option], a Go map a [gmap] (the
    operator never tells a nil map from an empty one), an instant is its number of nanoseconds
    and a [metav1.Time] that may be zero an [option] of one.  An enumerated string type is an
    inductive type whose first constructor is the empty string where the field may be unset. *)

From S2P Require Import Prelude.

Abbreviation strmap := (gmap string string).

(** ** Object metadata and conditions *)

Record OwnerReference := MkOwnerReference {
  or_Kind : string; or_Name : string; or_Controller : bool }.
#[export] Instance OwnerReference_eq_dec : EqDecision OwnerReference.
Proof. solve_decision. Defined.

Record ObjectMeta := MkObjectMeta {
  Name : string;
  Namespace : string;
  Labels : strmap;
  Annotations : strmap;
  Finalizers : list string;
  DeletionTimestamp : option Z;
  CreationTimestamp : option Z;
  Generation : Z;
  ResourceVersion : string;
  OwnerReferences : list OwnerReference }.
#[export] Instance eta_ObjectMeta : Settable ObjectMeta := fun r =>
  MkObjectMeta (Name r) (Namespace r) (Labels r) (Annotations r) (Finalizers r)
    (DeletionTimestamp r) (CreationTimestamp r) (Generation r) (ResourceVersion r)
    (OwnerReferences r).

(** An object the program builds: a name, a namespace and labels; the rest is the server's. *)
Definition new_meta (name ns : string) (labels : strmap) : ObjectMeta :=
  MkObjectMeta name ns labels ∅ [] None None 0 "" [].

Definition ConditionTrue : string := "True".
Definition ConditionFalse : string := "False".

Record Condition := MkCondition {
  cond_Type : string;
  cond_Status : string;
  cond_Reason : string;
  cond_Message : string;
  LastTransitionTime : option Z }.
#[export] Instance eta_Condition : Settable Condition := fun r =>
  MkCondition (cond_Type r) (cond_Status r) (cond_Reason r) (cond_Message r)
    (LastTransitionTime r).

Record SecretKeySelector := MkSecretKeySelector { sel_Name : string; sel_Key : string }.
Record ConfigMapRef := MkConfigMapRef { cmref_Name : string }.

(** ** The ArkCluster resource *)

Record MapSpec := MkMapSpec {
  map_ID : string;
  map_Mods : list Z;
  map_GameUserSettings : option ConfigMapRef;
  map_Game : option ConfigMapRef }.

Record GlobalSettings := MkGlobalSettings {
  SessionNameFormat : string;
  ServerPassword : option SecretKeySelector;
  AdminPassword : option SecretKeySelector;
  BattlEye : bool;
  AllowedPlatforms : list string;
  MaxPlayers : Z;
  Mods : list Z;
  ExtraOptions : list string;
  ExtraParams : list string;
  gs_GameUserSettings : option ConfigMapRef;
  gs_Game : option ConfigMapRef }.
#[export] Instance eta_GlobalSettings : Settable GlobalSettings := fun r =>
  MkGlobalSettings (SessionNameFormat r) (ServerPassword r) (AdminPassword r) (BattlEye r)
    (AllowedPlatforms r) (MaxPlayers r) (Mods r) (ExtraOptions r) (ExtraParams r)
    (gs_GameUserSettings r) (gs_Game r).

Record StorageSpec := MkStorageSpec {
  StorageClass : string;
  ClusterStorageClass : string;
  ServerPVCSize : string;
  SavesPVCSize : string;
  ClusterPVCSize : string;
  PersistOnDelete : bool }.

Inductive ServiceType := ServiceTypeUnset | ServiceTypeLoadBalancer | ServiceTypeNodePort
  | ServiceTypeClusterIP.
Inductive TrafficPolicy := TrafficPolicyUnset | TrafficPolicyCluster | TrafficPolicyLocal.
#[export] Instance ServiceType_eq_dec : EqDecision ServiceType.
Proof. solve_decision. Defined.
#[export] Instance TrafficPolicy_eq_dec : EqDecision TrafficPolicy.
Proof. solve_decision. Defined.

Record ServiceSpec := MkServiceSpec {
  svc_Type : ServiceType;
  GamePortStart : Z;
  RconPortStart : Z;
  LoadBalancerIPs : list string;
  ExternalTrafficPolicy : TrafficPolicy }.

Inductive UpdateStrategyType := UpdateStrategyUnset | UpdateStrategyBlueGreen
  | UpdateStrategyRecreate.
Inductive RolloutPolicy := RolloutUnset | RolloutOneAtATime | RolloutParallel.
#[export] Instance RolloutPolicy_eq_dec : EqDecision RolloutPolicy.
Proof. solve_decision. Defined.

Record UpdateStrategy := MkUpdateStrategy {
  strategy_Type : UpdateStrategyType;
  GracefulShutdown : Z;
  Rollout : RolloutPolicy }.

Record ModAutoUpdateSpec := MkModAutoUpdateSpec {
  Enabled : bool;
  IntervalMinutes : Z;
  CurseForgeAPIKeyRef : SecretKeySelector }.

(** Passed through to the pod as they are. *)
Record ResourceRequirements := MkResourceRequirements { Limits : strmap; Requests : strmap }.
Record Toleration := MkToleration {
  tol_Key : string; tol_Operator : string; tol_Value : string; tol_Effect : string }.
Record PodSecurityContext := MkPodSecurityContext {
  RunAsUser : option Z; RunAsGroup : option Z; FSGroup : option Z }.

Record ArkClusterSpec := MkArkClusterSpec {
  Image : string;
  ClusterID : string;
  Maps : list MapSpec;
  Global : GlobalSettings;
  Storage : StorageSpec;
  Service : ServiceSpec;
  Resources : ResourceRequirements;
  Strategy : UpdateStrategy;
  ModAutoUpdate : option ModAutoUpdateSpec;
  NodeSelector : strmap;
  Tolerations : list Toleration;
  SecurityContext : option PodSecurityContext }.
#[export] Instance eta_ArkClusterSpec : Settable ArkClusterSpec := fun r =>
  MkArkClusterSpec (Image r) (ClusterID r) (Maps r) (Global r) (Storage r) (Service r)
    (Resources r) (Strategy r) (ModAutoUpdate r) (NodeSelector r) (Tolerations r)
    (SecurityContext r).

Inductive MapPhase :=
  | MapPhaseUnset
  | MapPhasePending
  | MapPhaseProvisioning
  | MapPhaseInstallingActive
  | MapPhaseInstallingInactive
  | MapPhaseRunning
  | MapPhaseDrainingActive
  | MapPhaseSwapping
  | MapPhaseFailed.
#[export] Instance MapPhase_eq_dec : EqDecision MapPhase.
Proof. solve_decision. Defined.
#[export] Instance MapPhase_finite : finite.Finite MapPhase.
Proof.
  refine {| finite.enum := [MapPhaseUnset; MapPhasePending; MapPhaseProvisioning;
    MapPhaseInstallingActive; MapPhaseInstallingInactive; MapPhaseRunning;
    MapPhaseDrainingActive; MapPhaseSwapping; MapPhaseFailed] |}.
  - by apply (bool_decide_unpack _).
  - intros []; by apply (bool_decide_unpack _).
Defined.

Inductive ClusterPhase :=
  | ClusterPhaseUnset
  | ClusterPhasePending
  | ClusterPhaseInitializing
  | ClusterPhaseRunning
  | ClusterPhaseUpdating
  | ClusterPhaseDegraded
  | ClusterPhaseFailed.

Record MapStatus := MkMapStatus {
  ms_ID : string;
  ms_Phase : MapPhase;
  ActiveVolume : string;
  ActiveBuildID : string;
  PendingBuildID : string;
  Address : string;
  RconAddress : string;
  ms_SessionName : string;
  LastSaveTime : option Z;
  ms_Pod : string;
  LastGoodVolume : string;
  DrainDeadline : option Z;
  ms_Conditions : list Condition }.
#[export] Instance eta_MapStatus : Settable MapStatus := fun r =>
  MkMapStatus (ms_ID r) (ms_Phase r) (ActiveVolume r) (ActiveBuildID r) (PendingBuildID r)
    (Address r) (RconAddress r) (ms_SessionName r) (LastSaveTime r) (ms_Pod r)
    (LastGoodVolume r) (DrainDeadline r) (ms_Conditions r).

(** [arkv1.MapStatus{ID: id}]. *)
Definition new_MapStatus (id : string) : MapStatus :=
  MkMapStatus id MapPhaseUnset "" "" "" "" "" "" None "" "" None [].

Record TrackedMod := MkTrackedMod {
  tm_ID : Z;
  tm_Slug : string;
  InstalledVersion : string;
  InstalledFileID : Z;
  LatestVersion : string;
  LatestFileID : Z;
  LastChanged : option Z;
  AffectedMaps : list string }.
#[export] Instance eta_TrackedMod : Settable TrackedMod := fun r =>
  MkTrackedMod (tm_ID r) (tm_Slug r) (InstalledVersion r) (InstalledFileID r)
    (LatestVersion r) (LatestFileID r) (LastChanged r) (AffectedMaps r).

Record ModStatus := MkModStatus {
  LastCheckTime : option Z;
  NextCheckTime : option Z;
  LastError : string;
  Tracked : list TrackedMod }.
#[export] Instance eta_ModStatus : Settable ModStatus := fun r =>
  MkModStatus (LastCheckTime r) (NextCheckTime r) (LastError r) (Tracked r).

Record ArkClusterStatus := MkArkClusterStatus {
  cs_Phase : ClusterPhase;
  cs_Conditions : list Condition;
  MapStatuses : list MapStatus;
  ModsStatus : option ModStatus;
  TotalMaps : Z;
  ReadyMaps : Z;
  ObservedGeneration : Z }.
#[export] Instance eta_ArkClusterStatus : Settable ArkClusterStatus := fun r =>
  MkArkClusterStatus (cs_Phase r) (cs_Conditions r) (MapStatuses r) (ModsStatus r)
    (TotalMaps r) (ReadyMaps r) (ObservedGeneration r).

Record ArkCluster := MkArkCluster {
  cluster_meta : ObjectMeta;
  Spec : ArkClusterSpec;
  Status : ArkClusterStatus }.
#[export] Instance eta_ArkCluster : Settable ArkCluster := fun r =>
  MkArkCluster (cluster_meta r) (Spec r) (Status r).

Definition cluster_name (c : ArkCluster) : string := Name (cluster_meta c).
Definition cluster_ns (c : ArkCluster) : string := Namespace (cluster_meta c).

(** Assignment to one field of one element of [cluster.Status.Maps]. *)
Definition on_status (f : ArkClusterStatus -> ArkClusterStatus) (c : ArkCluster) : ArkCluster :=
  c <| Status ::= f |>.
Definition on_maps (f : list MapStatus -> list MapStatus) : ArkCluster -> ArkCluster :=
  on_status (fun st => st <| MapStatuses ::= f |>).

(** ** A small cluster, for the examples and witnesses *)

Definition empty_status : ArkClusterStatus :=
  MkArkClusterStatus ClusterPhaseUnset [] [] None 0 0 0.

Definition demo_spec : ArkClusterSpec :=
  MkArkClusterSpec "" "c" [MkMapSpec "TheIsland_WP" [] None None]
    (MkGlobalSettings "{cluster} - {map}" None None false ["ALL"] 70 [] [] [] None None)
    (MkStorageSpec "" "nfs-csi" "50Gi" "20Gi" "5Gi" false)
    (MkServiceSpec ServiceTypeLoadBalancer 7777 27020 [] TrafficPolicyCluster)
    (MkResourceRequirements ∅ ∅)
    (MkUpdateStrategy UpdateStrategyBlueGreen 1800000000000 RolloutOneAtATime)
    None ∅ [] None.

(** A cluster with one map and no status. *)
Definition demo_cluster : ArkCluster :=
  MkArkCluster (new_meta "c" "ns" ∅) demo_spec empty_status.
