(* ===== verification/GoHeap.v ===== *)
(** * Memory: pointers, slices and maps of Go

    A heap maps addresses to arrays of values of one type; [new(T)] is an array of length one.  A
    pointer is nil or an address, a slice nil or an interval of an array, a map nil or the address
    of a cell.  A program over the heap fails where Go would panic or could not be typed.

    [value h r] reads the abstract value of a representation [r] out of [h].  A copy is deep when
    what it returns has its value in the new cells alone: then no later write through the original
    reaches the copy, nor the other way round. *)

From S2P Require Import Prelude.

Abbreviation loc := nat.

Declare Scope heap_scope.
Delimit Scope heap_scope with heap.

(** A slice that is not nil. *)
Record slice := MkSlice { s_array : loc; s_off : nat; s_len : nat }.

Section Heap.
(** The types of the cells, and how a value of one is represented. *)
Context {T : Type} `{EqDecision T} {repr : T -> Type}.

Inductive cell := Cell (t : T) (xs : list (repr t)).
Local Abbreviation heap := (gmap loc cell).

(** The array of a cell, when it has this type. *)
Definition array_of (t : T) (c : cell) : option (list (repr t)) :=
  match c with
  | Cell t' xs =>
      match decide (t' = t) with
      | left e => Some (eq_rect t' (fun t => list (repr t)) xs t e)
      | right _ => None
      end
  end.

Lemma array_of_Cell t xs : array_of t (Cell t xs) = Some xs.
Proof.
  unfold array_of. destruct (decide (t = t)) as [e|]; [|done].
  by rewrite (Eqdep_dec.UIP_dec (decide_rel (=)) e eq_refl).
Qed.

Lemma cell_at t l xs (h : heap) : <[l := Cell t xs]> h !! l ≫= array_of t = Some xs.
Proof. rewrite lookup_insert, decide_True by done. apply array_of_Cell. Qed.
#[local] Arguments array_of : simpl never.

(** ** Programs over the heap *)

Definition hM (A : Type) : Type := heap -> option (A * heap).
Definition h_ret {A} (a : A) : hM A := fun h => Some (a, h).
Definition h_bind {A B} (m : hM A) (f : A -> hM B) : hM B := fun h =>
  match m h with Some (a, h) => f a h | None => None end.

Local Notation "'let!' x := m 'in' k" := (h_bind m (fun x => k))
  (at level 10, x pattern, m at level 100, k at level 200) : heap_scope.
Local Open Scope heap_scope.

(** [make([]T, n)] and [new(T)]. *)
Definition make (t : T) (xs : list (repr t)) : hM loc := fun h =>
  let l := fresh (dom h) in Some (l, <[l := Cell t xs]> h).
Definition read (t : T) (l : loc) : hM (list (repr t)) := fun h =>
  match h !! l ≫= array_of t with Some xs => Some (xs, h) | None => None end.
Definition write (t : T) (l : loc) (xs : list (repr t)) : hM unit := fun h =>
  match h !! l with Some _ => Some (tt, <[l := Cell t xs]> h) | None => None end.
Definition or_panic {A} (o : option A) : hM A := fun h =>
  match o with Some a => Some (a, h) | None => None end.

(** ** Values *)

Class GoVal (R V : Type) := {
  value : heap -> R -> option V;
  value_mono h h' r v : h ⊆ h' -> value h r = Some v -> value h' r = Some v }.

(** A pointer [p] to values of type [t]. *)
Definition ptr_value {V} (t : T) `{GoVal (repr t) V} (h : heap) (p : option loc) : option (option V) :=
  match p with
  | None => Some None
  | Some l =>
      match h !! l ≫= array_of t with
      | Some [x] => Some <$> value h x
      | _ => None
      end
  end.

(** The elements of a slice. *)
Definition elements_of (t : T) (h : heap) (s : slice) : option (list (repr t)) :=
  xs ← h !! s_array s ≫= array_of t;
  if decide (s_off s + s_len s <= length xs)%nat then Some (take (s_len s) (drop (s_off s) xs)) else None.

Definition read_slice (t : T) (s : slice) : hM (list (repr t)) := fun h => or_panic (elements_of t h s) h.

Definition slice_value {V} (t : T) `{GoVal (repr t) V} (h : heap) (s : option slice) : option (list V) :=
  match s with
  | None => Some []
  | Some s => elements_of t h s ≫= mapM (value h)
  end.

Lemma heap_mono (h h' : heap) l c : h ⊆ h' -> h !! l = Some c -> h' !! l = Some c.
Proof. intros Hs Hl. by eapply lookup_weaken. Qed.

Lemma array_mono t (h h' : heap) l xs :
  h ⊆ h' -> h !! l ≫= array_of t = Some xs -> h' !! l ≫= array_of t = Some xs.
Proof. intros Hs (c & Hc & Ha)%bind_Some. by rewrite (heap_mono _ _ _ _ Hs Hc). Qed.

Lemma ptr_mono {V} t `{GoVal (repr t) V} h h' p v :
  h ⊆ h' -> ptr_value t h p = Some v -> ptr_value t h' p = Some v.
Proof.
  intros Hs. destruct p as [l|]; [|done]. cbn. destruct (h !! l ≫= array_of t) as [xs|] eqn:E; [|done].
  rewrite (array_mono _ _ _ _ _ Hs E). destruct xs as [|x [|??]]; [done| |done].
  destruct (value h x) as [y|] eqn:Ev; [|done]. by rewrite (value_mono _ _ _ _ Hs Ev).
Qed.

Lemma mapM_mono {V} {R} `{GoVal R V} h h' (xs : list R) vs :
  h ⊆ h' -> mapM (value h) xs = Some vs -> mapM (value h') xs = Some vs.
Proof.
  intros Hs Hm. apply mapM_Some in Hm. apply mapM_Some. eapply Forall2_impl; [exact Hm|].
  intros x v. by apply value_mono.
Qed.

Lemma elements_mono t h h' s xs : h ⊆ h' -> elements_of t h s = Some xs -> elements_of t h' s = Some xs.
Proof.
  intros Hs. unfold elements_of. destruct (h !! s_array s ≫= array_of t) as [ys|] eqn:E; [|done].
  by rewrite (array_mono _ _ _ _ _ Hs E).
Qed.

Lemma slice_mono {V} t `{GoVal (repr t) V} h h' s vs :
  h ⊆ h' -> slice_value t h s = Some vs -> slice_value t h' s = Some vs.
Proof.
  intros Hs. destruct s as [s|]; [|done]. intros (xs & Hx & Hv)%bind_Some. cbn.
  rewrite (elements_mono _ _ _ _ _ Hs Hx). by eapply mapM_mono.
Qed.

(** ** Copies *)

(** [m] only adds cells to [h ∪ g]: the cells of [h] stay as they are, [g] grows to a [g'], and the
    result satisfies [Q] of [g'] alone. *)
Definition copies {A} (h g : heap) (m : hM A) (Q : heap -> A -> Prop) : Prop :=
  exists a g', m (h ∪ g) = Some (a, h ∪ g') /\ g ⊆ g' /\ h ##ₘ g' /\ Q g' a.

(** A copy is deep: it never panics on a readable value, and the copy has the value of the original
    in the new cells alone. *)
Definition deep {R V} `{GoVal R V} (copy : R -> hM R) : Prop :=
  forall h g r v, h ##ₘ g -> value h r = Some v ->
    copies h g (copy r) (fun g' r' => value g' r' = Some v).

Lemma copies_ret {A} h g (a : A) (Q : heap -> A -> Prop) :
  h ##ₘ g -> Q g a -> copies h g (h_ret a) Q.
Proof. intros Hd HQ. by exists a, g. Qed.

Lemma copies_bind {A B} h g (m : hM A) (f : A -> hM B) Q Q' :
  copies h g m Q' ->
  (forall a g', g ⊆ g' -> h ##ₘ g' -> Q' g' a -> copies h g' (f a) Q) ->
  copies h g (h_bind m f) Q.
Proof.
  intros (a & g1 & Hm & Hg & Hd & HQ) Hf. destruct (Hf a g1 Hg Hd HQ) as (b & g2 & Hm2 & Hg2 & Hd2 & HQ2).
  exists b, g2. unfold h_bind. rewrite Hm. repeat split; [done|by etrans|done|done].
Qed.

Lemma copies_mono {A} h g (m : hM A) (Q Q' : heap -> A -> Prop) :
  copies h g m Q' -> (forall g' a, Q' g' a -> Q g' a) -> copies h g m Q.
Proof. intros (a & g1 & Hm & Hg & Hd & HQ) HQQ. exists a, g1. eauto. Qed.

(** A copy made with one more cell, which the copy owns: the cell may be written meanwhile. *)
Lemma copies_new {A} t zeros h g (f : loc -> hM A) (Q : heap -> A -> Prop) :
  h ##ₘ g ->
  (forall l, (h ∪ g) !! l = None -> exists a g' xs,
     f l (<[l := Cell t zeros]> h ∪ g) = Some (a, <[l := Cell t xs]> h ∪ g') /\
     g ⊆ g' /\ <[l := Cell t xs]> h ##ₘ g' /\ Q (<[l := Cell t xs]> g') a) ->
  copies h g (h_bind (make t zeros) f) Q.
Proof.
  intros Hd Hf. set (l := fresh (dom (h ∪ g))).
  assert (Hl : (h ∪ g) !! l = None) by (apply not_elem_of_dom, is_fresh).
  destruct (Hf l Hl) as (a & g' & xs & Hm & Hg & Hd' & HQ).
  apply map_disjoint_insert_l in Hd' as [Hl' Hd'].
  pose proof Hl as [Hlh Hlg]%lookup_union_None.
  exists a, (<[l := Cell t xs]> g'). unfold h_bind, make. change (fresh (dom (h ∪ g))) with l.
  rewrite insert_union_l, Hm. split_and!; [|by apply insert_subseteq_r| |done].
  - by rewrite <- insert_union_l, insert_union_r.
  - by apply map_disjoint_insert_r.
Qed.

Lemma read_union t (h g : heap) l xs :
  h !! l ≫= array_of t = Some xs -> read t l (h ∪ g) = Some (xs, h ∪ g).
Proof. intros Hl. unfold read. by rewrite (array_mono _ _ _ _ _ (map_union_subseteq_l h g) Hl). Qed.

Lemma write_union t t' (h g : heap) l ys xs :
  write t l xs (<[l := Cell t' ys]> h ∪ g) = Some (tt, <[l := Cell t xs]> h ∪ g).
Proof.
  unfold write. rewrite <- insert_union_l, lookup_insert, decide_True by done.
  by rewrite insert_insert, decide_True, <- insert_union_l.
Qed.

(** ** The statements of generated copies

    A pointer: [if in.F != nil { *out = new(T); ( *in).DeepCopyInto( *out) }]. *)
Definition copy_ptr (t : T) (zero : repr t) (copy : repr t -> hM (repr t)) (p : option loc) : hM (option loc) :=
  match p with
  | None => h_ret None
  | Some i =>
      let! o := make t [zero] in
      let! xs := read t i in
      let! x := or_panic (head xs) in
      let! y := copy x in
      let! _ := write t o [y] in
      h_ret (Some o)
  end.

(** [for i := range *in { ( *in)[i].DeepCopyInto(&( *out)[i]) }], from the [i]th element on. *)
Fixpoint copy_elements (t : T) (copy : repr t -> hM (repr t)) (s : slice) (o : loc) (i n : nat) : hM unit :=
  match n with
  | O => h_ret tt
  | S n =>
      let! xs := read_slice t s in
      let! x := or_panic (xs !! i) in
      let! y := copy x in
      let! ys := read t o in
      let! _ := write t o (<[i := y]> ys) in
      copy_elements t copy s o (S i) n
  end.

(** A slice: [if in.F != nil { *out = make([]T, len( *in)); for i := range *in { ... } }]. *)
Definition copy_slice (t : T) (zero : repr t) (copy : repr t -> hM (repr t)) (s : option slice) :
    hM (option slice) :=
  match s with
  | None => h_ret None
  | Some s =>
      let! o := make t (replicate (s_len s) zero) in
      let! _ := copy_elements t copy s o 0 (s_len s) in
      h_ret (Some (MkSlice o 0 (s_len s)))
  end.

(** A slice of plain elements: [*out = make([]T, len( *in)); copy( *out, *in)]. *)
Definition copy_plain (t : T) (zero : repr t) (s : option slice) : hM (option slice) :=
  match s with
  | None => h_ret None
  | Some s =>
      let! o := make t (replicate (s_len s) zero) in
      let! xs := read_slice t s in
      let! _ := write t o xs in
      h_ret (Some (MkSlice o 0 (s_len s)))
  end.

Section Deep.
Context {V} (t : T) `{GoVal (repr t) V} (zero : repr t) (copy : repr t -> hM (repr t)) (Hcopy : deep copy).

Lemma copy_ptr_deep h g p v :
  h ##ₘ g -> ptr_value t h p = Some v ->
  copies h g (copy_ptr t zero copy p) (fun g' p' => ptr_value t g' p' = Some v).
Proof using Type Hcopy.
  intros Hd Hv. destruct p as [i|]; [|by apply copies_ret].
  cbn in Hv. destruct (h !! i ≫= array_of t) as [[|x [|??]]|] eqn:Hi; try done.
  destruct (value h x) as [vx|] eqn:Hx; [|done]. injection Hv as <-.
  apply copies_new; [done|]. intros l Hl. pose proof Hl as [Hlh Hlg]%lookup_union_None.
  assert (Hs : h ⊆ <[l := Cell t [zero]]> h) by by apply insert_subseteq.
  destruct (Hcopy (<[l := Cell t [zero]]> h) g x vx) as (y & g' & Hy & Hg & Hd' & Hvy).
  { by apply map_disjoint_insert_l. }
  { by eapply value_mono. }
  exists (Some l), g', [y].
  unfold h_bind at 1. rewrite (read_union _ _ _ _ _ (array_mono _ _ _ _ _ Hs Hi)).
  unfold h_bind, or_panic, h_ret; cbn. rewrite Hy, write_union.
  apply map_disjoint_insert_l in Hd' as [Hl' Hd']. split_and!; [done..| |].
  - by apply map_disjoint_insert_l.
  - unfold ptr_value. rewrite cell_at. by rewrite (value_mono _ (<[l := Cell t [y]]> g') _ _ (insert_subseteq _ _ _ Hl') Hvy).
Qed.

(** The loop: [ys] is the array so far, whose first [i] elements are copies already. *)
Lemma copy_elements_deep h g l s xs vs ys i n :
  h !! l = None -> <[l := Cell t ys]> h ##ₘ g ->
  elements_of t h s = Some xs -> mapM (value h) xs = Some vs ->
  (i + n = length xs)%nat -> length ys = length xs ->
  Forall2 (fun y v => value g y = Some v) (take i ys) (take i vs) ->
  exists g' ys', copy_elements t copy s l i n (<[l := Cell t ys]> h ∪ g)
      = Some (tt, <[l := Cell t ys']> h ∪ g') /\
    g ⊆ g' /\ <[l := Cell t ys']> h ##ₘ g' /\ mapM (value g') ys' = Some vs.
Proof using Type Hcopy.
  intros Hl Hd Hx Hv. revert g ys i Hd. induction n as [|n IH]; intros g ys i Hd Hin Hlen Hcp.
  { exists g, ys. split_and!; [done..|]. apply mapM_Some.
    assert (Hlv := length_mapM _ _ _ Hv). rewrite !take_ge in Hcp by lia. done. }
  destruct (lookup_lt_is_Some_2 xs i) as [x Hxi]; [lia|].
  destruct (lookup_lt_is_Some_2 vs i) as [v Hvi].
  { rewrite <- (length_mapM _ _ _ Hv). lia. }
  assert (Hxv : value h x = Some v).
  { apply mapM_Some in Hv. by destruct (Forall2_lookup_lr _ _ _ _ _ _ Hv Hxi Hvi). }
  assert (Hs : h ⊆ <[l := Cell t ys]> h) by by apply insert_subseteq.
  destruct (Hcopy _ g x v Hd (value_mono _ _ _ _ Hs Hxv)) as (y & g1 & Hy & Hg1 & Hd1 & Hvy).
  assert (Hl1 : g1 !! l = None).
  { by apply map_disjoint_insert_l in Hd1 as [? _]. }
  assert (Hd2 : <[l := Cell t (<[i := y]> ys)]> h ##ₘ g1).
  { apply map_disjoint_insert_l in Hd1 as [_ Hd1]. by apply map_disjoint_insert_l. }
  destruct (IH g1 (<[i := y]> ys) (S i) Hd2) as (g' & ys' & Hrun & Hg' & Hd' & Hm).
  { lia. } { by rewrite length_insert. }
  { assert (Hyi : <[i := y]> ys !! i = Some y) by (apply list_lookup_insert_eq; lia).
    rewrite (take_S_r _ _ _ Hyi), (take_S_r _ _ _ Hvi).
    apply Forall2_app; [|by constructor].
    rewrite take_insert, decide_False by lia. eapply Forall2_impl; [exact Hcp|].
    intros a b. by apply value_mono. }
  exists g', ys'. split_and!; [|by etrans|done|done].
  cbn [copy_elements]. unfold h_bind at 1, read_slice.
  rewrite (elements_mono _ _ _ _ _ (map_union_subseteq_l _ g) (elements_mono _ _ _ _ _ Hs Hx)).
  unfold h_bind, or_panic. cbn. rewrite Hxi, Hy.
  rewrite (read_union _ _ _ _ ys) by apply cell_at. by rewrite write_union.
Qed.

Lemma slice_value_whole (g : heap) l xs vs :
  g !! l = None -> mapM (value g) xs = Some vs ->
  slice_value t (<[l := Cell t xs]> g) (Some (MkSlice l 0 (length xs))) = Some vs.
Proof.
  intros Hl Hv. unfold slice_value, elements_of. cbn [s_array s_off s_len].
  rewrite cell_at. cbn. rewrite decide_True by lia. rewrite drop_0, take_ge by lia. cbn.
  by apply (mapM_mono g); [apply insert_subseteq|].
Qed.

Lemma elements_length h s xs : elements_of t h s = Some xs -> s_len s = length xs.
Proof.
  unfold elements_of. destruct (h !! s_array s ≫= array_of t); cbn; [|done].
  case_decide; [|done]. intros [= <-]. rewrite length_take, length_drop. lia.
Qed.

Lemma copy_slice_deep h g s vs :
  h ##ₘ g -> slice_value t h s = Some vs ->
  copies h g (copy_slice t zero copy s) (fun g' s' => slice_value t g' s' = Some vs).
Proof using Type Hcopy.
  intros Hd Hv. destruct s as [s|]; [|by apply copies_ret].
  apply bind_Some in Hv as (xs & Hx & Hv). pose proof (elements_length _ _ _ Hx) as Hn.
  apply copies_new; [done|]. intros l [Hlh Hlg]%lookup_union_None.
  destruct (copy_elements_deep h g l s xs vs (replicate (s_len s) zero) 0 (s_len s))
    as (g' & ys & Hrun & Hg & Hd' & Hm); [done| |done..| |by rewrite length_replicate|constructor|].
  { by apply map_disjoint_insert_l. } { lia. }
  exists (Some (MkSlice l 0 (s_len s))), g', ys. unfold h_bind, h_ret. rewrite Hrun.
  split_and!; [done..|]. replace (s_len s) with (length ys).
  - apply map_disjoint_insert_l in Hd' as [Hl' _]. by apply slice_value_whole.
  - rewrite (length_mapM _ _ _ Hm), <- (length_mapM _ _ _ Hv). done.
Qed.

(** Values that refer to no cell. *)
Definition plain : Prop := forall h h' r, value (R := repr t) h r = value (V := V) h' r.

Lemma copy_plain_deep h g s vs :
  plain -> h ##ₘ g -> slice_value t h s = Some vs ->
  copies h g (copy_plain t zero s) (fun g' s' => slice_value t g' s' = Some vs).
Proof.
  intros Hp Hd Hv. destruct s as [s|]; [|by apply copies_ret].
  apply bind_Some in Hv as (xs & Hx & Hv). pose proof (elements_length _ _ _ Hx) as Hn.
  apply copies_new; [done|]. intros l [Hlh Hlg]%lookup_union_None.
  set (z := Cell t (replicate (s_len s) zero)).
  assert (Hs : h ⊆ <[l := z]> h ∪ g).
  { etrans; [by apply insert_subseteq|apply map_union_subseteq_l]. }
  exists (Some (MkSlice l 0 (s_len s))), g, xs. unfold h_bind, h_ret, read_slice.
  rewrite (elements_mono _ _ _ _ _ Hs Hx). cbn [or_panic]. unfold z. rewrite write_union.
  split_and!; [done..|by apply map_disjoint_insert_l|]. rewrite Hn.
  apply slice_value_whole; [done|].
  rewrite <- Hv. apply mapM_ext. intros x. by apply Hp.
Qed.
End Deep.
End Heap.

Arguments cell {T} repr.
Arguments hM {T} repr A.
Arguments GoVal {T} repr R V.

Notation "'let!' x := m 'in' k" := (h_bind m (fun x => k))
  (at level 10, x pattern, m at level 100, k at level 200) : heap_scope.
