(* ===== verification/DeepCopy.v ===== *)
(** * Deep copies (api/v1alpha1/zz_generated.deepcopy.go)

    The structs of the API as they lie in memory, with their pointers, slices and maps
    ([GoHeap.v]), and the generated copies, a definition per function.  [func (in *T)
    DeepCopyInto(out *T)] is a program from the struct read through [in] to the one written
    through [out], which is another.  The values the structs stand for are the records of
    [ApiTypes.v].

    The functions of the libraries' types are not in this repository: they are the class
    [Library], whose law is that they are deep, as their documentation promises. *)

From S2P Require Import Prelude ApiTypes GoHeap.

(** ** Types *)

(** The types of the Kubernetes libraries that the structs hold. *)
Inductive LibType := TObjectMeta | TListMeta | TCondition | TSecretKeySelector
  | TResourceRequirements | TToleration | TPodSecurityContext | TTime.
#[export] Instance LibType_eq_dec : EqDecision LibType.
Proof. solve_decision. Defined.

Record TypeMeta := MkTypeMeta { Kind : string; APIVersion : string }.
Record ListMeta := MkListMeta { list_ResourceVersion : string; Continue : string }.

Definition lib_val (t : LibType) : Type :=
  match t with
  | TObjectMeta => ObjectMeta
  | TListMeta => ListMeta
  | TCondition => Condition
  | TSecretKeySelector => SecretKeySelector
  | TResourceRequirements => ResourceRequirements
  | TToleration => Toleration
  | TPodSecurityContext => PodSecurityContext
  | TTime => Z
  end.

(** How the libraries lay out their types, and the types of the cells they use inside. *)
Class LibTypes := {
  lib : LibType -> Type;
  lib_zero : forall t, lib t;
  inner : Type;
  inner_eq_dec :: EqDecision inner;
  inner_repr : inner -> Type;
  inner_zero : forall t, inner_repr t }.

Section Types.
Context `{LibTypes}.

(** The types of the cells. *)
Inductive GoType := TString | TInt64 | TStringMap
  | TConfigMapRef | TMapSpec | TGlobalSettings | TStorageSpec | TServiceSpec | TUpdateStrategy
  | TModAutoUpdateSpec | TArkClusterSpec | TMapStatus | TTrackedMod | TModStatus
  | TArkClusterStatus | TArkCluster | TArkClusterList
  | TLib (t : LibType) | TInner (t : inner).
#[export] Instance GoType_eq_dec : EqDecision GoType.
Proof. solve_decision. Defined.

(** ** The structs in memory *)

Record MapSpecMem := MkMapSpecMem {
  MapSpec_ID : string;
  MapSpec_Mods : option slice;
  MapSpec_GameUserSettings : option loc;
  MapSpec_Game : option loc }.
#[export] Instance eta_MapSpecMem : Settable MapSpecMem := fun r =>
  MkMapSpecMem (MapSpec_ID r) (MapSpec_Mods r) (MapSpec_GameUserSettings r) (MapSpec_Game r).

Record GlobalSettingsMem := MkGlobalSettingsMem {
  Global_SessionNameFormat : string;
  Global_ServerPassword : option loc;
  Global_AdminPassword : option loc;
  Global_BattlEye : bool;
  Global_AllowedPlatforms : option slice;
  Global_MaxPlayers : Z;
  Global_Mods : option slice;
  Global_ExtraOptions : option slice;
  Global_ExtraParams : option slice;
  Global_GameUserSettings : option loc;
  Global_Game : option loc }.
#[export] Instance eta_GlobalSettingsMem : Settable GlobalSettingsMem := fun r =>
  MkGlobalSettingsMem (Global_SessionNameFormat r) (Global_ServerPassword r)
    (Global_AdminPassword r) (Global_BattlEye r) (Global_AllowedPlatforms r)
    (Global_MaxPlayers r) (Global_Mods r) (Global_ExtraOptions r) (Global_ExtraParams r)
    (Global_GameUserSettings r) (Global_Game r).

Record ServiceSpecMem := MkServiceSpecMem {
  Service_Type : ServiceType;
  Service_GamePortStart : Z;
  Service_RconPortStart : Z;
  Service_LoadBalancerIPs : option slice;
  Service_ExternalTrafficPolicy : TrafficPolicy }.
#[export] Instance eta_ServiceSpecMem : Settable ServiceSpecMem := fun r =>
  MkServiceSpecMem (Service_Type r) (Service_GamePortStart r) (Service_RconPortStart r)
    (Service_LoadBalancerIPs r) (Service_ExternalTrafficPolicy r).

Record ModAutoUpdateSpecMem := MkModAutoUpdateSpecMem {
  ModAuto_Enabled : bool;
  ModAuto_IntervalMinutes : Z;
  ModAuto_CurseForgeAPIKeyRef : lib TSecretKeySelector }.
#[export] Instance eta_ModAutoUpdateSpecMem : Settable ModAutoUpdateSpecMem := fun r =>
  MkModAutoUpdateSpecMem (ModAuto_Enabled r) (ModAuto_IntervalMinutes r)
    (ModAuto_CurseForgeAPIKeyRef r).

Record ArkClusterSpecMem := MkArkClusterSpecMem {
  Spec_Image : string;
  Spec_ClusterID : string;
  Spec_Maps : option slice;
  Spec_GlobalSettings : GlobalSettingsMem;
  Spec_Storage : StorageSpec;
  Spec_Service : ServiceSpecMem;
  Spec_Resources : lib TResourceRequirements;
  Spec_UpdateStrategy : UpdateStrategy;
  Spec_ModAutoUpdate : option loc;
  Spec_NodeSelector : option loc;
  Spec_Tolerations : option slice;
  Spec_PodSecurityContext : option loc }.
#[export] Instance eta_ArkClusterSpecMem : Settable ArkClusterSpecMem := fun r =>
  MkArkClusterSpecMem (Spec_Image r) (Spec_ClusterID r) (Spec_Maps r) (Spec_GlobalSettings r)
    (Spec_Storage r) (Spec_Service r) (Spec_Resources r) (Spec_UpdateStrategy r)
    (Spec_ModAutoUpdate r) (Spec_NodeSelector r) (Spec_Tolerations r)
    (Spec_PodSecurityContext r).

Record MapStatusMem := MkMapStatusMem {
  MapStatus_ID : string;
  MapStatus_Phase : MapPhase;
  MapStatus_ActiveVolume : string;
  MapStatus_ActiveBuildID : string;
  MapStatus_PendingBuildID : string;
  MapStatus_Address : string;
  MapStatus_RconAddress : string;
  MapStatus_SessionName : string;
  MapStatus_LastSaveTime : option loc;
  MapStatus_Pod : string;
  MapStatus_LastGoodVolume : string;
  MapStatus_DrainDeadline : option loc;
  MapStatus_Conditions : option slice }.
#[export] Instance eta_MapStatusMem : Settable MapStatusMem := fun r =>
  MkMapStatusMem (MapStatus_ID r) (MapStatus_Phase r) (MapStatus_ActiveVolume r)
    (MapStatus_ActiveBuildID r) (MapStatus_PendingBuildID r) (MapStatus_Address r)
    (MapStatus_RconAddress r) (MapStatus_SessionName r) (MapStatus_LastSaveTime r)
    (MapStatus_Pod r) (MapStatus_LastGoodVolume r) (MapStatus_DrainDeadline r)
    (MapStatus_Conditions r).

Record TrackedModMem := MkTrackedModMem {
  Tracked_ID : Z;
  Tracked_Slug : string;
  Tracked_InstalledVersion : string;
  Tracked_InstalledFileID : Z;
  Tracked_LatestVersion : string;
  Tracked_LatestFileID : Z;
  Tracked_LastChanged : option loc;
  Tracked_AffectedMaps : option slice }.
#[export] Instance eta_TrackedModMem : Settable TrackedModMem := fun r =>
  MkTrackedModMem (Tracked_ID r) (Tracked_Slug r) (Tracked_InstalledVersion r)
    (Tracked_InstalledFileID r) (Tracked_LatestVersion r) (Tracked_LatestFileID r)
    (Tracked_LastChanged r) (Tracked_AffectedMaps r).

Record ModStatusMem := MkModStatusMem {
  ModStatus_LastCheckTime : option loc;
  ModStatus_NextCheckTime : option loc;
  ModStatus_LastError : string;
  ModStatus_Tracked : option slice }.
#[export] Instance eta_ModStatusMem : Settable ModStatusMem := fun r =>
  MkModStatusMem (ModStatus_LastCheckTime r) (ModStatus_NextCheckTime r) (ModStatus_LastError r)
    (ModStatus_Tracked r).

Record ArkClusterStatusMem := MkArkClusterStatusMem {
  Status_Phase : ClusterPhase;
  Status_Conditions : option slice;
  Status_Maps : option slice;
  Status_Mods : option loc;
  Status_TotalMaps : Z;
  Status_ReadyMaps : Z;
  Status_ObservedGeneration : Z }.
#[export] Instance eta_ArkClusterStatusMem : Settable ArkClusterStatusMem := fun r =>
  MkArkClusterStatusMem (Status_Phase r) (Status_Conditions r) (Status_Maps r) (Status_Mods r)
    (Status_TotalMaps r) (Status_ReadyMaps r) (Status_ObservedGeneration r).

Record ArkClusterMem := MkArkClusterMem {
  Cluster_TypeMeta : TypeMeta;
  Cluster_ObjectMeta : lib TObjectMeta;
  Cluster_Spec : ArkClusterSpecMem;
  Cluster_Status : ArkClusterStatusMem }.
#[export] Instance eta_ArkClusterMem : Settable ArkClusterMem := fun r =>
  MkArkClusterMem (Cluster_TypeMeta r) (Cluster_ObjectMeta r) (Cluster_Spec r)
    (Cluster_Status r).

Record ArkClusterListMem := MkArkClusterListMem {
  List_TypeMeta : TypeMeta;
  List_ListMeta : lib TListMeta;
  List_Items : option slice }.
#[export] Instance eta_ArkClusterListMem : Settable ArkClusterListMem := fun r =>
  MkArkClusterListMem (List_TypeMeta r) (List_ListMeta r) (List_Items r).

(** What a cell of each type holds. *)
Definition repr (t : GoType) : Type :=
  match t with
  | TString => string
  | TInt64 => Z
  | TStringMap => strmap
  | TConfigMapRef => ConfigMapRef
  | TMapSpec => MapSpecMem
  | TGlobalSettings => GlobalSettingsMem
  | TStorageSpec => StorageSpec
  | TServiceSpec => ServiceSpecMem
  | TUpdateStrategy => UpdateStrategy
  | TModAutoUpdateSpec => ModAutoUpdateSpecMem
  | TArkClusterSpec => ArkClusterSpecMem
  | TMapStatus => MapStatusMem
  | TTrackedMod => TrackedModMem
  | TModStatus => ModStatusMem
  | TArkClusterStatus => ArkClusterStatusMem
  | TArkCluster => ArkClusterMem
  | TArkClusterList => ArkClusterListMem
  | TLib t => lib t
  | TInner t => inner_repr t
  end.

(** The zero values. *)
Definition zero_ConfigMapRef : ConfigMapRef := MkConfigMapRef "".
Definition zero_MapSpec : MapSpecMem := MkMapSpecMem "" None None None.
Definition zero_GlobalSettings : GlobalSettingsMem :=
  MkGlobalSettingsMem "" None None false None 0 None None None None None.
Definition zero_StorageSpec : StorageSpec := MkStorageSpec "" "" "" "" "" false.
Definition zero_ServiceSpec : ServiceSpecMem :=
  MkServiceSpecMem ServiceTypeUnset 0 0 None TrafficPolicyUnset.
Definition zero_UpdateStrategy : UpdateStrategy :=
  MkUpdateStrategy UpdateStrategyUnset 0 RolloutUnset.
Definition zero_ModAutoUpdateSpec : ModAutoUpdateSpecMem := MkModAutoUpdateSpecMem false 0 (lib_zero _).
Definition zero_ArkClusterSpec : ArkClusterSpecMem :=
  MkArkClusterSpecMem "" "" None zero_GlobalSettings zero_StorageSpec zero_ServiceSpec (lib_zero _)
    zero_UpdateStrategy None None None None.
Definition zero_MapStatus : MapStatusMem :=
  MkMapStatusMem "" MapPhaseUnset "" "" "" "" "" "" None "" "" None None.
Definition zero_TrackedMod : TrackedModMem := MkTrackedModMem 0 "" "" 0 "" 0 None None.
Definition zero_ModStatus : ModStatusMem := MkModStatusMem None None "" None.
Definition zero_ArkClusterStatus : ArkClusterStatusMem :=
  MkArkClusterStatusMem ClusterPhaseUnset None None None 0 0 0.
Definition zero_ArkCluster : ArkClusterMem :=
  MkArkClusterMem (MkTypeMeta "" "") (lib_zero _) zero_ArkClusterSpec zero_ArkClusterStatus.
Definition zero_ArkClusterList : ArkClusterListMem :=
  MkArkClusterListMem (MkTypeMeta "" "") (lib_zero _) None.

Definition zero (t : GoType) : repr t :=
  match t with
  | TString => "" | TInt64 => 0 | TStringMap => ∅
  | TConfigMapRef => zero_ConfigMapRef
  | TMapSpec => zero_MapSpec
  | TGlobalSettings => zero_GlobalSettings
  | TStorageSpec => zero_StorageSpec
  | TServiceSpec => zero_ServiceSpec
  | TUpdateStrategy => zero_UpdateStrategy
  | TModAutoUpdateSpec => zero_ModAutoUpdateSpec
  | TArkClusterSpec => zero_ArkClusterSpec
  | TMapStatus => zero_MapStatus
  | TTrackedMod => zero_TrackedMod
  | TModStatus => zero_ModStatus
  | TArkClusterStatus => zero_ArkClusterStatus
  | TArkCluster => zero_ArkCluster
  | TArkClusterList => zero_ArkClusterList
  | TLib t => lib_zero t
  | TInner t => inner_zero t
  end.
End Types.

Abbreviation heap := (gmap loc (cell repr)).
Abbreviation go := (hM repr).

(** ** The libraries' functions, and the order in which a loop ranges over a map *)

Class Library `{LibTypes} := {
  lib_DeepCopyInto : forall t, lib t -> go (lib t);
  Time_DeepCopy : loc -> go (option loc);
  range : strmap -> list (string * string) }.

Section Functions.
Context `{Library}.
Open Scope heap_scope.

(** The three shapes of a field's copy, with the zero values of their types. *)
Definition new_copy (t : GoType) := copy_ptr t (zero t).
Definition make_copy (t : GoType) := copy_slice t (zero t).
Definition plain_copy (t : GoType) := copy_plain t (zero t).

(** [if in.F != nil { *out = ( *in).DeepCopy() }], of a [*metav1.Time]. *)
Definition time_copy (p : option loc) : go (option loc) :=
  match p with None => h_ret None | Some t => Time_DeepCopy t end.

(** [for key, val := range *in { ( *out)[key] = val }]. *)
Fixpoint put_all (o : loc) (kvs : list (string * string)) : go unit :=
  match kvs with
  | [] => h_ret tt
  | (k, v) :: kvs =>
      let! ms := read TStringMap o in
      let! m := or_panic (head ms) in
      let! _ := write TStringMap o [<[k := v]> m : strmap] in
      put_all o kvs
  end.
Definition map_copy (p : option loc) : go (option loc) :=
  match p with
  | None => h_ret None
  | Some i =>
      let! o := make TStringMap [∅ : strmap] in
      let! ms := read TStringMap i in
      let! m := or_panic (head ms) in
      let! _ := put_all o (range m) in
      h_ret (Some o)
  end.

(** ** The generated functions *)

Definition ConfigMapRef_DeepCopyInto (i : ConfigMapRef) : go ConfigMapRef := h_ret i.
Definition ConfigMapRef_DeepCopy := new_copy TConfigMapRef ConfigMapRef_DeepCopyInto.

(** [**out = **in]. *)
Definition assign {A} (i : A) : go A := h_ret i.

Definition GlobalSettings_DeepCopyInto (i : GlobalSettingsMem) : go GlobalSettingsMem :=
  let out := i in
  let! p := new_copy (TLib TSecretKeySelector) (lib_DeepCopyInto _) (Global_ServerPassword i) in
  let out := out <| Global_ServerPassword := p |> in
  let! p := new_copy (TLib TSecretKeySelector) (lib_DeepCopyInto _) (Global_AdminPassword i) in
  let out := out <| Global_AdminPassword := p |> in
  let! s := plain_copy TString (Global_AllowedPlatforms i) in
  let out := out <| Global_AllowedPlatforms := s |> in
  let! s := plain_copy TInt64 (Global_Mods i) in
  let out := out <| Global_Mods := s |> in
  let! s := plain_copy TString (Global_ExtraOptions i) in
  let out := out <| Global_ExtraOptions := s |> in
  let! s := plain_copy TString (Global_ExtraParams i) in
  let out := out <| Global_ExtraParams := s |> in
  let! p := new_copy TConfigMapRef assign (Global_GameUserSettings i) in
  let out := out <| Global_GameUserSettings := p |> in
  let! p := new_copy TConfigMapRef assign (Global_Game i) in
  let out := out <| Global_Game := p |> in
  h_ret out.
Definition GlobalSettings_DeepCopy := new_copy TGlobalSettings GlobalSettings_DeepCopyInto.

Definition MapSpec_DeepCopyInto (i : MapSpecMem) : go MapSpecMem :=
  let out := i in
  let! s := plain_copy TInt64 (MapSpec_Mods i) in
  let out := out <| MapSpec_Mods := s |> in
  let! p := new_copy TConfigMapRef assign (MapSpec_GameUserSettings i) in
  let out := out <| MapSpec_GameUserSettings := p |> in
  let! p := new_copy TConfigMapRef assign (MapSpec_Game i) in
  let out := out <| MapSpec_Game := p |> in
  h_ret out.
Definition MapSpec_DeepCopy := new_copy TMapSpec MapSpec_DeepCopyInto.

Definition MapStatus_DeepCopyInto (i : MapStatusMem) : go MapStatusMem :=
  let out := i in
  let! p := time_copy (MapStatus_LastSaveTime i) in
  let out := out <| MapStatus_LastSaveTime := p |> in
  let! p := time_copy (MapStatus_DrainDeadline i) in
  let out := out <| MapStatus_DrainDeadline := p |> in
  let! s := make_copy (TLib TCondition) (lib_DeepCopyInto _) (MapStatus_Conditions i) in
  let out := out <| MapStatus_Conditions := s |> in
  h_ret out.
Definition MapStatus_DeepCopy := new_copy TMapStatus MapStatus_DeepCopyInto.

Definition ModAutoUpdateSpec_DeepCopyInto (i : ModAutoUpdateSpecMem) : go ModAutoUpdateSpecMem :=
  let out := i in
  let! x := lib_DeepCopyInto _ (ModAuto_CurseForgeAPIKeyRef i) in
  let out := out <| ModAuto_CurseForgeAPIKeyRef := x |> in
  h_ret out.
Definition ModAutoUpdateSpec_DeepCopy := new_copy TModAutoUpdateSpec ModAutoUpdateSpec_DeepCopyInto.

Definition TrackedMod_DeepCopyInto (i : TrackedModMem) : go TrackedModMem :=
  let out := i in
  let! p := time_copy (Tracked_LastChanged i) in
  let out := out <| Tracked_LastChanged := p |> in
  let! s := plain_copy TString (Tracked_AffectedMaps i) in
  let out := out <| Tracked_AffectedMaps := s |> in
  h_ret out.
Definition TrackedMod_DeepCopy := new_copy TTrackedMod TrackedMod_DeepCopyInto.

Definition ModStatus_DeepCopyInto (i : ModStatusMem) : go ModStatusMem :=
  let out := i in
  let! p := time_copy (ModStatus_LastCheckTime i) in
  let out := out <| ModStatus_LastCheckTime := p |> in
  let! p := time_copy (ModStatus_NextCheckTime i) in
  let out := out <| ModStatus_NextCheckTime := p |> in
  let! s := make_copy TTrackedMod TrackedMod_DeepCopyInto (ModStatus_Tracked i) in
  let out := out <| ModStatus_Tracked := s |> in
  h_ret out.
Definition ModStatus_DeepCopy := new_copy TModStatus ModStatus_DeepCopyInto.

Definition ServiceSpec_DeepCopyInto (i : ServiceSpecMem) : go ServiceSpecMem :=
  let out := i in
  let! s := plain_copy TString (Service_LoadBalancerIPs i) in
  let out := out <| Service_LoadBalancerIPs := s |> in
  h_ret out.
Definition ServiceSpec_DeepCopy := new_copy TServiceSpec ServiceSpec_DeepCopyInto.

Definition StorageSpec_DeepCopyInto (i : StorageSpec) : go StorageSpec := h_ret i.
Definition StorageSpec_DeepCopy := new_copy TStorageSpec StorageSpec_DeepCopyInto.

Definition UpdateStrategy_DeepCopyInto (i : UpdateStrategy) : go UpdateStrategy :=
  let out := i in
  h_ret (MkUpdateStrategy (strategy_Type out) (GracefulShutdown i) (Rollout out)).
Definition UpdateStrategy_DeepCopy := new_copy TUpdateStrategy UpdateStrategy_DeepCopyInto.

Definition ArkClusterSpec_DeepCopyInto (i : ArkClusterSpecMem) : go ArkClusterSpecMem :=
  let out := i in
  let! s := make_copy TMapSpec MapSpec_DeepCopyInto (Spec_Maps i) in
  let out := out <| Spec_Maps := s |> in
  let! x := GlobalSettings_DeepCopyInto (Spec_GlobalSettings i) in
  let out := out <| Spec_GlobalSettings := x |> in
  let out := out <| Spec_Storage := Spec_Storage i |> in
  let! x := ServiceSpec_DeepCopyInto (Spec_Service i) in
  let out := out <| Spec_Service := x |> in
  let! x := lib_DeepCopyInto _ (Spec_Resources i) in
  let out := out <| Spec_Resources := x |> in
  let out := out <| Spec_UpdateStrategy := Spec_UpdateStrategy i |> in
  let! p := new_copy TModAutoUpdateSpec ModAutoUpdateSpec_DeepCopyInto (Spec_ModAutoUpdate i) in
  let out := out <| Spec_ModAutoUpdate := p |> in
  let! p := map_copy (Spec_NodeSelector i) in
  let out := out <| Spec_NodeSelector := p |> in
  let! s := make_copy (TLib TToleration) (lib_DeepCopyInto _) (Spec_Tolerations i) in
  let out := out <| Spec_Tolerations := s |> in
  let! p := new_copy (TLib TPodSecurityContext) (lib_DeepCopyInto _) (Spec_PodSecurityContext i) in
  let out := out <| Spec_PodSecurityContext := p |> in
  h_ret out.
Definition ArkClusterSpec_DeepCopy := new_copy TArkClusterSpec ArkClusterSpec_DeepCopyInto.

Definition ArkClusterStatus_DeepCopyInto (i : ArkClusterStatusMem) : go ArkClusterStatusMem :=
  let out := i in
  let! s := make_copy (TLib TCondition) (lib_DeepCopyInto _) (Status_Conditions i) in
  let out := out <| Status_Conditions := s |> in
  let! s := make_copy TMapStatus MapStatus_DeepCopyInto (Status_Maps i) in
  let out := out <| Status_Maps := s |> in
  let! p := new_copy TModStatus ModStatus_DeepCopyInto (Status_Mods i) in
  let out := out <| Status_Mods := p |> in
  h_ret out.
Definition ArkClusterStatus_DeepCopy := new_copy TArkClusterStatus ArkClusterStatus_DeepCopyInto.

Definition ArkCluster_DeepCopyInto (i : ArkClusterMem) : go ArkClusterMem :=
  let out := i in
  let out := out <| Cluster_TypeMeta := Cluster_TypeMeta i |> in
  let! x := lib_DeepCopyInto _ (Cluster_ObjectMeta i) in
  let out := out <| Cluster_ObjectMeta := x |> in
  let! x := ArkClusterSpec_DeepCopyInto (Cluster_Spec i) in
  let out := out <| Cluster_Spec := x |> in
  let! x := ArkClusterStatus_DeepCopyInto (Cluster_Status i) in
  let out := out <| Cluster_Status := x |> in
  h_ret out.
Definition ArkCluster_DeepCopy := new_copy TArkCluster ArkCluster_DeepCopyInto.

Definition ArkClusterList_DeepCopyInto (i : ArkClusterListMem) : go ArkClusterListMem :=
  let out := i in
  let out := out <| List_TypeMeta := List_TypeMeta i |> in
  let! x := lib_DeepCopyInto _ (List_ListMeta i) in
  let out := out <| List_ListMeta := x |> in
  let! s := make_copy TArkCluster ArkCluster_DeepCopyInto (List_Items i) in
  let out := out <| List_Items := s |> in
  h_ret out.
Definition ArkClusterList_DeepCopy := new_copy TArkClusterList ArkClusterList_DeepCopyInto.

(** An interface [runtime.Object]: nil, or a pointer, perhaps a nil one, with its type. *)
Inductive Object := OArkCluster (p : option loc) | OArkClusterList (p : option loc).

Definition ArkCluster_DeepCopyObject (p : option loc) : go (option Object) :=
  let! c := ArkCluster_DeepCopy p in
  h_ret (if decide (c <> None) then Some (OArkCluster c) else None).
Definition ArkClusterList_DeepCopyObject (p : option loc) : go (option Object) :=
  let! c := ArkClusterList_DeepCopy p in
  h_ret (if decide (c <> None) then Some (OArkClusterList c) else None).
End Functions.

(** ** Values *)

(** How the libraries' types are read. *)
Class LibValues `{LibTypes} := lib_value :: forall t, GoVal repr (lib t) (lib_val t).

(** A struct is read part by part, and each part can be read in a larger heap. *)
Lemma part_mono {A B} (o o' : option A) (f f' : A -> option B) v :
  (forall a, o = Some a -> o' = Some a) -> (forall a, f a = Some v -> f' a = Some v) ->
  o ≫= f = Some v -> o' ≫= f' = Some v.
Proof. intros Ho Hf (a & Ha & Hv)%bind_Some. rewrite (Ho _ Ha). by apply Hf. Qed.

Ltac larger :=
  lazymatch goal with
  | |- ptr_value _ _ _ = _ -> _ => by apply ptr_mono
  | |- slice_value _ _ _ = _ -> _ => by apply slice_mono
  | |- value _ _ = _ -> _ => by apply value_mono
  end.
Ltac mono :=
  intros h h' r v Hs; cbn [value]; repeat (apply part_mono; intros ?; [larger|]); done.

Section Values.
Context `{LT : LibTypes} {LV : LibValues}.

#[export, refine] Instance plain_string : GoVal repr (repr TString) string :=
  {| value _ s := Some s |}.
Proof. done. Defined.
#[export, refine] Instance plain_int64 : GoVal repr (repr TInt64) Z := {| value _ n := Some n |}.
Proof. done. Defined.
#[export, refine] Instance plain_map : GoVal repr (repr TStringMap) strmap := {| value _ m := Some m |}.
Proof. done. Defined.
#[export, refine] Instance plain_ConfigMapRef : GoVal repr (repr TConfigMapRef) ConfigMapRef :=
  {| value _ r := Some r |}.
Proof. done. Defined.
#[export] Instance lib_cell t : GoVal repr (repr (TLib t)) (lib_val t) := lib_value t.

#[export, refine] Instance MapSpec_value : GoVal repr (repr TMapSpec) MapSpec :=
  {| value h r :=
       mods ← slice_value TInt64 h (MapSpec_Mods r);
       gus ← ptr_value TConfigMapRef h (MapSpec_GameUserSettings r);
       game ← ptr_value TConfigMapRef h (MapSpec_Game r);
       Some (MkMapSpec (MapSpec_ID r) mods gus game) |}.
Proof. mono. Defined.

#[export, refine] Instance GlobalSettings_value : GoVal repr (repr TGlobalSettings) GlobalSettings :=
  {| value h r :=
       server ← ptr_value (TLib TSecretKeySelector) h (Global_ServerPassword r);
       admin ← ptr_value (TLib TSecretKeySelector) h (Global_AdminPassword r);
       platforms ← slice_value TString h (Global_AllowedPlatforms r);
       mods ← slice_value TInt64 h (Global_Mods r);
       options ← slice_value TString h (Global_ExtraOptions r);
       params ← slice_value TString h (Global_ExtraParams r);
       gus ← ptr_value TConfigMapRef h (Global_GameUserSettings r);
       game ← ptr_value TConfigMapRef h (Global_Game r);
       Some (MkGlobalSettings (Global_SessionNameFormat r) server admin (Global_BattlEye r)
         platforms (Global_MaxPlayers r) mods options params gus game) |}.
Proof using Type LV. mono. Defined.

#[export, refine] Instance StorageSpec_value : GoVal repr (repr TStorageSpec) StorageSpec :=
  {| value _ r := Some r |}.
Proof. done. Defined.
#[export, refine] Instance UpdateStrategy_value : GoVal repr (repr TUpdateStrategy) UpdateStrategy :=
  {| value _ r := Some r |}.
Proof. done. Defined.

#[export, refine] Instance ServiceSpec_value : GoVal repr (repr TServiceSpec) ServiceSpec :=
  {| value h r :=
       ips ← slice_value TString h (Service_LoadBalancerIPs r);
       Some (MkServiceSpec (Service_Type r) (Service_GamePortStart r) (Service_RconPortStart r)
         ips (Service_ExternalTrafficPolicy r)) |}.
Proof. mono. Defined.

#[export, refine] Instance ModAutoUpdateSpec_value :
    GoVal repr (repr TModAutoUpdateSpec) ModAutoUpdateSpec :=
  {| value h r :=
       key ← value h (ModAuto_CurseForgeAPIKeyRef r);
       Some (MkModAutoUpdateSpec (ModAuto_Enabled r) (ModAuto_IntervalMinutes r) key) |}.
Proof using Type LV. mono. Defined.

#[export, refine] Instance ArkClusterSpec_value : GoVal repr (repr TArkClusterSpec) ArkClusterSpec :=
  {| value h r :=
       maps ← slice_value TMapSpec h (Spec_Maps r);
       global ← value (R := repr TGlobalSettings) h (Spec_GlobalSettings r);
       service ← value (R := repr TServiceSpec) h (Spec_Service r);
       resources ← value h (Spec_Resources r);
       auto ← ptr_value TModAutoUpdateSpec h (Spec_ModAutoUpdate r);
       selector ← ptr_value TStringMap h (Spec_NodeSelector r);
       tolerations ← slice_value (TLib TToleration) h (Spec_Tolerations r);
       security ← ptr_value (TLib TPodSecurityContext) h (Spec_PodSecurityContext r);
       Some (MkArkClusterSpec (Spec_Image r) (Spec_ClusterID r) maps global (Spec_Storage r)
         service resources (Spec_UpdateStrategy r) auto (default ∅ selector) tolerations security) |}.
Proof using Type LV. mono. Defined.

#[export, refine] Instance MapStatus_value : GoVal repr (repr TMapStatus) MapStatus :=
  {| value h r :=
       save ← ptr_value (TLib TTime) h (MapStatus_LastSaveTime r);
       deadline ← ptr_value (TLib TTime) h (MapStatus_DrainDeadline r);
       conditions ← slice_value (TLib TCondition) h (MapStatus_Conditions r);
       Some (MkMapStatus (MapStatus_ID r) (MapStatus_Phase r) (MapStatus_ActiveVolume r)
         (MapStatus_ActiveBuildID r) (MapStatus_PendingBuildID r) (MapStatus_Address r)
         (MapStatus_RconAddress r) (MapStatus_SessionName r) save (MapStatus_Pod r)
         (MapStatus_LastGoodVolume r) deadline conditions) |}.
Proof using Type LV. mono. Defined.

#[export, refine] Instance TrackedMod_value : GoVal repr (repr TTrackedMod) TrackedMod :=
  {| value h r :=
       changed ← ptr_value (TLib TTime) h (Tracked_LastChanged r);
       maps ← slice_value TString h (Tracked_AffectedMaps r);
       Some (MkTrackedMod (Tracked_ID r) (Tracked_Slug r) (Tracked_InstalledVersion r)
         (Tracked_InstalledFileID r) (Tracked_LatestVersion r) (Tracked_LatestFileID r)
         changed maps) |}.
Proof using Type LV. mono. Defined.

#[export, refine] Instance ModStatus_value : GoVal repr (repr TModStatus) ModStatus :=
  {| value h r :=
       last ← ptr_value (TLib TTime) h (ModStatus_LastCheckTime r);
       next ← ptr_value (TLib TTime) h (ModStatus_NextCheckTime r);
       tracked ← slice_value TTrackedMod h (ModStatus_Tracked r);
       Some (MkModStatus last next (ModStatus_LastError r) tracked) |}.
Proof using Type LV. mono. Defined.

#[export, refine] Instance ArkClusterStatus_value :
    GoVal repr (repr TArkClusterStatus) ArkClusterStatus :=
  {| value h r :=
       conditions ← slice_value (TLib TCondition) h (Status_Conditions r);
       maps ← slice_value TMapStatus h (Status_Maps r);
       mods ← ptr_value TModStatus h (Status_Mods r);
       Some (MkArkClusterStatus (Status_Phase r) conditions maps mods (Status_TotalMaps r)
         (Status_ReadyMaps r) (Status_ObservedGeneration r)) |}.
Proof using Type LV. mono. Defined.

(** An object with its kind. *)
#[export, refine] Instance ArkCluster_value : GoVal repr (repr TArkCluster) (TypeMeta * ArkCluster) :=
  {| value h r :=
       meta ← value h (Cluster_ObjectMeta r);
       spec ← value (R := repr TArkClusterSpec) h (Cluster_Spec r);
       status ← value (R := repr TArkClusterStatus) h (Cluster_Status r);
       Some (Cluster_TypeMeta r, MkArkCluster meta spec status) |}.
Proof using Type LV. mono. Defined.

#[export, refine] Instance ArkClusterList_value :
    GoVal repr (repr TArkClusterList) (TypeMeta * ListMeta * list (TypeMeta * ArkCluster)) :=
  {| value h r :=
       meta ← value h (List_ListMeta r);
       items ← slice_value TArkCluster h (List_Items r);
       Some (List_TypeMeta r, meta, items) |}.
Proof using Type LV. mono. Defined.
End Values.

(** ** Every copy is deep *)

(** What the libraries document of their copies, and the language of its maps. *)
Class LibraryLaws `{Library} `{!LibValues} := {
  lib_deep t : deep (lib_DeepCopyInto t);
  Time_deep h g l v :
    h ##ₘ g -> ptr_value (TLib TTime) h (Some l) = Some v ->
    copies h g (Time_DeepCopy l) (fun g' p => ptr_value (TLib TTime) g' p = Some v);
  range_perm m : range m ≡ₚ map_to_list m }.

Section Deep.
Context `{LibraryLaws}.
Set Default Proof Using "All".

Lemma time_copy_deep h g p v :
  h ##ₘ g -> ptr_value (TLib TTime) h p = Some v ->
  copies h g (time_copy p) (fun g' p => ptr_value (TLib TTime) g' p = Some v).
Proof. intros Hd Hv. destruct p as [l|]; [by apply Time_deep|by apply copies_ret]. Qed.

Lemma put_all_sound h o m kvs :
  put_all o kvs (<[o := Cell (repr := repr) TStringMap [m]]> h)
  = Some (tt, <[o := Cell (repr := repr) TStringMap [foldl (fun m kv => <[kv.1 := kv.2]> m) m kvs]]> h).
Proof.
  revert m. induction kvs as [|[k v] kvs IH]; intros m; [done|]. cbn [put_all foldl].
  unfold h_bind, read, write. rewrite cell_at. cbn.
  rewrite lookup_insert, decide_True by done. by rewrite insert_insert, decide_True, IH by done.
Qed.

Lemma foldl_put (m : strmap) kvs : NoDup kvs.*1 ->
  foldl (fun m kv => <[kv.1 := kv.2]> m) m kvs = list_to_map kvs ∪ m.
Proof.
  revert m. induction kvs as [|[k v] kvs IH]; intros m Hnd; cbn [foldl fmap list_fmap] in *.
  { symmetry. apply (left_id_L ∅ (∪)). }
  apply NoDup_cons in Hnd as [Hk Hnd]. rewrite IH by done. cbn.
  rewrite <- insert_union_l. symmetry. apply insert_union_r. by apply not_elem_of_list_to_map_1.
Qed.

(** Whatever order the loop takes, the copy is the map. *)
Lemma range_all (m : strmap) : foldl (fun m kv => <[kv.1 := kv.2]> m) ∅ (range m) = m.
Proof.
  pose proof (range_perm m) as Hp.
  assert (Hnd : NoDup (range m).*1) by (rewrite Hp; apply NoDup_fst_map_to_list).
  rewrite foldl_put, map_union_empty by done.
  by rewrite (list_to_map_proper _ _ Hnd Hp), list_to_map_to_list.
Qed.

Lemma map_copy_deep h g p v :
  h ##ₘ g -> ptr_value TStringMap h p = Some v ->
  copies h g (map_copy p) (fun g' p => ptr_value TStringMap g' p = Some v).
Proof.
  intros Hd Hv. destruct p as [i|]; [|by apply copies_ret].
  cbn [ptr_value] in Hv. destruct (h !! i ≫= array_of TStringMap) as [[|m [|??]]|] eqn:Hi; try done.
  injection Hv as <-. apply copies_new; [done|]. intros l [Hlh Hlg]%lookup_union_None.
  exists (Some l), g, [m]. assert (Hs : h ⊆ <[l := Cell (repr := repr) TStringMap [∅ : strmap]]> h)
    by by apply insert_subseteq.
  unfold h_bind at 1. rewrite (read_union _ _ _ _ _ (array_mono _ _ _ _ _ Hs Hi)).
  unfold h_bind, or_panic, h_ret. cbn [head].
  rewrite <- insert_union_l, put_all_sound, range_all, insert_union_l.
  split_and!; [done..|by apply map_disjoint_insert_l|].
  unfold ptr_value. by rewrite cell_at.
Qed.

Lemma new_copy_deep {V} t `{!GoVal repr (repr t) V} copy h g p v :
  deep copy -> h ##ₘ g -> ptr_value t h p = Some v ->
  copies h g (new_copy t copy p) (fun g' p => ptr_value t g' p = Some v).
Proof. intros. by apply copy_ptr_deep. Qed.
Lemma make_copy_deep {V} t `{!GoVal repr (repr t) V} copy h g s v :
  deep copy -> h ##ₘ g -> slice_value t h s = Some v ->
  copies h g (make_copy t copy s) (fun g' s => slice_value t g' s = Some v).
Proof. intros. by apply copy_slice_deep. Qed.
Lemma strings_copy_deep h g s v :
  h ##ₘ g -> slice_value TString h s = Some v ->
  copies h g (plain_copy TString s) (fun g' s => slice_value TString g' s = Some v).
Proof. intros. by apply copy_plain_deep. Qed.
Lemma ints_copy_deep h g s v :
  h ##ₘ g -> slice_value TInt64 h s = Some v ->
  copies h g (plain_copy TInt64 s) (fun g' s => slice_value TInt64 g' s = Some v).
Proof. intros. by apply copy_plain_deep. Qed.
Lemma assign_deep : deep (R := repr TConfigMapRef) assign.
Proof. intros h g r v Hd Hv. by apply copies_ret. Qed.
Lemma into_deep {R V} `{!GoVal repr R V} (copy : R -> go R) h g r v :
  deep copy -> h ##ₘ g -> value h r = Some v -> copies h g (copy r) (fun g' r => value g' r = Some v).
Proof. intros Hc. apply Hc. Qed.

Create HintDb deep.
#[local] Hint Resolve time_copy_deep map_copy_deep new_copy_deep make_copy_deep strings_copy_deep
  ints_copy_deep into_deep assign_deep lib_deep : deep.

(** A struct: each part's copy stays readable while the later ones are made. *)
Ltac lift Hg :=
  let lift_with F := (lazymatch type of Hg with ?g ⊆ _ =>
    repeat match goal with
    | H : ptr_value _ g _ = Some _ |- _ => apply (ptr_mono _ _ _ _ _ Hg) in H
    | H : slice_value _ g _ = Some _ |- _ => apply (slice_mono _ _ _ _ _ Hg) in H
    | H : value g _ = Some _ |- _ => apply (value_mono _ _ _ _ Hg) in H
    end end) in lift_with tt.
Ltac deep_copy :=
  intros h g r v Hd Hv; cbn [value] in Hv;
  repeat (apply bind_Some in Hv as (? & ? & Hv)); injection Hv as <-;
  repeat (eapply copies_bind; [eauto with deep|]; cbn beta;
          intros ? ? Hg ? ?; lift Hg; clear Hg);
  apply copies_ret; [done|]; cbn [value];
  repeat (apply bind_Some; eexists; split; [eassumption|]); done.

Lemma MapSpec_deep : deep (R := repr TMapSpec) MapSpec_DeepCopyInto.
Proof. deep_copy. Qed.
#[local] Hint Resolve MapSpec_deep : deep.
Lemma GlobalSettings_deep : deep (R := repr TGlobalSettings) GlobalSettings_DeepCopyInto.
Proof. deep_copy. Qed.
#[local] Hint Resolve GlobalSettings_deep : deep.
Lemma ServiceSpec_deep : deep (R := repr TServiceSpec) ServiceSpec_DeepCopyInto.
Proof. deep_copy. Qed.
#[local] Hint Resolve ServiceSpec_deep : deep.
Lemma ModAutoUpdateSpec_deep : deep (R := repr TModAutoUpdateSpec) ModAutoUpdateSpec_DeepCopyInto.
Proof. deep_copy. Qed.
#[local] Hint Resolve ModAutoUpdateSpec_deep : deep.
Lemma ArkClusterSpec_deep : deep (R := repr TArkClusterSpec) ArkClusterSpec_DeepCopyInto.
Proof. deep_copy. Qed.
#[local] Hint Resolve ArkClusterSpec_deep : deep.
Lemma MapStatus_deep : deep (R := repr TMapStatus) MapStatus_DeepCopyInto.
Proof. deep_copy. Qed.
#[local] Hint Resolve MapStatus_deep : deep.
Lemma TrackedMod_deep : deep (R := repr TTrackedMod) TrackedMod_DeepCopyInto.
Proof. deep_copy. Qed.
#[local] Hint Resolve TrackedMod_deep : deep.
Lemma ModStatus_deep : deep (R := repr TModStatus) ModStatus_DeepCopyInto.
Proof. deep_copy. Qed.
#[local] Hint Resolve ModStatus_deep : deep.
Lemma ArkClusterStatus_deep : deep (R := repr TArkClusterStatus) ArkClusterStatus_DeepCopyInto.
Proof. deep_copy. Qed.
#[local] Hint Resolve ArkClusterStatus_deep : deep.
Lemma ArkCluster_deep : deep (R := repr TArkCluster) ArkCluster_DeepCopyInto.
Proof. deep_copy. Qed.
#[local] Hint Resolve ArkCluster_deep : deep.
Lemma ArkClusterList_deep : deep (R := repr TArkClusterList) ArkClusterList_DeepCopyInto.
Proof. deep_copy. Qed.

(** ** The copies of objects *)

(** Two pointers to the same value, in cells apart: each keeps its value whatever is written to the
    cells of the other, and is nil when the other is. *)
Definition apart {V} (t : GoType) `{!GoVal repr (repr t) V} (h g : heap) (p p' : option loc)
    (v : option V) : Prop :=
  h ##ₘ g /\ (p' = None <-> p = None) /\
  (forall h', g ⊆ h' -> ptr_value t h' p' = Some v) /\
  (forall h', h ⊆ h' -> ptr_value t h' p = Some v).

Lemma new_copy_apart {V} t `{!GoVal repr (repr t) V} copy h p v :
  deep copy -> ptr_value t h p = Some v ->
  exists p' g, new_copy t copy p h = Some (p', h ∪ g) /\ apart t h g p p' v.
Proof.
  intros Hc Hv.
  destruct (new_copy_deep t copy h ∅ p v Hc (map_disjoint_empty_r _) Hv) as (p' & g & Hr & _ & Hd & Hv').
  exists p', g. rewrite map_union_empty in Hr. split; [done|]. split_and!; [done| | |].
  - assert (Hn : forall h0 q, ptr_value t h0 q = Some v -> q = None <-> v = None).
    { intros h0 [l|] Hq; [|cbn in Hq; naive_solver]. cbn in Hq.
      destruct (h0 !! l ≫= array_of t) as [[|x [|??]]|]; try done.
      destruct (value h0 x); [|done]. injection Hq as <-. done. }
    by rewrite (Hn _ _ Hv), (Hn _ _ Hv').
  - intros h' Hs. by eapply ptr_mono.
  - intros h' Hs. by eapply ptr_mono.
Qed.

(** C26: [DeepCopy] of a cluster that can be read returns, without panic and without a write to any
    cell there was, a pointer to a cluster with the same value, in cells of its own: whatever is
    then written to the cells of the original (an annotation, the entry of a map, a slice of
    mods), the copy keeps its value, and the other way round.  So the base of a merge patch, taken
    by [DeepCopy], still is the object before the change.  The copy of nil is nil. *)
Theorem DeepCopy_separate h p v :
  ptr_value TArkCluster h p = Some v ->
  exists p' g, ArkCluster_DeepCopy p h = Some (p', h ∪ g) /\ apart TArkCluster h g p p' v.
Proof. intros Hv. apply new_copy_apart; [apply ArkCluster_deep|done]. Qed.

(** [DeepCopyObject] of a list of clusters returns the interface of a list with the same value in
    cells of its own, and of nil the nil interface: never an interface that holds a nil pointer,
    which a comparison with nil would miss. *)
Theorem DeepCopyObject_spec h p v :
  ptr_value TArkClusterList h p = Some v ->
  exists o g, ArkClusterList_DeepCopyObject p h = Some (o, h ∪ g) /\
    match p with
    | None => o = None
    | Some _ => exists l, o = Some (OArkClusterList (Some l)) /\
                          apart TArkClusterList h g p (Some l) v
    end.
Proof.
  intros Hv.
  destruct (new_copy_apart TArkClusterList ArkClusterList_DeepCopyInto h p v) as (p' & g & Hr & Ha);
    [apply ArkClusterList_deep|done|].
  unfold ArkClusterList_DeepCopyObject, ArkClusterList_DeepCopy, h_bind, h_ret. rewrite Hr.
  eexists _, g. split; [done|]. destruct Ha as (Hd & Hn & Ha). destruct p as [l0|], p' as [l|].
  - exists l. rewrite decide_True by done. done.
  - destruct Hn as [Hn _]. by discriminate Hn.
  - destruct Hn as [_ Hn]. by discriminate Hn.
  - by rewrite decide_False by tauto.
Qed.
End Deep.

(** ** A library whose values hold no pointers, and a cluster in memory *)

#[local] Instance flat_types : LibTypes := {|
  lib := lib_val;
  lib_zero t := match t with
    | TObjectMeta => new_meta "" "" ∅
    | TListMeta => MkListMeta "" ""
    | TCondition => MkCondition "" "" "" "" None
    | TSecretKeySelector => MkSecretKeySelector "" ""
    | TResourceRequirements => MkResourceRequirements ∅ ∅
    | TToleration => MkToleration "" "" "" ""
    | TPodSecurityContext => MkPodSecurityContext None None None
    | TTime => 0
    end;
  inner := Empty_set;
  inner_repr := Empty_set_rect (fun _ => Type);
  inner_zero t := match t with end |}.
#[local, refine] Instance flat_values : LibValues := fun t => {| value _ x := Some x |}.
Proof. done. Defined.
#[local] Instance flat_library : Library := {|
  lib_DeepCopyInto t x := h_ret x;
  Time_DeepCopy l := copy_ptr (TLib TTime) (lib_zero TTime) h_ret (Some l);
  range := map_to_list |}.
#[local, refine] Instance flat_laws : LibraryLaws := {| range_perm m := reflexivity _ |}.
Proof.
  - intros t h g r v Hd Hv. by apply copies_ret.
  - intros h g l v Hd Hv. apply copy_ptr_deep; [|done|done].
    intros h0 g0 r v0 Hd0 Hv0. by apply copies_ret.
Defined.

(** The cluster of the examples, one map with two mods, scheduled by a node selector. *)
Definition demo_memory : heap :=
  <[0%nat := Cell (repr := repr) TArkCluster
     [MkArkClusterMem (MkTypeMeta "ArkCluster" "v1alpha1") (new_meta "c" "ns" {["a" := "b"]})
        (zero_ArkClusterSpec <| Spec_Maps := Some (MkSlice 1 0 1) |> <| Spec_NodeSelector := Some 3%nat |>)
        (zero_ArkClusterStatus <| Status_Maps := Some (MkSlice 4 1 1) |>)]]>
  (<[1%nat := Cell (repr := repr) TMapSpec [MkMapSpecMem "TheIsland_WP" (Some (MkSlice 2 0 2)) None None]]>
  (<[2%nat := Cell (repr := repr) TInt64 [928988; 929420; 0]]>
  (<[3%nat := Cell (repr := repr) TStringMap [{["disk" := "ssd"; "zone" := "eu"]} : strmap]]>
  (<[4%nat := Cell (repr := repr) TMapStatus
      [zero_MapStatus; zero_MapStatus <| MapStatus_DrainDeadline := Some 5%nat |>]]>
  (<[5%nat := Cell (repr := repr) (TLib TTime) [1800%Z : lib TTime]]> ∅))))).

Lemma DeepCopy_separate_witness : exists v p' g,
  ptr_value TArkCluster demo_memory (Some 0%nat) = Some v /\
  ArkCluster_DeepCopy (Some 0%nat) demo_memory = Some (p', demo_memory ∪ g) /\
  apart TArkCluster demo_memory g (Some 0%nat) p' v.
Proof.
  destruct (ptr_value TArkCluster demo_memory (Some 0%nat)) as [v|] eqn:Hv.
  - destruct (DeepCopy_separate demo_memory (Some 0%nat) v Hv) as (p' & g & H). by exists v, p', g.
  - exfalso. vm_compute in Hv. discriminate Hv.
Defined.

Definition demo_list_memory : heap :=
  <[6%nat := Cell (repr := repr) TArkClusterList
     [MkArkClusterListMem (MkTypeMeta "ArkClusterList" "v1alpha1") (MkListMeta "1" "") (Some (MkSlice 0 0 1))]]>
  demo_memory.

Lemma DeepCopyObject_spec_witness : exists v o g,
  ptr_value TArkClusterList demo_list_memory (Some 6%nat) = Some v /\
  ArkClusterList_DeepCopyObject (Some 6%nat) demo_list_memory = Some (o, demo_list_memory ∪ g) /\
  exists l, o = Some (OArkClusterList (Some l)) /\
    apart TArkClusterList demo_list_memory g (Some 6%nat) (Some l) v.
Proof.
  destruct (ptr_value TArkClusterList demo_list_memory (Some 6%nat)) as [v|] eqn:Hv.
  - destruct (DeepCopyObject_spec demo_list_memory (Some 6%nat) v Hv) as (o & g & H). by exists v, o, g.
  - exfalso. vm_compute in Hv. discriminate Hv.
Defined.
