(* ===== verification/Kube.v ===== *)
(** * The world the operator talks to

    The Kubernetes objects it builds, the calls it makes on the controller-runtime client, the
    network, the clock, the random generator and the CurseForge API, and the library functions
    it relies on.  None of it is code of the repository: the calls get whatever answer the
    environment chooses, and the pure library functions are the class [K8sLib]. *)

From S2P Require Import Prelude Effects ApiTypes.

Local Open Scope prog_scope.

(** ** Objects *)

Inductive IntOrString := FromInt32 (z : Z) | FromString (s : string).
Inductive Protocol := ProtocolUDP | ProtocolTCP.

Record EnvVar := MkEnvVar {
  env_Name : string; env_Value : string; env_SecretKeyRef : option SecretKeySelector }.
Record ContainerPort := MkContainerPort {
  port_Name : string; port_ContainerPort : Z; port_Protocol : Protocol }.
Inductive ProbeHandler := TCPSocket (port : IntOrString) | ExecAction (command : list string).
Record Probe := MkProbe {
  probe_Handler : ProbeHandler;
  InitialDelaySeconds : Z; PeriodSeconds : Z; TimeoutSeconds : Z; FailureThreshold : Z }.
Record VolumeMount := MkVolumeMount {
  mount_Name : string; MountPath : string; SubPath : string; ReadOnly : bool }.
Inductive VolumeSource := PVCSource (claim : string) | ConfigMapSource (name : string).
Record Volume := MkVolume { vol_Name : string; vol_Source : VolumeSource }.
Inductive RestartPolicy := RestartPolicyAlways | RestartPolicyOnFailure.

Record Container := MkContainer {
  ctr_Name : string;
  ctr_Image : string;
  ImagePullPolicy : string;
  Command : list string;
  Args : list string;
  Env : list EnvVar;
  ctr_Ports : list ContainerPort;
  ctr_Resources : ResourceRequirements;
  StartupProbe : option Probe;
  ReadinessProbe : option Probe;
  LivenessProbe : option Probe;
  PreStop : option (list string);
  VolumeMounts : list VolumeMount }.

Record PodSpec := MkPodSpec {
  pod_RestartPolicy : RestartPolicy;
  TerminationGracePeriodSeconds : option Z;
  pod_SecurityContext : option PodSecurityContext;
  pod_NodeSelector : strmap;
  pod_Tolerations : list Toleration;
  Containers : list Container;
  Volumes : list Volume }.

Record Terminated := MkTerminated { ExitCode : Z; FinishedAt : Z }.
Record ContainerStatus := MkContainerStatus {
  RestartCount : Z; LastTermination : option Terminated }.
Record PodCondition := MkPodCondition { pc_Type : string; pc_Status : string }.
Record PodStatus := MkPodStatus {
  pod_Conditions : list PodCondition; ContainerStatuses : list ContainerStatus }.

Record Pod := MkPod { pod_meta : ObjectMeta; pod_Spec : PodSpec; pod_Status : PodStatus }.

Record JobCondition := MkJobCondition { jc_Type : string; jc_Status : string }.
Record Job := MkJob {
  job_meta : ObjectMeta;
  BackoffLimit : Z;
  TTLSecondsAfterFinished : Z;
  job_Template : PodSpec;
  job_Conditions : list JobCondition }.

Record ServicePort := MkServicePort {
  sp_Name : string; sp_Port : Z; sp_TargetPort : IntOrString; sp_Protocol : Protocol }.
Record KService := MkKService {
  service_meta : ObjectMeta;
  ks_Type : ServiceType;
  ks_Selector : strmap;
  ks_Ports : list ServicePort;
  ks_TrafficPolicy : TrafficPolicy;
  ks_LoadBalancerIP : string;
  ks_Ingress : list string }.
#[export] Instance eta_KService : Settable KService := fun r =>
  MkKService (service_meta r) (ks_Type r) (ks_Selector r) (ks_Ports r) (ks_TrafficPolicy r)
    (ks_LoadBalancerIP r) (ks_Ingress r).

Inductive AccessMode := ReadWriteOnce | ReadWriteMany.
Record PVC := MkPVC {
  pvc_meta : ObjectMeta;
  AccessModes : list AccessMode;
  pvc_Storage : option string;
  StorageClassName : option string }.
#[export] Instance eta_PVC : Settable PVC := fun r =>
  MkPVC (pvc_meta r) (AccessModes r) (pvc_Storage r) (StorageClassName r).

Record ConfigMap := MkConfigMap { cm_meta : ObjectMeta; cm_Data : strmap }.
#[export] Instance eta_ConfigMap : Settable ConfigMap := fun r =>
  MkConfigMap (cm_meta r) (cm_Data r).

Record Secret := MkSecret { secret_meta : ObjectMeta; secret_Data : strmap; secret_Type : string }.
#[export] Instance eta_Secret : Settable Secret := fun r =>
  MkSecret (secret_meta r) (secret_Data r) (secret_Type r).

Inductive kind := KindCluster | KindPod | KindService | KindPVC | KindConfigMap | KindSecret
  | KindJob.
#[export] Instance kind_eq_dec : EqDecision kind.
Proof. solve_decision. Defined.

Definition obj (k : kind) : Type :=
  match k with
  | KindCluster => ArkCluster
  | KindPod => Pod
  | KindService => KService
  | KindPVC => PVC
  | KindConfigMap => ConfigMap
  | KindSecret => Secret
  | KindJob => Job
  end.

Definition obj_meta {k : kind} : obj k -> ObjectMeta :=
  match k with
  | KindCluster => cluster_meta
  | KindPod => pod_meta
  | KindService => service_meta
  | KindPVC => pvc_meta
  | KindConfigMap => cm_meta
  | KindSecret => secret_meta
  | KindJob => job_meta
  end.

(** The answer of the CurseForge API as the client's struct, once decoded. *)
Record FileEntry := MkFileEntry { fe_ID : Z; DisplayName : string; IsLatest : bool }.
Record DataEntry := MkDataEntry { de_ID : Z; de_Slug : string; de_Files : list FileEntry }.

(** What becomes of an HTTP request: it cannot be built, and nothing is sent; it is sent and the
    transport fails; or it is answered, with a status and what the JSON decoder makes of the
    body. *)
Inductive http_answer :=
  | RequestError (e : error)
  | TransportError (e : error)
  | Answered (status : Z) (decoded : res (list DataEntry)).

(** ** Calls

    [controllerutil.CreateOrUpdate(ctx, c, obj, f)] hands [f] the stored object, or [obj] when
    there is none, and then creates or updates it with what [f] made of it: it is the two
    calls [CouBegin], which answers with the object [f] gets, and [CouEnd], which is not
    reached when [f] fails. *)

Inductive call :=
  | Get (k : kind) (ns name : string)
  | List (k : kind) (ns : string) (sel : strmap)
  | Create (k : kind) (o : obj k)
  | Delete (k : kind) (o : obj k) (grace : option Z)
  | Update (c : ArkCluster)
  | StatusUpdate (c : ArkCluster)
  | Patch (base modified : ArkCluster)
  | CouBegin (k : kind) (o : obj k)
  | CouEnd (k : kind) (o : obj k)
  | Eventf (etype ereason msg : string)
  | Now
  | RandRead (n : nat)
  | NetDial (deadline : option Z) (timeout : Z) (addr : string)
  | NetSetDeadline (conn : nat) (deadline : option Z)
  | NetWrite (conn : nat) (data : string)
  | NetReadFull (conn : nat) (n : nat)
  | NetClose (conn : nat)
  | HttpPost (url : string) (headers : list (string * string)) (body : string).

(** A status update answers with the new resource version: the server takes it only against
    the version that was read, so the rest of its answer is the object that was sent, as it is
    stored ([wire] below). *)
Definition resp (c : call) : Type :=
  match c with
  | Get k _ _ => res (obj k)
  | List k _ _ => res (list (obj k))
  | Create _ _ | Delete _ _ _ | Update _ | Patch _ _ | CouEnd _ _ => res unit
  | StatusUpdate _ => res string
  | CouBegin k _ => res (obj k)
  | Eventf _ _ _ | NetSetDeadline _ _ | NetClose _ => unit
  | Now => Z
  | RandRead _ => res (list Z)
  | NetDial _ _ _ => res nat
  | NetWrite _ _ => res unit
  | NetReadFull _ _ => string * option error
  | HttpPost _ _ _ => http_answer
  end.

Abbreviation kprog := (prog resp).
Abbreviation kM := (M resp).
Abbreviation kevent := (event resp).
Abbreviation kcall c := (@do_call call resp c).

(** The object of a call is determined by the call. *)
Lemma kind_pair_inj {F : kind -> Type} k (x y : F k) : existT k x = existT k y -> x = y.
Proof. apply Eqdep_dec.inj_pair2_eq_dec. apply kind_eq_dec. Qed.

Lemma CouEnd_inj k x y r r' : Ev (CouEnd k x) r = Ev (resp := resp) (CouEnd k y) r' -> x = y.
Proof. intros H%(f_equal ev_call). injection H as H. by apply kind_pair_inj in H. Qed.

Lemma Create_inj k x y : Create k x = Create k y -> x = y.
Proof. intros H. injection H as H. by apply kind_pair_inj in H. Qed.

Lemma Delete_inj k x y g g' : Delete k x g = Delete k y g' -> x = y /\ g = g'.
Proof. intros H. injection H as H ->. by apply kind_pair_inj in H. Qed.

(** Calls on the network connection and the clock only. *)
Definition is_net (c : call) : Prop :=
  match c with
  | Now | NetDial _ _ _ | NetSetDeadline _ _ | NetWrite _ _ | NetReadFull _ _ | NetClose _ => True
  | _ => False
  end.

(** Calls that only observe the cluster, the clock or the random generator. *)
Definition is_read (c : call) : Prop :=
  match c with Get _ _ _ | List _ _ _ | Now | RandRead _ => True | _ => False end.

(** [controllerutil.CreateOrUpdate], whose operation result the operator drops. *)
Definition CreateOrUpdate (k : kind) (o : obj k) (f : obj k -> kprog (res (obj k))) : kprog (res unit) :=
  bind (kcall (CouBegin k o)) (fun got =>
    match got with
    | Err e => Ret (Err e)
    | Ok x => bind (f x) (fun r =>
        match r with
        | Err e => Ret (Err e)
        | Ok y => kcall (CouEnd k y)
        end)
    end).

(** Every execution of [CreateOrUpdate] stops at one of its three errors or stores what the
    callback made of the object it was handed. *)
Lemma CreateOrUpdate_exec k o f tr r :
  exec (CreateOrUpdate k o f) tr r ->
  (exists e, tr = [Ev (CouBegin k o) (Err e)] /\ r = Err e) \/
  (exists x tr' e, exec (f x) tr' (Err e) /\ tr = Ev (CouBegin k o) (Ok x) :: tr' /\ r = Err e) \/
  (exists x y tr', exec (f x) tr' (Ok y) /\
    tr = Ev (CouBegin k o) (Ok x) :: tr' ++ [Ev (CouEnd k y) r]).
Proof.
  unfold CreateOrUpdate. intros (tr1 & got & tr2 & -> & H1 & H)%exec_bind_inv.
  exec_inv. destruct got as [x|e].
  - apply exec_bind_inv in H as (tr3 & [y|e] & tr4 & -> & Hf & H); exec_inv.
    + right; right. by exists x, y, tr3.
    + right; left. exists x, tr3, e. by rewrite app_nil_r.
  - exec_inv. left. by exists e.
Qed.

(** ** Time and requests *)

(** Durations in nanoseconds. *)
Definition Second : Z := 10 ^ 9.
Definition Minute : Z := 60 * Second.
Definition Hour : Z := 60 * Minute.

Abbreviation context := (option Z).

(** [context.WithTimeout(ctx, d)]. *)
Definition WithTimeout (ctx : context) (d : Z) : kprog context :=
  let* now := kcall Now in
  Ret (Some (match ctx with Some t => Z.min t (now + d) | None => now + d end)).

(** [t.Sub(u)], which saturates. *)
Definition time_Sub (t u : Z) : Z := Z.max (- 2 ^ 63) (Z.min (2 ^ 63 - 1) (t - u)).

(** [ctrl.Result]. *)
Record Result := MkResult { Requeue : bool; RequeueAfter : Z }.
Definition no_result : Result := MkResult false 0.
Definition requeue_after (d : Z) : Result := MkResult false d.

(** ** The status in the API server

    A [metav1.Time] is written as RFC 3339, which keeps whole seconds: what is stored, and what the
    client reads back, is cut off below the second.  The times of the metadata are the server's. *)
Definition stored_time (t : Z) : Z := t / Second * Second.

Definition wire_condition (c : Condition) : Condition := c <| LastTransitionTime ::= fmap stored_time |>.
Definition wire_map (m : MapStatus) : MapStatus :=
  m <| LastSaveTime ::= fmap stored_time |> <| DrainDeadline ::= fmap stored_time |>
    <| ms_Conditions ::= fmap wire_condition |>.
Definition wire_tracked (t : TrackedMod) : TrackedMod := t <| LastChanged ::= fmap stored_time |>.
Definition wire_mods (m : ModStatus) : ModStatus :=
  m <| LastCheckTime ::= fmap stored_time |> <| NextCheckTime ::= fmap stored_time |>
    <| Tracked ::= fmap wire_tracked |>.
Definition wire : ArkCluster -> ArkCluster :=
  on_status (fun st => st <| cs_Conditions ::= fmap wire_condition |>
    <| MapStatuses ::= fmap wire_map |> <| ModsStatus ::= fmap wire_mods |>).

(** A status update decodes the server's answer into the cluster: the status as it is stored, and
    the new resource version.  An error leaves the cluster alone. *)
Definition with_version (u : res string) (cluster : ArkCluster) : ArkCluster :=
  match u with
  | Ok rv => wire cluster <| cluster_meta ::= fun m => m <| ResourceVersion := rv |> |>
  | Err _ => cluster
  end.

Lemma stored_time_le t : stored_time t <= t.
Proof. unfold stored_time, Second. pose proof (Z.mul_div_le t (10 ^ 9)). lia. Qed.

Lemma stored_time_gt t : t - Second < stored_time t.
Proof.
  unfold stored_time, Second. pose proof (Z.mod_pos_bound t (10 ^ 9)). pose proof (Z.div_mod t (10 ^ 9)). lia.
Qed.

Lemma stored_time_mono t u : t <= u -> stored_time t <= stored_time u.
Proof. intros H. unfold stored_time. apply Z.mul_le_mono_nonneg_r; [done|]. by apply Z.div_le_mono. Qed.

Lemma stored_time_idem t : stored_time (stored_time t) = stored_time t.
Proof. unfold stored_time. by rewrite Z.div_mul. Qed.

Lemma stored_time_whole k : stored_time (k * Second) = k * Second.
Proof. unfold stored_time. by rewrite Z.div_mul. Qed.

Lemma stored_times_idem (o : option Z) : stored_time <$> (stored_time <$> o) = stored_time <$> o.
Proof. destruct o as [t|]; cbn; by rewrite ?stored_time_idem. Qed.

Lemma wire_map_idem m : wire_map (wire_map m) = wire_map m.
Proof.
  unfold wire_map. cbn. rewrite !stored_times_idem, <- list_fmap_compose. f_equal.
  apply list_fmap_ext. intros _ c _. unfold wire_condition. cbn. by rewrite stored_times_idem.
Qed.

(** ** Library functions *)

Class K8sLib := {
  (** [controllerutil.SetControllerReference(owner, obj, scheme)]. *)
  SetControllerReference : ArkCluster -> ObjectMeta -> res ObjectMeta;
  ContainsFinalizer : list string -> string -> bool;
  AddFinalizer : list string -> string -> list string;
  RemoveFinalizer : list string -> string -> list string;
  (** [resource.ParseQuantity], answering with the canonical form. *)
  ParseQuantity : string -> res string }.

(** What the operator relies on. *)
Class K8sLaws (L : K8sLib) : Prop := {
  ContainsFinalizer_spec fs f : ContainsFinalizer fs f = true <-> f ∈ fs;
  AddFinalizer_spec fs f g : g ∈ AddFinalizer fs f <-> g = f \/ g ∈ fs;
  RemoveFinalizer_spec fs f g : g ∈ RemoveFinalizer fs f <-> g <> f /\ g ∈ fs;
  SetControllerReference_owner c m m' :
    SetControllerReference c m = Ok m' ->
    Name m' = Name m /\ Namespace m' = Namespace m /\ Labels m' = Labels m /\
    Annotations m' = Annotations m /\
    CreationTimestamp m' = CreationTimestamp m /\
    MkOwnerReference "ArkCluster" (cluster_name c) true ∈ OwnerReferences m';
  (** The reference is upserted: an object that carries it is left alone. *)
  SetControllerReference_again c m m' m2 :
    SetControllerReference c m = Ok m' ->
    Namespace m2 = Namespace m' -> OwnerReferences m2 = OwnerReferences m' ->
    SetControllerReference c m2 = Ok m2;
  (** It fails only for an object of another namespace, or one that has another controller. *)
  SetControllerReference_fresh c m :
    Namespace m = cluster_ns c -> OwnerReferences m = [] -> exists m', SetControllerReference c m = Ok m' }.

(** A library that satisfies them, for the witnesses. *)
Definition demo_lib : K8sLib := {|
  SetControllerReference c m :=
    let r := MkOwnerReference "ArkCluster" (cluster_name c) true in
    if bool_decide (r ∈ OwnerReferences m) then Ok m else Ok (m <| OwnerReferences ::= cons r |>);
  ContainsFinalizer fs f := bool_decide (f ∈ fs);
  AddFinalizer fs f := if bool_decide (f ∈ fs) then fs else fs ++ [f];
  RemoveFinalizer fs f := List.filter (fun g => negb (String.eqb f g)) fs;
  ParseQuantity s := if String.eqb s "" then Err (Errorf "quantity") else Ok s |}.

Lemma demo_laws : K8sLaws demo_lib.
Proof.
  constructor; cbn.
  - intros. apply bool_decide_eq_true.
  - intros. case_bool_decide; set_solver.
  - intros. rewrite filter_bool_in, negb_true_iff, String.eqb_neq. naive_solver.
  - intros c m m'. case_bool_decide; intros [= <-]; cbn; set_solver.
  - intros c m m' m2 H _ Ho. rewrite bool_decide_eq_true_2; [done|]. rewrite Ho. revert H.
    case_bool_decide; intros [= <-]; cbn; set_solver.
  - intros c m _ _. case_bool_decide; by eexists.
Qed.

(** Answers for the examples: nothing is found, every write succeeds. *)
Definition demo_answer (c : call) : resp c :=
  match c return resp c with
  | Get _ _ _ => Err (Error ReasonNotFound "not found")
  | List _ _ _ => Ok []
  | Create _ _ | Delete _ _ _ | Update _ | Patch _ _ | CouEnd _ _ | NetWrite _ _ => Ok tt
  | StatusUpdate _ => Ok "2"
  | CouBegin _ o => Ok o
  | Eventf _ _ _ | NetSetDeadline _ _ | NetClose _ => tt
  | Now => 0
  | RandRead n => Ok (repeat 255 n)
  | NetDial _ _ _ => Ok 0%nat
  | NetReadFull _ n => (String.string_of_list_ascii (repeat zero n), None)
  | HttpPost _ _ _ => Answered 200 (Ok [])
  end.

(** The stored object of kind [k] is [o]. *)
Definition with_stored (k : kind) (o : obj k) (ans : forall c, resp c) (c : call) : resp c :=
  match c as c return resp c -> resp c with
  | CouBegin k' _ => fun r =>
      match decide (k = k') with left e => Ok (eq_rect k obj o k' e) | right _ => r end
  | Get k' _ _ => fun r =>
      match decide (k = k') with left e => Ok (eq_rect k obj o k' e) | right _ => r end
  | List k' _ _ => fun r =>
      match decide (k = k') with left e => Ok [eq_rect k obj o k' e] | right _ => r end
  | _ => fun r => r
  end (ans c).
Definition demo_stored (k : kind) (o : obj k) : forall c, resp c := with_stored k o demo_answer.

(** A run against given answers. *)
Definition run_with {A} (ans : forall c, resp c) (p : kprog A) : list kevent * A :=
  let '(tr, a, _) := run (fun c (_ : unit) => (ans c, tt)) p tt in (tr, a).

Lemma run_with_exec {A} ans (p : kprog A) : exec p (run_with ans p).1 (run_with ans p).2.
Proof.
  unfold run_with. destruct (run _ p tt) as [[tr a] w] eqn:E. by apply run_exec in E.
Qed.
