(* ===== verification/Ark.v ===== *)
(** * internal/ark: ports, slugs, launch command and pod-template hash

    [ports.go], [slug.go], [launchcmd.go], [modset.go] and [hash.go]: the pure functions the
    controllers compose. *)

From S2P Require Import Prelude GoStd Digest ApiTypes.

(** ** ports.go *)

Definition GamePort (start index : Z) : Z := Int.int32 (start + Int.int32 index).
Definition RconPort (start index : Z) : Z := Int.int32 (start + Int.int32 index).

Definition PortConflict (gameStart rconStart mapCount : Z) : bool :=
  if mapCount <? 1 then false
  else
    let gameEnd := Int.int32 (Int.int32 (gameStart + Int.int32 mapCount) - 1) in
    let rconEnd := Int.int32 (Int.int32 (rconStart + Int.int32 mapCount) - 1) in
    (gameStart <=? rconEnd) && (rconStart <=? gameEnd).

(** ** slug.go *)

Definition alnum_dash (c : ascii) : bool :=
  is_digit c || ((97 <=? nat_of_ascii c)%nat && (nat_of_ascii c <=? 122)%nat) || Ascii.eqb c "-".

(** [nonAlphanumDashRun.ReplaceAllString(s, "-")]: every maximal run of bytes that are not
    [a-z0-9-] becomes one dash; [in_run] tells whether the run under way already did. *)
Fixpoint collapse_runs (in_run : bool) (s : string) : string :=
  match s with
  | "" => ""
  | String c s =>
      if alnum_dash c then String c (collapse_runs false s)
      else if in_run then collapse_runs true s
      else String "-" (collapse_runs true s)
  end.

Definition MapSlug (mapID : string) : string :=
  if String.eqb mapID "TheIsland_WP" then "island"
  else if String.eqb mapID "ScorchedEarth_WP" then "scorched-earth"
  else if String.eqb mapID "Aberration_WP" then "aberration"
  else if String.eqb mapID "Extinction_WP" then "extinction"
  else if String.eqb mapID "TheCenter_WP" then "the-center"
  else if String.eqb mapID "Astraeos_WP" then "astraeos"
  else if String.eqb mapID "BobsMissions_WP" then "club-ark"
  else
    let s := ToLower mapID in
    let s := TrimSuffix s "_wp" in
    let s := ReplaceAll s "_" "-" in
    let s := collapse_runs false s in
    Trim s "-".

(** ** modset.go *)

Definition ModSetHash (mods : list Z) : string :=
  let cp := sort_ints mods in
  let parts := map FormatInt cp in
  let sum := Sum256 (Join parts ",") in
  hex_encode (take 8 sum).

(** ** launchcmd.go *)

Definition SessionName (format cluster mapID friendlyMap : string) : string :=
  let friendlyMap := if String.eqb friendlyMap "" then mapID else friendlyMap in
  let out := ReplaceAll format "{cluster}" cluster in
  ReplaceAll out "{map}" friendlyMap.

Definition ComposeExtraParams (gs : GlobalSettings) : string :=
  match ExtraParams gs with
  | [] => ""
  | ps => "?" +:+ Join ps "?"
  end.

Definition ComposeExtraOptions (gs : GlobalSettings) : string :=
  match ExtraOptions gs with
  | [] => ""
  | os => Join (map (fun o => "-" +:+ o) os) " "
  end.

Record ExtraFlagsInput := MkExtraFlagsInput {
  ef_ClusterDir : string;
  ef_ClusterID : string;
  ef_Mods : list Z;
  ef_BattlEyeEnabled : bool;
  ef_AllowedPlatforms : list string;
  ef_ExtraOptions : string }.

Definition ExtraFlags (i : ExtraFlagsInput) : string :=
  let parts := ["-ClusterDirOverride=" +:+ ef_ClusterDir i; "-clusterid=" +:+ ef_ClusterID i] in
  let parts := match ef_Mods i with
               | [] => parts
               | ms => parts ++ ["-mods=" +:+ Join (map FormatInt ms) ","]
               end in
  let parts := match ef_AllowedPlatforms i with
               | [] => parts
               | ps => parts ++ ["-ServerPlatform=" +:+ Join ps "+"]
               end in
  let parts := if negb (String.eqb (ef_ExtraOptions i) "") then parts ++ [ef_ExtraOptions i]
               else parts in
  let parts := if negb (ef_BattlEyeEnabled i) then parts ++ ["-NoBattlEye"] else parts in
  Join (parts ++ ["-NoTransferFromFiltering"]) " ".

Definition ExtraSettings (gs : GlobalSettings) (rconPort : Z) : string :=
  let parts := ["?MaxPlayers=" +:+ FormatInt (MaxPlayers gs); "?RCONEnabled=True";
                "?RCONPort=" +:+ FormatInt rconPort] in
  Join (parts ++ [ComposeExtraParams gs]) "".

(** ** hash.go *)

Record PodTemplateHashInput := MkPodTemplateHashInput {
  h_Image : string;
  h_Mods : list Z;
  h_GamePort : Z;
  h_RconPort : Z;
  h_SecretsRev : string;
  h_IniRev : string;
  h_LaunchRev : string;
  h_ActiveVolume : string }.
#[export] Instance eta_PodTemplateHashInput : Settable PodTemplateHashInput := fun r =>
  MkPodTemplateHashInput (h_Image r) (h_Mods r) (h_GamePort r) (h_RconPort r) (h_SecretsRev r)
    (h_IniRev r) (h_LaunchRev r) (h_ActiveVolume r).

(** The string that [PodTemplateHash] digests, and its digest. *)
Definition hash_text (i : PodTemplateHashInput) : string :=
  h_Image i +:+ "|" +:+ ModSetHash (h_Mods i) +:+ "|" +:+ FormatInt (h_GamePort i) +:+ "|" +:+
  FormatInt (h_RconPort i) +:+ "|" +:+ h_SecretsRev i +:+ "|" +:+ h_IniRev i +:+ "|" +:+
  h_LaunchRev i +:+ "|" +:+ h_ActiveVolume i.
Definition PodTemplateHash (i : PodTemplateHashInput) : string :=
  hex_encode (take 8 (Sum256 (hash_text i))).

Example MapSlug_tests :
  map MapSlug ["TheIsland_WP"; "BobsMissions_WP"; "My_Custom_Map_WP"; "weirdMod_v2"; "_A%%b_"]
  = ["island"; "club-ark"; "my-custom-map"; "weirdmod-v2"; "a-b"].
Proof. reflexivity. Qed.

Example ExtraFlags_test :
  ExtraFlags (MkExtraFlagsInput "/srv/ark/cluster" "piwis-place" [927090; 1056780] false ["ALL"]
    "-ForceAllowCaveFlyers")
  = "-ClusterDirOverride=/srv/ark/cluster -clusterid=piwis-place -mods=927090,1056780 -ServerPlatform=ALL -ForceAllowCaveFlyers -NoBattlEye -NoTransferFromFiltering".
Proof. reflexivity. Qed.

Example SessionName_test :
  SessionName "{cluster} - {map}" "piwis-place" "TheIsland_WP" "The Island" = "piwis-place - The Island".
Proof. reflexivity. Qed.

Example ModSetHash_test : ModSetHash [927090; 1056780] = ModSetHash [1056780; 927090].
Proof. vm_compute. reflexivity. Qed.

(** ** Ports *)

Lemma port_at start i : 0 <= start -> 0 <= i -> start + i < 2 ^ 31 -> GamePort start i = start + i.
Proof. intros. unfold GamePort. by rewrite (Int.int32_id i), Int.int32_id by lia. Qed.

Lemma RconPort_GamePort : RconPort = GamePort.
Proof. done. Qed.

(** The ranges fit in a signed 32-bit integer. *)
Definition ports_fit (g r n : Z) : Prop := 0 <= g /\ 0 <= r /\ g + n < 2 ^ 31 /\ r + n < 2 ^ 31.

Lemma PortConflict_iff g r n : ports_fit g r n ->
  PortConflict g r n = true <->
  exists i j, 0 <= i < n /\ 0 <= j < n /\ GamePort g i = RconPort r j.
Proof.
  intros (Hg & Hr & Hgn & Hrn). unfold PortConflict.
  destruct (Z.ltb_spec n 1).
  - split; [done|]. intros (i & j & Hi & Hj & _). lia.
  - rewrite (Int.int32_id n), !(Int.int32_id (g + n)), !(Int.int32_id (r + n)),
      !Int.int32_id, andb_true_iff, !Z.leb_le by lia.
    rewrite RconPort_GamePort. split.
    + intros [H1 H2]. exists (Z.max g r - g), (Z.max g r - r).
      rewrite !port_at by lia. lia.
    + intros (i & j & Hi & Hj & H'). rewrite !port_at in H' by lia. lia.
Qed.

(** [PortConflict] is true exactly when two of the maps would use the same port, one for
    the game and one for RCON, as long as the port ranges fit in 32 bits. *)
Theorem PortConflict_spec g r n : ports_fit g r n ->
  PortConflict g r n = true <->
  exists i j, 0 <= i < n /\ 0 <= j < n /\ GamePort g i = RconPort r j.
Proof. apply PortConflict_iff. Qed.

Lemma PortConflict_spec_witness :
  ports_fit 7777 27020 19244 /\
  (PortConflict 7777 27020 19244 = true <->
   exists i j, 0 <= i < 19244 /\ 0 <= j < 19244 /\ GamePort 7777 i = RconPort 27020 j).
Proof. split; [unfold ports_fit; lia|]. apply PortConflict_spec. unfold ports_fit; lia. Defined.

(** ** Slugs *)

Lemma lower_byte_id c : alnum_dash c = true -> lower_byte c = c.
Proof. destruct c as [[] [] [] [] [] [] [] []]; vm_compute; congruence. Qed.

Lemma byte_is_high c l : alnum_dash c = true -> Forall (fun n => 128 <= n)%nat l -> byte_is c l = false.
Proof.
  intros Hc Hl. apply not_true_iff_false. intros (n & Hn & Heq)%existsb_exists.
  apply Nat.eqb_eq in Heq. rewrite <- Heq in Hn.
  pose proof (proj1 (List.Forall_forall _ _) Hl _ Hn) as Hge. cbn in Hge.
  destruct c as [[] [] [] [] [] [] [] []]; vm_compute in Hc; try discriminate;
    vm_compute in Hge; lia.
Qed.

Lemma ToLower_cons a s :
  byte_is a [196]%nat = false -> byte_is a [226]%nat = false ->
  ToLower (String a s) = String (lower_byte a) (ToLower s).
Proof. intros H1 H2. destruct s as [|b s]; [done|]. cbn [ToLower]. rewrite H1, H2. by destruct s. Qed.

Lemma ToLower_id s : str_all (fun c => alnum_dash c = true) s -> ToLower s = s.
Proof.
  induction s as [|a s IH]; intros H; [done|]. apply str_all_cons in H as [Ha Hs].
  rewrite ToLower_cons by (apply byte_is_high; [done|repeat constructor; lia]).
  by rewrite IH, lower_byte_id.
Qed.

Lemma collapse_runs_ok s r : str_all (fun c => alnum_dash c = true) (collapse_runs r s).
Proof.
  revert r. induction s as [|a s IH]; intros r; cbn; [constructor|].
  repeat case_match; rewrite ?str_all_cons; auto.
Qed.

Lemma collapse_runs_id s r : str_all (fun c => alnum_dash c = true) s -> collapse_runs r s = s.
Proof.
  revert r. induction s as [|a s IH]; intros r H; [done|].
  apply str_all_cons in H as [Ha Hs]. cbn. by rewrite Ha, IH.
Qed.

(** Lower-case letters, digits and dashes, no dash at either end. *)
Definition dns_label (s : string) : Prop :=
  str_all (fun c => alnum_dash c = true) s /\
  HasPrefix s "-" = false /\ HasSuffix s "-" = false.

Ltac canonical_map :=
  repeat match goal with
  | |- context [if String.eqb ?m ?x then _ else _] => destruct (String.eqb_spec m x)
  end.

Lemma MapSlug_label (mapID : string) : dns_label (MapSlug mapID).
Proof.
  unfold MapSlug. canonical_map;
    try (split; [repeat constructor|by split]; fail).
  unfold dns_label, Trim. split; [|split].
  - apply str_all_trim_right, str_all_trim_left, collapse_runs_ok.
  - apply trim_right_head, trim_left_head.
  - apply trim_right_last.
Qed.

(** C39: every slug is made of lower-case letters, digits and dashes and neither starts nor ends
    with a dash, whatever the map identifier. *)
Theorem MapSlug_dns (mapID : string) : dns_label (MapSlug mapID).
Proof. apply MapSlug_label. Qed.

Lemma str_all_excludes P s c : str_all P s -> ~ P c -> str_all (.≠ c) s.
Proof. intros H Hc. eapply Forall_impl; [exact H|]. cbn. by intros ? ? ->. Qed.

Lemma MapSlug_of_label s : dns_label s -> MapSlug s = s.
Proof.
  intros (Hall & Hpre & Hsuf). unfold MapSlug. canonical_map; subst;
    try (exfalso; apply str_all_cons in Hall as [? _]; done).
  rewrite ToLower_id by done.
  assert (Hu : str_all (.≠ "_"%char) s) by (by eapply str_all_excludes).
  assert (Hn : HasSuffix s "_wp" = false).
  { apply not_true_iff_false. intros [p ->]%HasSuffix_spec.
    apply str_all_app in Hu as [_ Hu]. by apply str_all_cons in Hu as [? _]. }
  rewrite TrimSuffix_none, ReplaceAll_none, collapse_runs_id by done. by apply Trim_id.
Qed.

(** taking the slug twice is taking it once, so a name built from a slug is stable. *)
Theorem MapSlug_idempotent (mapID : string) : MapSlug (MapSlug mapID) = MapSlug mapID.
Proof. apply MapSlug_of_label, MapSlug_label. Qed.

(** Two map identifiers the CRD's pattern admits can share a slug, and so all their resources. *)
Lemma MapSlug_collision :
  "TheIsland_WP" <> "Island_WP" /\ MapSlug "TheIsland_WP" = MapSlug "Island_WP".
Proof. by split. Qed.

(** An identifier the pattern admits can have the empty slug. *)
Lemma MapSlug_empty : MapSlug "_WP" = "" /\ MapSlug "-_-" = "".
Proof. done. Qed.

(** ** Mod sets *)

#[export] Instance ModSetHash_Proper : Proper ((≡ₚ) ==> (=)) ModSetHash.
Proof. intros l1 l2 H. unfold ModSetHash. by rewrite H. Qed.

Lemma mod_parts_ok l : Forall (fun s => str_all (.≠ ","%char) s /\ s <> "") (map FormatInt l).
Proof. apply Forall_fmap, Forall_true. intros. split; auto with ark. Qed.

Lemma mod_text_inj l1 l2 :
  Join (map FormatInt l1) "," = Join (map FormatInt l2) "," -> l1 = l2.
Proof.
  intros H. apply Join_inj in H; [|apply mod_parts_ok..]. revert l2 H.
  induction l1 as [|x l1 IH]; intros [|y l2] H; [done..|]. cbn in H. inv H.
  f_equal; auto using FormatInt_inj.
Qed.

(** the digest of a mod set does not depend on the order of the list, and the digested text
    determines the set with its multiplicities: two lists whose texts agree are permutations
    of each other. *)
Theorem ModSetHash_order_independent (l1 l2 : list Z) :
  (l1 ≡ₚ l2 -> ModSetHash l1 = ModSetHash l2) /\
  (Join (map FormatInt (sort_ints l1)) "," = Join (map FormatInt (sort_ints l2)) "," ->
   l1 ≡ₚ l2).
Proof.
  split; [by intros ->|]. intros H%mod_text_inj.
  by rewrite <- (sort_ints_Permutation l1), <- (sort_ints_Permutation l2), H.
Qed.

Lemma ModSetHash_order_independent_witness :
  ModSetHash [3; 1; 2] = ModSetHash [1; 2; 3].
Proof. apply (ModSetHash_order_independent [3; 1; 2] [1; 2; 3]). by apply (bool_decide_unpack _). Defined.

(** ** The pod-template hash *)

Ltac cancel_text :=
  repeat match goal with
  | H : ?p +:+ _ = ?p +:+ _ |- _ => apply str_app_inj_l in H
  | H : ?p +:+ ?s = ?q +:+ ?s |- _ => apply str_app_inj_r in H
  end.

(** the text that is hashed into the pod template changes whenever one of its inputs does:
    changing the image, a port, a revision or the active volume changes the text, and changing
    the mods changes it unless the two mod sets have the same digest. *)
Theorem hash_text_sensitive (i : PodTemplateHashInput) :
  (forall v, hash_text (i <| h_Image := v |>) = hash_text i -> v = h_Image i) /\
  (forall v, hash_text (i <| h_Mods := v |>) = hash_text i -> ModSetHash v = ModSetHash (h_Mods i)) /\
  (forall v, hash_text (i <| h_GamePort := v |>) = hash_text i -> v = h_GamePort i) /\
  (forall v, hash_text (i <| h_RconPort := v |>) = hash_text i -> v = h_RconPort i) /\
  (forall v, hash_text (i <| h_SecretsRev := v |>) = hash_text i -> v = h_SecretsRev i) /\
  (forall v, hash_text (i <| h_IniRev := v |>) = hash_text i -> v = h_IniRev i) /\
  (forall v, hash_text (i <| h_LaunchRev := v |>) = hash_text i -> v = h_LaunchRev i) /\
  (forall v, hash_text (i <| h_ActiveVolume := v |>) = hash_text i -> v = h_ActiveVolume i).
Proof.
  repeat split; intros v H; unfold hash_text in H; cbn in H; cancel_text; try done;
    by apply FormatInt_inj.
Qed.

Lemma hash_text_sensitive_witness :
  let i := MkPodTemplateHashInput "img" [1] 7777 27020 "s1" "i1" "l" "server-a" in
  hash_text (i <| h_ActiveVolume := "server-b" |>) <> hash_text i.
Proof.
  intros i H. by apply (hash_text_sensitive i) in H.
Defined.

Lemma PodTemplateHash_label i :
  String.length (PodTemplateHash i) = 16%nat /\
  str_all (fun c => is_hex c = true) (PodTemplateHash i).
Proof.
  unfold PodTemplateHash. split.
  - by rewrite hex_encode_length, length_take, Sum256_length.
  - apply hex_encode_hex, Forall_take, Sum256_range.
Qed.

(** ** Launch command *)

Definition no_brace (s : string) : Prop := str_all (.≠ "{"%char) s.

(** in a session-name format with one [{cluster}] and one [{map}], the two are replaced by the
    cluster's name and the friendly map name (the map identifier when it is empty) and the
    rest of the format is kept; a format without placeholders is the session name. *)
Theorem SessionName_subst (p m q cluster mapID friendly : string) :
  no_brace p -> no_brace m -> no_brace q -> no_brace cluster ->
  no_brace mapID -> no_brace friendly ->
  let shown := if String.eqb friendly "" then mapID else friendly in
  SessionName (p +:+ "{cluster}" +:+ m +:+ "{map}" +:+ q) cluster mapID friendly
  = p +:+ cluster +:+ m +:+ shown +:+ q /\
  SessionName p cluster mapID friendly = p.
Proof.
  intros Hp Hm Hq Hc Hid Hf shown. unfold SessionName. fold shown.
  assert (Htail : ReplaceAll ("{map}" +:+ q) "{cluster}" cluster = "{map}" +:+ q).
  { unfold ReplaceAll. rewrite !str_app_cons. cbn. do 5 f_equal. exact (ReplaceAll_none q _ _ _ Hq). }
  split.
  - rewrite (ReplaceAll_app p) by done.
    rewrite (ReplaceAll_match _ "{" "cluster}"), (ReplaceAll_app m) by done.
    rewrite Htail, (ReplaceAll_app p), (ReplaceAll_app cluster), (ReplaceAll_app m) by done.
    rewrite (ReplaceAll_match q "{" "map}"). do 4 f_equal. by apply ReplaceAll_none.
  - by rewrite (ReplaceAll_none p "{" "cluster}"), (ReplaceAll_none p "{" "map}").
Qed.

Lemma SessionName_subst_witness :
  SessionName ("" +:+ "{cluster}" +:+ " - " +:+ "{map}" +:+ "") "piwis-place" "TheIsland_WP" "The Island"
  = "" +:+ "piwis-place" +:+ " - " +:+ "The Island" +:+ "".
Proof.
  apply (SessionName_subst "" " - " "" "piwis-place" "TheIsland_WP" "The Island");
    unfold no_brace; by apply (bool_decide_unpack _).
Defined.

Definition no_space (s : string) : Prop := str_all (.≠ " "%char) s.

(** The tokens [ExtraFlags] emits, in order. *)
Definition flag_tokens (gs : GlobalSettings) (dir cid : string) (mods : list Z) : list string :=
  ["-ClusterDirOverride=" +:+ dir; "-clusterid=" +:+ cid] ++
  (if decide (mods = []) then [] else ["-mods=" +:+ Join (map FormatInt mods) ","]) ++
  (if decide (AllowedPlatforms gs = []) then [] else ["-ServerPlatform=" +:+ Join (AllowedPlatforms gs) "+"]) ++
  map (fun o => "-" +:+ o) (ExtraOptions gs) ++
  (if BattlEye gs then [] else ["-NoBattlEye"]) ++ ["-NoTransferFromFiltering"].

Lemma ExtraFlags_join gs dir cid mods :
  ExtraFlags (MkExtraFlagsInput dir cid mods (BattlEye gs) (AllowedPlatforms gs) (ComposeExtraOptions gs))
  = Join (flag_tokens gs dir cid mods) " ".
Proof.
  unfold ExtraFlags, ComposeExtraOptions. cbn [ef_ClusterDir ef_ClusterID ef_Mods ef_AllowedPlatforms
    ef_ExtraOptions ef_BattlEyeEnabled].
  set (pm := match mods with [] => _ | _ => _ end).
  set (pp := match AllowedPlatforms gs with [] => pm | _ => _ end).
  assert (Hpp : pp = ["-ClusterDirOverride=" +:+ dir; "-clusterid=" +:+ cid] ++
    (if decide (mods = []) then [] else ["-mods=" +:+ Join (map FormatInt mods) ","]) ++
    (if decide (AllowedPlatforms gs = []) then [] else ["-ServerPlatform=" +:+ Join (AllowedPlatforms gs) "+"])).
  { subst pp pm. destruct mods, (AllowedPlatforms gs); cbn; done. }
  clearbody pp. subst pp. clear pm. unfold flag_tokens.
  destruct (ExtraOptions gs) as [|o os].
  - cbn [String.eqb negb]. rewrite app_nil_l. destruct (BattlEye gs); cbn [negb]; by rewrite <- ?app_assoc.
  - assert (Hne : String.eqb (Join (map (fun o => "-" +:+ o) (o :: os)) " ") "" = false) by by destruct os.
    rewrite Hne. cbn [negb].
    rewrite !(app_assoc _ _ (map _ (o :: os) ++ _)), <- Join_nested by done.
    destruct (BattlEye gs); cbn [negb]; by rewrite <- ?app_assoc.
Qed.

Lemma Join_all P l sep : Forall (str_all P) l -> str_all P sep -> str_all P (Join l sep).
Proof.
  intros Hl Hs. induction Hl as [|x l Hx Hl IH]; [constructor|].
  destruct l; [done|]. rewrite Join_cons, !str_all_app by done. by split.
Qed.

(** splitting [EXTRA_FLAGS] at spaces gives back exactly the flags in their order - cluster
    directory, cluster id, mods, platforms, the extra options, [-NoBattlEye] unless BattlEye is
    enabled, [-NoTransferFromFiltering] - when no input holds a space. *)
Theorem ExtraFlags_tokens gs dir cid mods :
  no_space dir -> no_space cid -> Forall no_space (AllowedPlatforms gs) ->
  Forall no_space (ExtraOptions gs) ->
  Split (ExtraFlags (MkExtraFlagsInput dir cid mods (BattlEye gs) (AllowedPlatforms gs)
    (ComposeExtraOptions gs))) " " = flag_tokens gs dir cid mods.
Proof.
  intros Hd Hc Hp Ho. rewrite ExtraFlags_join. apply Split_Join; [done|].
  assert (Hm : no_space (Join (map FormatInt mods) ",")).
  { apply Join_all; [|by repeat constructor]. apply Forall_fmap, Forall_true. intros z.
    eapply num_char_not; [|apply FormatInt_chars]. intros [?|?]; done. }
  unfold flag_tokens. rewrite !Forall_app.
  repeat split; repeat case_decide; try case_match; repeat constructor; try done.
  - apply Join_all; [done|by repeat constructor].
  - apply Forall_fmap. eapply Forall_impl; [exact Ho|]. intros o Ho'. cbn. by constructor.
Qed.

Definition demo_settings : GlobalSettings :=
  MkGlobalSettings "{cluster} - {map}" None None false ["ALL"] 70 [1] ["ForceAllowCaveFlyers"]
    ["AdminLogging"] None None.

Lemma ExtraFlags_tokens_witness :
  Split (ExtraFlags (MkExtraFlagsInput "/srv" "c" [2; 1] (BattlEye demo_settings)
    (AllowedPlatforms demo_settings) (ComposeExtraOptions demo_settings))) " "
  = ["-ClusterDirOverride=/srv"; "-clusterid=c"; "-mods=2,1"; "-ServerPlatform=ALL";
     "-ForceAllowCaveFlyers"; "-NoBattlEye"; "-NoTransferFromFiltering"].
Proof.
  apply (ExtraFlags_tokens demo_settings "/srv" "c" [2; 1]); cbn;
    repeat constructor; try done; by apply (bool_decide_unpack _).
Defined.
