(* ===== verification/StateMachine.v ===== *)
(** * internal/statemachine: the table of legal phase transitions

    [transitions.go] and [map.go], the transitions as a step relation, and what holds of every
    sequence of legal transitions. *)

From stdpp Require Import relations finite.
From S2P Require Import Prelude Effects ApiTypes.

(** The phases the table lists after each phase. *)
Definition allowed (from : MapPhase) : list MapPhase :=
  match from with
  | MapPhaseUnset => [MapPhasePending]
  | MapPhasePending => [MapPhaseProvisioning; MapPhaseFailed]
  | MapPhaseProvisioning => [MapPhaseInstallingActive; MapPhaseFailed]
  | MapPhaseInstallingActive => [MapPhaseRunning; MapPhaseFailed]
  | MapPhaseRunning => [MapPhaseInstallingInactive; MapPhaseDrainingActive; MapPhaseFailed]
  | MapPhaseInstallingInactive => [MapPhaseDrainingActive; MapPhaseRunning; MapPhaseFailed]
  | MapPhaseDrainingActive => [MapPhaseSwapping; MapPhaseRunning; MapPhaseFailed]
  | MapPhaseSwapping => [MapPhaseRunning; MapPhaseFailed]
  | MapPhaseFailed => []
  end.

Definition AllowedTransition (from to : MapPhase) : bool :=
  bool_decide (from = to) || bool_decide (to ∈ allowed from).

Definition phase_text (p : MapPhase) : string :=
  match p with
  | MapPhaseUnset => ""
  | MapPhasePending => "Pending"
  | MapPhaseProvisioning => "Provisioning"
  | MapPhaseInstallingActive => "InstallingActive"
  | MapPhaseInstallingInactive => "InstallingInactive"
  | MapPhaseRunning => "Running"
  | MapPhaseDrainingActive => "DrainingActive"
  | MapPhaseSwapping => "Swapping"
  | MapPhaseFailed => "Failed"
  end.

(** The error [Transition] returns, if any, and the status it leaves. *)
Definition Transition (status : MapStatus) (to : MapPhase) : option error * MapStatus :=
  if negb (AllowedTransition (ms_Phase status) to)
  then (Some (Errorf ("disallowed map transition: " +:+ phase_text (ms_Phase status) +:+ " -> " +:+
                      phase_text to)), status)
  else (None, status <| ms_Phase := to |>).

(** One call of [Transition] that succeeds. *)
Inductive step : MapPhase -> MapPhase -> Prop :=
  | step_transition status to status' :
      Transition status to = (None, status') -> step (ms_Phase status) (ms_Phase status').

(** Sequences of calls: the phases passed, the first one first. *)
Inductive history : MapPhase -> list MapPhase -> MapPhase -> Prop :=
  | history_one p : history p [p] p
  | history_step p q l r : step p q -> history q l r -> history p (p :: l) r.

Lemma AllowedTransition_refl p : AllowedTransition p p = true.
Proof. unfold AllowedTransition. by rewrite bool_decide_true. Qed.

(** [Transition] moves the phase and nothing else when the table allows the move or the move
    is the identity, and returns an error and leaves the status as it was otherwise. *)
Theorem Transition_spec (status : MapStatus) (to : MapPhase) :
  let '(err, status') := Transition status to in
  (err = None <-> ms_Phase status = to \/ to ∈ allowed (ms_Phase status)) /\
  status' = status <| ms_Phase := match err with Some _ => ms_Phase status | None => to end |>.
Proof.
  unfold Transition, AllowedTransition.
  destruct (bool_decide_reflect (ms_Phase status = to)) as [H|H];
    [|destruct (bool_decide_reflect (to ∈ allowed (ms_Phase status))) as [H'|H']]; cbn;
    (split; [|by destruct status]); split; try done; tauto.
Qed.

Lemma step_iff p q : step p q <-> AllowedTransition p q = true.
Proof.
  split.
  - intros [status to status' H]. unfold Transition in H. case_match eqn:E; inv H. cbn.
    by apply negb_false_iff in E.
  - intros H. pose (s := (new_MapStatus "") <| ms_Phase := p |>).
    change (step (ms_Phase s) (ms_Phase (s <| ms_Phase := q |>))).
    apply (step_transition s q (s <| ms_Phase := q |>)). unfold Transition. cbn. by rewrite H.
Qed.

#[export] Instance step_dec : RelDecision step.
Proof. intros p q. refine (cast_if (decide (AllowedTransition p q = true))); by rewrite step_iff. Defined.

(** [Failed] is terminal: no sequence of legal transitions leaves it. *)
Theorem Failed_terminal (p : MapPhase) : rtc step MapPhaseFailed p -> p = MapPhaseFailed.
Proof.
  remember MapPhaseFailed as f eqn:Hf. induction 1 as [|x y z Hxy _ IH]; [done|]. subst x.
  apply step_iff in Hxy. destruct y; try done. by apply IH.
Qed.

Lemma Failed_terminal_witness : MapPhaseFailed = MapPhaseFailed.
Proof. apply (Failed_terminal MapPhaseFailed). apply rtc_refl. Defined.

(** The phases before the first time a map runs. *)
Definition early (p : MapPhase) : bool :=
  match p with
  | MapPhaseUnset | MapPhasePending | MapPhaseProvisioning | MapPhaseInstallingActive
  | MapPhaseFailed => true
  | _ => false
  end.

Lemma early_step p q : step p q -> early p = true -> q <> MapPhaseRunning -> early q = true.
Proof. rewrite step_iff. by destruct p, q. Qed.

Lemma history_early p l r : history p l r -> early p = true -> MapPhaseRunning ∉ l -> early r = true.
Proof.
  induction 1 as [|p q l r Hs Hh IH]; [done|]. intros Hp [_ Hl]%not_elem_of_cons.
  apply IH; [|done]. eapply early_step; [exact Hs|done|]. intros ->. inv Hh; set_solver.
Qed.

(** A phase other than [Running] and [Failed] that follows the first run reaches [Swapping]
    through [DrainingActive] only. *)
Lemma history_drain p l r :
  history p l r -> p <> MapPhaseSwapping -> r = MapPhaseSwapping -> MapPhaseDrainingActive ∈ l.
Proof.
  induction 1 as [|p q l r Hs Hh IH]; [done|]. intros Hp ->.
  destruct (decide (q = MapPhaseSwapping)) as [->|Hq]; [|set_solver].
  apply step_iff in Hs. destruct p; try done. set_solver.
Qed.

(** a map whose status starts fresh can only reach [Swapping] after it has been [Running] and
    [DrainingActive]. *)
Theorem swap_after_drain (l : list MapPhase) :
  history MapPhaseUnset l MapPhaseSwapping ->
  MapPhaseRunning ∈ l /\ MapPhaseDrainingActive ∈ l.
Proof.
  intros H. split; [|by eapply history_drain].
  destruct (decide (MapPhaseRunning ∈ l)); [done|].
  by eapply history_early in H.
Qed.

Ltac step_on := apply step_iff; reflexivity.

Lemma swap_after_drain_witness :
  MapPhaseRunning ∈ [MapPhaseUnset; MapPhasePending; MapPhaseProvisioning; MapPhaseInstallingActive;
    MapPhaseRunning; MapPhaseDrainingActive; MapPhaseSwapping] /\
  MapPhaseDrainingActive ∈ [MapPhaseUnset; MapPhasePending; MapPhaseProvisioning;
    MapPhaseInstallingActive; MapPhaseRunning; MapPhaseDrainingActive; MapPhaseSwapping].
Proof.
  apply swap_after_drain.
  apply (history_step _ MapPhasePending); [step_on|].
  apply (history_step _ MapPhaseProvisioning); [step_on|].
  apply (history_step _ MapPhaseInstallingActive); [step_on|].
  apply (history_step _ MapPhaseRunning); [step_on|].
  apply (history_step _ MapPhaseDrainingActive); [step_on|].
  apply (history_step _ MapPhaseSwapping); [step_on|]. apply history_one.
Defined.

(** nothing is stuck: from every phase but [Failed] a sequence of legal transitions leads to
    [Running], and another one to [Failed]. *)
Theorem Running_reachable (p : MapPhase) :
  p <> MapPhaseFailed -> rtc step p MapPhaseRunning /\ rtc step p MapPhaseFailed.
Proof.
  intros Hp.
  assert (H1 : forall q, step q MapPhaseRunning -> rtc step q MapPhaseRunning) by (intros; by apply rtc_once).
  assert (Ha : rtc step MapPhaseInstallingActive MapPhaseRunning) by (apply H1; step_on).
  assert (Hv : rtc step MapPhaseProvisioning MapPhaseRunning) by (eapply rtc_l; [|exact Ha]; step_on).
  assert (Hd : rtc step MapPhasePending MapPhaseRunning) by (eapply rtc_l; [|exact Hv]; step_on).
  assert (Hr : rtc step p MapPhaseRunning).
  { destruct p; try done; try (apply H1; step_on). eapply rtc_l; [|exact Hd]; step_on. }
  split; [done|]. etrans; [exact Hr|]. apply rtc_once. step_on.
Qed.

Lemma Running_reachable_witness :
  rtc step MapPhaseUnset MapPhaseRunning /\ rtc step MapPhaseUnset MapPhaseFailed.
Proof. by apply (Running_reachable MapPhaseUnset). Defined.
