(* ===== verification/Status.v ===== *)
(** * internal/reconcile/status.go: conditions, map statuses and the cluster phase

    [EnsureMapStatus] returns a pointer into [cluster.Status.Maps]; it is modelled by the index
    of the element, and writing through the pointer by an update at that index, so that a
    write through the pointer and a write of [SetMapCondition] meet in the same element. *)

From S2P Require Import Prelude Effects ApiTypes Kube.

Local Open Scope prog_scope.

(** ** Operations *)

(** The loop of [SetMapCondition] and [SetClusterCondition] over one list of conditions. *)
Definition set_condition (conds : list Condition) (cond : Condition) : kprog (list Condition) :=
  match list_find (fun c => cond_Type c = cond_Type cond) conds with
  | Some (j, c) =>
      if negb (String.eqb (cond_Status c) (cond_Status cond)) then
        let* now := kcall Now in
        Ret (<[j := cond <| LastTransitionTime := Some now |>]> conds)
      else
        Ret (<[j := c <| cond_Reason := cond_Reason cond |> <| cond_Message := cond_Message cond |>]> conds)
  | None =>
      let* now := kcall Now in
      Ret (conds ++ [cond <| LastTransitionTime := Some now |>])
  end.

Definition find_status (maps : list MapStatus) (mapID : string) : option (nat * MapStatus) :=
  list_find (fun m => ms_ID m = mapID) maps.

Definition SetMapCondition (cluster : ArkCluster) (mapID : string) (cond : Condition) : kprog ArkCluster :=
  match find_status (MapStatuses (Status cluster)) mapID with
  | Some (i, m) =>
      let* conds := set_condition (ms_Conditions m) cond in
      Ret (on_maps (fun ms => <[i := m <| ms_Conditions := conds |>]> ms) cluster)
  | None => Ret cluster
  end.

Definition SetClusterCondition (cluster : ArkCluster) (cond : Condition) : kprog ArkCluster :=
  let* conds := set_condition (cs_Conditions (Status cluster)) cond in
  Ret (on_status (fun st => st <| cs_Conditions := conds |>) cluster).

(** The index of the map's entry, and the cluster with the entry present. *)
Definition EnsureMapStatus (cluster : ArkCluster) (mapID : string) : nat * ArkCluster :=
  match find_status (MapStatuses (Status cluster)) mapID with
  | Some (i, _) => (i, cluster)
  | None =>
      let cluster := on_maps (fun ms => ms ++ [new_MapStatus mapID]) cluster in
      ((length (MapStatuses (Status cluster)) - 1)%nat, cluster)
  end.

Record phase_flags := MkFlags { anyFailed : bool; anyUpdating : bool; anyPending : bool; allRunning : bool }.
#[export] Instance eta_phase_flags : Settable phase_flags := fun r =>
  MkFlags (anyFailed r) (anyUpdating r) (anyPending r) (allRunning r).

(** One turn of the loop of [AggregatePhase]. *)
Definition flag_phase (f : phase_flags) (m : MapStatus) : phase_flags :=
  match ms_Phase m with
  | MapPhaseFailed => f <| anyFailed := true |> <| allRunning := false |>
  | MapPhaseInstallingActive | MapPhaseInstallingInactive | MapPhaseDrainingActive
  | MapPhaseSwapping => f <| anyUpdating := true |> <| allRunning := false |>
  | MapPhasePending | MapPhaseProvisioning => f <| anyPending := true |> <| allRunning := false |>
  | MapPhaseRunning => f
  | MapPhaseUnset => f <| allRunning := false |>
  end.

Definition AggregatePhase (maps : list MapStatus) : ClusterPhase :=
  match maps with
  | [] => ClusterPhasePending
  | _ =>
      let f := foldl flag_phase (MkFlags false false false true) maps in
      if anyFailed f then ClusterPhaseDegraded
      else if anyUpdating f then ClusterPhaseUpdating
      else if anyPending f then ClusterPhaseInitializing
      else if allRunning f then ClusterPhaseRunning
      else ClusterPhasePending
  end.

(** ** Conditions *)

Definition lookup_condition (conds : list Condition) (t : string) : option Condition :=
  List.find (fun c => String.eqb (cond_Type c) t) conds.

Definition cond_types (conds : list Condition) : list string := cond_Type <$> conds.

Lemma find_index_lookup conds t :
  lookup_condition conds t = snd <$> list_find (fun c => cond_Type c = t) conds.
Proof.
  induction conds as [|c l IH]; [done|]. unfold lookup_condition in *. cbn.
  destruct (String.eqb_spec (cond_Type c) t), (decide (cond_Type c = t)); try done.
  rewrite IH. by destruct (list_find _ l) as [[]|].
Qed.

Lemma lookup_condition_type conds t c : lookup_condition conds t = Some c -> cond_Type c = t.
Proof. intros [_ H]%List.find_some. by apply String.eqb_eq. Qed.

(** Replacing the condition that was found. *)
Lemma lookup_condition_insert conds t j c c' :
  list_find (fun c => cond_Type c = t) conds = Some (j, c) -> cond_Type c' = t ->
  cond_types (<[j := c']> conds) = cond_types conds /\
  forall u, lookup_condition (<[j := c']> conds) u
            = if decide (u = t) then Some c' else lookup_condition conds u.
Proof.
  revert j. induction conds as [|d l IH]; intros j Hf Ht; [done|]. cbn in Hf.
  destruct (decide (cond_Type d = t)) as [Hd|Hd].
  - inv Hf. split; [by cbn; rewrite Ht|]. intros u. unfold lookup_condition. cbn. rewrite Ht.
    destruct (String.eqb_spec (cond_Type c) u), (decide (u = cond_Type c)); congruence.
  - destruct (list_find _ l) as [[k e]|] eqn:E; inv Hf. destruct (IH k) as [IH1 IH2]; [done..|].
    split; [exact (f_equal (cons (cond_Type d)) IH1)|]. intros u. unfold lookup_condition in *. cbn. rewrite IH2.
    destruct (String.eqb_spec (cond_Type d) u), (decide (u = cond_Type c')); congruence.
Qed.

Lemma lookup_condition_snoc conds t c u :
  list_find (fun c => cond_Type c = t) conds = None -> cond_Type c = t ->
  lookup_condition (conds ++ [c]) u = if decide (u = t) then Some c else lookup_condition conds u.
Proof.
  intros Hf <-. induction conds as [|d l IH]; unfold lookup_condition in *; cbn in *.
  - destruct (String.eqb_spec (cond_Type c) u), (decide (u = cond_Type c)); congruence.
  - destruct (decide (cond_Type d = cond_Type c)); [done|].
    destruct (list_find _ l) as [[]|]; [done|]. rewrite IH by done.
    destruct (String.eqb_spec (cond_Type d) u), (decide (u = cond_Type c)); congruence.
Qed.

(** What setting [cond] makes of the condition of its type: the stored reason and message are
    [cond]'s, and the transition time moves exactly when the status does. *)
Definition set_result (old : option Condition) (cond : Condition) (now : option Z) : option Condition :=
  match old with
  | Some c =>
      if decide (cond_Status c = cond_Status cond)
      then Some (c <| cond_Reason := cond_Reason cond |> <| cond_Message := cond_Message cond |>)
      else Some (cond <| LastTransitionTime := now |>)
  | None => Some (cond <| LastTransitionTime := now |>)
  end.

(** The clock reading of a trace of [set_condition]. *)
Definition clock (tr : list kevent) : option Z :=
  match tr with [Ev Now t] => Some t | _ => None end.

Lemma set_condition_exec conds cond tr conds' :
  exec (set_condition conds cond) tr conds' ->
  (forall u, lookup_condition conds' u =
     if decide (u = cond_Type cond)
     then set_result (lookup_condition conds u) cond (clock tr)
     else lookup_condition conds u) /\
  (NoDup (cond_types conds) -> NoDup (cond_types conds')).
Proof.
  unfold set_condition. intros Hex.
  destruct (list_find _ conds) as [[j c]|] eqn:Hf.
  - assert (Hc : cond_Type c = cond_Type cond) by by apply list_find_Some in Hf as (? & ? & _).
    assert (Hl : lookup_condition conds (cond_Type cond) = Some c)
      by by rewrite find_index_lookup, Hf.
    destruct (String.eqb_spec (cond_Status c) (cond_Status cond)) as [Hs|Hs]; cbn [negb] in Hex; exec_inv.
    + destruct (lookup_condition_insert conds (cond_Type cond) j c
        (c <| cond_Reason := cond_Reason cond |> <| cond_Message := cond_Message cond |>))
        as [Hty Hlook]; [done..|].
      split; [|by rewrite Hty].
      intros u. rewrite Hlook. case_decide; [subst u|done].
      rewrite Hl. cbn. by rewrite decide_True.
    + destruct (lookup_condition_insert conds (cond_Type cond) j c
        (cond <| LastTransitionTime := Some a |>)) as [Hty Hlook]; [done..|].
      split; [|by rewrite Hty].
      intros u. rewrite Hlook. case_decide; [subst u|done].
      rewrite Hl. cbn. by rewrite decide_False.
  - exec_inv. split.
    + intros u. erewrite lookup_condition_snoc; [|exact Hf|done]. case_decide; [|done]. subst u.
      by rewrite find_index_lookup, Hf.
    + intros Hnd. unfold cond_types in *. rewrite fmap_app. apply NoDup_app. split_and!; [done| |apply NoDup_singleton].
      intros t Ht ->%list_elem_of_singleton. apply list_elem_of_fmap in Ht as (d & Hd & Hin).
      eapply list_find_None, Forall_forall in Hf; [|exact Hin]. by apply Hf.
Qed.

Lemma SetMapCondition_found cluster mapID cond i m tr cluster' :
  find_status (MapStatuses (Status cluster)) mapID = Some (i, m) ->
  exec (SetMapCondition cluster mapID cond) tr cluster' ->
  exists conds, exec (set_condition (ms_Conditions m) cond) tr conds /\
    cluster' = on_maps (fun ms => <[i := m <| ms_Conditions := conds |>]> ms) cluster.
Proof.
  intros Hf Hex. unfold SetMapCondition in Hex. rewrite Hf in Hex. exec_inv.
  rewrite app_nil_r. eauto.
Qed.

(** [SetMapCondition] writes one condition of one map and nothing else: an unknown map leaves
    the cluster as it is; for a known one the condition of that type takes the new status,
    reason and message, its transition time moves exactly when the status changes or the
    condition is new, every other condition keeps its value, and the condition types stay
    pairwise distinct. *)
Theorem SetMapCondition_spec cluster mapID cond tr cluster' :
  exec (SetMapCondition cluster mapID cond) tr cluster' ->
  match find_status (MapStatuses (Status cluster)) mapID with
  | None => cluster' = cluster /\ tr = []
  | Some (i, m) => exists conds,
      cluster' = on_maps (fun ms => <[i := m <| ms_Conditions := conds |>]> ms) cluster /\
      (forall t, lookup_condition conds t =
         if decide (t = cond_Type cond)
         then set_result (lookup_condition (ms_Conditions m) t) cond (clock tr)
         else lookup_condition (ms_Conditions m) t) /\
      (NoDup (cond_types (ms_Conditions m)) -> NoDup (cond_types conds))
  end.
Proof.
  intros Hex. destruct (find_status _ _) as [[i m]|] eqn:Hf.
  - destruct (SetMapCondition_found _ _ _ _ _ _ _ Hf Hex) as (conds & Hc & ->).
    exists conds. split; [done|]. by apply set_condition_exec.
  - unfold SetMapCondition in Hex. rewrite Hf in Hex. by exec_inv.
Qed.

Definition demo_condition : Condition := MkCondition "PodReady" "True" "RCONReachable" "ok" None.

Lemma SetMapCondition_spec_witness :
  let cluster := on_maps (fun _ => [new_MapStatus "island"]) demo_cluster in
  let cluster' := on_maps (fun ms => <[0%nat := (new_MapStatus "island")
    <| ms_Conditions := [demo_condition <| LastTransitionTime := Some 5 |>] |>]> ms) cluster in
  exists conds, cluster' = on_maps (fun ms => <[0%nat := (new_MapStatus "island")
    <| ms_Conditions := conds |>]> ms) cluster /\
    lookup_condition conds "PodReady" = Some (demo_condition <| LastTransitionTime := Some 5 |>).
Proof.
  intros cluster cluster'.
  assert (Hex : exec (SetMapCondition cluster "island" demo_condition) [Ev Now 5] cluster')
    by (apply (exec_act Now); constructor).
  destruct (SetMapCondition_spec _ _ _ _ _ Hex) as (conds & Heq & Hl & _).
  exists conds. split; [done|]. by rewrite Hl.
Defined.

(** ** Map statuses *)

Definition status_ids (cluster : ArkCluster) : list string := ms_ID <$> MapStatuses (Status cluster).

Lemma find_status_snoc maps id m :
  find_status maps id = None -> ms_ID m = id ->
  find_status (maps ++ [m]) id = Some (length maps, m).
Proof.
  intros Hn Hm. unfold find_status. rewrite list_find_app_r by done. cbn.
  rewrite decide_True by done. cbn. do 2 f_equal; lia.
Qed.

(** [EnsureMapStatus] returns a pointer to an entry of the map, adds one exactly when there is
    none, at the end and with every other field zero, gives the same pointer and the same
    cluster when called again, and keeps the map identifiers pairwise distinct. *)
Theorem EnsureMapStatus_spec cluster mapID :
  let '(i, cluster') := EnsureMapStatus cluster mapID in
  (exists m, MapStatuses (Status cluster') !! i = Some m /\ ms_ID m = mapID) /\
  cluster' = (if decide (mapID ∈ status_ids cluster) then cluster
              else on_maps (fun ms => ms ++ [new_MapStatus mapID]) cluster) /\
  EnsureMapStatus cluster' mapID = (i, cluster') /\
  (NoDup (status_ids cluster) -> NoDup (status_ids cluster')).
Proof.
  unfold EnsureMapStatus, status_ids. destruct (find_status _ _) as [[i m]|] eqn:Hf.
  - pose proof Hf as (Hi & Hid & _)%list_find_Some. rewrite Hf. split_and!; eauto.
    rewrite decide_True; [done|]. apply list_elem_of_fmap. exists m.
    split; [done|by eapply list_elem_of_lookup_2].
  - assert (Hnin : mapID ∉ ms_ID <$> MapStatuses (Status cluster)).
    { intros (m & -> & Hin)%list_elem_of_fmap.
      apply list_find_None, Forall_forall with (x := m) in Hf; [|done]. by apply Hf. }
    cbv zeta. set (c2 := on_maps _ cluster).
    assert (Hc2 : MapStatuses (Status c2) = MapStatuses (Status cluster) ++ [new_MapStatus mapID]) by done.
    rewrite Hc2, length_app, Nat.add_sub, find_status_snoc by done. split_and!; try done.
    + exists (new_MapStatus mapID). split; [by apply list_lookup_middle|done].
    + by rewrite decide_False.
    + intros Hnd. rewrite fmap_app. apply NoDup_app.
      split_and!; [done| |apply NoDup_singleton].
      by intros t Ht ->%list_elem_of_singleton.
Qed.

(** ** The cluster phase *)

Definition updating (p : MapPhase) : Prop :=
  p ∈ [MapPhaseInstallingActive; MapPhaseInstallingInactive; MapPhaseDrainingActive; MapPhaseSwapping].
Definition starting (p : MapPhase) : Prop := p ∈ [MapPhasePending; MapPhaseProvisioning].

Lemma flags_fold maps f :
  let f' := foldl flag_phase f maps in
  (anyFailed f' = true <-> anyFailed f = true \/ Exists (fun m => ms_Phase m = MapPhaseFailed) maps) /\
  (anyUpdating f' = true <-> anyUpdating f = true \/ Exists (fun m => updating (ms_Phase m)) maps) /\
  (anyPending f' = true <-> anyPending f = true \/ Exists (fun m => starting (ms_Phase m)) maps) /\
  (allRunning f' = true <-> allRunning f = true /\ Forall (fun m => ms_Phase m = MapPhaseRunning) maps).
Proof.
  revert f. induction maps as [|m l IH]; intros f; cbn.
  - rewrite !Exists_nil, Forall_nil. tauto.
  - destruct (IH (flag_phase f m)) as (-> & -> & -> & ->).
    rewrite !Exists_cons, Forall_cons. unfold flag_phase, updating, starting at 1 2.
    rewrite !elem_of_cons, !elem_of_nil. clear IH.
    destruct (ms_Phase m); cbn; intuition congruence.
Qed.

Lemma flag_or (b : bool) (P : Prop) : (b = true <-> false = true \/ P) -> if b then P else ~ P.
Proof. destruct b; naive_solver. Qed.
Lemma flag_and (b : bool) (P : Prop) : (b = true <-> true = true /\ P) -> if b then P else ~ P.
Proof. destruct b; naive_solver. Qed.

(** the cluster phase is the first of these that applies: [Pending] for no maps, [Degraded] if
    a map failed, [Updating] if a map installs, drains or swaps, [Initializing] if a map is
    pending or provisioning, [Running] if all maps run, [Pending] otherwise. *)
Theorem AggregatePhase_spec (maps : list MapStatus) :
  let failed := Exists (fun m => ms_Phase m = MapPhaseFailed) maps in
  let upd := Exists (fun m => updating (ms_Phase m)) maps in
  let start := Exists (fun m => starting (ms_Phase m)) maps in
  (AggregatePhase maps = ClusterPhaseDegraded <-> failed) /\
  (AggregatePhase maps = ClusterPhaseUpdating <-> upd /\ ~ failed) /\
  (AggregatePhase maps = ClusterPhaseInitializing <-> start /\ ~ upd /\ ~ failed) /\
  (AggregatePhase maps = ClusterPhaseRunning <->
     maps <> [] /\ Forall (fun m => ms_Phase m = MapPhaseRunning) maps) /\
  AggregatePhase maps <> ClusterPhaseUnset /\ AggregatePhase maps <> ClusterPhaseFailed.
Proof.
  cbv zeta. destruct maps as [|m l].
  { cbn. rewrite !Exists_nil. naive_solver. }
  unfold AggregatePhase.
  destruct (flags_fold (m :: l) (MkFlags false false false true)) as (Hf & Hu & Hp & Hr).
  set (f := foldl _ _ _) in *. clearbody f. cbn [anyFailed anyUpdating anyPending allRunning] in *.
  assert (Hx : forall P : MapPhase -> Prop, ~ P MapPhaseRunning ->
    Forall (fun m => ms_Phase m = MapPhaseRunning) (m :: l) -> ~ Exists (fun m => P (ms_Phase m)) (m :: l)).
  { intros P HP Hall (x & Hin & HPx)%Exists_exists. eapply Forall_forall in Hall; [|exact Hin].
    by rewrite Hall in HPx. }
  pose proof (Hx (.= MapPhaseFailed) ltac:(done)) as Hx1.
  pose proof (Hx updating ltac:(unfold updating; set_solver)) as Hx2.
  pose proof (Hx starting ltac:(unfold starting; set_solver)) as Hx3.
  clear Hx. cbv beta in Hx1. revert Hf Hu Hp Hr Hx1 Hx2 Hx3.
  generalize (Exists (fun m => ms_Phase m = MapPhaseFailed) (m :: l))
    (Exists (fun m => updating (ms_Phase m)) (m :: l)) (Exists (fun m => starting (ms_Phase m)) (m :: l))
    (Forall (fun m => ms_Phase m = MapPhaseRunning) (m :: l)).
  intros F U P R Hf Hu Hp Hr H1 H2 H3. assert (m :: l <> []) by done.
  apply flag_or in Hf, Hu, Hp. apply flag_and in Hr. cbv beta in H1.
  destruct (anyFailed f), (anyUpdating f), (anyPending f), (allRunning f);
    split_and!; try done; (split; [intros Heq; try discriminate Heq; clear Heq|intros Hx; try reflexivity; exfalso]; tauto).
Qed.
