(* ===== verification/Ini.v ===== *)
(** * internal/reconcile/configmap.go: the INI files of a map

    [ensureGUSDefaults] merges the two RCON keys into the user's GameUserSettings.ini,
    [resolveINI] finds the source of a file, [EnsureMapINIConfigMaps] writes the two
    ConfigMaps the pod mounts. *)

From S2P Require Import Prelude GoStd Effects ApiTypes Kube Ark.

Local Open Scope prog_scope.


(** ** ensureGUSDefaults *)

(** The loop over the lines after the header, the first of them with index [i]: the index of
    the next section header (or of the end), and which of the two keys were seen. *)
Fixpoint scan_section (ls : list string) (i : nat) (hasEnabled hasPort : bool) : nat * bool * bool :=
  match ls with
  | [] => (i, hasEnabled, hasPort)
  | l :: ls =>
      let t := TrimSpace l in
      if HasPrefix t "[" && HasSuffix t "]" then (i, hasEnabled, hasPort)
      else scan_section ls (S i) (hasEnabled || HasPrefix t "RCONEnabled=")
             (hasPort || HasPrefix t "RCONPort=")
  end.

Definition ensureGUSDefaults (content : string) (rconPort : Z) : string :=
  if String.eqb content "" then
    "[ServerSettings]" +:+ nl +:+ "RCONEnabled=True" +:+ nl +:+ "RCONPort=" +:+ FormatInt rconPort +:+ nl
  else
    let lines := Split content newline in
    match list_find (fun l => TrimSpace l = "[ServerSettings]") lines with
    | None =>
        let newHead := ["[ServerSettings]"; "RCONEnabled=True"; "RCONPort=" +:+ FormatInt rconPort; ""] in
        Join (newHead ++ lines) nl
    | Some (ssStart, _) =>
        let '(end_, hasEnabled, hasPort) :=
          scan_section (drop (ssStart + 1) lines) (ssStart + 1) false false in
        if hasEnabled && hasPort then content
        else
          let inject := (if hasEnabled then [] else ["RCONEnabled=True"]) ++
                        (if hasPort then [] else ["RCONPort=" +:+ FormatInt rconPort]) in
          Join (take (ssStart + 1) lines ++ inject ++
                take (end_ - (ssStart + 1)) (drop (ssStart + 1) lines) ++ drop end_ lines) nl
    end.

(** ** The sources of the files *)

Definition GUSConfigMapName (cluster mapID : string) : string :=
  cluster +:+ "-" +:+ MapSlug mapID +:+ "-gus".
Definition GameConfigMapName (cluster mapID : string) : string :=
  cluster +:+ "-" +:+ MapSlug mapID +:+ "-game".

Definition findMapIndex (cluster : ArkCluster) (mapID : string) : Z :=
  match list_find (fun m => map_ID m = mapID) (Maps (Spec cluster)) with
  | Some (i, _) => Z.of_nat i
  | None => 0
  end.

Definition findMap (cluster : ArkCluster) (mapID : string) : option MapSpec :=
  snd <$> list_find (fun m => map_ID m = mapID) (Maps (Spec cluster)).

Definition resolveINI (cluster : ArkCluster) (mapSpec : option MapSpec) (key : string) : kprog string :=
  let gus := String.eqb key "GameUserSettings.ini" in
  let ref := match mapSpec with
             | Some ms => if gus then map_GameUserSettings ms else map_Game ms
             | None => None
             end in
  let ref := match ref with
             | Some r => Some r
             | None => if gus then gs_GameUserSettings (Global (Spec cluster))
                       else gs_Game (Global (Spec cluster))
             end in
  match ref with
  | None => Ret ""
  | Some r =>
      let* got := kcall (Get KindConfigMap (cluster_ns cluster) (cmref_Name r)) in
      match got with
      | Ok cm => Ret (default "" (cm_Data cm !! key))
      | Err _ => Ret ""
      end
  end.

Section WithLib.
Context `{L : K8sLib}.

(** The callback of [writeINIConfigMap]. *)
Definition mutate_cm (cluster : ArkCluster) (key content : string) (cm : ConfigMap) : res ConfigMap :=
  let cm := cm <| cm_Data ::= insert key content |> in
  let labelled := (cm_meta cm) <| Labels ::= insert "ark.watteel.com/cluster" (cluster_name cluster) |> in
  match SetControllerReference cluster labelled with
  | Err e => Err e
  | Ok m => Ok (cm <| cm_meta := m |>)
  end.

Definition writeINIConfigMap (cluster : ArkCluster) (name key content : string) : kprog (res unit) :=
  let cm := MkConfigMap (new_meta name (cluster_ns cluster) ∅) ∅ in
  CreateOrUpdate KindConfigMap cm (fun cm => Ret (mutate_cm cluster key content cm)).

Definition EnsureMapINIConfigMaps (cluster : ArkCluster) (mapID : string) : kprog (res unit) :=
  let mapSpec := findMap cluster mapID in
  let* gus := resolveINI cluster mapSpec "GameUserSettings.ini" in
  let* game := resolveINI cluster mapSpec "Game.ini" in
  let idx := findMapIndex cluster mapID in
  let rconPort := Int.int32 (RconPortStart (Service (Spec cluster)) + Int.int32 idx) in
  let gus := ensureGUSDefaults gus rconPort in
  let* r := writeINIConfigMap cluster (GUSConfigMapName (cluster_name cluster) mapID)
              "GameUserSettings.ini" gus in
  match r with
  | Err e => Ret (Err e)
  | Ok _ => writeINIConfigMap cluster (GameConfigMapName (cluster_name cluster) mapID) "Game.ini" game
  end.

End WithLib.

(** ** What the merge guarantees *)

Definition is_header (l : string) : bool :=
  HasPrefix (TrimSpace l) "[" && HasSuffix (TrimSpace l) "]".

(** The lines up to the next section header. *)
Fixpoint section_body (ls : list string) : list string :=
  match ls with
  | [] => []
  | l :: ls => if is_header l then [] else l :: section_body ls
  end.

(** The lines of the first [ServerSettings] section, the one the game reads. *)
Definition server_section (content : string) : option (list string) :=
  let lines := Split content newline in
  '(i, _) ← list_find (fun l => TrimSpace l = "[ServerSettings]") lines;
  Some (section_body (drop (S i) lines)).

Definition has_key (key : string) (ls : list string) : bool :=
  existsb (fun l => HasPrefix (TrimSpace l) key) ls.

Lemma scan_section_spec ls i he hp :
  scan_section ls i he hp =
  ((i + length (section_body ls))%nat, he || has_key "RCONEnabled=" (section_body ls),
   hp || has_key "RCONPort=" (section_body ls)).
Proof.
  revert i he hp. induction ls as [|l ls IH]; intros i he hp; cbn -[TrimSpace HasPrefix].
  - by rewrite Nat.add_0_r, !orb_false_r.
  - fold (is_header l). destruct (is_header l); cbn -[TrimSpace HasPrefix].
    + by rewrite Nat.add_0_r, !orb_false_r.
    + rewrite IH, !orb_assoc. f_equal; f_equal; lia.
Qed.

(** The lines that are merged in. *)
Definition injected (sec : list string) (rconPort : Z) : list string :=
  (if has_key "RCONEnabled=" sec then [] else ["RCONEnabled=True"]) ++
  (if has_key "RCONPort=" sec then [] else ["RCONPort=" +:+ FormatInt rconPort]).

(** [ensureGUSDefaults] on the lines. *)
Lemma ensureGUSDefaults_lines content rconPort :
  ensureGUSDefaults content rconPort =
  match list_find (fun l => TrimSpace l = "[ServerSettings]") (Split content newline) with
  | None => Join ("[ServerSettings]" :: injected [] rconPort ++
                  (if String.eqb content "" then [""] else "" :: Split content newline)) nl
  | Some (i, _) =>
      Join (take (S i) (Split content newline) ++
            injected (section_body (drop (S i) (Split content newline))) rconPort ++
            drop (S i) (Split content newline)) nl
  end.
Proof.
  unfold ensureGUSDefaults. destruct (String.eqb_spec content "") as [->|Hne]; [done|].
  destruct (list_find _ _) as [[i l]|] eqn:Hf; [|done].
  rewrite Nat.add_1_r, scan_section_spec, !orb_false_l. cbv iota beta.
  set (rest := drop (S i) _). set (sec := section_body rest).
  assert (Hrest : take (S i + length sec - S i) rest ++ drop (S i + length sec) (Split content newline) = rest).
  { replace (S i + length sec - S i)%nat with (length sec) by lia.
    rewrite <- drop_drop. apply take_drop. }
  rewrite Hrest. unfold injected.
  destruct (has_key "RCONEnabled=" sec), (has_key "RCONPort=" sec); cbn [andb app]; try done.
  subst sec rest. by rewrite take_drop, Join_Split.
Qed.

Lemma all_space_plain a s :
  space1 a = false -> byte_is a [194; 225; 226; 227]%nat = false -> all_space (String a s) = false.
Proof.
  intros H1 H2.
  assert (Hn : forall l, Forall (fun n => n ∈ [194; 225; 226; 227]%nat) l -> byte_is a l = false).
  { intros l Hl. apply not_true_iff_false. intros (n & Hn & Ha)%existsb_exists.
    apply not_true_iff_false in H2. apply H2, existsb_exists. exists n. split; [|done].
    apply list_elem_of_In. eapply Forall_forall in Hl; [exact Hl|]. by apply list_elem_of_In. }
  assert (H : forall x, In x [194; 225; 226; 227]%nat -> byte_is a [x] = false).
  { intros x Hx. apply Hn, Forall_singleton. by apply list_elem_of_In. }
  unfold all_space. destruct s as [|b [|c s]]; cbn [trim_space_left]; rewrite H1; [done|..];
    unfold space2, space3; rewrite !H by (cbn; tauto); done.
Qed.

Lemma rcon_port_trim z : TrimSpace ("RCONPort=" +:+ FormatInt z) = "RCONPort=" +:+ trim_space_right (FormatInt z).
Proof.
  unfold TrimSpace. change (trim_space_left ("RCONPort=" +:+ FormatInt z)) with ("RCONPort=" +:+ FormatInt z).
  rewrite !str_app_cons. cbn [trim_space_right]. rewrite !all_space_plain by done. reflexivity.
Qed.

Lemma injected_no_newline sec p : Forall (str_all (.≠ newline)) (injected sec p).
Proof.
  assert (Hp : str_all (.≠ newline) ("RCONPort=" +:+ FormatInt p)).
  { apply str_all_app. split; [by apply (bool_decide_unpack _)|].
    eapply num_char_not; [|apply FormatInt_chars]. intros [?|?]; done. }
  unfold injected. rewrite Forall_app.
  split; case_match; rewrite ?Forall_nil, ?Forall_singleton; try done.
  by apply (bool_decide_unpack _).
Qed.

Lemma injected_body sec p ls :
  section_body (injected sec p ++ ls) = injected sec p ++ section_body ls.
Proof. unfold injected. by repeat case_match. Qed.

Lemma has_key_app k l1 l2 : has_key k (l1 ++ l2) = has_key k l1 || has_key k l2.
Proof. apply existsb_app. Qed.

Lemma injected_has_keys sec p :
  has_key "RCONEnabled=" (injected sec p ++ sec) = true /\
  has_key "RCONPort=" (injected sec p ++ sec) = true.
Proof.
  assert (Hp : has_key "RCONPort=" ["RCONPort=" +:+ FormatInt p] = true).
  { cbn -[TrimSpace HasPrefix]. by rewrite rcon_port_trim, HasPrefix_app. }
  rewrite !has_key_app. unfold injected. split.
  - destruct (has_key "RCONEnabled=" sec) eqn:E; [by rewrite orb_true_r|done].
  - destruct (has_key "RCONPort=" sec) eqn:E; [by rewrite orb_true_r|].
    by rewrite !has_key_app, Hp, orb_true_r.
Qed.

Lemma header_first_take ls i l :
  list_find (fun l => TrimSpace l = "[ServerSettings]") ls = Some (i, l) ->
  forall rest, list_find (fun l => TrimSpace l = "[ServerSettings]") (take (S i) ls ++ rest) = Some (i, l).
Proof.
  intros (Hi & Hl & Hfirst)%list_find_Some rest. apply list_find_Some.
  assert (Hlen : (i < length ls)%nat) by by eapply lookup_lt_Some.
  split_and!; [|done|].
  - rewrite lookup_app_l, lookup_take_lt by (rewrite ?length_take; lia). done.
  - intros j y Hj Hlt. rewrite lookup_app_l, lookup_take_lt in Hj by (rewrite ?length_take; lia).
    by eapply Hfirst.
Qed.

(** What follows the merged keys: the user's section, or, when the user has none, an empty line
    and the lines the user wrote before the first header of another section. *)
Definition user_section (content : string) : list string :=
  match server_section content with
  | Some sec => sec
  | None => "" :: (if String.eqb content "" then [] else section_body (Split content newline))
  end.

Lemma server_section_merged content p :
  server_section (ensureGUSDefaults content p) =
  Some (injected (default [] (server_section content)) p ++ user_section content).
Proof.
  rewrite ensureGUSDefaults_lines. unfold user_section, server_section.
  pose proof (Split_no_sep content newline) as Hsep.
  destruct (list_find _ (Split content newline)) as [[i l]|] eqn:Hf; cbn [mbind option_bind].
  - unfold nl. rewrite Split_Join.
    + rewrite (header_first_take _ _ _ Hf). cbn [mbind option_bind].
      assert (Hlt : (i < length (Split content newline))%nat)
        by (apply list_find_Some in Hf as [? _]; by eapply lookup_lt_Some).
      rewrite drop_app_length' by (rewrite length_take; lia). by rewrite injected_body.
    + destruct (Split content newline) eqn:E; [by apply Split_nonempty in E|done].
    + rewrite !Forall_app. split_and!; [by apply Forall_take|apply injected_no_newline|by apply Forall_drop].
  - unfold nl. rewrite Split_Join; [|done|].
    + cbn [list_find]. rewrite decide_True by done. cbn [mbind option_bind skipn default id].
      rewrite drop_0, injected_body. by destruct (String.eqb content "").
    + constructor; [by apply (bool_decide_unpack _)|]. rewrite Forall_app.
      split; [apply injected_no_newline|].
      case_match; constructor; try done; apply str_all_nil.
Qed.

Lemma merged_has_keys (content : string) (rconPort : Z) :
  exists sec, server_section (ensureGUSDefaults content rconPort) = Some sec /\
    has_key "RCONEnabled=" sec = true /\ has_key "RCONPort=" sec = true /\
    sec = injected (default [] (server_section content)) rconPort ++ user_section content.
Proof.
  eexists. split; [apply server_section_merged|]. unfold user_section.
  destruct (server_section content) as [sec|]; cbn [default id].
  - split_and!; [apply injected_has_keys..|done].
  - pose proof (injected_has_keys [] rconPort) as [H1 H2].
    rewrite app_nil_r in H1, H2. rewrite !has_key_app, H1, H2. done.
Qed.

(** whatever the user's file holds, the merged file has a [ServerSettings] section that sets
    both RCON keys; it consists of the keys the user's section misses, followed by the user's
    section. *)
Theorem ensureGUSDefaults_has_keys (content : string) (rconPort : Z) :
  exists sec, server_section (ensureGUSDefaults content rconPort) = Some sec /\
    has_key "RCONEnabled=" sec = true /\ has_key "RCONPort=" sec = true /\
    sec = injected (default [] (server_section content)) rconPort ++ user_section content.
Proof. apply merged_has_keys. Qed.

Lemma ensureGUSDefaults_complete content sec p :
  server_section content = Some sec -> has_key "RCONEnabled=" sec = true ->
  has_key "RCONPort=" sec = true -> ensureGUSDefaults content p = content.
Proof.
  intros Hs He Hp. rewrite ensureGUSDefaults_lines. unfold server_section in Hs.
  destruct (list_find _ _) as [[i l]|] eqn:Hf; [|done]. cbn in Hs. injection Hs as Hs. rewrite Hs.
  unfold injected. rewrite He, Hp. cbn [app]. by rewrite take_drop, Join_Split.
Qed.

(** merging twice is merging once, even when the RCON port of the map has changed in between:
    a port that is in the file is never replaced. *)
Theorem ensureGUSDefaults_idempotent (content : string) (p p' : Z) :
  ensureGUSDefaults (ensureGUSDefaults content p) p' = ensureGUSDefaults content p.
Proof.
  destruct (merged_has_keys content p) as (sec & Hs & He & Hp & _).
  by eapply ensureGUSDefaults_complete.
Qed.

(** The lines of the merged file. *)
Lemma merged_lines content p :
  content <> "" ->
  Split (ensureGUSDefaults content p) newline =
  match list_find (fun l => TrimSpace l = "[ServerSettings]") (Split content newline) with
  | None => "[ServerSettings]" :: injected [] p ++ "" :: Split content newline
  | Some (i, _) =>
      take (S i) (Split content newline) ++
      injected (section_body (drop (S i) (Split content newline))) p ++
      drop (S i) (Split content newline)
  end.
Proof.
  intros Hne. rewrite ensureGUSDefaults_lines. pose proof (Split_no_sep content newline) as Hsep.
  destruct (list_find _ _) as [[i l]|]; unfold nl.
  - apply Split_Join.
    + destruct (Split content newline) eqn:E; [by apply Split_nonempty in E|done].
    + rewrite !Forall_app. split_and!; [by apply Forall_take|apply injected_no_newline|by apply Forall_drop].
  - destruct (String.eqb_spec content ""); [done|]. apply Split_Join; [done|].
    constructor; [by apply (bool_decide_unpack _)|]. rewrite Forall_app.
    split; [apply injected_no_newline|]. constructor; [apply str_all_nil|done].
Qed.

Lemma list_find_here {A} (P : A -> Prop) `{!forall x, Decision (P x)} l1 x l2 :
  Forall (fun y => ~ P y) l1 -> P x -> list_find P (l1 ++ x :: l2) = Some (length l1, x).
Proof.
  intros Hall Hx. apply list_find_Some. split_and!; [by rewrite list_lookup_middle|done|].
  intros j y Hj Hlt. rewrite lookup_app_l in Hj by done. by eapply Forall_lookup_1 in Hall.
Qed.

(** C36: no line of the user's file is lost, changed or reordered: its lines are a subsequence of
    the lines of the merged file.  Nothing but the missing keys is added: directly after the
    first [ServerSettings] header come the keys that no line up to the next header sets, and no
    line when both are set; a file without that header gets it, both keys and an empty line in
    front of what it holds. *)
Theorem ensureGUSDefaults_preserves (content : string) (rconPort : Z) :
  content <> "" ->
  let user := Split content newline in
  let merged := Split (ensureGUSDefaults content rconPort) newline in
  let is_ss l := TrimSpace l = "[ServerSettings]" in
  let port := "RCONPort=" +:+ FormatInt rconPort in
  user `sublist_of` merged /\
  (forall before header after,
     user = before ++ header :: after -> is_ss header -> Forall (fun l => ~ is_ss l) before ->
     merged = before ++ header ::
       (if has_key "RCONEnabled=" (section_body after) then [] else ["RCONEnabled=True"]) ++
       (if has_key "RCONPort=" (section_body after) then [] else [port]) ++ after) /\
  (Forall (fun l => ~ is_ss l) user ->
     merged = ["[ServerSettings]"; "RCONEnabled=True"; port; ""] ++ user).
Proof.
  intros Hne user merged is_ss port. subst merged. rewrite merged_lines by done. fold user.
  split_and!.
  - destruct (list_find _ user) as [[i l]|].
    + rewrite <- (take_drop (S i) user) at 1. auto with ark.
    + apply sublist_cons, sublist_inserts_l, sublist_cons. done.
  - intros before header after -> Hh Hb.
    rewrite (list_find_here (fun l => TrimSpace l = "[ServerSettings]")) by done.
    rewrite drop_app_ge, take_app_ge by lia.
    replace (S (length before) - length before)%nat with 1%nat by lia. cbn [take drop skipn firstn].
    unfold injected. rewrite drop_0. by rewrite <- !app_assoc.
  - intros Hall. destruct (list_find _ user) as [[i l]|] eqn:E; [|done].
    apply list_find_Some in E as (Hl & Hp & _). eapply Forall_lookup_1 in Hall; [|exact Hl]. done.
Qed.

Definition demo_ini : string := "[ServerSettings]" +:+ nl +:+ "DifficultyOffset=1.0" +:+ nl.

Lemma ensureGUSDefaults_preserves_witness :
  Split (ensureGUSDefaults demo_ini 27020) newline =
  ["[ServerSettings]"; "RCONEnabled=True"; "RCONPort=27020"; "DifficultyOffset=1.0"; ""].
Proof.
  destruct (ensureGUSDefaults_preserves demo_ini 27020) as (_ & H & _); [done|].
  apply (H [] "[ServerSettings]" ["DifficultyOffset=1.0"; ""]); [reflexivity|reflexivity|constructor].
Defined.

Example ensureGUSDefaults_example :
  ensureGUSDefaults demo_ini 27020 =
  "[ServerSettings]" +:+ nl +:+ "RCONEnabled=True" +:+ nl +:+ "RCONPort=27020" +:+ nl +:+
  "DifficultyOffset=1.0" +:+ nl.
Proof. reflexivity. Qed.
