(* ===== verification/Resources.v ===== *)
(** * internal/reconcile: volume claims, the password secret and the service of a map

    [pvc.go], [secret.go] and [service.go].  Each function hands a callback to
    [CreateOrUpdate]; the callback is the definition [mutate_...]. *)

From S2P Require Import Prelude GoStd Digest Effects ApiTypes Kube Ark Ini.

Local Open Scope prog_scope.

(** [%q] of a string without characters to escape. *)
Definition quoted (s : string) : string :=
  String (ascii_of_nat 34) s +:+ String (ascii_of_nat 34) "".

(** ** Names *)

Definition PVCNameSaves (cluster mapID : string) : string :=
  cluster +:+ "-" +:+ MapSlug mapID +:+ "-saves".
Definition PVCNameServer (cluster mapID side : string) : string :=
  cluster +:+ "-" +:+ MapSlug mapID +:+ "-server-" +:+ side.
Definition PVCNameCluster (cluster : string) : string := cluster +:+ "-cluster".
Definition SecretsName (cluster : string) : string := cluster +:+ "-secrets".
Definition ServiceName (cluster mapID : string) : string := cluster +:+ "-" +:+ MapSlug mapID.

Section WithLib.
Context `{L : K8sLib}.

(** ** pvc.go *)

(** The callback of [ensurePVC]: the spec is set on create only. *)
Definition mutate_pvc (owner : ArkCluster) (size storageClass : string) (mode : AccessMode)
    (pvc : PVC) : res PVC :=
  let pvc :=
    match CreationTimestamp (pvc_meta pvc) with
    | None =>
        let pvc := pvc <| AccessModes := [mode] |> <| pvc_Storage := Some size |> in
        if negb (String.eqb storageClass "") then pvc <| StorageClassName := Some storageClass |> else pvc
    | Some _ => pvc
    end in
  let labelled := (pvc_meta pvc) <| Labels ::= insert "ark.watteel.com/cluster" (cluster_name owner) |> in
  match SetControllerReference owner labelled with
  | Err e => Err e
  | Ok m => Ok (pvc <| pvc_meta := m |>)
  end.

Definition ensurePVC (owner : ArkCluster) (name sizeStr storageClass : string) (mode : AccessMode)
    : kprog (res unit) :=
  match ParseQuantity sizeStr with
  | Err e => Ret (Err (wrap_err ("ensurePVC " +:+ name +:+ ": invalid size " +:+ quoted sizeStr) e))
  | Ok size =>
      let pvc := MkPVC (new_meta name (cluster_ns owner) ∅) [] None None in
      let* err := CreateOrUpdate KindPVC pvc (fun pvc => Ret (mutate_pvc owner size storageClass mode pvc)) in
      match err with
      | Err e => if negb (IsAlreadyExists e) then Ret (Err (wrap_err ("ensurePVC " +:+ name) e)) else Ret (Ok tt)
      | Ok _ => Ret (Ok tt)
      end
  end.

Definition EnsureSavesPVC (cluster : ArkCluster) (mapID : string) : kprog (res unit) :=
  ensurePVC cluster (PVCNameSaves (cluster_name cluster) mapID)
    (SavesPVCSize (Storage (Spec cluster))) (StorageClass (Storage (Spec cluster))) ReadWriteOnce.

Definition EnsureClusterPVC (cluster : ArkCluster) : kprog (res unit) :=
  let sc := ClusterStorageClass (Storage (Spec cluster)) in
  let sc := if String.eqb sc "" then "nfs-csi" else sc in
  ensurePVC cluster (PVCNameCluster (cluster_name cluster))
    (ClusterPVCSize (Storage (Spec cluster))) sc ReadWriteMany.

Definition EnsureServerPVC (cluster : ArkCluster) (mapID side : string) : kprog (res unit) :=
  ensurePVC cluster (PVCNameServer (cluster_name cluster) mapID side)
    (ServerPVCSize (Storage (Spec cluster))) (StorageClass (Storage (Spec cluster))) ReadWriteOnce.

(** ** secret.go *)

(** The callback of [EnsureAdminPasswordSecret]. *)
Definition mutate_secret (cluster : ArkCluster) (sec : Secret) : kprog (res Secret) :=
  let* data :=
    match secret_Data sec !! "adminPassword" with
    | Some _ => Ret (Ok (secret_Data sec))
    | None =>
        let* buf := kcall (RandRead 18) in
        match buf with
        | Err e => Ret (Err (wrap_err "rand" e))
        | Ok buf => Ret (Ok (<["adminPassword" := b64_encode buf]> (secret_Data sec)))
        end
    end in
  match data with
  | Err e => Ret (Err e)
  | Ok data =>
      let labelled := (secret_meta sec) <| Labels ::= insert "ark.watteel.com/cluster" (cluster_name cluster) |> in
      match SetControllerReference cluster labelled with
      | Err e => Ret (Err e)
      | Ok m => Ret (Ok (MkSecret m data "Opaque"))
      end
  end.

Definition EnsureAdminPasswordSecret (cluster : ArkCluster) : kprog (res unit) :=
  let sec := MkSecret (new_meta (SecretsName (cluster_name cluster)) (cluster_ns cluster) ∅) ∅ "" in
  let* err := CreateOrUpdate KindSecret sec (mutate_secret cluster) in
  match err with
  | Err e => if negb (IsAlreadyExists e) then Ret (Err e) else Ret (Ok tt)
  | Ok _ => Ret (Ok tt)
  end.

(** ** service.go *)

(** The assignments to [svc.Spec] in the callback of [EnsureService]. *)
Definition service_spec (cluster : ArkCluster) (mapID : string) (mapIndex : nat) (svc : KService)
    : KService :=
  let spec := Service (Spec cluster) in
  let gamePort := GamePort (GamePortStart spec) (Z.of_nat mapIndex) in
  let rconPort := RconPort (RconPortStart spec) (Z.of_nat mapIndex) in
  let svcType := match svc_Type spec with
                 | ServiceTypeUnset => ServiceTypeLoadBalancer
                 | t => t
                 end in
  let svc := svc <| ks_Type := svcType |>
    <| ks_Selector := <["ark.watteel.com/cluster" := cluster_name cluster]>
         (<["ark.watteel.com/map" := MapSlug mapID]> {["ark.watteel.com/role" := "server"]}) |>
    <| ks_Ports := [MkServicePort "game" gamePort (FromInt32 gamePort) ProtocolUDP;
                    MkServicePort "rcon" rconPort (FromInt32 rconPort) ProtocolTCP] |> in
  if decide (svcType = ServiceTypeLoadBalancer) then
    let etp := match ExternalTrafficPolicy spec with
               | TrafficPolicyUnset => TrafficPolicyCluster
               | p => p
               end in
    let svc := svc <| ks_TrafficPolicy := etp |> in
    match LoadBalancerIPs spec !! mapIndex with
    | Some ip => svc <| ks_LoadBalancerIP := ip |>
    | None => svc
    end
  else svc.

(** The callback of [EnsureService]. *)
Definition mutate_service (cluster : ArkCluster) (mapID : string) (mapIndex : nat) (svc : KService)
    : res KService :=
  let svc := service_spec cluster mapID mapIndex svc in
  let labelled := (service_meta svc) <| Labels ::= fun ls =>
    <["ark.watteel.com/map" := MapSlug mapID]>
      (<["ark.watteel.com/cluster" := cluster_name cluster]> ls) |> in
  match SetControllerReference cluster labelled with
  | Err e => Err e
  | Ok m => Ok (svc <| service_meta := m |>)
  end.

Definition EnsureService (cluster : ArkCluster) (mapID : string) (mapIndex : nat) : kprog (res unit) :=
  let svc := MkKService (new_meta (ServiceName (cluster_name cluster) mapID) (cluster_ns cluster) ∅)
    ServiceTypeUnset ∅ [] TrafficPolicyUnset "" [] in
  CreateOrUpdate KindService svc (fun svc => Ret (mutate_service cluster mapID mapIndex svc)).

End WithLib.

(** ** What they guarantee *)

(** a claim that exists keeps its access modes, size and storage class; a new one gets the
    requested ones, the storage class only when one is named; in both cases the claim is
    labelled with the cluster, keeps its name, and is owned by the cluster. *)
Theorem mutate_pvc_spec {L : K8sLib} {HL : K8sLaws L} owner size sc mode pvc pvc' :
  mutate_pvc owner size sc mode pvc = Ok pvc' ->
  (forall t, CreationTimestamp (pvc_meta pvc) = Some t ->
     AccessModes pvc' = AccessModes pvc /\ pvc_Storage pvc' = pvc_Storage pvc /\
     StorageClassName pvc' = StorageClassName pvc) /\
  (CreationTimestamp (pvc_meta pvc) = None ->
     AccessModes pvc' = [mode] /\ pvc_Storage pvc' = Some size /\
     StorageClassName pvc' = (if decide (sc = "") then StorageClassName pvc else Some sc)) /\
  Labels (pvc_meta pvc') !! "ark.watteel.com/cluster" = Some (cluster_name owner) /\
  Name (pvc_meta pvc') = Name (pvc_meta pvc) /\
  MkOwnerReference "ArkCluster" (cluster_name owner) true ∈ OwnerReferences (pvc_meta pvc').
Proof.
  unfold mutate_pvc. intros H. case_match eqn:Hset; inv H.
  apply SetControllerReference_owner in Hset as (Hn & _ & Hl & _ & _ & Ho). cbn in Hn, Hl |- *.
  rewrite Hn, Hl, lookup_insert_eq.
  destruct (CreationTimestamp (pvc_meta pvc)) as [t|]; cbn.
  - by split_and!.
  - destruct (String.eqb_spec sc ""), (decide (sc = "")); cbn; split_and!; done.
Qed.

Definition fresh_pvc (t : option Z) : PVC :=
  MkPVC ((new_meta "c-island-saves" "ns" ∅) <| CreationTimestamp := t |>) [ReadWriteMany]
    (Some "1Gi") None.

Lemma mutate_pvc_spec_witness :
  exists p, mutate_pvc (L := demo_lib) demo_cluster "20Gi" "fast" ReadWriteOnce (fresh_pvc None) = Ok p /\
    AccessModes p = [ReadWriteOnce] /\ StorageClassName p = Some "fast".
Proof.
  eexists. split; [reflexivity|].
  edestruct (mutate_pvc_spec (HL := demo_laws) demo_cluster "20Gi" "fast" ReadWriteOnce (fresh_pvc None))
    as (_ & H & _); [reflexivity|]. split; by apply H.
Defined.

(** *** The admin password *)

Lemma mutate_secret_exec {L : K8sLib} {HL : K8sLaws L} cluster sec tr sec' :
  exec (mutate_secret cluster sec) tr (Ok sec') ->
  match secret_Data sec !! "adminPassword" with
  | Some _ => tr = [] /\ secret_Data sec' = secret_Data sec
  | None => exists buf, tr = [Ev (RandRead 18) (Ok buf)] /\
      secret_Data sec' = <["adminPassword" := b64_encode buf]> (secret_Data sec)
  end.
Proof.
  unfold mutate_secret. intros H.
  destruct (secret_Data sec !! "adminPassword"); cbn in H.
  - case_match; exec_inv; [|done]. naive_solver.
  - exec_inv. destruct r as [buf|e]; [|by exec_inv]. exec_inv. repeat case_match; exec_inv; naive_solver.
Qed.

Lemma mutate_secret_no_write {L : K8sLib} cluster sec tr r y r' :
  exec (mutate_secret cluster sec) tr r -> Ev (CouEnd KindSecret y) r' ∉ tr.
Proof.
  unfold mutate_secret. intros H Hin. destruct (secret_Data sec !! _); cbn in H.
  - case_match; exec_inv; set_solver.
  - exec_inv. destruct r0; repeat case_match; exec_inv; set_solver.
Qed.

(** C25: in every execution, the secret that is written holds the password it held before,
    whatever the user put there, and every other key is kept; when it held none, the password is
    the URL-safe base64 text of 18 bytes read from the random generator: 24 characters. *)
Theorem password_never_overwritten {L : K8sLib} {HL : K8sLaws L} cluster tr r sec' r' :
  exec (EnsureAdminPasswordSecret cluster) tr r ->
  Ev (CouEnd KindSecret sec') r' ∈ tr ->
  exists o sec, Ev (CouBegin KindSecret o) (Ok sec) ∈ tr /\
    delete "adminPassword" (secret_Data sec') = delete "adminPassword" (secret_Data sec) /\
    match secret_Data sec !! "adminPassword" with
    | Some pw => secret_Data sec' !! "adminPassword" = Some pw
    | None => exists buf, Ev (RandRead 18) (Ok buf) ∈ tr /\
        secret_Data sec' !! "adminPassword" = Some (b64_encode buf) /\
        (length buf = 18%nat -> Forall (fun z => 0 <= z < 256) buf ->
         String.length (b64_encode buf) = 24%nat /\ str_all (fun c => is_b64 c = true) (b64_encode buf))
    end.
Proof.
  unfold EnsureAdminPasswordSecret. intros (tr1 & err & tr2 & -> & H & H2)%exec_bind_inv Hin.
  assert (tr2 = []) as -> by (repeat case_match; by exec_inv). rewrite app_nil_r in *.
  apply CreateOrUpdate_exec in H as [(e & -> & _)|[(x & tr' & e & Hm & -> & _)|(x & y & tr' & Hm & ->)]].
  - set_solver.
  - exfalso. apply elem_of_cons in Hin as [|Hin]; [done|].
    eapply mutate_secret_no_write; eauto.
  - assert (y = sec') as ->.
    { rewrite elem_of_cons, elem_of_app, list_elem_of_singleton in Hin.
      destruct Hin as [?|[Hin|Heq]]; [done| |].
      - exfalso. eapply mutate_secret_no_write; eauto.
      - by apply CouEnd_inj in Heq. }
    eexists _, x. split; [by left|]. apply mutate_secret_exec in Hm.
    destruct (secret_Data x !! "adminPassword") as [pw|] eqn:E.
    + destruct Hm as [-> ->]. done.
    + destruct Hm as (buf & -> & ->). rewrite delete_insert_eq. split; [done|].
      exists buf. split; [set_solver|]. rewrite lookup_insert_eq. split; [done|]. intros Hlen Hb.
      by apply (b64_encode_groups 6).
Qed.

(** A secret with a password of the user. *)
Definition user_secret : Secret :=
  MkSecret (new_meta "c-secrets" "ns" ∅) {["adminPassword" := "hunter2"]} "".
Definition user_secret_run : list kevent * res unit :=
  run_with (demo_stored KindSecret user_secret) (EnsureAdminPasswordSecret (L := demo_lib) demo_cluster).

Lemma password_never_overwritten_witness :
  exists sec', Ev (CouEnd KindSecret sec') (Ok tt) ∈ user_secret_run.1 /\
    secret_Data sec' !! "adminPassword" = Some "hunter2".
Proof.
  eexists. split; [right; left|].
  edestruct (password_never_overwritten (HL := demo_laws) demo_cluster user_secret_run.1
    user_secret_run.2) as (o & s & Hin & _ & H); [apply run_with_exec|right; left|].
  reflexivity.
Defined.

(** *** The names of the claims *)

Definition map_claims (cluster mapID : string) : list string :=
  [PVCNameSaves cluster mapID; PVCNameServer cluster mapID "a"; PVCNameServer cluster mapID "b"].

Lemma last_byte_app p a s : last (bytes_of (p +:+ String a s)) = last (bytes_of (String a s)).
Proof. rewrite bytes_of_app. apply last_app_cons. Qed.

(** The last byte tells the four kinds of claims apart. *)
Lemma claim_kinds cluster m :
  last (bytes_of (PVCNameSaves cluster m)) = Some "s"%char /\
  last (bytes_of (PVCNameServer cluster m "a")) = Some "a"%char /\
  last (bytes_of (PVCNameServer cluster m "b")) = Some "b"%char /\
  last (bytes_of (PVCNameCluster cluster)) = Some "r"%char.
Proof.
  unfold PVCNameSaves, PVCNameServer, PVCNameCluster. split_and!.
  - rewrite <- !str_app_assoc. apply last_byte_app.
  - rewrite <- !str_app_assoc. by rewrite last_byte_app.
  - rewrite <- !str_app_assoc. by rewrite last_byte_app.
  - by rewrite last_byte_app.
Qed.

Lemma claim_slug cluster m m' n :
  n ∈ map_claims cluster m -> n ∈ map_claims cluster m' -> MapSlug m = MapSlug m'.
Proof.
  destruct (claim_kinds cluster m) as (H1 & H2 & H3 & _), (claim_kinds cluster m') as (H1' & H2' & H3' & _).
  unfold map_claims. rewrite !elem_of_cons, !elem_of_nil.
  assert (Hinj : forall t, cluster +:+ "-" +:+ MapSlug m +:+ t = cluster +:+ "-" +:+ MapSlug m' +:+ t ->
    MapSlug m = MapSlug m').
  { intros t H. do 2 apply str_app_inj_l in H. by apply str_app_inj_r in H. }
  intros [->|[->|[->|[]]]] [H|[H|[H|[]]]]; try congruence; by apply Hinj in H.
Qed.

(** as long as the slugs of the maps differ, no two claims of a cluster share a name: not the
    saves, the two server volumes, nor the claim the maps transfer characters through. *)
Theorem claim_names_distinct (cluster : string) (maps : list string) :
  NoDup (MapSlug <$> maps) ->
  NoDup (PVCNameCluster cluster :: (maps ≫= map_claims cluster)).
Proof.
  intros Hnd. apply NoDup_cons. split.
  - intros (m & Hin & _)%list_elem_of_bind.
    destruct (claim_kinds cluster m) as (H1 & H2 & H3 & H4). unfold map_claims in Hin.
    rewrite !elem_of_cons, elem_of_nil in Hin. destruct Hin as [H|[H|[H|[]]]]; congruence.
  - induction maps as [|m maps IH]; [constructor|]. cbn in Hnd |- *.
    apply NoDup_cons in Hnd as [Hm Hnd].
    change (NoDup (map_claims cluster m ++ (maps ≫= map_claims cluster))).
    apply NoDup_app. split_and!; [| |by apply IH].
    + destruct (claim_kinds cluster m) as (H1 & H2 & H3 & _). unfold map_claims.
      rewrite !NoDup_cons, !elem_of_cons, !elem_of_nil.
      split_and!; try (intros Hc; repeat destruct Hc as [Hc|Hc]; congruence). constructor.
    + intros n Hn (m' & Hn' & Hin')%list_elem_of_bind. apply Hm.
      rewrite (claim_slug _ _ _ _ Hn Hn'). by apply list_elem_of_fmap_2.
Qed.

Lemma claim_names_distinct_witness :
  NoDup (PVCNameCluster "c" :: (["TheIsland_WP"; "ScorchedEarth_WP"] ≫= map_claims "c")).
Proof. apply claim_names_distinct. by apply (bool_decide_unpack _). Defined.

(** *** Calling again *)

(** The object as the server hands it back: with a creation time. *)
Definition stamped (t : Z) (m : ObjectMeta) : ObjectMeta := m <| CreationTimestamp := Some t |>.

Lemma insert_again (k v : string) (ls : strmap) : <[k := v]> (<[k := v]> ls) = <[k := v]> ls.
Proof. apply insert_insert_eq. Qed.

Lemma insert2_again (k k' v v' : string) (ls : strmap) :
  <[k := v]> (<[k' := v']> (<[k := v]> (<[k' := v']> ls))) = <[k := v]> (<[k' := v']> ls).
Proof.
  destruct (decide (k = k')) as [->|]; [by rewrite !insert_insert_eq|].
  rewrite (insert_insert_ne _ k' k) by done. by rewrite !insert_insert_eq.
Qed.

Section Again.
Context {L : K8sLib} {HL : K8sLaws L}.
#[local] Set Default Proof Using "All".

(** Labelling and owning what is labelled and owned. *)
Lemma owner_again cluster (f : strmap -> strmap) m m' m2 :
  SetControllerReference cluster (m <| Labels ::= f |>) = Ok m' ->
  (forall ls, f (f ls) = f ls) ->
  Namespace m2 = Namespace m' -> OwnerReferences m2 = OwnerReferences m' -> Labels m2 = Labels m' ->
  SetControllerReference cluster (m2 <| Labels ::= f |>) = Ok m2.
Proof.
  intros Hset Hf Hn Ho Hl.
  pose proof (SetControllerReference_owner _ _ _ Hset) as (_ & _ & Hl' & _). cbn in Hl'.
  assert (m2 <| Labels ::= f |> = m2) as ->.
  { destruct m2; cbn in *. by rewrite Hl, Hl', Hf. }
  by eapply SetControllerReference_again.
Qed.

Lemma mutate_pvc_again owner size sc mode pvc pvc' t :
  mutate_pvc owner size sc mode pvc = Ok pvc' ->
  let pvc' := pvc' <| pvc_meta ::= stamped t |> in
  mutate_pvc owner size sc mode pvc' = Ok pvc'.
Proof.
  unfold mutate_pvc. intros H. case_match eqn:Hset; inv H.
  pose proof (owner_again _ _ _ _ (stamped t a) Hset) as Ha. cbn in Ha |- *.
  by rewrite Ha by (apply insert_again || done).
Qed.

Lemma service_spec_again cluster mapID i svc m :
  service_spec cluster mapID i ((service_spec cluster mapID i svc) <| service_meta := m |>)
  = (service_spec cluster mapID i svc) <| service_meta := m |>.
Proof. unfold service_spec. repeat case_match; done. Qed.

Lemma mutate_service_again cluster mapID i svc svc' t :
  mutate_service cluster mapID i svc = Ok svc' ->
  let svc' := svc' <| service_meta ::= stamped t |> in
  mutate_service cluster mapID i svc' = Ok svc'.
Proof.
  unfold mutate_service. intros H. case_match eqn:Hset; inv H.
  pose proof (service_spec_again cluster mapID i svc (stamped t a)) as Hs.
  pose proof (owner_again _ _ _ _ (stamped t a) Hset) as Ha. cbn in Hs, Ha |- *. rewrite Hs. cbn.
  by rewrite Ha by (intros; apply insert2_again || done).
Qed.

Lemma mutate_cm_again cluster key content cm cm' t :
  mutate_cm cluster key content cm = Ok cm' ->
  let cm' := cm' <| cm_meta ::= stamped t |> in
  mutate_cm cluster key content cm' = Ok cm'.
Proof.
  unfold mutate_cm. intros H. case_match eqn:Hset; inv H.
  pose proof (owner_again _ _ _ _ (stamped t a) Hset) as Ha. cbn in Ha |- *.
  by rewrite Ha, insert_again by (apply insert_again || done).
Qed.

Lemma mutate_secret_again cluster sec tr sec' t :
  exec (mutate_secret cluster sec) tr (Ok sec') ->
  let sec' := sec' <| secret_meta ::= stamped t |> in
  exec (mutate_secret cluster sec') [] (Ok sec').
Proof.
  intros H.
  assert (exists v, secret_Data sec' !! "adminPassword" = Some v) as [v Hv].
  { apply mutate_secret_exec in H. destruct (secret_Data sec !! "adminPassword") as [v|] eqn:E.
    - destruct H as [_ ->]. by exists v.
    - destruct H as (buf & _ & ->). exists (b64_encode buf). apply lookup_insert_eq. }
  unfold mutate_secret in *. cbn. rewrite Hv. cbn.
  apply exec_bind_inv in H as (tr1 & [d|e] & tr2 & -> & _ & H); [|by exec_inv].
  case_match eqn:Hset; exec_inv; [|done]. match goal with E : Ok _ = Ok _ |- _ => inv E end. cbn.
  pose proof (owner_again _ _ _ _ (stamped t a) Hset) as Ha. cbn in Ha |- *.
  rewrite Ha by (apply insert_again || done). constructor.
Qed.

End Again.

(** calling an [Ensure] function again changes nothing: what its callback made of an object,
    once the server has stored and stamped it, is a fixed point of the same callback, for the
    claims, the services, the INI ConfigMaps and the password secret; and the secret's callback
    then generates no password. *)
Theorem ensure_again {L : K8sLib} {HL : K8sLaws L} (cluster : ArkCluster) (t : Z) :
  (forall size sc mode pvc pvc', mutate_pvc cluster size sc mode pvc = Ok pvc' ->
     let stored := pvc' <| pvc_meta ::= stamped t |> in
     mutate_pvc cluster size sc mode stored = Ok stored) /\
  (forall mapID i svc svc', mutate_service cluster mapID i svc = Ok svc' ->
     let stored := svc' <| service_meta ::= stamped t |> in
     mutate_service cluster mapID i stored = Ok stored) /\
  (forall key content cm cm', mutate_cm cluster key content cm = Ok cm' ->
     let stored := cm' <| cm_meta ::= stamped t |> in
     mutate_cm cluster key content stored = Ok stored) /\
  (forall sec tr sec', exec (mutate_secret cluster sec) tr (Ok sec') ->
     let stored := sec' <| secret_meta ::= stamped t |> in
     exec (mutate_secret cluster stored) [] (Ok stored)).
Proof.
  split_and!; intros *;
    [apply mutate_pvc_again|apply mutate_service_again|apply mutate_cm_again|apply mutate_secret_again].
Qed.

Lemma ensure_again_witness :
  let pvc := (fresh_pvc None) in
  exists pvc', mutate_pvc (L := demo_lib) demo_cluster "20Gi" "" ReadWriteOnce pvc = Ok pvc' /\
    let stored := pvc' <| pvc_meta ::= stamped 7 |> in
    mutate_pvc (L := demo_lib) demo_cluster "20Gi" "" ReadWriteOnce stored = Ok stored.
Proof.
  intros pvc. eexists. split; [reflexivity|].
  apply (ensure_again (HL := demo_laws) demo_cluster 7) with (pvc := pvc). reflexivity.
Defined.
