(* ===== verification/Workload.v ===== *)
(** * internal/reconcile: the server pod and the install job of a map

    [pod.go] and [job.go].  [BuildServerPod] is a pure function of the cluster and of the map;
    [EnsureInitJob] and [InitJobStatus] call the API server. *)

From S2P Require Import Prelude GoStd Digest Effects ApiTypes Kube Ark Ini Resources.

Local Open Scope prog_scope.

(** ** pod.go *)

Record PodInput := MkPodInput {
  pi_Cluster : ArkCluster;
  pi_MapID : string;
  pi_MapIndex : Z;
  pi_FriendlyMap : string;
  pi_ActiveVolume : string;
  pi_Hash : string }.

Definition PodName (cluster mapID hash : string) : string :=
  let hash := if String.eqb hash "" then "0" else hash in
  let hash := if (8 <? String.length hash)%nat then str_take 8 hash else hash in
  cluster +:+ "-" +:+ MapSlug mapID +:+ "-" +:+ hash.

Definition volumeSide (activeVolume : string) : string :=
  if String.eqb activeVolume "server-b" then "b" else "a".

Definition modsCSV (mods : list Z) : string :=
  match mods with
  | [] => ""
  | m :: ms => foldl (fun out m => out +:+ "," +:+ FormatInt m) (FormatInt m) ms
  end.

Definition serverPasswordSource (sel : option SecretKeySelector) : option SecretKeySelector := sel.

Definition adminPasswordSource (sel : option SecretKeySelector) (fallbackSecretName : string)
    : option SecretKeySelector :=
  match sel with
  | Some s => Some s
  | None => Some (MkSecretKeySelector fallbackSecretName "adminPassword")
  end.

Definition default_image (cluster : ArkCluster) : string :=
  if String.eqb (Image (Spec cluster)) "" then "docker.io/sknnr/ark-ascended-server:latest"
  else Image (Spec cluster).

Definition default_psc (cluster : ArkCluster) : option PodSecurityContext :=
  match SecurityContext (Spec cluster) with
  | Some psc => Some psc
  | None => Some (MkPodSecurityContext (Some 10000) (Some 10000) (Some 10000))
  end.

(** The mods a map runs: its own replace the global ones. *)
Definition pod_mods (cluster : ArkCluster) (mapID : string) : list Z :=
  match findMap cluster mapID with
  | Some ms => match map_Mods ms with [] => Mods (Global (Spec cluster)) | l => l end
  | None => Mods (Global (Spec cluster))
  end.

Definition plain_env (name value : string) : EnvVar := MkEnvVar name value None.

(** [rcon -a 127.0.0.1:${RCON_PORT} -p "${SERVER_ADMIN_PASSWORD}" <cmd>]. *)
Definition rcon_cmd (cmd : string) : string :=
  "rcon -a 127.0.0.1:${RCON_PORT} -p " +:+ quoted "${SERVER_ADMIN_PASSWORD}" +:+ " " +:+ cmd.

Definition config_dir : string := "/home/steam/ark/ShooterGame/Saved/Config/WindowsServer/".

Definition ark_env (i : PodInput) : list EnvVar :=
  let cluster := pi_Cluster i in
  let gs := Global (Spec cluster) in
  let gamePort := GamePort (GamePortStart (Service (Spec cluster))) (pi_MapIndex i) in
  let rconPort := RconPort (RconPortStart (Service (Spec cluster))) (pi_MapIndex i) in
  let mods := pod_mods cluster (pi_MapID i) in
  let extraFlags := ExtraFlags (MkExtraFlagsInput "/srv/ark/cluster" (ClusterID (Spec cluster))
    mods (BattlEye gs) (AllowedPlatforms gs) (ComposeExtraOptions gs)) in
  [plain_env "SESSION_NAME"
     (SessionName (SessionNameFormat gs) (cluster_name cluster) (pi_MapID i) (pi_FriendlyMap i));
   plain_env "SERVER_MAP" (pi_MapID i);
   plain_env "GAME_PORT" (FormatInt gamePort);
   plain_env "RCON_PORT" (FormatInt rconPort);
   plain_env "EXTRA_SETTINGS" (ExtraSettings gs rconPort);
   plain_env "EXTRA_FLAGS" extraFlags;
   plain_env "MODS" (modsCSV mods);
   MkEnvVar "SERVER_PASSWORD" "" (serverPasswordSource (ServerPassword gs));
   MkEnvVar "SERVER_ADMIN_PASSWORD" ""
     (adminPasswordSource (AdminPassword gs) (SecretsName (cluster_name cluster)))].

Definition ark_container (i : PodInput) : Container :=
  let cluster := pi_Cluster i in
  let gamePort := GamePort (GamePortStart (Service (Spec cluster))) (pi_MapIndex i) in
  let rconPort := RconPort (RconPortStart (Service (Spec cluster))) (pi_MapIndex i) in
  {| ctr_Name := "ark";
     ctr_Image := default_image cluster;
     ImagePullPolicy := "IfNotPresent";
     Command := [];
     Args := [];
     Env := ark_env i;
     ctr_Ports := [MkContainerPort "game" gamePort ProtocolUDP;
                   MkContainerPort "rcon" rconPort ProtocolTCP];
     ctr_Resources := Resources (Spec cluster);
     StartupProbe := Some (MkProbe (TCPSocket (FromString "rcon")) 60 10 0 60);
     ReadinessProbe := Some (MkProbe (TCPSocket (FromString "rcon")) 0 15 10 4);
     LivenessProbe := Some (MkProbe (ExecAction ["/bin/sh"; "-c"; rcon_cmd "ListPlayers"]) 0 30 10 10);
     PreStop := Some ["/bin/sh"; "-c";
       rcon_cmd "SaveWorld" +:+ "; " +:+ rcon_cmd "DoExit" +:+ "; sleep 1"];
     VolumeMounts :=
       [MkVolumeMount "server" "/home/steam/ark" "" false;
        MkVolumeMount "saves" "/home/steam/ark/ShooterGame/Saved" "" false;
        MkVolumeMount "cluster-xfer" "/srv/ark/cluster" "" false;
        MkVolumeMount "gus-ini" (config_dir +:+ "GameUserSettings.ini") "GameUserSettings.ini" true;
        MkVolumeMount "game-ini" (config_dir +:+ "Game.ini") "Game.ini" true] |}.

Definition BuildServerPod (i : PodInput) : Pod :=
  let cluster := pi_Cluster i in
  let name := cluster_name cluster in
  let meta := new_meta (PodName name (pi_MapID i) (pi_Hash i)) (cluster_ns cluster)
    (list_to_map
      [("ark.watteel.com/cluster", name);
       ("ark.watteel.com/map", MapSlug (pi_MapID i));
       ("ark.watteel.com/role", "server");
       ("ark.watteel.com/active-volume", pi_ActiveVolume i);
       ("ark.watteel.com/pod-template-hash", pi_Hash i)]) in
  let spec :=
    {| pod_RestartPolicy := RestartPolicyAlways;
       TerminationGracePeriodSeconds := Some 1800;
       pod_SecurityContext := default_psc cluster;
       pod_NodeSelector := NodeSelector (Spec cluster);
       pod_Tolerations := Tolerations (Spec cluster);
       Containers := [ark_container i];
       Volumes :=
         [MkVolume "server" (PVCSource (PVCNameServer name (pi_MapID i) (volumeSide (pi_ActiveVolume i))));
          MkVolume "saves" (PVCSource (PVCNameSaves name (pi_MapID i)));
          MkVolume "cluster-xfer" (PVCSource (PVCNameCluster name));
          MkVolume "gus-ini" (ConfigMapSource (GUSConfigMapName name (pi_MapID i)));
          MkVolume "game-ini" (ConfigMapSource (GameConfigMapName name (pi_MapID i)))] |} in
  MkPod meta spec (MkPodStatus [] []).

(** ** job.go *)

Definition arkAppID : string := "2430930".

Definition installIdentity (cluster : ArkCluster) : string :=
  hex_encode (take 4 (Sum256 (default_image cluster +:+ "|" +:+ arkAppID))).

Definition InitJobName (cluster : ArkCluster) (mapID side : string) : string :=
  cluster_name cluster +:+ "-" +:+ MapSlug mapID +:+ "-init-" +:+ side +:+ "-" +:+ installIdentity cluster.

Definition backslash_nl : string := String (ascii_of_nat 92) nl.

Definition install_script : string :=
  "set -euo pipefail" +:+ nl +:+
  "steamcmd " +:+ backslash_nl +:+
  "  +@sSteamCmdForcePlatformType windows " +:+ backslash_nl +:+
  "  +force_install_dir /home/steam/ark " +:+ backslash_nl +:+
  "  +login anonymous " +:+ backslash_nl +:+
  "  +app_update " +:+ arkAppID +:+ " validate " +:+ backslash_nl +:+
  "  +quit".

(** The job [EnsureInitJob] builds. *)
Definition init_job (cluster : ArkCluster) (mapID side : string) : Job :=
  {| job_meta := new_meta (InitJobName cluster mapID side) (cluster_ns cluster)
       (list_to_map
         [("ark.watteel.com/cluster", cluster_name cluster);
          ("ark.watteel.com/map", MapSlug mapID);
          ("ark.watteel.com/role", "init");
          ("ark.watteel.com/side", side)]);
     BackoffLimit := 3;
     TTLSecondsAfterFinished := 3600;
     job_Template :=
       {| pod_RestartPolicy := RestartPolicyOnFailure;
          TerminationGracePeriodSeconds := None;
          pod_SecurityContext := default_psc cluster;
          pod_NodeSelector := ∅;
          pod_Tolerations := [];
          Containers := [
            {| ctr_Name := "install"; ctr_Image := default_image cluster; ImagePullPolicy := "";
               Command := ["/bin/bash"; "-c"]; Args := [install_script]; Env := [];
               ctr_Ports := []; ctr_Resources := MkResourceRequirements ∅ ∅;
               StartupProbe := None; ReadinessProbe := None; LivenessProbe := None; PreStop := None;
               VolumeMounts := [MkVolumeMount "server" "/home/steam/ark" "" false] |}];
          Volumes := [MkVolume "server" (PVCSource (PVCNameServer (cluster_name cluster) mapID side))] |};
     job_Conditions := [] |}.

Definition EnsureInitJob `{L : K8sLib} (cluster : ArkCluster) (mapID side : string) : kprog (res bool) :=
  let* existing := kcall (Get KindJob (cluster_ns cluster) (InitJobName cluster mapID side)) in
  match existing with
  | Ok _ => Ret (Ok false)
  | Err e =>
      if negb (IsNotFound e) then Ret (Err e)
      else
        let job := init_job cluster mapID side in
        match SetControllerReference cluster (job_meta job) with
        | Err e => Ret (Err e)
        | Ok m =>
            let job := MkJob m (BackoffLimit job) (TTLSecondsAfterFinished job) (job_Template job)
                         (job_Conditions job) in
            let* err := kcall (Create KindJob job) in
            match err with
            | Err e => if IsAlreadyExists e then Ret (Ok false) else Ret (Err e)
            | Ok _ => Ret (Ok true)
            end
        end
  end.

(** The loop of [InitJobStatus] over the conditions. *)
Fixpoint job_verdict (conds : list JobCondition) : string :=
  match conds with
  | [] => "Running"
  | c :: conds =>
      if String.eqb (jc_Type c) "Complete" && String.eqb (jc_Status c) "True" then "Succeeded"
      else if String.eqb (jc_Type c) "Failed" && String.eqb (jc_Status c) "True" then "Failed"
      else job_verdict conds
  end.

Definition InitJobStatus (cluster : ArkCluster) (mapID side : string) : kprog string :=
  let* got := kcall (Get KindJob (cluster_ns cluster) (InitJobName cluster mapID side)) in
  match got with
  | Err e => if IsNotFound e then Ret "NotFound" else Ret "Failed"
  | Ok job => Ret (job_verdict (job_Conditions job))
  end.

(** ** The mods a pod is given *)

Lemma foldl_join ms acc :
  foldl (fun out m => out +:+ "," +:+ FormatInt m) acc ms = Join (acc :: map FormatInt ms) ",".
Proof.
  revert acc. induction ms as [|m ms IH]; intros acc; [done|]. cbn [foldl map]. rewrite IH.
  rewrite (Join_cons acc) by done. destruct ms as [|m' ms]; [done|]. cbn [map].
  rewrite !(Join_cons _ (_ :: _)) by done. by rewrite !str_app_assoc.
Qed.

(** [modsCSV] is the join that [ExtraFlags] writes after [-mods=]. *)
Lemma modsCSV_join ms : modsCSV ms = Join (map FormatInt ms) ",".
Proof. destruct ms as [|m ms]; [done|]. cbn [modsCSV]. by rewrite foldl_join. Qed.

(** ** The service, the job and the pod of a map fit together *)

(** C27: the service of a map selects its pod: every label it asks for is on the pod; its ports
    are the container's, under the same names and protocols; the pod is told the same two ports
    in its environment; and the port name the probes dial is one of the container's. *)
Theorem service_reaches_pod {L : K8sLib} (i : nat) (inp : PodInput) (svc svc' : KService) :
  pi_MapIndex inp = Z.of_nat i ->
  mutate_service (pi_Cluster inp) (pi_MapID inp) i svc = Ok svc' ->
  let pod := BuildServerPod inp in
  ks_Selector svc' ⊆ Labels (pod_meta pod) /\
  exists c, Containers (pod_Spec pod) = [c] /\
    ks_Ports svc' = (fun p => MkServicePort (port_Name p) (port_ContainerPort p)
      (FromInt32 (port_ContainerPort p)) (port_Protocol p)) <$> ctr_Ports c /\
    (forall p, p ∈ ctr_Ports c ->
       plain_env (if decide (port_Name p = "game") then "GAME_PORT" else "RCON_PORT")
         (FormatInt (port_ContainerPort p)) ∈ Env c) /\
    "rcon" ∈ port_Name <$> ctr_Ports c.
Proof.
  intros Hi. unfold mutate_service. intros H. case_match; inv H. split.
  - cbn. replace (ks_Selector _) with (ks_Selector (service_spec (pi_Cluster inp) (pi_MapID inp) i svc))
      by done.
    assert (ks_Selector (service_spec (pi_Cluster inp) (pi_MapID inp) i svc) =
      <["ark.watteel.com/cluster" := cluster_name (pi_Cluster inp)]>
         (<["ark.watteel.com/map" := MapSlug (pi_MapID inp)]> {["ark.watteel.com/role" := "server"]}))
      as -> by (unfold service_spec; repeat case_match; done).
    cbn. do 2 apply insert_mono. apply map_singleton_subseteq_l. by rewrite lookup_insert_eq.
  - eexists. split; [done|]. cbn. split_and!.
    + rewrite Hi. unfold service_spec; repeat case_match; done.
    + intros p. rewrite !elem_of_cons, elem_of_nil. intros [->|[->|[]]]; cbn; set_solver.
    + set_solver.
Qed.

Definition demo_input : PodInput := MkPodInput demo_cluster "TheIsland_WP" 0 "The Island" "server-a" "h".
Definition fresh_service : KService :=
  MkKService (new_meta "c-island" "ns" ∅) ServiceTypeUnset ∅ [] TrafficPolicyUnset "" [].

Lemma service_reaches_pod_witness :
  exists svc', mutate_service (L := demo_lib) demo_cluster "TheIsland_WP" 0 fresh_service = Ok svc' /\
    ks_Selector svc' ⊆ Labels (pod_meta (BuildServerPod demo_input)).
Proof.
  eexists. split; [reflexivity|].
  apply (service_reaches_pod (L := demo_lib) 0 demo_input fresh_service); reflexivity.
Defined.

Definition claims_of (p : PodSpec) : list string :=
  Volumes p ≫= fun v => match vol_Source v with PVCSource n => [n] | _ => [] end.

(** Every mount of the server container has its volume; the claims behind the volumes are
    among those made for the map and the cluster, and the files behind the two INI mounts are the
    keys written to the map's two ConfigMaps. *)
Theorem pod_mounts (inp : PodInput) :
  let cluster := cluster_name (pi_Cluster inp) in
  let spec := pod_Spec (BuildServerPod inp) in
  NoDup (vol_Name <$> Volumes spec) /\
  (forall c m, c ∈ Containers spec -> m ∈ VolumeMounts c ->
     exists v, v ∈ Volumes spec /\ vol_Name v = mount_Name m /\
       match vol_Source v with
       | PVCSource n => n ∈ PVCNameCluster cluster :: map_claims cluster (pi_MapID inp)
       | ConfigMapSource n =>
           (n, SubPath m) ∈ [(GUSConfigMapName cluster (pi_MapID inp), "GameUserSettings.ini");
                             (GameConfigMapName cluster (pi_MapID inp), "Game.ini")] /\
           ReadOnly m = true
       end).
Proof.
  intros cluster spec. split; [by apply (bool_decide_unpack _)|].
  intros c m. cbn. rewrite elem_of_cons, elem_of_nil. intros [->|[]]. cbn.
  rewrite !elem_of_cons, elem_of_nil. intros [->|[->|[->|[->|[->|[]]]]]]; cbn.
  - eexists. split; [left|]. split; [done|]. cbn. unfold map_claims, volumeSide. case_match; set_solver.
  - eexists. split; [right; left|]. split; [done|]. cbn. unfold map_claims. set_solver.
  - eexists. split; [do 2 right; left|]. split; [done|]. cbn. set_solver.
  - eexists. split; [do 3 right; left|]. split; [done|]. cbn. split; [left|done].
  - eexists. split; [do 4 right; left|]. split; [done|]. cbn. split; [right; left|done].
Qed.

(** C28: the install job of a side and the pod that runs on that side agree: same image, same
    claim, mounted at the same path; and the job touches no other claim, so neither the saves nor
    the other side. *)
Theorem job_installs_for_pod (inp : PodInput) :
  let side := volumeSide (pi_ActiveVolume inp) in
  let job := job_Template (init_job (pi_Cluster inp) (pi_MapID inp) side) in
  let pod := pod_Spec (BuildServerPod inp) in
  ctr_Image <$> Containers job = ctr_Image <$> Containers pod /\
  claims_of job = [PVCNameServer (cluster_name (pi_Cluster inp)) (pi_MapID inp) side] /\
  (forall n, n ∈ claims_of job -> n ∈ claims_of pod) /\
  (forall c m v, c ∈ Containers job -> m ∈ VolumeMounts c -> v ∈ Volumes job ->
     exists c' m', c' ∈ Containers pod /\ m' ∈ VolumeMounts c' /\ v ∈ Volumes pod /\
       mount_Name m' = vol_Name v /\ MountPath m' = MountPath m) /\
  pod_SecurityContext job = pod_SecurityContext pod.
Proof.
  cbn. split_and!; [done..| | |done].
  - unfold claims_of. cbn. set_solver.
  - intros c m v ->%list_elem_of_singleton ->%list_elem_of_singleton ->%list_elem_of_singleton.
    eexists (ark_container inp), _. split; [left|]. split; [left|]. by split; [left|].
Qed.

(** ** The install job *)

(** the install job of a side is created at most once per image: the name depends on the
    cluster's name, the map's slug, the side and the image only, whatever else the spec holds and
    whatever the generation; [EnsureInitJob] creates that job only when the server has none of
    that name, reports [true] exactly when it created it, and counts a job that appeared in
    between as success. *)
Theorem EnsureInitJob_once {L : K8sLib} {HL : K8sLaws L} cluster mapID side tr r :
  exec (EnsureInitJob cluster mapID side) tr r ->
  (forall cluster', cluster_name cluster' = cluster_name cluster ->
     Image (Spec cluster') = Image (Spec cluster) ->
     InitJobName cluster' mapID side = InitJobName cluster mapID side) /\
  exists g, let get := Ev (Get KindJob (cluster_ns cluster) (InitJobName cluster mapID side)) g in
    (tr = [get] /\ match g with
       | Ok _ => r = Ok false
       | Err e => exists e', r = Err e' /\ (e' = e /\ err_reason e <> ReasonNotFound \/
           SetControllerReference cluster (job_meta (init_job cluster mapID side)) = Err e')
       end) \/
    (exists e job a, g = Err e /\ err_reason e = ReasonNotFound /\
       tr = [get; Ev (Create KindJob job) a] /\
       Name (job_meta job) = InitJobName cluster mapID side /\
       Namespace (job_meta job) = cluster_ns cluster /\
       job_Template job = job_Template (init_job cluster mapID side) /\
       r = match a with
           | Ok _ => Ok true
           | Err e => if decide (err_reason e = ReasonAlreadyExists) then Ok false else Err e
           end).
Proof.
  intros H. split.
  { intros c' Hn Hi. unfold InitJobName, installIdentity, default_image. by rewrite Hn, Hi. }
  unfold EnsureInitJob in H. exec_inv. exists a. cbn. destruct a as [j|e]; [exec_inv; by left|].
  unfold IsNotFound in H. destruct (bool_decide _) eqn:Hnf; to_prop; cbn [negb] in H.
  - destruct (SetControllerReference _ _) as [m|e'] eqn:Hset; exec_inv.
    + right. apply SetControllerReference_owner in Hset as (Hn & Hns & _).
      match goal with a : resp (Create KindJob ?job) |- _ => exists e, job, a; destruct a as [?|e'] end;
        [|unfold IsAlreadyExists in H; case_bool_decide]; exec_inv;
        rewrite ?decide_True, ?decide_False by done; by split_and!.
    + left. split; [done|]. eauto.
  - exec_inv. left. split; [done|]. eauto.
Qed.

Lemma EnsureInitJob_once_witness :
  exists tr, exec (EnsureInitJob (L := demo_lib) demo_cluster "TheIsland_WP" "a") tr (Ok true) /\
    InitJobName (demo_cluster <| cluster_meta ::= fun m => m <| Generation := 7 |> |>) "TheIsland_WP" "a"
    = InitJobName demo_cluster "TheIsland_WP" "a".
Proof.
  assert (Hex := run_with_exec demo_answer (EnsureInitJob (L := demo_lib) demo_cluster "TheIsland_WP" "a")).
  assert (Hr : (run_with demo_answer (EnsureInitJob (L := demo_lib) demo_cluster "TheIsland_WP" "a")).2
    = Ok true) by (vm_compute; reflexivity).
  rewrite Hr in Hex. eexists. split; [exact Hex|].
  apply (EnsureInitJob_once (HL := demo_laws) _ _ _ _ _ Hex); reflexivity.
Defined.

(** The first condition of the job that ends it. *)
Definition job_end (c : JobCondition) : Prop := jc_Type c ∈ ["Complete"; "Failed"] /\ jc_Status c = "True".
#[export] Instance job_end_dec c : Decision (job_end c).
Proof. unfold job_end. apply _. Defined.

Lemma job_verdict_spec conds :
  job_verdict conds =
  match list_find job_end conds with
  | Some (_, c) => if decide (jc_Type c = "Complete") then "Succeeded" else "Failed"
  | None => "Running"
  end.
Proof.
  induction conds as [|c l IH]; [done|]. cbn [job_verdict list_find].
  destruct (String.eqb_spec (jc_Type c) "Complete") as [Ec|Ec],
    (String.eqb_spec (jc_Status c) "True") as [Es|Es],
    (String.eqb_spec (jc_Type c) "Failed") as [Ef|Ef]; cbn [andb];
    destruct (decide (job_end c)) as [[Hj Hs]|Hj]; unfold job_end in *;
    rewrite ?elem_of_cons, ?elem_of_nil in *; try (exfalso; tauto);
    rewrite ?decide_True, ?decide_False by done; try done;
    rewrite IH; by destruct (list_find _ l) as [[]|].
Qed.

Lemma job_verdict_cases conds :
  job_verdict conds = "Running" \/ job_verdict conds = "Failed" \/ job_verdict conds = "Succeeded".
Proof.
  rewrite job_verdict_spec. destruct (list_find _ _) as [[]|]; [|by left].
  case_decide; [right; by right|right; by left].
Qed.

(** [InitJobStatus] is decided by one read: ["NotFound"] exactly when the server has no such
    job, ["Failed"] for every other error, and otherwise by the first condition that completes or
    fails the job. *)
Theorem InitJobStatus_spec cluster mapID side tr s :
  exec (InitJobStatus cluster mapID side) tr s ->
  exists g, tr = [Ev (Get KindJob (cluster_ns cluster) (InitJobName cluster mapID side)) g] /\
    s = match g with
        | Err e => if decide (err_reason e = ReasonNotFound) then "NotFound" else "Failed"
        | Ok job =>
            match list_find job_end (job_Conditions job) with
            | Some (_, c) => if decide (jc_Type c = "Complete") then "Succeeded" else "Failed"
            | None => "Running"
            end
        end.
Proof.
  unfold InitJobStatus. intros H. exec_inv. exists a. destruct a as [job|e].
  - exec_inv. split; [done|]. apply job_verdict_spec.
  - unfold IsNotFound in H. case_bool_decide; exec_inv; rewrite ?decide_True, ?decide_False by done; done.
Qed.

Lemma InitJobStatus_spec_witness :
  exists tr, exec (InitJobStatus demo_cluster "TheIsland_WP" "a") tr "NotFound" /\ length tr = 1%nat.
Proof.
  assert (Hex := run_with_exec demo_answer (InitJobStatus demo_cluster "TheIsland_WP" "a")).
  eexists. split; [exact Hex|].
  destruct (InitJobStatus_spec _ _ _ _ _ Hex) as (g & -> & _). done.
Defined.
