(* ===== verification/CurseForge.v ===== *)
(** * internal/curseforge: the latest files of a set of mods

    [GetFiles] makes one HTTP request.  [http.NewRequestWithContext] and [http.Client.Do] are the
    call [HttpPost], whose answer tells a request that cannot be built from a transport that
    fails, and gives the status and what the JSON decoder makes of the body otherwise. *)

From S2P Require Import Prelude GoStd Effects ApiTypes Kube Resources.

Local Open Scope prog_scope.

Record ModInfo := MkModInfo {
  mi_ID : Z; mi_Slug : string; mi_LatestFileID : Z; mi_LatestVersion : string }.

Record CFClient := MkCFClient { baseURL : string; apiKey : string }.

Definition NewClient (baseURL apiKey : string) : CFClient := MkCFClient baseURL apiKey.

(** [json.Marshal(map[string]any{"modIds": ids})]. *)
Definition marshal_ids (ids : list Z) : string :=
  "{" +:+ quoted "modIds" +:+ ":[" +:+ Join (map FormatInt ids) "," +:+ "]}".

(** The decoder of [modsAPIResponse], by the tags of its fields. *)
Definition decode_file : json -> option FileEntry := json_struct (fun j =>
  id ← json_int (json_field "id" j);
  name ← json_string (json_field "displayName" j);
  latest ← json_bool (json_field "isLatestFile" j);
  Some (MkFileEntry id name latest)).
Definition decode_entry : json -> option DataEntry := json_struct (fun j =>
  id ← json_int (json_field "id" j);
  slug ← json_string (json_field "slug" j);
  files ← json_list decode_file (json_field "latestFiles" j);
  Some (MkDataEntry id slug files)).
Definition decode_response : json -> option (list DataEntry) := json_struct (fun j =>
  json_list decode_entry (json_field "data" j)).

(** The loop over [m.Files]: the last file flagged as the latest. *)
Definition latest_file (files : list FileEntry) : Z * string :=
  foldl (fun latest f => if IsLatest f then (fe_ID f, DisplayName f) else latest) (0, "") files.

Definition mod_info (m : DataEntry) : ModInfo :=
  let '(latestID, latestName) := latest_file (de_Files m) in
  MkModInfo (de_ID m) (de_Slug m) latestID latestName.

(** The loop over [out.Data]. *)
Definition collect_info (data : list DataEntry) : gmap Z ModInfo :=
  foldl (fun result m => <[de_ID m := mod_info m]> result) ∅ data.

Definition GetFiles (c : CFClient) (ids : list Z) : kprog (res (gmap Z ModInfo)) :=
  let* answer := kcall (HttpPost (baseURL c +:+ "/v1/mods")
    [("x-api-key", apiKey c); ("Content-Type", "application/json"); ("Accept", "application/json")]
    (marshal_ids ids)) in
  match answer with
  | RequestError e => Ret (Err e)
  | TransportError e => Ret (Err (wrap_err "curseforge" e))
  | Answered status decoded =>
      if negb (status =? 200) then Ret (Err (Errorf ("curseforge status " +:+ FormatInt status)))
      else
        match decoded with
        | Err e => Ret (Err e)
        | Ok data => Ret (Ok (collect_info data))
        end
  end.

(** ** What it guarantees *)

Lemma latest_file_last files :
  latest_file files =
  match last (List.filter IsLatest files) with
  | Some f => (fe_ID f, DisplayName f)
  | None => (0, "")
  end.
Proof.
  induction files as [|f files IH] using rev_ind; [done|].
  unfold latest_file in *. rewrite foldl_snoc, List.filter_app, last_app. cbn.
  by destruct (IsLatest f).
Qed.

Lemma collect_info_lookup data id :
  collect_info data !! id = mod_info <$> last (List.filter (fun m => de_ID m =? id) data).
Proof. apply foldl_insert_last. Qed.

(** [GetFiles] makes exactly one request, and succeeds only on status 200 with a body that
    decodes; the error of the transport is wrapped, those of the request and of the decoder are
    returned as they are.  When it succeeds, a mod is in the result exactly when the answer lists it, with what its last
    entry says, and with the last of its files that is flagged as the latest, or file 0. *)
Theorem GetFiles_spec c ids tr r :
  exec (GetFiles c ids) tr r ->
  exists a, tr = [Ev (HttpPost (baseURL c +:+ "/v1/mods")
      [("x-api-key", apiKey c); ("Content-Type", "application/json"); ("Accept", "application/json")]
      (marshal_ids ids)) a] /\
    match a with
    | RequestError e => r = Err e
    | TransportError e => r = Err (wrap_err "curseforge" e)
    | Answered 200 (Ok data) => exists info, r = Ok info /\
        forall id, info !! id =
          (fun m => match last (List.filter IsLatest (de_Files m)) with
                    | Some f => MkModInfo id (de_Slug m) (fe_ID f) (DisplayName f)
                    | None => MkModInfo id (de_Slug m) 0 ""
                    end) <$> last (List.filter (fun m => de_ID m =? id) data)
    | Answered 200 (Err e) => r = Err e
    | Answered status _ => r = Err (Errorf ("curseforge status " +:+ FormatInt status))
    end.
Proof.
  unfold GetFiles. intros H. cbn in H. apply exec_act_inv in H as (a & tr1 & -> & H). exists a.
  destruct a as [e|e|status decoded]; [by exec_inv..|].
  destruct (Z.eqb_spec status 200) as [->|Hne]; cbn [negb] in H.
  - destruct decoded as [data|e]; exec_inv; (split; [done|]); [|done].
    eexists. split; [done|]. intros id. rewrite collect_info_lookup.
    destruct (last _) as [m|] eqn:E; [|done]. cbn. f_equal. unfold mod_info.
    rewrite latest_file_last.
    assert (de_ID m = id) as <-.
    { apply last_Some_elem_of, filter_bool_in in E as [_ E]. by to_prop. }
    by destruct (last (List.filter IsLatest _)).
  - exec_inv. split; [done|]. repeat case_match; done.
Qed.

Definition demo_data : list DataEntry :=
  [MkDataEntry 927090 "super-mod" [MkFileEntry 5 "v5" true; MkFileEntry 6 "v6-beta" false]].

Definition post_answer (data : list DataEntry) (c : call) : resp c :=
  match c as c return resp c -> resp c with
  | HttpPost _ _ _ => fun _ => Answered 200 (Ok data)
  | _ => fun r => r
  end (demo_answer c).

Lemma GetFiles_spec_witness :
  exists tr info, exec (GetFiles (NewClient "https://api.curseforge.com" "key") [927090]) tr (Ok info) /\
    info !! 927090 = Some (MkModInfo 927090 "super-mod" 5 "v5").
Proof.
  pose proof (run_with_exec (post_answer demo_data)
    (GetFiles (NewClient "https://api.curseforge.com" "key") [927090])) as Hex.
  destruct (GetFiles_spec _ _ _ _ Hex) as (a & Htr & H).
  eexists _, (collect_info demo_data). split; [exact Hex|]. reflexivity.
Defined.
