(* ===== verification/FakeForge.v ===== *)
(** * internal/curseforge/fake: the CurseForge API the tests talk to

    [Handler] of [server.go], from the decoded request to the JSON value it encodes, and the client
    [GetFiles] run against it.  Both sides have structs of their own: the server's are written, and
    the client's are read, by the tags of their fields.  The text of a JSON value is left to the
    library: the body of a request determines the ids that are decoded from it
    ([marshal_ids_inj]). *)

From S2P Require Import Prelude GoStd Effects ApiTypes Kube Resources CurseForge.

Local Open Scope prog_scope.

Record Mod := MkMod { Slug : string; LatestFileID : Z; LatestVersion : string }.

(** [modsRequest]; a body that does not decode is the zero request. *)
Record modsRequest := MkModsRequest { ModIDs : list Z }.

Record fileEntry := MkfileEntry { file_ID : Z; file_DisplayName : string; file_IsLatest : bool }.
Record dataEntry := MkdataEntry { data_ID : Z; data_Slug : string; data_Files : list fileEntry }.
(** [Data] starts as a nil slice. *)
Record response := Mkresponse { Data : list dataEntry }.

(** What [json.NewEncoder(w).Encode(out)] writes, and is read back as. *)
Definition encode_file (f : fileEntry) : json :=
  JObj [("id", JNum (file_ID f)); ("displayName", JStr (json_text (file_DisplayName f)));
        ("isLatestFile", JBool (file_IsLatest f))].
Definition encode_entry (d : dataEntry) : json :=
  JObj [("id", JNum (data_ID d)); ("slug", JStr (json_text (data_Slug d)));
        ("latestFiles", JArr (map encode_file (data_Files d)))].
Definition encode_response (r : response) : json :=
  JObj [("data", match Data r with [] => JNull | l => JArr (map encode_entry l) end)].

(** The [dataEntry] of a mod. *)
Definition mod_entry (id : Z) (m : Mod) : dataEntry :=
  MkdataEntry id (Slug m) [MkfileEntry (LatestFileID m) (LatestVersion m) true].

(** The loop over [req.ModIDs]. *)
Fixpoint known_mods (mods : gmap Z Mod) (ids : list Z) : list dataEntry :=
  match ids with
  | [] => []
  | id :: ids =>
      match mods !! id with
      | None => known_mods mods ids
      | Some m => mod_entry id m :: known_mods mods ids
      end
  end.

(** What [Handler(mods)] answers; [ranged] is the order in which [range mods] visits the map. *)
Definition Handler (mods : gmap Z Mod) (ranged : list (Z * Mod)) (req : modsRequest) : response :=
  Mkresponse (if (length (ModIDs req) =? 0)%nat then map (fun '(id, m) => mod_entry id m) ranged
              else known_mods mods (ModIDs req)).

(** The server at the end of an [HttpPost]: it decodes the body, and answers 200 with what it
    encoded, which the client decodes into structs of its own. *)
Definition served (mods : gmap Z Mod) (c : call) (r : resp c) : Prop :=
  match c as c return resp c -> Prop with
  | HttpPost _ _ body => fun r => forall ids, body = marshal_ids ids ->
      exists ranged, ranged ≡ₚ map_to_list mods /\
        match decode_response (encode_response (Handler mods ranged (MkModsRequest ids))) with
        | Some data => r = Answered 200 (Ok data)
        | None => exists e, r = Answered 200 (Err e)
        end
  | _ => fun _ => True
  end r.

(** ** The two sides *)

(** A body stands for one list of ids. *)
Lemma marshal_ids_inj ids1 ids2 : marshal_ids ids1 = marshal_ids ids2 -> ids1 = ids2.
Proof.
  unfold marshal_ids. intros H. do 3 apply str_app_inj_l in H. apply str_app_inj_r in H.
  apply (Join_inj ","%char) in H.
  - by apply (list_fmap_eq_inj FormatInt FormatInt_inj) in H.
  - apply Forall_fmap, Forall_true. intros z. split; [apply FormatInt_no_comma|apply FormatInt_nonempty].
  - apply Forall_fmap, Forall_true. intros z. split; [apply FormatInt_no_comma|apply FormatInt_nonempty].
Qed.

(** What the client has of an entry. *)
Definition received (d : dataEntry) : DataEntry :=
  MkDataEntry (data_ID d) (json_text (data_Slug d))
    (map (fun f => MkFileEntry (file_ID f) (json_text (file_DisplayName f)) (file_IsLatest f)) (data_Files d)).

Lemma mapM_encoded {A B} (f : json -> option B) (g : A -> json) (h : A -> B) l :
  (forall x, f (g x) = Some (h x)) -> mapM f (map g l) = Some (map h l).
Proof. intros H. induction l as [|x l IH]; cbn; [done|]. by rewrite H, IH. Qed.

(** The client reads every field that the server writes. *)
Lemma decode_encoded r : decode_response (encode_response r) = Some (map received (Data r)).
Proof.
  assert (Hentry : forall d, decode_entry (encode_entry d) = Some (received d)).
  { intros d. cbn. by erewrite mapM_encoded by done. }
  destruct r as [[|d l]]; [done|]. exact (mapM_encoded decode_entry encode_entry received (d :: l) Hentry).
Qed.

(** The entries of a mod in an answer are all the same. *)
Lemma last_entry (data : list dataEntry) id m :
  (forall d, d ∈ data -> data_ID d = id -> d = mod_entry id m) -> mod_entry id m ∈ data ->
  last (List.filter (fun d => de_ID d =? id) (map received data)) = Some (received (mod_entry id m)).
Proof.
  intros Hall Hin. destruct (last (List.filter _ _)) as [d|] eqn:E.
  - apply last_Some_elem_of, filter_bool_in in E as [(d0 & -> & Hd)%list_elem_of_fmap Hid]. to_prop.
    by rewrite (Hall d0 Hd Hid).
  - apply last_None in E. assert (received (mod_entry id m) ∈ []) as []%elem_of_nil. rewrite <- E.
    apply filter_bool_in. split; [by apply list_elem_of_fmap_2|]. apply Z.eqb_refl.
Qed.

Lemma known_in mods ids d :
  d ∈ known_mods mods ids <-> exists m, mods !! data_ID d = Some m /\ data_ID d ∈ ids /\ d = mod_entry (data_ID d) m.
Proof.
  induction ids as [|id ids IH]; cbn.
  - split; [by intros ?%elem_of_nil|by intros (m & _ & ?%elem_of_nil & _)].
  - destruct (mods !! id) as [m|] eqn:E; [rewrite elem_of_cons|]; rewrite IH; setoid_rewrite elem_of_cons.
    + split.
      * intros [->|(m' & H1 & H2 & H3)]; [exists m; cbn; auto|exists m'; auto].
      * intros (m' & H1 & [H2|H2] & H3); [left|right; by exists m'].
        rewrite H3, H2. f_equal. congruence.
    + split; [intros (m' & H1 & H2 & H3); exists m'; auto|].
      intros (m' & H1 & [H2|H2] & H3); [congruence|by exists m'].
Qed.

(** What [Handler] answers, as a set of entries. *)
Lemma Handler_in mods ranged ids d :
  ranged ≡ₚ map_to_list mods ->
  d ∈ Data (Handler mods ranged (MkModsRequest ids)) <->
  exists m, mods !! data_ID d = Some m /\ (ids = [] \/ data_ID d ∈ ids) /\ d = mod_entry (data_ID d) m.
Proof.
  intros Hr. unfold Handler. cbn [ModIDs Data]. destruct ids as [|id ids]; cbn [length Nat.eqb].
  - rewrite list_elem_of_fmap. split.
    + intros ([id m] & -> & Hin). exists m. rewrite Hr in Hin. apply elem_of_map_to_list in Hin. cbn. auto.
    + intros (m & Hm & _ & ->). exists (data_ID d, m). split; [done|]. rewrite Hr. by apply elem_of_map_to_list.
  - rewrite known_in. naive_solver.
Qed.

Definition answered (mods : gmap Z Mod) (e : kevent) : Prop := let 'Ev c r := e in served mods c r.


(** Two of three ids are known; one is asked for twice. *)
Definition demo_mods : gmap Z Mod :=
  {[7 := MkMod "seven" 70 "v7"; 8 := MkMod "eight" 80 "v8"; 9 := MkMod "nine" 90 "v9"]}.

