(* ===== verification/ModUpdate.v ===== *)
(** * internal/controller/modupdate_controller.go: polling for new mod versions

    Go maps are iterated in an unspecified order: a loop over a map is a definition over the list
    of its entries, and a theorem says the order does not matter. *)

From S2P Require Import Prelude GoStd Digest Effects ApiTypes Kube Resources CurseForge.

Local Open Scope prog_scope.

Definition AnnotationModsChanged : string := "ark.watteel.com/mods-changed".

(** [ModUpdateReconciler], without the client and the clock. *)
Record ModUpdateReconciler := MkModUpdateReconciler { CurseForgeBaseURL : string }.

Definition readAPIKey (cluster : ArkCluster) (sel : SecretKeySelector) : kprog (res string) :=
  let* got := kcall (Get KindSecret (cluster_ns cluster) (sel_Name sel)) in
  match got with
  | Err e => Ret (Err (wrap_err "read api key secret" e))
  | Ok sec =>
      let v := default "" (secret_Data sec !! sel_Key sel) in
      if String.eqb v "" then Ret (Err (Errorf "api key empty")) else Ret (Ok v)
  end.

(** The keys of the set, sorted: [elements] lists them in some order, which sorting forgets. *)
Definition collectModIDs (cluster : ArkCluster) : list Z :=
  let set : gset Z :=
    list_to_set (Mods (Global (Spec cluster))) ∪ list_to_set (Maps (Spec cluster) ≫= map_Mods) in
  sort_ints (elements set).

(** The loop over [cluster.Spec.Maps]. *)
Definition affects (inGlobal : bool) (modID : Z) (ms : MapSpec) : bool :=
  match map_Mods ms with
  | [] => inGlobal
  | mods => existsb (Z.eqb modID) mods
  end.

Definition affectedMaps (cluster : ArkCluster) (modID : Z) : list string :=
  let inGlobal := existsb (Z.eqb modID) (Mods (Global (Spec cluster))) in
  sort_strings (map map_ID (List.filter (affects inGlobal modID) (Maps (Spec cluster)))).

Definition zero_tracked : TrackedMod := MkTrackedMod 0 "" "" 0 "" 0 None [].

Definition previous (cluster : ArkCluster) : gmap Z TrackedMod :=
  match ModsStatus (Status cluster) with
  | Some st => foldl (fun prev t => <[tm_ID t := t]> prev) ∅ (Tracked st)
  | None => ∅
  end.

(** One turn of the loop over [info]: the entry, and whether its file changed. *)
Definition merge_one (cluster : ArkCluster) (now : Z) (id : Z) (mi : ModInfo) : TrackedMod * bool :=
  let seen := previous cluster !! id in
  let p := default zero_tracked seen in
  let t := MkTrackedMod id (mi_Slug mi) (InstalledVersion p) (InstalledFileID p)
             (mi_LatestVersion mi) (mi_LatestFileID mi) None (affectedMaps cluster id) in
  let t := if negb (bool_decide (is_Some seen)) || (InstalledFileID t =? 0)
           then t <| InstalledFileID := mi_LatestFileID mi |> <| InstalledVersion := mi_LatestVersion mi |>
           else t in
  if bool_decide (is_Some seen) && negb (LatestFileID p =? mi_LatestFileID mi)
  then (t <| LastChanged := Some now |>, true)
  else match LastChanged p with
       | Some c => (t <| LastChanged := Some c |>, false)
       | None => (t, false)
       end.

#[export] Instance tm_le_dec : RelDecision (fun a b : TrackedMod => tm_ID a <= tm_ID b).
Proof. intros a b. apply _. Defined.

(** [mergeModStatus], for the order in which the map's entries come. *)
Definition merge_in_order (cluster : ArkCluster) (now : Z) (entries : list (Z * ModInfo))
    : list TrackedMod * bool :=
  let rs := map (fun '(id, mi) => merge_one cluster now id mi) entries in
  (merge_sort (fun a b => tm_ID a <= tm_ID b) (map fst rs), existsb snd rs).

Definition mergeModStatus (cluster : ArkCluster) (info : gmap Z ModInfo) (now : Z)
    : list TrackedMod * bool := merge_in_order cluster now (map_to_list info).

(** The string that [hashTracked] digests, and its digest. *)
Definition tracked_text (t : list TrackedMod) : string :=
  foldl (fun s m => s +:+ (FormatInt (tm_ID m) +:+ "=" +:+ FormatInt (LatestFileID m) +:+ ";")) "" t.
Definition hashTracked (t : list TrackedMod) : string :=
  hex_encode (take 8 (Sum256 (tracked_text t))).

Definition setModFailedCondition (cluster : ArkCluster) (reason msg : string) : kprog ArkCluster :=
  let* now := kcall Now in
  let cond := MkCondition "ModsHealthy" ConditionFalse reason msg (Some now) in
  Ret (on_status (fun st => st <| cs_Conditions ::= fun conds =>
    match list_find (fun c => cond_Type c = cond_Type cond) conds with
    | Some (i, _) => <[i := cond]> conds
    | None => conds ++ [cond]
    end |>) cluster).

(** Assignments to fields of [cluster.Status.Mods], made if it is nil. *)
Definition on_mods (f : ModStatus -> ModStatus) (cluster : ArkCluster) : ArkCluster :=
  on_status (fun st => st <| ModsStatus ::= fun m => Some (f (default (MkModStatus None None "" []) m)) |>)
    cluster.

Definition check_interval (auto : ModAutoUpdateSpec) : Z :=
  let interval := Int.int64 (IntervalMinutes auto * Minute) in
  if interval <? 5 * Minute then 5 * Minute else interval.

(** [Reconcile] once CurseForge has failed. *)
Definition record_failure (cluster : ArkCluster) (interval now : Z) (e : error) : kprog (res Result) :=
  let* cluster := setModFailedCondition cluster "ModAPIError" (err_msg e) in
  let cluster := on_mods (fun m => m <| LastCheckTime := Some now |> <| LastError := err_msg e |>) cluster in
  let* _ := kcall (StatusUpdate cluster) in
  Ret (Ok (requeue_after interval)).

(** The end of [Reconcile]: the annotation, when a mod has changed. *)
Definition stamp_annotation (cluster : ArkCluster) (interval : Z) (tracked : list TrackedMod)
    (changed : bool) : kprog (res Result) :=
  if changed then
    let annotated := cluster <| cluster_meta ::= fun m => m <| Annotations ::=
      insert AnnotationModsChanged (hashTracked tracked) |> |> in
    let* p := kcall (Patch cluster annotated) in
    match p with
    | Err e => Ret (Err e)
    | Ok _ => Ret (Ok (requeue_after interval))
    end
  else Ret (Ok (requeue_after interval)).

(** [Reconcile] once CurseForge has answered: the status first, the annotation second. *)
Definition record_files (cluster : ArkCluster) (interval now : Z) (info : gmap Z ModInfo)
    : kprog (res Result) :=
  let '(tracked, changed) := mergeModStatus cluster info now in
  let next := now + interval in
  let cluster := on_mods (fun m => m <| LastCheckTime := Some now |> <| NextCheckTime := Some next |>
    <| LastError := "" |> <| Tracked := tracked |>) cluster in
  let* u := kcall (StatusUpdate cluster) in
  match u with
  | Err e =>
      if negb (IsConflict e) then Ret (Err e)
      else stamp_annotation (with_version u cluster) interval tracked changed
  | Ok _ => stamp_annotation (with_version u cluster) interval tracked changed
  end.

(** The base URL of the API: the one that is configured, or CurseForge's. *)
Definition api_base (r : ModUpdateReconciler) : string :=
  if String.eqb (CurseForgeBaseURL r) "" then "https://api.curseforge.com" else CurseForgeBaseURL r.

(** [Reconcile] once the key was read and the mods were collected. *)
Definition poll (r : ModUpdateReconciler) (cluster : ArkCluster) (interval : Z) (key : string)
    (ids : list Z) : kprog (res Result) :=
  let cf := NewClient (api_base r) key in
  let* info := GetFiles cf ids in
  let* now := kcall Now in
  match info with
  | Err e => record_failure cluster interval now e
  | Ok info => record_files cluster interval now info
  end.

(** [Reconcile] once the check is due. *)
Definition check_mods (r : ModUpdateReconciler) (cluster : ArkCluster) (auto : ModAutoUpdateSpec)
    : kprog (res Result) :=
  let interval := check_interval auto in
  let* key := readAPIKey cluster (CurseForgeAPIKeyRef auto) in
  match key with
  | Err e =>
      let* cluster := setModFailedCondition cluster "APIKeyMissing" (err_msg e) in
      let* _ := kcall (StatusUpdate cluster) in
      Ret (Ok (requeue_after interval))
  | Ok key =>
      match collectModIDs cluster with
      | [] => Ret (Ok (requeue_after interval))
      | ids => poll r cluster interval key ids
      end
  end.

Definition Reconcile (r : ModUpdateReconciler) (ns name : string) : kprog (res Result) :=
  let* got := kcall (Get KindCluster ns name) in
  match got with
  | Err e => if IsNotFound e then Ret (Ok no_result) else Ret (Err e)
  | Ok cluster =>
      match ModAutoUpdate (Spec cluster) with
      | None => Ret (Ok no_result)
      | Some auto =>
          if negb (Enabled auto) then Ret (Ok no_result)
          else
            let interval := check_interval auto in
            match ModsStatus (Status cluster) ≫= LastCheckTime with
            | Some last =>
                let* now := kcall Now in
                let elapsed := time_Sub now last in
                if elapsed <? interval then Ret (Ok (requeue_after (interval - elapsed)))
                else check_mods r cluster auto
            | None => check_mods r cluster auto
            end
      end
  end.

(** ** Merging *)

Definition by_ID (a b : TrackedMod) : Prop := tm_ID a <= tm_ID b.

Lemma merge_one_ID cluster now id mi : tm_ID (merge_one cluster now id mi).1 = id.
Proof. unfold merge_one. by repeat case_match. Qed.

Lemma merge_IDs cluster now (entries : list (Z * ModInfo)) :
  tm_ID <$> map fst (map (fun '(id, mi) => merge_one cluster now id mi) entries) = entries.*1.
Proof. induction entries as [|[id mi] l IH]; cbn; [done|]. by rewrite merge_one_ID, <- IH. Qed.

#[export] Instance by_ID_total : Total by_ID.
Proof. intros a b. unfold by_ID. lia. Qed.
#[export] Instance by_ID_trans : Transitive by_ID.
Proof. intros a b c. unfold by_ID. lia. Qed.

(** Two orders of the same entries, sorted, are the same list. *)
Lemma sorted_by_ID_unique l l' :
  NoDup (tm_ID <$> l) -> l ≡ₚ l' -> merge_sort by_ID l = merge_sort by_ID l'.
Proof.
  intros Hnd Hp. apply (StronglySorted_unique_strong by_ID).
  - intros x y. rewrite !merge_sort_Permutation, <- Hp. intros Hx Hy Hxy Hyx.
    apply list_elem_of_lookup in Hx as [i Hi], Hy as [j Hj]. unfold by_ID in *.
    assert (i = j) as ->; [|congruence].
    eapply (NoDup_lookup _ _ _ (tm_ID x)); [exact Hnd|..]; rewrite list_lookup_fmap, ?Hi, ?Hj; cbn;
      [done|]. f_equal. lia.
  - apply StronglySorted_merge_sort; apply _.
  - apply StronglySorted_merge_sort; apply _.
  - by rewrite !merge_sort_Permutation.
Qed.

Lemma merge_order cluster info now entries :
  entries ≡ₚ map_to_list info ->
  merge_in_order cluster now entries = mergeModStatus cluster info now.
Proof.
  intros Hp. unfold mergeModStatus, merge_in_order. f_equal.
  - apply sorted_by_ID_unique; [|by rewrite Hp]. rewrite merge_IDs, Hp. apply NoDup_fst_map_to_list.
  - apply existsb_Permutation. by rewrite Hp.
Qed.

Lemma merged_elem cluster info now t :
  t ∈ (mergeModStatus cluster info now).1 <->
  exists mi, info !! tm_ID t = Some mi /\ t = (merge_one cluster now (tm_ID t) mi).1.
Proof.
  unfold mergeModStatus, merge_in_order. cbn. rewrite merge_sort_Permutation, !list_elem_of_fmap. split.
  - intros (x & -> & Hx). apply list_elem_of_fmap in Hx as ([id mi] & -> & Hin%elem_of_map_to_list).
    exists mi. by rewrite merge_one_ID.
  - intros (mi & Hi & Ht). exists (merge_one cluster now (tm_ID t) mi). split; [done|].
    apply list_elem_of_fmap. exists (tm_ID t, mi). split; [done|]. by apply elem_of_map_to_list.
Qed.

Lemma merged_NoDup cluster info now : NoDup (tm_ID <$> (mergeModStatus cluster info now).1).
Proof.
  unfold mergeModStatus, merge_in_order. cbn. rewrite merge_sort_Permutation.
  rewrite merge_IDs. apply NoDup_fst_map_to_list.
Qed.

Lemma merged_changed cluster info now :
  (mergeModStatus cluster info now).2 = true <->
  exists id mi p, info !! id = Some mi /\ previous cluster !! id = Some p /\
    LatestFileID p <> mi_LatestFileID mi.
Proof.
  unfold mergeModStatus, merge_in_order. cbn. rewrite existsb_exists. split.
  - intros (x & Hin & Hx). apply in_map_iff in Hin as ([id mi] & <- & Hin).
    apply list_elem_of_In, elem_of_map_to_list in Hin.
    unfold merge_one in Hx. destruct (previous cluster !! id) as [p|] eqn:Hp; cbn in Hx; [|done].
    exists id, mi, p. split_and!; [done..|]. destruct (Z.eqb_spec (LatestFileID p) (mi_LatestFileID mi)); [|done].
    cbn in Hx. by destruct (LastChanged p).
  - intros (id & mi & p & Hi & Hp & Hne). exists (merge_one cluster now id mi). split.
    + apply in_map_iff. exists (id, mi). split; [done|]. by apply list_elem_of_In, elem_of_map_to_list.
    + unfold merge_one. rewrite Hp. cbn. apply Z.eqb_neq in Hne. by rewrite Hne.
Qed.

(** What a mod that CurseForge reports becomes, given what was tracked. *)
Definition merged_entry (cluster : ArkCluster) (now : Z) (id : Z) (mi : ModInfo) (t : TrackedMod) : Prop :=
  tm_ID t = id /\ tm_Slug t = mi_Slug mi /\ LatestFileID t = mi_LatestFileID mi /\
  LatestVersion t = mi_LatestVersion mi /\ AffectedMaps t = affectedMaps cluster id /\
  match previous cluster !! id with
  | Some p =>
      (InstalledFileID p <> 0 -> InstalledFileID t = InstalledFileID p /\ InstalledVersion t = InstalledVersion p) /\
      (InstalledFileID p = 0 -> InstalledFileID t = mi_LatestFileID mi /\ InstalledVersion t = mi_LatestVersion mi) /\
      LastChanged t = if decide (LatestFileID p = mi_LatestFileID mi) then LastChanged p else Some now
  | None =>
      InstalledFileID t = mi_LatestFileID mi /\ InstalledVersion t = mi_LatestVersion mi /\ LastChanged t = None
  end.

Lemma merge_one_spec cluster now id mi : merged_entry cluster now id mi (merge_one cluster now id mi).1.
Proof.
  unfold merged_entry, merge_one. destruct (previous cluster !! id) as [p|]; cbn.
  - destruct (Z.eqb_spec (LatestFileID p) (mi_LatestFileID mi)) as [E|E];
      [rewrite decide_True by done|rewrite decide_False by done];
      destruct (Z.eqb_spec (InstalledFileID p) 0); cbn; destruct (LastChanged p); cbn; split_and!; done.
  - split_and!; done.
Qed.

(** C29: merging CurseForge's answer into the status does not depend on the order in which the Go
    map is iterated; the tracked mods come out sorted, one for each mod of the answer, with the
    latest file, the installed one kept unless unknown, and the time of the last change; and the
    change flag is raised exactly when a mod that was tracked has another latest file. *)
Theorem mergeModStatus_spec cluster info now entries tracked changed :
  entries ≡ₚ map_to_list info ->
  merge_in_order cluster now entries = (tracked, changed) ->
  StronglySorted by_ID tracked /\ NoDup (tm_ID <$> tracked) /\
  (forall id, id ∈ tm_ID <$> tracked <-> is_Some (info !! id)) /\
  (forall t mi, t ∈ tracked -> info !! tm_ID t = Some mi -> merged_entry cluster now (tm_ID t) mi t) /\
  (changed = true <-> exists id mi p, info !! id = Some mi /\ previous cluster !! id = Some p /\
     LatestFileID p <> mi_LatestFileID mi).
Proof.
  intros Hp Hm. rewrite (merge_order _ _ _ _ Hp) in Hm.
  pose proof (merged_elem cluster info now) as He. pose proof (merged_NoDup cluster info now) as Hnd.
  pose proof (merged_changed cluster info now) as Hc. rewrite Hm in He, Hnd, Hc. cbn in He, Hnd, Hc.
  split_and!; [|done| | |done].
  - apply (f_equal fst) in Hm. cbn in Hm. rewrite <- Hm. apply StronglySorted_merge_sort; apply _.
  - intros id. rewrite list_elem_of_fmap. split.
    + intros (t & -> & (mi & Hi & _)%He). by eexists.
    + intros [mi Hi]. exists (merge_one cluster now id mi).1. rewrite merge_one_ID. split; [done|].
      apply He. exists mi. by rewrite merge_one_ID.
  - intros t mi (mi' & Hi & Ht)%He Hi'. assert (mi' = mi) as -> by congruence.
    rewrite Ht at 2. apply merge_one_spec.
Qed.

Definition demo_info : gmap Z ModInfo := collect_info demo_data.

Lemma mergeModStatus_spec_witness :
  exists t, merge_in_order demo_cluster 9 [(927090, mod_info (MkDataEntry 927090 "super-mod"
      [MkFileEntry 5 "v5" true; MkFileEntry 6 "v6-beta" false]))] = ([t], false) /\
    InstalledFileID t = 5 /\ LatestFileID t = 5.
Proof.
  eexists. split; [reflexivity|].
  edestruct (mergeModStatus_spec demo_cluster demo_info 9 [(927090, mod_info (MkDataEntry 927090 "super-mod"
      [MkFileEntry 5 "v5" true; MkFileEntry 6 "v6-beta" false]))]) as (_ & _ & _ & H & _);
    [reflexivity|reflexivity|].
  destruct (H _ (MkModInfo 927090 "super-mod" 5 "v5") ltac:(left) eq_refl) as (_ & _ & Hl & _).
  split; [reflexivity|exact Hl].
Defined.

(** C40: a change is reported once: merging the same answer again, with the tracked mods stored in
    the status, leaves them as they are and reports no change.  So when the annotation could not
    be patched after the status was stored, the next poll does not retry it. *)
Theorem change_reported_once cluster info now now' :
  let tracked := (mergeModStatus cluster info now).1 in
  let stored := on_mods (fun m => m <| Tracked := tracked |>) cluster in
  (mergeModStatus stored info now').2 = false /\
  forall t, t ∈ (mergeModStatus stored info now').1 <-> t ∈ tracked.
Proof.
  intros tracked stored.
  assert (Hprev : forall id mi, info !! id = Some mi ->
    previous stored !! id = Some (merge_one cluster now id mi).1).
  { intros i mi Hi. etrans; [apply (foldl_insert_last tm_ID (fun t => t) tracked)|].
    pose proof (last_filter_unique tm_ID tracked (merge_one cluster now i mi).1) as Hl.
    rewrite merge_one_ID in Hl. rewrite Hl; [done|apply merged_NoDup|]. apply merged_elem.
    exists mi. by rewrite !merge_one_ID. }
  assert (Hsame : forall id mi, info !! id = Some mi ->
    merge_one stored now' id mi = ((merge_one cluster now id mi).1, false)).
  { intros id mi Hi. unfold merge_one at 1. rewrite (Hprev _ _ Hi). cbn.
    destruct (merge_one_spec cluster now id mi) as (H1 & H2 & H3 & H4 & H5 & H6).
    change (affectedMaps stored id) with (affectedMaps cluster id).
    set (p := (merge_one cluster now id mi).1) in *. rewrite H3, Z.eqb_refl. cbn.
    assert (Hinst : (InstalledFileID p =? 0) = true ->
      InstalledFileID p = mi_LatestFileID mi /\ InstalledVersion p = mi_LatestVersion mi).
    { intros Hz. to_prop. destruct (previous cluster !! id) as [q|]; [|tauto].
      destruct (decide (InstalledFileID q = 0)) as [E|E]; [tauto|]. destruct H6 as [H6 _].
      destruct (H6 E). congruence. }
    clearbody p. destruct p as [i s v f lv lf lc am]; cbn in *. subst.
    destruct (f =? 0); [destruct Hinst as [<- <-]; [done|]|]; by destruct lc. }
  split.
  - apply not_true_iff_false. intros (id & mi & p & Hi & Hp & Hne)%merged_changed.
    rewrite (Hprev _ _ Hi) in Hp. inv Hp.
    destruct (merge_one_spec cluster now id mi) as (_ & _ & Hl & _). congruence.
  - intros t. unfold tracked. rewrite !merged_elem.
    split; intros (mi & Hi & Ht); exists mi; (split; [done|]); rewrite (Hsame _ _ Hi) in *; done.
Qed.

(** ** When the controller calls out *)

Definition is_post (e : kevent) : Prop := match ev_call e with HttpPost _ _ _ => True | _ => False end.

(** What must have happened before a call is made. *)
Definition poll_guard (r : ModUpdateReconciler) (ns name : string) (h : list kevent) (c : call) : Prop :=
  match c with
  | HttpPost url headers body =>
      exists (cluster : ArkCluster) auto (secret : Secret) key,
        head h = Some (Ev (Get KindCluster ns name) (Ok cluster)) /\
        ModAutoUpdate (Spec cluster) = Some auto /\ Enabled auto = true /\
        url = api_base r +:+ "/v1/mods" /\ ("x-api-key", key) ∈ headers /\
        (Ev (Get KindSecret (cluster_ns cluster) (sel_Name (CurseForgeAPIKeyRef auto))) (Ok secret) : kevent) ∈ h /\
        secret_Data secret !! sel_Key (CurseForgeAPIKeyRef auto) = Some key /\
        body = marshal_ids (collectModIDs cluster) /\ collectModIDs cluster <> [] /\
        (forall last, ModsStatus (Status cluster) ≫= LastCheckTime = Some last ->
           exists now : Z, (Ev Now now : kevent) ∈ h /\ 5 * Minute <= check_interval auto <= time_Sub now last) /\
        Forall (fun e : kevent => ~ is_post e) h
  | Patch base modified =>
      exists (cluster : ArkCluster) (u : res string) st,
        last h = Some (Ev (StatusUpdate cluster) u) /\
        (forall e, u = Err e -> err_reason e = ReasonConflict) /\
        ModsStatus (Status cluster) = Some st /\
        base = with_version u cluster /\
        modified = base <| cluster_meta ::= fun m => m <| Annotations ::=
          insert AnnotationModsChanged (hashTracked (Tracked st)) |> |>
  | StatusUpdate _ => Forall (fun e : kevent => match ev_call e with StatusUpdate _ => False | _ => True end) h
  | Get _ _ _ | Now => True
  | _ => False
  end.

Definition no_update (h : list kevent) : Prop :=
  Forall (fun e : kevent => match ev_call e with StatusUpdate _ => False | _ => True end) h.

Lemma no_update_snoc h e :
  no_update h -> match ev_call e with StatusUpdate _ => False | _ => True end -> no_update (h ++ [e]).
Proof. intros Hh He. apply Forall_app. split; [done|]. by constructor. Qed.

Lemma wp_record_failure r ns name cluster interval now e h :
  no_update h ->
  wp any (poll_guard r ns name) (record_failure cluster interval now e) (fun _ _ => True) h.
Proof.
  intros Hh. unfold record_failure, setModFailedCondition. cbn [bind do_call].
  wp_step; [done|]. wp_step; [|by wp_step]. by apply no_update_snoc.
Qed.

Lemma wp_record_files mr ns name cluster interval now info h :
  no_update h ->
  wp any (poll_guard mr ns name) (record_files cluster interval now info) (fun _ _ => True) h.
Proof.
  intros Hh. unfold record_files. destruct (mergeModStatus cluster info now) as [tracked changed].
  cbn [bind do_call]. wp_step; [exact Hh|].
  set (c := on_mods _ _).
  assert (Hok : (forall e, r = Err e -> err_reason e = ReasonConflict) ->
    wp any (poll_guard mr ns name) (stamp_annotation (with_version r c) interval tracked changed)
      (fun _ _ => True) (h ++ [Ev (StatusUpdate c) r])).
  { intros Hr. unfold stamp_annotation. destruct changed; [|by wp_step]. cbn [bind do_call].
    wp_step; [|by repeat wp_step]. unfold poll_guard. eexists c, r, _. rewrite last_snoc. done. }
  destruct r as [rv|e]; [by apply Hok|]. unfold IsConflict in *. case_bool_decide; [|by repeat wp_step].
  apply Hok. congruence.
Qed.

Lemma wp_poll ns name r cluster interval key ids h :
  poll_guard r ns name h (HttpPost (api_base r +:+ "/v1/mods")
    [("x-api-key", key); ("Content-Type", "application/json"); ("Accept", "application/json")] (marshal_ids ids)) -> no_update h ->
  wp any (poll_guard r ns name) (poll r cluster interval key ids) (fun _ _ => True) h.
Proof.
  intros Hg Hn. unfold poll, GetFiles. cbn [bind do_call]. wp_step; [exact Hg|]. apply wp_seq.
  eapply (wp_mono _ _ _ (fun _ h => no_update h)).
  { intros info h' Hh. wp_step; [done|].
    assert (no_update (h' ++ [Ev Now r1])) by by apply no_update_snoc.
    wp_step; [by apply wp_record_files|by apply wp_record_failure]. }
  repeat wp_step; by apply no_update_snoc.
Qed.

Lemma check_interval_min auto : 5 * Minute <= check_interval auto.
Proof. unfold check_interval. case_match; to_prop; lia. Qed.

Lemma wp_check_mods ns name r cluster auto h :
  head h = Some (Ev (Get KindCluster ns name) (Ok cluster)) ->
  ModAutoUpdate (Spec cluster) = Some auto -> Enabled auto = true ->
  (forall last, ModsStatus (Status cluster) ≫= LastCheckTime = Some last ->
     exists now : Z, (Ev Now now : kevent) ∈ h /\ check_interval auto <= time_Sub now last) ->
  Forall (fun e : kevent => match ev_call e with Get _ _ _ | Now => True | _ => False end) h ->
  wp any (poll_guard r ns name) (check_mods r cluster auto) (fun _ _ => True) h.
Proof.
  intros Hhead Ha He Hdue Hh.
  assert (Hno : forall e, match ev_call e with Get _ _ _ | Now => True | _ => False end -> no_update (h ++ [e])).
  { intros [c r'] Hev. apply no_update_snoc; [|by destruct c].
    eapply Forall_impl; [exact Hh|]. intros [c' ?]. by destruct c'. }
  unfold check_mods, readAPIKey. cbn [bind do_call]. wp_step; [done|]. apply wp_seq.
  set (h' := h ++ [_]). assert (Hn : no_update h') by by apply Hno.
  assert (Hfail : forall e, wp any (poll_guard r ns name)
    (let* c := setModFailedCondition cluster "APIKeyMissing" (err_msg e) in
     let* _ := kcall (StatusUpdate c) in
     Ret (Ok (requeue_after (check_interval auto)))) (fun _ _ => True) h').
  { intros e. unfold setModFailedCondition. cbn [bind do_call].
    wp_step; [done|]. wp_step; [|by wp_step]. by apply no_update_snoc. }
  repeat wp_step; try done; try apply Hfail.
  match goal with H : collectModIDs cluster = _ |- _ => rewrite <- H end.
  destruct (secret_Data _ !! _) as [key|] eqn:Hkey; [|done].
  apply wp_poll; [|done]. eexists cluster, auto, _, key. split_and!; try done.
  - unfold h'. by destruct h.
  - by left.
  - apply in_snoc.
  - congruence.
  - intros last Hl. destruct (Hdue _ Hl) as (now & Hin & Hle). exists now.
    split; [unfold h'; set_solver|]. pose proof (check_interval_min auto). lia.
  - unfold h'. apply Forall_app. split; [|by repeat constructor; intros []].
    eapply Forall_impl; [exact Hh|]. intros [c ?] Hc Hp. unfold is_post in Hp. cbn in *. by destruct c.
Qed.

Lemma wp_Reconcile r ns name :
  wp any (poll_guard r ns name) (Reconcile r ns name) (fun _ _ => True) [].
Proof.
  unfold Reconcile. cbn [bind do_call]. wp_step; [done|].
  destruct r0 as [cluster|e]; [|by repeat wp_step].
  destruct (ModAutoUpdate (Spec cluster)) as [auto|] eqn:Ha; [|by wp_step].
  destruct (Enabled auto) eqn:He; cbn [negb]; [|by wp_step].
  destruct (ModsStatus (Status cluster) ≫= LastCheckTime) as [last|] eqn:Hl.
  - cbn [bind do_call]. wp_step; [done|]. wp_step; [by wp_step|]. to_prop.
    eapply wp_check_mods; [done..| |].
    + intros last' Hl'. assert (last' = last) as -> by congruence. exists r0. split; [set_solver|done].
    + by repeat constructor.
  - eapply wp_check_mods; [done..| |].
    + intros last Hl'. congruence.
    + by repeat constructor.
Qed.

(** C30: every call of a reconcile is made for a reason: CurseForge is asked at most once, only
    when the feature is enabled, at the URL that is configured and with the key of the secret the
    cluster names, for exactly the mods the cluster uses, and only when the last recorded check is
    at least the interval ago, which is five minutes or more; the status is written at most once;
    the annotation that triggers the rollout is patched only after the new files were stored in
    the status (or the store conflicted), and it is their digest; nothing else is written. *)
Theorem Reconcile_calls r ns name tr res tr1 c a tr2 :
  exec (Reconcile r ns name) tr res -> tr = tr1 ++ Ev c a :: tr2 -> poll_guard r ns name tr1 c.
Proof.
  intros Hex ->. destruct (wp_exec _ _ _ _ _ _ _ (wp_Reconcile r ns name) Hex (admits_any _ _)) as [_ H].
  by eapply H.
Qed.

Definition auto_cluster : ArkCluster :=
  demo_cluster <| Spec ::= fun s => s <| ModAutoUpdate :=
      Some (MkModAutoUpdateSpec true 60 (MkSecretKeySelector "cf" "key")) |>
    <| Global ::= fun g => g <| Mods := [927090] |> |> |>.
Definition key_secret : Secret := MkSecret (new_meta "cf" "ns" ∅) {["key" := "k"]} "Opaque".
Definition auto_run : list kevent * res Result :=
  run_with (with_stored KindCluster auto_cluster (with_stored KindSecret key_secret (post_answer demo_data)))
    (Reconcile (MkModUpdateReconciler "") "ns" "c").

(** The third call of this run is the request. *)
Lemma Reconcile_calls_witness :
  exists tr1 u h b a tr2, auto_run.1 = tr1 ++ Ev (HttpPost u h b) a :: tr2 /\
    b = marshal_ids [927090] /\ Forall (fun e : kevent => ~ is_post e) tr1.
Proof.
  pose proof (run_with_exec _ _ : exec _ auto_run.1 auto_run.2) as Hex.
  assert (Heq : exists tr1 u h b a tr2, auto_run.1 = tr1 ++ Ev (HttpPost u h b) a :: tr2 /\
    b = marshal_ids [927090]).
  { eexists [_; _], _, _, _, _, _. split; [reflexivity|reflexivity]. }
  destruct Heq as (tr1 & u & h & b & a & tr2 & Heq & Hb). exists tr1, u, h, b, a, tr2.
  split; [done|]. split; [done|].
  destruct (Reconcile_calls _ _ _ _ _ _ _ _ _ Hex Heq) as (c & auto & sec & key & _ & _ & _ & _ & _ & _ & _ & _ & _ & _ & H). done.
Defined.

(** ** The maps a mod affects *)

(** a mod affects exactly the maps that would run it: those that list it, and, when it is a
    global mod, those that list no mods of their own; they come out sorted. *)
Theorem affectedMaps_spec cluster modID :
  Sorted String.le (affectedMaps cluster modID) /\
  forall id, id ∈ affectedMaps cluster modID <->
    exists m, m ∈ Maps (Spec cluster) /\ map_ID m = id /\
      modID ∈ (match map_Mods m with [] => Mods (Global (Spec cluster)) | mods => mods end).
Proof.
  unfold affectedMaps. split; [auto with ark|]. intros id.
  rewrite sort_strings_Permutation, list_elem_of_In, in_map_iff.
  assert (Hex : forall l, existsb (Z.eqb modID) l = true <-> modID ∈ l).
  { intros l. rewrite existsb_exists. setoid_rewrite Z.eqb_eq. setoid_rewrite <- list_elem_of_In.
    naive_solver. }
  setoid_rewrite List.filter_In. setoid_rewrite <- list_elem_of_In. unfold affects.
  split; intros (m & H1 & H2); exists m.
  - destruct H2 as [Hm Ha]. split_and!; [done..|]. destruct (map_Mods m); by apply Hex.
  - destruct H2 as [<- Ha]. split_and!; [done..|]. destruct (map_Mods m); by apply Hex.
Qed.

(** ** The annotation *)

Definition tracked_part (m : TrackedMod) : string :=
  FormatInt (tm_ID m) +:+ "=" +:+ FormatInt (LatestFileID m) +:+ ";".

Lemma foldl_append {A} (f : A -> string) p q (l : list A) :
  foldl (fun s x => s +:+ f x) (p +:+ q) l = p +:+ foldl (fun s x => s +:+ f x) q l.
Proof. revert q. induction l as [|x l IH]; intros q; [done|]. cbn. by rewrite str_app_assoc, IH. Qed.

Lemma tracked_text_cons m t : tracked_text (m :: t) = tracked_part m +:+ tracked_text t.
Proof.
  change (foldl (fun s x => s +:+ tracked_part x) ("" +:+ tracked_part m) t
    = tracked_part m +:+ foldl (fun s x => s +:+ tracked_part x) "" t).
  by rewrite str_app_nil_l, <- foldl_append, str_app_nil_r.
Qed.

Lemma FormatInt_not c z : is_digit c = false -> c <> "-"%char -> str_all (.≠ c) (FormatInt z).
Proof.
  intros Hc Hd. eapply num_char_not; [|apply FormatInt_chars]. intros [?|?]; congruence.
Qed.

(** the text the annotation digests determines the tracked mods and their files: two statuses
    that differ in a file id, or in the mods they track, digest different texts. *)
Theorem tracked_text_inj (t t' : list TrackedMod) :
  tracked_text t = tracked_text t' ->
  (fun m => (tm_ID m, LatestFileID m)) <$> t = (fun m => (tm_ID m, LatestFileID m)) <$> t'.
Proof.
  revert t'. induction t as [|m t IH]; intros [|m' t'] H; rewrite ?tracked_text_cons in H; try done.
  - apply (f_equal String.length) in H. rewrite str_length_app in H. unfold tracked_part in H.
    rewrite !str_length_app in H. cbn in H. lia.
  - apply (f_equal String.length) in H. rewrite str_length_app in H. unfold tracked_part in H.
    rewrite !str_length_app in H. cbn in H. lia.
  - unfold tracked_part in H. rewrite !str_app_assoc in H.
    apply str_split_at in H as [H1 H]; [|by apply FormatInt_not..].
    apply str_split_at in H as [H2 H]; [|by apply FormatInt_not..].
    apply FormatInt_inj in H1, H2. apply IH in H. cbn. congruence.
Qed.

Lemma tracked_text_inj_witness :
  let t := [zero_tracked <| tm_ID := 927090 |> <| LatestFileID := 5 |>] in
  (fun m => (tm_ID m, LatestFileID m)) <$> t = [(927090, 5)].
Proof. intros t. exact (tracked_text_inj t t eq_refl). Defined.
