(* ===== verification/Coexist.v ===== *)
(** * The two controllers on one object

    The mod update controller and the cluster controller both write the status of a cluster.  What
    the first writes leaves alone what the second keeps there.  The converse does not hold, and is
    not stated: a swap of the cluster controller rewrites the installed files of the tracked mods
    ([Controller.swap]). *)

From S2P Require Import Prelude GoStd Effects ApiTypes Kube CurseForge ModUpdate.

Local Open Scope prog_scope.

(** The answer of a read of a cluster. *)
Definition got_cluster (e : kevent) : option (res ArkCluster) :=
  match e with
  | Ev c r =>
      match c as c return resp c -> option (res ArkCluster) with
      | Get KindCluster _ _ => fun r => Some r
      | _ => fun _ => None
      end r
  end.

Lemma exec_got_cluster {A} ns name (k : res ArkCluster -> kprog A) c tr x :
  exec (bind (kcall (Get KindCluster ns name)) k) (Ev (Get KindCluster ns name) (Ok c) :: tr) x ->
  exec (k (Ok c)) tr x.
Proof.
  intros (got & tr' & Heq & H)%exec_act_inv.
  assert (got = Ok c /\ tr' = tr) as [-> ->]; [|done].
  split; [|by injection Heq]. apply (f_equal (fun l => head l ≫= got_cluster)) in Heq. cbn in Heq. by simplify_eq.
Qed.

(** [c'] has the metadata, up to the version and the annotation of the mods, the spec and the
    entries of the maps of [c]. *)
Definition same_maps (c c' : ArkCluster) : Prop :=
  Name (cluster_meta c') = Name (cluster_meta c) /\
  Namespace (cluster_meta c') = Namespace (cluster_meta c) /\
  DeletionTimestamp (cluster_meta c') = DeletionTimestamp (cluster_meta c) /\
  Finalizers (cluster_meta c') = Finalizers (cluster_meta c) /\
  delete AnnotationModsChanged (Annotations (cluster_meta c')) =
    delete AnnotationModsChanged (Annotations (cluster_meta c)) /\
  Spec c' = Spec c /\ MapStatuses (Status c') = MapStatuses (Status c).

#[export] Instance same_maps_preorder : PreOrder same_maps.
Proof. split; [by repeat split|]. intros a b c. unfold same_maps. intuition congruence. Qed.

Lemma same_maps_status f c :
  (forall st, MapStatuses (f st) = MapStatuses st) -> same_maps c (on_status f c).
Proof. intros Hf. repeat split. apply Hf. Qed.

(** Up to the rounding of times by the API server. *)
Definition same_rounded (c c' : ArkCluster) : Prop := same_maps c c' \/ same_maps (wire c) c'.

Lemma same_maps_version u c c' : same_maps c c' -> same_rounded c (with_version u c').
Proof.
  intros (H1 & H2 & H3 & H4 & H5 & H6 & H7). destruct u as [v|e]; [right|by left]. split_and!; try done.
  cbn. by rewrite H7.
Qed.

(** What the mod update controller may do to a cluster.  The patch is made after the status was
    stored. *)
Definition keeps (c : ArkCluster) (call : call) : Prop :=
  match call with
  | StatusUpdate c' => same_maps c c'
  | Patch _ c' => same_rounded c c'
  | Get _ _ _ | Now | HttpPost _ _ _ => True
  | _ => False
  end.

Lemma emits_stamp c cluster interval tracked changed :
  same_rounded c cluster -> emits (keeps c) (stamp_annotation cluster interval tracked changed).
Proof.
  intros Hc. unfold stamp_annotation. destruct changed; [|done]. apply emits_act; [|by intros []].
  unfold keeps. destruct Hc as [Hc|Hc]; [left|right]; (etrans; [exact Hc|]); repeat split; cbn;
    by rewrite delete_insert_eq.
Qed.

Lemma emits_failed_condition c cluster reason msg {A} (k : ArkCluster -> kprog A) :
  same_maps c cluster -> (forall cluster, same_maps c cluster -> emits (keeps c) (k cluster)) ->
  emits (keeps c) (let* cluster := setModFailedCondition cluster reason msg in k cluster).
Proof.
  intros Hc Hk. unfold setModFailedCondition. apply emits_act; [done|]. intros now. apply Hk.
  etrans; [exact Hc|]. by apply same_maps_status.
Qed.

Lemma emits_check_mods r c auto : emits (keeps c) (check_mods r c auto).
Proof.
  unfold check_mods, readAPIKey. apply emits_bind.
  { apply emits_act; [done|]. intros [sec|e]; [|done]. by destruct (String.eqb _ ""). }
  intros [key|e].
  2: { apply emits_failed_condition; [done|]. intros cluster Hc. by apply emits_act. }
  destruct (collectModIDs c) as [|id ids]; [done|]. unfold poll. apply emits_bind.
  { unfold GetFiles. apply emits_act; [done|]. intros [e|e|status decoded]; [done..|].
    destruct (negb _); [done|]. by destruct decoded. }
  intros info. apply emits_act; [done|]. intros now. destruct info as [info|e].
  - unfold record_files. destruct (mergeModStatus c info now) as [tracked changed].
    apply emits_act; [by apply same_maps_status|]. intros u.
    assert (Hs : forall u', emits (keeps c)
      (stamp_annotation (with_version u' (on_mods (fun m => m <| LastCheckTime := Some now |>
        <| NextCheckTime := Some (now + check_interval auto) |> <| LastError := "" |> <| Tracked := tracked |>) c))
        (check_interval auto) tracked changed)).
    { intros u'. apply emits_stamp, same_maps_version. by apply same_maps_status. }
    destruct u as [rv|e]; [apply Hs|]. destruct (negb _); [done|apply Hs].
  - unfold record_failure. apply emits_failed_condition; [done|]. intros cluster Hc.
    apply emits_act; [|done]. unfold keeps. etrans; [exact Hc|]. by apply same_maps_status.
Qed.

Lemma mods_keep r ns name c tr x e :
  exec (Reconcile r ns name) (Ev (Get KindCluster ns name) (Ok c) :: tr) x -> e ∈ tr -> keeps c (ev_call e).
Proof.
  intros H%exec_got_cluster. eapply emits_exec, H. clear.
  destruct (ModAutoUpdate (Spec c)) as [auto|]; [|done]. destruct (negb (Enabled auto)); [done|].
  destruct (_ ≫= _) as [last|]; [|apply emits_check_mods].
  apply emits_act; [done|]. intros now. cbn beta zeta. destruct (time_Sub now last <? _); [done|apply emits_check_mods].
Qed.

(** C21: the mod update controller never touches what the cluster controller keeps on the object: in
    every reconcile every status it writes and every patch it sends has the spec, the entries of the
    maps, the finalizers and every annotation but its own as they were read (the patch, the entries
    as the API server has stored them).  This is about the writes of the mod update controller
    only: the cluster controller does write to the status of the mods, when it swaps the volumes
    of a map. *)
Theorem mods_keep_maps r ns name c tr x e :
  exec (Reconcile r ns name) (Ev (Get KindCluster ns name) (Ok c) :: tr) x -> e ∈ tr -> keeps c (ev_call e).
Proof. apply mods_keep. Qed.

Lemma mods_keep_maps_witness :
  exists c' a, (Ev (StatusUpdate c') a : kevent) ∈ auto_run.1 /\ same_maps auto_cluster c'.
Proof.
  pose proof (run_with_exec _ _ : exec _ auto_run.1 auto_run.2) as Hex.
  assert (Heq : exists e1 e2 e3 c' a, auto_run.1 =
    [Ev (Get KindCluster "ns" "c") (Ok auto_cluster); e1; e2; e3; Ev (StatusUpdate c') a])
    by (eexists _, _, _, _, _; reflexivity).
  destruct Heq as (e1 & e2 & e3 & c' & a & Heq). rewrite Heq in Hex. exists c', a.
  split; [rewrite Heq; do 4 right; left|].
  apply (mods_keep_maps _ _ _ _ _ _ (Ev (StatusUpdate c') a) Hex). do 3 right. left.
Defined.
