(* ===== verification/Rcon.v ===== *)
(** * internal/rcon: the RCON client

    [client.go] and [drain.go].  The connection, the clock and the dialer are calls of the
    environment; a context is its deadline, an instant in nanoseconds, if it has one.  Contexts
    are never cancelled before their deadline. *)

From Stdlib Require Import SpecFloat.
From S2P Require Import Prelude GoStd Digest Effects ApiTypes Kube.

Local Open Scope prog_scope.

(** ** client.go *)

Definition packetTypeAuth : Z := 3.
Definition packetTypeExecCommand : Z := 2.

Definition ErrAuthFailed : error := Errorf "rcon: authentication failed".

Record Client := MkClient { conn : nat; nextID : Z }.
#[export] Instance eta_Client : Settable Client := fun r => MkClient (conn r) (nextID r).

(** [binary.Write] and [binary.Read] of an int32 in little-endian order. *)
Definition le32 (z : Z) : string :=
  let b k := byte_of (z / 2 ^ (8 * k) mod 256) in
  String (b 0) (String (b 1) (String (b 2) (String (b 3) ""))).

Definition le32_value (s : string) : Z :=
  Int.int32 (foldr (fun c acc => byte_val c + 256 * acc) 0 (bytes_of s)).

Definition two_nulls : string := String zero (String zero "").

(** The bytes [writePacket] hands to the connection. *)
Definition packet (id typ : Z) (body : string) : string :=
  let length := Int.int32 (4 + 4 + Z.of_nat (String.length body) + 2) in
  le32 length +:+ le32 id +:+ le32 typ +:+ body +:+ two_nulls.

Definition writePacket (w : nat) (id typ : Z) (body : string) : kprog (res unit) :=
  kcall (NetWrite w (packet id typ body)).

(** A buffer of [n] bytes after [s] has arrived in it. *)
Definition fill (n : nat) (s : string) : string :=
  str_take n s +:+ String.string_of_list_ascii (repeat zero (n - String.length s)).

(** [io.ReadFull] into a new buffer of [n] bytes: the buffer and the error.  It does not touch
    the connection for an empty buffer. *)
Definition ReadFull (r : nat) (n : nat) : kprog (string * option error) :=
  match n with
  | O => Ret ("", None)
  | _ => let* (s, err) := kcall (NetReadFull r n) in Ret (fill n s, err)
  end.

(** [binary.Read], which leaves its variable alone on an error. *)
Definition read_int32 (r : nat) : kprog (res Z) :=
  let* (s, err) := ReadFull r 4 in
  match err with
  | None => Ret (Ok (le32_value s))
  | Some e => Ret (Err e)
  end.

(** The named results [length], [id], [typ], [body] and [err]: a bare return answers with what
    they hold by then. *)
Definition readPacket (r : nat) : kprog (Z * Z * Z * string * option error) :=
  let* got := read_int32 r in
  match got with
  | Err e => Ret (0, 0, 0, "", Some e)
  | Ok length =>
      if (length <? 10) || (length >? 4 * 1024) then
        Ret (length, 0, 0, "", Some (Errorf ("rcon: bad length " +:+ FormatInt length)))
      else
        let* got := read_int32 r in
        match got with
        | Err e => Ret (length, 0, 0, "", Some e)
        | Ok id =>
            let* got := read_int32 r in
            match got with
            | Err e => Ret (length, id, 0, "", Some e)
            | Ok typ =>
                let* (body, err) := ReadFull r (Z.to_nat (length - 10)) in
                match err with
                | Some e => Ret (length, id, typ, body, Some e)
                | None =>
                    let* (terminator, err) := ReadFull r 2 in
                    Ret (length, id, typ, body, err)
                end
            end
        end
  end.

Definition nextRequestID (c : Client) : Z * Client :=
  let id := Int.int32 (nextID c + 1) in
  (id, c <| nextID := id |>).

Definition Dial (ctx : context) (addr password : string) (timeout : Z) : kprog (res Client) :=
  let* dialed := kcall (NetDial ctx timeout addr) in
  match dialed with
  | Err e => Ret (Err (wrap_err "rcon: dial" e))
  | Ok conn =>
      let c := MkClient conn 0 in
      let* now := kcall Now in
      let* _ := kcall (NetSetDeadline conn (Some (now + timeout))) in
      let '(id, c) := nextRequestID c in
      let* err := writePacket conn id packetTypeAuth password in
      match err with
      | Err e => let* _ := kcall (NetClose conn) in Ret (Err e)
      | Ok _ =>
          let* (_, gotID, _, _, err) := readPacket conn in
          match err with
          | Some e => let* _ := kcall (NetClose conn) in Ret (Err e)
          | None =>
              if gotID =? -1 then let* _ := kcall (NetClose conn) in Ret (Err ErrAuthFailed)
              else let* _ := kcall (NetSetDeadline conn None) in Ret (Ok c)
          end
      end
  end.

Definition Close (c : Client) : kprog unit := kcall (NetClose (conn c)).

(** The answer, and the client with its request counter moved. *)
Definition Exec (ctx : context) (cmd : string) (c : Client) : kprog (res string * Client) :=
  let* deadline := match ctx with
                   | Some t => Ret t
                   | None => let* now := kcall Now in Ret (now + 10 * Second)
                   end in
  let* _ := kcall (NetSetDeadline (conn c) (Some deadline)) in
  let '(id, c) := nextRequestID c in
  let* r :=
    let* err := writePacket (conn c) id packetTypeExecCommand cmd in
    match err with
    | Err e => Ret (Err e)
    | Ok _ =>
        let* (_, _, _, body, err) := readPacket (conn c) in
        match err with
        | Some e => Ret (Err e)
        | None => Ret (Ok body)
        end
    end in
  let* _ := kcall (NetSetDeadline (conn c) None) in
  Ret (r, c).

(** ** drain.go *)

Definition f64 : Z -> Z -> bool -> spec_float := binary_normalize 53 1024.
(** [float64(z)]. *)
Definition of_int64 (z : Z) : spec_float := f64 z 0 false.

(** [d.Hours()], [d.Minutes()] and [d.Seconds()]: the whole units and the rest, converted and
    added in float64. *)
Definition in_units (unit d : Z) : spec_float :=
  SFadd 53 1024 (of_int64 (Z.quot d unit))
    (SFdiv 53 1024 (of_int64 (Z.rem d unit)) (of_int64 unit)).

(** The integer nearest to [m * 2 ^ e], halves to the even one. *)
Definition round_half_even (m e : Z) : Z :=
  if 0 <=? e then m * 2 ^ e
  else
    let d := 2 ^ (- e) in
    let q := m / d in
    let r := m mod d in
    if (2 * r <? d) || ((2 * r =? d) && Z.even q) then q else q + 1.

(** [%.0f]. *)
Definition format_f0 (f : spec_float) : string :=
  match f with
  | S754_zero s => (if s then "-" else "") +:+ "0"
  | S754_infinity s => (if s then "-" else "+") +:+ "Inf"
  | S754_nan => "NaN"
  | S754_finite s m e => (if s then "-" else "") +:+ FormatInt (round_half_even (Z.pos m) e)
  end.

Definition roundDuration (d : Z) : string :=
  if d >=? Hour then format_f0 (in_units Hour d) +:+ " hours"
  else if d >=? Minute then format_f0 (in_units Minute d) +:+ " minutes"
  else format_f0 (in_units Second d) +:+ " seconds".

Definition AnnounceShutdown (ctx : context) (addr password : string) (in_ : Z) (reason : string)
    : kprog (res unit) :=
  let* dialCtx := WithTimeout ctx (10 * Second) in
  let* dialed := Dial dialCtx addr password (5 * Second) in
  match dialed with
  | Err e => Ret (Err (wrap_err "rcon dial" e))
  | Ok c =>
      let msg := "ServerChat Server shutting down in " +:+ roundDuration in_ +:+ " for " +:+ reason in
      let* (r, c) := Exec ctx msg c in
      let* _ := Close c in
      Ret (res_map (fun _ => tt) r)
  end.

Definition SaveAndExit (ctx : context) (addr password : string) : kprog (res unit) :=
  let* dialCtx := WithTimeout ctx (10 * Second) in
  let* dialed := Dial dialCtx addr password (5 * Second) in
  match dialed with
  | Err e => Ret (Err e)
  | Ok c =>
      let* (r, c) := Exec ctx "SaveWorld" c in
      match r with
      | Err e => let* _ := Close c in Ret (Err (wrap_err "SaveWorld" e))
      | Ok _ =>
          let* (_, c) := Exec ctx "DoExit" c in
          let* _ := Close c in
          Ret (Ok tt)
      end
  end.

Example roundDuration_tests :
  map roundDuration [0; 30 * Second; 90 * Second; 1800 * Second; 2 * Hour; 150 * Minute; -1]
  = ["0 seconds"; "30 seconds"; "2 minutes"; "30 minutes"; "2 hours"; "2 hours"; "-0 seconds"].
Proof. vm_compute. reflexivity. Qed.

(** ** The wire format *)

Lemma byte_val_of z : 0 <= z < 256 -> byte_val (byte_of z) = z.
Proof.
  intros H. unfold byte_val, byte_of. rewrite N_ascii_embedding; [|lia]. by rewrite Z2N.id by lia.
Qed.

Lemma int32_mod z : Int.int32 (z mod 2 ^ 32) = Int.int32 z.
Proof. unfold Int.int32, Int.wrap. by rewrite Zplus_mod_idemp_l. Qed.

Lemma le32_roundtrip z : le32_value (le32 z) = Int.int32 z.
Proof.
  unfold le32_value, le32. cbn -[byte_of byte_val Z.pow]. rewrite <- (int32_mod z). f_equal.
  rewrite !byte_val_of by (apply Z.mod_pos_bound; lia).
  change (2 ^ 32) with (256 * (256 * (256 * 256))). rewrite !Z.rem_mul_r by lia.
  rewrite !Z.div_div by lia. change (2 ^ (8 * 0)) with 1. rewrite Z.div_1_r, Z.mul_0_r, Z.add_0_r.
  done.
Qed.

Lemma le32_length z : String.length (le32 z) = 4%nat.
Proof. done. Qed.

(** A connection whose other side has sent [w]: reads take from it, and fail when it is short. *)
Definition stream_env (c : call) (w : string) : resp c * string :=
  match c as c return resp c * string with
  | NetReadFull _ n =>
      if (n <=? String.length w)%nat then ((str_take n w, None), str_drop n w)
      else ((w, Some (Errorf "unexpected EOF")), "")
  | c => (demo_answer c, w)
  end.

(** Against a stream that starts with [s], the program answers [a] and has consumed [s]. *)
Definition parses {A} (p : kprog A) (s : string) (a : A) : Prop :=
  forall rest, exists tr, run stream_env p (s +:+ rest) = (tr, a, rest).

Lemma parses_bind {A B} (p : kprog A) (f : A -> kprog B) s t a b :
  parses p s a -> parses (f a) t b -> parses (bind p f) (s +:+ t) b.
Proof.
  intros Hp Hf rest. rewrite str_app_assoc. destruct (Hp (t +:+ rest)) as [tr1 H1].
  destruct (Hf rest) as [tr2 H2]. exists (tr1 ++ tr2). by rewrite run_bind, H1, H2.
Qed.

Lemma parses_ret {A} (a : A) : parses (Ret a) "" a.
Proof. intros rest. by exists []. Qed.

Lemma str_take_all s : str_take (String.length s) s = s.
Proof. induction s as [|c s IH]; cbn; by rewrite ?IH. Qed.

Lemma str_take_min n s : String.length (str_take n s) = (n `min` String.length s)%nat.
Proof. revert s. induction n as [|n IH]; intros [|c s]; cbn; by rewrite ?IH. Qed.

(** A buffer that a read has filled, and its length in every case. *)
Lemma fill_full s : fill (String.length s) s = s.
Proof. unfold fill. rewrite str_take_all, Nat.sub_diag. apply str_app_nil_r. Qed.

Lemma fill_length n s : String.length (fill n s) = n.
Proof.
  unfold fill. rewrite str_length_app, str_take_min.
  assert (forall k, String.length (String.string_of_list_ascii (repeat zero k)) = k) as ->
    by (intros k; induction k as [|k IH]; cbn; by rewrite ?IH). lia.
Qed.

Lemma parses_ReadFull r s : parses (ReadFull r (String.length s)) s (s, None).
Proof.
  intros rest. destruct (decide (s = "")) as [->|Hne]; [by exists []|].
  assert (ReadFull r (String.length s) = let* (t, err) := kcall (NetReadFull r (String.length s)) in
    Ret (fill (String.length s) t, err)) as -> by by destruct s.
  eexists. cbn -[str_take str_drop fill]. unfold run.
  assert (((String.length s) <=? String.length (s +:+ rest))%nat = true) as ->.
  { apply Nat.leb_le. rewrite str_length_app. lia. }
  rewrite str_take_app, str_drop_app. by rewrite fill_full.
Qed.

Lemma parses_int32 r z : parses (read_int32 r) (le32 z) (Ok (Int.int32 z)).
Proof.
  intros rest. unfold read_int32. rewrite run_bind.
  destruct (parses_ReadFull r (le32 z) rest) as [tr H]. rewrite le32_length in H.
  rewrite H. cbn [run]. eexists. by rewrite le32_roundtrip.
Qed.

Lemma readPacket_stream (conn : nat) (id typ : Z) (body rest : string) :
  - 2 ^ 31 <= id < 2 ^ 31 -> - 2 ^ 31 <= typ < 2 ^ 31 ->
  Z.of_nat (String.length body) <= 4096 - 10 ->
  exists tr, run stream_env (readPacket conn) (packet id typ body +:+ rest) =
    (tr, (Z.of_nat (String.length body) + 10, id, typ, body, None), rest).
Proof.
  intros Hid Htyp Hlen. revert rest.
  change (parses (readPacket conn) (packet id typ body)
    (Z.of_nat (String.length body) + 10, id, typ, body, None)).
  unfold packet, readPacket.
  replace (4 + 4 + Z.of_nat (String.length body) + 2) with (Z.of_nat (String.length body) + 10) by lia.
  set (len := Z.of_nat (String.length body) + 10).
  assert (Hl : Int.int32 (Int.int32 len) = len) by (rewrite !Int.int32_id; subst len; rewrite ?Int.int32_id; lia).
  eapply parses_bind; [apply parses_int32|]. rewrite Hl. cbv beta.
  replace (_ || _) with false by (symmetry; apply orb_false_iff; lia).
  eapply parses_bind; [apply parses_int32|]. rewrite Int.int32_id by done. cbv beta iota.
  eapply parses_bind; [apply parses_int32|]. rewrite Int.int32_id by done. cbv beta iota.
  replace (Z.to_nat (len - 10)) with (String.length body) by lia.
  eapply parses_bind; [apply parses_ReadFull|]. cbv beta iota.
  rewrite <- (str_app_nil_r two_nulls).
  eapply parses_bind; [apply (parses_ReadFull _ two_nulls)|]. apply parses_ret.
Qed.

(** C31: reading a packet that [writePacket] sent gives its id, type and body back, and leaves the
    rest of the stream alone, for every id and type of 32 bits and every body the reader's limit
    of 4096 bytes admits. *)
Theorem packet_roundtrip (conn : nat) (id typ : Z) (body rest : string) :
  - 2 ^ 31 <= id < 2 ^ 31 -> - 2 ^ 31 <= typ < 2 ^ 31 ->
  Z.of_nat (String.length body) <= 4096 - 10 ->
  exists tr, run stream_env (readPacket conn) (packet id typ body +:+ rest) =
    (tr, (Z.of_nat (String.length body) + 10, id, typ, body, None), rest).
Proof. apply readPacket_stream. Qed.

Lemma packet_roundtrip_witness :
  exists tr, run stream_env (readPacket 0) (packet 1 3 "secret" +:+ "more") =
    (tr, (16, 1, 3, "secret", None), "more").
Proof. apply (packet_roundtrip 0 1 3 "secret" "more"); cbn; lia. Defined.

(** Reads of at most 4086 bytes from one connection. *)
Definition short_read (conn : nat) (c : call) : Prop :=
  exists n, c = NetReadFull conn n /\ (n <= 4086)%nat.

Lemma emits_ReadFull conn n : (n <= 4086)%nat -> emits (short_read conn) (ReadFull conn n).
Proof. intros H. destruct n; [done|]. apply emits_act; [by eexists|]. by intros [s err]. Qed.

Lemma emits_read_int32 conn : emits (short_read conn) (read_int32 conn).
Proof. apply emits_bind; [apply emits_ReadFull; lia|]. by intros [s [e|]]. Qed.

Lemma emits_readPacket conn : emits (short_read conn) (readPacket conn).
Proof.
  unfold readPacket. apply emits_bind; [apply emits_read_int32|]. intros [len|e]; [|done].
  destruct (_ || _) eqn:E; [done|]. to_prop.
  do 2 (apply emits_bind; [apply emits_read_int32|]; intros [?|?]; [|done]).
  apply emits_bind; [apply emits_ReadFull; lia|]. intros [body [e|]]; [done|].
  apply emits_bind; [apply emits_ReadFull; lia|]. by intros [].
Qed.

Lemma ReadFull_length conn n tr s err : exec (ReadFull conn n) tr (s, err) -> String.length s = n.
Proof.
  unfold ReadFull. intros H. destruct n; [by exec_inv; simplify_eq|].
  apply exec_act_inv in H as ([t err'] & tr' & -> & H). exec_inv. simplify_eq. apply fill_length.
Qed.

Lemma read_int32_exec conn tr r :
  exec (read_int32 conn) tr r ->
  exists s err, tr = [Ev (NetReadFull conn 4) (s, err)] /\
    r = match err with None => Ok (le32_value (fill 4 s)) | Some e => Err e end.
Proof.
  unfold read_int32, ReadFull. intros H. apply exec_bind_inv in H as (tr1 & [t err'] & tr2 & -> & H1 & H).
  apply exec_act_inv in H1 as ([s err] & tr' & -> & H1). apply exec_ret_inv in H1 as [-> [= <- <-]].
  exists s, err. destruct err; exec_inv; by rewrite ?app_nil_r.
Qed.

(** C32: a packet is read without an error only when its length field lies in 10..4096, and then
    its body has as many bytes as the field announces, less the ten of the id, the type and the
    two terminators.  A length field outside these bounds is refused as soon as it is read:
    [readPacket] returns that length, a zero id and type and no body together with the error,
    and reads nothing more, whatever the other side sends.  A first read that fails is returned
    with a zero length.  No read asks for more than 4086 bytes. *)
Theorem readPacket_bounds (conn : nat) tr (length id typ : Z) (body : string) (err : option error) :
  exec (readPacket conn) tr (length, id, typ, body, err) ->
  (err = None -> 10 <= length <= 4096 /\ length = 10 + Z.of_nat (String.length body)) /\
  (exists s err0 tr', tr = Ev (NetReadFull conn 4) (s, err0) :: tr' /\
    match err0 with
    | None => length = le32_value (fill 4 s) /\
        (length < 10 \/ 4096 < length ->
         tr' = [] /\ id = 0 /\ typ = 0 /\ body = "" /\
         err = Some (Errorf ("rcon: bad length " +:+ FormatInt length)))
    | Some e => tr' = [] /\ length = 0 /\ err = Some e
    end) /\
  (forall e, e ∈ tr -> short_read conn (ev_call e)).
Proof.
  intros H. assert (Hread := emits_exec _ _ _ _ (emits_readPacket conn) H).
  unfold readPacket in H. apply exec_bind_inv in H as (tr1 & r & tr2 & -> & H1 & H).
  apply read_int32_exec in H1 as (s & err0 & -> & ->). destruct err0 as [e|].
  { exec_inv. simplify_eq. split_and!; [done| |exact Hread]. by eexists s, (Some e), []. }
  destruct (_ || _) eqn:E; to_prop.
  { exec_inv. simplify_eq. split_and!; [done| |exact Hread]. by eexists s, None, []. }
  assert (length = le32_value (fill 4 s) /\
    (err = None -> length = 10 + Z.of_nat (String.length body))) as [-> Hb]; cycle 1.
  { split_and!; [intros ->; split; [lia|by apply Hb]| |exact Hread].
    exists s, None, tr2. split_and!; [done..|lia]. }
  clear Hread. apply exec_bind_inv in H as (tr3 & [id'|e] & tr4 & -> & _ & H); [|by exec_inv; simplify_eq].
  apply exec_bind_inv in H as (tr5 & [typ'|e] & tr6 & -> & _ & H); [|by exec_inv; simplify_eq].
  apply exec_bind_inv in H as (tr7 & [body' [e|]] & tr8 & -> & Hb & H); [by exec_inv; simplify_eq|].
  apply ReadFull_length in Hb.
  apply exec_bind_inv in H as (tr9 & [t err'] & tr10 & -> & _ & H). exec_inv. simplify_eq.
  split; [done|]. intros _. lia.
Qed.

Lemma readPacket_bounds_witness :
  exists tr, exec (readPacket 0) (Ev (NetReadFull 0 4) (le32 (-1), None) :: tr)
    (-1, 0, 0, "", Some (Errorf "rcon: bad length -1")) /\ tr = [].
Proof.
  assert (Hex : exec (readPacket 0) [Ev (NetReadFull 0 4) (le32 (-1), None)]
    (-1, 0, 0, "", Some (Errorf "rcon: bad length -1"))) by (apply exec_act; vm_compute; apply exec_ret).
  eexists. split; [exact Hex|].
  destruct (readPacket_bounds _ _ _ _ _ _ _ Hex) as (_ & (s & err0 & tr' & Heq & H) & _).
  assert (tr' = []) as -> by by injection Heq. done.
Defined.

#[global] Arguments readPacket : simpl never.
#[global] Arguments packet : simpl never.

(** ** Connections *)

(** The connections a trace opened and closed, what it wrote, and the deadlines it set. *)
Fixpoint opened (tr : list kevent) : list nat :=
  match tr with
  | [] => []
  | Ev (NetDial _ _ _) (Ok c) :: tr => c :: opened tr
  | _ :: tr => opened tr
  end.
Fixpoint closed (tr : list kevent) : list nat :=
  match tr with
  | [] => []
  | Ev (NetClose c) _ :: tr => c :: closed tr
  | _ :: tr => closed tr
  end.
Fixpoint written (tr : list kevent) : list (nat * string) :=
  match tr with
  | [] => []
  | Ev (NetWrite c s) _ :: tr => (c, s) :: written tr
  | _ :: tr => written tr
  end.
(** The addresses that were dialled. *)
Fixpoint dialed (tr : list kevent) : list string :=
  match tr with
  | [] => []
  | Ev (NetDial _ _ addr) _ :: tr => addr :: dialed tr
  | _ :: tr => dialed tr
  end.

Lemma dialed_app t1 t2 : dialed (t1 ++ t2) = dialed t1 ++ dialed t2.
Proof. induction t1 as [|[[] r] t1 IH]; cbn; by rewrite ?IH. Qed.
Lemma opened_app t1 t2 : opened (t1 ++ t2) = opened t1 ++ opened t2.
Proof. induction t1 as [|[[] r] t1 IH]; cbn; rewrite ?IH; try done. by destruct r. Qed.
Lemma closed_app t1 t2 : closed (t1 ++ t2) = closed t1 ++ closed t2.
Proof. induction t1 as [|[[] r] t1 IH]; cbn; by rewrite ?IH. Qed.
Lemma written_app t1 t2 : written (t1 ++ t2) = written t1 ++ written t2.
Proof. induction t1 as [|[[] r] t1 IH]; cbn; by rewrite ?IH. Qed.
#[export] Hint Rewrite dialed_app opened_app closed_app written_app : ark_rw.

(** Reading packets opens, closes and writes nothing. *)
Lemma quiet_reads conn tr :
  (forall e, e ∈ tr -> short_read conn (ev_call e)) ->
  opened tr = [] /\ closed tr = [] /\ written tr = [] /\ dialed tr = [].
Proof.
  induction tr as [|e tr IH]; intros H; [done|].
  destruct IH as (H1 & H2 & H3 & H4); [set_solver|].
  destruct (H e) as (n & Hn & _); [left|]. destruct e as [c r]. cbn in Hn. by subst c.
Qed.

Lemma readPacket_quiet conn tr r :
  exec (readPacket conn) tr r ->
  opened tr = [] /\ closed tr = [] /\ written tr = [] /\ dialed tr = [].
Proof. intros H. eapply quiet_reads. by eapply emits_exec, H; apply emits_readPacket. Qed.

(** Simplifies what a trace opened, closed and wrote. *)
Ltac trace_simpl :=
  repeat match goal with
  | H : exec (readPacket _) _ _ |- _ => apply readPacket_quiet in H as (? & ? & ? & ?)
  end;
  rewrite ?opened_app, ?closed_app, ?written_app, ?dialed_app; cbn;
  rewrite ?opened_app, ?closed_app, ?written_app, ?dialed_app; cbn;
  repeat match goal with
  | H : opened _ = _ |- _ => rewrite H
  | H : closed _ = _ |- _ => rewrite H
  | H : written _ = _ |- _ => rewrite H
  | H : dialed _ = _ |- _ => rewrite H
  end; cbn; rewrite ?app_nil_r.

Lemma Exec_exec ctx cmd c tr r c' :
  exec (Exec ctx cmd c) tr (r, c') ->
  c' = c <| nextID := Int.int32 (nextID c + 1) |> /\ opened tr = [] /\ closed tr = [] /\ dialed tr = [] /\
  written tr = [(conn c, packet (Int.int32 (nextID c + 1)) packetTypeExecCommand cmd)].
Proof.
  unfold Exec, nextRequestID, writePacket. intros H. cbn in H.
  apply exec_bind_inv in H as (tr1 & d & tr2 & -> & H1 & H).
  assert (opened tr1 = [] /\ closed tr1 = [] /\ written tr1 = [] /\ dialed tr1 = []) as (? & ? & ? & ?).
  { destruct ctx; exec_inv; done. }
  apply exec_act_inv in H as (u & tr3 & -> & H). apply exec_act_inv in H as ([?|e] & tr4 & -> & H).
  - cbn in H. apply exec_bind_inv in H as (tr5 & body & tr6 & -> & Hb & H).
    apply exec_bind_inv in Hb as (tr7 & [[[[? ?] ?] ?] err] & tr8 & -> & Hp & Hb).
    assert (tr8 = []) as -> by (destruct err; by exec_inv).
    clear Hb. exec_inv. simplify_eq. split; [done|]. trace_simpl. done.
  - exec_inv. simplify_eq. split; [done|]. trace_simpl. done.
Qed.

Lemma close_exec {A} k (x : A) tr r :
  exec (let* _ := kcall (NetClose k) in Ret x) tr r -> tr = [Ev (NetClose k) tt] /\ r = x.
Proof. intros H. exec_inv. by match goal with u : resp (NetClose _) |- _ => destruct u end. Qed.

Lemma last_close k (e : kevent) l (x : resp (NetClose k)) :
  last (e :: l ++ [Ev (NetClose k) x]) = Some (Ev (NetClose k) x).
Proof. by rewrite app_comm_cons, last_snoc. Qed.

Definition auth_packet (k : nat) (pw : string) : nat * string := (k, packet 1 packetTypeAuth pw).

Lemma Dial_exec ctx addr pw timeout tr r :
  exec (Dial ctx addr pw timeout) tr r ->
  dialed tr = [addr] /\
  match r with
  | Ok c => nextID c = 1 /\ opened tr = [conn c] /\ closed tr = [] /\
      written tr = [auth_packet (conn c) pw]
  | Err _ => opened tr = [] /\ closed tr = [] /\ written tr = [] \/
      exists k, opened tr = [k] /\ closed tr = [k] /\ written tr = [auth_packet k pw] /\
        last tr = Some (Ev (NetClose k) tt)
  end.
Proof.
  unfold Dial, nextRequestID, writePacket. intros H. cbn in H.
  apply exec_act_inv in H as ([k|e] & tr1 & -> & H); [|exec_inv; cbn; split; [done|]; tauto].
  apply exec_act_inv in H as (now & tr2 & -> & H). apply exec_act_inv in H as (u & tr3 & -> & H).
  apply exec_act_inv in H as ([?|e] & tr4 & -> & H); change (Int.int32 (0 + 1)) with 1 in *.
  - cbn in H. apply exec_bind_inv in H as (tr5 & [[[[? gotID] ?] ?] err] & tr6 & -> & Hp & H).
    destruct err as [e|]; [|destruct (gotID =? -1)].
    + apply close_exec in H as [-> ->]. split; [by trace_simpl|]. right. exists k. rewrite !app_comm_cons, last_snoc. trace_simpl. done.
    + apply close_exec in H as [-> ->]. split; [by trace_simpl|]. right. exists k. rewrite !app_comm_cons, last_snoc. trace_simpl. done.
    + exec_inv. split; [by trace_simpl|]. trace_simpl. done.
  - apply close_exec in H as [-> ->]. split; [done|]. right. exists k. done.
Qed.

#[global] Arguments Dial : simpl never.
#[global] Arguments Exec : simpl never.

Definition cmd_packet (k : nat) (id : Z) (cmd : string) : nat * string :=
  (k, packet id packetTypeExecCommand cmd).

(** A connection, if one was opened, was closed, and by the last call. *)
Definition no_leak (tr : list kevent) : Prop :=
  opened tr = [] /\ closed tr = [] \/
  exists k, opened tr = [k] /\ closed tr = [k] /\ last tr = Some (Ev (NetClose k) tt).

(** C33: [SaveAndExit] leaks no connection on any path; it sends the password first, [SaveWorld]
    next, and [DoExit] only when [SaveWorld] was answered; it reports success exactly when all
    three were sent, whatever became of [DoExit]. *)
Theorem SaveAndExit_spec ctx addr pw tr r :
  exec (SaveAndExit ctx addr pw) tr r ->
  no_leak tr /\
  match r with
  | Ok _ => exists k, written tr = [auth_packet k pw; cmd_packet k 2 "SaveWorld"; cmd_packet k 3 "DoExit"]
  | Err _ => written tr = [] \/ exists k, written tr = [auth_packet k pw] \/
      written tr = [auth_packet k pw; cmd_packet k 2 "SaveWorld"]
  end.
Proof.
  unfold SaveAndExit, no_leak. intros H.
  apply exec_bind_inv in H as (tr0 & dctx & tr1 & -> & H0 & H).
  assert (exists now, tr0 = [Ev Now now]) as [now ->]
    by (unfold WithTimeout in H0; clear H; exec_inv; by eexists).
  apply exec_bind_inv in H as (tr2 & [c|e] & tr3 & -> & Hd & H); apply Dial_exec in Hd as [Hdl Hd]; cbn in H.
  - destruct Hd as (Hid & Ho & Hc & Hw).
    apply exec_bind_inv in H as (tr4 & [r1 c1] & tr5 & -> & He & H).
    apply Exec_exec in He as (-> & Ho1 & Hc1 & Hd1 & Hw1). rewrite Hid in *. destruct r1 as [body|e].
    + apply exec_bind_inv in H as (tr6 & [r2 c2] & tr7 & -> & He & H).
      apply Exec_exec in He as (-> & Ho2 & Hc2 & Hd2 & Hw2). cbn in *. apply close_exec in H as [-> ->].
      split; [right|]; exists (conn c); cbn; rewrite ?last_cons, ?last_app; trace_simpl; done.
    + apply close_exec in H as [-> ->]. split; [right; exists (conn c)|right; exists (conn c); right];
        cbn; rewrite ?last_cons, ?last_app; trace_simpl; done.
  - exec_inv. rewrite app_nil_r. cbn.
    destruct Hd as [(Ho & Hc & Hw)|(k & Ho & Hc & Hw & Hl)].
    + split; [by left|by left].
    + split; [right; exists k|right; exists k; by left]. rewrite last_cons, Hl. done.
Qed.

(** A server that accepts the password and answers both commands. *)
Definition demo_stream : string := packet 1 2 "" +:+ packet 2 0 "World Saved" +:+ packet 3 0 "Exiting".

Lemma SaveAndExit_spec_witness :
  exists tr, exec (SaveAndExit None "1.2.3.4:27020" "pw") tr (Ok tt) /\ no_leak tr /\
    exists k, written tr = [auth_packet k "pw"; cmd_packet k 2 "SaveWorld"; cmd_packet k 3 "DoExit"].
Proof.
  destruct (run stream_env (SaveAndExit None "1.2.3.4:27020" "pw") demo_stream) as [[tr r] w] eqn:E.
  pose proof (run_exec _ _ _ _ _ _ E) as Hex. exists tr.
  assert (r = Ok tt) as -> by (vm_compute in E; injection E; done).
  split; [exact Hex|]. apply (SaveAndExit_spec _ _ _ _ _ Hex).
Defined.

(** [AnnounceShutdown] leaks no connection either; once the password is accepted it sends one
    chat message, with the time that is left and the reason. *)
Theorem AnnounceShutdown_spec ctx addr pw in_ reason tr r :
  exec (AnnounceShutdown ctx addr pw in_ reason) tr r ->
  no_leak tr /\
  (written tr = [] \/ exists k, written tr = [auth_packet k pw] \/
     written tr = [auth_packet k pw; cmd_packet k 2
       ("ServerChat Server shutting down in " +:+ roundDuration in_ +:+ " for " +:+ reason)]) /\
  (r = Ok tt -> length (written tr) = 2%nat).
Proof.
  unfold AnnounceShutdown, no_leak. intros H.
  apply exec_bind_inv in H as (tr0 & dctx & tr1 & -> & H0 & H).
  assert (exists now, tr0 = [Ev Now now]) as [now ->]
    by (unfold WithTimeout in H0; clear H; exec_inv; by eexists).
  apply exec_bind_inv in H as (tr2 & [c|e] & tr3 & -> & Hd & H); apply Dial_exec in Hd as [Hdl Hd]; cbn -[roundDuration] in H.
  - destruct Hd as (Hid & Ho & Hc & Hw).
    apply exec_bind_inv in H as (tr4 & [r1 c1] & tr5 & -> & He & H).
    apply Exec_exec in He as (-> & Ho1 & Hc1 & Hd1 & Hw1). rewrite Hid in *.
    apply close_exec in H as [-> ->].
    split_and!; [right; exists (conn c)|right; exists (conn c); right|]; cbn -[roundDuration];
      rewrite ?last_cons, ?last_app; trace_simpl; done.
  - exec_inv. rewrite app_nil_r. cbn.
    destruct Hd as [(Ho & Hc & Hw)|(k & Ho & Hc & Hw & Hl)].
    + split_and!; [by left|by left|done].
    + split_and!; [right; exists k|right; exists k; by left|done]. rewrite last_cons, Hl. done.
Qed.

Lemma AnnounceShutdown_spec_witness :
  exists tr, exec (AnnounceShutdown None "1.2.3.4:27020" "pw" (30 * Minute) "cluster update") tr (Ok tt) /\
    length (written tr) = 2%nat.
Proof.
  destruct (run stream_env (AnnounceShutdown None "1.2.3.4:27020" "pw" (30 * Minute) "cluster update")
    demo_stream) as [[tr r] w] eqn:E.
  pose proof (run_exec _ _ _ _ _ _ E) as Hex. exists tr.
  assert (r = Ok tt) as -> by (vm_compute in E; injection E; done).
  split; [exact Hex|]. by apply (AnnounceShutdown_spec _ _ _ _ _ _ _ Hex).
Defined.

(** [Dial] accepts a server whose first packet carries any request id but -1, and refuses -1
    with the authentication error; the packet is consumed and no byte after it. *)
Theorem Dial_auth (addr pw : string) (timeout id typ : Z) (body rest : string) :
  - 2 ^ 31 <= id < 2 ^ 31 -> - 2 ^ 31 <= typ < 2 ^ 31 ->
  Z.of_nat (String.length body) <= 4096 - 10 ->
  exists tr, run stream_env (Dial None addr pw timeout) (packet id typ body +:+ rest) =
    (tr, if id =? -1 then Err ErrAuthFailed else Ok (MkClient 0 1), rest).
Proof.
  intros Hid Htyp Hlen.
  destruct (readPacket_stream 0 id typ body rest Hid Htyp Hlen) as [tr H].
  unfold Dial. cbn. rewrite run_bind, H. cbn. destruct (id =? -1); cbn; by eexists.
Qed.

Lemma Dial_auth_witness :
  exists tr, run stream_env (Dial None "1.2.3.4:27020" "wrong" Second) (packet (-1) 2 "" +:+ "") =
    (tr, Err ErrAuthFailed, "").
Proof. apply (Dial_auth "1.2.3.4:27020" "wrong" Second (-1) 2 "" ""); cbn; lia. Defined.

(** Checking the multiples of a unit below [n]. *)
Lemma whole_units (unit : Z) (name : string) (n : nat) (k : Z) :
  forallb (fun k => (k =? 0) || String.eqb (roundDuration (k * unit)) (FormatInt k +:+ name)) (small n) = true ->
  1 <= k < Z.of_nat n -> roundDuration (k * unit) = FormatInt k +:+ name.
Proof.
  intros H Hk. eapply small_forall in H as Hs; [|split; [|apply Hk]; lia]. cbv beta in Hs.
  to_prop. destruct Hs; to_prop; [lia|done].
Qed.

(** a grace period that is a whole number of hours below 1000, of minutes below an hour or of
    seconds below a minute is announced as that number of that unit: the float64 arithmetic
    loses nothing there. *)
Theorem roundDuration_whole (k : Z) :
  (1 <= k < 1000 -> roundDuration (k * Hour) = FormatInt k +:+ " hours") /\
  (1 <= k < 60 -> roundDuration (k * Minute) = FormatInt k +:+ " minutes") /\
  (1 <= k < 60 -> roundDuration (k * Second) = FormatInt k +:+ " seconds").
Proof.
  split_and!; intros Hk.
  - apply (whole_units Hour " hours" 1000); [vm_compute; reflexivity|lia].
  - apply (whole_units Minute " minutes" 60); [vm_compute; reflexivity|lia].
  - apply (whole_units Second " seconds" 60); [vm_compute; reflexivity|lia].
Qed.

Lemma roundDuration_whole_witness : roundDuration (30 * Minute) = "30 minutes".
Proof. apply (roundDuration_whole 30). lia. Defined.

(** ** RCON touches the network and the clock only *)

Lemma emits_net_readPacket conn : emits is_net (readPacket conn).
Proof. eapply emits_mono, emits_readPacket. by intros c (n & -> & _). Qed.

Lemma emits_net_Exec ctx cmd c : emits is_net (Exec ctx cmd c).
Proof.
  unfold Exec, nextRequestID. apply emits_bind; [by destruct ctx|]. intros d. cbn [bind do_call].
  apply emits_act; [done|]. intros _. apply emits_bind; [|done].
  apply emits_act; [done|]. intros [?|?]; [|done].
  apply emits_bind; [apply emits_net_readPacket|]. by intros [[[[? ?] ?] ?] []].
Qed.

Lemma emits_net_Dial ctx addr pw timeout : emits is_net (Dial ctx addr pw timeout).
Proof.
  unfold Dial. apply emits_act; [done|]. intros [k|e]; [|done]. cbn.
  do 3 (apply emits_act; [done|intros ?]). case_match; cbn; [|done].
  apply emits_bind; [apply emits_net_readPacket|].
  intros [[[[? id] ?] ?] []]; [|destruct (id =? -1)]; done.
Qed.

Lemma emits_net_AnnounceShutdown ctx addr pw in_ reason :
  emits is_net (AnnounceShutdown ctx addr pw in_ reason).
Proof.
  unfold AnnounceShutdown. apply emits_bind; [by apply emits_act|]. intros d.
  apply emits_bind; [apply emits_net_Dial|]. intros [c|e]; [|done].
  apply emits_bind; [apply emits_net_Exec|]. by intros [].
Qed.

Lemma emits_net_SaveAndExit ctx addr pw : emits is_net (SaveAndExit ctx addr pw).
Proof.
  unfold SaveAndExit. apply emits_bind; [by apply emits_act|]. intros d.
  apply emits_bind; [apply emits_net_Dial|]. intros [c|e]; [|done].
  apply emits_bind; [apply emits_net_Exec|]. intros [[?|?] c']; [|done].
  apply emits_bind; [apply emits_net_Exec|]. by intros [].
Qed.

#[export] Hint Resolve emits_net_AnnounceShutdown emits_net_SaveAndExit : ark.

(** A drain dials the map's address once. *)
Lemma SaveAndExit_dialed ctx addr pw tr r : exec (SaveAndExit ctx addr pw) tr r -> dialed tr = [addr].
Proof.
  unfold SaveAndExit. intros H. apply exec_bind_inv in H as (tr0 & dctx & tr1 & -> & H0 & H).
  assert (exists now, tr0 = [Ev Now now]) as [now ->]
    by (unfold WithTimeout in H0; clear H; exec_inv; by eexists).
  apply exec_bind_inv in H as (tr2 & [c|e] & tr3 & -> & Hd & H); apply Dial_exec in Hd as [Hdl _].
  - apply exec_bind_inv in H as (tr4 & [[body|e] c1] & tr5 & -> & He & H);
      apply Exec_exec in He as (_ & _ & _ & Hd1 & _).
    + apply exec_bind_inv in H as (tr6 & [r2 c2] & tr7 & -> & He & H).
      apply Exec_exec in He as (_ & _ & _ & Hd2 & _). apply close_exec in H as [-> ->]. by trace_simpl.
    + apply close_exec in H as [-> ->]. by trace_simpl.
  - exec_inv. by trace_simpl.
Qed.

#[global] Arguments SaveAndExit : simpl never.
#[global] Arguments AnnounceShutdown : simpl never.
