(* ===== verification/FakeArk.v ===== *)
(** * test/fake-ark-server: the server the end-to-end tests talk to

    [serve] and [writePkt] of [main.go] as programs over their side of the connection, and the
    RCON client run against them: the two sides are coroutines that exchange bytes, each run
    until it waits for the other.  At the end, the accept loop of [main] and its goroutines.  The
    errors of reads and writes that the code drops are dropped here. *)

From S2P Require Import Prelude GoStd Digest Effects ApiTypes Kube Rcon.

Local Open Scope prog_scope.

(** ** main.go *)

(** The port [main] listens on. *)
Definition listen_port (RCON_PORT : string) : string :=
  if String.eqb RCON_PORT "" then "27020" else RCON_PORT.

Definition writePkt (w : nat) (id typ : Z) (body : string) : kprog unit :=
  let length := Int.int32 (4 + 4 + Z.of_nat (String.length body) + 2) in
  let* _ := kcall (NetWrite w (le32 length)) in
  let* _ := kcall (NetWrite w (le32 id)) in
  let* _ := kcall (NetWrite w (le32 typ)) in
  let* _ := kcall (NetWrite w body) in
  let* _ := kcall (NetWrite w two_nulls) in
  Ret tt.

(** A variable that [binary.Read] did not fill stays 0. *)
Definition or_zero (r : res Z) : Z := match r with Ok z => z | Err _ => 0 end.

(** [fuel] bounds the requests that are served. *)
Fixpoint serve (fuel : nat) (conn : nat) : kprog unit :=
  match fuel with
  | O => Ret tt
  | S fuel =>
      let* got := read_int32 conn in
      match got with
      | Err _ => kcall (NetClose conn)
      | Ok length =>
          if (length <? 10) || (length >? 4096) then kcall (NetClose conn)
          else
            let* id := read_int32 conn in
            let* typ := read_int32 conn in
            let* _ := ReadFull conn (Z.to_nat (length - 10)) in
            let* _ := ReadFull conn 2 in
            let respID := if or_zero typ =? 3 then 1 else or_zero id in
            let* _ := writePkt conn respID 0 "ok" in
            serve fuel conn
      end
  end.

(** ** The two sides *)

(** The server, the bytes on their way to it and the bytes on their way to the client. *)
Record link := MkLink { server : kprog unit; to_server : string; to_client : string }.

(** The server's calls; a read of more than was sent waits. *)
Definition server_answer (c : call) (inbox outbox : string) : option (resp c * string * string) :=
  match c as c return option (resp c * string * string) with
  | NetReadFull _ n =>
      if (n <=? String.length inbox)%nat then Some ((str_take n inbox, None), str_drop n inbox, outbox)
      else None
  | NetWrite _ data => Some (Ok tt, inbox, outbox +:+ data)
  | c => Some (demo_answer c, inbox, outbox)
  end.

(** Runs the server until it waits. *)
Fixpoint settle (p : kprog unit) (inbox outbox : string) : link :=
  match p with
  | Ret u => MkLink (Ret u) inbox outbox
  | Act c k =>
      match server_answer c inbox outbox with
      | Some (r, inbox, outbox) => settle (k r) inbox outbox
      | None => MkLink (Act c k) inbox outbox
      end
  end.

(** The client's calls: the server runs whenever something is written to it; a read of more than
    it has answered fails, as it does at the connection's deadline. *)
Definition client_env (c : call) (w : link) : resp c * link :=
  match c as c return resp c -> string -> resp c * link with
  | NetWrite _ data => fun _ _ => (Ok tt, settle (server w) (to_server w +:+ data) (to_client w))
  | _ => fun r rest => (r, MkLink (server w) (to_server w) rest)
  end (stream_env c (to_client w)).1 (stream_env c (to_client w)).2.

(** ** The server *)

Lemma settle_ReadFull conn s (f : string * option error -> kprog unit) rest out :
  settle (bind (ReadFull conn (String.length s)) f) (s +:+ rest) out = settle (f (s, None)) rest out.
Proof.
  destruct (decide (s = "")) as [->|Hne]; [done|].
  assert (ReadFull conn (String.length s) = let* (t, err) := kcall (NetReadFull conn (String.length s)) in
    Ret (fill (String.length s) t, err)) as -> by by destruct s.
  cbn -[str_take str_drop fill].
  assert (((String.length s) <=? String.length (s +:+ rest))%nat = true) as ->.
  { apply Nat.leb_le. rewrite str_length_app. lia. }
  by rewrite str_take_app, str_drop_app, fill_full.
Qed.

Lemma settle_int32 conn z (f : res Z -> kprog unit) rest out :
  settle (bind (read_int32 conn) f) (le32 z +:+ rest) out = settle (f (Ok (Int.int32 z))) rest out.
Proof.
  unfold read_int32, ReadFull. cbn -[str_take str_drop le32 le32_value Nat.leb fill].
  assert ((4 <=? String.length (le32 z +:+ rest))%nat = true) as ->.
  { apply Nat.leb_le. rewrite str_length_app, le32_length. lia. }
  rewrite <- (le32_length z), str_take_app, str_drop_app.
  rewrite fill_full. cbn -[le32 le32_value]. by rewrite le32_roundtrip.
Qed.

Lemma settle_writePkt conn id typ body (f : unit -> kprog unit) inbox out :
  settle (bind (writePkt conn id typ body) f) inbox out = settle (f tt) inbox (out +:+ packet id typ body).
Proof. unfold packet. cbn -[le32]. by rewrite <- !str_app_assoc. Qed.

(** Between two requests the server waits. *)
Lemma serve_waits fuel conn out : settle (serve fuel conn) "" out = MkLink (serve fuel conn) "" out.
Proof. by destruct fuel. Qed.

(** A request is answered, and the server waits for the next. *)
Lemma serve_request fuel conn id typ body out :
  - 2 ^ 31 <= id < 2 ^ 31 -> - 2 ^ 31 <= typ < 2 ^ 31 ->
  Z.of_nat (String.length body) <= 4096 - 10 ->
  settle (serve (S fuel) conn) (packet id typ body) out =
  MkLink (serve fuel conn) "" (out +:+ packet (if typ =? 3 then 1 else id) 0 "ok").
Proof.
  intros Hid Htyp Hlen. unfold packet at 1. cbn [serve].
  replace (4 + 4 + Z.of_nat (String.length body) + 2) with (Z.of_nat (String.length body) + 10) by lia.
  set (len := Z.of_nat (String.length body) + 10).
  assert (Hl : Int.int32 (Int.int32 len) = len) by (rewrite !Int.int32_id; subst len; rewrite ?Int.int32_id; lia).
  rewrite settle_int32, Hl. replace (_ || _) with false by (symmetry; apply orb_false_iff; lia).
  rewrite settle_int32, (Int.int32_id id) by done. rewrite settle_int32, (Int.int32_id typ) by done.
  replace (Z.to_nat (len - 10)) with (String.length body) by lia. rewrite settle_ReadFull.
  rewrite <- (str_app_nil_r two_nulls), (settle_ReadFull _ two_nulls), settle_writePkt. apply serve_waits.
Qed.

(** ** The client *)

(** A program that only reads sees the bytes on their way to it. *)
Lemma run_reads conn {A} (p : kprog A) w :
  emits (short_read conn) p ->
  run client_env p w =
  let '(tr, a, rest) := run stream_env p (to_client w) in (tr, a, MkLink (server w) (to_server w) rest).
Proof.
  revert w. induction p as [a|c k IH]; intros w He; [by destruct w|].
  destruct He as [(n & -> & _) He]. cbn [run client_env]. destruct (stream_env _ (to_client w)) as [r rest] eqn:E.
  cbn [fst snd]. rewrite IH by (by eapply emits_any, He). cbn [server to_server to_client].
  by destruct (run stream_env (k r) rest) as [[tr a] w'].
Qed.

(** The link between two requests: the server waits for [fuel] more. *)
Definition idle (fuel : nat) : link := MkLink (serve fuel 0) "" "".

(** The client returns [a] and leaves the link in [w']. *)
Definition reaches {A} (p : kprog A) (w : link) (a : A) (w' : link) : Prop :=
  exists tr, run client_env p w = (tr, a, w').

Lemma reaches_ret {A} (a : A) w : reaches (Ret a) w a w.
Proof. by exists []. Qed.

Lemma reaches_act {A} c (k : resp c -> kprog A) w r w1 a w' :
  client_env c w = (r, w1) -> reaches (k r) w1 a w' -> reaches (Act c k) w a w'.
Proof. intros Hc [tr H]. exists (Ev c r :: tr). cbn [run]. by rewrite Hc, H. Qed.

Lemma reaches_bind {A B} (p : kprog A) (f : A -> kprog B) w a w1 b w' :
  reaches p w a w1 -> reaches (f a) w1 b w' -> reaches (bind p f) w b w'.
Proof. intros [tr1 H1] [tr2 H2]. exists (tr1 ++ tr2). by rewrite run_bind, H1, H2. Qed.

(** The calls that the link does not see. *)
Ltac quiet_step := cbn [bind do_call]; eapply reaches_act; [reflexivity|].

(** Sending a packet and reading the answer. *)
Lemma reaches_request {A} fuel conn id typ body (k : res unit -> kprog A) w a w' :
  - 2 ^ 31 <= id < 2 ^ 31 -> - 2 ^ 31 <= typ < 2 ^ 31 ->
  Z.of_nat (String.length body) <= 4096 - 10 ->
  w = idle (S fuel) ->
  (forall w1, reaches (readPacket conn) w1 (12, if typ =? 3 then 1 else id, 0, "ok", None) (idle fuel) ->
    reaches (k (Ok tt)) w1 a w') ->
  reaches (bind (writePacket conn id typ body) k) w a w'.
Proof.
  intros Hid Htyp Hlen -> Hk. unfold writePacket. cbn [bind do_call]. eapply reaches_act; [reflexivity|].
  apply Hk. unfold reaches, idle. cbn [server to_server to_client].
  change ("" +:+ ?s) with s. rewrite serve_request by done. change ("" +:+ ?s) with s.
  rewrite (run_reads conn) by apply emits_readPacket. cbn [server to_server to_client].
  rewrite <- (str_app_nil_r (packet _ 0 "ok")).
  destruct (readPacket_stream conn (if typ =? 3 then 1 else id) 0 "ok" "") as [tr H];
    [by destruct (typ =? 3)|done|done|]. rewrite H. by exists tr.
Qed.

Lemma reaches_Dial fuel ctx addr pw timeout :
  Z.of_nat (String.length pw) <= 4096 - 10 ->
  reaches (Dial ctx addr pw timeout) (idle (S fuel)) (Ok (MkClient 0 1)) (idle fuel).
Proof.
  intros Hpw. unfold Dial, nextRequestID. do 3 quiet_step.
  eapply reaches_request; [done..|]. intros w1 Hread. eapply reaches_bind; [exact Hread|].
  quiet_step. apply reaches_ret.
Qed.

Lemma reaches_Exec fuel ctx id cmd :
  0 <= id < 2 ^ 31 - 1 -> Z.of_nat (String.length cmd) <= 4096 - 10 ->
  reaches (Exec ctx cmd (MkClient 0 id)) (idle (S fuel)) (Ok "ok", MkClient 0 (id + 1)) (idle fuel).
Proof.
  intros Hid Hcmd. unfold Exec, nextRequestID. cbn [nextID]. rewrite Int.int32_id by lia.
  eapply (reaches_bind _ _ _ (default (0 + 10 * Second) ctx)).
  { destruct ctx; [apply reaches_ret|]. quiet_step. apply reaches_ret. }
  quiet_step. cbn [conn]. eapply reaches_bind.
  { eapply reaches_request; [lia|done|done|done|]. intros w1 Hread.
    eapply reaches_bind; [exact Hread|]. apply reaches_ret. }
  cbn [Z.eqb]. quiet_step. apply reaches_ret.
Qed.

(** C34: the RCON client and the test server speak the same protocol.  For every password that fits
    a packet, [SaveAndExit] and [AnnounceShutdown] against [serve] neither block nor fail: every
    request is read whole by the server, every answer whole by the client, no byte is left
    underway when they are done, and the server is back at waiting for a request ([DoExit] is its
    third). *)
Theorem fake_ark_serves fuel ctx addr pw in_ reason :
  Z.of_nat (String.length pw) <= 4096 - 10 ->
  Z.of_nat (String.length (roundDuration in_)) + Z.of_nat (String.length reason) <= 4096 - 53 ->
  reaches (SaveAndExit ctx addr pw) (idle (3 + fuel)) (Ok tt) (idle fuel) /\
  reaches (AnnounceShutdown ctx addr pw in_ reason) (idle (2 + fuel)) (Ok tt) (idle fuel).
Proof.
  intros Hpw Hmsg.
  assert (Hctx : forall A f w (a : A) w', (forall d, reaches (f d) w a w') ->
    reaches (bind (WithTimeout ctx (10 * Second)) f) w a w').
  { intros A f w a w' Hf. eapply reaches_act; [by destruct w|]. apply Hf. }
  split.
  - unfold SaveAndExit. apply Hctx. intros d. eapply reaches_bind; [by apply reaches_Dial|].
    eapply reaches_bind; [by apply reaches_Exec|]. eapply reaches_bind; [by apply reaches_Exec|].
    quiet_step. apply reaches_ret.
  - unfold AnnounceShutdown. apply Hctx. intros d. eapply reaches_bind; [by apply reaches_Dial|].
    eapply reaches_bind; [apply reaches_Exec; [lia|]|quiet_step; apply reaches_ret].
    rewrite !str_length_app. cbn [String.length]. lia.
Qed.

Lemma fake_ark_serves_witness :
  reaches (SaveAndExit None "10.0.0.1:27020" "secret") (idle 3) (Ok tt) (idle 0) /\
  reaches (AnnounceShutdown None "10.0.0.1:27020" "secret" (30 * Minute) "cluster update") (idle 2) (Ok tt) (idle 0).
Proof. apply (fake_ark_serves 0); vm_compute; discriminate. Defined.

(** ** The accept loop

    [main] accepts connections for ever and serves each in a goroutine of its own.  The goroutines, in
    the order of their connections, take their steps in any order. *)

Abbreviation goroutines := (list (nat * kprog unit)).

(** [main] up to the loop: it listens, or exits with status 1. *)
Definition fake_main (Getenv : string -> string) (Listen : string -> res unit) : Z + goroutines :=
  match Listen (":" +:+ listen_port (Getenv "RCON_PORT")) with
  | Err _ => inl 1
  | Ok _ => inr []
  end.

Inductive main_event := Accepted (got : res nat) | Stepped (i : nat) (e : kevent).

Inductive main_step (fuel : nat) : goroutines -> main_event -> goroutines -> Prop :=
  | step_accept conn gs : main_step fuel gs (Accepted (Ok conn)) (gs ++ [(conn, serve fuel conn)])
  | step_continue e gs : main_step fuel gs (Accepted (Err e)) gs
  | step_serve i conn c k r gs :
      gs !! i = Some (conn, Act c k) -> main_step fuel gs (Stepped i (Ev c r)) (<[i := (conn, k r)]> gs).

Inductive main_run (fuel : nat) : goroutines -> list main_event -> goroutines -> Prop :=
  | run_start gs : main_run fuel gs [] gs
  | run_step gs evs gs1 ev gs2 :
      main_run fuel gs evs gs1 -> main_step fuel gs1 ev gs2 -> main_run fuel gs (evs ++ [ev]) gs2.

Definition accepted (evs : list main_event) : list nat :=
  omap (fun ev => match ev with Accepted (Ok conn) => Some conn | _ => None end) evs.
Definition steps_of (i : nat) (evs : list main_event) : list kevent :=
  omap (fun ev => match ev with Stepped j e => if decide (i = j) then Some e else None | _ => None end) evs.

(** With the answers of [tr], [p] has come to [p']. *)
Inductive comes {A} : kprog A -> list kevent -> kprog A -> Prop :=
  | comes_here p : comes p [] p
  | comes_on p tr c k r : comes p tr (Act c k) -> comes p (tr ++ [Ev c r]) (k r).

Lemma comes_exec {A} (p p' : kprog A) tr tr' a : comes p tr p' -> exec p' tr' a -> exec p (tr ++ tr') a.
Proof.
  intros Hc. revert tr' a. induction Hc as [p|p tr c k r Hc IH]; intros tr' a Hex; [done|].
  rewrite <- app_assoc. apply IH. by constructor.
Qed.

Definition on_conn (conn : nat) (c : call) : Prop :=
  match c with NetReadFull w _ | NetWrite w _ | NetClose w => w = conn | _ => False end.

Lemma emits_serve fuel conn : emits (on_conn conn) (serve fuel conn).
Proof.
  assert (Hread : forall n, emits (on_conn conn) (ReadFull conn n)).
  { intros [|n]; [done|]. apply emits_act; [done|]. by intros []. }
  assert (Hint : emits (on_conn conn) (read_int32 conn)).
  { apply emits_bind; [apply Hread|]. intros [s []]; apply emits_ret. }
  assert (Hclose : emits (on_conn conn) (kcall (NetClose conn))) by by apply emits_act.
  induction fuel as [|fuel IH]; [apply emits_ret|]. cbn [serve].
  apply emits_bind; [exact Hint|]. intros [length|e]; [|exact Hclose]. destruct (_ || _); [exact Hclose|].
  do 2 (apply emits_bind; [exact Hint|intros ?]). do 2 (apply emits_bind; [apply Hread|intros ?]).
  apply emits_bind; [|intros _; exact IH]. unfold writePkt. cbv zeta.
  do 5 (apply emits_bind; [by apply emits_act|intros ?]). apply emits_ret.
Qed.

(** The goroutines, after the events so far. *)
Record serving (fuel : nat) (evs : list main_event) (gs : goroutines) : Prop := {
  srv_conns : fst <$> gs = accepted evs;
  srv_later i : (length gs <= i)%nat -> steps_of i evs = [];
  srv_each i conn p : gs !! i = Some (conn, p) -> comes (serve fuel conn) (steps_of i evs) p }.

Lemma serving_step fuel evs gs ev gs' :
  serving fuel evs gs -> main_step fuel gs ev gs' -> serving fuel (evs ++ [ev]) gs'.
Proof.
  intros [Hconns Hlater Heach] Hstep.
  assert (Hcons : accepted (evs ++ [ev]) = accepted evs ++ accepted [ev]) by apply omap_app.
  assert (Hsteps : forall i, steps_of i (evs ++ [ev]) = steps_of i evs ++ steps_of i [ev]) by (intros; apply omap_app).
  destruct Hstep as [conn gs|e gs|j conn c k r gs Hj].
  - split; [rewrite Hcons|intros i; rewrite Hsteps, app_nil_r..].
    + by rewrite fmap_app, Hconns.
    + rewrite length_app. cbn. intros Hi. apply Hlater. lia.
    + intros c p [Hi|[Hlen Hi]]%lookup_app_Some; [by apply Heach|].
      apply list_lookup_singleton_Some in Hi as [Hz [= <- <-]]. rewrite Hlater by lia. constructor.
  - split; [rewrite Hcons|intros i; rewrite Hsteps..]; cbn; rewrite app_nil_r; auto.
  - split; [rewrite Hcons, app_nil_r|intros i; rewrite Hsteps; cbn..].
    + rewrite list_fmap_insert, list_insert_id; [done|]. by rewrite list_lookup_fmap, Hj.
    + rewrite length_insert. intros Hi. rewrite Hlater by done. case_decide as Hij; [|done].
      subst j. apply lookup_lt_Some in Hj. lia.
    + intros conn' p Hi. apply list_lookup_insert_Some in Hi as [(<- & [= <- <-] & _)|[Hne Hi]].
      * rewrite decide_True by done. apply comes_on. by apply Heach.
      * rewrite decide_False by done. rewrite app_nil_r. by apply Heach.
Qed.

(** Every connection is served, as if it were alone: the goroutines are those of the connections
    accepted so far, failed accepts apart; what each has done is the beginning of a run of [serve], and
    was done to its connection alone. *)
Theorem main_serves_each fuel Getenv Listen gs0 evs gs :
  fake_main Getenv Listen = inr gs0 -> main_run fuel gs0 evs gs ->
  fst <$> gs = accepted evs /\
  forall i conn p, gs !! i = Some (conn, p) ->
    comes (serve fuel conn) (steps_of i evs) p /\ forall e, e ∈ steps_of i evs -> on_conn conn (ev_call e).
Proof.
  intros Hmain Hrun. unfold fake_main in Hmain. destruct (Listen _); [|done]. injection Hmain as <-.
  assert (Hserving : serving fuel evs gs).
  { remember [] as gs0 eqn:E0. induction Hrun as [gs0|gs0 evs gs1 ev gs2 Hrun IH Hstep]; subst.
    - by split.
    - eapply serving_step; [by apply IH|done]. }
  split; [apply Hserving|]. intros i conn p Hi. pose proof (srv_each _ _ _ Hserving i conn p Hi) as Hc.
  split; [exact Hc|]. intros e He. destruct (exec_total p demo_answer) as (tr & u & Hex).
  eapply (emits_exec _ _ _ _ (emits_serve fuel conn) (comes_exec _ _ _ _ _ Hc Hex)). apply elem_of_app. by left.
Qed.
