(* ===== verification/TestUtils.v ===== *)
(** * test/utils: the helpers of the end-to-end tests

    [utils.go]: shell commands, and an edit of files that takes comments out.  Its calls are those of
    packages [os], [os/exec] and of Ginkgo's writer.  An error made by [fmt.Errorf] is a constructor
    with the arguments of its format; writes to a [bytes.Buffer] do not fail. *)

From S2P Require Import Prelude GoStd Effects.

Local Open Scope prog_scope.

(** ** The calls *)

Inductive uerror :=
  | OSError (e : error)
  | GetwdFailed (e : error)
  | RunFailed (command output : string) (e : error)
  | ReadFailed (filename : string) (e : error)
  | TargetNotFound (target : string)
  | WriteFailed (filename : string) (e : error).

(** [exec.Cmd]; the name of the program is the first argument. *)
Record Cmd := MkCmd { Args : list string; Dir : string; Env : list string }.
#[export] Instance Cmd_settable : Settable Cmd := fun r => MkCmd (Args r) (Dir r) (Env r).
Definition Command (name : string) (args : list string) : Cmd := MkCmd (name :: args) "" [].

Inductive message := ChdirDir (e : error) | RunningCommand (command : string) | WarningError (e : uerror).

Inductive ucall :=
  | Getwd
  | Chdir (dir : string)
  | Environ
  | CombinedOutput (cmd : Cmd)
  | LookupEnv (key : string)
  | ReadFile (name : string)
  | WriteFile (name data : string) (perm : Z)
  | Fprintf (m : message).

Definition uresp (c : ucall) : Type :=
  match c with
  | Getwd => string * option error
  | Chdir _ => option error
  | Environ => list string
  | CombinedOutput _ => string * option error
  | LookupEnv _ => option string
  | ReadFile _ => res string
  | WriteFile _ _ _ => option error
  | Fprintf _ => unit
  end.

Abbreviation uprog := (prog uresp).
Abbreviation uevent := (event uresp).
Abbreviation do_os c := (@do_call ucall uresp c).

(** ** utils.go *)

Definition certmanagerVersion : string := "v1.20.2".
Definition certmanagerURL : string :=
  "https://github.com/cert-manager/cert-manager/releases/download/" +:+ certmanagerVersion +:+ "/cert-manager.yaml".
Definition defaultKindBinary : string := "kind".
Definition defaultKindCluster : string := "kind".

Definition warnError (err : uerror) : uprog unit := do_os (Fprintf (WarningError err)).

Definition GetProjectDir : uprog (string * option uerror) :=
  let* got := do_os Getwd in
  match got with
  | (wd, Some err) => Ret (wd, Some (GetwdFailed err))
  | (wd, None) => Ret (ReplaceAll wd "/test/e2e" "", None)
  end.

Definition Run (cmd : Cmd) : uprog (string * option uerror) :=
  let* project := GetProjectDir in
  let cmd := cmd <| Dir := project.1 |> in
  let* moved := do_os (Chdir (Dir cmd)) in
  let* _ := match moved with Some err => do_os (Fprintf (ChdirDir err)) | None => Ret tt end in
  let* env := do_os Environ in
  let cmd := cmd <| Env := env ++ ["GO111MODULE=on"] |> in
  let command := Join (Args cmd) " " in
  let* _ := do_os (Fprintf (RunningCommand command)) in
  let* ran := do_os (CombinedOutput cmd) in
  match ran with
  | (output, Some err) => Ret (output, Some (RunFailed command output err))
  | (output, None) => Ret (output, None)
  end.

(** [if _, err := Run(cmd); err != nil { warnError(err) }]. *)
Definition run_or_warn (cmd : Cmd) : uprog unit :=
  let* ran := Run cmd in
  match ran.2 with Some err => warnError err | None => Ret tt end.

Definition delete_lease (lease : string) : Cmd :=
  Command "kubectl" ["delete"; "lease"; lease;
    "-n"; "kube-system"; "--ignore-not-found"; "--force"; "--grace-period=0"].

Fixpoint delete_leases (leases : list string) : uprog unit :=
  match leases with
  | [] => Ret tt
  | lease :: leases => let* _ := run_or_warn (delete_lease lease) in delete_leases leases
  end.

Definition kubeSystemLeases : list string :=
  ["cert-manager-cainjector-leader-election"; "cert-manager-controller"].

Definition UninstallCertManager : uprog unit :=
  let* _ := run_or_warn (Command "kubectl" ["delete"; "-f"; certmanagerURL]) in
  delete_leases kubeSystemLeases.

Definition InstallCertManager : uprog (option uerror) :=
  let* applied := Run (Command "kubectl" ["apply"; "-f"; certmanagerURL]) in
  match applied.2 with
  | Some err => Ret (Some err)
  | None =>
      let* waited := Run (Command "kubectl" ["wait"; "deployment.apps/cert-manager-webhook";
        "--for"; "condition=Available"; "--namespace"; "cert-manager"; "--timeout"; "5m"]) in
      Ret waited.2
  end.

(** The loop over the parts, which appends to [res]. *)
Definition GetNonEmptyLines (output : string) : list string :=
  foldl (fun res element => if String.eqb element "" then res else res ++ [element]) [] (Split output newline).

Definition certManagerCRDs : list string :=
  ["certificates.cert-manager.io"; "issuers.cert-manager.io"; "clusterissuers.cert-manager.io";
   "certificaterequests.cert-manager.io"; "orders.acme.cert-manager.io"; "challenges.acme.cert-manager.io"].

Definition IsCertManagerCRDsInstalled : uprog bool :=
  let* ran := Run (Command "kubectl" ["get"; "crds"]) in
  match ran with
  | (_, Some _) => Ret false
  | (output, None) =>
      let crdList := GetNonEmptyLines output in
      Ret (existsb (fun crd => existsb (fun line => Contains line crd) crdList) certManagerCRDs)
  end.

Definition LoadImageToKindClusterWithName (name : string) : uprog (option uerror) :=
  let* v := do_os (LookupEnv "KIND_CLUSTER") in
  let cluster := default defaultKindCluster v in
  let kindOptions := ["load"; "docker-image"; name; "--name"; cluster] in
  let* v := do_os (LookupEnv "KIND") in
  let kindBinary := default defaultKindBinary v in
  let* ran := Run (Command kindBinary kindOptions) in
  Ret ran.2.

(** The loop of [UncommentCode], with the token [text] scanned and [tokens] to come. *)
Fixpoint write_lines (prefix text : string) (tokens : list string) (out : string) : string :=
  let out := out +:+ TrimPrefix text prefix in
  match tokens with
  | [] => out
  | next :: tokens => write_lines prefix next tokens (out +:+ nl)
  end.

Definition UncommentCode (filename target prefix : string) : uprog (option uerror) :=
  let* read := do_os (ReadFile filename) in
  match read with
  | Err err => Ret (Some (ReadFailed filename err))
  | Ok strContent =>
      match Index strContent target with
      | None => Ret (Some (TargetNotFound target))
      | Some idx =>
          let out := str_take idx strContent in
          match ScanLines target with
          | [] => Ret None
          | text :: tokens =>
              let out := write_lines prefix text tokens out +:+ str_drop (idx + String.length target) strContent in
              let* wrote := do_os (WriteFile filename out 420) in
              match wrote with
              | Some err => Ret (Some (WriteFailed filename err))
              | None => Ret None
              end
          end
      end
  end.

(** ** Commands *)

Definition commands (tr : list uevent) : list (list string) :=
  omap (fun e => match ev_call e with CombinedOutput cmd => Some (Args cmd) | _ => None end) tr.

Lemma commands_app tr1 tr2 : commands (tr1 ++ tr2) = commands tr1 ++ commands tr2.
Proof. apply omap_app. Qed.

(** [Run] runs its command once, in the directory of the project and with modules on, and reports its
    output and its failure. *)
Lemma Run_spec cmd tr x :
  exec (Run cmd) tr x -> commands tr = [Args cmd] /\
  exists dir env ran, (Ev (CombinedOutput (MkCmd (Args cmd) dir (env ++ ["GO111MODULE=on"]))) ran : uevent) ∈ tr /\
    x.1 = ran.1 /\ (x.2 = None <-> ran.2 = None).
Proof.
  unfold Run, GetProjectDir. intros H. cbn in H.
  apply exec_act_inv in H as ([wd got] & tr1 & -> & H).
  destruct got; cbn in H; apply exec_act_inv in H as (moved & tr2 & -> & H); (destruct moved; cbn in H;
      [apply exec_act_inv in H as ([] & tr3 & -> & H); cbn in H|]); apply exec_act_inv in H as (env & tr4 & -> & H);
    apply exec_act_inv in H as ([] & tr5 & -> & H); apply exec_act_inv in H as ([out ran] & tr6 & -> & H);
    destruct ran; exec_inv; (split; [done|]); eexists _, env, (out, _); (split; [repeat (apply list_elem_of_here || apply list_elem_of_further)|by split; [|split]]).
Qed.

Lemma run_or_warn_commands cmd tr x : exec (run_or_warn cmd) tr x -> commands tr = [Args cmd].
Proof.
  unfold run_or_warn. intros (tr1 & ran & tr2 & -> & [Hc _]%Run_spec & H)%exec_bind_inv.
  rewrite commands_app, Hc. destruct ran.2; [|by exec_inv]. unfold warnError in H. cbn in H. by exec_inv.
Qed.

(** The clean-up runs to its end, whatever fails. *)
Lemma UninstallCertManager_commands tr x :
  exec UninstallCertManager tr x ->
  commands tr = ["kubectl"; "delete"; "-f"; certmanagerURL] :: (Args ∘ delete_lease <$> kubeSystemLeases).
Proof.
  assert (Hleases : forall leases tr x, exec (delete_leases leases) tr x ->
    commands tr = Args ∘ delete_lease <$> leases).
  { induction leases as [|l leases IH]; intros tr' x'; cbn [delete_leases]; [intros H; by exec_inv|].
    intros (tr1 & [] & tr2 & -> & H1%run_or_warn_commands & H2%IH)%exec_bind_inv. by rewrite commands_app, H1, H2. }
  unfold UninstallCertManager.
  intros (tr1 & [] & tr2 & -> & H1%run_or_warn_commands & H2%Hleases)%exec_bind_inv. by rewrite commands_app, H1, H2.
Qed.

(** ** Lines *)

Lemma GetNonEmptyLines_filter output :
  GetNonEmptyLines output = List.filter (fun l => negb (String.eqb l "")) (Split output newline).
Proof.
  unfold GetNonEmptyLines. induction (Split output newline) as [|l ls IH] using rev_ind; [done|].
  rewrite foldl_snoc, List.filter_app, IH. cbn. destruct (String.eqb l ""); cbn; [by rewrite app_nil_r|done].
Qed.

(** What is within a line is within the text, and the other way round. *)
Lemma lines_contain output sub :
  sub <> "" -> str_all (.≠ newline) sub ->
  existsb (fun line => Contains line sub) (GetNonEmptyLines output) = Contains output sub.
Proof.
  intros Hne Hsub. apply eq_true_iff_eq. rewrite existsb_exists, GetNonEmptyLines_filter.
  setoid_rewrite <- list_elem_of_In. setoid_rewrite filter_bool_in. setoid_rewrite Contains_spec. split.
  - intros (line & [Hin _] & p & t & ->). apply list_elem_of_split in Hin as (l1 & l2 & Hl).
    rewrite <- (Join_Split output newline), Hl.
    destruct l1 as [|x l1], l2 as [|y l2]; cbn [app].
    + by exists p, t.
    + exists p. eexists. rewrite Join_cons by done. autorewrite with ark_rw. done.
    + exists (Join (x :: l1) (String newline "") +:+ String newline "" +:+ p), t.
      change (x :: l1 ++ [p +:+ sub +:+ t]) with ((x :: l1) ++ [p +:+ sub +:+ t]). rewrite Join_app by done.
      by autorewrite with ark_rw.
    + exists (Join (x :: l1) (String newline "") +:+ String newline "" +:+ p). eexists.
      change (x :: l1 ++ (p +:+ sub +:+ t) :: y :: l2) with ((x :: l1) ++ (p +:+ sub +:+ t) :: y :: l2).
      rewrite Join_app, (Join_cons (p +:+ sub +:+ t)) by done. autorewrite with ark_rw. done.
  - intros (p & t & ->). destruct (Split_keeps newline p sub t Hsub) as (l1 & a & b & l2 & ->).
    exists (a +:+ sub +:+ b). split; [|by exists a, b]. split; [apply elem_of_app; right; apply list_elem_of_here|].
    apply negb_true_iff, String.eqb_neq. intros H. destruct a; [|discriminate H]. by destruct sub.
Qed.

(** The check for the CRDs: they are there when some name occurs in what the command printed. *)
Lemma IsCertManagerCRDsInstalled_spec tr b :
  exec IsCertManagerCRDsInstalled tr b ->
  exists ran, exec (Run (Command "kubectl" ["get"; "crds"])) tr ran /\
    (b = true <-> ran.2 = None /\ exists crd, crd ∈ certManagerCRDs /\ Contains ran.1 crd = true).
Proof.
  unfold IsCertManagerCRDsInstalled. intros (tr1 & [output err] & tr2 & -> & Hrun & H)%exec_bind_inv.
  exists (output, err). destruct err as [e|]; exec_inv; rewrite app_nil_r; (split; [done|]); cbn [fst snd];
    [by split; [|intros []]|].
  rewrite existsb_exists. setoid_rewrite <- list_elem_of_In.
  assert (Hcrd : forall crd, crd ∈ certManagerCRDs ->
    existsb (fun line => Contains line crd) (GetNonEmptyLines output) = Contains output crd).
  { intros crd Hin. apply lines_contain.
    - intros ->. revert Hin. by apply (bool_decide_unpack _); vm_compute.
    - revert crd Hin. apply Forall_forall. unfold str_all. by apply (bool_decide_unpack _); vm_compute. }
  split.
  - intros (crd & Hin & Hc). split; [done|]. exists crd. by rewrite <- (Hcrd crd Hin).
  - intros (_ & crd & Hin & Hc). exists crd. by rewrite (Hcrd crd Hin).
Qed.

(** ** UncommentCode *)

Lemma write_lines_Join prefix text tokens out :
  write_lines prefix text tokens out = out +:+ Join (map (fun l => TrimPrefix l prefix) (text :: tokens)) nl.
Proof.
  revert text out. induction tokens as [|next tokens IH]; intros text out; [done|].
  cbn [write_lines]. rewrite IH. change (map ?f (text :: ?l)) with (f text :: map f l).
  rewrite (Join_cons (TrimPrefix text prefix)) by done. by autorewrite with ark_rw.
Qed.

(** Every way it ends: the file cannot be read, the target is not there, there is nothing to write,
    or the first occurrence of the target is replaced, and nothing else of the file. *)
Lemma uncommented filename target prefix tr r :
  exec (UncommentCode filename target prefix) tr r ->
  exists got rest, tr = Ev (ReadFile filename) got :: rest /\
    match got with
    | Err e => rest = [] /\ r = Some (ReadFailed filename e)
    | Ok content =>
        (Contains content target = false /\ rest = [] /\ r = Some (TargetNotFound target)) \/
        (ScanLines target = [] /\ rest = [] /\ r = None) \/
        exists pre post wrote, content = pre +:+ target +:+ post /\
          (forall j, (j < String.length pre)%nat -> HasPrefix (str_drop j content) target = false) /\
          rest = [Ev (WriteFile filename
            (pre +:+ Join (map (fun l => TrimPrefix l prefix) (ScanLines target)) nl +:+ post) 420) wrote] /\
          r = (match wrote with Some e => Some (WriteFailed filename e) | None => None end)
    end.
Proof.
  unfold UncommentCode. intros (got & rest & -> & H)%exec_act_inv. cbn in H. exists got, rest. split; [done|].
  destruct got as [content|e]; [|by exec_inv].
  destruct (Index content target) as [idx|] eqn:Hidx.
  - destruct (Index_spec _ _ _ Hidx) as (post & Hc & Hlen & Hfirst). right.
    destruct (ScanLines target) as [|text tokens]; [left; by exec_inv|right].
    pose proof (str_drop_app (str_take idx content +:+ target) post) as Hd.
    rewrite str_length_app, Hlen, str_app_assoc, <- Hc in Hd. rewrite Hd, write_lines_Join, str_app_assoc in H.
    cbn [bind do_call] in H. apply exec_act_inv in H as (wrote & rest' & -> & H).
    exists (str_take idx content), post, wrote. split; [exact Hc|]. split; [intros j; rewrite Hlen; apply Hfirst|].
    by destruct wrote; exec_inv.
  - left. exec_inv. split; [|done]. unfold Contains. by rewrite Hidx, bool_decide_eq_false_2 by (by intros []).
Qed.

(** The first occurrence is at one place. *)
Lemma first_split pre post pre' post' target :
  pre +:+ target +:+ post = pre' +:+ target +:+ post' ->
  (forall j, (j < String.length pre)%nat -> HasPrefix (str_drop j (pre +:+ target +:+ post)) target = false) ->
  (forall j, (j < String.length pre')%nat -> HasPrefix (str_drop j (pre +:+ target +:+ post)) target = false) ->
  pre = pre' /\ post = post'.
Proof.
  intros Heq H1 H2. assert (Hlen : String.length pre = String.length pre').
  { destruct (lt_eq_lt_dec (String.length pre) (String.length pre')) as [[Hlt|?]|Hlt]; [|done|]; exfalso.
    - specialize (H2 _ Hlt). by rewrite str_drop_app, HasPrefix_app in H2.
    - specialize (H1 _ Hlt). by rewrite Heq, str_drop_app, HasPrefix_app in H1. }
  assert (pre = pre') as <-.
  { apply (f_equal (str_take (String.length pre))) in Heq. rewrite str_take_app, Hlen, str_take_app in Heq. done. }
  split; [done|]. by do 2 apply str_app_inj_l in Heq.
Qed.

(** C38: [UncommentCode] undoes commenting.  If the lines of a file were commented out with
    [prefix], and the target is what became of them, then whatever surrounds it the target is found
    at its first occurrence and the file is written once, with the lines as they were and all else
    untouched; an error of the read or of the write is reported, and nothing is written after a
    failed read.  This takes lines that the scanner gives back: no carriage return at the end, less
    than 64 KiB, and a last line that is not empty once commented out. *)
Theorem UncommentCode_undoes filename prefix lines pre post tr r :
  let target := Join (map (fun l => prefix +:+ l) lines) nl in
  lines <> [] -> Forall (fun l => plain_line (prefix +:+ l)) lines ->
  (forall l, last lines = Some l -> prefix +:+ l <> "") ->
  (forall j, (j < String.length pre)%nat -> HasPrefix (str_drop j (pre +:+ target +:+ post)) target = false) ->
  exec (UncommentCode filename target prefix) tr r ->
  exists got rest, tr = Ev (ReadFile filename) got :: rest /\
    match got with
    | Err e => rest = [] /\ r = Some (ReadFailed filename e)
    | Ok content => content = pre +:+ target +:+ post ->
        exists wrote, rest = [Ev (WriteFile filename (pre +:+ Join lines nl +:+ post) 420) wrote] /\
          r = WriteFailed filename <$> wrote
    end.
Proof.
  intros target Hne Hall Hlast Hfirst Hex.
  assert (Hscan : ScanLines target = map (fun l => prefix +:+ l) lines).
  { apply ScanLines_plain.
    - by destruct lines.
    - by apply Forall_fmap.
    - change (map ?f lines) with (f <$> lines). rewrite fmap_last. destruct (last lines) as [l|] eqn:E; [|done].
      intros [= Hl]. by apply (Hlast l). }
  apply uncommented in Hex as (got & rest & -> & H). exists got, rest. split; [done|].
  destruct got as [content|e]; [|done]. intros ->. rewrite Hscan in H.
  destruct H as [(Hno & _)|[(Hnil & _)|(pre' & post' & wrote & Heq & Hfirst' & -> & ->)]].
  - exfalso. apply not_true_iff_false in Hno. apply Hno, Contains_spec. by exists pre, post.
  - by destruct lines.
  - destruct (first_split pre post pre' post' target Heq) as [<- <-]; [done..|].
    exists wrote. rewrite map_map. split; [|by destruct wrote].
    assert (Hid : map (fun l => TrimPrefix (prefix +:+ l) prefix) lines = lines); [|by rewrite Hid].
    rewrite <- (map_id lines) at 2. apply map_ext. intros l. apply TrimPrefix_app.
Qed.

(** A block of two lines, commented out with [#], in the middle of a file. *)
Definition kustomization (mark : string) : string :=
  "resources:" +:+ nl +:+ mark +:+ "- ../webhook" +:+ nl +:+ mark +:+ "- ../certmanager" +:+ nl.

Definition first_read (tr : list uevent) : option (res string) :=
  match tr with
  | Ev c got :: _ =>
      match c return uresp c -> option (res string) with ReadFile _ => Some | _ => fun _ => None end got
  | [] => None
  end.

Lemma UncommentCode_undoes_witness :
  let target := "#- ../webhook" +:+ nl +:+ "#- ../certmanager" in
  exists tr, exec (UncommentCode "kustomization.yaml" target "#") tr None /\
    ev_call <$> tr = [ReadFile "kustomization.yaml"; WriteFile "kustomization.yaml" (kustomization "") 420].
Proof.
  intros target.
  assert (Hex : exec (UncommentCode "kustomization.yaml" target "#")
    [Ev (ReadFile "kustomization.yaml") (Ok (kustomization "#"));
     Ev (WriteFile "kustomization.yaml" (kustomization "") 420) None] None) by (vm_compute; repeat constructor).
  destruct (fun H1 H2 H3 H4 => UncommentCode_undoes "kustomization.yaml" "#" ["- ../webhook"; "- ../certmanager"]
    ("resources:" +:+ nl) nl _ _ H1 H2 H3 H4 Hex) as (got & rest & Htr & H); [done| | | |].
  - unfold plain_line, str_all. by apply (bool_decide_unpack _); vm_compute.
  - by intros l [= <-].
  - intros j Hj. change (j < 11)%nat in Hj. do 11 (destruct j as [|j]; [reflexivity|]). lia.
  - eexists. split; [exact Hex|].
    apply (f_equal (fun tr => (first_read tr, ev_call <$> tr))) in Htr as [= Hgot Hcalls]. subst got.
    destruct (H eq_refl) as (wrote & -> & _). cbn [fmap list_fmap]. by f_equal.
Defined.

(** What the scanner does not give back.  The line end of a target that ends in one is lost, so that
    the next line of the file is joined to the last of the target. *)
Lemma UncommentCode_joins filename line post wrote :
  plain_line line ->
  exec (UncommentCode filename (line +:+ nl) "")
    [Ev (ReadFile filename) (Ok (line +:+ nl +:+ post)); Ev (WriteFile filename (line +:+ post) 420) wrote]
    (WriteFailed filename <$> wrote).
Proof.
  intros Hline. apply (exec_act (ReadFile filename)). cbv beta.
  rewrite <- (str_app_assoc line nl post), Index_app, Nat.add_0_l, str_drop_app.
  unfold ScanLines, nl at 1. rewrite Split_app_sep by apply Hline. rewrite scan_tokens_cons by auto.
  cbn [Split scan_tokens write_lines str_take bind do_call]. rewrite TrimPrefix_nil, str_app_nil_l.
  apply (exec_act (WriteFile filename _ 420)). by destruct wrote; constructor.
Qed.

(** Of a target with a line of 64 KiB everything from that line on is deleted from the file. *)
Lemma UncommentCode_cuts filename line long post wrote :
  plain_line line -> str_all (.≠ newline) long -> MaxScanTokenSize <= Z.of_nat (String.length long) ->
  let target := line +:+ nl +:+ long in
  exec (UncommentCode filename target "")
    [Ev (ReadFile filename) (Ok (target +:+ post)); Ev (WriteFile filename (line +:+ post) 420) wrote]
    (WriteFailed filename <$> wrote).
Proof.
  intros Hline Hlong Hlen target. apply (exec_act (ReadFile filename)). cbv beta.
  rewrite Index_app, Nat.add_0_l, str_drop_app.
  assert (Hscan : ScanLines target = [line]).
  { unfold ScanLines, target, nl. rewrite str_app_cons, str_app_nil_l, Split_app_sep by apply Hline.
    rewrite scan_tokens_cons by (done || (right; apply Split_nonempty)). rewrite Split_none by done. cbn [scan_tokens].
    rewrite (proj2 (Z.leb_le _ _) Hlen). by destruct long. }
  rewrite Hscan. cbn [write_lines str_take bind do_call]. rewrite TrimPrefix_nil, str_app_nil_l.
  apply (exec_act (WriteFile filename _ 420)). by destruct wrote; constructor.
Qed.
