(* ===== verification/Finalizer.v ===== *)
(** * internal/finalizer: draining a cluster that is deleted

    [arkcluster.go]: [Ensure] adds the finalizer, [RunFinalize] drains every map and removes it. *)

From S2P Require Import Prelude Effects ApiTypes Kube Resources Rcon.

Local Open Scope prog_scope.

Definition finalizer_Name : string := "ark.watteel.com/graceful-shutdown".
Definition drainTimeoutPerMap : Z := 30 * Second.

(** The secret and key the admin password is read from. *)
Definition password_ref (cluster : ArkCluster) : string * string :=
  match AdminPassword (Global (Spec cluster)) with
  | Some sel => (sel_Name sel, sel_Key sel)
  | None => (SecretsName (cluster_name cluster), "adminPassword")
  end.

Definition readAdminPassword (cluster : ArkCluster) : kprog (res string) :=
  let '(name, key) := password_ref cluster in
  let* got := kcall (Get KindSecret (cluster_ns cluster) name) in
  match got with
  | Err e => Ret (Err e)
  | Ok sec => Ret (Ok (default "" (secret_Data sec !! key)))
  end.

(** The loop of [RunFinalize] over the maps of the status. *)
Fixpoint drain_maps (ctx : context) (pw : string) (maps : list MapStatus) : kprog unit :=
  match maps with
  | [] => Ret tt
  | m :: maps =>
      if String.eqb (RconAddress m) "" then drain_maps ctx pw maps
      else
        let* drainCtx := WithTimeout ctx drainTimeoutPerMap in
        let* _ := SaveAndExit drainCtx (RconAddress m) pw in
        drain_maps ctx pw maps
  end.

Section WithLib.
Context `{L : K8sLib}.

Definition on_finalizers (f : list string -> list string) (c : ArkCluster) : ArkCluster :=
  c <| cluster_meta ::= fun m => m <| Finalizers ::= f |> |>.

(** [Ensure]: whether the finalizer was added. *)
Definition Ensure : kM ArkCluster bool := fun cluster =>
  if ContainsFinalizer (Finalizers (cluster_meta cluster)) finalizer_Name then Ret (Ok false, cluster)
  else
    let cluster := on_finalizers (fun fs => AddFinalizer fs finalizer_Name) cluster in
    let* err := kcall (Update cluster) in
    Ret (res_map (fun _ => true) err, cluster).

Definition RunFinalize (ctx : context) : kM ArkCluster bool := fun cluster =>
  if negb (ContainsFinalizer (Finalizers (cluster_meta cluster)) finalizer_Name) then Ret (Ok true, cluster)
  else
    let* pw := readAdminPassword cluster in
    let* _ :=
      match pw with
      | Ok pw => drain_maps ctx pw (MapStatuses (Status cluster))
      | Err _ => Ret tt
      end in
    let cluster := on_finalizers (fun fs => RemoveFinalizer fs finalizer_Name) cluster in
    let* err := kcall (Update cluster) in
    Ret (res_map (fun _ => true) err, cluster).

End WithLib.

(** ** What they guarantee *)

(** The addresses the finalizer drains. *)
Definition drain_addrs (maps : list MapStatus) : list string :=
  List.filter (fun a => negb (String.eqb a "")) (RconAddress <$> maps).

Lemma emits_net_drain_maps ctx pw maps : emits is_net (drain_maps ctx pw maps).
Proof.
  induction maps as [|m maps IH]; [done|]. cbn. destruct (String.eqb _ _); [done|].
  apply emits_act; [done|]. intros now. apply emits_bind; [auto with ark|done].
Qed.

Lemma drain_maps_dialed ctx pw maps tr :
  exec (drain_maps ctx pw maps) tr tt -> dialed tr = drain_addrs maps.
Proof.
  revert tr. induction maps as [|m maps IH]; intros tr H; cbn in *; [by exec_inv|].
  destruct (String.eqb (RconAddress m) ""); cbn; [by apply IH|].
  apply exec_act_inv in H as (now & tr1 & -> & H). cbn.
  apply exec_bind_inv in H as (tr2 & r & tr3 & -> & Hs & H). apply SaveAndExit_dialed in Hs.
  by rewrite dialed_app, Hs, (IH _ H).
Qed.

Definition net_only (tr : list kevent) : Prop := forall e, e ∈ tr -> is_net (ev_call e).

(** C24: the finalizer never blocks a deletion on the game: a deleted cluster that still carries
    the finalizer has its password read once; if that worked every map with an address is dialled
    once, in order, whatever becomes of the connections; then one update removes this finalizer
    and no other, and its outcome is the result.  When the password cannot be read no map is
    dialled, and the update follows all the same.  There is no other call: it does not wait for
    the pods to end, and keeps no claim from the garbage collector.  Without the finalizer nothing
    is done. *)
Theorem RunFinalize_spec {L : K8sLib} {HL : K8sLaws L} ctx cluster tr r cluster' :
  exec (RunFinalize ctx cluster) tr (r, cluster') ->
  if decide (finalizer_Name ∈ Finalizers (cluster_meta cluster)) then
    exists pw net u,
      tr = Ev (Get KindSecret (cluster_ns cluster) (password_ref cluster).1) pw :: net ++ [Ev (Update cluster') u] /\
      net_only net /\
      dialed net = match pw with Ok _ => drain_addrs (MapStatuses (Status cluster)) | Err _ => [] end /\
      r = res_map (fun _ => true) u /\
      Spec cluster' = Spec cluster /\ Status cluster' = Status cluster /\
      (forall g, g ∈ Finalizers (cluster_meta cluster') <->
         g <> finalizer_Name /\ g ∈ Finalizers (cluster_meta cluster))
  else tr = [] /\ r = Ok true /\ cluster' = cluster.
Proof.
  unfold RunFinalize. intros H.
  destruct (ContainsFinalizer _ finalizer_Name) eqn:Hf; cbn in H.
  - apply ContainsFinalizer_spec in Hf. rewrite decide_True by done.
    apply exec_bind_inv in H as (tr1 & pw & tr2 & -> & Hp & H).
    unfold readAdminPassword in Hp. destruct (password_ref cluster) as [name key] eqn:Eref. cbn in Hp.
    apply exec_act_inv in Hp as (got & tr3 & -> & Hp). exists got.
    assert (tr3 = []) as -> by (destruct got; by exec_inv).
    apply exec_bind_inv in H as (net & [] & tr4 & -> & Hn & H).
    apply exec_act_inv in H as (u & tr5 & -> & H). exec_inv. simplify_eq.
    exists net, u. split; [done|].
    assert (net_only net /\ dialed net = match got with
      | Ok _ => drain_addrs (MapStatuses (Status cluster)) | Err _ => [] end) as [Hnet Hd].
    { destruct got as [sec|e]; apply exec_ret_inv in Hp as [_ <-].
      - split; [|by eapply drain_maps_dialed]. intros e. eapply emits_exec, Hn. apply emits_net_drain_maps.
      - exec_inv. split; [|done]. by intros x ?%elem_of_nil. }
    split_and!; try done. intros g. cbn. apply RemoveFinalizer_spec.
  - exec_inv. simplify_eq. rewrite decide_False; [done|].
    intros Hin%ContainsFinalizer_spec. congruence.
Qed.

Definition deleted_cluster : ArkCluster :=
  on_maps (fun _ => [(new_MapStatus "TheIsland_WP") <| RconAddress := "1.2.3.4:27020" |>])
    (on_finalizers (fun _ => [finalizer_Name]) demo_cluster).

Lemma RunFinalize_spec_witness :
  exists tr r c, exec (RunFinalize (L := demo_lib) None deleted_cluster) tr (r, c) /\ r = Ok true /\
    forall g, g ∈ Finalizers (cluster_meta c) <-> g <> finalizer_Name /\ g ∈ [finalizer_Name].
Proof.
  pose proof (run_with_exec demo_answer (RunFinalize (L := demo_lib) None deleted_cluster)) as Hex.
  destruct (run_with demo_answer (RunFinalize (L := demo_lib) None deleted_cluster)) as [tr [r c]] eqn:E.
  exists tr, r, c. split; [exact Hex|]. split; [by vm_compute in E; injection E|].
  apply (RunFinalize_spec (HL := demo_laws)) in Hex. rewrite decide_True in Hex by left.
  by destruct Hex as (? & ? & ? & _ & _ & _ & _ & _ & _ & Hg).
Defined.

(** [Ensure] updates the cluster only when the finalizer is missing, with the finalizer added
    and every other one kept, and reports whether it did; an error of the update is returned. *)
Theorem Ensure_spec {L : K8sLib} {HL : K8sLaws L} cluster tr r cluster' :
  exec (Ensure cluster) tr (r, cluster') ->
  if decide (finalizer_Name ∈ Finalizers (cluster_meta cluster)) then
    tr = [] /\ r = Ok false /\ cluster' = cluster
  else exists u, tr = [Ev (Update cluster') u] /\ r = res_map (fun _ => true) u /\
    Spec cluster' = Spec cluster /\ Status cluster' = Status cluster /\
    (forall g, g ∈ Finalizers (cluster_meta cluster') <->
       g = finalizer_Name \/ g ∈ Finalizers (cluster_meta cluster)).
Proof.
  unfold Ensure. intros H. destruct (ContainsFinalizer _ finalizer_Name) eqn:Hf.
  - apply ContainsFinalizer_spec in Hf. rewrite decide_True by done. exec_inv. by simplify_eq.
  - rewrite decide_False by (intros Hin%ContainsFinalizer_spec; congruence).
    cbn in H. apply exec_act_inv in H as (u & tr1 & -> & H). exec_inv. simplify_eq.
    exists u. split_and!; try done. intros g. cbn. apply AddFinalizer_spec.
Qed.

Lemma Ensure_spec_witness :
  exists tr r c, exec (Ensure (L := demo_lib) demo_cluster) tr (r, c) /\ r = Ok true /\
    finalizer_Name ∈ Finalizers (cluster_meta c).
Proof.
  pose proof (run_with_exec demo_answer (Ensure (L := demo_lib) demo_cluster)) as Hex.
  destruct (run_with demo_answer (Ensure (L := demo_lib) demo_cluster)) as [tr [r c]] eqn:E.
  exists tr, r, c. split; [exact Hex|]. split; [by vm_compute in E; injection E|].
  apply (Ensure_spec (HL := demo_laws)) in Hex. rewrite decide_False in Hex.
  - destruct Hex as (u & _ & _ & _ & _ & Hg). apply Hg. by left.
  - by apply (bool_decide_unpack _).
Defined.
