(* ===== verification/Webhook.v ===== *)
(** * internal/webhook: admission of an ArkCluster

    The validating webhook on top of the schema of the custom resource. *)

From S2P Require Import Prelude GoStd Effects ApiTypes Kube Ark Resources Workload.

Definition phase1SingleMapEnforced : bool := false.

Definition validate (c : ArkCluster) : res unit :=
  let maps := Z.of_nat (length (Maps (Spec c))) in
  let g := GamePortStart (Service (Spec c)) in
  let r := RconPortStart (Service (Spec c)) in
  if phase1SingleMapEnforced && negb (maps =? 1) then
    Err (Errorf ("phase 1 supports exactly one map; got " +:+ FormatInt maps))
  else if PortConflict g r maps then
    Err (Errorf ("game port range overlaps RCON port (gamePortStart=" +:+ FormatInt g +:+
      ", rconPortStart=" +:+ FormatInt r +:+ ", maps=" +:+ FormatInt maps +:+ ")"))
  else Ok tt.

Definition ValidateCreate (obj : ArkCluster) : res unit := validate obj.
Definition ValidateUpdate (oldObj newObj : ArkCluster) : res unit := validate newObj.
Definition ValidateDelete (obj : ArkCluster) : res unit := Ok tt.

(** The bounds the schema of the resource puts on the two start ports. *)
Definition schema_ports (c : ArkCluster) : Prop :=
  1024 <= GamePortStart (Service (Spec c)) <= 60000 /\
  1024 <= RconPortStart (Service (Spec c)) <= 60000.

(** The ports of the containers of the pods of a cluster's maps. *)
Definition cluster_ports (c : ArkCluster) : list Z :=
  imap (fun i m => GamePort (GamePortStart (Service (Spec c))) (Z.of_nat i)) (Maps (Spec c)) ++
  imap (fun i m => RconPort (RconPortStart (Service (Spec c))) (Z.of_nat i)) (Maps (Spec c)).

(** C37: a create or an update within the schema's bounds is admitted exactly when all game and
    RCON ports of all maps are different from each other; a delete always is. *)
Theorem validate_ports (old c : ArkCluster) :
  schema_ports c -> Z.of_nat (length (Maps (Spec c))) < 2 ^ 31 - 60000 ->
  (ValidateCreate c = Ok tt <-> NoDup (cluster_ports c)) /\
  ValidateUpdate old c = ValidateCreate c /\ ValidateDelete c = Ok tt.
Proof.
  intros [Hg Hr] Hn. split; [|done]. unfold ValidateCreate, validate, cluster_ports.
  set (g := GamePortStart _) in *. set (r := RconPortStart _) in *. cbn [phase1SingleMapEnforced andb].
  set (maps := Maps (Spec c)) in *. set (n := Z.of_nat (length maps)) in *.
  assert (Hfit : ports_fit g r n) by (unfold ports_fit; lia).
  assert (Hnd : forall start, 1024 <= start <= 60000 ->
    NoDup (imap (fun i (_ : MapSpec) => GamePort start (Z.of_nat i)) maps)).
  { intros start Hs. apply NoDup_alt. intros i j x Hi Hj.
    rewrite list_lookup_imap in Hi, Hj.
    destruct (maps !! i) eqn:Ei, (maps !! j) eqn:Ej; cbn in Hi, Hj; try discriminate.
    apply lookup_lt_Some in Ei, Ej. inv Hi. inv Hj.
    rewrite !port_at in * by lia. lia. }
  assert (Hin : forall start x, x ∈ imap (fun i (_ : MapSpec) => GamePort start (Z.of_nat i)) maps <->
    exists i, 0 <= i < n /\ x = GamePort start i).
  { intros start x. rewrite list_elem_of_lookup. setoid_rewrite list_lookup_imap_Some. split.
    - intros (i & m & Hm & ->). apply lookup_lt_Some in Hm. exists (Z.of_nat i). split; [lia|done].
    - intros (i & Hi & ->). destruct (lookup_lt_is_Some_2 maps (Z.to_nat i)) as [m Hm]; [lia|].
      exists (Z.to_nat i), m. split; [done|]. by rewrite Z2Nat.id by lia. }
  rewrite NoDup_app. change RconPort with GamePort. destruct (PortConflict g r n) eqn:E; split.
  - done.
  - intros (_ & Hdis & _). apply (PortConflict_iff _ _ _ Hfit) in E as (i & j & Hi & Hj & Heq).
    exfalso. eapply Hdis; apply Hin; [by exists i|]. by exists j.
  - intros _. split_and!; [by apply Hnd| |by apply Hnd].
    intros x Hx Hx'. apply Hin in Hx as (i & Hi & ->), Hx' as (j & Hj & Heq).
    enough (PortConflict g r n = true) by congruence. apply (PortConflict_iff _ _ _ Hfit). eauto.
  - done.
Qed.

Lemma validate_ports_witness : ValidateCreate demo_cluster = Ok tt <-> NoDup (cluster_ports demo_cluster).
Proof. apply (validate_ports demo_cluster demo_cluster); [by split|done]. Defined.

(** The webhook does not compare the slugs of the maps: two maps whose claims and services carry
    the same names are admitted. *)
Definition colliding_cluster : ArkCluster :=
  demo_cluster <| Spec ::= fun s => s <| Maps :=
    [MkMapSpec "TheIsland_WP" [] None None; MkMapSpec "Island_WP" [] None None] |> |>.

Lemma validate_admits_collision :
  ValidateCreate colliding_cluster = Ok tt /\
  map_claims "c" "TheIsland_WP" = map_claims "c" "Island_WP" /\
  ServiceName "c" "TheIsland_WP" = ServiceName "c" "Island_WP".
Proof. done. Qed.
