(* ===== verification/Controller.v ===== *)
(** * internal/controller: the ArkCluster reconciler

    [arkcluster_controller.go] and [util.go].  A reconcile holds a pointer to the cluster and one
    to the flag [busy], and writes to both: they are the state of the monad.  The pointer
    [mapStatus] into [cluster.Status.Maps] is the index of the element.  An update of the status
    writes the server's answer back into the cluster: its new resource version. *)

From S2P Require Import Prelude GoStd Digest Effects ApiTypes Kube Ark Status Ini Resources Workload Rcon Finalizer.

Local Open Scope prog_scope.

Definition requeueSteady : Z := 5 * Minute.
Definition requeueBusy : Z := 15 * Second.
Definition AnnotationModsChanged : string := "ark.watteel.com/mods-changed".

(** ** Pure helpers *)

Definition volumeSide (activeVolume : string) : string :=
  if String.eqb activeVolume "server-b" then "b" else "a".

Definition otherSide (active : string) : string :=
  if String.eqb active "server-a" then "server-b" else "server-a".

Definition joinSorted (s : list string) : string :=
  match s with
  | [] => ""
  | _ => Join (sort_strings s) ","
  end.

Definition pod_hash (p : Pod) : string :=
  default "" (Labels (pod_meta p) !! "ark.watteel.com/pod-template-hash").

Definition terminating (p : Pod) : bool := bool_decide (is_Some (DeletionTimestamp (pod_meta p))).

Definition findActivePod (pods : list Pod) (desiredHash : string) : option Pod :=
  match List.find (fun p => negb (terminating p) && String.eqb (pod_hash p) desiredHash) pods with
  | Some p => Some p
  | None => List.find (fun p => negb (terminating p)) pods
  end.

Definition countReadyMaps (cluster : ArkCluster) : Z :=
  foldl (fun n m => if decide (ms_Phase m = MapPhaseRunning) then Int.int32 (n + 1) else n) 0
    (MapStatuses (Status cluster)).

Definition podReady (pod : Pod) : bool :=
  existsb (fun c => String.eqb (pc_Type c) "Ready" && String.eqb (pc_Status c) "True")
    (pod_Conditions (pod_Status pod)).

Definition lower_or_digit (c : ascii) : bool :=
  is_digit c || ((97 <=? nat_of_ascii c)%nat && (nat_of_ascii c <=? 122)%nat).
Definition upper (c : ascii) : bool := (65 <=? nat_of_ascii c)%nat && (nat_of_ascii c <=? 90)%nat.

(** [camelCaseSplit.ReplaceAllString(s, "$1 $2")]: the second byte of a match is never the first
    of another, so matches do not overlap. *)
Fixpoint camelCaseSplit (s : string) : string :=
  match s with
  | String a (String b _ as t) =>
      if lower_or_digit a && upper b then String a (String " " (camelCaseSplit t))
      else String a (camelCaseSplit t)
  | s => s
  end.

Definition friendlyName (mapID : string) : string :=
  if String.eqb mapID "TheIsland_WP" then "The Island"
  else if String.eqb mapID "ScorchedEarth_WP" then "Scorched Earth"
  else if String.eqb mapID "Aberration_WP" then "Aberration"
  else if String.eqb mapID "Extinction_WP" then "Extinction"
  else if String.eqb mapID "TheCenter_WP" then "The Center"
  else if String.eqb mapID "Astraeos_WP" then "Astraeos"
  else if String.eqb mapID "BobsMissions_WP" then "Club Ark"
  else
    let n := String.length mapID in
    let s := if (3 <? n)%nat && String.eqb (str_drop (n - 3) mapID) "_WP"
             then str_take (n - 3) mapID else mapID in
    camelCaseSplit s.

(** ** The state of a reconcile *)

Record RState := MkRState { rs_cluster : ArkCluster; rs_busy : bool }.
#[export] Instance eta_RState : Settable RState := fun r => MkRState (rs_cluster r) (rs_busy r).

Abbreviation rM := (kM RState).

Definition get_cluster : rM ArkCluster := fun s => Ret (Ok (rs_cluster s), s).
Definition set_busy : rM unit := m_modify (fun s => s <| rs_busy := true |>).
Definition on_cluster (f : ArkCluster -> ArkCluster) : rM unit := m_modify (fun s => s <| rs_cluster ::= f |>).

(** [*mapStatus] and assignments through the pointer. *)
Definition map_status (cluster : ArkCluster) (ms : nat) : MapStatus :=
  default (new_MapStatus "") (MapStatuses (Status cluster) !! ms).
Definition get_map (ms : nat) : rM MapStatus := fun s => Ret (Ok (map_status (rs_cluster s) ms), s).
Definition on_map (ms : nat) (f : MapStatus -> MapStatus) : rM unit := on_cluster (on_maps (alter f ms)).

Definition set_map_condition (mapID : string) (cond : Condition) : rM unit := fun s =>
  let* c := SetMapCondition (rs_cluster s) mapID cond in Ret (Ok tt, s <| rs_cluster := c |>).

(** [r.Status().Update(ctx, cluster)]. *)
Definition status_update : rM unit := fun s =>
  let* u := kcall (StatusUpdate (rs_cluster s)) in
  Ret (res_map (fun _ => tt) u, s <| rs_cluster := with_version u (rs_cluster s) |>).

Definition persistStatus : rM unit := fun s =>
  let* (r, s) := status_update s in
  match r with
  | Err e => if negb (IsConflict e) then Ret (Err (wrap_err "persist status" e), s) else Ret (Ok tt, s)
  | Ok _ => Ret (Ok tt, s)
  end.

(** ** Reading the cluster *)

Definition readAdminPassword (cluster : ArkCluster) : kprog (res string) :=
  let '(name, key) := password_ref cluster in
  let* got := kcall (Get KindSecret (cluster_ns cluster) name) in
  match got with
  | Err e => Ret (Err e)
  | Ok sec => Ret (Ok (default "" (secret_Data sec !! key)))
  end.

Definition listMapPods (cluster : ArkCluster) (mapID : string) : kprog (res (list Pod)) :=
  kcall (List KindPod (cluster_ns cluster)
    (<["ark.watteel.com/cluster" := cluster_name cluster]> {["ark.watteel.com/map" := MapSlug mapID]})).

Definition readResourceVersion (ns kind name : string) : kprog string :=
  if String.eqb kind "ConfigMap" then
    let* got := kcall (Get KindConfigMap ns name) in
    match got with Ok o => Ret (ResourceVersion (cm_meta o)) | Err _ => Ret "" end
  else if String.eqb kind "Secret" then
    let* got := kcall (Get KindSecret ns name) in
    match got with Ok o => Ret (ResourceVersion (secret_meta o)) | Err _ => Ret "" end
  else Ret "".

Definition format_bool (b : bool) : string := if b then "true" else "false".

Definition launch_rev (cluster : ArkCluster) : string :=
  let gs := Global (Spec cluster) in
  "sn=" +:+ SessionNameFormat gs +:+ "|cid=" +:+ ClusterID (Spec cluster) +:+
  "|mp=" +:+ FormatInt (MaxPlayers gs) +:+ "|be=" +:+ format_bool (BattlEye gs) +:+
  "|ap=" +:+ joinSorted (AllowedPlatforms gs) +:+ "|eo=" +:+ joinSorted (ExtraOptions gs) +:+
  "|ep=" +:+ joinSorted (ExtraParams gs).

Definition computePodHash (cluster : ArkCluster) (mapSpec : MapSpec) (i : nat) (activeVolume : string)
    : kprog string :=
  let gs := Global (Spec cluster) in
  let mods := match map_Mods mapSpec with [] => Mods gs | ms => ms end in
  let* gusRev := readResourceVersion (cluster_ns cluster) "ConfigMap"
                   (GUSConfigMapName (cluster_name cluster) (map_ID mapSpec)) in
  let* gameRev := readResourceVersion (cluster_ns cluster) "ConfigMap"
                    (GameConfigMapName (cluster_name cluster) (map_ID mapSpec)) in
  let iniRev := gusRev +:+ "|" +:+ gameRev in
  let annotation := default "" (Annotations (cluster_meta cluster) !! AnnotationModsChanged) in
  let iniRev := if negb (String.eqb annotation "") then iniRev +:+ "|mods=" +:+ annotation else iniRev in
  let* secretsRev := readResourceVersion (cluster_ns cluster) "Secret" (SecretsName (cluster_name cluster)) in
  let* secretsRev :=
    match ServerPassword gs with
    | Some sel =>
        let* rev := readResourceVersion (cluster_ns cluster) "Secret" (sel_Name sel) in
        Ret (secretsRev +:+ "|" +:+ rev)
    | None => Ret secretsRev
    end in
  Ret (PodTemplateHash
    (MkPodTemplateHashInput (Image (Spec cluster)) mods
      (GamePort (GamePortStart (Service (Spec cluster))) (Z.of_nat i))
      (RconPort (RconPortStart (Service (Spec cluster))) (Z.of_nat i))
      secretsRev iniRev (launch_rev cluster) activeVolume)).

Definition refreshAddress (mapSpec : MapSpec) (i ms : nat) : rM unit :=
  let! cluster := get_cluster in
  let! got := m_lift (kcall (Get KindService (cluster_ns cluster)
                              (ServiceName (cluster_name cluster) (map_ID mapSpec)))) in
  match got with
  | Err _ => m_ret tt
  | Ok svc =>
      match ks_Ingress svc with
      | [] => m_ret tt
      | ip :: _ =>
          let gp := GamePort (GamePortStart (Service (Spec cluster))) (Z.of_nat i) in
          let rp := RconPort (RconPortStart (Service (Spec cluster))) (Z.of_nat i) in
          on_map ms (fun m => m <| Address := ip +:+ ":" +:+ FormatInt gp |>
                                <| RconAddress := ip +:+ ":" +:+ FormatInt rp |>)
      end
  end.

(** ** One map *)

Record ArkClusterReconciler := MkArkClusterReconciler { has_Recorder : bool }.

Definition shouldRollback (pod : Pod) : kprog bool :=
  match ContainerStatuses (pod_Status pod) with
  | [] => Ret false
  | cs :: _ =>
      if RestartCount cs <? 3 then Ret false
      else
        match LastTermination cs with
        | None => Ret false
        | Some last =>
            if ExitCode last =? 0 then Ret false
            else let* now := kcall Now in Ret (time_Sub now (FinishedAt last) <? 5 * Minute)
        end
  end.

Section WithLib.
Context `{L : K8sLib}.

Definition ensurePodForMap (cluster : ArkCluster) (mapSpec : MapSpec) (i : nat)
    (activeVolume hash : string) : kprog (res bool) :=
  let pod := BuildServerPod (MkPodInput cluster (map_ID mapSpec) (Z.of_nat i)
               (friendlyName (map_ID mapSpec)) activeVolume hash) in
  match SetControllerReference cluster (pod_meta pod) with
  | Err e => Ret (Err e)
  | Ok m =>
      let pod := MkPod m (pod_Spec pod) (pod_Status pod) in
      let* err := kcall (Create KindPod pod) in
      match err with
      | Err e => if IsAlreadyExists e then Ret (Ok false) else Ret (Err (wrap_err "create pod" e))
      | Ok _ => Ret (Ok true)
      end
  end.

Definition firstStart (mapSpec : MapSpec) (i ms : nat) (hash : string) : rM unit :=
  let! cluster := get_cluster in
  let! m := get_map ms in
  let side := volumeSide (ActiveVolume m) in
  let! status := m_lift (InitJobStatus cluster (map_ID mapSpec) side) in
  if String.eqb status "NotFound" then
    let! err := m_try (m_lift_res (EnsureInitJob cluster (map_ID mapSpec) side)) in
    on_map ms (fun m => m <| ms_Phase := MapPhaseInstallingActive |>) ;;!
    set_busy ;;!
    (match err with Err e => m_fail e | Ok _ => m_ret tt end)
  else if String.eqb status "Running" then
    on_map ms (fun m => m <| ms_Phase := MapPhaseInstallingActive |>) ;;! set_busy
  else if String.eqb status "Failed" then
    on_map ms (fun m => m <| ms_Phase := MapPhaseFailed |>) ;;!
    set_map_condition (map_ID mapSpec)
      (MkCondition "InstallSucceeded" ConditionFalse "InstallJobFailed" "steamcmd job failed" None)
  else
    let! err := m_try (m_lift_res (ensurePodForMap cluster mapSpec i (ActiveVolume m) hash)) in
    set_busy ;;!
    on_map ms (fun m => m <| ms_Phase := MapPhaseProvisioning |>) ;;!
    (match err with Err e => m_fail e | Ok _ => m_ret tt end).

Definition rollback (r : ArkClusterReconciler) (mapSpec : MapSpec) (ms : nat) (badPod : Pod) : rM unit :=
  set_busy ;;!
  let! m := get_map ms in
  let previous := LastGoodVolume m in
  on_map ms (fun m => m <| ActiveVolume := previous |>) ;;!
  set_map_condition (map_ID mapSpec)
    (MkCondition "RollbackOccurred" ConditionTrue "PodCrashLooping"
       ("auto-rolled back to " +:+ previous +:+ " after crash loop") None) ;;!
  persistStatus ;;!
  (if terminating badPod then m_ret tt
   else let! _ := m_lift (kcall (Delete KindPod badPod (Some 0))) in m_ret tt) ;;!
  if has_Recorder r then
    m_lift (kcall (Eventf "Warning" "AutoRollback"
      ("map " +:+ map_ID mapSpec +:+ " rolled back to " +:+ previous +:+ " due to crash loop")))
  else m_ret tt.

Definition steady (r : ArkClusterReconciler) (mapSpec : MapSpec) (ms : nat) (pod : Pod) : rM unit :=
  let! cluster := get_cluster in
  on_map ms (fun m => m <| ms_Pod := Name (pod_meta pod) |>
    <| ms_SessionName := SessionName (SessionNameFormat (Global (Spec cluster))) (cluster_name cluster)
         (map_ID mapSpec) (friendlyName (map_ID mapSpec)) |>) ;;!
  let! crashing := m_lift (shouldRollback pod) in
  let! m := get_map ms in
  if crashing && negb (String.eqb (LastGoodVolume m) "")
     && negb (String.eqb (LastGoodVolume m) (ActiveVolume m))
  then rollback r mapSpec ms pod
  else
    let! crashing := m_lift (shouldRollback pod) in
    if crashing then
      let restarts := match ContainerStatuses (pod_Status pod) with
                      | cs :: _ => RestartCount cs
                      | [] => 0
                      end in
      set_map_condition (map_ID mapSpec)
        (MkCondition "PodReady" ConditionFalse "PodCrashLooping"
           ("pod has restarted " +:+ FormatInt restarts +:+ " times — no prior volume to roll back to")
           None) ;;!
      set_busy
    else if podReady pod then
      on_map ms (fun m => m <| ms_Phase := MapPhaseRunning |>) ;;!
      on_map ms (fun m => m <| LastGoodVolume := ActiveVolume m |>) ;;!
      set_map_condition (map_ID mapSpec)
        (MkCondition "PodReady" ConditionTrue "RCONReachable" "pod ready" None)
    else
      set_busy ;;!
      set_map_condition (map_ID mapSpec)
        (MkCondition "PodReady" ConditionFalse "PodNotReady" "warming up" None).

(** [rollUpdate] once the inactive volume is installed and no drain has started: it commits the
    deadline and announces the shutdown. *)
Definition start_drain (ctx : context) (ms : nat) : rM unit :=
  let! cluster := get_cluster in
  let grace := GracefulShutdown (Strategy (Spec cluster)) in
  let grace := if grace <? 0 then 0 else grace in
  let! now := m_lift (kcall Now) in
  on_map ms (fun m => m <| DrainDeadline := Some (now + grace) |>
                        <| ms_Phase := MapPhaseDrainingActive |>) ;;!
  let! err := m_try persistStatus in
  match err with
  | Err e =>
      on_map ms (fun m => m <| DrainDeadline := None |> <| ms_Phase := MapPhaseRunning |>) ;;!
      m_fail e
  | Ok _ =>
      let! cluster := get_cluster in
      let! m := get_map ms in
      if (grace >? 0) && negb (String.eqb (RconAddress m) "") then
        let! pw := m_lift (readAdminPassword cluster) in
        let pw := match pw with Ok pw => pw | Err _ => "" end in
        let! _ := m_lift (AnnounceShutdown ctx (RconAddress m) pw grace "cluster update") in
        m_ret tt
      else m_ret tt
  end.

(** [rollUpdate] once the deadline has passed: it saves, commits the swap, replaces the pod. *)
Definition swap (ctx : context) (mapSpec : MapSpec) (i ms : nat) (inactive : string) (currentPod : Pod)
    : rM unit :=
  let! cluster := get_cluster in
  let! m := get_map ms in
  (if negb (String.eqb (RconAddress m) "") then
     let! pw := m_lift (readAdminPassword cluster) in
     let pw := match pw with Ok pw => pw | Err _ => "" end in
     let! _ := m_lift (SaveAndExit ctx (RconAddress m) pw) in
     m_ret tt
   else m_ret tt) ;;!
  on_map ms (fun m => m <| ActiveVolume := inactive |> <| PendingBuildID := "" |>
    <| DrainDeadline := None |> <| ms_Phase := MapPhaseSwapping |>) ;;!
  persistStatus ;;!
  (if terminating currentPod then m_ret tt
   else let! _ := m_lift (kcall (Delete KindPod currentPod (Some 60))) in m_ret tt) ;;!
  let! cluster := get_cluster in
  let! m := get_map ms in
  let! newHash := m_lift (computePodHash cluster mapSpec i (ActiveVolume m)) in
  let! _ := m_lift_res (ensurePodForMap cluster mapSpec i (ActiveVolume m) newHash) in
  on_cluster (on_status (fun st => st <| ModsStatus ::= fmap (fun mods => mods <| Tracked ::=
    map (fun t => t <| InstalledFileID := LatestFileID t |> <| InstalledVersion := LatestVersion t |>) |>) |>)).

Definition rollUpdate (ctx : context) (mapSpec : MapSpec) (i ms : nat) (currentPod : Pod) : rM unit :=
  set_busy ;;!
  let! cluster := get_cluster in
  let! m := get_map ms in
  let inactive := otherSide (ActiveVolume m) in
  let inactiveSide := volumeSide inactive in
  let! status := m_lift (InitJobStatus cluster (map_ID mapSpec) inactiveSide) in
  if String.eqb status "NotFound" then
    let! err := m_try (m_lift_res (EnsureInitJob cluster (map_ID mapSpec) inactiveSide)) in
    on_map ms (fun m => m <| ms_Phase := MapPhaseInstallingInactive |>) ;;!
    (match err with Err e => m_fail e | Ok _ => m_ret tt end)
  else if String.eqb status "Running" then
    on_map ms (fun m => m <| ms_Phase := MapPhaseInstallingInactive |>)
  else if String.eqb status "Failed" then
    set_map_condition (map_ID mapSpec)
      (MkCondition "InstallSucceeded" ConditionFalse "InstallJobFailed" "" None) ;;!
    on_map ms (fun m => m <| ms_Phase := MapPhaseFailed |>)
  else
    match DrainDeadline m with
    | None => start_drain ctx ms
    | Some deadline =>
        let! now := m_lift (kcall Now) in
        if now <? deadline then on_map ms (fun m => m <| ms_Phase := MapPhaseDrainingActive |>)
        else swap ctx mapSpec i ms inactive currentPod
    end.

(** [if err := p; err != nil { return err }], and then [f]. *)
Definition and_then {A B} (p : kprog (res A)) (f : A -> kprog (res B)) : kprog (res B) :=
  let* r := p in
  match r with
  | Ok a => f a
  | Err e => Ret (Err e)
  end.

(** The resources of a map, in the order [reconcileMap] ensures them; it stops at the first error. *)
Definition ensure_map_resources (cluster : ArkCluster) (mapID : string) (i : nat) : kprog (res unit) :=
  and_then (EnsureSavesPVC cluster mapID) (fun _ =>
  and_then (EnsureServerPVC cluster mapID "a") (fun _ =>
  and_then (EnsureServerPVC cluster mapID "b") (fun _ =>
  and_then (EnsureMapINIConfigMaps cluster mapID) (fun _ =>
  EnsureService cluster mapID i)))).

Definition reconcileMap (r : ArkClusterReconciler) (ctx : context) (mapSpec : MapSpec) (i : nat)
    (midFlightMap : string) : rM unit :=
  let! cluster := get_cluster in
  let! _ := m_lift_res (ensure_map_resources cluster (map_ID mapSpec) i) in
  let '(ms, cluster) := EnsureMapStatus cluster (map_ID mapSpec) in
  on_cluster (fun _ => cluster) ;;!
  let! m := get_map ms in
  (if String.eqb (ActiveVolume m) "" then on_map ms (fun m => m <| ActiveVolume := "server-a" |>)
   else m_ret tt) ;;!
  let! cluster := get_cluster in
  let! m := get_map ms in
  let! desiredHash := m_lift (computePodHash cluster mapSpec i (ActiveVolume m)) in
  let! pods := m_lift_res (listMapPods cluster (map_ID mapSpec)) in
  refreshAddress mapSpec i ms ;;!
  match findActivePod pods desiredHash with
  | None => firstStart mapSpec i ms desiredHash
  | Some activePod =>
      if String.eqb (pod_hash activePod) desiredHash then steady r mapSpec ms activePod
      else if negb (String.eqb midFlightMap "") && negb (String.eqb midFlightMap (map_ID mapSpec))
      then set_busy
      else rollUpdate ctx mapSpec i ms activePod
  end.

End WithLib.

(** ** Garbage collection *)

(** [for i := range items { if orphan(items[i]) { _ = r.Delete(ctx, &items[i]) } }]. *)
Definition delete_if (k : kind) (orphan : obj k -> bool) : list (obj k) -> kprog unit :=
  fix go items :=
    match items with
    | [] => Ret tt
    | o :: items =>
        if orphan o then let* _ := kcall (Delete k o None) in go items else go items
    end.

(** Lists the cluster's objects of one kind and deletes the orphans; an error of the list skips them. *)
Definition gc_kind (k : kind) (cluster : ArkCluster) (orphan : obj k -> bool) : kprog unit :=
  let* got := kcall (List k (cluster_ns cluster) {["ark.watteel.com/cluster" := cluster_name cluster]}) in
  match got with
  | Err _ => Ret tt
  | Ok items => delete_if k orphan items
  end.

Definition orphan_slug (keep : gset string) (m : ObjectMeta) : bool :=
  let slug := default "" (Labels m !! "ark.watteel.com/map") in
  negb (String.eqb slug "") && negb (bool_decide (slug ∈ keep)).

Definition belongs (keep : gset string) (cluster name : string) : bool :=
  existsb (fun slug => HasPrefix name (cluster +:+ "-" +:+ slug +:+ "-")) (elements keep).

Definition orphan_pvc (keep : gset string) (cluster : string) (pvc : PVC) : bool :=
  let name := Name (pvc_meta pvc) in
  negb (String.eqb name (PVCNameCluster cluster)) && negb (belongs keep cluster name).

Definition orphan_cm (keep : gset string) (cluster : string) (cm : ConfigMap) : bool :=
  let name := Name (cm_meta cm) in
  negb (belongs keep cluster name) && (HasSuffix name "-gus" || HasSuffix name "-game").

Definition gcOrphanedMaps (cluster : ArkCluster) (keep : gset string) : kprog (res unit) :=
  let name := cluster_name cluster in
  let* _ := gc_kind KindPod cluster (fun p => orphan_slug keep (pod_meta p)) in
  let* _ := gc_kind KindService cluster (fun s => orphan_slug keep (service_meta s)) in
  let* _ := if negb (PersistOnDelete (Storage (Spec cluster)))
            then gc_kind KindPVC cluster (orphan_pvc keep name)
            else Ret tt in
  let* _ := gc_kind KindConfigMap cluster (orphan_cm keep name) in
  Ret (Ok tt).

(** ** The cluster *)

Definition updating_phase (p : MapPhase) : bool :=
  match p with
  | MapPhaseDrainingActive | MapPhaseSwapping | MapPhaseInstallingInactive => true
  | _ => false
  end.

(** The map that holds the others back, or the empty string. *)
Definition mid_flight (cluster : ArkCluster) : string :=
  let policy := match Rollout (Strategy (Spec cluster)) with
                | RolloutUnset => RolloutOneAtATime
                | p => p
                end in
  if decide (policy = RolloutParallel) then ""
  else
    match List.find (fun m => updating_phase (ms_Phase m)) (MapStatuses (Status cluster)) with
    | Some m => ms_ID m
    | None => ""
    end.

Definition keep_slugs (cluster : ArkCluster) : gset string :=
  list_to_set (map (fun m => MapSlug (map_ID m)) (Maps (Spec cluster))).

(** Pruning [Status.Maps] and the totals. *)
Definition summarize (keep : gset string) (cluster : ArkCluster) : ArkCluster :=
  let cluster := on_maps (List.filter (fun m => bool_decide (MapSlug (ms_ID m) ∈ keep))) cluster in
  on_status (fun st => st <| TotalMaps := Int.int32 (Z.of_nat (length (Maps (Spec cluster)))) |>
    <| ReadyMaps := countReadyMaps cluster |>
    <| cs_Phase := AggregatePhase (MapStatuses (Status cluster)) |>
    <| ObservedGeneration := Generation (cluster_meta cluster) |>) cluster.

Section WithLib.
Context `{L : K8sLib}.

(** [Reconcile] once the finalizer is in place. *)
Definition reconcile_cluster (r : ArkClusterReconciler) (ctx : context) : rM Result :=
  let! cluster := get_cluster in
  let! _ := m_lift_res (EnsureAdminPasswordSecret cluster) in
  let! _ := m_lift_res (EnsureClusterPVC cluster) in
  let midFlightMap := mid_flight cluster in
  m_for (imap pair (Maps (Spec cluster)))
    (fun '(i, mapSpec) => reconcileMap r ctx mapSpec i midFlightMap) ;;!
  let! cluster := get_cluster in
  let keep := keep_slugs cluster in
  let! _ := m_lift_res (gcOrphanedMaps cluster keep) in
  on_cluster (summarize keep) ;;!
  let! u := m_try status_update in
  let! s := m_get in
  let done_ := m_ret (requeue_after (if rs_busy s then requeueBusy else requeueSteady)) in
  match u with
  | Err e => if negb (IsConflict e) then m_fail e else done_
  | Ok _ => done_
  end.

Definition Reconcile (r : ArkClusterReconciler) (ctx : context) (ns name : string) : kprog (res Result) :=
  let* got := kcall (Get KindCluster ns name) in
  match got with
  | Err e => if IsNotFound e then Ret (Ok no_result) else Ret (Err e)
  | Ok cluster =>
      match DeletionTimestamp (cluster_meta cluster) with
      | Some _ =>
          let* (res, _) := RunFinalize ctx cluster in
          match res with
          | Err e => Ret (Err e)
          | Ok finished => Ret (Ok (if negb finished then requeue_after requeueBusy else no_result))
          end
      | None =>
          let* (res, cluster) := Ensure cluster in
          match res with
          | Err e => Ret (Err e)
          | Ok true => Ret (Ok (MkResult true 0))
          | Ok false =>
              let* (res, _) := reconcile_cluster r ctx (MkRState cluster false) in
              Ret res
          end
      end
  end.

End WithLib.
