(* ===== verification/ControllerSafety.v ===== *)
(** * The reconciler acts only after it has written its status

    For each flow of the reconciler, a guard says what must have happened before each call; the
    theorems show that every call of every execution satisfies it, whatever the API server, the
    game servers and the clock answer.  The code goes on after a status update that was stored, and
    also after one that the API server refused with a conflict ([persistStatus] takes that for
    success): [persisted] and [refused] tell the two apart, [status_written] is either. *)

From S2P Require Import Prelude GoStd Effects ApiTypes Kube Ark Status Resources Workload Rcon Finalizer Controller.

Local Open Scope prog_scope.

(** ** The entry of a map *)

(** [mapStatus], the pointer [ms], points to the entry [m] of the map [id]. *)
Definition at_map (c : ArkCluster) (id : string) (ms : nat) (m : MapStatus) : Prop :=
  find_status (MapStatuses (Status c)) id = Some (ms, m).

Lemma at_map_status c id ms m : at_map c id ms m -> map_status c ms = m.
Proof. intros (H & _)%list_find_Some. unfold map_status. by rewrite H. Qed.

Lemma find_status_alter maps id ms m f :
  find_status maps id = Some (ms, m) -> ms_ID (f m) = ms_ID m ->
  find_status (alter f ms maps) id = Some (ms, f m).
Proof.
  unfold find_status. rewrite !list_find_Some. intros (Hi & Hid & Hfirst) Hf. split_and!.
  - by rewrite list_lookup_alter_eq, Hi.
  - by rewrite Hf.
  - intros j y Hj Hlt. rewrite list_lookup_alter_ne in Hj by lia. eauto.
Qed.

Lemma at_map_alter c id ms m f :
  at_map c id ms m -> ms_ID (f m) = ms_ID m -> at_map (on_maps (alter f ms) c) id ms (f m).
Proof. apply find_status_alter. Qed.

(** What a status update answers makes of an entry. *)
Definition answer_map (u : res string) (m : MapStatus) : MapStatus :=
  match u with Ok _ => wire_map m | Err _ => m end.

Lemma find_status_wire (l : list MapStatus) id :
  find_status (wire_map <$> l) id = prod_map Datatypes.id wire_map <$> find_status l id.
Proof. exact (list_find_fmap wire_map (fun m => ms_ID m = id) l). Qed.

Lemma at_map_version c id ms m u : at_map c id ms m -> at_map (with_version u c) id ms (answer_map u m).
Proof.
  intros H. destruct u as [v|e]; [|exact H]. unfold at_map. cbn [with_version answer_map].
  transitivity (find_status (wire_map <$> MapStatuses (Status c)) id); [done|].
  by rewrite find_status_wire, H.
Qed.

Lemma at_map_mods c id ms m f :
  at_map c id ms m -> at_map (on_status (fun st => st <| ModsStatus ::= f |>) c) id ms m.
Proof. done. Qed.

Definition is_now (c : call) : Prop := match c with Now => True | _ => False end.

Lemma emits_SetMapCondition c id cond : emits is_now (SetMapCondition c id cond).
Proof.
  unfold SetMapCondition, set_condition.
  destruct (find_status _ _) as [[i m]|]; [|done]. apply emits_bind; [|done].
  destruct (list_find _ _) as [[j c']|]; [destruct (negb _)|]; try done; by apply emits_act.
Qed.

(** The conditions say so. *)
Definition reports (conds : list Condition) (ctype status reason : string) : Prop :=
  exists c, lookup_condition conds ctype = Some c /\ cond_Status c = status /\ cond_Reason c = reason.

Lemma set_condition_reports conds cond tr conds' :
  exec (set_condition conds cond) tr conds' ->
  reports conds' (cond_Type cond) (cond_Status cond) (cond_Reason cond).
Proof.
  intros [Hl _]%set_condition_exec. unfold reports. rewrite (Hl (cond_Type cond)), decide_True by done.
  unfold set_result. destruct (lookup_condition conds _) as [c|]; [destruct (decide _)|]; by eexists.
Qed.

Lemma at_map_condition c id ms m cond tr c' :
  at_map c id ms m -> exec (SetMapCondition c id cond) tr c' ->
  exists conds, c' = on_maps (alter (fun m => m <| ms_Conditions := conds |>) ms) c /\
    at_map c' id ms (m <| ms_Conditions := conds |>) /\
    reports conds (cond_Type cond) (cond_Status cond) (cond_Reason cond).
Proof.
  intros Hm Hex. unfold SetMapCondition in Hex. rewrite Hm in Hex.
  apply exec_bind_inv in Hex as (tr1 & conds & tr2 & -> & Hs & Hex). exec_inv. exists conds.
  assert (<[ms := m <| ms_Conditions := conds |>]> (MapStatuses (Status c))
    = alter (fun m => m <| ms_Conditions := conds |>) ms (MapStatuses (Status c))) as Heq.
  { rewrite list_insert_alter. apply list_alter_ext; [|done]. intros x Hx.
    apply list_find_Some in Hm as (Hi & _). congruence. }
  assert (Hc : on_maps (fun l => <[ms := m <| ms_Conditions := conds |>]> l) c
    = on_maps (alter (fun m => m <| ms_Conditions := conds |>) ms) c)
    by (unfold on_maps, on_status; cbn in Heq |- *; by rewrite Heq).
  split; [exact Hc|]. split; [rewrite Hc; by apply at_map_alter|]. by eapply set_condition_reports.
Qed.

(** ** What a flow leaves alone *)

(** The entry is left alone, or the API server has stored it and so rounded its times. *)
Definition rounded (o o' : option MapStatus) : Prop := o' = o \/ o' = wire_map <$> o.

#[export] Instance rounded_preorder : PreOrder rounded.
Proof.
  split; [by left|]. intros o1 o2 o3 [->| ->] [->| ->]; [by left|by right|by right|].
  right. destruct o1 as [m|]; [|done]. cbn. by rewrite wire_map_idem.
Qed.

(** Up to the resource version, the entry [ms], the tracked mods and the rounding of times, [c'] is
    [c]. *)
Definition frame (ms : nat) (c c' : ArkCluster) : Prop :=
  Spec c' = Spec c /\
  (cluster_meta c') <| ResourceVersion := "" |> = (cluster_meta c) <| ResourceVersion := "" |> /\
  ms_ID <$> MapStatuses (Status c') = ms_ID <$> MapStatuses (Status c) /\
  forall j, j <> ms -> rounded (MapStatuses (Status c) !! j) (MapStatuses (Status c') !! j).

#[export] Instance frame_preorder ms : PreOrder (frame ms).
Proof.
  split.
  - intros c. by repeat split.
  - intros c1 c2 c3 (H1 & H2 & H3 & H4) (K1 & K2 & K3 & K4). split_and!; try congruence.
    intros j Hj. etrans; [by apply H4|by apply K4].
Qed.

Lemma frame_alter ms c f :
  (forall m, ms_ID (f m) = ms_ID m) -> frame ms c (on_maps (alter f ms) c).
Proof.
  intros Hf. split_and!; try done.
  - cbn. apply list_eq. intros j. rewrite !list_lookup_fmap.
    destruct (decide (j = ms)) as [->|]; [|by rewrite list_lookup_alter_ne].
    rewrite list_lookup_alter_eq. destruct (_ !! ms); cbn; by rewrite ?Hf.
  - intros j Hj. cbn. by rewrite list_lookup_alter_ne.
Qed.

Lemma wire_ids (l : list MapStatus) : ms_ID <$> (wire_map <$> l) = ms_ID <$> l.
Proof. by rewrite <- list_fmap_compose. Qed.

Lemma frame_version ms c u : frame ms c (with_version u c).
Proof.
  destruct u as [v|e]; [|done]. split_and!; try done; [apply wire_ids|].
  intros j _. right. exact (list_lookup_fmap wire_map (MapStatuses (Status c)) j).
Qed.

Lemma frame_mods ms c f : frame ms c (on_status (fun st => st <| ModsStatus ::= f |>) c).
Proof. by repeat split. Qed.

Lemma frame_name ms c c' : frame ms c c' -> cluster_name c' = cluster_name c /\ cluster_ns c' = cluster_ns c.
Proof.
  intros (_ & H & _). unfold cluster_name, cluster_ns. split.
  - by apply (f_equal Name) in H.
  - by apply (f_equal Namespace) in H.
Qed.

#[export] Hint Resolve frame_version frame_mods : ark.
#[export] Hint Extern 1 (frame _ _ (on_maps (alter _ _) _)) => apply frame_alter; done : ark.

(** ** Programs that only read *)

Lemma emits_InitJobStatus cluster id side : emits is_read (InitJobStatus cluster id side).
Proof. unfold InitJobStatus. apply emits_act; [done|]. intros [j|e]; [done|]. by destruct (IsNotFound e). Qed.

Lemma emits_readAdminPassword cluster : emits is_read (Controller.readAdminPassword cluster).
Proof.
  unfold Controller.readAdminPassword. destruct (password_ref cluster).
  apply emits_act; [done|]. by intros [].
Qed.

Lemma emits_readResourceVersion ns kind name : emits is_read (readResourceVersion ns kind name).
Proof.
  unfold readResourceVersion. destruct (String.eqb kind "ConfigMap"); [|destruct (String.eqb kind "Secret")];
    try done; (apply emits_act; [done|]; by intros []).
Qed.

Lemma emits_computePodHash cluster mapSpec i v : emits is_read (computePodHash cluster mapSpec i v).
Proof.
  unfold computePodHash. do 3 (apply emits_bind; [apply emits_readResourceVersion|intros ?]).
  apply emits_bind; [|done]. destruct (ServerPassword _); [|done].
  apply emits_bind; [apply emits_readResourceVersion|done].
Qed.

Lemma emits_and_then P {A B} (p : kprog (res A)) (f : A -> kprog (res B)) :
  emits P p -> (forall a, emits P (f a)) -> emits P (and_then p f).
Proof. intros Hp Hf. apply emits_bind; [done|]. intros []; [apply Hf|done]. Qed.

Lemma emits_shouldRollback pod : emits is_now (shouldRollback pod).
Proof.
  unfold shouldRollback. destruct (ContainerStatuses _) as [|cs ?]; [done|].
  destruct (_ <? 3); [done|]. destruct (LastTermination cs) as [t|]; [|done].
  destruct (_ =? 0); [done|]. by apply emits_act.
Qed.

#[export] Hint Resolve emits_InitJobStatus emits_readAdminPassword emits_computePodHash
  emits_shouldRollback emits_SetMapCondition : ark.

(** ** Persisting *)

(** [persistStatus] goes on: the write was stored, or another write got there first. *)
Definition goes_on (u : res string) : Prop :=
  match u with Ok _ => True | Err e => err_reason e = ReasonConflict end.

(** [s'] is [s] with the entry [m] for the map. *)
Definition moved (id : string) (ms : nat) (s s' : RState) (m : MapStatus) : Prop :=
  rs_busy s' = rs_busy s /\ frame ms (rs_cluster s) (rs_cluster s') /\ at_map (rs_cluster s') id ms m.

Section Flows.

Context {rely : list kevent -> forall c, resp c -> Prop} {guar : list kevent -> call -> Prop}.
Context {id : string} {ms : nat}.
Local Abbreviation moved := (moved id ms).

Lemma wp_on_map (s : RState) m f Q h :
  at_map (rs_cluster s) id ms m -> (forall m, ms_ID (f m) = ms_ID m) ->
  (forall s', moved s s' (f m) -> Q (Ok tt, s') h) ->
  wp rely guar (on_map ms f s) Q h.
Proof.
  intros Hm Hf HQ. apply wp_ret, HQ. split; [done|]. split; [by apply frame_alter|by apply at_map_alter].
Qed.

Lemma wp_persist (s : RState) m Q h :
  at_map (rs_cluster s) id ms m ->
  guar h (StatusUpdate (rs_cluster s)) ->
  (forall u s', goes_on u -> moved s s' (answer_map u m) ->
     Q (Ok tt, s') (h ++ [Ev (StatusUpdate (rs_cluster s)) u])) ->
  (forall e, ~ goes_on (Err e) ->
     Q (Err (wrap_err "persist status" e), s) (h ++ [Ev (StatusUpdate (rs_cluster s)) (Err e)])) ->
  wp rely guar (persistStatus s) Q h.
Proof.
  intros Hm Hg Hok Herr. unfold persistStatus, status_update. cbn [bind do_call].
  wp_step; [done|]. cbn [bind].
  assert (Hmv : forall u, moved s (s <| rs_cluster := with_version u (rs_cluster s) |>) (answer_map u m)).
  { intros u. split; [done|]. split; [apply frame_version|by apply at_map_version]. }
  destruct r as [rv|e]; cbn [res_map].
  - wp_step. by apply (Hok (Ok rv)).
  - unfold IsConflict. case_bool_decide as Hc; cbn [negb]; wp_step.
    + by apply (Hok (Err e)).
    + destruct s. by apply Herr.
Qed.

Lemma wp_condition (s : RState) m cond Q h :
  at_map (rs_cluster s) id ms m ->
  (forall tr, (forall e : kevent, e ∈ tr -> is_now (ev_call e)) -> guar (h ++ tr) Now) ->
  (forall tr conds s', (forall e : kevent, e ∈ tr -> is_now (ev_call e)) ->
     reports conds (cond_Type cond) (cond_Status cond) (cond_Reason cond) ->
     moved s s' (m <| ms_Conditions := conds |>) -> Q (Ok tt, s') (h ++ tr)) ->
  wp rely guar (set_map_condition id cond s) Q h.
Proof.
  intros Hm Hg HQ. unfold set_map_condition. apply wp_seq.
  apply (wp_exec_intro _ _ is_now); [apply emits_SetMapCondition| |].
  - intros tr c Htr Hc. destruct c; try done. by apply Hg.
  - intros tr c' Hex Htr. wp_step. edestruct at_map_condition as (conds & -> & Hm' & Hrep); [done..|].
    apply (HQ tr conds); [done..|]. split; [done|]. split; [by apply frame_alter|done].
Qed.

Lemma moved_trans s1 s2 s3 m m' : moved s1 s2 m -> moved s2 s3 m' -> moved s1 s3 m'.
Proof. intros (H1 & H2 & _) (K1 & K2 & K3). split_and!; [congruence|by etrans|done]. Qed.

Lemma moved_status s s' m : moved s s' m -> map_status (rs_cluster s') ms = m.
Proof. intros (_ & _ & H). by eapply at_map_status. Qed.

Lemma moved_at s s' m : moved s s' m -> at_map (rs_cluster s') id ms m.
Proof. by intros (_ & _ & H). Qed.

End Flows.

Section Creates.
Context {L : K8sLib} {HL : K8sLaws L}.
#[local] Set Default Proof Using "All".

(** The programs that create an object. *)
Definition makes_job (cluster : ArkCluster) (id side : string) (c : call) : Prop :=
  is_read c \/ exists job, c = Create KindJob job /\ Name (job_meta job) = InitJobName cluster id side /\
    job_Template job = job_Template (init_job cluster id side).

Lemma emits_EnsureInitJob cluster id side : emits (makes_job cluster id side) (EnsureInitJob cluster id side).
Proof.
  unfold EnsureInitJob. apply emits_act; [by left|]. intros [j|e]; [done|].
  destruct (negb _); [done|]. destruct (SetControllerReference _ _) as [m|] eqn:Hs; [|done].
  apply emits_act.
  - right. eexists. split; [done|]. apply SetControllerReference_owner in Hs as (Hn & _). by split.
  - intros [?|e']; [done|]. by destruct (IsAlreadyExists e').
Qed.

Definition makes_pod (cluster : ArkCluster) (id volume : string) (c : call) : Prop :=
  exists pod, c = Create KindPod pod /\
    Labels (pod_meta pod) !! "ark.watteel.com/active-volume" = Some volume /\
    Labels (pod_meta pod) !! "ark.watteel.com/map" = Some (MapSlug id) /\
    Labels (pod_meta pod) !! "ark.watteel.com/cluster" = Some (cluster_name cluster).

Lemma emits_ensurePodForMap cluster mapSpec i v hash :
  emits (makes_pod cluster (map_ID mapSpec) v) (ensurePodForMap cluster mapSpec i v hash).
Proof.
  unfold ensurePodForMap. destruct (SetControllerReference _ _) as [m|] eqn:Hs; [|done].
  apply emits_act.
  - eexists. split; [done|]. apply SetControllerReference_owner in Hs as (_ & _ & Hl & _).
    cbn [pod_meta]. rewrite Hl. by split_and!.
  - intros [?|e']; [done|]. by destruct (IsAlreadyExists e').
Qed.

End Creates.

(** ** The blue/green update *)

Definition grace_of (c : ArkCluster) : Z :=
  let grace := GracefulShutdown (Strategy (Spec c)) in if grace <? 0 then 0 else grace.

(** The entry once the drain has started at [now], and once the volumes are swapped. *)
Definition drained (now grace : Z) (m : MapStatus) : MapStatus :=
  m <| DrainDeadline := Some (now + grace) |> <| ms_Phase := MapPhaseDrainingActive |>.
Definition swapped (m : MapStatus) : MapStatus :=
  m <| ActiveVolume := otherSide (ActiveVolume m) |> <| PendingBuildID := "" |>
    <| DrainDeadline := None |> <| ms_Phase := MapPhaseSwapping |>.

(** The clock showed [now]. *)
Definition clock_read (now : Z) (h : list kevent) : Prop := (Ev Now now : kevent) ∈ h.

(** A status in which the entry of the map [id] is [m] was sent, and answered by [u]. *)
Definition sent (id : string) (ms : nat) (m : MapStatus) (u : res string) (h : list kevent) : Prop :=
  exists c : ArkCluster, (Ev (StatusUpdate c) u : kevent) ∈ h /\ at_map c id ms m.
(** The API server stored it. *)
Definition persisted (id : string) (ms : nat) (m : MapStatus) (h : list kevent) : Prop :=
  exists v, sent id ms m (Ok v) h.
(** The API server refused it, because another write had got there first. *)
Definition refused (id : string) (ms : nat) (m : MapStatus) (h : list kevent) : Prop :=
  exists e, sent id ms m (Err e) h /\ err_reason e = ReasonConflict.
(** The two cases in which the code goes on. *)
Definition status_written (id : string) (ms : nat) (m : MapStatus) (h : list kevent) : Prop :=
  persisted id ms m h \/ refused id ms m h.

(** No status update was refused with a conflict. *)
Definition no_conflict (h : list kevent) : Prop :=
  forall c e, (Ev (StatusUpdate c) (Err e) : kevent) ∈ h -> err_reason e <> ReasonConflict.

(** It can be checked. *)
Definition conflicts (e : kevent) : bool :=
  match e with
  | Ev c r =>
      match c as c return resp c -> bool with
      | StatusUpdate _ => fun r => match r with Ok _ => false | Err e => IsConflict e end
      | _ => fun _ => false
      end r
  end.

Lemma no_conflict_check h : existsb conflicts h = false -> no_conflict h.
Proof.
  intros Hh c e Hin He. apply list_elem_of_In in Hin. apply not_true_iff_false in Hh. apply Hh, existsb_exists.
  exists (Ev (StatusUpdate c) (Err e)). split; [done|]. cbn. unfold IsConflict. by rewrite bool_decide_eq_true.
Qed.

Lemma no_conflict_before h h' : no_conflict (h ++ h') -> no_conflict h.
Proof. intros H c e Hin. apply (H c e), elem_of_app. by left. Qed.

Lemma written_persisted id ms m h : no_conflict h -> status_written id ms m h -> persisted id ms m h.
Proof. intros Hno [?|(e & (c & Hin & _) & He)]; [done|]. by destruct (Hno c e Hin). Qed.

Lemma sent_written id ms m u h : goes_on u -> sent id ms m u h -> status_written id ms m h.
Proof. destruct u as [v|e]; intros Hu Hs; [left; by exists v|right; by exists e]. Qed.

(** The install job of the side was seen to have succeeded. *)
Definition installed (cluster : ArkCluster) (id side : string) (h : list kevent) : Prop :=
  exists job : Job,
    (Ev (Get KindJob (cluster_ns cluster) (InitJobName cluster id side)) (Ok job) : kevent) ∈ h /\
    job_verdict (job_Conditions job) = "Succeeded".

(** The drain was due: its deadline was set before, and the clock has passed it. *)
Definition due (m : MapStatus) (h : list kevent) : Prop :=
  exists d now, DrainDeadline m = Some d /\ clock_read now h /\ d <= now.

(** What must have happened before a call of [rollUpdate], started on the entry [m] of the map
    [id] and on its pod. *)
Definition roll_guard (cluster : ArkCluster) (id : string) (ms : nat) (m : MapStatus) (pod : Pod)
    (h : list kevent) (c : call) : Prop :=
  let side := volumeSide (otherSide (ActiveVolume m)) in
  match c with
  | Get _ _ _ | List _ _ _ | Now | RandRead _ => True
  | Create KindJob job =>
      Name (job_meta job) = InitJobName cluster id side /\
      job_Template job = job_Template (init_job cluster id side)
  | StatusUpdate c' =>
      installed cluster id side h /\ frame ms cluster c' /\
      ((exists now, DrainDeadline m = None /\ clock_read now h /\
          map_status c' ms = drained now (grace_of cluster) m) \/
       (due m h /\ map_status c' ms = swapped m))
  | NetDial _ _ _ | NetSetDeadline _ _ | NetWrite _ _ | NetReadFull _ _ | NetClose _ =>
      installed cluster id side h /\
      ((exists now, DrainDeadline m = None /\ clock_read now h /\ 0 < grace_of cluster /\
          status_written id ms (drained now (grace_of cluster) m) h) \/
       due m h)
  | Delete KindPod p grace =>
      installed cluster id side h /\ due m h /\ status_written id ms (swapped m) h /\
      p = pod /\ grace = Some 60 /\ DeletionTimestamp (pod_meta p) = None
  | Create KindPod p =>
      installed cluster id side h /\ due m h /\ status_written id ms (swapped m) h /\
      Labels (pod_meta p) !! "ark.watteel.com/active-volume" = Some (otherSide (ActiveVolume m)) /\
      Labels (pod_meta p) !! "ark.watteel.com/map" = Some (MapSlug id)
  | _ => False
  end.

(** What one pass of [rollUpdate] makes of the entry [ms].  Once a status update is answered, the
    entry is what the API server has stored of it. *)
Inductive roll_outcome (cluster : ArkCluster) (id : string) (ms : nat) (h : list kevent) (m : MapStatus) :
    res unit -> MapStatus -> Prop :=
  | RollInstalling r :
      roll_outcome cluster id ms h m r (m <| ms_Phase := MapPhaseInstallingInactive |>)
  | RollInstallFailed conds :
      reports conds "InstallSucceeded" ConditionFalse "InstallJobFailed" ->
      roll_outcome cluster id ms h m (Ok tt) (m <| ms_Conditions := conds |> <| ms_Phase := MapPhaseFailed |>)
  | RollDrain now u :
      DrainDeadline m = None -> clock_read now h ->
      goes_on u -> sent id ms (drained now (grace_of cluster) m) u h ->
      roll_outcome cluster id ms h m (Ok tt) (answer_map u (drained now (grace_of cluster) m))
  | RollDrainUnstored now e :
      DrainDeadline m = None -> clock_read now h ->
      ~ goes_on (Err e) -> sent id ms (drained now (grace_of cluster) m) (Err e) h ->
      roll_outcome cluster id ms h m (Err (wrap_err "persist status" e))
        (m <| DrainDeadline := None |> <| ms_Phase := MapPhaseRunning |>)
  | RollWait d now :
      DrainDeadline m = Some d -> clock_read now h -> now < d ->
      roll_outcome cluster id ms h m (Ok tt) (m <| ms_Phase := MapPhaseDrainingActive |>)
  | RollSwap r u :
      due m h -> sent id ms (swapped m) u h ->
      roll_outcome cluster id ms h m r (answer_map u (swapped m)).

Lemma installed_app cluster id side h h' : installed cluster id side h -> installed cluster id side (h ++ h').
Proof. intros (j & Hj & Hv). exists j. split; [|done]. apply elem_of_app. by left. Qed.
Lemma sent_app id ms m u h h' : sent id ms m u h -> sent id ms m u (h ++ h').
Proof. intros (c & Hin & Hu). exists c. split; [|done]. apply elem_of_app. by left. Qed.
Lemma status_written_app id ms m h h' : status_written id ms m h -> status_written id ms m (h ++ h').
Proof.
  intros [(v & Hs)|(e & Hs & He)]; [left; exists v|right; exists e]; auto using sent_app.
Qed.
Lemma sent_here c id ms m u h : at_map c id ms m -> sent id ms m u (h ++ [Ev (StatusUpdate c) u]).
Proof. intros Hm. exists c. split; [apply in_snoc|done]. Qed.
Lemma clock_read_app now h h' : clock_read now h -> clock_read now (h ++ h').
Proof. intros H. apply elem_of_app. by left. Qed.
Lemma due_app m h h' : due m h -> due m (h ++ h').
Proof. intros (d & now & Hd & Hc & Hle). exists d, now. split_and!; auto using clock_read_app. Qed.

#[export] Hint Resolve in_snoc installed_app sent_app status_written_app clock_read_app due_app : ark.

(** One step of a flow. *)
Ltac m_step :=
  lazymatch goal with
  | |- wp _ _ (m_bind _ _ _) _ _ => apply wp_m_bind
  | |- wp _ _ (m_lift _ _) _ _ => apply wp_m_lift
  | |- wp _ _ (m_lift_res _ _) _ _ => apply wp_m_lift_res
  | |- wp _ _ (m_try _ _) _ _ => apply wp_m_try
  | |- wp _ _ (kcall _) _ _ => apply wp_act; [|intros ? _]
  | |- wp _ _ (Ret _) _ _ => apply wp_ret
  | |- wp _ _ (m_ret _ _) _ _ => apply wp_ret
  | |- wp _ _ (m_fail _ _) _ _ => apply wp_ret
  | |- wp _ _ (m_get _) _ _ => apply wp_ret
  | |- wp _ _ (get_cluster _) _ _ => apply wp_ret
  | |- wp _ _ (get_map _ _) _ _ => apply wp_ret
  | |- wp _ _ (set_busy _) _ _ => apply wp_ret
  | |- wp _ _ (on_cluster _ _) _ _ => apply wp_ret
  end; cbv beta iota zeta; cbn [fst snd].

Section Roll.
Context {L : K8sLib} {HL : K8sLaws L}.
#[local] Set Default Proof Using "All".
Variables (c0 : ArkCluster) (id : string) (ms : nat) (m : MapStatus) (pod : Pod).

Abbreviation guard := (roll_guard c0 id ms m pod).
Abbreviation side := (volumeSide (otherSide (ActiveVolume m))).

(** The postcondition of the flow. *)
Definition roll_post (x : res unit * RState) (h : list kevent) : Prop :=
  rs_busy x.2 = true /\ frame ms c0 (rs_cluster x.2) /\
  exists m', at_map (rs_cluster x.2) id ms m' /\ roll_outcome c0 id ms h m x.1 m'.

Lemma moved_post s s' m' r h :
  rs_cluster s = c0 -> rs_busy s = true -> moved id ms s s' m' -> roll_outcome c0 id ms h m r m' ->
  roll_post (r, s') h.
Proof.
  intros Hc Hb (Hb' & Hf & Hm) Ho. rewrite Hc in Hf. split; [cbn; congruence|]. split; [done|]. by exists m'.
Qed.

Lemma wp_start_drain ctx s h :
  rs_cluster s = c0 -> rs_busy s = true -> at_map c0 id ms m -> DrainDeadline m = None ->
  installed c0 id side h ->
  wp any guard (start_drain ctx ms s) roll_post h.
Proof.
  intros Hc Hb Hm Hd Hinst. rewrite <- Hc in Hm. unfold start_drain. do 2 m_step. rewrite Hc.
  fold (grace_of c0). m_step. m_step. m_step. { exact I. } rename r into now. repeat m_step.
  eapply wp_on_map; [exact Hm|done|]. intros s1 Hs1. fold (drained now (grace_of c0) m) in Hs1.
  set (h1 := h ++ _). assert (Hnow : clock_read now h1) by apply in_snoc.
  m_step. m_step. eapply wp_persist; [by eapply moved_at|..]; cbn [fst snd].
  - split_and!; [by apply installed_app|rewrite <- Hc; apply Hs1|]. left. exists now.
    split_and!; [done..|]. by eapply moved_status.
  - intros u s2 Hu Hs2. set (h2 := h1 ++ _). pose proof (moved_trans _ _ _ _ _ Hs1 Hs2) as Hs.
    assert (Hpost : forall tr, roll_post (Ok tt, s2) (h2 ++ tr)).
    { intros tr. eapply moved_post; [done..|]. apply RollDrain; [done|unfold h2; auto with ark|done|].
      apply sent_app, sent_here. by eapply moved_at. }
    repeat m_step. destruct (_ && _) eqn:Hann; [|m_step; rewrite <- (app_nil_r h2); apply Hpost].
    to_prop. repeat m_step. apply (wp_exec_intro _ _ is_read); [auto with ark|by intros ? []|].
    intros tr pw _ Htr. repeat m_step. apply (wp_exec_intro _ _ is_net); [auto with ark| |].
    + intros tr' c Htr' Hc'. assert (Hg : 0 < grace_of c0) by lia.
      assert (Hcom : status_written id ms (drained now (grace_of c0) m) ((h2 ++ tr) ++ tr')).
      { do 2 apply status_written_app. eapply sent_written; [exact Hu|]. apply sent_here. by eapply moved_at. }
      assert (Hi : installed c0 id side ((h2 ++ tr) ++ tr')) by (unfold h2, h1; auto 8 with ark).
      assert (Hn : clock_read now ((h2 ++ tr) ++ tr')) by (unfold h2; auto 8 with ark).
      destruct c; try done; (split; [exact Hi|]); left; by exists now.
    + intros tr' r _ _. repeat m_step. rewrite <- app_assoc. apply Hpost.
  - intros e He. repeat m_step. eapply wp_on_map; [by eapply moved_at|done|]. intros s2 Hs2. repeat m_step.
    eapply moved_post; [done..|by eapply moved_trans|].
    refine (RollDrainUnstored _ _ _ _ m now e Hd _ He _); [auto with ark|].
    apply sent_here. by eapply moved_at.
Qed.

(** The best-effort save before the swap changes nothing in memory. *)
Lemma wp_save ctx (cluster : ArkCluster) (addr : string) (s : RState) h :
  installed c0 id side h -> due m h ->
  wp any guard
    ((if negb (String.eqb addr "") then
        let! pw := m_lift (Controller.readAdminPassword cluster) in
        let pw := match pw with Ok pw => pw | Err _ => "" end in
        let! _ := m_lift (SaveAndExit ctx addr pw) in
        m_ret tt
      else m_ret tt) s)
    (fun x h' => x = (Ok tt, s) /\ exists tr, h' = h ++ tr) h.
Proof.
  intros Hi Hd. destruct (negb _).
  - repeat m_step. apply (wp_exec_intro _ _ is_read); [auto with ark|by intros ? []|].
    intros tr pw _ _. repeat m_step. apply (wp_exec_intro _ _ is_net); [auto with ark| |].
    + intros tr' c _ Hc. destruct c; try done; split; auto 6 with ark.
    + intros tr' r _ _. repeat m_step. split; [done|]. exists (tr ++ tr'). by rewrite app_assoc.
  - m_step. split; [done|]. exists []. by rewrite app_nil_r.
Qed.

Lemma wp_swap ctx mapSpec i s h :
  map_ID mapSpec = id ->
  rs_cluster s = c0 -> rs_busy s = true -> at_map c0 id ms m ->
  installed c0 id side h -> due m h ->
  wp any guard (swap ctx mapSpec i ms (otherSide (ActiveVolume m)) pod s) roll_post h.
Proof.
  intros Hid Hc Hb Hm Hi Hdue. rewrite <- Hc in Hm. unfold swap. repeat m_step.
  eapply wp_mono; [|by apply wp_save]. intros x h1 (-> & tr1 & ->). repeat m_step.
  eapply wp_on_map; [exact Hm|done|]. intros s1 Hs1. fold (swapped m) in Hs1. repeat m_step.
  eapply wp_persist; [by eapply moved_at|..].
  - split_and!; [by apply installed_app|rewrite <- Hc; apply Hs1|]. right.
    split; [by apply due_app|]. by eapply moved_status.
  - intros u s2 Hu Hs2. set (h2 := _ ++ [_]). pose proof (moved_trans _ _ _ _ _ Hs1 Hs2) as Hs.
    assert (Hi2 : installed c0 id side h2) by (unfold h2; auto with ark).
    assert (Hdue2 : due m h2) by (unfold h2; auto with ark).
    assert (Hsent : sent id ms (swapped m) u h2) by (apply sent_here; by eapply moved_at).
    assert (Hcom : status_written id ms (swapped m) h2) by by eapply sent_written.
    assert (Hact : ActiveVolume (answer_map u (swapped m)) = otherSide (ActiveVolume m)) by by destruct u.
    clearbody h2. repeat m_step.
    eapply (wp_mono _ _ _ (fun x h' => x = (Ok tt, s2) /\ exists tr, h' = h2 ++ tr)).
    2: { destruct (terminating pod) eqn:Ht; [m_step; split; [done|]; exists []; by rewrite app_nil_r|].
      unfold terminating in Ht. to_prop. repeat m_step.
      - split_and!; try done. by apply eq_None_not_Some.
      - split; [done|]. by eexists. }
    intros x h3 (-> & tr3 & ->). repeat m_step. rewrite (moved_status _ _ _ Hs), Hact.
    apply (wp_exec_intro _ _ is_read); [auto with ark|by intros ? []|].
    intros tr4 hash _ _. repeat m_step.
    apply (wp_exec_intro _ _ (makes_pod (rs_cluster s2) (map_ID mapSpec) (otherSide (ActiveVolume m))));
      [apply emits_ensurePodForMap| |].
    + intros tr5 c _ (p & -> & Hv & Hmap & _). rewrite Hid in Hmap. cbn.
      split_and!; auto 8 with ark.
    + intros tr5 r _ _. destruct r as [b|e].
      * m_step. eapply (moved_post _ _ (answer_map u (swapped m))); [done..| |constructor; auto 8 with ark].
        destruct Hs as (Hb' & Hf & Ha). split; [done|]. split; [etrans; [exact Hf|apply frame_mods]|].
        by apply at_map_mods.
      * eapply moved_post; [done..|exact Hs|constructor; auto 8 with ark].
  - intros e He. eapply moved_post; [done..|exact Hs1|].
    apply (RollSwap _ _ _ _ _ _ (Err e)); [auto 8 with ark|]. apply sent_here. by eapply moved_at.
Qed.

Lemma wp_rollUpdate ctx mapSpec i s h :
  map_ID mapSpec = id -> rs_cluster s = c0 -> at_map c0 id ms m ->
  wp any guard (rollUpdate ctx mapSpec i ms pod s) roll_post h.
Proof.
  intros Hid Hc Hm. unfold rollUpdate. repeat m_step.
  assert (Hb1 : rs_busy (s <| rs_busy := true |>) = true) by done.
  assert (Hc1 : rs_cluster (s <| rs_busy := true |>) = c0) by done. revert Hb1 Hc1.
  generalize (s <| rs_busy := true |>). intros s1 Hb1 Hc1. rewrite Hc1, (at_map_status _ _ _ _ Hm), Hid.
  pose proof Hm as Hm1. rewrite <- Hc1 in Hm1.
  unfold InitJobStatus. cbn [bind do_call]. wp_step; [exact I|].
  apply (wp_mono _ _ _ (fun status h' => (status ∈ ["NotFound"; "Running"; "Failed"] \/
    status = "Succeeded" /\ installed c0 id side h') /\ exists tr, h' = h ++ tr)).
  2: { assert (Hex : exists tr, h ++ [Ev (Get KindJob (cluster_ns c0) (InitJobName c0 id side)) r] = h ++ tr)
         by by eexists.
       destruct r as [job|e]; [|destruct (IsNotFound e)]; wp_step; (split; [|done]); [|left; set_solver..].
       destruct (job_verdict_cases (job_Conditions job)) as [E|[E|E]]; rewrite E; [left; set_solver|left; set_solver|].
       right. split; [done|]. exists job. split; [apply in_snoc|done]. }
  intros status h' [Hst (tr & ->)].
  destruct (String.eqb_spec status "NotFound") as [->|H1]; [|destruct (String.eqb_spec status "Running") as [->|H2];
    [|destruct (String.eqb_spec status "Failed") as [->|H3]]].
  - repeat m_step. apply (wp_exec_intro _ _ (makes_job c0 id side)); [by rewrite <- Hid; apply emits_EnsureInitJob| |].
    + intros tr' c _ [Hc'|(job & -> & Hn & Ht)]; [by destruct c|done].
    + intros tr' r' _ _. repeat m_step. eapply wp_on_map; [exact Hm1|done|]. intros s2 Hs2.
      assert (forall r h, roll_post (r, s2) h) by (intros; by eapply moved_post; [..|constructor]).
      destruct r' as [b|e]; m_step; done.
  - eapply wp_on_map; [exact Hm1|done|]. intros s2 Hs2. eapply moved_post; [done..|exact Hs2|constructor].
  - repeat m_step. eapply wp_condition; [exact Hm1|done|]. intros tr' conds s2 _ Hrep Hs2. repeat m_step.
    eapply wp_on_map; [by eapply moved_at|done|]. intros s3 Hs3.
    eapply moved_post; [done..|by eapply moved_trans|]. by apply RollInstallFailed.
  - destruct Hst as [Hst|[-> Hi]]; [set_solver|]. destruct (DrainDeadline m) as [d|] eqn:Hd.
    + repeat m_step; [exact I|]. destruct (r0 <? d) eqn:Hlt; to_prop.
      * eapply wp_on_map; [exact Hm1|done|]. intros s2 Hs2. eapply moved_post; [done..|exact Hs2|].
        eapply RollWait; [done|apply in_snoc|done].
      * apply wp_swap; [done..|by apply installed_app|]. exists d, r0. split_and!; [done|apply in_snoc|lia].
    + by apply wp_start_drain.
Qed.
End Roll.

(** C10: a rolling update acts on the world only after it has written its status.  In every
    execution of [rollUpdate]: the network is touched only after the install job of the inactive
    volume succeeded, and only to announce a drain whose deadline was written, or to save once
    the deadline, set in an earlier pass, has passed; the running pod is deleted, with a grace of
    60 seconds, and its successor created on the inactive volume, only after the swapped status
    was written; and nothing else of the world is changed but the install job.  A status is
    written when the API server has stored it, or has refused it with a conflict, which the code
    takes for success (see [Scenarios.conflict_evicts]); as long as no update was refused with a
    conflict, the pod is replaced only after the swap was stored, and the drain announced only
    after its deadline was. *)
Theorem rollUpdate_persists_first {L : K8sLib} {HL : K8sLaws L} ctx mapSpec i ms m pod s tr x
    tr1 c a tr2 :
  at_map (rs_cluster s) (map_ID mapSpec) ms m ->
  exec (rollUpdate ctx mapSpec i ms pod s) tr x -> tr = tr1 ++ Ev c a :: tr2 ->
  roll_guard (rs_cluster s) (map_ID mapSpec) ms m pod tr1 c /\
  (no_conflict tr1 ->
   match c with
   | Delete KindPod _ _ | Create KindPod _ => persisted (map_ID mapSpec) ms (swapped m) tr1
   | NetDial _ _ _ | NetWrite _ _ =>
       (exists now, persisted (map_ID mapSpec) ms (drained now (grace_of (rs_cluster s)) m) tr1) \/ due m tr1
   | _ => True
   end).
Proof.
  intros Hm Hex ->. pose proof (wp_rollUpdate (rs_cluster s) _ ms m pod ctx mapSpec i s [] eq_refl eq_refl Hm) as Hwp.
  destruct (wp_exec _ _ _ _ _ _ _ Hwp Hex (admits_any _ _)) as [_ H].
  specialize (H _ _ _ _ eq_refl). cbn [app] in H. split; [exact H|]. intros Hno.
  destruct c as [| |[]|[]| | | | | | | | | | | | | |]; try done; cbn in H.
  - destruct H as (_ & _ & Hw & _). by apply written_persisted.
  - destruct H as (_ & _ & Hw & _). by apply written_persisted.
  - destruct H as [_ [(now & _ & _ & _ & Hw)|H]]; [left; exists now; by apply written_persisted|by right].
  - destruct H as [_ [(now & _ & _ & _ & Hw)|H]]; [left; exists now; by apply written_persisted|by right].
Qed.

(** C11: one pass of [rollUpdate] takes the entry of the map through exactly one of six moves:
    installing, install failed, drain started with the clock's time plus the grace period for its
    deadline, drain given up because its status could not be stored, waiting for the deadline,
    swapped after it; it leaves every other entry and the spec alone, and always marks the
    reconcile busy.  Where a status update was answered, the times of the entries are those that
    are stored, in whole seconds. *)
Theorem rollUpdate_outcome {L : K8sLib} {HL : K8sLaws L} ctx mapSpec i ms m pod s tr r s' :
  at_map (rs_cluster s) (map_ID mapSpec) ms m ->
  exec (rollUpdate ctx mapSpec i ms pod s) tr (r, s') ->
  rs_busy s' = true /\ frame ms (rs_cluster s) (rs_cluster s') /\
  exists m', at_map (rs_cluster s') (map_ID mapSpec) ms m' /\
    roll_outcome (rs_cluster s) (map_ID mapSpec) ms tr m r m'.
Proof.
  intros Hm Hex. pose proof (wp_rollUpdate (rs_cluster s) _ ms m pod ctx mapSpec i s [] eq_refl eq_refl Hm) as Hwp.
  by destruct (wp_exec _ _ _ _ _ _ _ Hwp Hex (admits_any _ _)) as [H _].
Qed.

(** A map whose drain is due, with the inactive volume installed. *)
Definition due_entry : MapStatus :=
  (new_MapStatus "TheIsland_WP") <| ActiveVolume := "server-a" |> <| DrainDeadline := Some (-5) |>.
Definition roll_state : RState := MkRState (on_maps (fun _ => [due_entry]) demo_cluster) false.
Definition finished_job : Job :=
  let j := init_job demo_cluster "TheIsland_WP" "b" in
  MkJob (job_meta j) 3 3600 (job_Template j) [MkJobCondition "Complete" "True"].
Definition island : MapSpec := MkMapSpec "TheIsland_WP" [] None None.
Definition old_pod : Pod := BuildServerPod demo_input.
Definition roll_run : list kevent * (res unit * RState) :=
  run_with (demo_stored KindJob finished_job)
    (rollUpdate (L := demo_lib) None island 0 0 old_pod roll_state).

Lemma roll_run_delete : exists tr1 p g a tr2,
  roll_run.1 = tr1 ++ Ev (Delete KindPod p g) a :: tr2 /\ length tr1 = 3%nat.
Proof. eexists [_; _; _], _, _, _, _. split; [reflexivity|reflexivity]. Qed.

Lemma rollUpdate_persists_first_witness :
  exists tr1 p g a tr2, roll_run.1 = tr1 ++ Ev (Delete KindPod p g) a :: tr2 /\
    persisted "TheIsland_WP" 0 (swapped due_entry) tr1 /\ p = old_pod /\ g = Some 60.
Proof.
  destruct roll_run_delete as (tr1 & p & g & a & tr2 & Heq & _). exists tr1, p, g, a, tr2.
  split; [exact Heq|].
  pose proof (run_with_exec (demo_stored KindJob finished_job)
    (rollUpdate (L := demo_lib) None island 0 0 old_pod roll_state)) as Hex.
  destruct (rollUpdate_persists_first (HL := demo_laws) None island 0 0 due_entry old_pod roll_state
    roll_run.1 roll_run.2 tr1 (Delete KindPod p g) a tr2) as [(_ & _ & _ & H2 & H3 & _) Hp];
    [reflexivity|exact Hex|exact Heq|]. split; [|done]. apply Hp.
  apply (no_conflict_before tr1 (Ev (Delete KindPod p g) a :: tr2)). rewrite <- Heq.
  apply no_conflict_check. vm_compute. reflexivity.
Defined.

Lemma rollUpdate_outcome_witness :
  exists r s' m', roll_run.2 = (r, s') /\ at_map (rs_cluster s') "TheIsland_WP" 0 m' /\
    roll_outcome (rs_cluster roll_state) "TheIsland_WP" 0 roll_run.1 due_entry r m'.
Proof.
  pose proof (run_with_exec (demo_stored KindJob finished_job)
    (rollUpdate (L := demo_lib) None island 0 0 old_pod roll_state)) as Hex. fold roll_run in Hex.
  destruct roll_run.2 as [r s'] eqn:E.
  destruct (rollUpdate_outcome (HL := demo_laws) None island 0 0 due_entry old_pod roll_state
    roll_run.1 r s') as (_ & _ & m' & Hm & Ho); [reflexivity|exact Hex|].
  by exists r, s', m'.
Defined.
