(* ===== verification/ControllerFlows.v ===== *)
(** * The other flows of a map: first start, steady state and rollback

    The guards and the outcomes of [firstStart] and [steady], in the manner of [ControllerSafety.v]. *)

From S2P Require Import Prelude GoStd Effects ApiTypes Kube Ark Status Resources Workload Rcon Finalizer Controller ControllerSafety.

Local Open Scope prog_scope.

(** ** Crash loops *)

(** The first container has restarted three times or more, its last run failed, and that was less
    than five minutes before [now]. *)
Definition crash_loop (pod : Pod) (now : Z) : Prop :=
  exists cs rest last, ContainerStatuses (pod_Status pod) = cs :: rest /\ 3 <= RestartCount cs /\
    LastTermination cs = Some last /\ ExitCode last <> 0 /\ time_Sub now (FinishedAt last) < 5 * Minute.

Definition read_clock (e : kevent) : option Z := match e with Ev Now t => Some t | _ => None end.

Lemma shouldRollback_exec (pod : Pod) tr b :
  exec (shouldRollback pod) tr b ->
  (b = true <-> exists now, tr = [Ev Now now] /\ crash_loop pod now) /\
  (tr = [] -> forall now, ~ crash_loop pod now).
Proof.
  intros H.
  assert (Hno : exec (Ret false) tr b -> (forall now, ~ crash_loop pod now) ->
    (b = true <-> exists now, tr = [Ev Now now] /\ crash_loop pod now) /\
    (tr = [] -> forall now, ~ crash_loop pod now)).
  { intros Hex Hn. exec_inv. split; [|done]. split; [done|]. intros (now & [=] & _). }
  unfold shouldRollback in H. unfold crash_loop in *.
  destruct (ContainerStatuses (pod_Status pod)) as [|cs rest]; [apply Hno; naive_solver|].
  destruct (RestartCount cs <? 3) eqn:Hr; to_prop; [apply Hno; naive_solver lia|].
  destruct (LastTermination cs) as [last|] eqn:Hl; [|apply Hno; naive_solver].
  destruct (ExitCode last =? 0) eqn:He; to_prop; [apply Hno; naive_solver|]. clear Hno.
  cbn in H. apply exec_act_inv in H as (now & tr' & -> & H). exec_inv. split; [|done].
  rewrite Z.ltb_lt. split.
  - intros Hlt. exists now. split; [done|]. by exists cs, rest, last.
  - intros (now' & Heq & cs' & rest' & last' & ? & _ & ? & _ & Hlt).
    apply (f_equal (fun l => head l ≫= read_clock)) in Heq. cbn in Heq. by simplify_eq.
Qed.

(** A check that fails: no clock reading would do, or the one that was taken does not. *)
Definition not_crashing (pod : Pod) (h : list kevent) : Prop :=
  (forall now, ~ crash_loop pod now) \/ exists now, clock_read now h /\ ~ crash_loop pod now.

Lemma not_crashing_sub pod h h' : h ⊆ h' -> not_crashing pod h -> not_crashing pod h'.
Proof. intros Hh [H|(now & Hc & H)]; [by left|]. right. exists now. split; [by apply Hh|done]. Qed.

Lemma shouldRollback_not (pod : Pod) tr : exec (shouldRollback pod) tr false -> not_crashing pod tr.
Proof.
  intros Hex. pose proof (shouldRollback_exec _ _ _ Hex) as [Hb Hno].
  assert (Htr : tr = [] \/ exists now, tr = [Ev Now now]).
  { clear Hb Hno. unfold shouldRollback in Hex. destruct (ContainerStatuses _) as [|cs ?]; [exec_inv; by left|].
    destruct (_ <? 3); [exec_inv; by left|]. destruct (LastTermination cs); [|exec_inv; by left].
    destruct (_ =? 0); [exec_inv; by left|]. cbn in Hex. apply exec_act_inv in Hex as (now & tr' & -> & Hex).
    exec_inv. right. by exists now. }
  destruct Htr as [->|[now ->]]; [left; by apply Hno|]. right. exists now. split; [by left|].
  intros Hcr. assert (false = true) as [=]. apply Hb. by exists now.
Qed.

(** a pod is taken to be crash-looping exactly when its first container has restarted at least
    three times and last ended, within five minutes of the clock, with a non-zero exit code; the
    clock is read only when everything else holds. *)
Theorem shouldRollback_spec (pod : Pod) tr b :
  exec (shouldRollback pod) tr b ->
  (b = true <-> exists now, tr = [Ev Now now] /\ crash_loop pod now) /\
  (tr = [] -> forall now, ~ crash_loop pod now).
Proof. apply shouldRollback_exec. Qed.

Definition crashing_pod : Pod :=
  let p := BuildServerPod demo_input in
  MkPod (pod_meta p) (pod_Spec p) (MkPodStatus [] [MkContainerStatus 3 (Some (MkTerminated 139 (-1)))]).

Lemma shouldRollback_spec_witness : exists now : Z, [Ev Now 0] = ([Ev Now now] : list kevent) /\ crash_loop crashing_pod now.
Proof. by apply (shouldRollback_spec crashing_pod [Ev Now 0] true (run_with_exec demo_answer _)). Defined.

(** ** Steady state and rollback *)

Definition steady_entry (cluster : ArkCluster) (id : string) (pod : Pod) (m : MapStatus) : MapStatus :=
  m <| ms_Pod := Name (pod_meta pod) |>
    <| ms_SessionName := SessionName (SessionNameFormat (Global (Spec cluster))) (cluster_name cluster)
         id (friendlyName id) |>.

Definition rolled_back (conds : list Condition) (m : MapStatus) : MapStatus :=
  m <| ActiveVolume := LastGoodVolume m |> <| ms_Conditions := conds |>.

(** What must have happened before a call of [steady]. *)
Definition steady_guard (cluster : ArkCluster) (id : string) (ms : nat) (m : MapStatus) (pod : Pod)
    (h : list kevent) (c : call) : Prop :=
  let m := steady_entry cluster id pod m in
  let may_roll_back := LastGoodVolume m <> "" /\ LastGoodVolume m <> ActiveVolume m /\
    exists now, clock_read now h /\ crash_loop pod now in
  match c with
  | Now => True
  | StatusUpdate c' => may_roll_back /\ frame ms cluster c' /\
      exists conds, map_status c' ms = rolled_back conds m
  | Delete KindPod p grace => may_roll_back /\ p = pod /\ grace = Some 0 /\
      DeletionTimestamp (pod_meta p) = None /\ exists conds, status_written id ms (rolled_back conds m) h
  | Eventf _ _ _ => may_roll_back /\ exists conds, status_written id ms (rolled_back conds m) h
  | _ => False
  end.

(** The volume to roll back to. *)
Definition other_good (m : MapStatus) : Prop := LastGoodVolume m <> "" /\ LastGoodVolume m <> ActiveVolume m.

(** [shouldRollback] is asked twice, and each time reads the clock: a crash loop is reported when
    the second check finds it, and there is no volume to roll back to or the first check did not
    find it. *)
Inductive steady_outcome (cluster : ArkCluster) (id : string) (ms : nat) (pod : Pod) (busy : bool)
    (h : list kevent) (m : MapStatus) : res unit -> bool -> MapStatus -> Prop :=
  | SteadyRollback conds r u :
      reports conds "RollbackOccurred" ConditionTrue "PodCrashLooping" ->
      other_good m ->
      (exists now, clock_read now h /\ crash_loop pod now) ->
      sent id ms (rolled_back conds (steady_entry cluster id pod m)) u h ->
      steady_outcome cluster id ms pod busy h m r true
        (answer_map u (rolled_back conds (steady_entry cluster id pod m)))
  | SteadyCrash conds :
      reports conds "PodReady" ConditionFalse "PodCrashLooping" ->
      (exists now, clock_read now h /\ crash_loop pod now) ->
      ~ other_good m \/ not_crashing pod h ->
      steady_outcome cluster id ms pod busy h m (Ok tt) true
        ((steady_entry cluster id pod m) <| ms_Conditions := conds |>)
  | SteadyReady conds :
      reports conds "PodReady" ConditionTrue "RCONReachable" ->
      not_crashing pod h -> podReady pod = true ->
      steady_outcome cluster id ms pod busy h m (Ok tt) busy
        ((steady_entry cluster id pod m) <| ms_Phase := MapPhaseRunning |>
           <| LastGoodVolume := ActiveVolume m |> <| ms_Conditions := conds |>)
  | SteadyWarming conds :
      reports conds "PodReady" ConditionFalse "PodNotReady" ->
      not_crashing pod h -> podReady pod = false ->
      steady_outcome cluster id ms pod busy h m (Ok tt) true
        ((steady_entry cluster id pod m) <| ms_Conditions := conds |>).

Section Steady.
Variables (c0 : ArkCluster) (id : string) (ms : nat) (m : MapStatus) (pod : Pod) (busy : bool).

Abbreviation guard := (steady_guard c0 id ms m pod).
Abbreviation m1 := (steady_entry c0 id pod m).

Definition steady_post (x : res unit * RState) (h : list kevent) : Prop :=
  frame ms c0 (rs_cluster x.2) /\
  exists m', at_map (rs_cluster x.2) id ms m' /\
    steady_outcome c0 id ms pod busy h m x.1 (rs_busy x.2) m'.

Lemma wp_rollback r mapSpec s h :
  map_ID mapSpec = id -> frame ms c0 (rs_cluster s) -> at_map (rs_cluster s) id ms m1 ->
  LastGoodVolume m <> "" -> LastGoodVolume m <> ActiveVolume m ->
  (exists now, clock_read now h /\ crash_loop pod now) ->
  wp any guard (rollback r mapSpec ms pod s) steady_post h.
Proof.
  intros Hid Hf Hm Hg1 Hg2 (now & Hnow & Hcrash). unfold rollback. repeat m_step.
  assert (Hroll : forall tr, LastGoodVolume m1 <> "" /\ LastGoodVolume m1 <> ActiveVolume m1 /\
    exists now, clock_read now (h ++ tr) /\ crash_loop pod now).
  { intros tr. split_and!; try done. exists now. auto with ark. }
  assert (Hf1 : frame ms c0 (rs_cluster (s <| rs_busy := true |>))) by done.
  assert (Hm1 : at_map (rs_cluster (s <| rs_busy := true |>)) id ms m1) by done.
  assert (Hb : rs_busy (s <| rs_busy := true |>) = true) by done. revert Hf1 Hm1 Hb.
  generalize (s <| rs_busy := true |>). clear s Hf Hm. intros s Hf Hm Hb.
  rewrite (at_map_status _ _ _ _ Hm). eapply wp_on_map; [exact Hm|done|]. intros s1 Hs1.
  repeat m_step. rewrite Hid. eapply wp_condition; [by eapply moved_at|done|].
  intros tr conds s2 _ Hrep Hs2. pose proof (moved_trans _ _ _ _ _ Hs1 Hs2) as Hs.
  set (m2 := rolled_back conds m1). change (moved id ms s s2 m2) in Hs.
  assert (Hpost : forall r s' u tr, moved id ms s s' (answer_map u m2) -> sent id ms m2 u (h ++ tr) ->
    steady_post (r, s') (h ++ tr)).
  { intros r' s' u tr' (Hb' & Hf' & Hm') Hsent. split; [by etrans|]. exists (answer_map u m2). split; [done|].
    cbn [fst snd]. rewrite Hb', Hb. apply SteadyRollback; [done|done| |exact Hsent]. exists now. auto with ark. }
  repeat m_step. eapply wp_persist; [by eapply moved_at|..].
  - split; [apply Hroll|]. split; [etrans; [exact Hf|apply Hs]|]. exists conds. by eapply moved_status.
  - intros u s3 Hu Hs3. rewrite <- app_assoc. set (tr' := tr ++ _).
    pose proof (moved_trans _ _ _ _ _ Hs Hs3) as Hs'.
    assert (Hsent : forall tr'', sent id ms m2 u (h ++ tr' ++ tr'')).
    { intros tr''. rewrite app_assoc. apply sent_app. unfold tr'. rewrite app_assoc. apply sent_here.
      by eapply moved_at. }
    assert (Hcom : status_written id ms m2 (h ++ tr')).
    { eapply sent_written; [exact Hu|]. rewrite <- (app_nil_r tr'). apply Hsent. }
    assert (Hcom' : forall tr'', exists conds, status_written id ms (rolled_back conds m1) ((h ++ tr') ++ tr''))
      by (intros; exists conds; auto with ark).
    repeat m_step.
    eapply (wp_mono _ _ _ (fun x h' => x = (Ok tt, s3) /\ exists tr, h' = (h ++ tr') ++ tr)).
    2: { destruct (terminating pod) eqn:Ht; [m_step; split; [done|]; exists []; by rewrite app_nil_r|].
      unfold terminating in Ht. to_prop. repeat m_step.
      - split_and!; try done; [apply Hroll|by apply eq_None_not_Some|]. by exists conds.
      - split; [done|]. by eexists. }
    intros x h' (-> & tr3 & ->). repeat m_step. destruct (has_Recorder r).
    + repeat m_step; [|rewrite <- !app_assoc; by eapply Hpost].
      split; [rewrite <- app_assoc; apply Hroll|apply Hcom'].
    + m_step. rewrite <- app_assoc. by eapply Hpost.
  - intros e He. rewrite <- app_assoc. apply (Hpost _ _ (Err e)); [done|]. rewrite app_assoc. apply sent_here.
    by eapply moved_at.
Qed.

Lemma wp_steady r mapSpec s h :
  map_ID mapSpec = id -> rs_cluster s = c0 -> rs_busy s = busy -> at_map c0 id ms m ->
  wp any guard (steady r mapSpec ms pod s) steady_post h.
Proof.
  intros Hid Hc Hb Hm. pose proof Hm as Hm0. rewrite <- Hc in Hm0. unfold steady. repeat m_step.
  rewrite Hc, Hid. eapply wp_on_map; [exact Hm0|done|]. intros s1 Hs1. change (moved id ms s s1 m1) in Hs1.
  assert (Hf1 : frame ms c0 (rs_cluster s1)) by (rewrite <- Hc; apply Hs1).
  assert (Hb1 : rs_busy s1 = busy) by (rewrite <- Hb; apply Hs1).
  pose proof (moved_at _ _ _ Hs1) as Hm1. clear Hs1.
  repeat m_step. apply (wp_exec_intro _ _ is_now); [auto with ark|by intros ? []|].
  intros tr b Hex _. repeat m_step.
  rewrite (at_map_status _ _ _ _ Hm1).
  destruct (_ && _) eqn:Hroll.
  { apply shouldRollback_exec in Hex as [Hex _]. to_prop. apply Hex in H as (now & -> & Hcrash). change (LastGoodVolume m1) with (LastGoodVolume m) in *.
    change (ActiveVolume m1) with (ActiveVolume m) in *.
    apply wp_rollback; try done. exists now. split; [apply in_snoc|done]. }
  assert (Hfirst : ~ other_good m \/ not_crashing pod tr).
  { destruct b; [left|right; by apply shouldRollback_not]. intros [Hg1 Hg2]. apply not_true_iff_false in Hroll.
    apply Hroll. rewrite !andb_true_iff, !negb_true_iff, !String.eqb_neq. by split. }
  clear Hroll Hex. repeat m_step. apply (wp_exec_intro _ _ is_now); [auto with ark|by intros ? []|].
  intros tr2 b2 Hex _. repeat m_step. destruct b2.
  - apply shouldRollback_exec in Hex as [Hex _]. destruct Hex as [(now & -> & Hcrash) _]; [done|]. repeat m_step.
    eapply wp_condition; [exact Hm1|done|]. intros tr3 conds s2 _ Hrep (Hb2 & Hf2 & Hm2). repeat m_step.
    split; [by etrans|]. eexists. split; [exact Hm2|]. apply SteadyCrash; [done|..].
    + exists now. split; [|done]. unfold clock_read. set_solver.
    + destruct Hfirst as [?|Hno]; [by left|right]. eapply not_crashing_sub; [|exact Hno]. set_solver.
  - apply shouldRollback_not in Hex. assert (Hno : forall tr3, not_crashing pod (((h ++ tr) ++ tr2) ++ tr3))
      by (intros tr3; eapply not_crashing_sub; [|exact Hex]; set_solver).
    destruct (podReady pod) eqn:Hready.
    + repeat m_step. eapply wp_on_map; [exact Hm1|done|]. intros s2 Hs2. repeat m_step.
      eapply (wp_on_map _ _ _ _ _ (moved_at _ _ _ Hs2)); [done|]. intros s3 Hs3. repeat m_step.
      eapply wp_condition; [by eapply moved_at|done|]. intros tr3 conds s4 _ Hrep Hs4.
      pose proof (moved_trans _ _ _ _ _ Hs2 (moved_trans _ _ _ _ _ Hs3 Hs4)) as (Hb4 & Hf4 & Hm4).
      split; [by etrans|]. eexists. split; [exact Hm4|]. cbn [fst snd]. rewrite Hb4, Hb1.
      by apply (SteadyReady c0 id ms pod busy _ m conds).
    + repeat m_step.
      assert (Hm1' : at_map (rs_cluster (s1 <| rs_busy := true |>)) id ms m1) by done.
      eapply wp_condition; [exact Hm1'|done|]. intros tr3 conds s2 _ Hrep (Hb2 & Hf2 & Hm2).
      split; [by etrans|]. eexists. split; [exact Hm2|]. cbn [fst snd]. rewrite Hb2. by apply SteadyWarming.
Qed.
End Steady.

(** C12: every call of [steady] is made for a reason: nothing is called but the clock unless the pod
    crash-loops and another volume is known to be good; then the status with the rollback is sent
    first, and only when the API server has stored it, or has refused it with a conflict, which the
    code takes for success, is the bad pod deleted, at once, and the event recorded.  As long as no
    update was refused with a conflict, both happen only after the rollback was stored. *)
Theorem steady_persists_first r mapSpec ms m pod s tr x tr1 c a tr2 :
  at_map (rs_cluster s) (map_ID mapSpec) ms m ->
  exec (steady r mapSpec ms pod s) tr x -> tr = tr1 ++ Ev c a :: tr2 ->
  steady_guard (rs_cluster s) (map_ID mapSpec) ms m pod tr1 c /\
  (no_conflict tr1 ->
   match c with
   | Delete _ _ _ | Eventf _ _ _ => exists conds,
       persisted (map_ID mapSpec) ms (rolled_back conds (steady_entry (rs_cluster s) (map_ID mapSpec) pod m)) tr1
   | _ => True
   end).
Proof.
  intros Hm Hex ->. pose proof (wp_steady (rs_cluster s) _ ms m pod (rs_busy s) r mapSpec s [] eq_refl eq_refl eq_refl Hm) as Hwp.
  destruct (wp_exec _ _ _ _ _ _ _ Hwp Hex (admits_any _ _)) as [_ H].
  specialize (H _ _ _ _ eq_refl). cbn [app] in H. split; [exact H|]. intros Hno.
  destruct c as [| | |[]| | | | | | | | | | | | | |]; try done; cbn in H.
  - destruct H as (_ & _ & _ & _ & conds & Hw). exists conds. by apply written_persisted.
  - destruct H as (_ & conds & Hw). exists conds. by apply written_persisted.
Qed.

(** C13: one pass of [steady] rolls a map whose pod crash-loops back to its last good volume, if that
    is another one than the active; a crash loop is only reported, and the map left where it is,
    when there is no such volume, or when the first of the two checks of the pod did not show the
    crash loop yet; a pod that is not found in a crash loop makes its volume the good one and the
    map running when it is ready, and is waited for when it is not.  The drain deadline keeps its
    second in every case. *)
Theorem steady_spec r mapSpec ms m pod s tr x s' :
  at_map (rs_cluster s) (map_ID mapSpec) ms m ->
  exec (steady r mapSpec ms pod s) tr (x, s') ->
  frame ms (rs_cluster s) (rs_cluster s') /\
  exists m', at_map (rs_cluster s') (map_ID mapSpec) ms m' /\
    steady_outcome (rs_cluster s) (map_ID mapSpec) ms pod (rs_busy s) tr m x (rs_busy s') m' /\
    (DrainDeadline m' = DrainDeadline m \/ DrainDeadline m' = stored_time <$> DrainDeadline m).
Proof.
  intros Hm Hex. pose proof (wp_steady (rs_cluster s) _ ms m pod (rs_busy s) r mapSpec s [] eq_refl eq_refl eq_refl Hm) as Hwp.
  destruct (wp_exec _ _ _ _ _ _ _ Hwp Hex (admits_any _ _)) as [(Hf & m' & Hm' & Ho) _].
  split; [done|]. exists m'. split_and!; [done..|]. inv Ho; try by left.
  destruct u; [by right|by left].
Qed.

(** A running map whose pod crash-loops on the b side. *)
Definition bad_entry : MapStatus :=
  (new_MapStatus "TheIsland_WP") <| ActiveVolume := "server-b" |> <| LastGoodVolume := "server-a" |>.
Definition bad_state : RState := MkRState (on_maps (fun _ => [bad_entry]) demo_cluster) false.
Definition bad_run : list kevent * (res unit * RState) :=
  run_with demo_answer (steady (MkArkClusterReconciler true) island 0 crashing_pod bad_state).

Lemma steady_persists_first_witness :
  exists tr1 p g a tr2, bad_run.1 = tr1 ++ Ev (Delete KindPod p g) a :: tr2 /\
    p = crashing_pod /\ g = Some 0.
Proof.
  assert (Hd : exists tr1 p g a tr2, bad_run.1 = tr1 ++ Ev (Delete KindPod p g) a :: tr2).
  { eexists [_; _; _], _, _, _, _. reflexivity. }
  destruct Hd as (tr1 & p & g & a & tr2 & Heq). exists tr1, p, g, a, tr2. split; [exact Heq|].
  pose proof (run_with_exec demo_answer (steady (MkArkClusterReconciler true) island 0 crashing_pod bad_state)) as Hex.
  destruct (steady_persists_first (MkArkClusterReconciler true) island 0 bad_entry crashing_pod bad_state
    bad_run.1 bad_run.2 tr1 (Delete KindPod p g) a tr2) as [(_ & H1 & H2 & _) _];
    [reflexivity|exact Hex|exact Heq|]. done.
Defined.

Lemma steady_spec_witness :
  exists r s' m', bad_run.2 = (r, s') /\ at_map (rs_cluster s') "TheIsland_WP" 0 m' /\
    steady_outcome (rs_cluster bad_state) "TheIsland_WP" 0 crashing_pod false bad_run.1 bad_entry r (rs_busy s') m'.
Proof.
  pose proof (run_with_exec demo_answer (steady (MkArkClusterReconciler true) island 0 crashing_pod bad_state)) as Hex.
  fold bad_run in Hex. destruct bad_run.2 as [r s'] eqn:E.
  destruct (steady_spec (MkArkClusterReconciler true) island 0 bad_entry crashing_pod bad_state bad_run.1 r s')
    as (_ & m' & Hm & Ho & _); [reflexivity|exact Hex|]. by exists r, s', m'.
Defined.

(** ** First start *)

(** What must have happened before a call of [firstStart]. *)
Definition first_guard (cluster : ArkCluster) (id : string) (m : MapStatus) (h : list kevent) (c : call) : Prop :=
  let side := volumeSide (ActiveVolume m) in
  match c with
  | Get _ _ _ | List _ _ _ | Now | RandRead _ => True
  | Create KindJob job =>
      Name (job_meta job) = InitJobName cluster id side /\
      job_Template job = job_Template (init_job cluster id side)
  | Create KindPod p =>
      installed cluster id side h /\
      Labels (pod_meta p) !! "ark.watteel.com/active-volume" = Some (ActiveVolume m) /\
      Labels (pod_meta p) !! "ark.watteel.com/map" = Some (MapSlug id)
  | _ => False
  end.

Inductive first_outcome (cluster : ArkCluster) (id : string) (busy : bool) (h : list kevent)
    (m : MapStatus) : res unit -> bool -> MapStatus -> Prop :=
  | FirstInstalling r :
      first_outcome cluster id busy h m r true (m <| ms_Phase := MapPhaseInstallingActive |>)
  | FirstFailed conds :
      reports conds "InstallSucceeded" ConditionFalse "InstallJobFailed" ->
      first_outcome cluster id busy h m (Ok tt) busy
        (m <| ms_Phase := MapPhaseFailed |> <| ms_Conditions := conds |>)
  | FirstProvisioned r :
      installed cluster id (volumeSide (ActiveVolume m)) h ->
      first_outcome cluster id busy h m r true (m <| ms_Phase := MapPhaseProvisioning |>).

Section First.
Context {L : K8sLib} {HL : K8sLaws L}.
#[local] Set Default Proof Using "All".
Variables (c0 : ArkCluster) (id : string) (ms : nat) (m : MapStatus) (busy : bool).

Abbreviation guard := (first_guard c0 id m).
Abbreviation side := (volumeSide (ActiveVolume m)).

Definition first_post (x : res unit * RState) (h : list kevent) : Prop :=
  frame ms c0 (rs_cluster x.2) /\
  exists m', at_map (rs_cluster x.2) id ms m' /\
    first_outcome c0 id busy h m x.1 (rs_busy x.2) m'.

(** The status of the job, and what it says about the volume. *)
Lemma wp_InitJobStatus (rely : list kevent -> forall c, resp c -> Prop) (guar : list kevent -> call -> Prop)
    cluster mapID sd (Q : string -> list kevent -> Prop) h :
  (forall ns name, guar h (Get KindJob ns name)) ->
  (forall tr, Q "NotFound" (h ++ tr)) -> (forall tr, Q "Running" (h ++ tr)) ->
  (forall tr, Q "Failed" (h ++ tr)) ->
  (forall tr, installed cluster mapID sd (h ++ tr) -> Q "Succeeded" (h ++ tr)) ->
  wp rely guar (InitJobStatus cluster mapID sd) Q h.
Proof.
  intros Hg H1 H2 H3 H4. unfold InitJobStatus. cbn [bind do_call]. wp_step; [apply Hg|].
  destruct r as [job|e]; [|destruct (IsNotFound e); by wp_step]. wp_step.
  destruct (job_verdict_cases (job_Conditions job)) as [E|[E|E]]; rewrite E; auto.
  apply H4. exists job. split; [apply in_snoc|done].
Qed.

Lemma wp_firstStart mapSpec i hash s h :
  map_ID mapSpec = id -> rs_cluster s = c0 -> rs_busy s = busy -> at_map c0 id ms m ->
  wp any guard (firstStart mapSpec i ms hash s) first_post h.
Proof.
  intros Hid Hc Hb Hm. pose proof Hm as Hm0. rewrite <- Hc in Hm0. unfold firstStart. repeat m_step.
  rewrite Hc, Hid, (at_map_status _ _ _ _ Hm).
  assert (Hpost : forall r s' m' h, moved id ms s s' m' -> first_outcome c0 id busy h m r (rs_busy s') m' ->
    first_post (r, s') h).
  { intros r s' m' h' (_ & Hf & Hm') Ho. rewrite Hc in Hf. split; [done|]. by exists m'. }
  assert (Hmb : forall s', moved id ms s s' m -> True) by done.
  apply wp_InitJobStatus; [done|..]; intros tr; cbn [String.eqb Ascii.eqb Bool.eqb andb].
  - repeat m_step. apply (wp_exec_intro _ _ (makes_job c0 id side)); [apply emits_EnsureInitJob| |].
    + intros tr' c _ [Hc'|(job & -> & Hn & Ht)]; [by destruct c|done].
    + intros tr' r' _ _. repeat m_step. eapply wp_on_map; [exact Hm0|done|]. intros s2 (Hb2 & Hf2 & Hm2).
      repeat m_step.
      assert (Hp : forall r h, first_post (r, s2 <| rs_busy := true |>) h).
      { intros r h'. split; [cbn; by rewrite Hc in Hf2|]. eexists. split; [exact Hm2|]. constructor. }
      destruct r' as [b|e]; m_step; apply Hp.
  - repeat m_step. eapply wp_on_map; [exact Hm0|done|]. intros s2 (Hb2 & Hf2 & Hm2). repeat m_step.
    split; [cbn; by rewrite Hc in Hf2|]. eexists. split; [exact Hm2|]. constructor.
  - repeat m_step. eapply wp_on_map; [exact Hm0|done|]. intros s2 Hs2. repeat m_step.
    eapply wp_condition; [by eapply moved_at|done|]. intros tr' conds s3 _ Hrep Hs3.
    pose proof (moved_trans _ _ _ _ _ Hs2 Hs3) as Hs. eapply Hpost; [exact Hs|].
    destruct Hs as (Hb3 & _). rewrite Hb3, Hb. by apply FirstFailed.
  - intros Hi. repeat m_step. apply (wp_exec_intro _ _ (makes_pod c0 (map_ID mapSpec) (ActiveVolume m)));
      [apply emits_ensurePodForMap| |].
    + intros tr5 c _ (p & -> & Hv & Hmap & _). rewrite Hid in Hmap. cbn. auto with ark.
    + intros tr5 r' _ _. repeat m_step.
      assert (Hm1 : at_map (rs_cluster (s <| rs_busy := true |>)) id ms m) by done.
      eapply wp_on_map; [exact Hm1|done|]. intros s2 (Hb2 & Hf2 & Hm2). repeat m_step.
      assert (Hp : forall r, first_post (r, s2) ((h ++ tr) ++ tr5)).
      { intros r. split; [cbn in Hf2; by rewrite Hc in Hf2|]. eexists. split; [exact Hm2|]. cbn [fst snd].
        rewrite Hb2. apply FirstProvisioned. auto with ark. }
      destruct r' as [b|e]; m_step; apply Hp.
Qed.
End First.

(** C14: a map without a pod is installed before it is started.  One pass of [firstStart] leaves every
    other entry alone and ends installing, failed or provisioning; it creates the install job of the
    active volume's side and nothing else until that job was seen to have succeeded, and then only
    a pod of this map on the active volume. *)
Theorem firstStart_spec {L : K8sLib} {HL : K8sLaws L} mapSpec i ms hash m s tr x s' :
  at_map (rs_cluster s) (map_ID mapSpec) ms m ->
  exec (firstStart mapSpec i ms hash s) tr (x, s') ->
  frame ms (rs_cluster s) (rs_cluster s') /\
  (exists m', at_map (rs_cluster s') (map_ID mapSpec) ms m' /\
    first_outcome (rs_cluster s) (map_ID mapSpec) (rs_busy s) tr m x (rs_busy s') m') /\
  forall tr1 c a tr2, tr = tr1 ++ Ev c a :: tr2 -> first_guard (rs_cluster s) (map_ID mapSpec) m tr1 c.
Proof.
  intros Hm Hex.
  pose proof (wp_firstStart (rs_cluster s) _ ms m (rs_busy s) mapSpec i hash s [] eq_refl eq_refl eq_refl Hm) as Hwp.
  destruct (wp_exec _ _ _ _ _ _ _ Hwp Hex (admits_any _ _)) as [[Hf Hp] Hg].
  split; [done|]. split; [done|]. intros tr1 c a tr2 ->. by eapply Hg.
Qed.

(** A new map whose install job has succeeded. *)
Definition new_entry : MapStatus := (new_MapStatus "TheIsland_WP") <| ActiveVolume := "server-a" |>.
Definition new_state : RState := MkRState (on_maps (fun _ => [new_entry]) demo_cluster) false.
Definition first_start : kprog (res unit * RState) := firstStart (L := demo_lib) island 0 0 "h" new_state.
Definition start_run : list kevent * (res unit * RState) := run_with (demo_stored KindJob finished_job) first_start.

Lemma firstStart_spec_witness : exists r s' e pod a,
  start_run = ([e; Ev (Create KindPod pod) a], (r, s')) /\
  installed (rs_cluster new_state) "TheIsland_WP" "a" [e].
Proof.
  assert (H : exists e pod a r s', start_run = ([e; Ev (Create KindPod pod) a], (r, s'))) by (by eexists _, _, _, _, _).
  destruct H as (e & pod & a & r & s' & Heq). exists r, s', e, pod, a. split; [exact Heq|].
  pose proof (run_with_exec (demo_stored KindJob finished_job) first_start) as Hex. fold start_run in Hex.
  rewrite Heq in Hex.
  destruct (firstStart_spec (HL := demo_laws) island 0 0 "h" new_entry new_state _ r s' eq_refl Hex) as (_ & _ & Hg).
  exact (proj1 (Hg [e] (Create KindPod pod) a [] eq_refl)).
Defined.
