(* ===== verification/MapPass.v ===== *)
(** * One pass over a map

    What [reconcileMap] may call and what it makes of the entry of the map, in terms of what it read
    on the way: the claims and files of the map, the hash of the pod it wants, the pods that are
    listed and the address of the service. *)

From S2P Require Import Prelude GoStd Effects ApiTypes Kube Ark Status Ini Resources Workload Rcon Finalizer Controller ControllerSafety ControllerFlows.

Local Open Scope prog_scope.

(** ** The entry of a map in the status *)

Definition entry (c : ArkCluster) (id : string) : option MapStatus :=
  snd <$> find_status (MapStatuses (Status c)) id.

Lemma at_map_entry c id ms m : at_map c id ms m -> entry c id = Some m.
Proof. unfold at_map, entry. by intros ->. Qed.

(** The first entry with an identifier is found by the identifiers. *)
Lemma find_status_index l l' id j m :
  ms_ID <$> l' = ms_ID <$> l -> find_status l id = Some (j, m) ->
  exists m', find_status l' id = Some (j, m') /\ l' !! j = Some m'.
Proof.
  intros Hids (Hj & Hid & Hfirst)%list_find_Some.
  assert (Hl : forall k, ms_ID <$> l' !! k = ms_ID <$> l !! k) by (intros k; by rewrite <- !list_lookup_fmap, Hids).
  specialize (Hl j) as Hj'. rewrite Hj in Hj'. destruct (l' !! j) as [m'|] eqn:E; [|done]. cbn in Hj'.
  injection Hj' as Hm'. exists m'. split; [|done]. apply list_find_Some. split_and!; [done|congruence|].
  intros k y Hk Hlt. specialize (Hl k). rewrite Hk in Hl. destruct (l !! k) as [z|] eqn:Ez; [|done].
  cbn in Hl. injection Hl as ->. by eapply Hfirst.
Qed.

Lemma find_status_ids l l' id :
  ms_ID <$> l' = ms_ID <$> l -> find_status l id = None -> find_status l' id = None.
Proof.
  intros Hids Hn. destruct (find_status l' id) as [[j m]|] eqn:E; [|done].
  eapply find_status_index in E as (m' & E & _); [|by symmetry]. congruence.
Qed.

(** The other entries are left alone, up to the rounding of their times. *)
Lemma frame_entry ms c c' id m id' :
  frame ms c c' -> at_map c id ms m -> id' <> id -> rounded (entry c id') (entry c' id').
Proof.
  intros (_ & _ & Hids & Hother) Hm Hne. unfold entry.
  destruct (find_status (MapStatuses (Status c)) id') as [[j m0]|] eqn:E.
  - destruct (find_status_index _ _ _ _ _ Hids E) as (m' & -> & Hm').
    assert (Hj : j <> ms).
    { intros ->. apply list_find_Some in E as (E & Hid0 & _), Hm as (Hm & Hid & _). congruence. }
    specialize (Hother j Hj). rewrite Hm' in Hother. apply list_find_Some in E as (E & _). by rewrite E in Hother.
  - rewrite (find_status_ids _ _ _ Hids E). by left.
Qed.

(** [EnsureMapStatus] points to the entry of the map, which is fresh when there was none. *)
Lemma EnsureMapStatus_at c id ms c' :
  EnsureMapStatus c id = (ms, c') ->
  at_map c' id ms (default (new_MapStatus id) (entry c id)) /\
  Spec c' = Spec c /\ cluster_meta c' = cluster_meta c /\
  forall id', id' <> id -> entry c' id' = entry c id'.
Proof.
  unfold EnsureMapStatus, entry, at_map. destruct (find_status _ id) as [[i m]|] eqn:Hf; intros H; inv H.
  - by rewrite Hf.
  - cbn. rewrite length_app, Nat.add_sub. split; [by apply find_status_snoc|]. split_and!; try done.
    intros id' Hne. unfold find_status. induction (MapStatuses (Status c)) as [|x l IH]; cbn.
    + by rewrite decide_False.
    + destruct (decide (ms_ID x = id')); [done|].
      assert (Hl : find_status l id = None).
      { unfold find_status in *. cbn in Hf. destruct (decide _); [done|]. by destruct (list_find _ l) as [[]|]. }
      specialize (IH Hl). by destruct (list_find _ (l ++ _)) as [[]|], (list_find _ l) as [[]|].
Qed.

(** ** The calls of one pass *)

(** Calls that make the claims, ConfigMaps and services of a map what they should be. *)
Definition is_ensure (c : call) : Prop :=
  match c with
  | CouBegin k _ | CouEnd k _ => k ∈ [KindPVC; KindConfigMap; KindService]
  | Get KindConfigMap _ _ => True
  | _ => False
  end.

Lemma emits_CreateOrUpdate P k o f :
  P (CouBegin k o) -> (forall x, emits P (f x)) -> (forall y, P (CouEnd k y)) ->
  emits P (CreateOrUpdate k o f).
Proof.
  intros Hb Hf He. apply emits_act; [done|]. intros [x|e]; [|done]. apply emits_bind; [apply Hf|].
  intros [y|e]; [by apply emits_act|done].
Qed.

(** The entry of the map, or a new one, once it has its volume. *)
Definition with_volume (c : ArkCluster) (id : string) : MapStatus :=
  let m0 := default (new_MapStatus id) (entry c id) in
  if String.eqb (ActiveVolume m0) "" then m0 <| ActiveVolume := "server-a" |> else m0.

(** The entry with the addresses of the service that was found, if it has one. *)
Definition addressed (c : ArkCluster) (i : nat) (got : res KService) (m : MapStatus) : MapStatus :=
  match got with
  | Ok svc =>
      match ks_Ingress svc with
      | [] => m
      | ip :: _ =>
          m <| Address := ip +:+ ":" +:+ FormatInt (GamePort (GamePortStart (Service (Spec c))) (Z.of_nat i)) |>
            <| RconAddress := ip +:+ ":" +:+ FormatInt (RconPort (RconPortStart (Service (Spec c))) (Z.of_nat i)) |>
      end
  | Err _ => m
  end.

(** The service of the map was asked for, and the pods of the map were listed. *)
Definition service_seen (c : ArkCluster) (id : string) (got : res KService) (h : list kevent) : Prop :=
  (Ev (Get KindService (cluster_ns c) (ServiceName (cluster_name c) id)) got : kevent) ∈ h.
Definition pods_seen (c : ArkCluster) (id : string) (got : res (list Pod)) (h : list kevent) : Prop :=
  (Ev (List KindPod (cluster_ns c)
      (<["ark.watteel.com/cluster" := cluster_name c]> {["ark.watteel.com/map" := MapSlug id]})) got : kevent) ∈ h.

(** The pod was listed for the map in this pass, and was not terminating. *)
Definition listed (cluster : ArkCluster) (id : string) (pod : Pod) (h : list kevent) : Prop :=
  exists pods, pods_seen cluster id (Ok pods) h /\ pod ∈ pods /\ terminating pod = false.

(** The program was run, with the result [a]. *)
Definition ran {A} (p : kprog A) (a : A) (h : list kevent) : Prop :=
  exists h1 tr h2, h = h1 ++ tr ++ h2 /\ exec p tr a.

Lemma ran_here {A} (p : kprog A) a h tr h' : exec p tr a -> ran p a ((h ++ tr) ++ h').
Proof. intros Hex. exists h, tr, h'. by rewrite app_assoc. Qed.

Lemma ran_app {A} (p : kprog A) a h h' : ran p a h -> ran p a (h ++ h').
Proof. intros (h1 & tr & h2 & -> & Hex). exists h1, tr, (h2 ++ h'). by rewrite !app_assoc. Qed.

(** The cluster [c1] when the flow of the map [id] starts, in a reconcile of [c0]: the entry of the
    map is there, with its volume and the addresses of the service [got], the others are as they
    were. *)
Record ready (c0 : ArkCluster) (id : string) (i : nat) (got : res KService) (c1 : ArkCluster) (ms : nat)
    (m1 : MapStatus) : Prop := {
  ready_spec : Spec c1 = Spec c0;
  ready_meta : (cluster_meta c1) <| ResourceVersion := "" |> = (cluster_meta c0) <| ResourceVersion := "" |>;
  ready_at : at_map c1 id ms m1;
  ready_others : forall id', id' <> id -> rounded (entry c0 id') (entry c1 id');
  ready_prepared : m1 = addressed c0 i got (with_volume c0 id) }.

Lemma ready_name c0 id i got c1 ms m1 :
  ready c0 id i got c1 ms m1 -> cluster_name c1 = cluster_name c0 /\ cluster_ns c1 = cluster_ns c0.
Proof.
  intros [_ H _ _ _]. split; [by apply (f_equal Name) in H|by apply (f_equal Namespace) in H].
Qed.

(** The hash depends on the cluster through its settings alone. *)
Lemma computePodHash_settings c0 c mapSpec i v :
  Spec c = Spec c0 -> (cluster_meta c) <| ResourceVersion := "" |> = (cluster_meta c0) <| ResourceVersion := "" |> ->
  computePodHash c mapSpec i v = computePodHash c0 mapSpec i v.
Proof.
  intros Hs Hm. unfold computePodHash, launch_rev, cluster_name, cluster_ns.
  pose proof (f_equal Name Hm) as Hn. pose proof (f_equal Namespace Hm) as Hns.
  pose proof (f_equal Annotations Hm) as Ha. cbn in Hn, Hns, Ha. by rewrite Hs, Hn, Hns, Ha.
Qed.

(** What must have happened before a call of [reconcileMap], which was handed the map that may
    update while the others wait. *)
Definition map_guard (cluster : ArkCluster) (id : string) (i : nat) (mid : string) (h : list kevent) (c : call) : Prop :=
  is_ensure c \/ is_read c \/
  exists got cluster1 ms m1, service_seen cluster id got h /\ ready cluster id i got cluster1 ms m1 /\
    (first_guard cluster1 id m1 h c \/
     exists pod, listed cluster id pod h /\
       (steady_guard cluster1 id ms m1 pod h c \/
        ((mid = "" \/ mid = id) /\ roll_guard cluster1 id ms m1 pod h c))).

(** The map needs nothing from the next reconcile: it runs, or it never will. *)
Definition settled (m : MapStatus) : Prop := ms_Phase m = MapPhaseRunning \/ ms_Phase m = MapPhaseFailed.

(** The flow that the listed pods and the hash of the wanted pod call for: the first start when
    every pod is terminating, the steady state for a pod with that hash; when there is none, the
    rolling update for another pod, unless another map is in the middle of its update. *)
Inductive flow_outcome (cluster1 : ArkCluster) (id : string) (ms : nat) (mid hash : string) (pods : list Pod)
    (busy : bool) (h : list kevent) (m1 : MapStatus) : res unit -> bool -> MapStatus -> Prop :=
  | FlowFirst r busy' m' :
      (forall p, p ∈ pods -> terminating p = true) ->
      first_outcome cluster1 id busy h m1 r busy' m' ->
      flow_outcome cluster1 id ms mid hash pods busy h m1 r busy' m'
  | FlowSteady pod r busy' m' :
      pod ∈ pods -> terminating pod = false -> pod_hash pod = hash ->
      steady_outcome cluster1 id ms pod busy h m1 r busy' m' ->
      flow_outcome cluster1 id ms mid hash pods busy h m1 r busy' m'
  | FlowHeld pod :
      pod ∈ pods -> terminating pod = false ->
      (forall p, p ∈ pods -> terminating p = false -> pod_hash p <> hash) ->
      mid <> "" -> mid <> id ->
      flow_outcome cluster1 id ms mid hash pods busy h m1 (Ok tt) true m1
  | FlowRoll pod r m' :
      pod ∈ pods -> terminating pod = false ->
      (forall p, p ∈ pods -> terminating p = false -> pod_hash p <> hash) ->
      mid = "" \/ mid = id ->
      roll_outcome cluster1 id ms h m1 r m' ->
      flow_outcome cluster1 id ms mid hash pods busy h m1 r true m'.

(** What the pass makes of the entry, its result, and whether the reconcile is busy after it: it
    fails on the resources of the map and leaves the entry; it fails to list the pods, and the entry
    has its volume; or it goes through the flow. *)
Inductive pass_outcome {L : K8sLib} (c0 : ArkCluster) (mapSpec : MapSpec) (i : nat) (mid : string) (busy : bool)
    (h : list kevent) : res unit -> bool -> option MapStatus -> Prop :=
  | PassUnready e :
      ran (ensure_map_resources c0 (map_ID mapSpec) i) (Err e) h ->
      pass_outcome c0 mapSpec i mid busy h (Err e) busy (entry c0 (map_ID mapSpec))
  | PassUnlisted e :
      ran (ensure_map_resources c0 (map_ID mapSpec) i) (Ok tt) h ->
      pods_seen c0 (map_ID mapSpec) (Err e) h ->
      pass_outcome c0 mapSpec i mid busy h (Err e) busy (Some (with_volume c0 (map_ID mapSpec)))
  | PassFlow pods hash got c1 ms m1 r busy' m' :
      ran (ensure_map_resources c0 (map_ID mapSpec) i) (Ok tt) h ->
      ran (computePodHash c0 mapSpec i (ActiveVolume (with_volume c0 (map_ID mapSpec)))) hash h ->
      pods_seen c0 (map_ID mapSpec) (Ok pods) h ->
      service_seen c0 (map_ID mapSpec) got h ->
      ready c0 (map_ID mapSpec) i got c1 ms m1 ->
      flow_outcome c1 (map_ID mapSpec) ms mid hash pods busy h m1 r busy' m' ->
      pass_outcome c0 mapSpec i mid busy h r busy' (Some m').

Lemma listed_app cluster id pod h h' : listed cluster id pod h -> listed cluster id pod (h ++ h').
Proof. intros (pods & H & ?). exists pods. split; [|done]. apply elem_of_app. by left. Qed.

Lemma findActivePod_cases pods hash :
  match findActivePod pods hash with
  | None => forall p, p ∈ pods -> terminating p = true
  | Some p => p ∈ pods /\ terminating p = false /\
      (pod_hash p = hash \/ forall q, q ∈ pods -> terminating q = false -> pod_hash q <> hash)
  end.
Proof.
  unfold findActivePod. destruct (List.find (fun p => _ && _) pods) as [p|] eqn:E.
  - apply List.find_some in E as [Hin H]. to_prop. rewrite <- list_elem_of_In in Hin. (split; [done|]; split; [done|by left]).
  - assert (Hno : forall q, q ∈ pods -> terminating q = false -> pod_hash q <> hash).
    { intros q Hq Ht Hh. rewrite list_elem_of_In in Hq. pose proof (List.find_none _ _ E q Hq) as H. cbn in H.
      by rewrite Ht, Hh, String.eqb_refl in H. }
    destruct (List.find (fun p => negb (terminating p)) pods) as [p|] eqn:E2.
    + apply List.find_some in E2 as [Hin H]. to_prop. rewrite <- list_elem_of_In in Hin. (split; [done|]; split; [done|right; exact Hno]).
    + intros q Hq. rewrite list_elem_of_In in Hq. pose proof (List.find_none _ _ E2 q Hq) as H. cbn in H.
      by destruct (terminating q).
Qed.

Section Pass.
Context {L : K8sLib} {HL : K8sLaws L}.
#[local] Set Default Proof Using "All".

Lemma emits_ensurePVC owner name size sc mode : emits is_ensure (ensurePVC owner name size sc mode).
Proof.
  unfold ensurePVC. destruct (ParseQuantity size); [|done].
  apply emits_bind; [|intros [?|e]; [done|]; by destruct (negb _)].
  apply emits_CreateOrUpdate; cbn; intros; done || set_solver.
Qed.

Lemma emits_EnsureMapINIConfigMaps cluster id : emits is_ensure (EnsureMapINIConfigMaps cluster id).
Proof.
  assert (Hr : forall ms key, emits is_ensure (resolveINI cluster ms key)).
  { intros ms key. unfold resolveINI. cbv zeta. repeat case_match; try done;
      (apply emits_act; [done|]; by intros []). }
  assert (Hw : forall name key content, emits is_ensure (writeINIConfigMap cluster name key content)).
  { intros. apply emits_CreateOrUpdate; cbn; intros; done || set_solver. }
  unfold EnsureMapINIConfigMaps. do 2 (apply emits_bind; [apply Hr|intros ?]).
  apply emits_bind; [apply Hw|]. intros [?|?]; [apply Hw|done].
Qed.

Lemma emits_ensure_map_resources cluster id i : emits is_ensure (ensure_map_resources cluster id i).
Proof.
  unfold ensure_map_resources. do 3 (apply emits_and_then; [apply emits_ensurePVC|intros ?]).
  apply emits_and_then; [apply emits_EnsureMapINIConfigMaps|intros ?].
  apply emits_CreateOrUpdate; cbn; intros; done || set_solver.
Qed.

Variables (c0 : ArkCluster) (mapSpec : MapSpec) (i : nat) (mid : string).

Abbreviation id := (map_ID mapSpec).
Abbreviation ready := (ready c0 id i).
Abbreviation guard := (map_guard c0 id i mid).

(** What [reconcileMap] leaves, when the reconcile was [busy] before or not. *)
Definition pass_post (busy : bool) (x : res unit * RState) (h : list kevent) : Prop :=
  (rs_busy x.2 = false -> busy = false /\
     (x.1 = Ok tt -> exists m', entry (rs_cluster x.2) id = Some m' /\ settled m')) /\
  Spec (rs_cluster x.2) = Spec c0 /\
  (cluster_meta (rs_cluster x.2)) <| ResourceVersion := "" |> = (cluster_meta c0) <| ResourceVersion := "" |> /\
  (forall id', id' <> id -> rounded (entry c0 id') (entry (rs_cluster x.2) id')) /\
  pass_outcome c0 mapSpec i mid busy h x.1 (rs_busy x.2) (entry (rs_cluster x.2) id).

(** The flow ends the pass. *)
Lemma ready_pass got c1 ms m1 s' x m' h b :
  ready got c1 ms m1 -> frame ms c1 (rs_cluster s') -> at_map (rs_cluster s') id ms m' ->
  (rs_busy s' = false -> b = false /\ (x = Ok tt -> settled m')) ->
  pass_outcome c0 mapSpec i mid b h x (rs_busy s') (Some m') -> pass_post b (x, s') h.
Proof.
  intros [H1 H2 H3 H4 H5] Hf Hm Hb Ho. pose proof Hf as (F1 & F2 & _).
  split. { intros Hb'. destruct (Hb Hb') as [-> Hs]. split; [done|]. intros Hx. exists m'.
    split; [by eapply at_map_entry|by apply Hs]. }
  split; [by etrans|]. split; [by etrans|]. split.
  - intros id' Hne. cbn. etrans; [by apply H4|]. by eapply frame_entry.
  - cbn. by rewrite (at_map_entry _ _ _ _ Hm).
Qed.

(** Once the entry has its volume, it gets the addresses of the service. *)
Lemma ready_alter got got' c1 ms m1 f :
  ready got c1 ms m1 -> (forall m, ms_ID (f m) = ms_ID m) ->
  f m1 = addressed c0 i got' (with_volume c0 id) ->
  ready got' (on_maps (alter f ms) c1) ms (f m1).
Proof.
  intros [H1 H2 H3 H4 H5] Hf Hp. split; try done.
  - by apply at_map_alter.
  - intros id' Hne. etrans; [by apply H4|]. eapply frame_entry; [by apply frame_alter|done..].
Qed.

Lemma wp_refreshAddress e ms m1 s h :
  ready (Err e) (rs_cluster s) ms m1 ->
  wp any guard (refreshAddress mapSpec i ms s)
    (fun x h' => exists s' got m2 tr, x = (Ok tt, s') /\ rs_busy s' = rs_busy s /\ h' = h ++ tr /\
       service_seen c0 id got h' /\ ready got (rs_cluster s') ms m2) h.
Proof.
  intros Hr. pose proof (ready_name _ _ _ _ _ _ _ Hr) as [Hn Hns]. unfold refreshAddress. repeat m_step.
  { right; by left. }
  rewrite Hn, Hns. set (asked := Get KindService _ _).
  assert (Hseen : service_seen c0 id r (h ++ [Ev asked r])) by apply in_snoc.
  pose proof (ready_prepared _ _ _ _ _ _ _ Hr) as Hm1. cbn in Hm1.
  destruct r as [svc|e'].
  - destruct (ks_Ingress svc) as [|ip ips] eqn:Hing.
    + m_step. exists s, (Ok svc), m1, [Ev asked (Ok svc)]. split_and!; try done.
      destruct Hr as [H1 H2 H3 H4 _]. split; try done. cbn. by rewrite Hing.
    + unfold on_map, on_cluster, m_modify. apply wp_ret. eexists _, (Ok svc), _, _. split; [done|]. split; [done|].
      split; [done|]. split; [exact Hseen|]. eapply ready_alter; [exact Hr|done|]. cbn. rewrite Hing, Hm1.
      by rewrite (ready_spec _ _ _ _ _ _ _ Hr).
  - m_step. exists s, (Err e'), m1, [Ev asked (Err e')]. split_and!; try done.
    destruct Hr as [H1 H2 H3 H4 _]. by split.
Qed.

(** The three flows, from a ready entry. *)
Lemma wp_flow r ctx got ms m1 pods hash s h :
  ready got (rs_cluster s) ms m1 ->
  ran (ensure_map_resources c0 id i) (Ok tt) h ->
  ran (computePodHash c0 mapSpec i (ActiveVolume (with_volume c0 id))) hash h ->
  pods_seen c0 id (Ok pods) h -> service_seen c0 id got h ->
  wp any guard
    (match findActivePod pods hash with
     | None => firstStart mapSpec i ms hash
     | Some activePod =>
         if String.eqb (pod_hash activePod) hash then steady r mapSpec ms activePod
         else if negb (String.eqb mid "") && negb (String.eqb mid id)
         then set_busy
         else rollUpdate ctx mapSpec i ms activePod
     end s) (pass_post (rs_busy s)) h.
Proof.
  intros Hr Hres Hhash Hpods Hsvc. pose proof (ready_at _ _ _ _ _ _ _ Hr) as Hm.
  assert (Happ : forall e h h', (e : kevent) ∈ h -> e ∈ h ++ h') by (intros; apply elem_of_app; by left).
  assert (Hflow : forall tr c, first_guard (rs_cluster s) id m1 (h ++ tr) c \/
      (exists pod, listed c0 id pod (h ++ tr) /\ (steady_guard (rs_cluster s) id ms m1 pod (h ++ tr) c \/
        ((mid = "" \/ mid = id) /\ roll_guard (rs_cluster s) id ms m1 pod (h ++ tr) c))) ->
      guard (h ++ tr) c).
  { intros tr c H. right. right. exists got, (rs_cluster s), ms, m1. split; [by apply Happ|done]. }
  (* The flow leaves [m'], busy or not. *)
  assert (Hend : forall tr x s' m', frame ms (rs_cluster s) (rs_cluster s') -> at_map (rs_cluster s') id ms m' ->
    (rs_busy s' = false -> rs_busy s = false /\ (x = Ok tt -> settled m')) ->
    flow_outcome (rs_cluster s) id ms mid hash pods (rs_busy s) (h ++ tr) m1 x (rs_busy s') m' ->
    pass_post (rs_busy s) (x, s') (h ++ tr)).
  { intros tr x s' m' Hf Hm' Hb Ho. eapply ready_pass; [exact Hr|done..|].
    eapply PassFlow; [by apply ran_app|by apply ran_app|by apply Happ|by apply Happ|exact Hr|exact Ho]. }
  pose proof (findActivePod_cases pods hash) as Hfind.
  destruct (findActivePod pods hash) as [pod|].
  2: { eapply wp_mono; [|eapply wp_extend, wp_weaken; [by apply (wp_firstStart (rs_cluster s) id ms m1 (rs_busy s))|]].
    2: { intros tr c H. apply Hflow. by left. }
    intros [x s'] h' ((Hf & m' & Hm' & Ho) & tr & ->). cbn [fst snd] in *.
    eapply Hend; [done..| |by apply FlowFirst]. inv Ho; [done| |done]. intros ->. split; [done|]. by right. }
  destruct Hfind as (Hin & Ht & Hwant).
  assert (Hlist : forall tr, listed c0 id pod (h ++ tr)) by (intros tr; apply listed_app; by exists pods).
  destruct (String.eqb_spec (pod_hash pod) hash) as [Hh|Hh].
  { eapply wp_mono; [|eapply wp_extend, wp_weaken; [by apply (wp_steady (rs_cluster s) id ms m1 pod (rs_busy s))|]].
    2: { intros tr c H. apply Hflow. right. exists pod. auto. }
    intros [x s'] h' ((Hf & m' & Hm' & Ho) & tr & ->). cbn [fst snd] in *.
    eapply Hend; [done..| |by eapply FlowSteady]. inv Ho; [done|done| |done]. intros Hb. split; [done|]. by left. }
  destruct Hwant as [?|Hwant]; [done|].
  destruct (_ && _) eqn:Hmid.
  - m_step. rewrite <- (app_nil_r h). to_prop. eapply Hend; [done|exact Hm|done|].
    by eapply FlowHeld.
  - assert (Hfree : mid = "" \/ mid = id) .
    { destruct (String.eqb_spec mid ""); [by left|].
      destruct (String.eqb_spec mid id); [by right|done]. }
    eapply wp_mono; [|eapply wp_extend, wp_weaken; [by apply (wp_rollUpdate (rs_cluster s) id ms m1 pod)|]].
    2: { intros tr c H. apply Hflow. right. exists pod. auto. }
    intros [x s'] h' ((Hb & Hf & m' & Hm' & Ho) & tr & ->). cbn [fst snd] in *.
    eapply Hend; [done|done|by rewrite Hb|]. rewrite Hb. by eapply FlowRoll.
Qed.

(** The entry of the map is found or made, and given its volume. *)
Lemma wp_with_volume ms c1 e s h :
  EnsureMapStatus c0 id = (ms, c1) -> rs_cluster s = c1 ->
  wp any guard
    ((if String.eqb (ActiveVolume (map_status (rs_cluster s) ms)) ""
      then on_map ms (fun m => m <| ActiveVolume := "server-a" |>)
      else m_ret tt) s)
    (fun x h' => exists s', x = (Ok tt, s') /\ rs_busy s' = rs_busy s /\ h' = h /\
       ready (Err e) (rs_cluster s') ms (with_volume c0 id)) h.
Proof.
  intros He Hc. apply EnsureMapStatus_at in He as (Hm & Hspec & Hmeta & Hothers). subst c1.
  assert (Hmeta' : (cluster_meta (rs_cluster s)) <| ResourceVersion := "" |> = (cluster_meta c0) <| ResourceVersion := "" |>)
    by by rewrite Hmeta.
  rewrite (at_map_status _ _ _ _ Hm).
  assert (Hv : forall m1, m1 = with_volume c0 id -> m1 = addressed c0 i (Err e) (with_volume c0 id)) by done.
  unfold with_volume at 1. unfold with_volume at 1 in Hv. destruct (String.eqb _ "").
  - apply wp_ret. eexists. do 3 (split; [done|]). split; [done|done| | |by apply Hv].
    + by apply (at_map_alter _ id ms).
    + intros id' Hne. rewrite <- Hothers by done.
      by eapply (frame_entry ms (rs_cluster s)); [apply frame_alter|..].
  - apply wp_ret. eexists. do 3 (split; [done|]). split; [done|done|exact Hm| |by apply Hv].
    intros id' Hne. by rewrite Hothers.
Qed.

Lemma wp_reconcileMap r ctx s h :
  rs_cluster s = c0 ->
  wp any guard (reconcileMap r ctx mapSpec i mid s) (pass_post (rs_busy s)) h.
Proof.
  intros Hc. unfold reconcileMap. repeat m_step. rewrite Hc.
  apply (wp_exec_intro _ _ is_ensure); [apply emits_ensure_map_resources|intros tr c _ Hc'; by left|].
  intros tr res Hex _. destruct res as [[]|e]; cbn beta iota.
  2: { split; [done|]. cbn. rewrite Hc. do 2 (split; [done|]). split.
    - intros id' _. done.
    - apply PassUnready. rewrite <- (app_nil_r (h ++ tr)). by apply ran_here. }
  assert (Hres : forall h', ran (ensure_map_resources c0 id i) (Ok tt) ((h ++ tr) ++ h')) by (intros; by apply ran_here).
  clear Hex. destruct (EnsureMapStatus c0 id) as [ms c1] eqn:He.
  repeat m_step. set (s1 := s <| rs_cluster := c1 |>).
  eapply wp_mono; [|eapply (wp_with_volume ms c1 (Errorf "") s1); [exact He|done]].
  intros x h' (s' & -> & Hb & -> & Hr). rewrite <- (Hb : rs_busy s' = rs_busy s). cbn beta iota. repeat m_step.
  rewrite (computePodHash_settings c0) by apply Hr. rewrite (at_map_status _ _ _ _ (ready_at _ _ _ _ _ _ _ Hr)).
  apply (wp_exec_intro _ _ is_read); [auto with ark|intros; right; by left|].
  intros tr' hash Hhash _. repeat m_step. unfold listMapPods. apply wp_act; [right; by left|].
  intros pods _. pose proof (ready_name _ _ _ _ _ _ _ Hr) as [Hn Hns]. rewrite Hn, Hns.
  assert (Hseen : forall h', pods_seen c0 id pods ((((h ++ tr) ++ tr') ++ [Ev (List KindPod (cluster_ns c0)
    (<["ark.watteel.com/cluster" := cluster_name c0]> {["ark.watteel.com/map" := MapSlug id]})) pods]) ++ h')).
  { intros h'. apply elem_of_app. left. apply in_snoc. }
  assert (Hres' : forall h', ran (ensure_map_resources c0 id i) (Ok tt) (((h ++ tr) ++ tr') ++ h')).
  { intros h'. rewrite <- app_assoc. apply Hres. }
  assert (Hhash' : forall h', ran (computePodHash c0 mapSpec i (ActiveVolume (with_volume c0 id))) hash (((h ++ tr) ++ tr') ++ h'))
    by (intros; by apply ran_here).
  destruct pods as [pods|e]; cbn beta iota; apply wp_ret.
  2: { eapply ready_pass; [exact Hr|done|by apply Hr|done|]. apply PassUnlisted; [apply Hres'|].
       rewrite <- (app_nil_r (_ ++ [_])). apply Hseen. }
  apply wp_m_bind. eapply wp_mono; [|by eapply wp_refreshAddress].
  intros x h' (s2 & got & m2 & tr2 & -> & <- & -> & Hsvc & Hr2). cbn beta iota.
  eapply wp_flow; [exact Hr2| | |apply Hseen|exact Hsvc]; rewrite <- app_assoc; [apply Hres'|apply Hhash'].
Qed.
End Pass.


(** C9: one pass over a map leaves the spec and the entries of the other maps alone.  It fails on the
    map's resources and leaves its entry too; or it fails to list the map's pods, and has given the
    entry its volume; or it gives the entry its volume and the addresses of the service, when the
    service has one, and takes it through the one flow that the listed pods call for: the first
    start when all of them are terminating, the steady state for a pod with the hash that was
    computed, the rolling update for a pod when no pod has that hash, unless another map is in the
    middle of its update, and then it is only marked busy.  When the reconcile is not busy after
    the pass, it was not before, and the map runs or has failed. *)
Theorem reconcileMap_spec {L : K8sLib} {HL : K8sLaws L} r ctx mapSpec i mid s tr x :
  exec (reconcileMap r ctx mapSpec i mid s) tr x ->
  pass_post (rs_cluster s) mapSpec i mid (rs_busy s) x tr.
Proof.
  intros Hex. pose proof (wp_reconcileMap (rs_cluster s) mapSpec i mid r ctx s [] eq_refl) as Hwp.
  by destruct (wp_exec _ _ _ _ _ _ _ Hwp Hex (admits_any _ _)) as [H _].
Qed.

(** The first pass over a map of a new cluster. *)
Definition demo_pass : rM unit :=
  reconcileMap (L := demo_lib) (MkArkClusterReconciler true) None island 0 "".
Definition pass_run : list kevent * (res unit * RState) := run_with demo_answer (demo_pass (MkRState demo_cluster false)).

Lemma pass_run_job : exists tr1 job a, pass_run.1 = tr1 ++ [Ev (Create KindJob job) a].
Proof.
  eexists [_; _; _; _; _; _; _; _; _; _; _; _; _; _; _; _; _; _; _], _, _. vm_compute. reflexivity.
Qed.


Lemma reconcileMap_spec_witness :
  pass_post (L := demo_lib) demo_cluster island 0 "" false pass_run.2 pass_run.1.
Proof.
  exact (reconcileMap_spec (HL := demo_laws) (MkArkClusterReconciler true) None island 0 ""
    (MkRState demo_cluster false) pass_run.1 pass_run.2
    (run_with_exec demo_answer (demo_pass (MkRState demo_cluster false)))).
Defined.
