(* ===== verification/BlueGreen.v ===== *)
(** * The blue/green contract of a map

    An abstract machine for what the operator promises about the two server volumes of a map: which
    one is active, which one is known to be good, and until when players have been given notice.
    [Life.v] proves that every reconcile, however it is interrupted, follows it. *)

From S2P Require Import Prelude ApiTypes Kube Controller.

(** The volumes of a map that has an entry in the status. *)
Record vols := MkVols { v_active : string; v_good : string; v_notice : option Z }.

Inductive vlabel :=
  | LCreate
  | LInit
  | LGood
  (** Notice of [grace] is given at [now]. *)
  | LDrain (now grace : Z)
  (** The volumes are swapped at [now]. *)
  | LSwap (now : Z)
  | LRollback
  (** The API server stores the status, and the time of the notice in whole seconds. *)
  | LStore
  (** The map is no longer in the spec. *)
  | LForget.

Definition vstep (l : vlabel) (v : option vols) : option (option vols) :=
  match l, v with
  | LCreate, None => Some (Some (MkVols "server-a" "" None))
  | LInit, Some v =>
      if String.eqb (v_active v) "" then Some (Some (MkVols "server-a" (v_good v) (v_notice v))) else None
  | LGood, Some v => Some (Some (MkVols (v_active v) (v_active v) (v_notice v)))
  | LDrain now grace, Some v =>
      match v_notice v with
      | None => Some (Some (MkVols (v_active v) (v_good v) (Some (now + grace))))
      | Some _ => None
      end
  | LSwap now, Some v =>
      match v_notice v with
      | Some d => if d <=? now then Some (Some (MkVols (otherSide (v_active v)) (v_good v) None)) else None
      | None => None
      end
  | LRollback, Some v =>
      if String.eqb (v_good v) "" || String.eqb (v_good v) (v_active v) then None
      else Some (Some (MkVols (v_good v) (v_good v) (v_notice v)))
  | LStore, Some v => Some (Some (MkVols (v_active v) (v_good v) (stored_time <$> v_notice v)))
  | LForget, Some _ => Some None
  | _, _ => None
  end.

Fixpoint vrun (ls : list vlabel) (v : option vols) : option (option vols) :=
  match ls with
  | [] => Some v
  | l :: ls => match vstep l v with Some v => vrun ls v | None => None end
  end.

Lemma vrun_app ls1 ls2 v1 v2 v3 :
  vrun ls1 v1 = Some v2 -> vrun ls2 v2 = Some v3 -> vrun (ls1 ++ ls2) v1 = Some v3.
Proof.
  revert v1. induction ls1 as [|l ls IH]; intros v1 H1 H2; cbn in *; [congruence|].
  destruct (vstep l v1); [eauto|done].
Qed.

Lemma vrun_snoc ls l v1 v3 :
  vrun (ls ++ [l]) v1 = Some v3 -> exists v2, vrun ls v1 = Some v2 /\ vstep l v2 = Some v3.
Proof.
  revert v1. induction ls as [|l' ls IH]; intros v1; cbn.
  - destruct (vstep l v1) eqn:E; [|done]. intros [= <-]. eauto.
  - destruct (vstep l' v1); [apply IH|done].
Qed.

Ltac vstep_inv :=
  repeat match goal with
  | H : vstep _ ?v = Some _ |- _ => destruct v; cbn in H
  | H : (match ?x with _ => _ end) = Some _ |- _ => destruct x eqn:?
  | H : None = Some _ |- _ => discriminate H
  | H : Some _ = Some _ |- _ => injection H as H; subst
  end.

(** ** Which volumes there are *)

Definition side (s : string) : Prop := s = "server-a" \/ s = "server-b".

Definition sound (v : option vols) : Prop :=
  forall v', v = Some v' -> side (v_active v') /\ (v_good v' = "" \/ side (v_good v')).

Lemma otherSide_side s : side (otherSide s).
Proof. unfold otherSide. destruct (String.eqb s "server-a"); [by right|by left]. Qed.

Lemma vstep_sound l v v' : sound v -> vstep l v = Some v' -> sound v'.
Proof.
  intros Hs Hstep. unfold sound in *.
  destruct l; vstep_inv; intros v2 [= <-]; cbn; try destruct (Hs _ eq_refl) as [Ha Hg]; to_prop;
    split; auto using otherSide_side; try (by left).
  by destruct Hg.
Qed.

Lemma vrun_sound ls v v' : sound v -> vrun ls v = Some v' -> sound v'.
Proof.
  revert v. induction ls as [|l ls IH]; intros v Hs H; cbn in H; [by injection H as <-|].
  destruct (vstep l v) eqn:E; [|done]. eapply IH, H. by eapply vstep_sound.
Qed.

(** ** Notice is given before every swap *)

Definition ends_notice (l : vlabel) : Prop :=
  match l with LDrain _ _ | LSwap _ | LForget => True | _ => False end.

(** The notice that is there after the steps was given by one of them, or was there before and is
    kept; what is left of it is its end, cut off to the second if it was stored. *)
Lemma vrun_notice ls v v' d :
  vrun ls v = Some (Some v') -> v_notice v' = Some d ->
  (exists l1 now grace l2, ls = l1 ++ LDrain now grace :: l2 /\
     stored_time (now + grace) <= d <= now + grace /\ Forall (fun l => ~ ends_notice l) l2) \/
  (exists v0 d0, v = Some v0 /\ v_notice v0 = Some d0 /\ stored_time d0 <= d <= d0).
Proof.
  revert v' d. induction ls as [|l ls IH] using rev_ind; intros v' d Hrun Hd.
  { cbn in Hrun. injection Hrun as ->. right. exists v', d. split_and!; [done|done|apply stored_time_le|lia]. }
  apply vrun_snoc in Hrun as (v2 & Hrun & Hstep).
  assert (Hcut : forall d0 d1, stored_time d0 <= d1 <= d0 -> d = d1 \/ d = stored_time d1 -> stored_time d0 <= d <= d0).
  { intros d0 d1 Hb [->| ->]; [done|]. pose proof (stored_time_le d1).
    rewrite <- (stored_time_idem d0). split; [apply stored_time_mono, Hb|lia]. }
  assert (Hkeep : ~ ends_notice l ->
    (exists v1 d1, v2 = Some v1 /\ v_notice v1 = Some d1 /\ (d = d1 \/ d = stored_time d1)) ->
    (exists l1 now grace l2, ls ++ [l] = l1 ++ LDrain now grace :: l2 /\
       stored_time (now + grace) <= d <= now + grace /\ Forall (fun l => ~ ends_notice l) l2) \/
    (exists v0 d0, v = Some v0 /\ v_notice v0 = Some d0 /\ stored_time d0 <= d <= d0)).
  { intros Hl (v1 & d1 & -> & Hd1 & Hd').
    destruct (IH _ _ Hrun Hd1) as [(l1 & now & grace & l2 & -> & Hb & Hl2)|(v0 & d0 & -> & Hd0 & Hb)].
    - left. exists l1, now, grace, (l2 ++ [l]). rewrite <- app_assoc. split; [done|]. split; [by eapply Hcut|].
      apply Forall_app. by split; [|constructor].
    - right. exists v0, d0. split; [done|]. split; [done|]. by eapply Hcut. }
  destruct l; vstep_inv; cbn in Hd; try done;
    try (apply Hkeep; [by intros []|]; eexists _, d; split_and!; [done|done|by left]).
  - injection Hd as <-. left. exists ls, now, grace, []. split_and!; [done|apply stored_time_le|lia|constructor].
  - destruct (v_notice _) as [d0|] eqn:Hn; [|done]. cbn in Hd. injection Hd as <-.
    apply Hkeep; [by intros []|]. eexists _, d0. split_and!; [done|done|by right].
Qed.
