(* ===== verification/Life.v ===== *)
(** * A cluster over many reconciles

    [reconcile_cluster] refines the contract of [BlueGreen.v]: whatever the API server answers, each
    status it writes has the volumes of each map where the contract allows them to be.  A life is a
    chain of reconciles, each cut off after any of its status updates, with edits of the spec and
    reconciles of the mod update controller between them; what holds of the contract holds of every
    life. *)

From S2P Require Import Prelude GoStd Effects ApiTypes Kube Ark Status Ini Resources Workload CurseForge ModUpdate Coexist Rcon Finalizer Controller ControllerSafety ControllerFlows MapPass BlueGreen.

Local Open Scope prog_scope.

(** ** The volumes of an entry *)

Definition vols_of (m : MapStatus) : vols := MkVols (ActiveVolume m) (LastGoodVolume m) (DrainDeadline m).
Definition vols_at (c : ArkCluster) (id : string) : option vols := vols_of <$> entry c id.

(** The entry of the map carries the deadline [d]; or none at all. *)
Definition has_notice (c : ArkCluster) (id : string) (d : Z) : Prop :=
  exists m, entry c id = Some m /\ DrainDeadline m = Some d.
Definition no_notice (c : ArkCluster) (id : string) : Prop :=
  forall m, entry c id = Some m -> DrainDeadline m = None.

(** The map [id] is not held back by the map [mid]. *)
Definition may_update (mid id : string) : Prop := mid = "" \/ mid = id.

(** Why a reconcile of [c0] that has made the calls [h] may take a step of the map [id], when [mid]
    is in the middle of its update. *)
Definition justified (mid : string) (c0 : ArkCluster) (id : string) (h : list kevent) (l : vlabel) : Prop :=
  match l with
  | LDrain now grace => may_update mid id /\ grace = grace_of c0 /\ clock_read now h /\
      exists c u, (Ev (StatusUpdate c) u : kevent) ∈ h /\ has_notice c id (now + grace)
  | LSwap now => may_update mid id /\ clock_read now h
  | LRollback => exists pod now, clock_read now h /\ crash_loop pod now
  | _ => True
  end.

(** The contract allows the volumes of the map to be those of [c']. *)
Definition reach (mid : string) (c0 : ArkCluster) (h : list kevent) (id : string) (c' : ArkCluster) : Prop :=
  exists ls, vrun ls (vols_at c0 id) = Some (vols_at c' id) /\ Forall (justified mid c0 id h) ls.

Lemma justified_mono mid c0 c1 id h h' l :
  Spec c1 = Spec c0 -> h ⊆ h' -> justified mid c1 id h l -> justified mid c0 id h' l.
Proof.
  intros Hs Hh. assert (Hg : grace_of c1 = grace_of c0) by (unfold grace_of; by rewrite Hs).
  destruct l; cbn; unfold clock_read; rewrite ?Hg; naive_solver.
Qed.

Lemma reach_trans mid c0 c1 c2 h h' id :
  Spec c1 = Spec c0 -> h ⊆ h' -> reach mid c0 h id c1 -> reach mid c1 h' id c2 -> reach mid c0 h' id c2.
Proof.
  intros Hs Hh (ls1 & H1 & J1) (ls2 & H2 & J2). exists (ls1 ++ ls2).
  split; [by eapply vrun_app|]. apply Forall_app.
  split; [eapply Forall_impl; [exact J1|]|eapply Forall_impl; [exact J2|]]; intros l; by apply justified_mono.
Qed.

Lemma reach_mono mid c0 h h' id c' : h ⊆ h' -> reach mid c0 h id c' -> reach mid c0 h' id c'.
Proof. intros Hh (ls & Hr & Hj). exists ls. split; [done|]. eapply Forall_impl; [exact Hj|].
  intros l. by apply justified_mono.
Qed.

(** Storing an entry rounds its deadline. *)
Lemma reach_rounded mid c0 h id c' : rounded (entry c0 id) (entry c' id) -> reach mid c0 h id c'.
Proof.
  unfold reach, vols_at. intros [->| ->]; [by exists []|].
  destruct (entry c0 id) as [m|]; [|by exists []]. exists [LStore]. split; [done|by repeat constructor].
Qed.

Lemma reach_same mid c0 h id c' : entry c' id = entry c0 id -> reach mid c0 h id c'.
Proof. intros He. apply reach_rounded. by left. Qed.

Lemma wire_entry c id : entry (wire c) id = wire_map <$> entry c id.
Proof.
  transitivity (snd <$> find_status (wire_map <$> MapStatuses (Status c)) id); [done|].
  rewrite find_status_wire. unfold entry. by destruct (find_status _ id) as [[]|].
Qed.

Lemma version_entry u c id : rounded (entry c id) (entry (with_version u c) id).
Proof. destruct u as [v|e]; [|by left]. right. exact (wire_entry c id). Qed.

Lemma reach_wire mid c0 h id c' : Spec c' = Spec c0 -> reach mid c0 h id c' -> reach mid c0 h id (wire c').
Proof.
  intros Hs H. eapply reach_trans; [exact Hs|done|exact H|]. apply reach_rounded. right. apply wire_entry.
Qed.

(** ** The moves of one pass *)

Lemma with_volume_vols mid c0 h id :
  exists ls, vrun ls (vols_at c0 id) = Some (Some (vols_of (with_volume c0 id))) /\
    Forall (justified mid c0 id h) ls.
Proof.
  unfold vols_at, with_volume. destruct (entry c0 id) as [m|]; cbn.
  - destruct (String.eqb (ActiveVolume m) "") eqn:Hv.
    + exists [LInit]. split; [|by repeat constructor]. cbn. by rewrite Hv.
    + by exists [].
  - exists [LCreate]. split; [done|by repeat constructor].
Qed.

Lemma with_volume_reach mid c0 h id c' :
  vols_at c' id = Some (vols_of (with_volume c0 id)) -> reach mid c0 h id c'.
Proof. intros He. unfold reach. rewrite He. apply with_volume_vols. Qed.

Lemma addressed_vols c i got m : vols_of (addressed c i got m) = vols_of m.
Proof. unfold addressed. destruct got as [svc|]; [|done]. by destruct (ks_Ingress svc). Qed.

Lemma ready_reach mid c0 id i got c1 ms m1 h : ready c0 id i got c1 ms m1 -> reach mid c0 h id c1.
Proof.
  intros [_ _ Hat _ Hm]. apply at_map_entry in Hat. apply with_volume_reach. unfold vols_at.
  rewrite Hat, Hm. cbn. by rewrite addressed_vols.
Qed.

Definition moves (mid : string) (c1 : ArkCluster) (id : string) (h : list kevent) (m1 m' : MapStatus) : Prop :=
  exists ls, vrun ls (Some (vols_of m1)) = Some (Some (vols_of m')) /\ Forall (justified mid c1 id h) ls.

Lemma moves_keep mid c1 id h m1 m' : vols_of m' = vols_of m1 -> moves mid c1 id h m1 m'.
Proof. intros H. exists []. split; [|constructor]. cbn. by rewrite H. Qed.

Lemma moves_one mid c1 id h m1 m' l :
  justified mid c1 id h l -> vstep l (Some (vols_of m1)) = Some (Some (vols_of m')) -> moves mid c1 id h m1 m'.
Proof. intros Hl H. exists [l]. split; [cbn; by rewrite H|by repeat constructor]. Qed.

(** What a status update answers is a step of its own. *)
Lemma moves_answer mid c1 id h m1 m' u : moves mid c1 id h m1 m' -> moves mid c1 id h m1 (answer_map u m').
Proof.
  intros (ls & Hrun & Hj). destruct u as [v|e]; [|by exists ls]. exists (ls ++ [LStore]).
  split; [by eapply vrun_app|]. apply Forall_app. split; [done|by repeat constructor].
Qed.

Lemma moves_drain mid c1 id h m1 now m' :
  may_update mid id -> DrainDeadline m1 = None -> clock_read now h ->
  (exists c u, (Ev (StatusUpdate c) u : kevent) ∈ h /\ has_notice c id (now + grace_of c1)) ->
  vols_of m' = vols_of (drained now (grace_of c1) m1) -> moves mid c1 id h m1 m'.
Proof.
  intros Hmid Hd Hc Hs Hv. apply (moves_one _ _ _ _ _ _ (LDrain now (grace_of c1))); [done|].
  rewrite Hv. cbn. by rewrite Hd.
Qed.

Lemma moves_swap mid c1 id h m1 m' :
  may_update mid id -> due m1 h -> vols_of m' = vols_of (swapped m1) -> moves mid c1 id h m1 m'.
Proof.
  intros Hmid (d & now & Hd & Hc & Hle) Hv. apply (moves_one _ _ _ _ _ _ (LSwap now)); [done|].
  rewrite Hv. cbn. rewrite Hd. by rewrite (proj2 (Z.leb_le d now)).
Qed.

Lemma moves_rollback mid c1 id h m1 m' :
  other_good m1 -> (exists pod now, clock_read now h /\ crash_loop pod now) ->
  vols_of m' = MkVols (LastGoodVolume m1) (LastGoodVolume m1) (DrainDeadline m1) -> moves mid c1 id h m1 m'.
Proof.
  intros [H1 H2] Hc Hv. apply (moves_one _ _ _ _ _ _ LRollback); [done|].
  rewrite Hv. cbn. rewrite (proj2 (String.eqb_neq _ _) H1), (proj2 (String.eqb_neq _ _) H2). done.
Qed.

Lemma sent_notice id ms m u h d :
  sent id ms m u h -> DrainDeadline m = Some d ->
  exists c u, (Ev (StatusUpdate c) u : kevent) ∈ h /\ has_notice c id d.
Proof. intros (c & Hin & Hm) Hd. exists c, u. split; [done|]. exists m. split; [by eapply at_map_entry|done]. Qed.

Lemma flow_moves c1 id ms mid hash pods busy h m1 r busy' m' :
  flow_outcome c1 id ms mid hash pods busy h m1 r busy' m' -> moves mid c1 id h m1 m'.
Proof.
  intros [? ? ? _ H|pod ? ? ? _ _ _ H|? _ _ _ _ _|? ? ? _ _ _ Hmid H]; [| |by apply moves_keep|].
  - inv H; by apply moves_keep.
  - inv H; try by apply moves_keep.
    + apply moves_answer. destruct H2 as (now & Hc & Hcr). apply moves_rollback; [done|by exists pod, now|done].
    + by apply (moves_one _ _ _ _ _ _ LGood).
  - inv H; try by apply moves_keep.
    + apply moves_answer. eapply moves_drain; [done..| |done]. by eapply sent_notice.
    + apply moves_keep. unfold vols_of. cbn. by rewrite H0.
    + apply moves_answer. by eapply moves_swap.
Qed.

Lemma moves_reach mid c0 c1 c' id h m1 m' :
  Spec c1 = Spec c0 -> reach mid c0 h id c1 -> entry c1 id = Some m1 -> entry c' id = Some m' ->
  moves mid c1 id h m1 m' -> reach mid c0 h id c'.
Proof.
  intros Hs Hr H1 H' (ls & Hrun & Hj). eapply reach_trans; [done..|]. exists ls.
  unfold vols_at. rewrite H1, H'. by split.
Qed.

(** What a pass makes of the entry of its map. *)
Lemma pass_reach {L : K8sLib} c0 mapSpec i mid busy h r busy' c' :
  pass_outcome c0 mapSpec i mid busy h r busy' (entry c' (map_ID mapSpec)) ->
  reach mid c0 h (map_ID mapSpec) c'.
Proof.
  intros H. remember (entry c' (map_ID mapSpec)) as o eqn:He.
  destruct H as [e _|e _ _|pods hash got c1 ms m1 r b m' _ _ _ _ Hr Hf].
  - by apply reach_same.
  - apply with_volume_reach. unfold vols_at. by rewrite <- He.
  - eapply moves_reach; [by apply Hr|by eapply ready_reach|by eapply at_map_entry, ready_at|by symmetry|].
    by eapply flow_moves.
Qed.

(** The entry the pointer points to, after a flow. *)
Lemma frame_at ms c c' id m : frame ms c c' -> at_map c id ms m -> at_map c' id ms (map_status c' ms).
Proof.
  intros (_ & _ & Hids & _) Hm. destruct (find_status_index _ _ _ _ _ Hids Hm) as (m' & Hf & Hl).
  unfold at_map, map_status. by rewrite Hf, Hl.
Qed.

(** Every status a pass writes is one the contract allows, for every map. *)
Lemma guard_reach c0 id i mid h c' u id' :
  map_guard c0 id i mid h (StatusUpdate c') -> reach mid c0 (h ++ [Ev (StatusUpdate c') u]) id' c'.
Proof.
  intros [[]|[[]|(got & c1 & ms & m1 & _ & Hr & Hg)]]. set (h' := h ++ _).
  assert (Hc : forall now, clock_read now h -> clock_read now h') by (intros; by apply clock_read_app).
  assert (Hf : frame ms c1 c' -> moves mid c1 id h' m1 (map_status c' ms) -> reach mid c0 h' id' c').
  { intros Hf Hmv. pose proof (ready_at _ _ _ _ _ _ _ Hr) as Hat. pose proof (ready_spec _ _ _ _ _ _ _ Hr) as Hs.
    destruct (decide (id' = id)) as [->|Hne].
    - eapply moves_reach; [exact Hs|by eapply ready_reach|by eapply at_map_entry| |exact Hmv].
      by eapply at_map_entry, frame_at.
    - apply reach_rounded. etrans; [by apply (ready_others _ _ _ _ _ _ _ Hr)|]. by eapply frame_entry. }
  destruct Hg as [[]|(pod & _ & [Hg|[Hmid Hg]])].
  - destruct Hg as ((H1 & H2 & now & Hnow & Hcr) & Hfr & conds & Hst). apply Hf; [done|].
    apply moves_rollback; [by split|exists pod, now; auto|]. by rewrite Hst.
  - destruct Hg as (_ & Hfr & [(now & Hd & Hnow & Hst)|[Hd Hst]]); (apply Hf; [done|]).
    + eapply moves_drain; [done|done|by apply Hc| |by rewrite Hst].
      apply (sent_notice id ms (drained now (grace_of c1) m1) u); [|done]. apply sent_here. rewrite <- Hst.
      eapply frame_at; [done|]. by eapply ready_at.
    + apply moves_swap; [done|by apply due_app|]. by rewrite Hst.
Qed.

(** ** The calls of one reconcile *)

(** The rolling update, or the rollback, that evicts a pod, once its status is written: [wrote] says
    what has become of it. *)
Definition evicted (wrote : string -> nat -> MapStatus -> list kevent -> Prop) (c0 : ArkCluster)
    (h : list kevent) (p : Pod) (grace : Z) : Prop :=
  exists id c1 ms m1, reach (mid_flight c0) c0 h id c1 /\ Spec c1 = Spec c0 /\ at_map c1 id ms m1 /\
    (exists mapSpec, mapSpec ∈ Maps (Spec c0) /\ map_ID mapSpec = id) /\ listed c0 id p h /\
    DeletionTimestamp (pod_meta p) = None /\
    ((grace = 60 /\ may_update (mid_flight c0) id /\ due m1 h /\ wrote id ms (swapped m1) h /\
        installed c1 id (volumeSide (otherSide (ActiveVolume m1))) h) \/
     (grace = 0 /\ other_good m1 /\ (exists now, clock_read now h /\ crash_loop p now) /\
        exists conds, wrote id ms (rolled_back conds (steady_entry c1 id p m1)) h)).

Lemma evicted_mono (wrote wrote' : string -> nat -> MapStatus -> list kevent -> Prop) c0 h p grace :
  (forall id ms m, wrote id ms m h -> wrote' id ms m h) -> evicted wrote c0 h p grace -> evicted wrote' c0 h p grace.
Proof.
  intros Hw (id & c1 & ms & m1 & Hr & Hs & Ha & Hin & Hl & Hd & H). exists id, c1, ms, m1. split_and!; try done.
  destruct H as [(? & ? & ? & ? & ?)|(? & ? & ? & conds & ?)]; [left|right]; split_and!; auto.
  exists conds. auto.
Qed.

(** An object of no map of the spec. *)
Definition orphan (c0 : ArkCluster) (k : kind) : obj k -> Prop :=
  match k return obj k -> Prop with
  | KindPod => fun p => orphan_slug (keep_slugs c0) (pod_meta p) = true
  | KindService => fun s => orphan_slug (keep_slugs c0) (service_meta s) = true
  | KindPVC => fun p => PersistOnDelete (Storage (Spec c0)) = false /\
      orphan_pvc (keep_slugs c0) (cluster_name c0) p = true
  | KindConfigMap => fun cm => orphan_cm (keep_slugs c0) (cluster_name c0) cm = true
  | _ => fun _ => False
  end.

(** A pod starts on a volume that was seen to be installed. *)
Definition on_installed_volume (h : list kevent) (p : Pod) : Prop :=
  exists c1 id volume, installed c1 id (volumeSide volume) h /\
    Labels (pod_meta p) !! "ark.watteel.com/active-volume" = Some volume /\
    Labels (pod_meta p) !! "ark.watteel.com/map" = Some (MapSlug id).

(** What must have happened before a call of a reconcile of [c0]. *)
Definition rec_guard (c0 : ArkCluster) (h : list kevent) (c : call) : Prop :=
  match c with
  | StatusUpdate c' => Spec c' = Spec c0 /\
      forall u id, reach (mid_flight c0) c0 (h ++ [Ev (StatusUpdate c') u]) id c'
  | Delete KindPod p (Some grace) => evicted status_written c0 h p grace
  | Delete k o None => orphan c0 k o
  | Delete _ _ _ | Update _ | Patch _ _ | HttpPost _ _ _ => False
  | Create KindPod p => on_installed_volume h p
  | Create KindJob _ => True
  | Create _ _ => False
  | _ => True
  end.

(** Where a reconcile of [c0] is. *)
Definition underway (c0 : ArkCluster) (s : RState) (h : list kevent) : Prop :=
  Spec (rs_cluster s) = Spec c0 /\
  (cluster_meta (rs_cluster s)) <| ResourceVersion := "" |> = (cluster_meta c0) <| ResourceVersion := "" |> /\
  forall id, reach (mid_flight c0) c0 h id (rs_cluster s).

Lemma underway_app c0 s h tr : underway c0 s h -> underway c0 s (h ++ tr).
Proof.
  intros (H1 & H2 & H3). split_and!; [done..|]. intros id. eapply reach_mono, H3. set_solver.
Qed.

Lemma underway_names c0 s h :
  underway c0 s h -> cluster_name (rs_cluster s) = cluster_name c0 /\ cluster_ns (rs_cluster s) = cluster_ns c0.
Proof. intros (_ & H & _). split; [by apply (f_equal Name) in H|by apply (f_equal Namespace) in H]. Qed.

Lemma guard_spec c0 c i id mid h c' :
  Spec c = Spec c0 -> map_guard c id i mid h (StatusUpdate c') -> Spec c' = Spec c0.
Proof.
  intros Hs [[]|[[]|(got & c1 & ms & m1 & _ & Hr & Hg)]]. transitivity (Spec c1); [|by rewrite <- Hs; apply Hr].
  destruct Hg as [[]|(pod & _ & [(_ & Hf & _)|[_ (_ & Hf & _)]])]; by destruct Hf.
Qed.

(** What a pass may call, a reconcile may. *)
Lemma map_guard_rec c0 s h mapSpec i c :
  underway c0 s h -> mapSpec ∈ Maps (Spec c0) ->
  map_guard (rs_cluster s) (map_ID mapSpec) i (mid_flight c0) h c ->
  rec_guard c0 h c.
Proof.
  intros Hu Hin Hg. pose proof (underway_names _ _ _ Hu) as [Hn Hns].
  destruct Hu as (Hs & Hmeta & Hreach).
  pose proof Hg as Hg0. destruct Hg as [Hg|[Hg|(got & c1 & ms & m1 & _ & Hr & Hg)]];
    [by destruct c as [| |[]|[]| | | | | | | | | | | | | |]..|].
  assert (Hsp : Spec c1 = Spec c0) by (rewrite <- Hs; by apply Hr).
  destruct c as [| |[] o|k o grace|c|c'| | | | | | | | | | | |]; try exact I;
    try (by destruct Hg as [[]|(pod & _ & [[]|[_ []]])]).
  - destruct Hg as [(Hi & Hv & Hl)|(pod & _ & [[]|(_ & Hi & _ & _ & Hv & Hl)])]; by eexists c1, _, _.
  - destruct k; try (by destruct Hg as [[]|(pod & _ & [[]|[_ []]])]).
    assert (Hre : reach (mid_flight c0) c0 h (map_ID mapSpec) c1)
      by (eapply reach_trans; [exact Hs|done|apply Hreach|by eapply ready_reach]).
    pose proof (ready_at _ _ _ _ _ _ _ Hr) as Hat.
    destruct Hg as [[]|(pod & Hlist & Hg)].
    assert (Hlist0 : listed c0 (map_ID mapSpec) pod h)
      by (unfold listed, pods_seen in *; by rewrite <- Hn, <- Hns).
    destruct Hg as [Hg|[Hmid Hg]].
    + destruct Hg as ((H1 & H2 & Hc) & -> & -> & Hd & Hw).
      exists (map_ID mapSpec), c1, ms, m1. split_and!; try done; [by exists mapSpec|].
      right. by split_and!.
    + destruct Hg as (Hi & Hd & Hcom & -> & -> & Hnt).
      exists (map_ID mapSpec), c1, ms, m1. split_and!; try done; [by exists mapSpec|]. by left.
  - split; [exact (guard_spec _ _ _ _ _ _ _ Hs Hg0)|].
    intros u id. eapply reach_trans; [exact Hs| |apply Hreach|by eapply guard_reach]. set_solver.
Qed.

(** ** The whole reconcile *)

Lemma find_status_filter (P : string -> bool) l id :
  snd <$> find_status (List.filter (fun m => P (ms_ID m)) l) id =
  if P id then snd <$> find_status l id else None.
Proof.
  unfold find_status. induction l as [|m l IH]; cbn; [by destruct (P id)|].
  destruct (P (ms_ID m)) eqn:HP; cbn; destruct (decide (ms_ID m = id)) as [<-|Hne]; cbn.
  - by rewrite HP.
  - destruct (list_find _ (List.filter _ l)) as [[]|], (list_find _ l) as [[]|]; cbn in *; exact IH.
  - rewrite HP in IH |- *. by destruct (list_find _ (List.filter _ l)) as [[]|].
  - destruct (list_find _ (List.filter _ l)) as [[]|], (list_find _ l) as [[]|]; cbn in *; exact IH.
Qed.

(** The entries of the maps that are no longer in the spec are forgotten, and only those. *)
Lemma summarize_entry keep c id :
  entry (summarize keep c) id = if bool_decide (MapSlug id ∈ keep) then entry c id else None.
Proof.
  pose (P := fun id : string => bool_decide (MapSlug id ∈ keep)).
  exact (find_status_filter P (MapStatuses (Status c)) id).
Qed.

Lemma summarize_reach mid c0 h keep c id :
  Spec c = Spec c0 -> reach mid c0 h id c -> reach mid c0 h id (summarize keep c).
Proof.
  intros Hs (ls & Hrun & Hj). unfold reach, vols_at in *. rewrite summarize_entry.
  case_bool_decide; [by exists ls|]. destruct (entry c id) as [m|]; [|by exists ls].
  exists (ls ++ [LForget]). split; [by eapply vrun_app|]. apply Forall_app. split; [done|by repeat constructor].
Qed.

(** The calls that the guard of a reconcile always allows. *)
Definition harmless (c : call) : Prop :=
  match c with CouBegin _ _ | CouEnd _ _ | Get _ _ _ | List _ _ _ | Now | RandRead _ => True | _ => False end.

Lemma harmless_guard c0 h c : harmless c -> rec_guard c0 h c.
Proof. by destruct c. Qed.

Lemma is_ensure_harmless c : is_ensure c -> harmless c.
Proof. by destruct c. Qed.

Section Whole.
Context {L : K8sLib} {HL : K8sLaws L}.
#[local] Set Default Proof Using "All".

Lemma emits_EnsureAdminPasswordSecret cluster : emits harmless (EnsureAdminPasswordSecret cluster).
Proof.
  unfold EnsureAdminPasswordSecret. apply emits_bind; [|intros [?|e]; [done|]; by destruct (negb _)].
  apply emits_CreateOrUpdate; [done| |done]. intros sec. unfold mutate_secret. apply emits_bind.
  - destruct (_ !! _); [done|]. apply emits_act; [done|]. by intros [].
  - intros [data|e]; [|done]. by destruct (SetControllerReference _ _).
Qed.

Lemma emits_EnsureClusterPVC cluster : emits harmless (EnsureClusterPVC cluster).
Proof. eapply emits_mono; [apply is_ensure_harmless|apply emits_ensurePVC]. Qed.

(** The loop of [delete_if] deletes only what the test says. *)
Lemma emits_delete_if k test items :
  emits (fun c => exists o, c = Delete k o None /\ test o = true) (delete_if k test items).
Proof.
  induction items as [|o items IH]; [done|]. cbn. destruct (test o) eqn:Ht; [|done].
  apply emits_act; [by exists o|done].
Qed.

Lemma emits_gcOrphanedMaps cluster :
  emits (fun c => is_read c \/ exists k o, c = Delete k o None /\ orphan cluster k o)
    (gcOrphanedMaps cluster (keep_slugs cluster)).
Proof.
  assert (Hgc : forall k test, (forall o, test o = true -> orphan cluster k o) ->
    emits (fun c => is_read c \/ exists k o, c = Delete k o None /\ orphan cluster k o) (gc_kind k cluster test)).
  { intros k test Ht. apply emits_act; [by left|]. intros [items|e]; [|done].
    eapply emits_mono; [|apply emits_delete_if]. intros c (o & -> & Ho). right. exists k, o. auto. }
  unfold gcOrphanedMaps. do 2 (apply emits_bind; [by apply Hgc|intros _]).
  apply emits_bind; [destruct (PersistOnDelete _) eqn:Hp; [done|apply Hgc; by intros]|intros _].
  apply emits_bind; [by apply Hgc|done].
Qed.

Variables (c0 : ArkCluster).

Lemma orphan_underway s h k o : underway c0 s h -> orphan (rs_cluster s) k o -> orphan c0 k o.
Proof.
  intros Hu. pose proof (underway_names _ _ _ Hu) as [Hn _]. destruct Hu as (Hs & _).
  assert (Hk : keep_slugs (rs_cluster s) = keep_slugs c0) by (unfold keep_slugs; by rewrite Hs).
  destruct k; cbn; by rewrite ?Hk, ?Hn, ?Hs.
Qed.

Lemma wp_map r ctx mapSpec i s h :
  mapSpec ∈ Maps (Spec c0) -> underway c0 s h ->
  wp any (rec_guard c0) (reconcileMap r ctx mapSpec i (mid_flight c0) s) (fun x h' => underway c0 x.2 h') h.
Proof.
  intros Hin Hu. eapply wp_mono;
    [|eapply wp_extend, wp_weaken; [by apply (wp_reconcileMap (rs_cluster s) mapSpec i (mid_flight c0))|]].
  2: { intros tr c Hg. eapply map_guard_rec; [by apply underway_app|done..]. }
  intros x h' ((_ & Hs & Hmeta & Hothers & Hout) & tr & ->). apply (underway_app _ _ _ tr) in Hu as (Hs0 & Hm0 & Hr0).
  split; [by etrans|]. split; [by etrans|]. intros id. specialize (Hr0 id).
  eapply reach_trans; [exact Hs0|done|exact Hr0|].
  destruct (decide (id = map_ID mapSpec)) as [->|Hne]; [by eapply pass_reach|by apply reach_rounded, Hothers].
Qed.

Lemma wp_reconcile_cluster r ctx h :
  wp any (rec_guard c0) (reconcile_cluster r ctx (MkRState c0 false)) (fun _ _ => True) h.
Proof.
  assert (H0 : forall h, underway c0 (MkRState c0 false) h).
  { intros h'. split_and!; [done..|]. intros id. by apply reach_same. }
  specialize (H0 h). assert (Hmid : mid_flight (rs_cluster (MkRState c0 false)) = mid_flight c0) by done.
  revert H0 Hmid. generalize (MkRState c0 false). intros s H0 Hmid.
  assert (Hsetup : forall h (p : kprog (res unit)) (Q : res unit -> list kevent -> Prop), underway c0 s h ->
    emits harmless p -> (forall res h', underway c0 s h' -> Q res h') -> wp any (rec_guard c0) p Q h).
  { intros h' p Q Hu He HQ. apply (wp_exec_intro _ _ harmless); [done|intros; by apply harmless_guard|].
    intros tr res _ _. by apply HQ, underway_app. }
  unfold reconcile_cluster. repeat m_step. apply Hsetup; [done|apply emits_EnsureAdminPasswordSecret|].
  clear h H0. intros [[]|e] h Hu; [|done]. repeat m_step.
  apply Hsetup; [done|apply emits_EnsureClusterPVC|].
  clear h Hu. intros [[]|e] h Hu; [|done]. repeat m_step. clear Hsetup. rewrite Hmid. clear Hmid.
  eapply wp_mono; [|apply (wp_m_for _ _ _ _ (underway c0)); [|exact Hu]].
  2: { intros [i mapSpec] s' h' Hin Hu'. apply wp_map; [|done].
    apply elem_of_lookup_imap_1 in Hin as (j & ms & [= -> ->] & Hl). apply list_elem_of_lookup_2 in Hl.
    by destruct Hu as (<- & _). }
  clear s h Hu. intros [[[]|e] s] h Hu; [|done]. cbn [fst snd] in *. repeat m_step.
  eapply wp_mono; [|eapply (wp_only _ _ _ _ _ (emits_gcOrphanedMaps _))].
  2: { intros tr c _ [Hc|(k & o & -> & Ho)]; [by apply harmless_guard; destruct c|].
    cbn. eapply orphan_underway in Ho; [|done]. by destruct k. }
  intros res h' (tr & -> & _). apply (underway_app _ _ _ tr) in Hu. destruct res as [[]|e]; [|done].
  repeat m_step. unfold status_update. cbn [bind do_call]. apply wp_act.
  - destruct Hu as (Hs & _ & Hr). split; [exact Hs|]. intros u id. apply summarize_reach; [done|]. eapply reach_mono, Hr. set_solver.
  - intros u _. repeat m_step. destruct u as [rv|e]; cbn; [by m_step|]. destruct (negb _); by m_step.
Qed.
End Whole.

Section Reconciles.
Context {L : K8sLib} {HL : K8sLaws L}.
#[local] Set Default Proof Using "All".

(** What [Reconcile] does once it has read the cluster. *)
Lemma Reconcile_inv r ctx ns name c tr x :
  exec (Reconcile r ctx ns name) (Ev (Get KindCluster ns name) (Ok c) :: tr) x ->
  match DeletionTimestamp (cluster_meta c) with
  | Some _ => exists y, exec (RunFinalize ctx c) tr y /\
      x = match y.1 with
          | Err e => Err e
          | Ok finished => Ok (if finished then no_result else requeue_after requeueBusy)
          end
  | None =>
      if decide (finalizer_Name ∈ Finalizers (cluster_meta c)) then
        exists s, exec (reconcile_cluster r ctx (MkRState c false)) tr (x, s)
      else
        exists c' u, tr = [Ev (Update c') u] /\ Spec c' = Spec c /\ Status c' = Status c /\
          finalizer_Name ∈ Finalizers (cluster_meta c') /\
          x = match u with Ok _ => Ok (MkResult true 0) | Err e => Err e end
  end.
Proof.
  intros H%exec_got_cluster. destruct (DeletionTimestamp (cluster_meta c)).
  - apply exec_bind_inv in H as (tr1 & [res c'] & tr2 & -> & Hf & H). exists (res, c').
    destruct res as [[]|e]; exec_inv; by rewrite app_nil_r.
  - unfold Ensure in H. destruct (decide _) as [Hin|Hin].
    + rewrite (proj2 (ContainsFinalizer_spec _ _) Hin) in H. cbn [bind] in H.
      apply exec_bind_inv in H as (tr1 & [res s] & tr2 & -> & Hf & H). exec_inv.
      exists s. by rewrite app_nil_r.
    + destruct (ContainsFinalizer _ _) eqn:Hc; [by apply ContainsFinalizer_spec in Hc|]. cbn in H.
      apply exec_act_inv in H as (u & tr1 & -> & H).
      eexists _, u. destruct u as [[]|e]; cbn in H; exec_inv; (split; [done|]); split_and!; try done;
        apply AddFinalizer_spec; by left.
Qed.

(** The calls of the finalizer: reads, the network, and the update that removes it. *)
Definition finalizing (c : call) : Prop := is_read c \/ is_net c \/ exists c', c = Update c'.

Lemma emits_RunFinalize ctx c : emits finalizing (RunFinalize ctx c).
Proof.
  unfold RunFinalize. destruct (negb _); [done|]. apply emits_bind.
  - eapply emits_mono; [|apply emits_readAdminPassword]. by left.
  - intros pw. apply emits_bind; [|intros _; apply emits_act; [by right; right; eexists|done]].
    destruct pw; [|done]. eapply emits_mono; [|apply emits_net_drain_maps]. by right; left.
Qed.

(** Every status that a reconcile writes keeps the contract. *)
Lemma Reconcile_reach r ctx ns name c tr x c' u id :
  exec (Reconcile r ctx ns name) (Ev (Get KindCluster ns name) (Ok c) :: tr) x ->
  (Ev (StatusUpdate c') u : kevent) ∈ tr -> reach (mid_flight c) c tr id c' /\ Spec c' = Spec c.
Proof.
  intros H Hin. apply Reconcile_inv in H. destruct (DeletionTimestamp (cluster_meta c)).
  - destruct H as (y & Hex & _).
    by apply (emits_exec _ _ _ _ (emits_RunFinalize ctx c) Hex) in Hin as [?|[?|[? ?]]].
  - destruct (decide _).
    + destruct H as (s & Hex). apply list_elem_of_split in Hin as (l1 & l2 & ->).
      destruct (wp_exec _ _ _ _ _ _ _ (wp_reconcile_cluster c r ctx []) Hex (admits_any _ _)) as [_ Hg].
      destruct (Hg l1 _ u l2 eq_refl) as [Hs Hr]. split; [|exact Hs].
      eapply reach_mono; [|apply (Hr u)]. set_solver.
    + destruct H as (? & ? & -> & _). by apply list_elem_of_singleton in Hin.
Qed.

(** ** Lives *)

(** [life id c0 runs c]: when the API server has stored [c0], then after the reconciles [runs], each
    given by the cluster it read and the calls it made, it may have stored for the map [id] the entry
    of [c].  The mod update controller may reconcile in between.  Between reconciles anything but the
    entry may change, such as the spec.  A reconcile may end anywhere: any status it sent, whatever
    the answer, may be the last one stored; it is stored with its times in whole seconds. *)
Inductive life (id : string) (c0 : ArkCluster) : list (ArkCluster * list kevent) -> ArkCluster -> Prop :=
  | life_start : life id c0 [] c0
  | life_edit runs c c' : life id c0 runs c -> entry c' id = entry c id -> life id c0 runs c'
  | life_run runs c r ctx ns name tr x c' u :
      life id c0 runs c ->
      exec (Reconcile r ctx ns name) (Ev (Get KindCluster ns name) (Ok c) :: tr) x ->
      (Ev (StatusUpdate c') u : kevent) ∈ tr ->
      life id c0 (runs ++ [(c, tr)]) (wire c')
  | life_mods runs c r ns name tr x c' u :
      life id c0 runs c ->
      exec (ModUpdate.Reconcile r ns name) (Ev (Get KindCluster ns name) (Ok c) :: tr) x ->
      (Ev (StatusUpdate c') u : kevent) ∈ tr ->
      life id c0 runs (wire c').

(** What a reconcile of the cluster controller, or of the other one, stores. *)
Lemma run_reach r ctx ns name c tr x c' u id :
  exec (Reconcile r ctx ns name) (Ev (Get KindCluster ns name) (Ok c) :: tr) x ->
  (Ev (StatusUpdate c') u : kevent) ∈ tr -> reach (mid_flight c) c tr id (wire c').
Proof. intros Hex Hin. destruct (Reconcile_reach _ _ _ _ _ _ _ _ _ id Hex Hin). by apply reach_wire. Qed.

Lemma mods_rounded r ns name c tr x c' u id :
  exec (ModUpdate.Reconcile r ns name) (Ev (Get KindCluster ns name) (Ok c) :: tr) x ->
  (Ev (StatusUpdate c') u : kevent) ∈ tr -> entry (wire c') id = wire_map <$> entry c id.
Proof.
  intros Hex Hin. destruct (mods_keep _ _ _ _ _ _ _ Hex Hin) as (_ & _ & _ & _ & _ & _ & Hm).
  rewrite wire_entry. unfold entry. by rewrite Hm.
Qed.

(** The volumes of an entry stay sound. *)
Lemma life_sound id c0 runs c : life id c0 runs c -> sound (vols_at c0 id) -> sound (vols_at c id).
Proof.
  intros Hlife H0. induction Hlife as [|runs c c' _ IH He|runs c r ctx ns name tr x c' u _ IH Hex Hin
    |runs c r ns name tr x c' u _ IH Hex Hin].
  - exact H0.
  - unfold vols_at. by rewrite He.
  - destruct (run_reach _ _ _ _ _ _ _ _ _ id Hex Hin) as (ls & Hrun & _). by eapply vrun_sound.
  - destruct (reach_rounded "" c tr id (wire c')) as (ls & Hrun & _); [|by eapply vrun_sound].
    right. by eapply mods_rounded.
Qed.

(** In the run [(c, tr)] notice was given at [start]: it read the clock, and sent a status with the
    deadline. *)
Definition gave_notice (id : string) (run : ArkCluster * list kevent) (start : Z) : Prop :=
  clock_read start run.2 /\
  exists c' u, (Ev (StatusUpdate c') u : kevent) ∈ run.2 /\ has_notice c' id (start + grace_of run.1).

(** What is left of the deadline [d0], once it is stored, any number of times. *)
Definition cut (d0 d : Z) : Prop := stored_time d0 <= d <= d0.

Lemma cut_trans d0 d1 d2 : cut d0 d1 -> cut d1 d2 -> cut d0 d2.
Proof.
  unfold cut. intros [H1 H2] [H3 H4]. split; [|lia]. etrans; [|exact H3].
  rewrite <- (stored_time_idem d0). by apply stored_time_mono.
Qed.

(** The deadline [d] was set in one of the [runs], and every cluster that was read since has it. *)
Definition noticed (id : string) (runs : list (ArkCluster * list kevent)) (d : Z) : Prop :=
  exists runs1 run runs2 start, runs = runs1 ++ run :: runs2 /\ gave_notice id run start /\
    cut (start + grace_of run.1) d /\
    Forall (fun later => exists d', has_notice later.1 id d' /\ cut (start + grace_of run.1) d') runs2.

Lemma noticed_cut id runs d d' : noticed id runs d -> cut d d' -> noticed id runs d'.
Proof.
  intros (runs1 & run & runs2 & start & Heq & Hg & Hc & Hl) Hd. exists runs1, run, runs2, start.
  split_and!; try done; by eapply cut_trans.
Qed.

(** One more run: it gave the notice that is there after it, or found it. *)
Lemma noticed_run id runs (c c' : ArkCluster) tr d :
  (forall d0, has_notice c id d0 -> noticed id runs d0) ->
  reach (mid_flight c) c tr id c' -> has_notice c' id d -> noticed id (runs ++ [(c, tr)]) d.
Proof.
  intros IH (ls & Hrun & Hj) (m & Hm & Hd). unfold vols_at in Hrun. rewrite Hm in Hrun.
  destruct (vrun_notice _ _ _ d Hrun Hd) as [(l1 & now & grace & l2 & -> & Hb & _)|(v0 & d0 & Hv0 & Hd0 & Hb)].
  - apply Forall_app in Hj as [_ Hj]. apply Forall_cons in Hj as [(_ & -> & Hc & Hs) _].
    exists runs, (c, tr), [], now. by split_and!.
  - assert (Hold : has_notice c id d0).
    { destruct (entry c id) as [m0|] eqn:E; [|done]. injection Hv0 as <-. by exists m0. }
    destruct (IH d0 Hold) as (runs1 & run & runs2 & start & -> & Hg & Hc & Hl).
    exists runs1, run, (runs2 ++ [(c, tr)]), start. rewrite <- app_assoc. split_and!; [done|done|by eapply cut_trans..|].
    apply Forall_app. split; [done|]. constructor; [by exists d0|constructor].
Qed.

(** Notice that an entry carries was given in its life. *)
Lemma life_noticed id c0 runs c d :
  life id c0 runs c -> no_notice c0 id -> has_notice c id d -> noticed id runs d.
Proof.
  intros Hlife H0. revert d. induction Hlife as [|runs c c' _ IH He|runs c r ctx ns name tr x c' u _ IH Hex Hin
    |runs c r ns name tr x c' u _ IH Hex Hin]; intros d Hd.
  - destruct Hd as (m & Hm & Hd). rewrite (H0 m Hm) in Hd. done.
  - apply IH. unfold has_notice in *. by rewrite <- He.
  - eapply noticed_run; [exact IH| |exact Hd]. by eapply run_reach.
  - destruct Hd as (m & Hm & Hd). rewrite (mods_rounded _ _ _ _ _ _ _ _ _ Hex Hin) in Hm.
    destruct (entry c id) as [m0|] eqn:E; [|done]. injection Hm as <-. cbn in Hd.
    destruct (DrainDeadline m0) as [d0|] eqn:Hd0; [|done]. injection Hd as <-.
    eapply noticed_cut; [apply (IH d0); by exists m0|]. split; [done|apply stored_time_le].
Qed.
End Reconciles.

Section Theorems.
Context {L : K8sLib} {HL : K8sLaws L}.
#[local] Set Default Proof Using "All".

(** C7: the first thing a reconcile does with a cluster it may reconcile is to make sure its deletion
    will be noticed.  A cluster that is gone is left alone and an error of the read is returned; a
    deleted cluster is only finalized; a cluster without the finalizer is only updated, to have it,
    with the same spec and status, and seen again at once; only then are the maps reconciled. *)
Theorem Reconcile_dispatch r ctx ns name tr x :
  exec (Reconcile r ctx ns name) tr x ->
  exists got tr', tr = Ev (Get KindCluster ns name) got :: tr' /\
    match got with
    | Err e => tr' = [] /\ x = if IsNotFound e then Ok no_result else Err e
    | Ok c =>
        match DeletionTimestamp (cluster_meta c) with
        | Some _ => exists y, exec (RunFinalize ctx c) tr' y /\
            x = match y.1 with
                | Err e => Err e
                | Ok finished => Ok (if finished then no_result else requeue_after requeueBusy)
                end
        | None =>
            if decide (finalizer_Name ∈ Finalizers (cluster_meta c)) then
              exists s, exec (reconcile_cluster r ctx (MkRState c false)) tr' (x, s)
            else
              exists c' u, tr' = [Ev (Update c') u] /\ Spec c' = Spec c /\ Status c' = Status c /\
                finalizer_Name ∈ Finalizers (cluster_meta c') /\
                x = match u with Ok _ => Ok (MkResult true 0) | Err e => Err e end
        end
    end.
Proof.
  intros H. pose proof H as H0. unfold Reconcile in H. cbn [bind do_call] in H.
  apply exec_act_inv in H as (got & tr' & -> & H). exists got, tr'. split; [done|].
  destruct got as [c|e]; [by eapply Reconcile_inv|]. destruct (IsNotFound e); by exec_inv.
Qed.

(** C2: every call of a reconcile is made for a reason, whatever the answers: a status it writes has
    the volumes of every map where the blue/green contract allows them to be, and a drain or a swap
    among them is of a map that is not held back by another one in the middle of its update; a pod
    is evicted only by a due swap, of a map that is not held back, onto a volume seen installed, or
    by a rollback from a crash loop to another, known good volume, and only after the status with
    the swap or the rollback was written: the API server has stored it, or has refused it with a
    conflict, which the code takes for success; it was stored if no update before was refused with
    a conflict; a pod is created only on a volume seen installed; and otherwise only objects of no
    map of the spec are deleted, claims only if the storage is not to persist. *)
Theorem reconcile_guarded r ctx c tr x tr1 call a tr2 :
  exec (reconcile_cluster r ctx (MkRState c false)) tr x -> tr = tr1 ++ Ev call a :: tr2 ->
  rec_guard c tr1 call /\
  (no_conflict tr1 -> forall p grace, call = Delete KindPod p (Some grace) -> evicted persisted c tr1 p grace).
Proof.
  intros Hex ->. destruct (wp_exec _ _ _ _ _ _ _ (wp_reconcile_cluster c r ctx []) Hex (admits_any _ _)) as [_ H].
  specialize (H _ _ _ _ eq_refl). cbn [app] in H. split; [exact H|]. intros Hno p grace ->.
  eapply evicted_mono; [|exact H]. intros id ms m. by apply written_persisted.
Qed.

(** C3: over the life of a map, through any number of reconciles, restarts in the middle of them,
    edits of the spec and polls of the mod update controller, an entry of the map always has one of
    the two server volumes active, and none or one of the two known to be good. The map starts
    without an entry, or with one of which this holds. *)
Theorem volumes_sound id c0 runs c m :
  life id c0 runs c ->
  (forall m0, entry c0 id = Some m0 -> side (ActiveVolume m0) /\ (LastGoodVolume m0 = "" \/ side (LastGoodVolume m0))) ->
  entry c id = Some m ->
  side (ActiveVolume m) /\ (LastGoodVolume m = "" \/ side (LastGoodVolume m)).
Proof.
  intros Hlife H0 Hm. apply (life_sound _ _ _ _ Hlife) with (v' := vols_of m).
  - intros v Hv. unfold vols_at in Hv. destruct (entry c0 id) as [m0|]; [|done]. injection Hv as <-. by apply H0.
  - unfold vols_at. by rewrite Hm.
Qed.

(** C1: players get their notice, across restarts, edits and mod updates, and each eviction has a
    notice of its own.  When a reconcile evicts the pod of a map for an update, then in the life of
    the map, since any stored cluster in which the map had no deadline, one of the reconciles, this
    one or an earlier one, read the clock and sent a status whose deadline is that time plus the
    grace period configured in the cluster it read; every cluster read since has that deadline
    still, so no swap was stored since; and it has passed, in the whole seconds that the API server
    keeps of it: the players had the grace period, but for less than a second.  And before the
    eviction a status was sent with an entry of the map without a deadline, and stored unless the
    API server refused it with a conflict: once it is stored, what is said here holds of the life
    from it on, so the next eviction needs a notice of its own.  (The notice may have been given
    for an update that was taken back since, [Scenarios.deadline_outlives_update].) *)
Theorem notice_before_eviction r ctx c tr1 p a tr2 x :
  exec (reconcile_cluster r ctx (MkRState c false)) (tr1 ++ Ev (Delete KindPod p (Some 60)) a :: tr2) x ->
  exists id, (exists mapSpec, mapSpec ∈ Maps (Spec c) /\ map_ID mapSpec = id) /\ listed c id p tr1 /\
    (forall c0 runs, life id c0 runs c -> no_notice c0 id ->
     exists runs1 run runs2 start now, runs ++ [(c, tr1)] = runs1 ++ run :: runs2 /\
       gave_notice id run start /\
       Forall (fun later => exists d, has_notice later.1 id d /\ cut (start + grace_of run.1) d) runs2 /\
       clock_read now tr1 /\ stored_time (start + grace_of run.1) <= now) /\
    (exists c' u m', (Ev (StatusUpdate c') u : kevent) ∈ tr1 /\ goes_on u /\
       entry c' id = Some m' /\ DrainDeadline m' = None /\ no_notice (wire c') id).
Proof.
  intros Hex.
  destruct (wp_exec _ _ _ _ _ _ _ (wp_reconcile_cluster c r ctx []) Hex (admits_any _ _)) as [_ Hg].
  destruct (Hg tr1 _ a tr2 eq_refl) as (id & c1 & ms & m1 & Hr & _ & Hm & Hin & Hl & _ & [H|[[=] _]]).
  destruct H as (_ & _ & (d & now & Hd & Hc & Hle) & Hw & _). exists id.
  split; [done|]. split; [done|]. split.
  - intros c0 runs Hlife H0.
    destruct (noticed_run id runs c c1 tr1 d) as (runs1 & run & runs2 & start & Heq & Hgave & Hcut & Hlater).
    + intros d0. by eapply life_noticed.
    + exact Hr.
    + exists m1. split; [by eapply at_map_entry|done].
    + exists runs1, run, runs2, start, now. split_and!; try done. destruct Hcut. lia.
  - assert (Hs : exists u, goes_on u /\ sent id ms (swapped m1) u tr1)
      by (destruct Hw as [(v & Hs)|(e & Hs & He)]; [by exists (Ok v)|by exists (Err e)]).
    destruct Hs as (u & Hu & c' & Hin' & Hm'). apply at_map_entry in Hm'. exists c', u, (swapped m1).
    split_and!; [done..|]. intros m Hm0. rewrite wire_entry, Hm' in Hm0. by injection Hm0 as <-.
Qed.
End Theorems.

(** ** A life *)

(** The cluster [demo_cluster] with the finalizer, and a world that stores the cluster [c], a finished
    install job and a pod of an earlier spec, at the time [t]. *)
Definition live_cluster : ArkCluster :=
  demo_cluster <| cluster_meta ::= fun m => m <| Finalizers := [finalizer_Name] |> |>.
Definition at_time (t : Z) (ans : forall c, resp c) (c : call) : resp c :=
  match c return resp c -> resp c with Now => fun _ => t | _ => fun r => r end (ans c).
Definition demo_world (t : Z) (c : ArkCluster) : forall c, resp c :=
  at_time t (with_stored KindCluster c (with_stored KindJob finished_job (demo_stored KindPod old_pod))).
Definition demo_reconcile (c : ArkCluster) : kprog (res Result * RState) :=
  reconcile_cluster (L := demo_lib) (MkArkClusterReconciler true) None (MkRState c false).
Definition demo_run (t : Z) (c : ArkCluster) : list kevent * (res Result * RState) :=
  run_with (demo_world t c) (demo_reconcile c).

Fixpoint written (tr : list kevent) : option ArkCluster :=
  match tr with
  | [] => None
  | Ev (StatusUpdate c) _ :: _ => Some c
  | _ :: tr => written tr
  end.

Lemma written_in tr c : written tr = Some c -> exists u, (Ev (StatusUpdate c) u : kevent) ∈ tr.
Proof.
  induction tr as [|[call a] tr IH]; [done|]. intros H.
  assert (Hor : (exists u, (Ev call a : kevent) = Ev (StatusUpdate c) u) \/ written tr = Some c).
  { destruct call; cbn in H; auto. injection H as ->. left. by eexists. }
  destruct Hor as [[u ->]|Ht]; [exists u; by left|]. destruct (IH Ht) as [u Hu]. exists u. by right.
Qed.

(** The first reconcile starts the drain, half a second past the full second; the second evicts the
    pod, in the second in which the half hour ends. *)
Definition first_run : list kevent := (demo_run (Second / 2) live_cluster).1.
Definition drain_written : ArkCluster := default live_cluster (written first_run).
Definition drained_cluster : ArkCluster := wire drain_written.
Definition second_run : list kevent := (demo_run (30 * Minute) drained_cluster).1.

Lemma first_run_writes : written first_run = Some drain_written.
Proof.
  assert (H : bool_decide (is_Some (written first_run)) = true) by (vm_compute; reflexivity).
  apply bool_decide_eq_true in H as [c H]. unfold drain_written. by rewrite H.
Qed.

(** The eviction in a trace. *)
Definition eviction (e : kevent) : option Pod :=
  match ev_call e with Delete KindPod p g => if decide (g = Some 60) then Some p else None | _ => None end.

Lemma eviction_call e p : eviction e = Some p -> exists a, e = Ev (Delete KindPod p (Some 60)) a.
Proof.
  destruct e as [c a]. unfold eviction. cbn. destruct c as [| | |[] o g| | | | | | | | | | | | | |]; try done.
  destruct (decide (g = Some 60)) as [->|]; [|done]. intros [= ->]. by exists a.
Qed.

Lemma eviction_at n tr :
  bool_decide (is_Some (tr !! n ≫= eviction)) = true ->
  exists tr1 p a tr2, tr = tr1 ++ Ev (Delete KindPod p (Some 60)) a :: tr2.
Proof.
  intros [p (e & Hp & He)%bind_Some]%bool_decide_eq_true.
  apply eviction_call in He as [a ->].
  eapply ex_intro. exists p, a. eexists. symmetry. by eapply take_drop_middle.
Qed.

Lemma second_run_evicts : exists tr1 p a tr2, second_run = tr1 ++ Ev (Delete KindPod p (Some 60)) a :: tr2.
Proof. apply (eviction_at 25). vm_compute. reflexivity. Qed.

Lemma second_run_calm : no_conflict second_run.
Proof. apply no_conflict_check. vm_compute. reflexivity. Qed.

Lemma Reconcile_exec {L : K8sLib} {HL : K8sLaws L} r ctx ns name c tr x s :
  DeletionTimestamp (cluster_meta c) = None -> finalizer_Name ∈ Finalizers (cluster_meta c) ->
  exec (reconcile_cluster r ctx (MkRState c false)) tr (x, s) ->
  exec (Reconcile r ctx ns name) (Ev (Get KindCluster ns name) (Ok c) :: tr) x.
Proof.
  intros Hd Hf Hex. unfold Reconcile, Ensure. constructor. cbn [bind]. rewrite Hd.
  rewrite (proj2 (ContainsFinalizer_spec _ _) Hf). cbn [bind]. rewrite <- (app_nil_r tr).
  eapply exec_bind; [exact Hex|constructor].
Qed.

Lemma demo_reconcile_exec t c : exec (demo_reconcile c) (demo_run t c).1 (demo_run t c).2.
Proof. apply run_with_exec. Qed.

Lemma first_life : life (L := demo_lib) "TheIsland_WP" live_cluster [(live_cluster, first_run)] drained_cluster.
Proof.
  destruct (written_in _ _ first_run_writes) as [u Hu].
  apply (life_run _ _ [] _ (MkArkClusterReconciler true) None "ns" "c" first_run (demo_run (Second / 2) live_cluster).2.1
    drain_written u); [apply life_start| |exact Hu].
  apply (Reconcile_exec (HL := demo_laws) _ _ _ _ _ _ _ (demo_run (Second / 2) live_cluster).2.2); [reflexivity|by left|].
  pose proof (demo_reconcile_exec (Second / 2) live_cluster) as H. unfold first_run.
  revert H. generalize (demo_run (Second / 2) live_cluster). intros [tr [x s]] H. exact H.
Qed.

Lemma live_no_entry : entry live_cluster "TheIsland_WP" = None.
Proof. reflexivity. Qed.

Lemma Reconcile_dispatch_witness :
  exists got tr', run_with demo_answer (Reconcile (L := demo_lib) (MkArkClusterReconciler true) None "ns" "c")
    = (Ev (Get KindCluster "ns" "c") got :: tr', Ok no_result).
Proof.
  pose proof (run_with_exec demo_answer (Reconcile (L := demo_lib) (MkArkClusterReconciler true) None "ns" "c")) as H.
  destruct (Reconcile_dispatch (HL := demo_laws) _ _ _ _ _ _ H) as (got & tr' & Heq & _).
  exists got, tr'. rewrite <- Heq. reflexivity.
Defined.

Lemma reconcile_guarded_witness :
  exists tr1 p a tr2, second_run = tr1 ++ Ev (Delete KindPod p (Some 60)) a :: tr2 /\
    evicted persisted drained_cluster tr1 p 60.
Proof.
  destruct second_run_evicts as (tr1 & p & a & tr2 & Heq). exists tr1, p, a, tr2. split; [exact Heq|].
  destruct (reconcile_guarded (HL := demo_laws) (MkArkClusterReconciler true) None drained_cluster second_run _
    tr1 (Delete KindPod p (Some 60)) a tr2 (demo_reconcile_exec (30 * Minute) drained_cluster) Heq) as [_ H].
  apply (H (no_conflict_before _ _ (eq_ind _ no_conflict second_run_calm _ Heq)) p 60 eq_refl).
Defined.

Lemma volumes_sound_witness :
  exists m, entry drained_cluster "TheIsland_WP" = Some m /\ side (ActiveVolume m).
Proof.
  assert (H : bool_decide (is_Some (entry drained_cluster "TheIsland_WP")) = true) by (vm_compute; reflexivity).
  apply bool_decide_eq_true in H as [m Hm]. exists m. split; [exact Hm|].
  refine (proj1 (volumes_sound (HL := demo_laws) "TheIsland_WP" live_cluster _ drained_cluster m first_life _ Hm)).
  intros m0 H0. rewrite live_no_entry in H0. discriminate H0.
Defined.

Lemma drained_maps : Maps (Spec drained_cluster) = [island].
Proof. vm_compute. reflexivity. Qed.

Lemma notice_before_eviction_witness :
  exists tr1 p run start now runs1 runs2,
    listed drained_cluster "TheIsland_WP" p tr1 /\
    [(live_cluster, first_run); (drained_cluster, tr1)] = runs1 ++ run :: runs2 /\
    gave_notice "TheIsland_WP" run start /\
    clock_read now tr1 /\ stored_time (start + grace_of run.1) <= now.
Proof.
  destruct second_run_evicts as (tr1 & p & a & tr2 & Heq). exists tr1, p.
  pose proof (demo_reconcile_exec (30 * Minute) drained_cluster) as Hex. fold second_run in Hex. rewrite Heq in Hex.
  destruct (notice_before_eviction (HL := demo_laws) (MkArkClusterReconciler true) None drained_cluster
    tr1 p a tr2 _ Hex) as (id & (mapSpec & Hin & Hid) & Hl & H & _).
  rewrite drained_maps in Hin. apply list_elem_of_singleton in Hin as ->. subst id.
  destruct (H _ _ first_life) as (runs1 & run & runs2 & start & now & Hruns & Hgave & _ & Hnow & Hle).
  { intros m0 H0. change (entry live_cluster "TheIsland_WP" = Some m0) in H0. rewrite live_no_entry in H0. discriminate H0. }
  exists run, start, now, runs1, runs2. exact (conj Hl (conj Hruns (conj Hgave (conj Hnow Hle)))).
Defined.
