(* ===== verification/Settled.v ===== *)
(** * When the operator rests

    The result of a reconcile: it comes back within seconds unless every map of the spec needs nothing. *)

From S2P Require Import Prelude GoStd Effects ApiTypes Kube Ark Status Ini Resources Workload Rcon Finalizer Controller ControllerSafety ControllerFlows MapPass Life.

Local Open Scope prog_scope.

Definition settled_at (c : ArkCluster) (id : string) : Prop :=
  exists m, entry c id = Some m /\ settled m.

(** Rounding the times of an entry settles and unsettles nothing. *)
Lemma settled_rounded c c' id : rounded (entry c id) (entry c' id) -> settled_at c id -> settled_at c' id.
Proof.
  intros Hr (m & Hm & Hs). rewrite Hm in Hr. destruct Hr as [Hr|Hr]; [by exists m|]. by exists (wire_map m).
Qed.

Lemma foldl_wire {A} (f : A -> MapStatus -> A) (l : list MapStatus) a :
  (forall a m, f a (wire_map m) = f a m) -> foldl f a (wire_map <$> l) = foldl f a l.
Proof. intros Hf. revert a. induction l as [|m l IH]; intros a; cbn; [done|]. by rewrite Hf, IH. Qed.

Lemma AggregatePhase_wire (l : list MapStatus) : AggregatePhase (wire_map <$> l) = AggregatePhase l.
Proof.
  destruct l as [|m l]; [done|]. unfold AggregatePhase. rewrite foldl_wire by done. done.
Qed.

(** The status as it is stored at the end. *)
Definition summarized (c0 c : ArkCluster) : Prop :=
  (forall m, m ∈ MapStatuses (Status c) -> MapSlug (ms_ID m) ∈ keep_slugs c0) /\
  TotalMaps (Status c) = Int.int32 (Z.of_nat (length (Maps (Spec c0)))) /\
  ReadyMaps (Status c) = countReadyMaps c /\
  cs_Phase (Status c) = AggregatePhase (MapStatuses (Status c)) /\
  ObservedGeneration (Status c) = Generation (cluster_meta c0).

Section Rest.
Context {L : K8sLib} {HL : K8sLaws L}.
#[local] Set Default Proof Using "All".
Variable c0 : ArkCluster.

(** The maps [done] are settled, unless the reconcile is busy. *)
Definition settling (done : list (nat * MapSpec)) (s : RState) (h : list kevent) : Prop :=
  Spec (rs_cluster s) = Spec c0 /\
  (cluster_meta (rs_cluster s)) <| ResourceVersion := "" |> = (cluster_meta c0) <| ResourceVersion := "" |> /\
  (rs_busy s = false -> forall p, p ∈ done -> settled_at (rs_cluster s) (map_ID p.2)).

Lemma wp_settle r ctx i mapSpec mid done s h :
  settling done s h ->
  wp any (fun _ _ => True) (reconcileMap r ctx mapSpec i mid s)
    (fun x h' => x.1 = Ok tt -> settling (done ++ [(i, mapSpec)]) x.2 h') h.
Proof.
  intros (Hs & Hmeta & Hdone). eapply wp_mono;
    [|eapply wp_weaken; [by apply (wp_reconcileMap (rs_cluster s) mapSpec i mid)|done]].
  intros x h' (Hb & Hs' & Hmeta' & Hothers & _) Hok. split; [by etrans|]. split; [by etrans|].
  intros Hbusy p Hp. destruct (Hb Hbusy) as [Hb0 Hsettled]. specialize (Hsettled Hok). specialize (Hdone Hb0).
  unfold settled_at in *. destruct (decide (map_ID p.2 = map_ID mapSpec)) as [Heq|Hne]; [by rewrite Heq|].
  eapply settled_rounded; [by apply Hothers|]. apply Hdone. apply elem_of_app in Hp as [Hp|Hp]; [done|].
  apply list_elem_of_singleton in Hp as ->. by cbn in Hne.
Qed.

Definition rest_post (x : res Result * RState) : Prop :=
  match x.1 with
  | Err _ => True
  | Ok res => summarized c0 (rs_cluster x.2) /\
      (res = requeue_after requeueBusy \/
       res = requeue_after requeueSteady /\
         forall mapSpec, mapSpec ∈ Maps (Spec c0) -> settled_at (rs_cluster x.2) (map_ID mapSpec))
  end.

Lemma summarized_version c u : summarized c0 c -> summarized c0 (with_version u c).
Proof.
  destruct u as [v|e]; [|done]. intros (H1 & H2 & H3 & H4 & H5). cbn [with_version]. split_and!.
  - intros m Hm. cbn in Hm. apply list_elem_of_fmap in Hm as (m0 & -> & Hm0). exact (H1 m0 Hm0).
  - exact H2.
  - cbn in H3 |- *. rewrite H3. unfold countReadyMaps. cbn. by rewrite foldl_wire.
  - cbn in H4 |- *. by rewrite AggregatePhase_wire.
  - exact H5.
Qed.

Lemma summarize_summarized c : Spec c = Spec c0 ->
  (cluster_meta c) <| ResourceVersion := "" |> = (cluster_meta c0) <| ResourceVersion := "" |> ->
  summarized c0 (summarize (keep_slugs c) c).
Proof.
  intros Hs Hm. assert (Hk : keep_slugs c = keep_slugs c0) by (unfold keep_slugs; by rewrite Hs).
  rewrite Hk. split_and!; cbn; try done; [|by rewrite Hs|by apply (f_equal Generation) in Hm].
  intros m Hin. apply list_elem_of_In, List.filter_In in Hin as [_ Hin]. by apply bool_decide_eq_true in Hin.
Qed.

Lemma wp_rest r ctx h :
  wp any (fun _ _ => True) (reconcile_cluster r ctx (MkRState c0 false)) (fun x _ => rest_post x) h.
Proof.
  assert (Hany : forall (p : kprog (res unit)) (Q : res unit -> list kevent -> Prop) h,
    (forall res h', Q res h') -> wp any (fun _ _ => True) p Q h).
  { intros p Q h' HQ. apply (wp_exec_intro _ _ (fun _ => True)); [|done|intros; apply HQ].
    unfold emits. clear. generalize (@nil kevent). induction p as [a|c k IH]; intros h; [done|]. split; [done|].
    intros r _. apply IH. }
  assert (H0 : settling [] (MkRState c0 false) h) by (split_and!; [done..|intros _ p []%elem_of_nil]).
  assert (Hspec : Spec (rs_cluster (MkRState c0 false)) = Spec c0) by done.
  revert H0 Hspec. generalize (MkRState c0 false). intros s H0 Hspec.
  unfold reconcile_cluster. repeat m_step. apply Hany. intros [[]|e] h1; [|done]. repeat m_step.
  apply Hany. intros [[]|e] h2; [|done]. repeat m_step. rewrite Hspec.
  eapply wp_mono; [|apply (wp_m_for_done _ _ _ _ settling [])].
  3: exact H0.
  2: { intros l1 [i mapSpec] l2 s' h' _ Hl. by apply wp_settle. }
  clear s H0 Hspec h h1 h2. intros [[[]|e] s] h Hd; [|done]. specialize (Hd eq_refl). cbn [fst snd app] in Hd |- *.
  repeat m_step. apply Hany. clear Hany. intros [[]|e] h'; [|done]. repeat m_step.
  unfold status_update. cbn [bind do_call]. apply wp_act; [done|]. intros u _. repeat m_step.
  destruct Hd as (Hs & Hmeta & Hd).
  assert (Hpost : forall u, rest_post (Ok (requeue_after (if rs_busy s then requeueBusy else requeueSteady)),
    s <| rs_cluster := with_version u (summarize (keep_slugs (rs_cluster s)) (rs_cluster s)) |>)).
  { intros u'. split; [by apply summarized_version, summarize_summarized|].
    destruct (rs_busy s); [by left|]. right. split; [done|]. intros mapSpec Hin.
    apply list_elem_of_lookup in Hin as [i Hi].
    destruct (Hd eq_refl (i, mapSpec)) as (m & Hm & Hst).
    { apply list_elem_of_lookup. exists i. by rewrite list_lookup_imap, Hi. }
    apply (settled_rounded (summarize (keep_slugs (rs_cluster s)) (rs_cluster s))).
    { apply version_entry. }
    exists m. split; [|done]. rewrite summarize_entry, bool_decide_eq_true_2; [done|]. unfold keep_slugs. rewrite Hs.
    apply elem_of_list_to_set, list_elem_of_fmap. exists mapSpec. split; [done|].
    by apply list_elem_of_lookup_2 in Hi. }
  destruct u as [rv|e]; cbn [res_map]; [m_step; apply (Hpost (Ok rv))|].
  destruct (negb (IsConflict e)); [by m_step|]. m_step. apply (Hpost (Err e)).
Qed.
End Rest.


