(* ===== verification/Upkeep.v ===== *)
(** * Orphans and drift

    What the reconciler deletes when a map leaves the spec, and when a pod is taken to be out of date. *)

From S2P Require Import Prelude GoStd Digest Effects ApiTypes Kube Ark Status Ini Resources Workload Rcon Finalizer Controller ControllerSafety ControllerFlows MapPass Life.

Local Open Scope prog_scope.

(** ** Garbage collection *)

(** The list of the cluster's objects of a kind. *)
Definition gc_list (c : ArkCluster) (k : kind) : call :=
  List k (cluster_ns c) {["ark.watteel.com/cluster" := cluster_name c]}.

Definition listed_items (c : ArkCluster) (k : kind) (items : list (obj k)) (tr : list kevent) : Prop :=
  (Ev (gc_list c k) (Ok items : resp (gc_list c k)) : kevent) ∈ tr.

Definition gc_kinds (c : ArkCluster) : list kind :=
  [KindPod; KindService] ++ (if PersistOnDelete (Storage (Spec c)) then [] else [KindPVC]) ++ [KindConfigMap].

Lemma delete_if_exec k test items tr :
  exec (delete_if k test items) tr tt ->
  (forall e, e ∈ tr -> exists o a, e = Ev (Delete k o None) a /\ o ∈ items /\ test o = true) /\
  (forall o, o ∈ items -> test o = true -> exists a, (Ev (Delete k o None) a : kevent) ∈ tr).
Proof.
  revert tr. induction items as [|o items IH]; intros tr H; cbn in H; [exec_inv; set_solver|].
  destruct (test o) eqn:Ht.
  - apply exec_act_inv in H as (a & tr' & -> & H). destruct (IH _ H) as [H1 H2]. split.
    + intros e [->|He]%elem_of_cons; [exists o, a; set_solver|].
      destruct (H1 _ He) as (o' & a' & -> & Hin & Ho). exists o', a'. set_solver.
    + intros o' [->|Hin]%elem_of_cons Ho; [exists a; set_solver|].
      destruct (H2 _ Hin Ho) as [a' Ha']. exists a'. set_solver.
  - destruct (IH _ H) as [H1 H2]. split.
    + intros e He. destruct (H1 _ He) as (o' & a' & -> & Hin & Ho). exists o', a'. set_solver.
    + intros o' [->|Hin]%elem_of_cons Ho; [congruence|by apply H2].
Qed.

(** What garbage collection is for one kind: exactly the orphans that were listed are deleted. *)
Definition collected (c : ArkCluster) (k : kind) (test : obj k -> bool) (tr : list kevent) : Prop :=
  exists got rest, tr = Ev (gc_list c k) got :: rest /\
    (forall e, e ∈ rest -> exists o a items, e = Ev (Delete k o None) a /\ got = Ok items /\
       o ∈ items /\ test o = true) /\
    forall items o, got = Ok items -> o ∈ items -> test o = true ->
      exists a, (Ev (Delete k o None) a : kevent) ∈ rest.

Lemma gc_kind_exec k c test tr : exec (gc_kind k c test) tr tt -> collected c k test tr.
Proof.
  intros H. apply exec_act_inv in H as (got & tr' & -> & H). exists got, tr'. split; [done|].
  destruct got as [items|e].
  - apply delete_if_exec in H as [H1 H2]. split.
    + intros e He. destruct (H1 _ He) as (o & a & -> & ? & ?). by exists o, a, items.
    + intros items' o [= <-]. apply H2.
  - exec_inv. by split; [intros ? ?%elem_of_nil|].
Qed.

(** C15: garbage collection deletes exactly the orphans.  It never fails; pods and services whose label
    names no map of the spec, ConfigMaps of settings with no prefix of a map of the spec, and, only
    if the storage is not to persist, claims with no such prefix are deleted when they were listed,
    and nothing else. *)
Theorem gcOrphanedMaps_exact c tr r :
  exec (gcOrphanedMaps c (keep_slugs c)) tr r ->
  r = Ok tt /\ exists pods services claims cms,
    tr = pods ++ services ++ claims ++ cms /\
    collected c KindPod (fun p => orphan_slug (keep_slugs c) (pod_meta p)) pods /\
    collected c KindService (fun s => orphan_slug (keep_slugs c) (service_meta s)) services /\
    (if PersistOnDelete (Storage (Spec c)) then claims = []
     else collected c KindPVC (orphan_pvc (keep_slugs c) (cluster_name c)) claims) /\
    collected c KindConfigMap (orphan_cm (keep_slugs c) (cluster_name c)) cms.
Proof.
  unfold gcOrphanedMaps. intros H.
  apply exec_bind_inv in H as (tr1 & [] & tr2 & -> & H1 & H).
  apply exec_bind_inv in H as (tr3 & [] & tr4 & -> & H2 & H).
  apply exec_bind_inv in H as (tr5 & [] & tr6 & -> & H3 & H).
  apply exec_bind_inv in H as (tr7 & [] & tr8 & -> & H4 & H). exec_inv. split; [done|].
  exists tr1, tr3, tr5, tr7. rewrite app_nil_r. split; [done|].
  apply gc_kind_exec in H1, H2, H4. split_and!; try done.
  destruct (PersistOnDelete _); cbn in H3; [by exec_inv|by apply gc_kind_exec].
Qed.

(** A cluster whose only pod is of a map that left the spec. *)
Definition lost_pod : Pod :=
  MkPod ((pod_meta old_pod) <| Labels ::= <["ark.watteel.com/map" := "ragnarok"]> |>) (pod_Spec old_pod) (pod_Status old_pod).

Definition got_pods (e : kevent) : option (res (list Pod)) :=
  match e with
  | Ev c r =>
      match c as c return resp c -> option (res (list Pod)) with
      | List KindPod _ _ => fun r => Some r
      | _ => fun _ => None
      end r
  end.

Lemma gcOrphanedMaps_exact_witness :
  exists tr1 a tr2,
    (run_with (demo_stored KindPod lost_pod) (gcOrphanedMaps demo_cluster (keep_slugs demo_cluster))).1 =
    tr1 ++ Ev (Delete KindPod lost_pod None) a :: tr2.
Proof.
  pose proof (run_with_exec (demo_stored KindPod lost_pod) (gcOrphanedMaps demo_cluster (keep_slugs demo_cluster))) as Hex.
  destruct (gcOrphanedMaps_exact demo_cluster _ _ Hex) as (_ & pods & services & claims & cms & Heq & Hp & _).
  destruct Hp as (got & rest & -> & _ & Hall).
  assert (Hgot : got = Ok [lost_pod]).
  { assert (Hhead : head (run_with (demo_stored KindPod lost_pod) (gcOrphanedMaps demo_cluster (keep_slugs demo_cluster))).1
      ≫= got_pods = Some (Ok [lost_pod])) by reflexivity.
    rewrite Heq in Hhead. cbn in Hhead. by injection Hhead. }
  destruct (Hall [lost_pod] lost_pod Hgot) as [a Ha]; [left|vm_compute; reflexivity|].
  apply list_elem_of_split in Ha as (l1 & l2 & ->). rewrite Heq.
  exists (Ev (gc_list demo_cluster KindPod) got :: l1), a, (l2 ++ services ++ claims ++ cms).
  by rewrite <- app_comm_cons, <- app_assoc.
Defined.

(** ** What belongs to a map of the spec is never an orphan *)

Lemma belongs_prefix keep cluster id rest :
  MapSlug id ∈ keep -> belongs keep cluster (cluster +:+ "-" +:+ MapSlug id +:+ "-" +:+ rest) = true.
Proof.
  intros Hin. unfold belongs. apply existsb_exists. exists (MapSlug id).
  split; [by apply list_elem_of_In, elem_of_elements|]. apply HasPrefix_spec. exists rest.
  by rewrite !str_app_assoc.
Qed.

(** C17: nothing that the operator makes for a map of the spec is ever an orphan: not its pods and
    services, which carry its slug, not its three claims nor the claim the cluster shares, not its
    two ConfigMaps. *)
Theorem kept_maps_spared c mapSpec :
  mapSpec ∈ Maps (Spec c) ->
  let id := map_ID mapSpec in
  (forall m, Labels m !! "ark.watteel.com/map" = Some (MapSlug id) -> orphan_slug (keep_slugs c) m = false) /\
  (forall pvc, Name (pvc_meta pvc) ∈ PVCNameCluster (cluster_name c) :: map_claims (cluster_name c) id ->
     orphan_pvc (keep_slugs c) (cluster_name c) pvc = false) /\
  (forall cm, Name (cm_meta cm) ∈ [GUSConfigMapName (cluster_name c) id; GameConfigMapName (cluster_name c) id] ->
     orphan_cm (keep_slugs c) (cluster_name c) cm = false).
Proof.
  intros Hin. cbv zeta.
  assert (Hk : MapSlug (map_ID mapSpec) ∈ keep_slugs c).
  { unfold keep_slugs. apply elem_of_list_to_set, list_elem_of_fmap. by exists mapSpec. }
  split_and!.
  - intros m Hm. unfold orphan_slug. rewrite Hm. cbn. rewrite (bool_decide_eq_true_2 _ Hk). by rewrite andb_false_r.
  - intros pvc Hn. unfold orphan_pvc. apply elem_of_cons in Hn as [->|Hn]; [by rewrite String.eqb_refl|].
    apply andb_false_iff. right. unfold map_claims in Hn. rewrite !elem_of_cons, elem_of_nil in Hn.
    destruct Hn as [->|[->|[->|[]]]]; apply negb_false_iff, belongs_prefix, Hk.
  - intros cm Hn. unfold orphan_cm. apply andb_false_iff. left.
    rewrite !elem_of_cons, elem_of_nil in Hn. destruct Hn as [->|[->|[]]]; apply negb_false_iff.
    + by apply (belongs_prefix _ _ _ "gus").
    + by apply (belongs_prefix _ _ _ "game").
Qed.

Lemma kept_maps_spared_witness :
  orphan_pvc (keep_slugs demo_cluster) "c" (MkPVC (new_meta (PVCNameServer "c" "TheIsland_WP" "a") "ns" ∅) [] None None) = false.
Proof.
  destruct (kept_maps_spared demo_cluster island) as (_ & H & _); [apply list_elem_of_here|].
  apply H. cbn. right. right. left.
Defined.

(** ** When a pod is out of date *)

(** What the hash of a pod is computed from, besides the versions of the objects the pod reads. *)
Record same_pod (c c' : ArkCluster) (m m' : MapSpec) : Prop := {
  same_name : cluster_name c' = cluster_name c;
  same_ns : cluster_ns c' = cluster_ns c;
  same_annotation : Annotations (cluster_meta c') !! AnnotationModsChanged = Annotations (cluster_meta c) !! AnnotationModsChanged;
  same_id : map_ID m' = map_ID m;
  same_map_mods : map_Mods m' ≡ₚ map_Mods m;
  same_mods : Mods (Global (Spec c')) ≡ₚ Mods (Global (Spec c));
  same_image : Image (Spec c') = Image (Spec c);
  same_cluster_id : ClusterID (Spec c') = ClusterID (Spec c);
  same_game_port : GamePortStart (Service (Spec c')) = GamePortStart (Service (Spec c));
  same_rcon_port : RconPortStart (Service (Spec c')) = RconPortStart (Service (Spec c));
  same_format : SessionNameFormat (Global (Spec c')) = SessionNameFormat (Global (Spec c));
  same_players : MaxPlayers (Global (Spec c')) = MaxPlayers (Global (Spec c));
  same_battleye : BattlEye (Global (Spec c')) = BattlEye (Global (Spec c));
  same_password : ServerPassword (Global (Spec c')) = ServerPassword (Global (Spec c));
  same_platforms : AllowedPlatforms (Global (Spec c')) ≡ₚ AllowedPlatforms (Global (Spec c));
  same_options : ExtraOptions (Global (Spec c')) ≡ₚ ExtraOptions (Global (Spec c));
  same_params : ExtraParams (Global (Spec c')) ≡ₚ ExtraParams (Global (Spec c)) }.

#[export] Instance joinSorted_Proper : Proper ((≡ₚ) ==> (=)) joinSorted.
Proof.
  intros l1 l2 H. unfold joinSorted. destruct l1 as [|x l1], l2 as [|y l2]; try (apply Permutation_length in H; discriminate); [done|].
  by rewrite H.
Qed.

(** C18: a change that does not concern a pod does not roll it.  The hash depends on the order of no
    list (mods, platforms, options, parameters) and on nothing else of the cluster than the fields
    of [same_pod]: the same objects are read, and with the same answers the hash is the same. *)
Theorem computePodHash_same c c' m m' i volume :
  same_pod c c' m m' -> computePodHash c' m' i volume = computePodHash c m i volume.
Proof.
  intros []. unfold computePodHash, PodTemplateHash, hash_text. cbv zeta. cbn [h_Image h_Mods h_GamePort
    h_RconPort h_SecretsRev h_IniRev h_LaunchRev h_ActiveVolume].
  assert (Hmods : ModSetHash (match map_Mods m' with [] => Mods (Global (Spec c')) | ms => ms end) =
    ModSetHash (match map_Mods m with [] => Mods (Global (Spec c)) | ms => ms end)).
  { destruct (map_Mods m') as [|x l'], (map_Mods m) as [|y l].
    - by rewrite same_mods0.
    - by apply Permutation_length in same_map_mods0.
    - by apply Permutation_length in same_map_mods0.
    - by rewrite same_map_mods0. }
  assert (Hlaunch : launch_rev c' = launch_rev c).
  { unfold launch_rev. cbv zeta. rewrite same_format0, same_cluster_id0, same_players0, same_battleye0.
    by rewrite same_platforms0, same_options0, same_params0. }
  by rewrite Hmods, Hlaunch, same_name0, same_ns0, same_annotation0, same_id0, same_image0, same_game_port0,
    same_rcon_port0, same_password0.
Qed.

(** The cluster with its options in another order, another strategy and another status. *)
Definition shuffled_cluster (opts : list string) : ArkCluster :=
  demo_cluster <| Spec ::= fun sp => sp <| Global ::= fun g => g <| ExtraOptions := opts |> |> |>.

Lemma computePodHash_same_witness :
  computePodHash (shuffled_cluster ["b=2"; "a=1"]) island 0 "server-a" =
  computePodHash (shuffled_cluster ["a=1"; "b=2"]) island 0 "server-a".
Proof. apply computePodHash_same. constructor; try reflexivity. apply Permutation_swap. Defined.

(** The version in an answer: empty when the object is missing. *)
Definition version {A} (meta : A -> ObjectMeta) (got : res A) : string :=
  match got with Ok o => ResourceVersion (meta o) | Err _ => "" end.

(** The input of the hash, given the versions of the two ConfigMaps, of the secret and of the
    password's secret. *)
Definition pod_input (c : ArkCluster) (m : MapSpec) (i : nat) (volume gus game sec pw : string)
    : PodTemplateHashInput :=
  let annotation := default "" (Annotations (cluster_meta c) !! AnnotationModsChanged) in
  let ini := gus +:+ "|" +:+ game in
  MkPodTemplateHashInput (Image (Spec c))
    (match map_Mods m with [] => Mods (Global (Spec c)) | ms => ms end)
    (GamePort (GamePortStart (Service (Spec c))) (Z.of_nat i))
    (RconPort (RconPortStart (Service (Spec c))) (Z.of_nat i))
    (match ServerPassword (Global (Spec c)) with Some _ => sec +:+ "|" +:+ pw | None => sec end)
    (if String.eqb annotation "" then ini else ini +:+ "|mods=" +:+ annotation)
    (launch_rev c) volume.

(** C19: an edit of a ConfigMap or of a secret reaches the pods.  The hash is that of the spec, the
    volume and the versions just read of the map's two ConfigMaps, of the cluster's secret and of
    the server password's; the text that is hashed differs when any one version or the volume
    does. *)
Theorem computePodHash_sees c m i volume tr h :
  exec (computePodHash c m i volume) tr h ->
  exists a1 a2 a3 a4 : _,
    let gus := version cm_meta a1 in let game := version cm_meta a2 in
    let sec := version secret_meta a3 in let pw := version secret_meta a4 in
    tr = [Ev (Get KindConfigMap (cluster_ns c) (GUSConfigMapName (cluster_name c) (map_ID m))) a1;
          Ev (Get KindConfigMap (cluster_ns c) (GameConfigMapName (cluster_name c) (map_ID m))) a2;
          Ev (Get KindSecret (cluster_ns c) (SecretsName (cluster_name c))) a3] ++
         match ServerPassword (Global (Spec c)) with
         | Some sel => [Ev (Get KindSecret (cluster_ns c) (sel_Name sel)) a4]
         | None => []
         end /\
    h = PodTemplateHash (pod_input c m i volume gus game sec pw) /\
    let text := fun volume gus game sec pw => hash_text (pod_input c m i volume gus game sec pw) in
    (forall x, text x gus game sec pw = text volume gus game sec pw -> x = volume) /\
    (forall x, text volume x game sec pw = text volume gus game sec pw -> x = gus) /\
    (forall x, text volume gus x sec pw = text volume gus game sec pw -> x = game) /\
    (forall x, text volume gus game x pw = text volume gus game sec pw -> x = sec) /\
    (ServerPassword (Global (Spec c)) <> None ->
     forall x, text volume gus game sec x = text volume gus game sec pw -> x = pw).
Proof.
  assert (Hcm : forall ns name tr v, exec (readResourceVersion ns "ConfigMap" name) tr v ->
    exists a, tr = [Ev (Get KindConfigMap ns name) a] /\ v = version cm_meta a).
  { intros ns name tr' v H. apply exec_act_inv in H as (a & tr2 & -> & H). exists a. destruct a; exec_inv; done. }
  assert (Hsec : forall ns name tr v, exec (readResourceVersion ns "Secret" name) tr v ->
    exists a, tr = [Ev (Get KindSecret ns name) a] /\ v = version secret_meta a).
  { intros ns name tr' v H. apply exec_act_inv in H as (a & tr2 & -> & H). exists a. destruct a; exec_inv; done. }
  intros H. unfold computePodHash in H. cbv zeta in H.
  apply exec_bind_inv in H as (tr1 & gus & tr' & -> & (a1 & -> & ->)%Hcm & H).
  apply exec_bind_inv in H as (tr2 & game & tr'' & -> & (a2 & -> & ->)%Hcm & H).
  apply exec_bind_inv in H as (tr3 & sec & tr3' & -> & (a3 & -> & ->)%Hsec & H).
  apply exec_bind_inv in H as (tr4 & sec & tr5 & -> & H4 & H). exec_inv.
  exists a1, a2, a3.
  destruct (ServerPassword (Global (Spec c))) as [sel|] eqn:Hpw.
  - apply exec_bind_inv in H4 as (tr6 & pw & tr7 & -> & (a4 & -> & ->)%Hsec & H4). exec_inv. exists a4. cbv zeta.
    split; [done|]. split; [unfold pod_input; rewrite Hpw; by destruct (String.eqb _ "")|].
    unfold pod_input, hash_text. rewrite Hpw. cbn. destruct (String.eqb _ "");
      split_and!; try done; intros; repeat rewrite str_app_assoc in * |-; cancel_text; done.
  - exec_inv. exists (Err (Errorf "")). cbv zeta. split; [done|]. split; [unfold pod_input; rewrite Hpw; by destruct (String.eqb _ "")|].
    unfold pod_input, hash_text. rewrite Hpw. cbn. destruct (String.eqb _ "");
      split_and!; try done; intros; repeat rewrite str_app_assoc in * |-; cancel_text; done.
Qed.

Lemma computePodHash_sees_witness :
  exists a1 a2 a3, (run_with demo_answer (computePodHash demo_cluster island 0 "server-a")).1 =
    [Ev (Get KindConfigMap "ns" "c-island-gus") a1; Ev (Get KindConfigMap "ns" "c-island-game") a2;
     Ev (Get KindSecret "ns" "c-secrets") a3].
Proof.
  destruct (computePodHash_sees demo_cluster island 0 "server-a" _ _ (run_with_exec demo_answer _))
    as (a1 & a2 & a3 & a4 & Htr & _).
  exists a1, a2, a3. exact Htr.
Defined.

(** [findActivePod] returns a listed pod that is not terminating, one of the desired hash when
    there is one, and none only when every listed pod is terminating. *)
Theorem findActivePod_spec pods hash :
  match findActivePod pods hash with
  | Some p => p ∈ pods /\ terminating p = false /\
      (pod_hash p = hash \/ forall q, q ∈ pods -> terminating q = false -> pod_hash q <> hash)
  | None => forall q, q ∈ pods -> terminating q = true
  end.
Proof.
  unfold findActivePod. destruct (List.find (fun p => _ && _) pods) as [p|] eqn:H1.
  - apply List.find_some in H1 as [Hin H]. to_prop. rewrite list_elem_of_In. auto.
  - pose proof (List.find_none _ _ H1) as Hnone. cbn beta in Hnone.
    destruct (List.find (fun p => negb (terminating p)) pods) as [p|] eqn:H2.
    + apply List.find_some in H2 as [Hin H]. to_prop. split_and!; [by apply list_elem_of_In|done|]. right.
      intros q Hq%list_elem_of_In Ht Hh. specialize (Hnone q Hq). rewrite Ht, Hh, String.eqb_refl in Hnone. done.
    + intros q Hq%list_elem_of_In. pose proof (List.find_none _ _ H2 q Hq) as Hq'. by apply negb_false_iff in Hq'.
Qed.
