(* ===== verification/ModRollout.v ===== *)
(** * A mod update reaches the pods

    The mod update controller and the ArkCluster controller meet in one annotation: the first
    stamps the digest of the tracked files, the second hashes it into the pods it wants. *)

From S2P Require Import Prelude GoStd Digest Effects ApiTypes Kube Ark CurseForge ModUpdate Controller ControllerSafety Upkeep.

Lemma hashTracked_length t : String.length (hashTracked t) = 16%nat.
Proof. unfold hashTracked. by rewrite hex_encode_length, length_take, Sum256_length. Qed.

(** The digest is of ids and files, which are stored as they are. *)
Lemma hashTracked_wire t : hashTracked (wire_tracked <$> t) = hashTracked t.
Proof.
  unfold hashTracked, tracked_text. do 3 f_equal.
  match goal with |- foldl ?f _ _ = _ =>
    enough (H : forall acc, foldl f acc (wire_tracked <$> t) = foldl f acc t) by apply H end.
  induction t as [|m t IH]; intros acc; [done|]. apply IH.
Qed.

Lemma hash_text_ini (i j : PodTemplateHashInput) :
  j = i <| h_IniRev := h_IniRev j |> -> hash_text j = hash_text i <-> h_IniRev j = h_IniRev i.
Proof.
  intros ->. cbn. split; [by apply hash_text_sensitive|]. intros Heq. unfold hash_text. cbn. by rewrite Heq.
Qed.

(** The revision of the INI files in the hash, with the annotation appended when there is one. *)
Definition ini_rev (annotation ini : string) : string :=
  if String.eqb annotation "" then ini else ini +:+ "|mods=" +:+ annotation.

Lemma ini_rev_inj ini a b : ini_rev a ini = ini_rev b ini -> a = b.
Proof.
  unfold ini_rev. destruct (String.eqb_spec a "") as [->|Ha], (String.eqb_spec b "") as [->|Hb]; intros H.
  - done.
  - apply (f_equal String.length) in H. rewrite !str_length_app in H. cbn in H. lia.
  - apply (f_equal String.length) in H. rewrite !str_length_app in H. cbn in H. lia.
  - by do 2 apply str_app_inj_l in H.
Qed.

(** The annotation is hashed into every pod: for the same volume and versions, the text of a pod
    changes exactly when the annotation does. *)
Lemma annotation_hashed c meta m i volume gus game sec pw :
  hash_text (pod_input (c <| cluster_meta := meta |>) m i volume gus game sec pw)
    = hash_text (pod_input c m i volume gus game sec pw) ->
  default "" (Annotations meta !! AnnotationModsChanged)
    = default "" (Annotations (cluster_meta c) !! AnnotationModsChanged).
Proof.
  intros H. eapply (ini_rev_inj (gus +:+ "|" +:+ game)). apply hash_text_ini in H; [exact H|done].
Qed.

(** C20: a mod update rolls every pod of the cluster.  When the mod update controller patches a
    cluster, the pods that the ArkCluster controller wants for it differ from those it wanted
    before: for each map, volume and versions of the objects the pod reads, the text that is
    hashed has changed, unless the digest that is stamped is the one that was stamped already. *)
Theorem mod_update_rolls r ns name tr res base modified a :
  exec (ModUpdate.Reconcile r ns name) tr res -> Ev (Patch base modified) a ∈ tr ->
  exists st, ModsStatus (Status base) = Some st /\
    forall m i volume gus game sec pw,
      hash_text (pod_input modified m i volume gus game sec pw)
        = hash_text (pod_input base m i volume gus game sec pw) ->
      Annotations (cluster_meta base) !! AnnotationModsChanged = Some (hashTracked (Tracked st)).
Proof.
  intros Hex (tr1 & tr2 & ->)%list_elem_of_split.
  destruct (wp_exec _ _ _ _ _ _ _ (wp_Reconcile r ns name) Hex (admits_any _ _)) as [_ Hg].
  destruct (Hg tr1 _ a tr2 eq_refl) as (cluster & u & st & _ & _ & Hst & Hbase & Hmod).
  exists (match u with Ok _ => wire_mods st | Err _ => st end). split.
  { rewrite Hbase. destruct u; cbn; by rewrite Hst. }
  assert (Hh : hashTracked (Tracked (match u with Ok _ => wire_mods st | Err _ => st end)) = hashTracked (Tracked st))
    by (destruct u; [apply hashTracked_wire|done]).
  rewrite Hh. clear Hh. intros m i volume gus game sec pw H. subst modified.
  apply annotation_hashed in H. cbn in H. rewrite lookup_insert_eq in H. cbn in H.
  destruct (_ !! _) as [b|]; cbn in H; [by rewrite H|].
  pose proof (hashTracked_length (Tracked st)) as Hl. by rewrite H in Hl.
Qed.

(** The first poll of a cluster with one mod, of which an older file is installed. *)
Definition stale_cluster : ArkCluster :=
  on_mods (fun m => m <| Tracked := [MkTrackedMod 927090 "super-mod" "v4" 4 "v4" 4 None []] |>) auto_cluster.
Definition stale_run : list kevent * res Result :=
  run_with (with_stored KindCluster stale_cluster (with_stored KindSecret key_secret (post_answer demo_data)))
    (ModUpdate.Reconcile (MkModUpdateReconciler "") "ns" "c").

Lemma mod_update_rolls_witness :
  exists base modified, (Ev (Patch base modified) (Ok tt) : kevent) ∈ stale_run.1 /\
    hash_text (pod_input modified island 0 "server-a" "1" "1" "1" "") <>
    hash_text (pod_input base island 0 "server-a" "1" "1" "1" "").
Proof.
  pose proof (run_with_exec _ _ : exec _ stale_run.1 stale_run.2) as Hex.
  assert (exists e1 e2 e3 e4 e5 base modified, stale_run.1 = [e1; e2; e3; e4; e5; Ev (Patch base modified) (Ok tt)] /\
    Annotations (cluster_meta base) !! AnnotationModsChanged = None)
    as (e1 & e2 & e3 & e4 & e5 & base & modified & Htr & Hnone).
  { eexists _, _, _, _, _, _, _. split; reflexivity. }
  exists base, modified.
  assert (Hin : (Ev (Patch base modified) (Ok tt) : kevent) ∈ stale_run.1) by (rewrite Htr; do 5 right; left).
  split; [exact Hin|]. intros H.
  destruct (mod_update_rolls _ _ _ _ _ _ _ _ Hex Hin) as (st & _ & Hst). apply Hst in H. congruence.
Defined.
