(* ===== verification/Scenarios.v ===== *)
(** * Runs worth knowing

    Concrete reconciles, evaluated, that show where the code does less than its comments promise. *)

From S2P Require Import Prelude GoStd Effects ApiTypes Kube Ark Status Ini Resources Workload Rcon Finalizer Controller ControllerSafety ControllerFlows MapPass BlueGreen Life.

(** ** A conflict is taken for success

    Another writer got there first: every status update is refused with a conflict. *)
Definition refuse_status (ans : forall c, resp c) (c : call) : resp c :=
  match c return resp c -> resp c with
  | StatusUpdate _ => fun _ => Err (Error ReasonConflict "the object has been modified")
  | _ => fun r => r
  end (ans c).

Definition conflict_run : list kevent :=
  (run_with (refuse_status (demo_world (30 * Minute) drained_cluster)) (demo_reconcile drained_cluster)).1.

Definition status_stored (e : kevent) : bool :=
  match e with
  | Ev c r =>
      match c return resp c -> bool with
      | StatusUpdate _ => fun r => match r with Ok _ => true | Err _ => false end
      | _ => fun _ => false
      end r
  end.

(** The pod is evicted for the swap although no status with the swap, or any other, was stored. *)
Lemma conflict_evicts :
  existsb status_stored conflict_run = false /\
  exists tr1 p a tr2, conflict_run = tr1 ++ Ev (Delete KindPod p (Some 60)) a :: tr2.
Proof.
  split; [vm_compute; reflexivity|]. apply (eviction_at 25). vm_compute. reflexivity.
Qed.

(** ** One at a time

    Two maps, both with a pod of an earlier spec, none of them in an update. *)
Definition aberration : MapSpec := MkMapSpec "Aberration_WP" [] None None.
Definition two_maps : ArkCluster :=
  live_cluster <| Spec ::= fun sp => sp <| Maps := [island; aberration] |> |>.

(** Every list of pods answers with a pod of an earlier spec that has the labels asked for. *)
Definition pods_asked_for (ans : forall c, resp c) (c : call) : resp c :=
  match c return resp c -> resp c with
  | List k _ sel =>
      match k return res (list (obj k)) -> res (list (obj k)) with
      | KindPod => fun _ =>
          Ok [MkPod ((pod_meta old_pod) <| Labels ::= union sel |>) (pod_Spec old_pod) (pod_Status old_pod)]
      | _ => fun r => r
      end
  | _ => fun r => r
  end (ans c).

Definition two_maps_run : list kevent * (res Result * RState) :=
  run_with (pods_asked_for (demo_world 0 two_maps)) (demo_reconcile two_maps).

(** The default policy lets both start their drain in the same reconcile. *)
Lemma one_at_a_time_starts_two :
  Rollout (Strategy (Spec two_maps)) = RolloutOneAtATime /\
  (fun m => (ms_ID m, ms_Phase m)) <$> MapStatuses (Status (rs_cluster two_maps_run.2.2)) =
    [("TheIsland_WP", MapPhaseDrainingActive); ("Aberration_WP", MapPhaseDrainingActive)].
Proof. split; vm_compute; reflexivity. Qed.

(** ** A deadline outlives its update

    Once the drain has started, the spec is changed back: the pod is what the spec asks for again. *)
Definition current_pod : Pod :=
  let hash := (run_with (demo_world 0 live_cluster) (computePodHash live_cluster island 0 "server-a")).2 in
  MkPod ((pod_meta old_pod) <| Labels ::= <["ark.watteel.com/pod-template-hash" := hash]> |>) (pod_Spec old_pod)
    (MkPodStatus [MkPodCondition "Ready" "True"] []).

Definition reverted_run : list kevent * (res Result * RState) :=
  run_with (with_stored KindPod current_pod (demo_world (1 * Hour) drained_cluster)) (demo_reconcile drained_cluster).

(** The map is running, but the deadline, half past, is still there: the next update will evict at once. *)
Lemma deadline_outlives_update :
  (fun m => (ms_Phase m, DrainDeadline m)) <$> MapStatuses (Status (rs_cluster reverted_run.2.2)) =
    [(MapPhaseRunning, Some (30 * Minute))].
Proof. vm_compute. reflexivity. Qed.

(** ** An entry of a map that is gone

    The id of a map was changed in the middle of its update, to one with the same slug. *)
Definition renamed_cluster : ArkCluster :=
  on_maps (fun _ => [(new_MapStatus "Island") <| ms_Phase := MapPhaseSwapping |>;
                     (new_MapStatus "TheIsland_WP") <| ActiveVolume := "server-a" |> <| ms_Phase := MapPhaseRunning |>])
    live_cluster.
Definition renamed_run (c : ArkCluster) : list kevent * (res Result * RState) :=
  run_with (demo_world (1 * Hour) c) (demo_reconcile c).

(** The old entry is neither in the spec nor pruned, and it is taken for the map that is in the middle
    of its update: the map that is there is not updated, and the reconcile leaves the entries as they
    were, for the next one to find. *)
Lemma renamed_entry_blocks :
  let c := renamed_cluster in let c' := rs_cluster (renamed_run c).2.2 in
  map_ID <$> Maps (Spec c) = ["TheIsland_WP"] /\ mid_flight c = "Island" /\ MapStatuses (Status c') = MapStatuses (Status c).
Proof. split_and!; vm_compute; reflexivity. Qed.
