(* ===== verification/Cooperate.v ===== *)
(** * Passes over a map in a world that cooperates

    The three flows of [Controller.v] against a world in which writes are stored, install jobs
    succeed and pods of the wanted version do not crash: each pass succeeds, and brings the map one
    step further.  [Progress.v] and [Converge.v] count these steps. *)

From S2P Require Import Prelude GoStd Effects ApiTypes Kube Ark Status Resources Workload Rcon Finalizer Controller ControllerSafety ControllerFlows.

Local Open Scope prog_scope.

(** ** Effects

    The calls that change which pods and jobs there are, by the slug of the map they concern. *)

Definition map_label (m : ObjectMeta) : string := default "" (Labels m !! "ark.watteel.com/map").

Definition effect_slug (c : call) : option string :=
  match c with
  | Create KindPod p => Some (map_label (pod_meta p))
  | Create KindJob j => Some (map_label (job_meta j))
  | Delete KindPod p _ => Some (map_label (pod_meta p))
  | _ => None
  end.

Definition effects (slug : string) (h : list kevent) : list kevent :=
  List.filter (fun e => bool_decide (effect_slug (ev_call e) = Some slug)) h.

Lemma effects_app slug h h' : effects slug (h ++ h') = effects slug h ++ effects slug h'.
Proof. apply List.filter_app. Qed.

Lemma effects_in slug h e : e ∈ effects slug h <-> e ∈ h /\ effect_slug (ev_call e) = Some slug.
Proof. unfold effects. by rewrite filter_bool_in, bool_decide_eq_true. Qed.

Lemma effects_none slug h :
  (forall e, e ∈ h -> effect_slug (ev_call e) <> Some slug) -> effects slug h = [].
Proof.
  intros Hh. destruct (effects slug h) as [|e l] eqn:E; [done|].
  assert (He : e ∈ effects slug h) by (rewrite E; by left). apply effects_in in He as [He Hs].
  by destruct (Hh e He).
Qed.

(** From [h] to [h'] the effects [ev] were added. *)
Definition adds (h h' ev : list kevent) : Prop :=
  forall slug, effects slug h' = effects slug h ++ effects slug ev.

Lemma adds_trans h1 h2 h3 ev ev' : adds h1 h2 ev -> adds h2 h3 ev' -> adds h1 h3 (ev ++ ev').
Proof. intros H1 H2 sl. by rewrite H2, H1, <- app_assoc, effects_app. Qed.

Lemma adds_then {h1 h2 h3 ev} : adds h1 h2 [] -> adds h2 h3 ev -> adds h1 h3 ev.
Proof. apply adds_trans. Qed.

Lemma adds_quiet h tr : (forall e, e ∈ tr -> effect_slug (ev_call e) = None) -> adds h (h ++ tr) [].
Proof.
  intros Htr sl. rewrite effects_app, (effects_none sl tr); [done|].
  intros e He. by rewrite (Htr e He).
Qed.

Lemma adds_here h : adds h h [].
Proof. intros sl. by rewrite app_nil_r. Qed.

Lemma adds_effect h c r : adds h (h ++ [Ev c r]) [Ev c r].
Proof. intros sl. apply effects_app. Qed.

Lemma adds_call h c r : effect_slug c = None -> adds h (h ++ [Ev c r]) [].
Proof. intros Hc. apply adds_quiet. by intros e ->%list_elem_of_singleton. Qed.

Lemma adds_in tr ev e slug : adds [] tr ev -> e ∈ ev -> effect_slug (ev_call e) = Some slug -> e ∈ tr.
Proof.
  intros Ha He Hs. assert (e ∈ effects slug tr) as [? _]%effects_in; [|done].
  rewrite (Ha slug). by apply effects_in.
Qed.

(** Calls without an effect. *)
Definition quiet (c : call) : Prop := effect_slug c = None.

Abbreviation free := (fun (_ : list kevent) (_ : call) => True).

(** A program without effects, about whose result nothing is asked. *)
Lemma wp_quiet rely P {A} (p : kprog A) (Q : A -> list kevent -> Prop) h :
  emits P p -> (forall c, P c -> quiet c) ->
  (forall a h', adds h h' [] -> Q a h') -> wp rely free p Q h.
Proof.
  intros He HP HQ. apply (wp_exec_intro _ _ P); [done|done|]. intros tr a _ Htr. apply HQ, adds_quiet.
  intros e Hin. by apply HP, Htr.
Qed.

(** What holds whatever is answered holds of the answers of a world. *)
Lemma wp_world (rely : list kevent -> forall c, resp c -> Prop) guar {A} (p : kprog A) Q h :
  wp any guar p Q h ->
  wp rely free p (fun a h' => Q a h' /\ exists tr, h' = h ++ tr /\
    forall tr1 c r tr2, tr = tr1 ++ Ev c r :: tr2 -> guar (h ++ tr1) c) h.
Proof.
  revert h. induction p as [a|c k IH]; intros h.
  - intros HQ. apply wp_ret. split; [exact HQ|]. exists []. rewrite app_nil_r. split; [done|].
    intros [|??] ? ? ?; discriminate.
  - intros [Hg Hk]. apply wp_act; [done|]. intros r _. eapply wp_mono; [|by apply IH, Hk].
    intros a h' (HQ & tr & -> & Hall). split; [done|]. exists (Ev c r :: tr). rewrite <- app_assoc.
    split; [done|]. intros [|e tr1] c' r' tr2 Heq; inv Heq; [by rewrite app_nil_r|].
    rewrite cons_middle, app_assoc. by eapply Hall.
Qed.

(** ** A world that cooperates *)

(** Where an install job is: not there, or with [k] passes to go. *)
Inductive install := NoJob | Running (k : nat).

Definition answers (j : install) (J : res Job) : Prop :=
  match j with
  | NoJob => exists e, J = Err e /\ IsNotFound e = true
  | Running (S _) => exists job, J = Ok job /\ job_verdict (job_Conditions job) = "Running"
  | Running O => exists job, J = Ok job /\ job_verdict (job_Conditions job) = "Succeeded"
  end.

(** Every state of a job can be answered. *)
Definition install_answer (j : install) : res Job :=
  let job conds := Ok (MkJob (new_meta "" "" ∅) 0 0 (MkPodSpec RestartPolicyAlways None None ∅ [] [] []) conds) in
  match j with
  | NoJob => Err (Error ReasonNotFound "")
  | Running (S _) => job []
  | Running O => job [MkJobCondition "Complete" "True"]
  end.

Lemma install_answers j : answers j (install_answer j).
Proof. destruct j as [|[|k]]; by eexists. Qed.

(** The install jobs are [J], writes succeed, the clock is between [lo] and [hi]. *)
Class Cooperative (rely : list kevent -> forall c, resp c -> Prop) (J : string -> res Job) (lo hi : Z) := {
  coop_job h ns name r : rely h (Get KindJob ns name) r -> r = J name;
  coop_status h c u : rely h (StatusUpdate c) u -> exists v, u = Ok v;
  coop_create h k o r : rely h (Create k o) r -> r = Ok tt;
  coop_now h t : rely h Now t -> lo <= t <= hi }.

Section Pass.
Context {L : K8sLib} {HL : K8sLaws L}.
Context (rely : list kevent -> forall c, resp c -> Prop) (J : string -> res Job) (lo hi : Z).
Context `{HC : !Cooperative rely J lo hi}.
#[local] Set Default Proof Using "All".

Variables (mapSpec : MapSpec) (i ms : nat).
Abbreviation id := (map_ID mapSpec).
Abbreviation slug := (MapSlug id).

(** The hashes that [computePodHash] may find for a volume, for a cluster with the settings of [c0]. *)
Variables (c0 : ArkCluster) (hashes : string -> string -> Prop).
Definition same_settings (c : ArkCluster) : Prop :=
  Spec c = Spec c0 /\ cluster_name c = cluster_name c0 /\ cluster_ns c = cluster_ns c0 /\
  Annotations (cluster_meta c) = Annotations (cluster_meta c0).
Hypothesis hashing : forall c volume (Q : string -> list kevent -> Prop) h,
  same_settings c ->
  (forall hash h', adds h h' [] -> hashes volume hash -> Q hash h') ->
  wp rely free (computePodHash c mapSpec i volume) Q h.

Lemma frame_settings c c' : same_settings c -> frame ms c c' -> same_settings c'.
Proof.
  intros (H1 & H2 & H3 & H4) Hf. pose proof (frame_name _ _ _ Hf) as [Hn Hns]. destruct Hf as (Hs & Hm & _).
  split_and!; [congruence..|]. apply (f_equal Annotations) in Hm. cbn in Hm. congruence.
Qed.

Lemma wp_persist_ok s m Q h :
  at_map (rs_cluster s) id ms m ->
  (forall s' h', adds h h' [] -> moved id ms s s' (wire_map m) -> Q (Ok tt, s') h') ->
  wp rely free (persistStatus s) Q h.
Proof.
  intros Hm HQ. unfold persistStatus, status_update. cbn [bind do_call]. apply wp_act; [done|].
  intros u Hu. apply coop_status in Hu as [v ->]. cbn. apply wp_ret, HQ; [by apply adds_call|]. split; [done|].
  split; [exact (frame_version ms (rs_cluster s) (Ok v))|exact (at_map_version _ _ _ _ (Ok v) Hm)].
Qed.

(** A pod of the map, with its volume and its hash. *)
Definition labelled_pod (volume hash : string) (p : Pod) : Prop :=
  map_label (pod_meta p) = slug /\ pod_hash p = hash /\
  Labels (pod_meta p) !! "ark.watteel.com/active-volume" = Some volume.
Definition creates_pod (volume hash : string) (e : kevent) : Prop :=
  exists p, e = Ev (Create KindPod p) (Ok tt) /\ labelled_pod volume hash p.
Definition creates_job (name : string) (e : kevent) : Prop :=
  exists j, e = Ev (Create KindJob j) (Ok tt) /\ Name (job_meta j) = name /\ map_label (job_meta j) = slug.

Lemma wp_create_pod cluster volume hash Q h :
  (forall e h', adds h h' [e] -> creates_pod volume hash e -> Q (Ok true) h') ->
  wp rely free (ensurePodForMap cluster mapSpec i volume hash) Q h.
Proof.
  intros HQ. unfold ensurePodForMap.
  destruct (SetControllerReference_fresh cluster (pod_meta (BuildServerPod (MkPodInput cluster id (Z.of_nat i)
    (friendlyName id) volume hash))) eq_refl eq_refl) as [m Hm].
  rewrite Hm. apply SetControllerReference_owner in Hm as (_ & _ & Hl & _).
  assert (Hp : forall spec st, labelled_pod volume hash (MkPod m spec st)).
  { intros spec st. unfold labelled_pod, map_label, pod_hash. cbn [pod_meta]. rewrite Hl. by split_and!. }
  apply wp_act; [done|]. intros r ->%coop_create. eapply HQ.
  - apply adds_effect.
  - eexists. split; [done|]. apply Hp.
Qed.

Lemma wp_create_job cluster side Q h e :
  J (InitJobName cluster id side) = Err e -> IsNotFound e = true ->
  (forall ev h', adds h h' [ev] -> creates_job (InitJobName cluster id side) ev -> Q (Ok true) h') ->
  wp rely free (EnsureInitJob cluster id side) Q h.
Proof.
  intros HJ He HQ. unfold EnsureInitJob. cbn [bind do_call]. apply wp_act; [done|]. intros r ->%coop_job.
  rewrite HJ, He. cbn [negb].
  destruct (SetControllerReference_fresh cluster (job_meta (init_job cluster id side)) eq_refl eq_refl) as [m Hm].
  rewrite Hm. apply SetControllerReference_owner in Hm as (Hn & _ & Hl & _).
  cbn [bind do_call]. apply wp_act; [done|]. intros r ->%coop_create. apply wp_ret. eapply HQ.
  - eapply (adds_then (adds_call _ (Get KindJob _ _) _ eq_refl)), adds_effect.
  - eexists. split; [done|]. split; [done|]. unfold map_label. cbn [job_meta]. by rewrite Hl.
Qed.

(** A pass succeeds, and takes the entry [m] to one that [P] allows with the effects it had. *)
Definition ends (s : RState) (P : MapStatus -> bool -> list kevent -> Prop) (h : list kevent)
    (x : res unit * RState) (h' : list kevent) : Prop :=
  x.1 = Ok tt /\ frame ms (rs_cluster s) (rs_cluster x.2) /\
  exists m' ev, at_map (rs_cluster x.2) id ms m' /\ adds h h' ev /\ P m' (rs_busy x.2) ev.

Lemma moved_ends s s' m' P h h' ev :
  moved id ms s s' m' -> adds h h' ev -> P m' (rs_busy s) ev -> ends s P h (Ok tt, s') h'.
Proof.
  intros (Hb & Hf & Hm) Ha HP. split; [done|]. split; [done|]. exists m', ev. cbn [snd]. by rewrite Hb.
Qed.

(** *** The rolling update *)

(** The map goes on on the same volume; its install job, its drain or its deadline is nearer. *)
Definition advanced (m m' : MapStatus) (ev : list kevent) : Prop :=
  let name := InitJobName c0 id (volumeSide (otherSide (ActiveVolume m))) in
  ActiveVolume m' = ActiveVolume m /\
  match J name with
  | Err _ => DrainDeadline m' = DrainDeadline m /\ exists e, ev = [e] /\ creates_job name e
  | Ok job => ev = [] /\
      match DrainDeadline m with
      | Some d => DrainDeadline m' = Some d /\
          (job_verdict (job_Conditions job) = "Succeeded" -> exists now, lo <= now <= hi /\ now < d)
      | None =>
          if decide (job_verdict (job_Conditions job) = "Succeeded")
          then exists now, lo <= now <= hi /\ DrainDeadline m' = Some (stored_time (now + grace_of c0))
          else DrainDeadline m' = None
      end
  end.

(** The pod is deleted, unless it was going already. *)
Definition deletes (pod : Pod) (ev : list kevent) : Prop :=
  ev = [] \/ exists g r, ev = [Ev (Delete KindPod pod g) r].

Definition swapped_over (pod : Pod) (m m' : MapStatus) (ev : list kevent) : Prop :=
  ActiveVolume m' = otherSide (ActiveVolume m) /\ DrainDeadline m' = None /\
  exists del e hash, ev = del ++ [e] /\ deletes pod del /\
    hashes (otherSide (ActiveVolume m)) hash /\ creates_pod (otherSide (ActiveVolume m)) hash e.

Definition rolled (pod : Pod) (m m' : MapStatus) (busy : bool) (ev : list kevent) : Prop :=
  busy = true /\ (advanced m m' ev \/ swapped_over pod m m' ev).

(** The clock is read for nothing. *)
Lemma ends_mono s s0 P P' h x h' :
  rs_cluster s = rs_cluster s0 -> (forall m' b ev, P m' b ev -> P' m' b ev) -> ends s P h x h' -> ends s0 P' h x h'.
Proof. intros Hc HP (H1 & H2 & m' & ev & H3 & H4 & H5). rewrite Hc in H2. split_and!; [done..|]. exists m', ev. auto. Qed.

Lemma ends_after s P h h1 x h' :
  adds h h1 [] -> ends s P h1 x h' -> ends s P h x h'.
Proof.
  intros Ha (H1 & H2 & m' & ev & H3 & H4 & H5). split_and!; [done..|]. exists m', ev. split_and!; [done| |done].
  exact (adds_then Ha H4).
Qed.

Lemma wp_drain_pass ctx pod s m h job :
  same_settings (rs_cluster s) -> rs_busy s = true ->
  at_map (rs_cluster s) id ms m -> J (InitJobName c0 id (volumeSide (otherSide (ActiveVolume m)))) = Ok job ->
  job_verdict (job_Conditions job) = "Succeeded" -> DrainDeadline m = None ->
  wp rely free (start_drain ctx ms s) (ends s (rolled pod m) h) h.
Proof.
  intros Hset Hb Hm HJ Hv Hd. unfold start_drain. do 3 m_step. m_step.
  apply wp_act; [done|]. intros now Hnow%coop_now. repeat m_step.
  eapply wp_on_map; [exact Hm|done|]. intros s1 Hs1. fold (grace_of (rs_cluster s)) in Hs1.
  repeat m_step. eapply wp_persist_ok; [by eapply moved_at|]. intros s2 h2 Hh2 Hs2.
  pose proof (moved_trans _ _ _ _ _ Hs1 Hs2) as Hs.
  assert (Hpost : forall h', adds h2 h' [] -> ends s (rolled pod m) h (Ok tt, s2) h').
  { intros h' Hh'. eapply moved_ends; [exact Hs| |].
    - exact (adds_then (adds_call h Now now eq_refl) (adds_then Hh2 Hh')).
    - split; [done|]. left. split; [done|]. rewrite HJ, Hd. split; [done|].
      rewrite decide_True by done. exists now. split; [done|]. unfold grace_of. by destruct Hset as (-> & _). }
  cbn [fst snd]. repeat m_step. destruct (_ && _); [|m_step; apply Hpost, adds_here]. repeat m_step.
  eapply (wp_quiet _ is_read); [apply emits_readAdminPassword|by intros []|]. intros pw h3 Hh3. repeat m_step.
  eapply (wp_quiet _ is_net); [apply emits_net_AnnounceShutdown|by intros []|]. intros r h4 Hh4. repeat m_step.
  apply Hpost. exact (adds_then Hh3 Hh4).
Qed.

(** The deadline has passed. *)
Lemma wp_swap_pass ctx pod s m h :
  same_settings (rs_cluster s) -> rs_busy s = true -> at_map (rs_cluster s) id ms m ->
  wp rely free (swap ctx mapSpec i ms (otherSide (ActiveVolume m)) pod s) (ends s (rolled pod m) h) h.
Proof.
  intros Hset Hb Hm. unfold swap. repeat m_step.
  eapply (wp_mono _ _ _ (fun x h' => x = (Ok tt, s) /\ adds h h' [])).
  2: { destruct (negb _); [|m_step; split; [done|apply adds_here]]. repeat m_step.
       eapply (wp_quiet _ is_read); [apply emits_readAdminPassword|by intros []|]. intros pw h1 Hh1. repeat m_step.
       eapply (wp_quiet _ is_net); [apply emits_net_SaveAndExit|by intros []|]. intros r h2 Hh2. repeat m_step.
       split; [done|]. exact (adds_then Hh1 Hh2). }
  intros x h1 [-> Hh1]. repeat m_step. eapply wp_on_map; [exact Hm|done|]. intros s1 Hs1.
  fold (swapped m) in Hs1. repeat m_step. eapply wp_persist_ok; [by eapply moved_at|]. intros s2 h2 Hh2 Hs2.
  pose proof (moved_trans _ _ _ _ _ Hs1 Hs2) as Hs. pose proof (adds_then Hh1 Hh2) as Hh. repeat m_step.
  eapply (wp_mono _ _ _ (fun x h' => x = (Ok tt, s2) /\ exists del, deletes pod del /\ adds h h' del)).
  2: { destruct (terminating pod).
       - m_step. split; [done|]. exists []. split; [by left|done].
       - repeat m_step; [done|]. split; [done|]. eexists. split; [right; by eexists _, _|].
         eapply adds_then; [exact Hh|apply adds_effect]. }
  intros x h3 [-> (del & Hdel & Hh3)]. repeat m_step. rewrite (moved_status _ _ _ Hs).
  change (ActiveVolume (wire_map (swapped m))) with (otherSide (ActiveVolume m)).
  apply hashing; [eapply frame_settings; [exact Hset|apply Hs]|]. intros hash h4 Hh4 Hhash. repeat m_step.
  apply wp_create_pod. intros e h5 Hh5 He. repeat m_step.
  split; [done|]. split; [cbn; etrans; [apply Hs|apply frame_mods]|]. exists (wire_map (swapped m)), (del ++ [e]).
  split; [by apply at_map_mods, Hs|]. split; [eapply adds_trans; [exact Hh3|exact (adds_then Hh4 Hh5)]|].
  split; [cbn; destruct Hs as (-> & _); done|]. right. split; [done|]. split; [done|]. by exists del, e, hash.
Qed.

Lemma same_job_name c side : same_settings c -> InitJobName c id side = InitJobName c0 id side.
Proof.
  intros (Hs & Hn & _). unfold InitJobName, installIdentity, default_image. by rewrite Hs, Hn.
Qed.

(** The status of an install job. *)
Lemma wp_job_status cluster side j Q h :
  same_settings cluster -> answers j (J (InitJobName c0 id side)) ->
  (forall h', adds h h' [] ->
     Q match j with NoJob => "NotFound" | Running O => "Succeeded" | Running (S _) => "Running" end h') ->
  wp rely free (InitJobStatus cluster id side) Q h.
Proof.
  intros Hset HJ HQ. unfold InitJobStatus. cbn [bind do_call]. rewrite (same_job_name _ _ Hset).
  apply wp_act; [done|]. intros r ->%coop_job.
  assert (Hq : forall r, adds h (h ++ [Ev (Get KindJob (cluster_ns cluster) (InitJobName c0 id side)) r]) [])
    by (intros; by apply adds_call).
  destruct j as [|[|k]]; destruct HJ as (x & -> & Hv); rewrite Hv; apply wp_ret; by apply HQ.
Qed.

Lemma wp_roll_pass ctx pod s m j h :
  same_settings (rs_cluster s) -> at_map (rs_cluster s) id ms m ->
  answers j (J (InitJobName c0 id (volumeSide (otherSide (ActiveVolume m))))) ->
  wp rely free (rollUpdate ctx mapSpec i ms pod s) (ends s (rolled pod m) h) h.
Proof.
  intros Hset Hm HJ. unfold rollUpdate. do 2 m_step.
  lazymatch goal with |- wp _ _ (_ ?s1) _ _ =>
    eapply wp_mono; [intros x h' He; exact (ends_mono s1 s _ _ _ x h' eq_refl (fun _ _ _ H => H) He)|];
    assert (Hb : rs_busy s1 = true) by done; change (at_map (rs_cluster s1) id ms m) in Hm;
    change (same_settings (rs_cluster s1)) in Hset; revert Hb Hm Hset; generalize s1
  end.
  clear s. intros s Hb Hm Hset. repeat m_step.
  rewrite (at_map_status _ _ _ _ Hm). set (name := InitJobName c0 id _) in HJ.
  assert (Hadv : forall h' s' m' ev, moved id ms s s' m' -> adds h h' ev -> advanced m m' ev ->
    ends s (rolled pod m) h (Ok tt, s') h').
  { intros h' s' m' ev Hs' Ha Hadv. eapply moved_ends; [done..|]. split; [done|by left]. }
  eapply (wp_job_status _ _ j); [done|done|]. intros h1 Hh1. repeat m_step.
  destruct j as [|[|k]]; destruct HJ as (x & HJ & Hv); cbn [String.eqb Ascii.eqb Bool.eqb].
  - repeat m_step. eapply wp_create_job; [rewrite same_job_name by done; exact HJ|exact Hv|].
    intros e h2 Hh2 He. rewrite same_job_name in He by done. repeat m_step.
    eapply wp_on_map; [exact Hm|done|]. intros s2 Hs2. m_step.
    eapply Hadv; [exact Hs2|exact (adds_then Hh1 Hh2)|]. split; [done|]. fold name. rewrite HJ.
    split; [done|]. by exists e.
  - destruct (DrainDeadline m) as [d|] eqn:Hd.
    2: { eapply wp_mono; [intros x' h'; by apply ends_after|]. by eapply wp_drain_pass. }
    m_step. m_step. apply wp_act; [done|]. intros now Hnow%coop_now. repeat m_step.
    pose proof (adds_then Hh1 (adds_call _ Now now eq_refl)) as Hh2.
    destruct (now <? d) eqn:Hlt; to_prop.
    2: { eapply wp_mono; [intros x' h'; by apply ends_after|]. by apply wp_swap_pass. }
    eapply wp_on_map; [exact Hm|done|]. intros s2 Hs2.
    eapply Hadv; [exact Hs2|exact Hh2|]. split; [done|]. fold name. rewrite HJ, Hd.
    split; [done|]. split; [done|]. intros _. by exists now.
  - eapply wp_on_map; [exact Hm|done|]. intros s2 Hs2.
    eapply Hadv; [exact Hs2|exact Hh1|]. split; [done|]. fold name. rewrite HJ. split; [done|].
    destruct (DrainDeadline m) as [d|] eqn:Hd; cbn; rewrite ?Hd.
    + split; [done|]. by rewrite Hv.
    + by rewrite decide_False by (by rewrite Hv).
Qed.

(** *** The first start *)

(** The map goes on on the same volume, one step further. *)
Definition started (m m' : MapStatus) (busy : bool) (ev : list kevent) : Prop :=
  let name := InitJobName c0 id (volumeSide (ActiveVolume m)) in
  ActiveVolume m' = ActiveVolume m /\ busy = true /\
  match J name with
  | Err _ => exists e, ev = [e] /\ creates_job name e
  | Ok job =>
      if decide (job_verdict (job_Conditions job) = "Succeeded")
      then exists e hash, ev = [e] /\ hashes (ActiveVolume m) hash /\ creates_pod (ActiveVolume m) hash e
      else ev = []
  end.

Lemma wp_first_pass hash s m j h :
  same_settings (rs_cluster s) -> at_map (rs_cluster s) id ms m -> hashes (ActiveVolume m) hash ->
  answers j (J (InitJobName c0 id (volumeSide (ActiveVolume m)))) ->
  wp rely free (firstStart mapSpec i ms hash s) (ends s (started m) h) h.
Proof.
  intros Hset Hm Hhash HJ. unfold firstStart. repeat m_step.
  rewrite (at_map_status _ _ _ _ Hm). set (name := InitJobName c0 id _) in HJ.
  assert (Hbusy : forall h' s' m' ev, moved id ms (s <| rs_busy := true |>) s' m' -> adds h h' ev ->
    started m m' true ev -> ends s (started m) h (Ok tt, s') h').
  { intros h' s' m' ev Hs' Ha Hst. eapply (ends_mono (s <| rs_busy := true |>)); [done|done|].
    eapply moved_ends; [exact Hs'|exact Ha|exact Hst]. }
  assert (Hset_busy : forall s' m', moved id ms s s' m' -> moved id ms (s <| rs_busy := true |>) (s' <| rs_busy := true |>) m').
  { intros s' m' (H1 & H2 & H3). by split_and!. }
  eapply (wp_job_status _ _ j); [done|done|]. intros h1 Hh1. repeat m_step.
  destruct j as [|[|k]]; destruct HJ as (x & HJ & Hv); cbn [String.eqb Ascii.eqb Bool.eqb].
  - repeat m_step. eapply wp_create_job; [rewrite same_job_name by done; exact HJ|exact Hv|].
    intros e h2 Hh2 He. rewrite same_job_name in He by done. repeat m_step.
    eapply wp_on_map; [exact Hm|done|]. intros s2 Hs2. repeat m_step.
    eapply Hbusy; [by apply Hset_busy|exact (adds_then Hh1 Hh2)|]. split; [done|]. split; [done|].
    fold name. rewrite HJ. by exists e.
  - repeat m_step. apply wp_create_pod. intros e h2 Hh2 He. repeat m_step.
    change (at_map (rs_cluster (s <| rs_busy := true |>)) id ms m) in Hm.
    eapply wp_on_map; [exact Hm|done|]. intros s2 Hs2. repeat m_step.
    eapply Hbusy; [exact Hs2|exact (adds_then Hh1 Hh2)|]. split; [done|]. split; [done|].
    fold name. rewrite HJ, decide_True by done. by exists e, hash.
  - repeat m_step. eapply wp_on_map; [exact Hm|done|]. intros s2 Hs2. repeat m_step.
    eapply Hbusy; [by apply Hset_busy|exact Hh1|]. split; [done|]. split; [done|].
    fold name. rewrite HJ, decide_False by (by rewrite Hv). done.
Qed.

(** *** The steady state *)

Definition healthy (pod : Pod) : Prop := forall now, ~ crash_loop pod now.

(** The pod is waited for, or the map runs. *)
Definition kept (pod : Pod) (busy0 : bool) (m m' : MapStatus) (busy : bool) (ev : list kevent) : Prop :=
  ActiveVolume m' = ActiveVolume m /\ ev = [] /\
  if podReady pod then busy = busy0 /\ ms_Phase m' = MapPhaseRunning
  else busy = true /\ ms_Phase m' = ms_Phase m.

Lemma wp_steady_pass r pod s m h :
  at_map (rs_cluster s) id ms m -> healthy pod ->
  wp rely free (steady r mapSpec ms pod s) (ends s (kept pod (rs_busy s) m) h) h.
Proof.
  intros Hm Hok. eapply wp_mono; [|eapply wp_world, (wp_steady _ id ms m pod (rs_busy s)); done].
  intros [x s'] h' ((Hf & m' & Hm' & Ho) & tr & -> & Hall).
  assert (Ha : adds h (h ++ tr) []).
  { apply adds_quiet. intros [c a] (tr1 & tr2 & ->)%list_elem_of_split. specialize (Hall _ _ _ _ eq_refl).
    destruct c as [| |[]|[]| | | | | | | | | | | | | |]; try done.
    destruct Hall as ((_ & _ & now & _ & Hcr) & _). by destruct (Hok now). }
  cbn in Ho. inv Ho; try lazymatch goal with
    | H : exists now, _ /\ crash_loop _ now |- _ => destruct H as (now & _ & Hcr); by destruct (Hok now)
    end;
    (split; [done|]; split; [done|]; eexists _, []; split; [done|]; split; [done|];
     split; [done|]; split; [done|]; cbn; lazymatch goal with H : podReady _ = _ |- _ => by rewrite H end).
Qed.
End Pass.

(** ** What is left of an update *)

(** An install job that was created takes [K] passes. *)
Definition next_install (K : nat) (created : bool) (j : install) : install :=
  match j with
  | NoJob => if created then Running K else NoJob
  | Running k => Running (pred k)
  end.

(** The passes that are left: for the install job, and until the deadline. *)
Definition job_passes (K : nat) (j : install) : nat := match j with NoJob => S K | Running k => k end.
Definition drain_passes (grace now : Z) (deadline : option Z) : nat :=
  match deadline with
  | None => S (S (Z.to_nat grace))
  | Some d => S (Z.to_nat (d - now))
  end.

Lemma job_passes_le K created j : (job_passes K (next_install K created j) <= job_passes K j)%nat.
Proof. destruct j as [|k]; [destruct created|]; cbn; lia. Qed.

Lemma drain_passes_le grace now now' deadline :
  now <= now' -> (drain_passes grace now' deadline <= drain_passes grace now deadline)%nat.
Proof. intros Hle. destruct deadline as [d|]; cbn; lia. Qed.

Lemma drain_passes_stored grace now deadline :
  (drain_passes grace now (stored_time <$> deadline) <= drain_passes grace now deadline)%nat.
Proof. destruct deadline as [d|]; cbn; [|done]. pose proof (stored_time_le d). lia. Qed.

Lemma answers_done j J job :
  answers j J -> J = Ok job -> job_verdict (job_Conditions job) = "Succeeded" -> j = Running 0.
Proof.
  intros HJ -> Hv. destruct j as [|[|k]]; [|done|].
  - by destruct HJ as (e & ? & _).
  - destruct HJ as (job' & Heq & Hr). inv Heq. congruence.
Qed.

Lemma answers_pending j J job :
  answers j J -> J = Ok job -> job_verdict (job_Conditions job) <> "Succeeded" -> exists k, j = Running (S k).
Proof.
  intros HJ -> Hv. destruct j as [|[|k]]; [by destruct HJ as (e & ? & _)| |by eexists].
  destruct HJ as (job' & Heq & Hr). by inv Heq.
Qed.

Lemma grace_of_nonneg c : 0 <= grace_of c.
Proof. unfold grace_of. destruct (Z.ltb_spec (GracefulShutdown (Strategy (Spec c))) 0); lia. Qed.

(** They decrease with every pass. *)
Lemma passes_decrease J mapSpec c0 K wait now hi j created m m' ev :
  let name := InitJobName c0 (map_ID mapSpec) (volumeSide (otherSide (ActiveVolume m))) in
  0 < wait -> now + wait <= hi -> answers j (J name) ->
  (forall e, e ∈ ev -> creates_job mapSpec name e -> created = true) ->
  advanced J (now + wait) hi mapSpec c0 m m' ev ->
  (job_passes K (next_install K created j) + drain_passes (grace_of c0) hi (DrainDeadline m')
    < job_passes K j + drain_passes (grace_of c0) now (DrainDeadline m))%nat.
Proof.
  intros name Hw Hhi HJ Hcr [_ Hadv]. fold name in Hadv. pose proof (grace_of_nonneg c0) as Hg.
  pose proof (drain_passes_le (grace_of c0) now hi) as Hle.
  destruct (J name) as [job|e] eqn:EJ.
  - destruct Hadv as [-> Hadv]. destruct (decide (job_verdict (job_Conditions job) = "Succeeded")) as [Hv|Hv].
    + pose proof (answers_done _ _ _ HJ eq_refl Hv) as ->. cbn [next_install job_passes Nat.pred].
      destruct (DrainDeadline m) as [d|].
      * destruct Hadv as [-> Ht]. destruct (Ht Hv) as (t & Ht1 & Ht2). cbn. lia.
      * destruct Hadv as (t & Ht & ->). pose proof (stored_time_le (t + grace_of c0)). cbn. lia.
    + destruct (answers_pending _ _ _ HJ eq_refl Hv) as [k ->].
      cbn [next_install job_passes Nat.pred]. destruct (DrainDeadline m) as [d|].
      * destruct Hadv as [-> _]. specialize (Hle (Some d)). lia.
      * rewrite Hadv. cbn. lia.
  - destruct Hadv as (-> & e' & -> & He'). destruct j as [|[|k]]; [|by destruct HJ as (job & ? & _)..].
    rewrite (Hcr e') by (done || by left). cbn [next_install job_passes].
    specialize (Hle (DrainDeadline m)). lia.
Qed.

(** A world that can answer every call lets every program run to its end. *)
Lemma admits_total (rely : list kevent -> forall c, resp c -> Prop) {A} (p : kprog A) h :
  (forall h c, exists r, rely h c r) -> exists tr a, exec p tr a /\ admits rely h tr.
Proof.
  intros Hr. revert h. induction p as [a|c k IH]; intros h.
  - exists [], a. by split; [constructor|].
  - destruct (Hr h c) as [r Hc]. destruct (IH r (h ++ [Ev c r])) as (tr & a & Hex & Hadm).
    exists (Ev c r :: tr), a. by split; [constructor|].
Qed.
