(* ===== verification/CoopPass.v ===== *)
(** * A pass of [reconcileMap] in a world that cooperates

    The claims, files and service of the map can be made, its pods are listed: the pass succeeds and
    takes the map through the flow that its pods call for. *)

From S2P Require Import Prelude GoStd Effects ApiTypes Kube Ark Status Ini Resources Workload Rcon Finalizer Controller ControllerSafety ControllerFlows MapPass Life Cooperate.

Local Open Scope prog_scope.

(** ** Deterministic reads *)

Lemma wp_run (rely : list kevent -> forall c, resp c -> Prop) P (ans : forall c, resp c) {A} (p : kprog A)
    (Q : A -> list kevent -> Prop) h :
  emits P p -> (forall c, P c -> quiet c /\ forall h r, rely h c r -> r = ans c) ->
  (forall h', adds h h' [] -> Q (run_with ans p).2 h') -> wp rely free p Q h.
Proof.
  intros He HP. revert h. apply (emits_at _ _ []) in He.
  induction p as [a|c k IH]; intros h HQ.
  - apply wp_ret. apply (HQ h), adds_here.
  - destruct He as [Hc Hk]. destruct (HP c Hc) as [Hq Hr]. apply wp_act; [done|]. intros r ->%Hr.
    apply IH; [by eapply (emits_at _ _ []), emits_any, Hk|]. intros h' Hh'.
    replace (run_with ans (k (ans c))).2 with (run_with ans (Act c k)).2.
    + apply HQ. exact (adds_then (adds_call _ _ _ Hq) Hh').
    + unfold run_with. cbn. by destruct (run _ _ tt) as [[] ].
Qed.

(** The reads that go into the hash of a pod. *)
Definition is_version (c : call) : Prop :=
  match c with Get KindConfigMap _ _ | Get KindSecret _ _ => True | _ => False end.

Lemma emits_version_computePodHash cluster mapSpec i v : emits is_version (computePodHash cluster mapSpec i v).
Proof.
  assert (Hr : forall ns kind name, emits is_version (readResourceVersion ns kind name)).
  { intros. unfold readResourceVersion. destruct (String.eqb kind "ConfigMap"); [|destruct (String.eqb kind "Secret")];
      try done; (apply emits_act; [done|]; by intros []). }
  unfold computePodHash. do 3 (apply emits_bind; [apply Hr|intros ?]).
  apply emits_bind; [|done]. destruct (ServerPassword _); [|done]. apply emits_bind; [apply Hr|done].
Qed.

(** The hash depends on the cluster through its settings alone. *)
Lemma computePodHash_same_settings c0 c mapSpec i v :
  same_settings c0 c -> computePodHash c mapSpec i v = computePodHash c0 mapSpec i v.
Proof.
  intros (Hs & Hn & Hns & Ha). unfold computePodHash, launch_rev. by rewrite Hs, Hn, Hns, Ha.
Qed.

(** ** The resources of a cluster *)

(** The cluster can be made the controller of the object. *)
Definition ownable `{L : K8sLib} (c0 : ArkCluster) (m : ObjectMeta) : Prop :=
  forall c m', cluster_name c = cluster_name c0 -> cluster_ns c = cluster_ns c0 ->
    Namespace m' = Namespace m -> OwnerReferences m' = OwnerReferences m -> exists m2, SetControllerReference c m' = Ok m2.

(** Objects can be created and updated, and the cluster may own them. *)
Class Obliging `{L : K8sLib} (rely : list kevent -> forall c, resp c -> Prop) (c0 : ArkCluster) := {
  oblige_begin h k o r : rely h (CouBegin k o) r -> exists x, r = Ok x /\ ownable c0 (obj_meta x);
  oblige_end h k o r : rely h (CouEnd k o) r -> r = Ok tt;
  oblige_rand h n r : rely h (RandRead n) r -> exists buf, r = Ok buf }.

(** The sizes of the claims are quantities. *)
Definition sizes_parse `{L : K8sLib} (c0 : ArkCluster) : Prop :=
  forall size, size ∈ [ServerPVCSize (Storage (Spec c0)); SavesPVCSize (Storage (Spec c0));
                       ClusterPVCSize (Storage (Spec c0))] -> exists q, ParseQuantity size = Ok q.

Section Ensure.
Context {L : K8sLib} (rely : list kevent -> forall c, resp c -> Prop) (c0 : ArkCluster).
Context `{HO : !Obliging rely c0} (sizes : sizes_parse c0).
#[local] Set Default Proof Using "All".

(** The program succeeds, without an effect on pods and jobs. *)
Definition succeeds (p : kprog (res unit)) : Prop :=
  forall Q h, (forall h', adds h h' [] -> Q (Ok tt) h') -> wp rely free p Q h.

Lemma succeeds_then p f : succeeds p -> succeeds f -> succeeds (and_then p (fun _ : unit => f)).
Proof.
  intros Hp Hf Q h HQ. unfold and_then. apply wp_seq, Hp. intros h1 Hh1. apply Hf. intros h2 Hh2.
  apply HQ. exact (adds_then Hh1 Hh2).
Qed.

Lemma succeeds_CreateOrUpdate k o f :
  (forall x Q h, ownable c0 (obj_meta x) -> (forall y h', adds h h' [] -> Q (Ok y) h') ->
     wp rely free (f x) Q h) ->
  succeeds (CreateOrUpdate k o f).
Proof.
  intros Hf Q h HQ. unfold CreateOrUpdate. cbn [bind do_call]. apply wp_act; [done|].
  intros r (x & -> & Hx)%oblige_begin. apply wp_seq, Hf; [done|]. intros y h1 Hh1.
  apply wp_act; [done|]. intros r ->%oblige_end. apply wp_ret, HQ.
  exact (adds_then (adds_call _ (CouBegin k o) _ eq_refl) (adds_then Hh1 (adds_call _ (CouEnd k y) _ eq_refl))).
Qed.

Variable c : ArkCluster.
Hypothesis Hset : same_settings c0 c.

Lemma own_it x ls : ownable c0 x -> exists m, SetControllerReference c (x <| Labels ::= ls |>) = Ok m.
Proof. intros Hx. destruct Hset as (_ & Hn & Hns & _). by apply Hx. Qed.

Lemma succeeds_ensurePVC name size sc mode q :
  ParseQuantity size = Ok q -> succeeds (ensurePVC c name size sc mode).
Proof.
  intros Hq Q h HQ. unfold ensurePVC. rewrite Hq. apply wp_seq.
  apply succeeds_CreateOrUpdate; [|intros h' Hh'; apply wp_ret; by apply HQ].
  intros x Q' h' Hx HQ'. apply wp_ret. unfold mutate_pvc. cbv zeta.
  match goal with |- context [SetControllerReference c ?m] =>
    assert (exists m2, SetControllerReference c m = Ok m2) as [m2 ->] end.
  { destruct Hset as (_ & Hn & Hns & _). apply Hx; [done..| |];
      (destruct (CreationTimestamp (pvc_meta x)); [done|]; by destruct (negb _)). }
  apply HQ', adds_here.
Qed.

Lemma succeeds_EnsureAdminPasswordSecret : succeeds (EnsureAdminPasswordSecret c).
Proof.
  intros Q h HQ. unfold EnsureAdminPasswordSecret. apply wp_seq.
  apply succeeds_CreateOrUpdate; [|intros h' Hh'; apply wp_ret; by apply HQ].
  intros x Q' h' Hx HQ'. unfold mutate_secret. apply wp_seq.
  assert (Hend : forall data h2, adds h' h2 [] ->
    wp rely free (match SetControllerReference c ((secret_meta x) <| Labels ::= insert "ark.watteel.com/cluster" (cluster_name c) |>) with
      | Err e => Ret (Err e) | Ok m => Ret (Ok (MkSecret m data "Opaque")) end) Q' h2).
  { intros data h2 Hh2. destruct (own_it _ (insert "ark.watteel.com/cluster" (cluster_name c)) Hx) as [m Hm].
    cbn [obj_meta] in Hm. rewrite Hm. apply wp_ret. by apply HQ'. }
  destruct (secret_Data x !! "adminPassword"); [apply wp_ret, Hend, adds_here|].
  cbn [bind do_call]. apply wp_act; [done|]. intros r (buf & ->)%oblige_rand. apply wp_ret, Hend. by apply adds_call.
Qed.

Lemma succeeds_EnsureService id i : succeeds (EnsureService c id i).
Proof.
  apply succeeds_CreateOrUpdate. intros x Q h Hx HQ. apply wp_ret. unfold mutate_service. cbv zeta.
  match goal with |- context [SetControllerReference c ?m] =>
    assert (exists m2, SetControllerReference c m = Ok m2) as [m2 ->] end.
  { destruct Hset as (_ & Hn & Hns & _). apply Hx; [done..| |]; unfold service_spec; cbv zeta;
      (destruct (decide _); [|done]; by destruct (LoadBalancerIPs _ !! i)). }
  apply HQ, adds_here.
Qed.

Lemma succeeds_EnsureMapINIConfigMaps id : succeeds (EnsureMapINIConfigMaps c id).
Proof.
  assert (Hr : forall ms key (Q : string -> list kevent -> Prop) h,
    (forall s h', adds h h' [] -> Q s h') -> wp rely free (resolveINI c ms key) Q h).
  { intros ms key Q h HQ. apply (wp_quiet _ is_ensure); [|by intros []|done].
    unfold resolveINI. cbv zeta. repeat case_match; try done; (apply emits_act; [done|]; by intros []). }
  assert (Hw : forall name key content, succeeds (writeINIConfigMap c name key content)).
  { intros. apply succeeds_CreateOrUpdate. intros x Q h Hx HQ. apply wp_ret. unfold mutate_cm. cbv zeta.
    destruct (own_it _ (insert "ark.watteel.com/cluster" (cluster_name c)) Hx) as [m Hm].
    cbn [obj_meta] in Hm.
    match goal with |- context [SetControllerReference c ?m'] => change m' with
      ((cm_meta x) <| Labels ::= insert "ark.watteel.com/cluster" (cluster_name c) |>) end.
    rewrite Hm. apply HQ, adds_here. }
  intros Q h HQ. unfold EnsureMapINIConfigMaps. cbv zeta.
  apply wp_seq, Hr. intros gus h1 Hh1. apply wp_seq, Hr. intros game h2 Hh2. apply wp_seq, Hw. intros h3 Hh3.
  apply Hw. intros h4 Hh4. apply HQ. exact (adds_then Hh1 (adds_then Hh2 (adds_then Hh3 Hh4))).
Qed.

Lemma size_ok size : size ∈ [ServerPVCSize (Storage (Spec c)); SavesPVCSize (Storage (Spec c));
                       ClusterPVCSize (Storage (Spec c))] -> exists q, ParseQuantity size = Ok q.
Proof. destruct Hset as (-> & _). apply sizes. Qed.

Lemma succeeds_EnsureClusterPVC : succeeds (EnsureClusterPVC c).
Proof.
  destruct (size_ok (ClusterPVCSize (Storage (Spec c)))) as [q Hq]; [set_solver|].
  by eapply succeeds_ensurePVC.
Qed.

Lemma succeeds_ensure_map_resources id i : succeeds (ensure_map_resources c id i).
Proof.
  destruct (size_ok (ServerPVCSize (Storage (Spec c)))) as [q Hq]; [set_solver|].
  destruct (size_ok (SavesPVCSize (Storage (Spec c)))) as [q' Hq']; [set_solver|].
  unfold ensure_map_resources, EnsureSavesPVC, EnsureServerPVC.
  repeat apply succeeds_then; [by eapply succeeds_ensurePVC..|apply succeeds_EnsureMapINIConfigMaps|
    apply succeeds_EnsureService].
Qed.
End Ensure.

(** ** One pass *)

(** The volume of an entry once it has one. *)
Definition volume_or_a (v : string) : string := if String.eqb v "" then "server-a" else v.

Lemma addressed_fields c id i got m :
  let m1 := addressed c i got (with_volume c id) in m = default (new_MapStatus id) (entry c id) ->
  ActiveVolume m1 = volume_or_a (ActiveVolume m) /\ DrainDeadline m1 = DrainDeadline m /\ ms_Phase m1 = ms_Phase m.
Proof.
  intros m1 ->. subst m1. unfold addressed, with_volume, volume_or_a.
  destruct got as [svc|]; [destruct (ks_Ingress svc)|]; by destruct (String.eqb _ _).
Qed.

Section MapPass.
Context {L : K8sLib} {HL : K8sLaws L}.
Context (rely : list kevent -> forall c, resp c -> Prop) (J : string -> res Job) (lo hi : Z).
Context `{HC : !Cooperative rely J lo hi}.
Variables (mapSpec : MapSpec) (i : nat) (c0 : ArkCluster).
Context `{HO : !Obliging rely c0} (sizes : sizes_parse c0).
Abbreviation id := (map_ID mapSpec).
Abbreviation slug := (MapSlug id).
(** The hash of the pod on each volume, and the pods that are listed. *)
Variables (hash_of : string -> string) (pods : list Pod).
Hypothesis hashing : forall c volume (Q : string -> list kevent -> Prop) h,
  same_settings c0 c -> (forall h', adds h h' [] -> Q (hash_of volume) h') ->
  wp rely free (computePodHash c mapSpec i volume) Q h.
Hypothesis listing : forall h ns sel r,
  rely h (List KindPod ns sel) r -> sel !! "ark.watteel.com/map" = Some slug -> r = Ok pods.
#[local] Set Default Proof Using "All".

Abbreviation m_old c := (default (new_MapStatus id) (entry c id)).
Abbreviation the_hash := (fun volume hash => hash = hash_of volume).

(** What the pass makes of the entry, by the pod it finds. *)
Definition passed (busy0 : bool) (mid : string) (m m' : MapStatus) (busy : bool) (ev : list kevent) : Prop :=
  match findActivePod pods (hash_of (ActiveVolume m)) with
  | None => started J mapSpec c0 the_hash m m' busy ev
  | Some p =>
      if decide (pod_hash p = hash_of (ActiveVolume m)) then kept p busy0 m m' busy ev
      else if decide (mid = "" \/ mid = id)
      then rolled J lo hi mapSpec c0 the_hash p m m' busy ev
      else m' = m /\ busy = true /\ ev = []
  end.

Record map_ends (mid : string) (s : RState) (h : list kevent) (x : res unit * RState) (h' : list kevent) : Prop := {
  me_ok : x.1 = Ok tt;
  me_spec : Spec (rs_cluster x.2) = Spec (rs_cluster s);
  me_meta : (cluster_meta (rs_cluster x.2)) <| ResourceVersion := "" |>
            = (cluster_meta (rs_cluster s)) <| ResourceVersion := "" |>;
  me_others : forall id', id' <> id -> rounded (entry (rs_cluster s) id') (entry (rs_cluster x.2) id');
  me_ids : ms_ID <$> MapStatuses (Status (rs_cluster x.2))
           = ms_ID <$> MapStatuses (Status (EnsureMapStatus (rs_cluster s) id).2);
  me_entry : exists got m1 m' ev, m1 = addressed (rs_cluster s) i got (with_volume (rs_cluster s) id) /\
    entry (rs_cluster x.2) id = Some m' /\ adds h h' ev /\
    passed (rs_busy s) mid m1 m' (rs_busy x.2) ev }.

(** Where the flow starts. *)
Definition flow_start (s : RState) (h : list kevent) (got : res KService) (s1 : RState) (ms : nat) (m1 : MapStatus)
    (h1 : list kevent) : Prop :=
  ready (rs_cluster s) id i got (rs_cluster s1) ms m1 /\ rs_busy s1 = rs_busy s /\ adds h h1 [] /\
  ms_ID <$> MapStatuses (Status (rs_cluster s1)) = ms_ID <$> MapStatuses (Status (EnsureMapStatus (rs_cluster s) id).2).

Lemma ready_settings s got s1 ms m1 :
  same_settings c0 (rs_cluster s) -> ready (rs_cluster s) id i got (rs_cluster s1) ms m1 ->
  same_settings c0 (rs_cluster s1).
Proof.
  intros (H1 & H2 & H3 & H4) Hr. pose proof (ready_name _ _ _ _ _ _ _ Hr) as [Hn Hns]. destruct Hr as [Hs Hm _ _ _].
  apply (f_equal Annotations) in Hm. cbn in Hm. split_and!; congruence.
Qed.

Lemma flow_ends mid s h got s1 ms m1 h1 (P : MapStatus -> bool -> list kevent -> Prop) x h' :
  flow_start s h got s1 ms m1 h1 -> ends mapSpec ms s1 P h1 x h' ->
  (forall m' busy ev, P m' busy ev -> passed (rs_busy s) mid m1 m' busy ev) ->
  map_ends mid s h x h'.
Proof.
  intros ([F1 F2 F3 F4 F5] & _ & Ha & Hids) (Hok & Hf & m' & ev & Hm' & Ha' & HP) HPass.
  split; [done|..].
  - etrans; [apply Hf|done].
  - etrans; [apply Hf|done].
  - intros id' Hne. etrans; [by apply F4|]. by eapply frame_entry.
  - destruct Hf as (_ & _ & -> & _). done.
  - exists got, m1, m', ev. split; [done|]. split; [by eapply at_map_entry|]. split; [exact (adds_then Ha Ha')|auto].
Qed.

(** The three flows, or none. *)
Lemma wp_coop_flow r ctx mid s h got s1 ms m1 h1 (j : string -> install) :
  same_settings c0 (rs_cluster s) -> (forall name, answers (j name) (J name)) ->
  (forall p, p ∈ pods -> terminating p = false -> pod_hash p = hash_of (ActiveVolume m1) -> healthy p) ->
  flow_start s h got s1 ms m1 h1 ->
  wp rely free
    (match findActivePod pods (hash_of (ActiveVolume m1)) with
     | None => firstStart mapSpec i ms (hash_of (ActiveVolume m1))
     | Some activePod =>
         if String.eqb (pod_hash activePod) (hash_of (ActiveVolume m1)) then steady r mapSpec ms activePod
         else if negb (String.eqb mid "") && negb (String.eqb mid id)
         then set_busy
         else rollUpdate ctx mapSpec i ms activePod
     end s1) (map_ends mid s h) h1.
Proof.
  intros Hset HJ Hok Hfs. pose proof Hfs as (Hr & Hb & Ha & Hids). pose proof (ready_at _ _ _ _ _ _ _ Hr) as Hm.
  pose proof (ready_settings _ _ _ _ _ Hset Hr) as Hset1.
  assert (Hpass : forall m' busy ev,
    match findActivePod pods (hash_of (ActiveVolume m1)) with
    | None => started J mapSpec c0 the_hash m1 m' busy ev
    | Some p =>
        if decide (pod_hash p = hash_of (ActiveVolume m1)) then kept p (rs_busy s) m1 m' busy ev
        else if decide (mid = "" \/ mid = id)
        then rolled J lo hi mapSpec c0 the_hash p m1 m' busy ev
        else m' = m1 /\ busy = true /\ ev = []
    end -> passed (rs_busy s) mid m1 m' busy ev) by done.
  assert (Hhash : forall c volume (Q : string -> list kevent -> Prop) h, same_settings c0 c ->
    (forall hash h', adds h h' [] -> hash = hash_of volume -> Q hash h') ->
    wp rely free (computePodHash c mapSpec i volume) Q h).
  { intros c v Q h' Hc HQ. apply hashing; [done|]. intros h2 Hh2. by apply HQ. }
  pose proof (findActivePod_cases pods (hash_of (ActiveVolume m1))) as Hcases.
  destruct (findActivePod pods (hash_of (ActiveVolume m1))) as [p|].
  - destruct Hcases as (Hin & Ht & _). destruct (String.eqb_spec (pod_hash p) (hash_of (ActiveVolume m1))) as [Hh|Hh].
    + eapply wp_mono; [intros x h' He; eapply flow_ends; [exact Hfs|exact He|];
        intros m' b ev HP; apply Hpass; rewrite decide_True by done; exact HP|].
      rewrite <- Hb. apply (wp_steady_pass rely J lo hi mapSpec i ms c0 the_hash Hhash); auto.
    + destruct (_ && _) eqn:Hmid.
      * to_prop. apply wp_ret.
        apply (flow_ends mid s h got s1 ms m1 h1 (fun m' busy ev => m' = m1 /\ busy = true /\ ev = [])); [exact Hfs|..].
        -- split; [done|]. split; [done|]. exists m1, []. split; [done|]. by split; [apply adds_here|].
        -- intros m' b ev HP. apply Hpass. rewrite !decide_False by (done || by intros [?|?]). exact HP.
      * assert (Hm' : mid = "" \/ mid = id)
          by (destruct (String.eqb_spec mid ""), (String.eqb_spec mid id); auto; discriminate Hmid).
        eapply wp_mono; [intros x h' He; eapply flow_ends; [exact Hfs|exact He|];
          intros m' b ev HP; apply Hpass; rewrite decide_False, decide_True by done; exact HP|].
        by eapply (wp_roll_pass rely J lo hi _ _ _ _ the_hash Hhash).
  - eapply wp_mono; [intros x h' He; eapply flow_ends; [exact Hfs|exact He|exact Hpass]|].
    by eapply (wp_first_pass rely J lo hi _ _ _ _ the_hash Hhash).
Qed.

Lemma wp_coop_address s h e s1 ms m1 h1 (Q : res unit * RState -> list kevent -> Prop) :
  flow_start s h (Err e) s1 ms m1 h1 ->
  (forall got s2 m2 h2, flow_start s h got s2 ms m2 h2 -> ActiveVolume m2 = ActiveVolume m1 -> Q (Ok tt, s2) h2) ->
  wp rely free (refreshAddress mapSpec i ms s1) Q h1.
Proof.
  intros (Hr & Hb & Ha & Hids) HQ. unfold refreshAddress. repeat m_step; [done|].
  match goal with |- context [h1 ++ ?e] => set (h2 := h1 ++ e) end.
  assert (Ha2 : adds h h2 []) by exact (adds_then Ha (adds_call _ (Get KindService _ _) _ eq_refl)).
  pose proof (ready_prepared _ _ _ _ _ _ _ Hr) as Hm1. cbn in Hm1. pose proof Hr as [R1 R2 R3 R4 _].
  destruct r as [svc|e']; [|m_step; by apply (HQ (Err e') s1 m1)].
  destruct (ks_Ingress svc) as [|ip ips] eqn:Hing.
  { m_step. apply (HQ (Ok svc) s1 m1); [|done]. split; [|done]. split; try done. cbn. by rewrite Hing. }
  unfold on_map, on_cluster, m_modify. apply wp_ret. eapply (HQ (Ok svc)).
  - split; [eapply (ready_alter _ mapSpec i ""); [exact Hr|done|]|split; [done|split; [exact Ha2|]]].
    + cbn. by rewrite Hing, Hm1, R1.
    + cbn. rewrite <- Hids. apply (frame_alter ms (rs_cluster s1)). done.
  - done.
Qed.

Lemma wp_coop_map r ctx mid s h (j : string -> install) :
  same_settings c0 (rs_cluster s) -> (forall name, answers (j name) (J name)) ->
  (forall p, p ∈ pods -> terminating p = false ->
     pod_hash p = hash_of (volume_or_a (ActiveVolume (m_old (rs_cluster s)))) -> healthy p) ->
  wp rely free (reconcileMap r ctx mapSpec i mid s) (map_ends mid s h) h.
Proof.
  intros Hset HJ Hok. unfold reconcileMap. repeat m_step.
  apply (succeeds_ensure_map_resources rely c0 sizes (rs_cluster s) Hset). intros h1 Hh1. cbn beta iota.
  destruct (EnsureMapStatus (rs_cluster s) id) as [ms c1] eqn:He.
  assert (Hids : c1 = (EnsureMapStatus (rs_cluster s) id).2) by by rewrite He.
  apply EnsureMapStatus_at in He as (Hm & Hspec & Hmeta & Hothers).
  repeat m_step. set (s1 := s <| rs_cluster := c1 |>).
  rewrite (at_map_status _ _ _ _ (Hm : at_map (rs_cluster s1) id ms (m_old (rs_cluster s)))).
  eapply (wp_mono _ _ _ (fun x h' => exists s' m1, x = (Ok tt, s') /\ flow_start s h (Err (Errorf "")) s' ms m1 h')).
  2: { assert (Hmeta' : (cluster_meta c1) <| ResourceVersion := "" |> = (cluster_meta (rs_cluster s)) <| ResourceVersion := "" |>)
         by by rewrite Hmeta.
       assert (Hw : forall m, m = with_volume (rs_cluster s) id ->
         m = addressed (rs_cluster s) i (Err (Errorf "")) (with_volume (rs_cluster s) id)) by done.
       unfold with_volume at 1 in Hw. destruct (String.eqb (ActiveVolume (m_old (rs_cluster s))) "").
       - apply wp_ret. eexists _, _. split; [done|]. split; [|split; [done|split; [exact Hh1|]]].
         + split; [done..|by apply (at_map_alter c1 id ms (m_old (rs_cluster s)))| |by apply Hw].
           intros id' Hne. rewrite <- Hothers by done.
           by eapply (frame_entry ms c1); [apply frame_alter|..].
         + cbn. rewrite <- Hids. apply (frame_alter ms c1). done.
       - apply wp_ret. exists s1, (m_old (rs_cluster s)). split; [done|]. split; [|split; [done|split; [exact Hh1|]]].
         + split; [done..| |by apply Hw]. intros id' Hne. cbn. by rewrite Hothers.
         + cbn. by rewrite <- Hids. }
  intros x h2 (s2 & m2 & -> & Hfs). cbn beta iota. repeat m_step.
  pose proof Hfs as (Hr2 & _ & Ha2 & _). pose proof (ready_settings _ _ _ _ _ Hset Hr2) as Hset2.
  rewrite (at_map_status _ _ _ _ (ready_at _ _ _ _ _ _ _ Hr2)).
  apply hashing; [done|]. intros h3 Hh3. repeat m_step. unfold listMapPods. apply wp_act; [done|].
  intros got Hgot. eapply listing in Hgot; [|by rewrite lookup_insert_ne, lookup_singleton_eq by done].
  subst got. cbn beta iota. apply wp_ret. apply wp_m_bind. cbn beta iota.
  eapply (wp_coop_address s h _ _ ms m2).
  { destruct Hfs as (H1 & H2 & H3 & H4). split; [done|]. split; [done|]. split; [|done].
    exact (adds_then H3 (adds_then Hh3 (adds_call _ (List KindPod _ _) _ eq_refl))). }
  intros got s3 m3 h4 Hfs3 Hv3. cbn beta iota. rewrite <- Hv3. eapply wp_coop_flow; [done|exact HJ| |exact Hfs3].
  intros p Hp Ht Hh. apply Hok; [done..|]. rewrite Hh. f_equal.
  rewrite (ready_prepared _ _ _ _ _ _ _ (proj1 Hfs3)). by apply addressed_fields.
Qed.
End MapPass.
