(* ===== verification/World.v ===== *)
(** * A reconcile of a whole cluster in a world that cooperates

    The state of the world between two reconciles: the stored cluster, the pods, the install jobs
    and the clock.  One [Reconcile] against it succeeds and takes every map of the cluster through
    the flow its pods call for. *)

From S2P Require Import Prelude GoStd Effects ApiTypes Kube Ark Status Ini Resources Workload Rcon Finalizer Controller ControllerSafety ControllerFlows MapPass Life Cooperate CoopPass.

Local Open Scope prog_scope.

(** Pods and warm-up by slug, install jobs by name; [w_warm] is the number of reconciles until the
    pods of the wanted version are ready. *)
Record World := MkWorld {
  w_cluster : ArkCluster;
  w_pods : string -> list Pod;
  w_jobs : string -> install;
  w_warm : string -> nat;
  w_now : Z;
  w_result : res Result }.

(** The cluster as it is stored after the writes of a reconcile. *)
Definition apply_write (c : ArkCluster) (e : kevent) : ArkCluster :=
  match e with
  | Ev call r =>
      match call return resp call -> ArkCluster with
      | StatusUpdate c' => fun u => match u with Ok _ => with_version u c' | Err _ => c end
      | Update c' => fun u => match u with Ok _ => c' | Err _ => c end
      | _ => fun _ => c
      end r
  end.
Definition stored_after (c : ArkCluster) (tr : list kevent) : ArkCluster := foldl apply_write c tr.

(** A time that may have been stored. *)
Definition rounded_time (d d' : option Z) : Prop := d' = d \/ d' = stored_time <$> d.

(** A loop whose body always succeeds. *)
Lemma wp_m_for_ok (rely : list kevent -> forall c, resp c -> Prop) guar {S A} (l : list A) (body : A -> kM S unit)
    (I : list A -> S -> list kevent -> Prop) l0 s h :
  (forall l1 x l2 s h, l0 ++ l = l1 ++ x :: l2 -> I l1 s h ->
     wp rely guar (body x s) (fun r h' => r.1 = Ok tt /\ I (l1 ++ [x]) r.2 h') h) ->
  I l0 s h -> wp rely guar (m_for l body s) (fun r h' => r.1 = Ok tt /\ I (l0 ++ l) r.2 h') h.
Proof.
  revert l0 s h. induction l as [|x l IH]; intros l0 s h Hbody HI; cbn.
  { apply wp_ret. by rewrite app_nil_r. }
  apply wp_seq. eapply wp_mono; [|by apply (Hbody l0 x l)].
  intros [r s'] h' [Hr HI']. cbn in Hr, HI'. subst r. rewrite cons_middle, app_assoc. apply IH; [|done].
  intros l1 y l2 s1 h1. rewrite <- app_assoc. apply Hbody.
Qed.

Section World.
Context {L : K8sLib} {HL : K8sLaws L}.
(** The settings of the cluster, and its files and secrets, which nobody edits meanwhile. *)
Variables (c0 : ArkCluster) (cms : string -> res ConfigMap) (secs : string -> res Secret).
Hypothesis sizes : sizes_parse c0.
Hypothesis slugs_differ : NoDup ((fun s => MapSlug (map_ID s)) <$> Maps (Spec c0)).
#[local] Set Default Proof Using "All".

Abbreviation slug_of s := (MapSlug (map_ID s)).
Abbreviation spec_ids := (map_ID <$> Maps (Spec c0)).

(** The answers of one reconcile: install jobs are as [J] says, writes succeed. *)
Definition answer (w : World) (J : string -> res Job) (lo hi : Z) (h : list kevent) (c : call) : resp c -> Prop :=
  match c return resp c -> Prop with
  | Get k _ name =>
      match k return res (obj k) -> Prop with
      | KindCluster => fun r => r = Ok (w_cluster w)
      | KindJob => fun r => r = J name
      | KindConfigMap => fun r => r = cms name
      | KindSecret => fun r => r = secs name
      | _ => fun _ => True
      end
  | List k _ sel =>
      match k return res (list (obj k)) -> Prop with
      | KindPod => fun r =>
          match sel !! "ark.watteel.com/map" with
          | Some slug => r = Ok (w_pods w slug)
          | None => True
          end
      | _ => fun _ => True
      end
  | Create _ _ | CouEnd _ _ | Update _ => fun r => r = Ok tt
  | StatusUpdate _ => fun u => exists v, u = Ok v
  | CouBegin k _ => fun r => exists x : obj k, r = Ok x /\ ownable c0 (obj_meta x)
  | RandRead _ => fun r => exists buf, r = Ok buf
  | Now => fun now => lo <= now <= hi
  | _ => fun _ => True
  end.

#[export] Instance answer_Cooperative w J lo hi : Cooperative (answer w J lo hi) J lo hi.
Proof. by split. Qed.
#[export] Instance answer_Obliging w J lo hi : Obliging (answer w J lo hi) c0.
Proof. by split. Qed.

(** The hash that the pod of a map is to have, on each volume. *)
Definition version_reads (c : call) : resp c :=
  match c return resp c with
  | Get k ns name =>
      match k return res (obj k) with
      | KindConfigMap => cms name
      | KindSecret => secs name
      | _ => Err (Error ReasonNotFound "")
      end
  | c => demo_answer c
  end.
Definition wanted_hash (i : nat) (s : MapSpec) (volume : string) : string :=
  (run_with version_reads (computePodHash c0 s i volume)).2.

Lemma wp_wanted w J lo hi i s c volume (Q : string -> list kevent -> Prop) h :
  same_settings c0 c -> (forall h', adds h h' [] -> Q (wanted_hash i s volume) h') ->
  wp (answer w J lo hi) free (computePodHash c s i volume) Q h.
Proof.
  intros Hset HQ. rewrite (computePodHash_same_settings c0 c) by done.
  apply (wp_run _ is_version version_reads); [apply emits_version_computePodHash| |exact HQ].
  intros [k| | | | | | | | | | | | | | | | |] Hc; try done. destruct k; done.
Qed.

(** ** The state of one map *)

Definition old_entry (w : World) (s : MapSpec) : MapStatus :=
  default (new_MapStatus (map_ID s)) (entry (w_cluster w) (map_ID s)).
Definition volume_in (w : World) (s : MapSpec) : string := volume_or_a (ActiveVolume (old_entry w s)).

(** Pods are listed for the map they are labelled with; those of the wanted version do not crash,
    and are ready once they are warm. *)
Record sound (w : World) : Prop := {
  sound_label slug p : p ∈ w_pods w slug -> map_label (pod_meta p) = slug;
  sound_pods i s p : Maps (Spec c0) !! i = Some s -> p ∈ w_pods w (slug_of s) -> terminating p = false ->
    pod_hash p = wanted_hash i s (volume_in w s) ->
    healthy p /\ (w_warm w (slug_of s) = O -> podReady p = true) }.

(** A status has one entry per map, and none that goes by the slug of another. *)
Record orderly (c : ArkCluster) : Prop := {
  orderly_once : NoDup (ms_ID <$> MapStatuses (Status c));
  orderly_slug m : m ∈ MapStatuses (Status c) -> MapSlug (ms_ID m) ∈ keep_slugs c0 -> ms_ID m ∈ spec_ids }.

(** The map needs no more than to be looked after. *)
Definition at_rest (w : World) (i : nat) (s : MapSpec) : Prop :=
  w_warm w (slug_of s) = O /\ ms_Phase (old_entry w s) = MapPhaseRunning /\
  exists p, findActivePod (w_pods w (slug_of s)) (wanted_hash i s (volume_in w s)) = Some p /\
    pod_hash p = wanted_hash i s (volume_in w s).

(** The entry when its flow starts, for the entry that was stored before the reconcile: it has its
    volume, and the status may have been stored for another map meanwhile. *)
Definition prepared (m0 m1 : MapStatus) : Prop :=
  ActiveVolume m1 = volume_or_a (ActiveVolume m0) /\
  rounded_time (DrainDeadline m0) (DrainDeadline m1) /\ ms_Phase m1 = ms_Phase m0.

(** What the reconcile made of a map. *)
Definition map_done (w : World) (J : string -> res Job) (lo hi : Z) (i : nat) (s : MapSpec) (c' : ArkCluster)
    (h : list kevent) : Prop :=
  exists m1 m' ev busy0 busy, prepared (old_entry w s) m1 /\ rounded (Some m') (entry c' (map_ID s)) /\
    effects (slug_of s) h = ev /\
    passed J lo hi s c0 (wanted_hash i s) (w_pods w (slug_of s)) busy0 (mid_flight (w_cluster w)) m1 m' busy ev.

(** ** The loop over the maps *)

Definition concerns (slug : string) (ev : list kevent) : Prop :=
  forall e, e ∈ ev -> effect_slug (ev_call e) = Some slug.

Lemma concerns_nil slug : concerns slug [].
Proof. by intros e ?%elem_of_nil. Qed.

Lemma concerns_own slug ev : concerns slug ev -> effects slug ev = ev.
Proof.
  intros Hc. induction ev as [|e ev IH]; [done|]. cbn. rewrite bool_decide_eq_true_2 by (apply Hc; by left).
  f_equal. apply IH. intros e' He'. apply Hc. by right.
Qed.

Lemma concerns_other slug sl ev : concerns slug ev -> sl <> slug -> effects sl ev = [].
Proof. intros Hc Hne. apply effects_none. intros e He. rewrite (Hc e He). congruence. Qed.

Lemma passed_concerns J lo hi s hash_of pods busy0 mid m m' busy ev :
  (forall p, p ∈ pods -> map_label (pod_meta p) = slug_of s) ->
  passed J lo hi s c0 hash_of pods busy0 mid m m' busy ev -> concerns (slug_of s) ev.
Proof.
  intros Hpods Hp. unfold passed in Hp.
  assert (Hpod : forall v hash e, creates_pod s v hash e -> effect_slug (ev_call e) = Some (slug_of s)).
  { intros v hash e (p & -> & Hl & _). cbn. by rewrite Hl. }
  assert (Hjob : forall name e, creates_job s name e -> effect_slug (ev_call e) = Some (slug_of s)).
  { intros name e (j & -> & _ & Hl). cbn. by rewrite Hl. }
  pose proof (findActivePod_cases pods (hash_of (ActiveVolume m))) as Hcases.
  destruct (findActivePod pods _) as [p|].
  - destruct Hcases as (Hin & _ & _). destruct (decide _); [destruct Hp as (_ & -> & _); apply concerns_nil|].
    destruct (decide _); [|destruct Hp as (_ & _ & ->); apply concerns_nil]. destruct Hp as (_ & [Hadv|Hsw]).
    + destruct Hadv as (_ & Hadv). destruct (J _) as [job|e].
      * destruct Hadv as [-> _]. apply concerns_nil.
      * destruct Hadv as (_ & e' & -> & He'). intros e'' ->%list_elem_of_singleton. by eapply Hjob.
    + destruct Hsw as (_ & _ & del & e & hash & -> & Hdel & _ & He).
      intros e' Hd. apply elem_of_app in Hd as [Hd|Hd]; [|apply list_elem_of_singleton in Hd as ->; by eapply Hpod].
      destruct Hdel as [->|(g & r & ->)]; [by apply elem_of_nil in Hd|].
      apply list_elem_of_singleton in Hd as ->. cbn. by rewrite (Hpods _ Hin).
  - destruct Hp as (_ & _ & Hp). destruct (J _) as [job|e].
    + destruct (decide _); [|rewrite Hp; apply concerns_nil]. destruct Hp as (e1 & hash & -> & _ & He).
      intros e' ->%list_elem_of_singleton. by eapply Hpod.
    + destruct Hp as (e' & -> & He'). intros e'' ->%list_elem_of_singleton. by eapply Hjob.
Qed.

Lemma rounded_default o o' id :
  rounded o o' -> let m := default (new_MapStatus id) o in let m' := default (new_MapStatus id) o' in
  ActiveVolume m' = ActiveVolume m /\ rounded_time (DrainDeadline m) (DrainDeadline m') /\ ms_Phase m' = ms_Phase m.
Proof. intros [->| ->]; [by split; [|split; [left|]]|]. destruct o; [by split; [|split; [right|]]|by split; [|split; [left|]]]. Qed.

(** While the loop has done the maps [done]. *)
Record looping (w : World) (J : string -> res Job) (lo hi : Z) (done : list (nat * MapSpec)) (s : RState)
    (h : list kevent) : Prop := {
  lp_spec : Spec (rs_cluster s) = Spec c0;
  lp_meta : (cluster_meta (rs_cluster s)) <| ResourceVersion := "" |>
            = (cluster_meta (w_cluster w)) <| ResourceVersion := "" |>;
  lp_ids : NoDup (ms_ID <$> MapStatuses (Status (rs_cluster s)));
  lp_slug m : m ∈ MapStatuses (Status (rs_cluster s)) -> MapSlug (ms_ID m) ∈ keep_slugs c0 -> ms_ID m ∈ spec_ids;
  lp_done i sp : (i, sp) ∈ done -> map_done w J lo hi i sp (rs_cluster s) h;
  lp_todo sp : sp ∈ Maps (Spec c0) -> sp ∉ (snd <$> done) ->
    rounded (entry (w_cluster w) (map_ID sp)) (entry (rs_cluster s) (map_ID sp)) /\ effects (slug_of sp) h = [];
  lp_calm : (forall i sp, (i, sp) ∈ done -> at_rest w i sp) -> rs_busy s = false }.

(** The maps before and after another one of the spec. *)
Lemma maps_split l1 i sp l2 :
  imap pair (Maps (Spec c0)) = l1 ++ (i, sp) :: l2 ->
  Maps (Spec c0) !! i = Some sp /\ (sp ∉ (snd <$> l1)) /\
  forall sp', sp' ∈ Maps (Spec c0) -> sp' <> sp -> slug_of sp' <> slug_of sp.
Proof.
  intros Heq.
  assert (Hfmap : snd <$> imap pair (Maps (Spec c0)) = Maps (Spec c0)).
  { rewrite fmap_imap. apply list_eq. intros j. rewrite list_lookup_imap. by destruct (_ !! j). }
  assert (Hi : imap pair (Maps (Spec c0)) !! length l1 = Some (i, sp)).
  { rewrite Heq. by apply list_lookup_middle. }
  rewrite list_lookup_imap in Hi. destruct (Maps (Spec c0) !! length l1) as [sp0|] eqn:Hl; [|done].
  cbn in Hi. injection Hi as <- ->.
  assert (Hnd : NoDup (Maps (Spec c0))) by (by eapply NoDup_fmap_1).
  split; [done|]. split.
  - rewrite Heq in Hfmap. rewrite fmap_app, fmap_cons in Hfmap. cbn in Hfmap. rewrite <- Hfmap in Hnd.
    apply NoDup_app in Hnd as (_ & Hnd & _). intros Hin. apply (Hnd _ Hin). by left.
  - intros sp' Hsp' Hne Hslug. apply Hne. apply list_elem_of_lookup in Hsp' as [k Hk].
    assert (k = length l1) as ->; [|congruence].
    eapply (NoDup_lookup _ k (length l1) (slug_of sp) slugs_differ).
    + by rewrite list_lookup_fmap, Hk, <- Hslug.
    + by rewrite list_lookup_fmap, Hl.
Qed.

Lemma looping_settings w J lo hi done s h :
  same_settings c0 (w_cluster w) -> looping w J lo hi done s h -> same_settings c0 (rs_cluster s).
Proof.
  intros (_ & H2 & H3 & H4) [H1 Hm _ _ _ _ _]. unfold cluster_name, cluster_ns in *.
  split_and!; [done|..].
  - apply (f_equal Name) in Hm. cbn in Hm. unfold cluster_name. congruence.
  - apply (f_equal Namespace) in Hm. cbn in Hm. unfold cluster_ns. congruence.
  - apply (f_equal Annotations) in Hm. cbn in Hm. congruence.
Qed.

Lemma EnsureMapStatus_ids c id :
  ms_ID <$> MapStatuses (Status (EnsureMapStatus c id).2) = ms_ID <$> MapStatuses (Status c) \/
  (id ∉ ms_ID <$> MapStatuses (Status c)) /\
  ms_ID <$> MapStatuses (Status (EnsureMapStatus c id).2) = (ms_ID <$> MapStatuses (Status c)) ++ [id].
Proof.
  unfold EnsureMapStatus. destruct (find_status _ _) as [[]|] eqn:Hf; [by left|right]. cbn.
  rewrite fmap_app. split; [|done]. intros (m & Hid & Hm)%list_elem_of_fmap.
  apply list_find_None in Hf. rewrite Forall_forall in Hf. by apply (Hf m Hm).
Qed.

Lemma map_done_keep w J lo hi i sp c c' h h' :
  map_done w J lo hi i sp c h -> rounded (entry c (map_ID sp)) (entry c' (map_ID sp)) ->
  effects (slug_of sp) h' = effects (slug_of sp) h -> map_done w J lo hi i sp c' h'.
Proof.
  intros (m1 & m' & ev & b0 & b & H1 & H2 & H3 & H4) He Hev. exists m1, m', ev, b0, b.
  split_and!; [done|by etrans|congruence|done].
Qed.

(** A map at rest does not keep the reconcile busy. *)
Lemma rest_calm w J lo hi i sp busy0 mid m1 m' busy ev :
  sound w -> Maps (Spec c0) !! i = Some sp -> at_rest w i sp -> prepared (old_entry w sp) m1 ->
  passed J lo hi sp c0 (wanted_hash i sp) (w_pods w (slug_of sp)) busy0 mid m1 m' busy ev ->
  busy = busy0 /\ ms_Phase m' = MapPhaseRunning.
Proof.
  intros Hsound Hi (Hw & _ & p & Hp & Hh) Hm1 Hpass.
  destruct Hm1 as (Hv & _). unfold volume_in in *. rewrite <- Hv in Hp, Hh.
  unfold passed in Hpass. rewrite Hp, decide_True in Hpass by done.
  pose proof (findActivePod_cases (w_pods w (slug_of sp)) (wanted_hash i sp (ActiveVolume m1))) as Hc.
  rewrite Hp in Hc. destruct Hc as (Hin & Ht & _).
  assert (Hready : podReady p = true).
  { eapply (sound_pods w Hsound); [exact Hi|done|done| |done]. unfold volume_in. by rewrite <- Hv. }
  destruct Hpass as (_ & _ & Hpass). by rewrite Hready in Hpass.
Qed.

Lemma wp_looping w J lo hi r ctx l1 i sp l2 s h :
  same_settings c0 (w_cluster w) -> sound w -> (forall name, answers (w_jobs w name) (J name)) ->
  imap pair (Maps (Spec c0)) = l1 ++ (i, sp) :: l2 -> looping w J lo hi l1 s h ->
  wp (answer w J lo hi) free (reconcileMap r ctx sp i (mid_flight (w_cluster w)) s)
    (fun x h' => x.1 = Ok tt /\ looping w J lo hi (l1 ++ [(i, sp)]) x.2 h') h.
Proof.
  intros Hset Hsound HJ Hsplit Hl. pose proof (looping_settings _ _ _ _ _ _ _ Hset Hl) as Hset'.
  destruct (maps_split _ _ _ _ Hsplit) as (Hi & Hnot & Hother).
  assert (Hsp : sp ∈ Maps (Spec c0)) by by eapply list_elem_of_lookup_2.
  destruct (lp_todo _ _ _ _ _ _ _ Hl sp Hsp Hnot) as [Hentry Heff].
  set (m0 := default (new_MapStatus (map_ID sp)) (entry (rs_cluster s) (map_ID sp))).
  assert (Hold : ActiveVolume m0 = ActiveVolume (old_entry w sp) /\
    rounded_time (DrainDeadline (old_entry w sp)) (DrainDeadline m0) /\ ms_Phase m0 = ms_Phase (old_entry w sp)).
  { by apply rounded_default. }
  eapply wp_mono; [|apply (wp_coop_map (answer w J lo hi) J lo hi sp i c0 sizes (wanted_hash i sp)
    (w_pods w (slug_of sp))) with (j := w_jobs w)]; [|intros; by apply wp_wanted| |done|done|].
  2: { intros h1 ns sel got Hgot Hsel. cbn in Hgot. by rewrite Hsel in Hgot. }
  2: { intros p Hp Ht Hh. fold m0 in Hh. rewrite (proj1 Hold) in Hh. by eapply (sound_pods w Hsound i sp). }
  intros x h' [Hok Hspec Hmeta Hothers Hids (got & m1 & m' & ev & Hprep & He & Hadds & Hpass)].
  assert (Hprep' : prepared (old_entry w sp) m1).
  { destruct (addressed_fields (rs_cluster s) (map_ID sp) i got m0 eq_refl) as (Hv & Hd & Hph).
    rewrite <- Hprep in Hv, Hd, Hph. destruct Hold as (Ho1 & Ho2 & Ho3). unfold prepared.
    rewrite Hv, Hd, Hph, Ho1, Ho3. done. }
  assert (Hconc : concerns (slug_of sp) ev).
  { eapply passed_concerns; [|exact Hpass]. intros p. apply (sound_label w Hsound). }
  assert (Hids' : ms_ID <$> MapStatuses (Status (rs_cluster x.2)) = ms_ID <$> MapStatuses (Status (rs_cluster s)) \/
    (map_ID sp ∉ (ms_ID <$> MapStatuses (Status (rs_cluster s)))) /\
    ms_ID <$> MapStatuses (Status (rs_cluster x.2)) = (ms_ID <$> MapStatuses (Status (rs_cluster s))) ++ [map_ID sp]).
  { rewrite Hids. apply EnsureMapStatus_ids. }
  split; [done|]. split.
  - rewrite Hspec. apply Hl.
  - etrans; [exact Hmeta|apply Hl].
  - destruct Hids' as [->|[Hnew ->]]; [apply Hl|]. apply NoDup_app. split; [apply Hl|].
    split; [|apply NoDup_singleton]. intros y Hy ->%list_elem_of_singleton. done.
  - intros m Hm Hk.
    assert (Hin : ms_ID m ∈ (ms_ID <$> MapStatuses (Status (rs_cluster x.2)))) by by apply list_elem_of_fmap_2.
    assert (Hin' : ms_ID m ∈ (ms_ID <$> MapStatuses (Status (rs_cluster s))) \/ ms_ID m = map_ID sp).
    { destruct Hids' as [Heq|[_ Heq]]; rewrite Heq in Hin; [by left|].
      apply elem_of_app in Hin as [Hin|Hin]; [by left|]. apply list_elem_of_singleton in Hin. by right. }
    destruct Hin' as [Hin'| ->]; [|by apply list_elem_of_fmap_2].
    apply list_elem_of_fmap in Hin' as (m2 & Heq & Hm2).
    rewrite Heq in Hk |- *. by apply (lp_slug _ _ _ _ _ _ _ Hl).
  - intros i' sp' [Hin|Hin]%elem_of_app.
    + assert (Hsp' : sp' ∈ (snd <$> l1)) by (by apply (list_elem_of_fmap_2 snd _ (i', sp'))).
      assert (Hne : sp' <> sp) by (intros ->; done).
      assert (Hmap' : sp' ∈ Maps (Spec c0)).
      { assert (H : (i', sp') ∈ imap pair (Maps (Spec c0))) by (rewrite Hsplit; apply elem_of_app; by left).
        apply elem_of_lookup_imap_1 in H as (k & y & [= -> ->] & Hk). by eapply list_elem_of_lookup_2. }
      specialize (Hother _ Hmap' Hne). eapply map_done_keep; [by eapply (lp_done _ _ _ _ _ _ _ Hl)|..].
      * apply Hothers. intros Hid. apply Hother. by rewrite Hid.
      * rewrite (Hadds (slug_of sp')), (concerns_other _ _ _ Hconc) by done. by rewrite app_nil_r.
    + apply list_elem_of_singleton in Hin as [= -> ->]. exists m1, m', ev, (rs_busy s), (rs_busy x.2).
      split_and!; [done|left; exact He| |done]. by rewrite (Hadds (slug_of sp)), Heff, (concerns_own _ _ Hconc).
  - intros sp' Hsp' Hnin. rewrite fmap_app, not_elem_of_app in Hnin. destruct Hnin as [Hn1 Hn2].
    assert (Hne : sp' <> sp) by (intros ->; apply Hn2; by left).
    specialize (Hother _ Hsp' Hne). destruct (lp_todo _ _ _ _ _ _ _ Hl sp' Hsp' Hn1) as [He' Hf'].
    split; [etrans; [exact He'|]; apply Hothers; intros Hid; apply Hother; by rewrite Hid|].
    by rewrite (Hadds (slug_of sp')), (concerns_other _ _ _ Hconc), app_nil_r.
  - intros Hrest.
    assert (Hb : rs_busy s = false).
    { apply (lp_calm _ _ _ _ _ _ _ Hl). intros i' sp' Hin. apply Hrest. apply elem_of_app. by left. }
    destruct (rest_calm w J lo hi i sp (rs_busy s) (mid_flight (w_cluster w)) m1 m' (rs_busy x.2) ev) as [-> _];
      [done|done| |done|done|done].
    apply Hrest, elem_of_app. right. by left.
Qed.

(** ** The whole reconcile *)

(** What a reconcile leaves: the stored cluster [c'], after the calls [h]. *)
Record reconciled (w : World) (J : string -> res Job) (lo hi : Z) (res : res Result) (c' : ArkCluster)
    (h : list kevent) : Prop := {
  rc_stored : stored_after (w_cluster w) h = c';
  rc_spec : Spec c' = Spec c0;
  rc_meta : (cluster_meta c') <| ResourceVersion := "" |> = (cluster_meta (w_cluster w)) <| ResourceVersion := "" |>;
  rc_orderly : orderly c';
  rc_pruned m : m ∈ MapStatuses (Status c') -> ms_ID m ∈ spec_ids;
  rc_maps i sp : Maps (Spec c0) !! i = Some sp -> map_done w J lo hi i sp c' h;
  rc_result : (forall i sp, Maps (Spec c0) !! i = Some sp -> at_rest w i sp) ->
    res = Ok (requeue_after requeueSteady) }.

Lemma keep_slugs_spec sp : sp ∈ Maps (Spec c0) -> slug_of sp ∈ keep_slugs c0.
Proof.
  intros Hin. unfold keep_slugs. apply elem_of_list_to_set, list_elem_of_fmap. by exists sp.
Qed.

(** Garbage collection has no effect on the maps of the spec. *)
Lemma wp_gc (rely : list kevent -> forall c, resp c -> Prop) c (Q : res unit -> list kevent -> Prop) h :
  Spec c = Spec c0 ->
  (forall h', (forall slug, slug ∈ keep_slugs c0 -> effects slug h' = effects slug h) -> Q (Ok tt) h') ->
  wp rely free (gcOrphanedMaps c (keep_slugs c)) Q h.
Proof.
  intros Hs HQ. assert (Hk : keep_slugs c = keep_slugs c0) by (unfold keep_slugs; by rewrite Hs).
  apply (wp_exec_intro _ _ (fun c' => is_read c' \/ exists k o, c' = Delete k o None /\ orphan c k o));
    [apply emits_gcOrphanedMaps|done|].
  intros tr res Hex Htr. assert (res = Ok tt) as ->.
  { unfold gcOrphanedMaps in Hex. exec_inv. by repeat match goal with H : exec _ _ _ |- _ => clear H end. }
  apply HQ. intros slug Hslug. rewrite effects_app, (effects_none slug tr); [by rewrite app_nil_r|].
  intros e He. destruct (Htr e He) as [Hr|(k & o & -> & Ho)]; [by destruct (ev_call e)|].
  destruct k; try done. cbn in Ho |- *. rewrite Hk in Ho. unfold orphan_slug in Ho. to_prop.
  fold (map_label (pod_meta o)) in *. congruence.
Qed.

(** The last write of a reconcile. *)
Lemma reconciled_end w J lo hi s h h1 v :
  looping w J lo hi (imap pair (Maps (Spec c0))) s h ->
  (forall slug, slug ∈ keep_slugs c0 -> effects slug h1 = effects slug h) ->
  let c1 := summarize (keep_slugs (rs_cluster s)) (rs_cluster s) in
  reconciled w J lo hi (Ok (requeue_after (if rs_busy s then requeueBusy else requeueSteady)))
    (with_version (Ok v) c1) (h1 ++ [Ev (StatusUpdate c1) (Ok v)]).
Proof.
  intros Hl Hh1 c1. pose proof (lp_spec _ _ _ _ _ _ _ Hl) as Hs.
  assert (Hk : keep_slugs (rs_cluster s) = keep_slugs c0) by (unfold keep_slugs; by rewrite Hs).
  assert (Hpruned : forall m, m ∈ MapStatuses (Status (with_version (Ok v) c1)) ->
    exists m0, ms_ID m = ms_ID m0 /\ m0 ∈ MapStatuses (Status (rs_cluster s)) /\ ms_ID m0 ∈ spec_ids).
  { intros m (m0 & -> & Hm)%list_elem_of_fmap. exists m0. cbn in Hm. rewrite Hk in Hm.
    apply filter_bool_in in Hm as [Hm Hslug]. split; [done|]. split; [done|].
    apply bool_decide_eq_true in Hslug. by apply (lp_slug _ _ _ _ _ _ _ Hl). }
  split.
  - unfold stored_after. by rewrite foldl_app.
  - exact Hs.
  - etrans; [|apply Hl]. done.
  - split; [|intros m (m0 & -> & _ & ?)%Hpruned _; done].
    change (NoDup (ms_ID <$> (wire_map <$> MapStatuses (Status c1)))). rewrite wire_ids. eapply (sublist_NoDup _ (ms_ID <$> MapStatuses (Status (rs_cluster s)))); [apply Hl|].
    cbn. clear. induction (MapStatuses _) as [|m l IH]; cbn; [done|].
    destruct (bool_decide _); cbn; by constructor.
  - by intros m (m0 & -> & _ & ?)%Hpruned.
  - intros i sp Hi. assert (Hsp : sp ∈ Maps (Spec c0)) by by eapply list_elem_of_lookup_2.
    eapply map_done_keep; [eapply (lp_done _ _ _ _ _ _ _ Hl)|..].
    + apply list_elem_of_lookup. exists i. by rewrite list_lookup_imap, Hi.
    + right. transitivity (entry (wire c1) (map_ID sp)); [done|]. rewrite wire_entry. unfold c1.
      rewrite summarize_entry, bool_decide_eq_true_2; [done|]. rewrite Hk. by apply keep_slugs_spec.
    + rewrite effects_app, Hh1 by by apply keep_slugs_spec. by rewrite app_nil_r.
  - intros Hrest. rewrite (lp_calm _ _ _ _ _ _ _ Hl); [done|].
    intros i sp Hin. apply elem_of_lookup_imap_1 in Hin as (k & y & [= -> ->] & Hk'). by apply Hrest.
Qed.

Lemma wp_reconcile_coop w J lo hi r ctx h :
  same_settings c0 (w_cluster w) -> orderly (w_cluster w) -> sound w ->
  (forall name, answers (w_jobs w name) (J name)) -> (forall slug, effects slug h = []) ->
  wp (answer w J lo hi) free (reconcile_cluster r ctx (MkRState (w_cluster w) false))
    (fun x h' => reconciled w J lo hi x.1 (rs_cluster x.2) h') h.
Proof.
  intros Hset [Hord1 Hord2] Hsound HJ Heff.
  assert (H0 : forall h, (forall slug, effects slug h = []) -> looping w J lo hi [] (MkRState (w_cluster w) false) h).
  { intros h0 Hh0. split; try done.
    - apply Hset.
    - intros i sp ?%elem_of_nil. done. }
  assert (Hmaps : Spec (rs_cluster (MkRState (w_cluster w) false)) = Spec c0) by apply Hset.
  assert (Hset0 : same_settings c0 (rs_cluster (MkRState (w_cluster w) false))) by done.
  assert (Hmid : mid_flight (rs_cluster (MkRState (w_cluster w) false)) = mid_flight (w_cluster w)) by done.
  revert H0 Hmaps Hset0 Hmid. generalize (MkRState (w_cluster w) false). intros s H0 Hmaps Hset0 Hmid.
  unfold reconcile_cluster. repeat m_step.
  apply (succeeds_EnsureAdminPasswordSecret (answer w J lo hi) c0 sizes _ Hset0). intros h1 Hh1. repeat m_step.
  apply (succeeds_EnsureClusterPVC (answer w J lo hi) c0 sizes _ Hset0). intros h2 Hh2. repeat m_step.
  assert (Heff2 : forall slug, effects slug h2 = []).
  { intros slug. by rewrite (adds_then Hh1 Hh2 slug), Heff. }
  rewrite Hmaps, Hmid. clear Hset0 Hmid Hmaps.
  eapply wp_mono; [|apply (wp_m_for_ok _ _ _ _ (looping w J lo hi) []); [|by apply H0]].
  2: { intros l1 [i sp] l2 s' h' Hsplit Hl. by eapply wp_looping. }
  clear s H0 h h1 h2 Hh1 Hh2 Heff Heff2. intros [x s] h [Hx Hl]. cbn in Hx, Hl. subst x. cbn [fst snd]. repeat m_step.
  apply wp_gc; [apply Hl|]. intros h1 Hh1. repeat m_step.
  unfold status_update. cbn [bind do_call]. apply wp_act; [done|]. intros u [v ->]. repeat m_step. cbn [res_map].
  m_step. by apply (reconciled_end w J lo hi s h h1).
Qed.
End World.
