(* ===== verification/Progress.v ===== *)
(** * An update ends

    [rollUpdate] is called again and again, once in every reconcile.  In a world that cooperates (the
    API server stores what it is sent, the install job ends, the clock goes on) the passes of an
    update come to an end: the volumes are swapped and a pod is created on the other one. *)

From S2P Require Import Prelude GoStd Effects ApiTypes Kube Ark Status Resources Workload Rcon Finalizer Controller ControllerSafety ControllerFlows Cooperate.

Local Open Scope prog_scope.

(** ** Eventually

    [step s Q]: whatever the world does, the step from [s] ends in a state of [Q]. *)
Section Eventually.
Context {State : Type} (step : State -> (State -> Prop) -> Prop).

Inductive eventually (P : State -> Prop) (s : State) : Prop :=
  | eventually_now : P s -> eventually P s
  | eventually_later mid : step s mid -> (forall s', mid s' -> eventually P s') -> eventually P s.

Lemma eventually_step P s : step s (eventually P) -> eventually P s.
Proof. intros H. by eapply eventually_later. Qed.

(** A measure that every step decreases until the end. *)
Lemma eventually_measure {X} (measure : X -> nat) (Inv : X -> State -> Prop) P :
  (forall x s, Inv x s -> step s (fun s' => P s' \/ exists x', Inv x' s' /\ (measure x' < measure x)%nat)) ->
  forall x s, Inv x s -> eventually P s.
Proof.
  intros Hstep x. induction x as [x IH] using (induction_ltof1 _ measure). intros s Hinv.
  eapply eventually_later; [by apply (Hstep x)|]. intros s' [HP|(x' & Hinv' & Hlt)].
  - by apply eventually_now.
  - by apply (IH x').
Qed.
End Eventually.

(** ** A world that cooperates *)

(** The answers of one pass: the install job is [J], writes succeed, the clock is between [lo] and [hi]. *)
Definition coop (J : res Job) (lo hi : Z) (h : list kevent) (c : call) : resp c -> Prop :=
  match c return resp c -> Prop with
  | Get k _ _ =>
      match k return res (obj k) -> Prop with
      | KindJob => fun r => r = J
      | _ => fun _ => True
      end
  | StatusUpdate _ => fun u => exists v, u = Ok v
  | Create _ _ => fun r => r = Ok tt
  | Now => fun now => lo <= now <= hi
  | _ => fun _ => True
  end.

#[export] Instance coop_Cooperative J lo hi : Cooperative (coop J lo hi) (fun _ => J) lo hi.
Proof. by split. Qed.

Definition creates_any_job (e : kevent) : bool :=
  match ev_call e with Create KindJob _ => true | _ => false end.

(** A pod was created on the volume. *)
Definition created_on (volume : string) (tr : list kevent) : Prop :=
  exists p, (Ev (Create KindPod p) (Ok tt) : kevent) ∈ tr /\
    Labels (pod_meta p) !! "ark.watteel.com/active-volume" = Some volume.

Definition swapped_on (m : MapStatus) (tr : list kevent) (m' : MapStatus) : Prop :=
  ActiveVolume m' = otherSide (ActiveVolume m) /\ DrainDeadline m' = None /\
  created_on (otherSide (ActiveVolume m)) tr.

(** ** The passes of an update *)

Lemma coop_answers J lo hi h c : lo <= hi -> exists r, coop J lo hi h c r.
Proof.
  intros Hle. set (no := Error ReasonNotFound "").
  destruct c as [k ns name|k|k|k|o|o| | |k| | | | | | | | |]; cbn;
    try (by exists tt); try (by exists (Ok tt)); try (by eexists (Err no));
    try (by exists ("", None)); try (by exists (RequestError no)).
  - destruct k; try (by exists (Err no)). by exists J.
  - exists (Ok ""). by exists "".
  - exists lo. lia.
Qed.

(** Between two passes: what the reconciler holds (the status is stored at the end of the
    reconcile and read at the start of the next one), the install job, the time; and the calls of
    the pass before. *)
Record PassState := MkPassState {
  ps_state : RState; ps_job : install; ps_now : Z; ps_trace : list kevent }.

Section Update.
Context {L : K8sLib} {HL : K8sLaws L}.
Variables (ctx : context) (mapSpec : MapSpec) (i ms : nat) (pod : Pod).
(** An install job takes [K] passes; two passes are at least [wait] apart. *)
Variables (K : nat) (wait : Z).

(** A pass: it can be run to its end, and every run of it against the world ends in [Q]. *)
Definition roll_step (st : PassState) (Q : PassState -> Prop) : Prop :=
  (exists J, answers (ps_job st) J) /\
  (forall J hi world pass,
    answers (ps_job st) J -> ps_now st + wait <= hi ->
    world = admits (coop J (ps_now st + wait) hi) [] ->
    pass = rollUpdate ctx mapSpec i ms pod (ps_state st) ->
    (exists tr x, exec pass tr x /\ world tr) /\
    (forall tr x, exec pass tr x -> world tr ->
      Q (MkPassState x.2 (next_install K (existsb creates_any_job tr) (ps_job st)) hi tr))).

Definition updated (m : MapStatus) (st : PassState) : Prop :=
  exists m', at_map (rs_cluster (ps_state st)) (map_ID mapSpec) ms m' /\
    swapped_on m (ps_trace st) m'.

Definition updating (m : MapStatus) (grace : Z) (n : nat) (st : PassState) : Prop :=
  exists m', at_map (rs_cluster (ps_state st)) (map_ID mapSpec) ms m' /\
    ActiveVolume m' = ActiveVolume m /\ grace_of (rs_cluster (ps_state st)) = grace /\
    n = (job_passes K (ps_job st) + drain_passes grace (ps_now st) (DrainDeadline m'))%nat.

Lemma updating_step m grace n st :
  0 < wait -> updating m grace n st ->
  roll_step st (fun st' => updated m st' \/ exists n', updating m grace n' st' /\ (n' < n)%nat).
Proof using All.
  intros Hw (m1 & Hm1 & Ha & Hg & ->). split; [by eexists; apply install_answers|].
  intros J hi ? ? HJ Hhi -> ->. split.
  { apply admits_total. intros h c. by apply coop_answers. }
  intros tr [r s'] Hex Hadm. set (c0 := rs_cluster (ps_state st)) in *.
  assert (Hhash : forall c volume (Q : string -> list kevent -> Prop) h, same_settings c0 c ->
    (forall hash h', adds h h' [] -> True -> Q hash h') ->
    wp (coop J (ps_now st + wait) hi) free (computePodHash c mapSpec i volume) Q h).
  { intros c v Q h _ HQ. eapply (wp_quiet _ is_read); [apply emits_computePodHash|by intros []|]. auto. }
  pose proof (wp_roll_pass _ (fun _ => J) _ _ mapSpec i ms c0 (fun _ _ => True) Hhash ctx pod (ps_state st) m1
    (ps_job st) [] ltac:(done) Hm1 HJ) as Hwp.
  destruct (wp_exec _ _ _ _ _ _ _ Hwp Hex Hadm) as [(_ & Hf & m' & ev & Hm' & Hadds & _ & Hcase) _].
  cbn in Hf, Hm'. assert (Hin : forall e sl, e ∈ ev -> effect_slug (ev_call e) = Some sl -> e ∈ tr)
    by (intros e sl; by apply adds_in).
  destruct Hcase as [Hadv|(Hv & Hd & del & e & hash & -> & _ & _ & p & -> & _ & _ & Hp)].
  - right. rewrite <- Hg.
    assert (Hcr : forall e, e ∈ ev -> creates_job mapSpec
      (InitJobName c0 (map_ID mapSpec) (volumeSide (otherSide (ActiveVolume m1)))) e -> existsb creates_any_job tr = true).
    { intros e He (job & -> & _). apply existsb_exists.
      exists (Ev (Create KindJob job) (Ok tt)). split; [|done]. apply list_elem_of_In. by eapply Hin. }
    eexists. split; [|by eapply (passes_decrease (fun _ => J) mapSpec c0 K wait)]. exists m'. split_and!.
    + exact Hm'.
    + destruct Hadv as [-> _]. exact Ha.
    + cbn. unfold grace_of. by destruct Hf as (-> & _).
    + done.
  - left. exists m'. split; [done|]. unfold swapped_on. rewrite <- Ha. split; [done|]. split; [done|].
    exists p. split; [|done]. eapply Hin; [apply in_snoc|done].
Qed.
End Update.

(** C5: an update ends.  In a world in which writes are stored, the install job of the other
    volume succeeds after [K] looks at it and the clock advances between two passes, the passes of
    [rollUpdate], each starting from the status the one before left, reach the swap: whatever
    the world answers to the rest (the game server need not answer at all), from any state of the
    job and of the drain, the entry ends up on the other volume, with no deadline left, and a pod
    labelled with that volume was created. *)
Theorem update_ends {L : K8sLib} {HL : K8sLaws L} ctx mapSpec i ms pod K wait m st :
  0 < wait ->
  at_map (rs_cluster (ps_state st)) (map_ID mapSpec) ms m ->
  eventually (roll_step ctx mapSpec i ms pod K wait) (updated mapSpec ms m) st.
Proof.
  intros Hw Hm.
  eapply (eventually_measure _ (fun n => n) (updating mapSpec ms K m (grace_of (rs_cluster (ps_state st))))).
  - intros n st' Hup. by apply updating_step.
  - by exists m.
Qed.

(** From an entry that has not been touched, without an install job. *)
Definition fresh_entry : MapStatus := (new_MapStatus "TheIsland_WP") <| ActiveVolume := "server-a" |>.
Definition fresh_pass : PassState :=
  MkPassState (MkRState (on_maps (fun _ => [fresh_entry]) demo_cluster) false) NoJob 0 [].

Lemma update_ends_witness :
  eventually (roll_step (L := demo_lib) None island 0 0 old_pod 3 30) (updated island 0 fresh_entry) fresh_pass.
Proof.
  by apply (update_ends (HL := demo_laws)).
Defined.
