(* ===== verification/Converge.v ===== *)
(** * A cluster converges

    In a world that cooperates every governed cluster comes to run: each map on a ready pod of the
    wanted version, and the operator at rest.  Governed is a cluster that is not being deleted,
    with one status entry per map and none of another id that goes by the slug of a map of the
    spec.  A measure of what is left to do decreases with every reconcile. *)

From S2P Require Import Prelude GoStd Effects ApiTypes Kube Ark Status Ini Resources Workload Rcon Finalizer Controller ControllerSafety ControllerFlows MapPass Life Progress Cooperate CoopPass World.

Local Open Scope prog_scope.

Definition creates_named (name : string) (e : kevent) : bool :=
  match ev_call e with Create KindJob job => String.eqb (Name (job_meta job)) name | _ => false end.
Definition creates_for (slug : string) (e : kevent) : bool :=
  match ev_call e with Create KindPod p => String.eqb (map_label (pod_meta p)) slug | _ => false end.

(** Sums over the maps of a cluster. *)
Lemma sum_imap_le (f g : nat -> MapSpec -> nat) l :
  (forall i s, l !! i = Some s -> (f i s <= g i s)%nat) -> (sum_list (imap f l) <= sum_list (imap g l))%nat.
Proof.
  revert f g. induction l as [|s l IH]; intros f g H; cbn; [done|].
  pose proof (H O s eq_refl). pose proof (IH (f ∘ S) (g ∘ S) (fun i => H (S i))). cbn in *. lia.
Qed.

Lemma sum_imap_lt (f g : nat -> MapSpec -> nat) l i s :
  (forall i s, l !! i = Some s -> (f i s <= g i s)%nat) -> l !! i = Some s -> (f i s < g i s)%nat ->
  (sum_list (imap f l) < sum_list (imap g l))%nat.
Proof.
  revert f g i. induction l as [|y l IH]; intros f g [|i] H Hi Hlt; cbn in Hi |- *; try done.
  - injection Hi as ->. pose proof (sum_imap_le (f ∘ S) (g ∘ S) l (fun j => H (S j))). cbn in *. lia.
  - pose proof (H O y eq_refl). pose proof (IH (f ∘ S) (g ∘ S) i (fun j => H (S j)) Hi Hlt). cbn in *. lia.
Qed.

Lemma sum_imap_zero (f : nat -> MapSpec -> nat) l :
  sum_list (imap f l) = O <-> forall i s, l !! i = Some s -> f i s = O.
Proof.
  split.
  - revert f. induction l as [|y l IH]; intros f H [|i] s Hi; cbn in Hi, H; try done.
    + injection Hi as ->. lia.
    + apply (IH (f ∘ S)); [cbn in *; lia|done].
  - revert f. induction l as [|y l IH]; intros f H; cbn; [done|]. rewrite (H O y eq_refl).
    apply (IH (f ∘ S)). intros i s. apply (H (S i)).
Qed.

Section Converge.
Context {L : K8sLib} {HL : K8sLaws L}.
Variables (c0 : ArkCluster) (cms : string -> res ConfigMap) (secs : string -> res Secret).
Hypothesis sizes : sizes_parse c0.
Hypothesis slugs_differ : NoDup ((fun s => MapSlug (map_ID s)) <$> Maps (Spec c0)).
(** An install job takes [K] reconciles and a pod [R] to get ready; two reconciles are at least [wait] apart. *)
Variables (K R : nat) (wait : Z).
Hypothesis wait_pos : 0 < wait.
Variables (rec : ArkClusterReconciler) (ctx : context) (ns name : string).
#[local] Set Default Proof Using "All".

Abbreviation slug_of s := (MapSlug (map_ID s)).
Abbreviation spec_ids := (map_ID <$> Maps (Spec c0)).
Abbreviation answer := (answer c0 cms secs).
Abbreviation sound := (sound c0 cms secs).
Abbreviation wanted_hash := (wanted_hash c0 cms secs).

(** ** What a reconcile makes of the world *)

(** Pods stay unless they were told to go, those that were created appear, and no others; jobs and
    pods are nearer to their end; the pods of the wanted version behave as [sound] says. *)
Record next (w : World) (tr : list kevent) (x : res Result) (hi : Z) (w' : World) : Prop := {
  nx_cluster : w_cluster w' = stored_after (w_cluster w) tr;
  nx_jobs n : w_jobs w' n = next_install K (existsb (creates_named n) tr) (w_jobs w n);
  nx_warm slug : w_warm w' slug = if existsb (creates_for slug) tr then R else pred (w_warm w slug);
  nx_now : w_now w' = hi;
  nx_result : w_result w' = x;
  nx_stay slug p : p ∈ w_pods w slug -> terminating p = false ->
    (forall g a, (Ev (Delete KindPod p g) a : kevent) ∉ tr) ->
    exists p', p' ∈ w_pods w' slug /\ terminating p' = false /\ pod_hash p' = pod_hash p;
  nx_new p : (Ev (Create KindPod p) (Ok tt) : kevent) ∈ tr ->
    exists p', p' ∈ w_pods w' (map_label (pod_meta p)) /\ terminating p' = false /\ pod_hash p' = pod_hash p;
  nx_from slug p' : p' ∈ w_pods w' slug -> terminating p' = false ->
    (exists p, p ∈ w_pods w slug /\ terminating p = false /\ pod_hash p = pod_hash p') \/
    (exists p, (Ev (Create KindPod p) (Ok tt) : kevent) ∈ tr /\ map_label (pod_meta p) = slug /\
       pod_hash p = pod_hash p');
  nx_sound : sound w' }.

(** One reconcile: it can be run, the world can go on, and wherever it goes, [Q] holds. *)
Definition world_step (w : World) (Q : World -> Prop) : Prop :=
  (exists J, forall n, answers (w_jobs w n) (J n)) /\
  (forall J hi, (forall n, answers (w_jobs w n) (J n)) -> w_now w + wait <= hi ->
    let run := Reconcile rec ctx ns name in
    let world := admits (answer w J (w_now w + wait) hi) [] in
    (exists tr x, exec run tr x /\ world tr) /\
    (forall tr x, exec run tr x -> world tr ->
       (exists w', next w tr x hi w') /\ forall w', next w tr x hi w' -> Q w')).

(** ** What is left to do *)

Definition map_left (w : World) (i : nat) (s : MapSpec) : nat :=
  let v := volume_in w s in
  match findActivePod (w_pods w (slug_of s)) (wanted_hash i s v) with
  | None => R + 3 + job_passes K (w_jobs w (InitJobName c0 (map_ID s) (volumeSide v)))
  | Some p =>
      if decide (pod_hash p = wanted_hash i s v) then
        if decide (w_warm w (slug_of s) = O /\ ms_Phase (old_entry w s) = MapPhaseRunning) then O
        else S (w_warm w (slug_of s))
      else R + 3 + job_passes K (w_jobs w (InitJobName c0 (map_ID s) (volumeSide (otherSide v))))
             + drain_passes (grace_of c0) (w_now w) (DrainDeadline (old_entry w s))
  end.

Lemma left_rest w i s : map_left w i s = O <-> at_rest c0 cms secs w i s.
Proof.
  unfold map_left, at_rest. destruct (findActivePod _ _) as [p|].
  - destruct (decide (pod_hash p = _)) as [Hh|Hh].
    + destruct (decide (_ /\ _)) as [[H1 H2]|Hn].
      * split; [|done]. intros _. split; [done|]. split; [done|]. by exists p.
      * split; [done|]. intros (H1 & H2 & _). by destruct Hn.
    + split; [lia|]. intros (_ & _ & q & [= ->] & Hq). done.
  - split; [lia|]. by intros (_ & _ & q & ? & _).
Qed.

(** Whether some pod that is not terminating has the hash, or any at all. *)
Lemma find_matched pods hash p :
  p ∈ pods -> terminating p = false -> pod_hash p = hash ->
  exists q, findActivePod pods hash = Some q /\ pod_hash q = hash.
Proof.
  intros Hp Ht Hh. pose proof (findActivePod_cases pods hash) as Hc.
  destruct (findActivePod pods hash) as [q|].
  - exists q. split; [done|]. destruct Hc as (_ & _ & [Hq|Hno]); [done|]. by destruct (Hno p).
  - by rewrite (Hc p Hp) in Ht.
Qed.

Lemma find_none pods hash : (forall p, p ∈ pods -> terminating p = true) -> findActivePod pods hash = None.
Proof.
  intros Hall. pose proof (findActivePod_cases pods hash) as Hc. destruct (findActivePod pods hash) as [q|]; [|done].
  destruct Hc as (Hq & Ht & _). by rewrite (Hall q Hq) in Ht.
Qed.

Lemma find_unmatched pods hash p :
  p ∈ pods -> terminating p = false -> (forall q, q ∈ pods -> terminating q = false -> pod_hash q <> hash) ->
  exists q, findActivePod pods hash = Some q /\ pod_hash q <> hash.
Proof.
  intros Hp Ht Hno. pose proof (findActivePod_cases pods hash) as Hc. destruct (findActivePod pods hash) as [q|].
  - exists q. split; [done|]. destruct Hc as (Hq & Htq & _). by apply Hno.
  - by rewrite (Hc p Hp) in Ht.
Qed.

(** ** How a reconcile brings a map further *)

Lemma volume_or_a_again v : volume_or_a (volume_or_a v) = volume_or_a v.
Proof. unfold volume_or_a. destruct (String.eqb v "") eqn:E; [done|by rewrite E]. Qed.
Lemma volume_or_a_other v : volume_or_a (otherSide v) = otherSide v.
Proof. unfold volume_or_a, otherSide. by destruct (String.eqb v "server-a"). Qed.

Lemma creates_for_effects slug tr : existsb (creates_for slug) tr = existsb (creates_for slug) (effects slug tr).
Proof.
  induction tr as [|[c a] tr IH]; [done|]. cbn. case_bool_decide as Hs.
  - cbn. by rewrite IH.
  - rewrite IH. replace (creates_for slug (Ev c a)) with false; [done|]. symmetry.
    destruct c as [| |[] o| | | | | | | | | | | | | | |]; try done. unfold creates_for. cbn. apply String.eqb_neq.
    intros <-. by apply Hs.
Qed.

Lemma creates_named_effects slug n j a tr :
  (Ev (Create KindJob j) a : kevent) ∈ effects slug tr -> Name (job_meta j) = n ->
  existsb (creates_named n) tr = true.
Proof.
  intros [Hin _]%effects_in <-. apply existsb_exists. exists (Ev (Create KindJob j) a).
  split; [by apply list_elem_of_In|]. apply String.eqb_refl.
Qed.

(** A reconcile that creates and deletes no pod of the map. *)
Definition jobs_only (ev : list kevent) : Prop :=
  forall e, e ∈ ev -> exists j a, e = Ev (Create KindJob j) a.

Lemma next_same w tr x hi w' slug :
  sound w -> next w tr x hi w' -> jobs_only (effects slug tr) ->
  w_warm w' slug = pred (w_warm w slug) /\
  (forall p, p ∈ w_pods w slug -> terminating p = false ->
     exists p', p' ∈ w_pods w' slug /\ terminating p' = false /\ pod_hash p' = pod_hash p) /\
  (forall p', p' ∈ w_pods w' slug -> terminating p' = false ->
     exists p, p ∈ w_pods w slug /\ terminating p = false /\ pod_hash p = pod_hash p').
Proof.
  intros Hsound Hn Hjobs. split_and!.
  - rewrite (nx_warm _ _ _ _ _ Hn), creates_for_effects. replace (existsb _ _) with false; [done|].
    symmetry. apply not_true_iff_false. intros (e & He & Hc)%existsb_exists. apply list_elem_of_In in He.
    destruct (Hjobs e He) as (j & a & ->). done.
  - intros p Hp Ht. apply (nx_stay _ _ _ _ _ Hn); [done..|]. intros g a Hin.
    destruct (Hjobs (Ev (Delete KindPod p g) a)) as (j & a' & Heq); [|by apply (f_equal ev_call) in Heq].
    apply effects_in. split; [done|]. cbn. by rewrite (sound_label _ _ _ _ Hsound _ _ Hp).
  - intros p' Hp' Ht. destruct (nx_from _ _ _ _ _ Hn slug p' Hp' Ht) as [?|(p & Hin & Hl & _)]; [done|].
    destruct (Hjobs (Ev (Create KindPod p) (Ok tt))) as (j & a' & Heq); [|by apply (f_equal ev_call) in Heq].
    apply effects_in. split; [done|]. cbn. by rewrite Hl.
Qed.

Lemma jobs_only_nil : jobs_only [].
Proof. by intros e ?%elem_of_nil. Qed.
Lemma jobs_only_one s n e : creates_job s n e -> jobs_only [e].
Proof. intros (j & -> & _) e' ->%list_elem_of_singleton. by eexists _, _. Qed.

(** A pod of the wanted version was created for the map. *)
Lemma next_created w tr x hi w' i s v e :
  next w tr x hi w' -> e ∈ effects (slug_of s) tr -> creates_pod s v (wanted_hash i s v) e ->
  volume_in w' s = v -> (map_left w' i s <= S R)%nat.
Proof.
  intros Hn Hin (p & -> & Hl & Hh & _) Hv. pose proof Hin as [Htr _]%effects_in.
  destruct (nx_new _ _ _ _ _ Hn p Htr) as (p' & Hp' & Ht & Hh'). rewrite Hl in Hp'.
  unfold map_left. rewrite Hv. destruct (find_matched _ (wanted_hash i s v) _ Hp' Ht) as (q & -> & Hq); [congruence|].
  rewrite decide_True by done. destruct (decide _); [lia|].
  rewrite (nx_warm _ _ _ _ _ Hn), creates_for_effects.
  replace (existsb (creates_for (slug_of s)) (effects (slug_of s) tr)) with true; [lia|]. symmetry.
  apply existsb_exists. eexists. split; [by apply list_elem_of_In|]. unfold creates_for. cbn. rewrite Hl. apply String.eqb_refl.
Qed.

(** What is left of a map without a pod, with one of the wanted version, with one of another. *)
Lemma left_none w i s v : volume_in w s = v ->
  (forall p, p ∈ w_pods w (slug_of s) -> terminating p = true) ->
  map_left w i s = (R + 3 + job_passes K (w_jobs w (InitJobName c0 (map_ID s) (volumeSide v))))%nat.
Proof. intros <- Hno. unfold map_left. by rewrite find_none. Qed.

Lemma left_matched w i s v p : volume_in w s = v ->
  p ∈ w_pods w (slug_of s) -> terminating p = false -> pod_hash p = wanted_hash i s v ->
  map_left w i s = if decide (w_warm w (slug_of s) = O /\ ms_Phase (old_entry w s) = MapPhaseRunning) then O
                   else S (w_warm w (slug_of s)).
Proof.
  intros <- Hp Ht Hh. unfold map_left. destruct (find_matched _ _ _ Hp Ht Hh) as (q & -> & Hq).
  by rewrite decide_True.
Qed.

Lemma left_unmatched w i s v p : volume_in w s = v ->
  p ∈ w_pods w (slug_of s) -> terminating p = false ->
  (forall q, q ∈ w_pods w (slug_of s) -> terminating q = false -> pod_hash q <> wanted_hash i s v) ->
  map_left w i s = (R + 3 + job_passes K (w_jobs w (InitJobName c0 (map_ID s) (volumeSide (otherSide v))))
             + drain_passes (grace_of c0) (w_now w) (DrainDeadline (old_entry w s)))%nat.
Proof.
  intros <- Hp Ht Hno. unfold map_left. destruct (find_unmatched _ _ _ Hp Ht Hno) as (q & -> & Hq).
  by rewrite decide_False.
Qed.

Section Step.
Variables (w : World) (J : string -> res Job) (hi : Z) (tr : list kevent) (x : res Result) (w' : World).
Variables (i : nat) (s : MapSpec) (m1 m' : MapStatus) (ev : list kevent) (busy : bool).
Hypothesis Hsound : sound w.
Hypothesis HJ : forall n, answers (w_jobs w n) (J n).
Hypothesis Hhi : w_now w + wait <= hi.
Hypothesis Hi : Maps (Spec c0) !! i = Some s.
Hypothesis Hnext : next w tr x hi w'.
Hypothesis Hprep : prepared (old_entry w s) m1.
Hypothesis Hentry : rounded (Some m') (entry (w_cluster w') (map_ID s)).
Hypothesis Hev : effects (slug_of s) tr = ev.
Abbreviation v := (ActiveVolume m1).
Abbreviation the_hash := (fun volume hash => hash = wanted_hash i s volume).
Abbreviation pods := (w_pods w (slug_of s)).
Abbreviation pods' := (w_pods w' (slug_of s)).

Lemma volume_before : volume_in w s = v.
Proof. unfold volume_in. symmetry. apply Hprep. Qed.

Lemma entry_after :
  ActiveVolume (old_entry w' s) = ActiveVolume m' /\ ms_Phase (old_entry w' s) = ms_Phase m' /\
  forall grace now, (drain_passes grace now (DrainDeadline (old_entry w' s)) <= drain_passes grace now (DrainDeadline m'))%nat.
Proof.
  unfold old_entry. destruct Hentry as [-> | ->]; (split; [done|]; split; [done|]); [done|].
  intros. apply drain_passes_stored.
Qed.

Lemma volume_after : ActiveVolume m' = v -> volume_in w' s = v.
Proof.
  intros Hv. unfold volume_in. rewrite (proj1 entry_after), Hv, (proj1 Hprep). apply volume_or_a_again.
Qed.

Lemma jobs_after n : (job_passes K (w_jobs w' n) <= job_passes K (w_jobs w n))%nat.
Proof. rewrite (nx_jobs _ _ _ _ _ Hnext). apply job_passes_le. Qed.

Lemma started_decreases :
  (forall p, p ∈ pods -> terminating p = true) -> started J s c0 the_hash m1 m' busy ev ->
  (map_left w' i s < map_left w i s)%nat.
Proof.
  intros Hnone (Hv & _ & Hst). rewrite (left_none w i s v volume_before Hnone).
  set (n := InitJobName c0 (map_ID s) (volumeSide v)) in *. pose proof (HJ n) as HJn.
  assert (Hstep : jobs_only ev ->
    (job_passes K (w_jobs w' n) < job_passes K (w_jobs w n))%nat ->
    (map_left w' i s < R + 3 + job_passes K (w_jobs w n))%nat).
  { intros Hjobs Hlt. rewrite <- Hev in Hjobs. destruct (next_same _ _ _ _ _ _ Hsound Hnext Hjobs) as (_ & _ & Hfrom).
    rewrite (left_none w' i s v (volume_after Hv)); [fold n; lia|].
    intros p' Hp'. destruct (terminating p') eqn:Ht; [done|].
    destruct (Hfrom p' Hp' Ht) as (p & Hp & Htp & _). by rewrite (Hnone p Hp) in Htp. }
  destruct (J n) as [job|e] eqn:EJ.
  - destruct (decide (job_verdict (job_Conditions job) = "Succeeded")) as [Hvd|Hvd].
    + destruct Hst as (e & hash & He & -> & Hc).
      assert (map_left w' i s <= S R)%nat; [|lia].
      eapply next_created; [exact Hnext| |exact Hc|by apply volume_after]. rewrite Hev, He. by left.
    + destruct (answers_pending _ _ _ HJn eq_refl Hvd) as [k Hk]. apply Hstep; [rewrite Hst; apply jobs_only_nil|].
      rewrite (nx_jobs _ _ _ _ _ Hnext), Hk. cbn. lia.
  - destruct Hst as (e' & He & Hc). pose proof Hc as (job & -> & Hn & _).
    apply Hstep; [rewrite He; by eapply jobs_only_one|].
    destruct (w_jobs w n) as [|[|k]] eqn:Ej; [|by destruct HJn as (? & ? & _)..].
    rewrite (nx_jobs _ _ _ _ _ Hnext), Ej.
    rewrite (creates_named_effects (slug_of s) n job (Ok tt)); [cbn; lia| |done].
    rewrite Hev, He. by left.
Qed.

Lemma kept_decreases p busy0 :
  p ∈ pods -> terminating p = false -> pod_hash p = wanted_hash i s v -> kept p busy0 m1 m' busy ev ->
  map_left w i s = O /\ map_left w' i s = O \/ (map_left w' i s < map_left w i s)%nat.
Proof.
  intros Hp Ht Hh (Hv & He & Hk). assert (Hjobs : jobs_only (effects (slug_of s) tr)).
  { rewrite Hev, He. apply jobs_only_nil. }
  destruct (next_same _ _ _ _ _ _ Hsound Hnext Hjobs) as (Hw & Hstay & _).
  destruct (Hstay p Hp Ht) as (p' & Hp' & Ht' & Hh').
  rewrite (left_matched w i s v p) by (done || apply volume_before).
  rewrite (left_matched w' i s v p') by (done || congruence || by apply volume_after).
  rewrite Hw, (proj1 (proj2 entry_after)). destruct (w_warm w (slug_of s)) as [|k] eqn:Ew; cbn [Nat.pred].
  - assert (Hready : podReady p = true).
    { eapply (sound_pods _ _ _ _ Hsound); [exact Hi|done|done| |done]. by rewrite volume_before. }
    rewrite Hready in Hk. destruct Hk as [_ Hphase]. rewrite (decide_True _ _ (conj eq_refl Hphase)).
    destruct (decide _); [by left|right; lia].
  - right. rewrite (decide_False (P := S k = O /\ _)) by (by intros [? _]). destruct (decide _); lia.
Qed.

(** The deadline and the volume of a map that is held back or updated. *)
Lemma unmatched_after p :
  p ∈ pods -> terminating p = false ->
  (forall q, q ∈ pods -> terminating q = false -> pod_hash q <> wanted_hash i s v) ->
  jobs_only ev -> ActiveVolume m' = v ->
  (R + 3 + job_passes K (w_jobs w (InitJobName c0 (map_ID s) (volumeSide (otherSide v))))
     + drain_passes (grace_of c0) (w_now w) (DrainDeadline m1) <= map_left w i s)%nat /\
  (map_left w' i s <= R + 3 + job_passes K (w_jobs w' (InitJobName c0 (map_ID s) (volumeSide (otherSide v))))
     + drain_passes (grace_of c0) hi (DrainDeadline m'))%nat.
Proof.
  intros Hp Ht Hno Hjobs Hv. rewrite <- Hev in Hjobs.
  destruct (next_same _ _ _ _ _ _ Hsound Hnext Hjobs) as (_ & Hstay & Hfrom).
  destruct (Hstay p Hp Ht) as (p' & Hp' & Ht' & _). split.
  - rewrite (left_unmatched w i s v p) by (done || apply volume_before).
    destruct Hprep as (_ & [-> | ->] & _); [done|]. apply Nat.add_le_mono_l, drain_passes_stored.
  - assert (Hno' : forall q, q ∈ pods' -> terminating q = false -> pod_hash q <> wanted_hash i s v).
    { intros q Hq Htq. destruct (Hfrom q Hq Htq) as (q0 & Hq0 & Ht0 & <-). by apply Hno. }
    rewrite (left_unmatched w' i s v p') by (done || by apply volume_after).
    rewrite (nx_now _ _ _ _ _ Hnext). apply Nat.add_le_mono_l, entry_after.
Qed.

Lemma held_keeps p :
  p ∈ pods -> terminating p = false ->
  (forall q, q ∈ pods -> terminating q = false -> pod_hash q <> wanted_hash i s v) ->
  m' = m1 -> ev = [] -> (map_left w' i s <= map_left w i s)%nat.
Proof.
  intros Hp Ht Hno Hm He. destruct (unmatched_after p) as [Hb Ha]; [done..| |by rewrite Hm|].
  - rewrite He. apply jobs_only_nil.
  - rewrite Hm in Ha. pose proof (jobs_after (InitJobName c0 (map_ID s) (volumeSide (otherSide v)))).
    pose proof (drain_passes_le (grace_of c0) (w_now w) hi (DrainDeadline m1)). lia.
Qed.

Lemma rolled_decreases p :
  p ∈ pods -> terminating p = false ->
  (forall q, q ∈ pods -> terminating q = false -> pod_hash q <> wanted_hash i s v) ->
  rolled J (w_now w + wait) hi s c0 the_hash p m1 m' busy ev -> (map_left w' i s < map_left w i s)%nat.
Proof.
  intros Hp Ht Hno (_ & [Hadv|(Hv & _ & del & e & hash & He & _ & -> & Hc)]).
  - set (n := InitJobName c0 (map_ID s) (volumeSide (otherSide v))) in *.
    assert (Hjobs : jobs_only ev).
    { destruct Hadv as (_ & Hadv). fold n in Hadv. destruct (J n).
      - destruct Hadv as [-> _]. apply jobs_only_nil.
      - destruct Hadv as (_ & e' & -> & Hc). by eapply jobs_only_one. }
    destruct (unmatched_after p) as [Hbefore Hafter]; [done..|by apply Hadv|]. fold n in Hbefore, Hafter.
    rewrite (nx_jobs _ _ _ _ _ Hnext) in Hafter.
    enough (job_passes K (next_install K (existsb (creates_named n) tr) (w_jobs w n))
      + drain_passes (grace_of c0) hi (DrainDeadline m') <
      job_passes K (w_jobs w n) + drain_passes (grace_of c0) (w_now w) (DrainDeadline m1))%nat by lia.
    eapply (passes_decrease J s c0 K wait (w_now w) hi); [done|done|apply HJ| |exact Hadv].
    intros e He (j & -> & Hn & _). eapply creates_named_effects; [rewrite Hev; exact He|exact Hn].
  - assert (map_left w' i s <= S R)%nat.
    { eapply next_created; [exact Hnext| |exact Hc|].
      - rewrite Hev, He. apply elem_of_app. right. by left.
      - unfold volume_in. rewrite (proj1 entry_after), Hv. apply volume_or_a_other. }
    rewrite (left_unmatched w i s v p) by (done || apply volume_before). lia.
Qed.
End Step.

(** With every reconcile less is left of a map, unless it is at rest or held back by another. *)
Lemma map_decreases w J hi tr x w' i s :
  sound w -> (forall n, answers (w_jobs w n) (J n)) -> w_now w + wait <= hi ->
  Maps (Spec c0) !! i = Some s -> next w tr x hi w' ->
  map_done c0 cms secs w J (w_now w + wait) hi i s (w_cluster w') tr ->
  (map_left w' i s <= map_left w i s)%nat /\
  (map_left w i s = O \/ (map_left w' i s < map_left w i s)%nat \/
   mid_flight (w_cluster w) <> "" /\ mid_flight (w_cluster w) <> map_ID s).
Proof.
  intros Hsound HJ Hhi Hi Hnext (m1 & m' & ev & busy0 & busy & Hprep & He & Hev & Hp). unfold passed in Hp.
  pose proof (findActivePod_cases (w_pods w (slug_of s)) (wanted_hash i s (ActiveVolume m1))) as Hc.
  destruct (findActivePod _ _) as [p|].
  - destruct Hc as (Hin & Ht & Hc). destruct (decide (pod_hash p = _)) as [Hh|Hh].
    + destruct (kept_decreases w J hi tr x w' i s m1 m' ev busy Hsound HJ Hhi Hi Hnext Hprep He Hev p busy0) as [[]|];
        [done..|lia|lia].
    + destruct Hc as [Hc|Hc]; [done|]. destruct (decide (_ \/ _)) as [Hmid|Hmid].
      * pose proof (rolled_decreases w J hi tr x w' i s m1 m' ev busy Hsound HJ Hhi Hi Hnext Hprep He Hev p Hin Ht Hc Hp). lia.
      * destruct Hp as (Hm & _ & Hev0).
        pose proof (held_keeps w J hi tr x w' i s m1 m' ev busy Hsound HJ Hhi Hi Hnext Hprep He Hev p Hin Ht Hc Hm Hev0).
        split; [lia|]. right. right. tauto.
  - pose proof (started_decreases w J hi tr x w' i s m1 m' ev busy Hsound HJ Hhi Hi Hnext Hprep He Hev Hc Hp). lia.
Qed.

(** ** How a reconcile brings the cluster further *)

(** A stored cluster with the settings of [c0] that is not being deleted. *)
Record governed (w : World) : Prop := {
  gov_settings : same_settings c0 (w_cluster w);
  gov_alive : DeletionTimestamp (cluster_meta (w_cluster w)) = None;
  gov_orderly : orderly c0 (w_cluster w);
  gov_sound : sound w }.

Abbreviation finalized w := (finalizer_Name ∈ Finalizers (cluster_meta (w_cluster w))).
Abbreviation pruned w := (Forall (fun m => ms_ID m ∈ spec_ids) (MapStatuses (Status (w_cluster w)))).

Definition maps_left (w : World) : nat := sum_list (imap (map_left w) (Maps (Spec c0))).
Definition total_left (w : World) : nat :=
  (if decide (finalized w) then O else 1) + (if decide (pruned w) then O else 1) + maps_left w.

(** A reconcile that does not touch the map. *)
Lemma idle_keeps w tr x hi w' i s :
  sound w -> w_now w <= hi -> next w tr x hi w' -> effects (slug_of s) tr = [] ->
  old_entry w' s = old_entry w s -> (map_left w' i s <= map_left w i s)%nat.
Proof.
  intros Hsound Hhi Hn Heff He.
  assert (Hv : volume_in w' s = volume_in w s) by (unfold volume_in; by rewrite He).
  assert (Hjobs : jobs_only (effects (slug_of s) tr)) by (rewrite Heff; apply jobs_only_nil).
  destruct (next_same _ _ _ _ _ _ Hsound Hn Hjobs) as (Hw & Hstay & Hfrom).
  assert (Hj : forall n, (job_passes K (w_jobs w' n) <= job_passes K (w_jobs w n))%nat).
  { intros n. rewrite (nx_jobs _ _ _ _ _ Hn). apply job_passes_le. }
  unfold map_left at 2.
  pose proof (findActivePod_cases (w_pods w (slug_of s)) (wanted_hash i s (volume_in w s))) as Hc.
  destruct (findActivePod _ _) as [p|].
  - destruct Hc as (Hp & Ht & Hc). destruct (Hstay p Hp Ht) as (p' & Hp' & Ht' & Hh').
    destruct (decide (pod_hash p = _)) as [Hh|Hh].
    + rewrite (left_matched w' i s (volume_in w s) p') by (done || congruence). rewrite Hw, He.
      destruct (decide (w_warm w (slug_of s) = O /\ _)) as [[Hw0 Hrun]|_].
      * rewrite Hw0. cbn [Nat.pred]. by rewrite (decide_True _ _ (conj eq_refl Hrun)).
      * destruct (decide _); lia.
    + destruct Hc as [Hc|Hc]; [done|].
      rewrite (left_unmatched w' i s (volume_in w s) p'); [|done..|].
      * rewrite He, (nx_now _ _ _ _ _ Hn). specialize (Hj (InitJobName c0 (map_ID s) (volumeSide (otherSide (volume_in w s))))).
        pose proof (drain_passes_le (grace_of c0) (w_now w) hi (DrainDeadline (old_entry w s))). lia.
      * intros q Hq Htq. destruct (Hfrom q Hq Htq) as (q0 & Hq0 & Ht0 & <-). by apply Hc.
  - rewrite (left_none w' i s (volume_in w s)); [|done|].
    + specialize (Hj (InitJobName c0 (map_ID s) (volumeSide (volume_in w s)))). lia.
    + intros q Hq. destruct (terminating q) eqn:Htq; [done|].
      destruct (Hfrom q Hq Htq) as (q0 & Hq0 & Ht0 & _). by rewrite (Hc q0 Hq0) in Ht0.
Qed.

(** The map that holds the others back is not at rest. *)
Lemma mid_flight_left w :
  orderly c0 (w_cluster w) -> pruned w -> mid_flight (w_cluster w) <> "" ->
  exists i s, Maps (Spec c0) !! i = Some s /\ map_ID s = mid_flight (w_cluster w) /\ map_left w i s <> O.
Proof.
  intros [Honce _] Hpruned Hmid. unfold mid_flight in *. destruct (decide _); [done|].
  destruct (List.find _ _) as [m|] eqn:Hf; [|done]. apply List.find_some in Hf as [Hin Hphase].
  apply list_elem_of_In in Hin. rewrite Forall_forall in Hpruned.
  pose proof (Hpruned m Hin) as (s & Hid & Hs)%list_elem_of_fmap. apply list_elem_of_lookup in Hs as [i Hi].
  exists i, s. split; [done|]. split; [done|]. rewrite left_rest. intros (_ & Hrun & _).
  assert (He : old_entry w s = m); [|by rewrite He in Hrun; rewrite Hrun in Hphase].
  unfold old_entry, entry. rewrite <- Hid.
  assert (Hgo : snd <$> find_status (MapStatuses (Status (w_cluster w))) (ms_ID m) = Some m); [|by rewrite Hgo].
  unfold find_status. apply list_elem_of_lookup in Hin as [k Hk].
  assert (Hfind : list_find (fun m0 => ms_ID m0 = ms_ID m) (MapStatuses (Status (w_cluster w))) = Some (k, m)); [|by rewrite Hfind].
  apply list_find_Some. split_and!; [done|done|]. intros j y Hj Hlt Heq.
  assert (j = k); [|lia]. eapply (NoDup_lookup _ j k (ms_ID m) Honce);
    rewrite list_lookup_fmap; [rewrite Hj; cbn; by rewrite Heq|by rewrite Hk].
Qed.

(** *** The calls of a whole reconcile *)

Lemma wp_Reconcile_coop w J lo hi :
  governed w -> (forall n, answers (w_jobs w n) (J n)) ->
  wp (answer w J lo hi) free (Reconcile rec ctx ns name)
    (fun x h =>
      if decide (finalized w)
      then exists c', reconciled c0 cms secs w J lo hi x c' h
      else exists c', stored_after (w_cluster w) h = c' /\ Spec c' = Spec c0 /\
        (cluster_meta c') <| Finalizers := [] |> = (cluster_meta (w_cluster w)) <| Finalizers := [] |> /\
        Status c' = Status (w_cluster w) /\ finalizer_Name ∈ Finalizers (cluster_meta c') /\
        forall slug, effects slug h = []) [].
Proof.
  intros [Hset Halive Hord Hsound] HJ. unfold Reconcile. cbn [bind do_call]. apply wp_act; [done|].
  intros got ->. rewrite Halive. unfold Ensure. destruct (decide (finalized w)) as [Hfin|Hfin].
  - rewrite (proj2 (ContainsFinalizer_spec _ _) Hfin). cbn [bind]. apply wp_seq.
    eapply wp_mono; [|by apply wp_reconcile_coop].
    intros [x s] h Hr. apply wp_ret. by exists (rs_cluster s).
  - destruct (ContainsFinalizer _ _) eqn:Hc; [by apply ContainsFinalizer_spec in Hc|].
    cbn [bind do_call]. apply wp_act; [done|]. intros u ->. apply wp_ret.
    eexists. split; [done|]. split; [apply Hset|]. split; [done|]. split; [done|].
    split; [cbn; apply AddFinalizer_spec; by left|done].
Qed.

Lemma meta_settings c c' : same_settings c0 c ->
  Spec c' = Spec c0 -> Name (cluster_meta c') = Name (cluster_meta c) ->
  Namespace (cluster_meta c') = Namespace (cluster_meta c) ->
  Annotations (cluster_meta c') = Annotations (cluster_meta c) -> same_settings c0 c'.
Proof.
  intros (_ & H2 & H3 & H4) Hs Hn Hns Ha. unfold cluster_name, cluster_ns in *.
  split_and!; [done|unfold cluster_name; congruence|unfold cluster_ns; congruence|congruence].
Qed.

(** One reconcile of a governed cluster. *)
Lemma governed_next w J tr x hi w' :
  governed w -> (forall n, answers (w_jobs w n) (J n)) -> w_now w + wait <= hi ->
  exec (Reconcile rec ctx ns name) tr x -> admits (answer w J (w_now w + wait) hi) [] tr -> next w tr x hi w' ->
  governed w' /\
  (total_left w = O -> total_left w' = O /\ x = Ok (requeue_after requeueSteady)) /\
  (total_left w <> O -> total_left w' < total_left w)%nat.
Proof.
  intros Hg HJ Hhi Hex Hadm Hn. pose proof Hg as [Hset Halive Hord Hsound].
  destruct (wp_exec _ _ _ _ _ _ _ (wp_Reconcile_coop w J (w_now w + wait) hi Hg HJ) Hex Hadm) as [Hpost _].
  cbn [app] in Hpost. destruct (decide (finalized w)) as [Hfin|Hfin].
  - destruct Hpost as (c' & Hr). rewrite <- (rc_stored _ _ _ _ _ _ _ _ _ _ Hr), <- (nx_cluster _ _ _ _ _ Hn) in Hr.
    destruct Hr as [_ Hs Hm Hord' Hpr Hmaps Hres].
    assert (Hfin' : finalized w').
    { apply (f_equal Finalizers) in Hm. cbn in Hm. by rewrite Hm. }
    assert (Hpr' : pruned w') by (apply Forall_forall; exact Hpr).
    assert (Hall : forall i s, Maps (Spec c0) !! i = Some s ->
      (map_left w' i s <= map_left w i s)%nat /\
      (map_left w i s = O \/ (map_left w' i s < map_left w i s)%nat \/
       mid_flight (w_cluster w) <> "" /\ mid_flight (w_cluster w) <> map_ID s)).
    { intros i s Hi. eapply map_decreases; [done|exact HJ|done|done|exact Hn|by apply Hmaps]. }
    assert (Hle : (maps_left w' <= maps_left w)%nat) by (apply sum_imap_le; intros; by apply Hall).
    split.
    { split; [|by apply (f_equal DeletionTimestamp) in Hm; cbn in Hm; rewrite Hm|done|by eapply nx_sound].
      eapply meta_settings; [exact Hset|done|..].
      - by apply (f_equal Name) in Hm.
      - by apply (f_equal Namespace) in Hm.
      - by apply (f_equal Annotations) in Hm. }
    unfold total_left. rewrite (decide_True _ _ Hfin), (decide_True _ _ Hfin'), (decide_True _ _ Hpr').
    split.
    + intros Hz. destruct (decide (pruned w)); [|lia]. split; [lia|]. apply Hres. intros i s Hi. apply left_rest.
      apply (proj1 (sum_imap_zero _ _)) with (i := i) (s := s) in Hz; done.
    + intros Hnz. destruct (decide (pruned w)) as [Hp|Hp]; [|lia].
      assert (Hstrict : exists i s, Maps (Spec c0) !! i = Some s /\ (map_left w' i s < map_left w i s)%nat).
      { destruct (decide (mid_flight (w_cluster w) = "")) as [Hmid|Hmid].
        - destruct (decide (Forall (fun p => map_left w p.1 p.2 = O) (imap pair (Maps (Spec c0))))) as [Hz|Hz].
          + destruct Hnz. cbn. apply sum_imap_zero. intros i s Hi. rewrite Forall_forall in Hz.
            apply (Hz (i, s)). apply list_elem_of_lookup. exists i. by rewrite list_lookup_imap, Hi.
          + apply not_Forall_Exists in Hz; [|apply _]. apply Exists_exists in Hz as ([i s] & Hin & Hne).
            apply elem_of_lookup_imap_1 in Hin as (k & y & [= -> ->] & Hk). exists k, y. split; [done|].
            destruct (Hall k y Hk) as [_ [H|[H|[H _]]]]; done.
        - destruct (mid_flight_left w Hord Hp Hmid) as (i & s & Hi & Hid & Hne). exists i, s. split; [done|].
          destruct (Hall i s Hi) as [_ [H|[H|[_ H]]]]; done. }
      destruct Hstrict as (i & s & Hi & Hlt).
      pose proof (sum_imap_lt (map_left w') (map_left w) _ i s (fun i s Hi => proj1 (Hall i s Hi)) Hi Hlt). cbn. done.
  - destruct Hpost as (c' & Hst & Hs & Hm & Hstat & Hfin' & Heff). rewrite <- (nx_cluster _ _ _ _ _ Hn) in Hst.
    subst c'.
    assert (Hle : (maps_left w' <= maps_left w)%nat).
    { apply sum_imap_le. intros i s Hi. eapply idle_keeps; [done| |exact Hn|apply Heff|]; [lia|].
      unfold old_entry, entry. by rewrite Hstat. }
    split.
    { split; [|by apply (f_equal DeletionTimestamp) in Hm; cbn in Hm; rewrite Hm| |by eapply nx_sound].
      - eapply meta_settings; [exact Hset|done|..].
        + by apply (f_equal Name) in Hm.
        + by apply (f_equal Namespace) in Hm.
        + by apply (f_equal Annotations) in Hm.
      - destruct Hord. split; by rewrite Hstat. }
    unfold total_left. rewrite (decide_False _ _ Hfin), (decide_True _ _ Hfin'), Hstat.
    split; [lia|]. intros _. destruct (decide _); lia.
Qed.

(** *** The world can go on *)

Lemma admits_in (rely : list kevent -> forall c, resp c -> Prop) h tr c a :
  admits rely h tr -> (Ev c a : kevent) ∈ tr -> exists h', rely h' c a.
Proof.
  intros Ha (tr1 & tr2 & ->)%list_elem_of_split. revert h Ha.
  induction tr1 as [|[c' a'] tr1 IH]; intros h; cbn.
  - intros [Hr _]. by exists h.
  - intros [_ Ha]. by eapply IH.
Qed.

(** A pod that runs and is ready. *)
Definition ready_pod (p : Pod) : Pod :=
  MkPod ((pod_meta p) <| DeletionTimestamp := None |>) (pod_Spec p)
    (MkPodStatus [MkPodCondition "Ready" "True"] []).
Definition created_pods (slug : string) (tr : list kevent) : list Pod :=
  omap (fun e => match ev_call e with
    | Create KindPod p => if String.eqb (map_label (pod_meta p)) slug then Some p else None
    | _ => None
    end) tr.

Lemma created_pods_in slug tr p :
  p ∈ created_pods slug tr <-> map_label (pod_meta p) = slug /\ exists a, (Ev (Create KindPod p) a : kevent) ∈ tr.
Proof.
  unfold created_pods. rewrite list_elem_of_omap. split.
  - intros ([c a] & Hin & He). destruct c as [| |[] o| | | | | | | | | | | | | | |]; try done. cbn in He.
    destruct (String.eqb_spec (map_label (pod_meta o)) slug); [|done]. injection He as ->. split; [done|]. by exists a.
  - intros (<- & a & Hin). exists (Ev (Create KindPod p) a). split; [done|]. cbn. by rewrite String.eqb_refl.
Qed.

Lemma next_exists w J tr x hi :
  sound w -> admits (answer w J (w_now w + wait) hi) [] tr -> exists w', next w tr x hi w'.
Proof.
  intros Hsound Hadm.
  set (survivors slug := List.filter (fun p => negb (terminating p)) (w_pods w slug)).
  exists (MkWorld (stored_after (w_cluster w) tr)
    (fun slug => map ready_pod (survivors slug ++ created_pods slug tr))
    (fun n => next_install K (existsb (creates_named n) tr) (w_jobs w n))
    (fun slug => if existsb (creates_for slug) tr then R else pred (w_warm w slug)) hi x).
  assert (Hin : forall slug p, p ∈ map ready_pod (survivors slug ++ created_pods slug tr) <->
    exists q, p = ready_pod q /\ ((q ∈ w_pods w slug /\ terminating q = false) \/ q ∈ created_pods slug tr)).
  { intros slug p. rewrite list_elem_of_fmap. setoid_rewrite elem_of_app. unfold survivors.
    setoid_rewrite filter_bool_in. setoid_rewrite negb_true_iff. naive_solver. }
  assert (Hlab : forall q, map_label (pod_meta (ready_pod q)) = map_label (pod_meta q)) by done.
  split; try done; cbn [w_pods].
  - intros slug p Hp Ht _. exists (ready_pod p). split; [|done]. apply Hin. exists p. auto.
  - intros p Hp. exists (ready_pod p). split; [|done]. apply Hin. exists p. split; [done|]. right.
    apply created_pods_in. split; [done|]. by eexists.
  - intros slug p' Hp' _. apply Hin in Hp' as (q & -> & [[Hq Ht]|Hq]); [left; by exists q|right].
    apply created_pods_in in Hq as (Hl & a & Hq). exists q. split; [|done].
    destruct (admits_in _ _ _ _ _ Hadm Hq) as (h & Ha). cbn in Ha. by rewrite <- Ha.
  - split; cbn [w_pods].
    + intros slug p (q & -> & Hq)%Hin. rewrite Hlab. destruct Hq as [[Hq _]|Hq].
      * by apply (sound_label _ _ _ _ Hsound).
      * by apply created_pods_in in Hq as [? _].
    + intros i s p _ (q & -> & _)%Hin _ _. split; [|done]. by intros now (cs & rest & last & ? & _).
Qed.

(** Every call can be answered. *)
Definition blank (k : kind) : obj k :=
  let m := new_meta "" (cluster_ns c0) ∅ in
  match k return obj k with
  | KindCluster => demo_cluster <| cluster_meta := m |>
  | KindPod => MkPod m (MkPodSpec RestartPolicyAlways None None ∅ [] [] []) (MkPodStatus [] [])
  | KindService => MkKService m ServiceTypeUnset ∅ [] TrafficPolicyUnset "" []
  | KindPVC => MkPVC m [] None None
  | KindConfigMap => MkConfigMap m ∅
  | KindSecret => MkSecret m ∅ ""
  | KindJob => MkJob m 0 0 (MkPodSpec RestartPolicyAlways None None ∅ [] [] []) []
  end.

Lemma answer_total w J lo hi h c : lo <= hi -> exists a, answer w J lo hi h c a.
Proof.
  intros Hle. set (no := Error ReasonNotFound "").
  destruct c as [k n0 n1|k n0 sel|k o|k o g|o|o|o1 o2|k o|k o| | |n0| | | | | |]; cbn;
    try (by exists tt); try (by exists (Ok tt)); try (by eexists (Err no));
    try (by exists ("", None)); try (by exists (RequestError no)).
  - destruct k; try (by exists (Err no)); by eexists.
  - destruct k; try (by exists (Err no)). destruct (sel !! _); [by eexists|by exists (Err no)].
  - exists (Ok ""). by exists "".
  - exists (Ok (blank k)), (blank k). split; [done|]. intros c m' _ Hns Hns' Hm. apply SetControllerReference_fresh; [rewrite Hns', Hns|rewrite Hm]; by destruct k.
  - exists lo. lia.
  - exists (Ok []). by exists [].
Qed.

(** ** The theorem *)

(** Every map runs on a ready pod of the wanted version. *)
Definition converged (w : World) : Prop :=
  finalized w /\ forall i s, Maps (Spec c0) !! i = Some s ->
    exists m p, entry (w_cluster w) (map_ID s) = Some m /\ ms_Phase m = MapPhaseRunning /\
      p ∈ w_pods w (slug_of s) /\ terminating p = false /\ podReady p = true /\
      pod_hash p = wanted_hash i s (volume_or_a (ActiveVolume m)).

(** It is, and stays so, and every reconcile comes back in five minutes only. *)
Definition converged_for_good (w : World) : Prop :=
  exists Good : World -> Prop, Good w /\ forall w1, Good w1 -> converged w1 /\
    world_step w1 (fun w2 => Good w2 /\ w_result w2 = Ok (requeue_after requeueSteady)).

Lemma zero_converged w : governed w -> total_left w = O -> converged w.
Proof.
  intros [_ _ _ Hsound] Hz. unfold total_left in Hz. destruct (decide (finalized w)) as [Hf|]; [|lia].
  split; [done|]. intros i s Hi. destruct (decide (pruned w)); [|lia].
  apply (proj1 (sum_imap_zero _ _)) with (i := i) (s := s) in Hz; [|done].
  apply left_rest in Hz as (Hw & Hrun & p & Hp & Hh).
  pose proof (findActivePod_cases (w_pods w (slug_of s)) (wanted_hash i s (volume_in w s))) as Hc. rewrite Hp in Hc.
  destruct Hc as (Hin & Ht & _). destruct (sound_pods _ _ _ _ Hsound i s p Hi Hin Ht Hh) as [_ Hready].
  unfold old_entry in Hrun. destruct (entry (w_cluster w) (map_ID s)) as [m|] eqn:He; [|done].
  exists m, p. split_and!; auto. unfold volume_in, old_entry in Hh. by rewrite He in Hh.
Qed.

Lemma governed_step w : governed w ->
  world_step w (fun w' => governed w' /\
    (total_left w = O -> total_left w' = O /\ w_result w' = Ok (requeue_after requeueSteady)) /\
    (total_left w <> O -> total_left w' < total_left w)%nat).
Proof.
  intros Hg. split; [exists (fun n => install_answer (w_jobs w n)); intros; apply install_answers|].
  intros J hi HJ Hhi run world. split.
  { apply admits_total. intros h c. apply answer_total. lia. }
  intros tr x Hex Hadm. split; [eapply next_exists; [apply Hg|exact Hadm]|].
  intros w' Hn. rewrite (nx_result _ _ _ _ _ Hn). by eapply governed_next.
Qed.

Lemma world_step_mono w (Q Q' : World -> Prop) :
  (forall w', Q w' -> Q' w') -> world_step w Q -> world_step w Q'.
Proof.
  intros HQ [Hans Hs]. split; [exact Hans|]. intros J hi HJ Hhi. destruct (Hs J hi HJ Hhi) as [Hrun Hnext]. split; [done|].
  intros tr x Hex Hadm. destruct (Hnext tr x Hex Hadm) as [Hex' Hq]. split; [done|]. auto.
Qed.

Lemma governed_eventually w : governed w -> eventually world_step converged_for_good w.
Proof.
  intros Hg. eapply (eventually_measure _ (fun n => n) (fun n w => governed w /\ n = total_left w)); [|by split].
  intros n w1 [Hg1 ->].
  assert (Hgood : forall w2, governed w2 -> total_left w2 = O -> converged_for_good w2).
  { intros w2 Hg2 Hz. exists (fun w => governed w /\ total_left w = O). split; [done|].
    intros w3 [Hg3 Hz3]. split; [by apply zero_converged|].
    eapply world_step_mono; [|by apply governed_step]. cbn. intros w4 (Hg4 & H4 & _).
    by destruct (H4 Hz3). }
  eapply world_step_mono; [|by apply governed_step]. cbn. intros w2 (Hg2 & H0 & Hlt).
  destruct (decide (total_left w1 = O)) as [Hz|Hz].
  - left. destruct (H0 Hz). by apply Hgood.
  - right. exists (total_left w2). auto.
Qed.
End Converge.

(** C4: a governed cluster converges.  Take a stored cluster that is not being deleted, the sizes of
    whose storage are quantities, whose maps have distinct slugs, and whose status has at most one
    entry per id and no entry of an id outside the spec that goes by the slug of a map of the spec
    ([Scenarios.renamed_entry_blocks] is a cluster with such an entry that does not converge);
    otherwise it is in any state: any number of maps, either rollout policy, any phases, volumes
    and deadlines, any pods and install jobs, any orphans.  Let the world cooperate: its reconciles are
    [wait] apart, writes are stored, an install job succeeds after [K] reconciles, the pods that
    were created appear and stay until they are deleted, a pod of the wanted version does not
    crash and is ready after [R] reconciles; the game servers need not answer.  Then, however the
    answers are chosen, after finitely many runs of [Reconcile] the finalizer is there and every
    map is [Running] on a ready pod of the wanted version; and from then on it stays so, and every
    reconcile asks to come back in five minutes only. *)
Theorem cluster_converges {L : K8sLib} {HL : K8sLaws L} c0 cms secs K R wait rec ctx ns name w :
  sizes_parse c0 -> NoDup ((fun s => MapSlug (map_ID s)) <$> Maps (Spec c0)) -> 0 < wait ->
  governed c0 cms secs w ->
  eventually (world_step c0 cms secs K R wait rec ctx ns name)
    (converged_for_good c0 cms secs K R wait rec ctx ns name) w.
Proof. intros Hsizes Hslugs Hwait Hg. by apply governed_eventually. Qed.

(** Two maps, one with a pod of an earlier spec, in the middle of its drain, one without a pod; the
    status still has the entry of a map that was removed. *)
Definition worn_cluster : ArkCluster :=
  on_maps (fun _ => [(new_MapStatus "Ragnarok_WP") <| ms_Phase := MapPhaseSwapping |>;
                     (new_MapStatus "TheIsland_WP") <| ActiveVolume := "server-a" |> <| DrainDeadline := Some (90 * Second) |>
                       <| ms_Phase := MapPhaseDrainingActive |>])
    (demo_cluster <| Spec ::= fun sp => sp <| Maps := [island; MkMapSpec "Aberration_WP" [] None None] |> |>).
Definition worn_world : World :=
  MkWorld worn_cluster (fun slug => if String.eqb slug "island" then [old_pod] else []) (fun _ => NoJob) (fun _ => O) 0
    (Ok (requeue_after requeueBusy)).

Definition not_there {A} (_ : string) : res A := Err (Error ReasonNotFound "").

Lemma cluster_converges_witness :
  governed worn_cluster not_there not_there worn_world /\
  eventually (world_step (L := demo_lib) worn_cluster not_there not_there 3 2 (30 * Second) (MkArkClusterReconciler true) None "ns" "c")
    (converged_for_good (L := demo_lib) worn_cluster not_there not_there 3 2 (30 * Second) (MkArkClusterReconciler true) None "ns" "c")
    worn_world.
Proof.
  assert (Hg : governed worn_cluster not_there not_there worn_world).
  { split; [done|done| |].
    - split; [by apply (bool_decide_unpack _); vm_compute|].
      intros m [->|[->|Hm%elem_of_nil]%elem_of_cons]%elem_of_cons Hslug; [|by left|done].
      exfalso. revert Hslug. by apply (bool_decide_unpack _); vm_compute.
    - assert (Hpods : forall slug p, p ∈ w_pods worn_world slug -> p = old_pod /\ slug = "island").
      { intros slug p Hp. cbn in Hp. destruct (String.eqb_spec slug "island"); [|by apply elem_of_nil in Hp].
        by apply list_elem_of_singleton in Hp. }
      split.
      + intros slug p [-> ->]%Hpods. reflexivity.
      + intros i s p Hi [-> Hs]%Hpods _ Hh. exfalso. revert Hh.
        destruct i as [|[|i]]; [| |done]; injection Hi as <-.
        * by apply (bool_decide_unpack _); vm_compute.
        * revert Hs. by apply (bool_decide_unpack _); vm_compute. }
  split; [exact Hg|].
  apply (cluster_converges (HL := demo_laws)); [| |done|exact Hg].
  - intros size Hsize. repeat (apply elem_of_cons in Hsize as [->|Hsize]; [by eexists|]). by apply elem_of_nil in Hsize.
  - by apply (bool_decide_unpack _); vm_compute.
Defined.
