(* ===== verification/Flag.v ===== *)
(** * Go's flag package

    What the command line of the operator uses of [flag]: [StringVar], [BoolVar] and [Parse] on a
    flag set with [ExitOnError].  A flag set is generic in the variables it sets. *)

From S2P Require Import Prelude GoStd.

(** [strconv.ParseBool]. *)
Definition ParseBool (s : string) : option bool :=
  if existsb (String.eqb s) ["1"; "t"; "T"; "true"; "TRUE"; "True"] then Some true
  else if existsb (String.eqb s) ["0"; "f"; "F"; "false"; "FALSE"; "False"] then Some false
  else None.

(** The registered flags: whether a name is one, and whether it is boolean; and [Set], which may
    refuse a value. *)
Record FlagSet (V : Type) := MkFlagSet {
  formal : string -> option bool;
  set_flag : string -> string -> V -> option V }.
Arguments MkFlagSet {V}.
Arguments formal {V}.
Arguments set_flag {V}.

(** A registered variable: whether it is boolean, and how it is set. *)
Record Var (V : Type) := MkVar { is_bool : bool; set_var : string -> V -> option V }.
Arguments MkVar {V}.
Arguments is_bool {V}.
Arguments set_var {V}.

Definition StringVar {V} (set : string -> V -> V) : Var V := MkVar false (fun s v => Some (set s v)).
Definition BoolVar {V} (set : bool -> V -> V) : Var V :=
  MkVar true (fun s v => (fun b => set b v) <$> ParseBool s).

(** Looks a name up in the registered variables. *)
Fixpoint lookup_var {V} (vars : list (string * Var V)) (name : string) : option (Var V) :=
  match vars with
  | [] => None
  | (n, x) :: vars => if String.eqb name n then Some x else lookup_var vars name
  end.

(** How [Parse] ends: with the variables set and the arguments left, with the usage shown, or
    with an error. *)
Inductive parsed (V : Type) := Parsed (v : V) (rest : list string) | Usage | BadFlag.
Arguments Parsed {V}.
Arguments Usage {V}.
Arguments BadFlag {V}.

(** [name=value] split at the first [=] after the first byte. *)
Fixpoint cut_value (s : string) : string * option string :=
  match s with
  | EmptyString => ("", None)
  | String c s =>
      if Ascii.eqb c "="%char then ("", Some s)
      else let '(name, value) := cut_value s in (String c name, value)
  end.

(** What an argument is: no flag, the terminator [--], a malformed flag, or a flag. *)
Inductive arg := NoFlag | Terminator | Malformed | Flag (name : string) (value : option string).

Definition classify (s : string) : arg :=
  match s with
  | String c0 (String c1 s2 as s1) =>
      if negb (Ascii.eqb c0 "-"%char) then NoFlag
      else
        let name := if Ascii.eqb c1 "-"%char then s2 else s1 in
        match name with
        | EmptyString => Terminator
        | String c _ =>
            if Ascii.eqb c "-"%char || Ascii.eqb c "="%char then Malformed
            else let '(name, value) := cut_value name in Flag name value
        end
  | _ => NoFlag
  end.

Section Parse.
Context {V : Type} (fs : FlagSet V).

Fixpoint Parse (args : list string) (v : V) : parsed V :=
  match args with
  | [] => Parsed v []
  | s :: args' =>
      match classify s with
      | NoFlag => Parsed v args
      | Terminator => Parsed v args'
      | Malformed => BadFlag
      | Flag name value =>
          match formal fs name with
          | None => if String.eqb name "help" || String.eqb name "h" then Usage else BadFlag
          | Some true =>
              match set_flag fs name (default "true" value) v with
              | Some v => Parse args' v
              | None => BadFlag
              end
          | Some false =>
              match value, args' with
              | Some x, _ =>
                  match set_flag fs name x v with
                  | Some v => Parse args' v
                  | None => BadFlag
                  end
              | None, x :: args'' =>
                  match set_flag fs name x v with
                  | Some v => Parse args'' v
                  | None => BadFlag
                  end
              | None, [] => BadFlag
              end
          end
      end
  end.

(** The argument that sets a flag. *)
Definition assign (name value : string) : string := "--" +:+ name +:+ "=" +:+ value.

(** A name the package can parse. *)
Definition flag_name (name : string) : Prop :=
  match name with
  | EmptyString => False
  | String c _ => c <> "-"%char /\ str_all (.≠ "="%char) name
  end.

Lemma cut_value_assign name value :
  str_all (.≠ "="%char) name -> cut_value (name +:+ "=" +:+ value) = (name, Some value).
Proof.
  induction name as [|c name IH]; intros H; [done|]. apply str_all_cons in H as [Hc H].
  rewrite str_app_cons. cbn [cut_value]. destruct (Ascii.eqb_spec c "="%char); [done|]. by rewrite IH.
Qed.

Lemma classify_assign name value : flag_name name -> classify (assign name value) = Flag name (Some value).
Proof.
  unfold assign, flag_name. destruct name as [|c name]; [done|]. intros [Hc Hall].
  pose proof (cut_value_assign (String c name) value Hall) as Hcut. apply str_all_cons in Hall as [He _].
  change ("--" +:+ ?s) with (String "-" (String "-" s)).
  change (String c name +:+ "=" +:+ value) with (String c (name +:+ "=" +:+ value)) in *.
  cbn -[cut_value]. destruct (Ascii.eqb_spec c "-"%char); [done|].
  destruct (Ascii.eqb_spec c "="%char); [done|]. cbn [orb]. by rewrite Hcut.
Qed.

(** An assignment sets its flag. *)
Lemma Parse_assign name value args v v' :
  flag_name name -> formal fs name <> None -> set_flag fs name value v = Some v' ->
  Parse (assign name value :: args) v = Parse args v'.
Proof.
  intros Hn Hf Hs. cbn [Parse]. rewrite classify_assign by done.
  destruct (formal fs name) as [[]|]; cbn [from_option id]; [by rewrite Hs..|done].
Qed.

(** Flags after which nothing is left to parse. *)
Lemma Parse_nil v : Parse [] v = Parsed v [].
Proof. done. Qed.

(** What every flag but [n] keeps is kept when [n] is not an argument. *)
Lemma Parse_keeps (I : V -> Prop) (n : string) args :
  (forall s value, s ∈ args -> classify s <> Flag n value) ->
  (forall name value v v', name <> n -> set_flag fs name value v = Some v' -> I v -> I v') ->
  forall v v' rest, I v -> Parse args v = Parsed v' rest -> I v'.
Proof.
  intros Hn HI. induction args as [args IH] using (induction_ltof1 _ length). intros v v' rest Hv.
  destruct args as [|s args]; cbn [Parse]; [by intros [= <- _]|].
  assert (Hrec : forall l v1, suffix l args -> I v1 -> Parse l v1 = Parsed v' rest -> I v').
  { intros l v1 [p ->] Hv1. apply IH; [unfold ltof; cbn; rewrite length_app; lia| |done].
    intros s' value Hs'. apply Hn. set_solver. }
  destruct (classify s) as [| | |name value] eqn:Hs; try (by intros [= <- _]); try done.
  assert (Hne : name <> n). { intros ->. apply (Hn s value); [by left|done]. }
  destruct (formal fs name) as [[]|]; [| |by destruct (_ || _)].
  - destruct (set_flag fs name _ v) as [v1|] eqn:E; [|done]. by apply Hrec; [|eapply HI].
  - destruct value as [x|]; [|destruct args as [|x args']; [done|]];
      (destruct (set_flag fs name x v) as [v1|] eqn:E; [|done]); (apply Hrec; [|by eapply HI]).
    + done.
    + by exists [x].
Qed.
End Parse.
