(* ===== verification/Operator.v ===== *)
(** * cmd/operator: the program that runs the controllers

    [main.go]: the command line, the options of the servers and of the manager, and the calls of
    the start, as a program over the calls of [mcall]; with the [SetupWithManager] functions of
    the two controllers and of the webhook, which it calls.  Logging is left out. *)

From S2P Require Import Prelude GoStd Effects ApiTypes Kube CurseForge ModUpdate Controller Flag.

(** The flags that libraries register on the command line: controller-runtime's [kubeconfig], and
    those of zap's [BindFlags]. *)
Class OperatorLib := {
  LibFlags : Type;
  (** Their values before the command line, for [zap.Options] with [Development]. *)
  lib_defaults : bool -> LibFlags;
  lib_formal : string -> option bool;
  lib_set : string -> string -> LibFlags -> option LibFlags }.

(** ** The command line *)

(** The variables of [main]. *)
Record Flags {L : OperatorLib} := MkFlags {
  metricsAddr : string;
  metricsCertPath : string;
  metricsCertName : string;
  metricsCertKey : string;
  webhookCertPath : string;
  webhookCertName : string;
  webhookCertKey : string;
  enableLeaderElection : bool;
  probeAddr : string;
  secureMetrics : bool;
  enableHTTP2 : bool;
  libFlags : LibFlags }.
#[export] Instance eta_Flags {L : OperatorLib} : Settable Flags := fun r =>
  MkFlags L (metricsAddr r) (metricsCertPath r) (metricsCertName r) (metricsCertKey r)
    (webhookCertPath r) (webhookCertName r) (webhookCertKey r) (enableLeaderElection r)
    (probeAddr r) (secureMetrics r) (enableHTTP2 r) (libFlags r).

Section Operator.
Context {L : OperatorLib}.

(** The values before the command line is parsed. *)
Definition default_flags : Flags := {|
  metricsAddr := "0";
  metricsCertPath := "";
  metricsCertName := "tls.crt";
  metricsCertKey := "tls.key";
  webhookCertPath := "";
  webhookCertName := "tls.crt";
  webhookCertKey := "tls.key";
  enableLeaderElection := false;
  probeAddr := ":8081";
  secureMetrics := true;
  enableHTTP2 := false;
  libFlags := lib_defaults true |}.

Definition registered : list (string * Var Flags) := [
  ("metrics-bind-address", StringVar (fun s v => v <| metricsAddr := s |>));
  ("health-probe-bind-address", StringVar (fun s v => v <| probeAddr := s |>));
  ("leader-elect", BoolVar (fun b v => v <| enableLeaderElection := b |>));
  ("metrics-secure", BoolVar (fun b v => v <| secureMetrics := b |>));
  ("webhook-cert-path", StringVar (fun s v => v <| webhookCertPath := s |>));
  ("webhook-cert-name", StringVar (fun s v => v <| webhookCertName := s |>));
  ("webhook-cert-key", StringVar (fun s v => v <| webhookCertKey := s |>));
  ("metrics-cert-path", StringVar (fun s v => v <| metricsCertPath := s |>));
  ("metrics-cert-name", StringVar (fun s v => v <| metricsCertName := s |>));
  ("metrics-cert-key", StringVar (fun s v => v <| metricsCertKey := s |>));
  ("enable-http2", BoolVar (fun b v => v <| enableHTTP2 := b |>)) ].

(** [flag.CommandLine]. *)
Definition CommandLine : FlagSet Flags := {|
  formal name :=
    match lookup_var registered name with
    | Some x => Some (is_bool x)
    | None => lib_formal name
    end;
  set_flag name value v :=
    match lookup_var registered name with
    | Some x => set_var x value v
    | None => (fun l => v <| libFlags := l |>) <$> lib_set name value (libFlags v)
    end |}.

(** ** The options *)

(** The part of [tls.Config] that [main] sets. *)
Record TLSConfig := MkTLSConfig { NextProtos : list string }.
Definition disableHTTP2 (c : TLSConfig) : TLSConfig := MkTLSConfig ["http/1.1"].

Definition tlsOpts (f : Flags) : list (TLSConfig -> TLSConfig) :=
  if negb (enableHTTP2 f) then [disableHTTP2] else [].

Record WebhookOptions := MkWebhookOptions {
  wh_TLSOpts : list (TLSConfig -> TLSConfig);
  wh_CertDir : string; wh_CertName : string; wh_KeyName : string }.

Definition webhookServerOptions (f : Flags) : WebhookOptions :=
  if (0 <? String.length (webhookCertPath f))%nat
  then MkWebhookOptions (tlsOpts f) (webhookCertPath f) (webhookCertName f) (webhookCertKey f)
  else MkWebhookOptions (tlsOpts f) "" "" "".

(** [FilterProvider] of [metricsserver.Options] is nil or the one function that [main] gives it. *)
Inductive Filter := WithAuthenticationAndAuthorization.

Record MetricsOptions := MkMetricsOptions {
  BindAddress : string;
  SecureServing : bool;
  m_TLSOpts : list (TLSConfig -> TLSConfig);
  FilterProvider : option Filter;
  m_CertDir : string; m_CertName : string; m_KeyName : string }.

Definition metricsServerOptions (f : Flags) : MetricsOptions :=
  let filter := if secureMetrics f then Some WithAuthenticationAndAuthorization else None in
  if (0 <? String.length (metricsCertPath f))%nat
  then MkMetricsOptions (metricsAddr f) (secureMetrics f) (tlsOpts f) filter
         (metricsCertPath f) (metricsCertName f) (metricsCertKey f)
  else MkMetricsOptions (metricsAddr f) (secureMetrics f) (tlsOpts f) filter "" "" "".

Record ManagerOptions := MkManagerOptions {
  Metrics : MetricsOptions;
  WebhookServer : WebhookOptions;
  HealthProbeBindAddress : string;
  LeaderElection : bool;
  LeaderElectionID : string }.

Definition manager_options (f : Flags) : ManagerOptions := {|
  Metrics := metricsServerOptions f;
  WebhookServer := webhookServerOptions f;
  HealthProbeBindAddress := probeAddr f;
  LeaderElection := enableLeaderElection f;
  LeaderElectionID := "ark-asa-operator.ark.watteel.com" |}.

(** ** The start *)

Record GroupVersion := MkGroupVersion { Group : string; Version : string }.
Definition SchemeGroupVersion : GroupVersion := MkGroupVersion "ark.watteel.com" "v1alpha1".

(** What is added to the scheme: client-go's types, or the group of the API. *)
Inductive Scheme := ClientGoScheme | GroupScheme (gv : GroupVersion).
Inductive Reconciler := ArkReconciler (r : ArkClusterReconciler) | ModsReconciler (r : ModUpdateReconciler).
(** [ctrl.NewControllerManagedBy(mgr).For(..).Owns(..).Named(..)]. *)
Record Builder := MkBuilder { For : kind; Owns : list kind; Named : option string }.
Inductive Check := Healthz (name : string) | Readyz (name : string).

Inductive mcall :=
  | AddToScheme (s : Scheme)
  | SetLogger (opts : LibFlags)
  | GetConfigOrDie
  | NewManager (opts : ManagerOptions)
  | Complete (b : Builder) (r : Reconciler)
  | CompleteWebhook (For : kind)
  | AddCheck (c : Check)
  | SetupSignalHandler
  | Start.

(** [GetConfigOrDie] answers whether there is a config: without one it ends the program. *)
Definition mresp (c : mcall) : Type :=
  match c with
  | SetLogger _ | SetupSignalHandler => unit
  | GetConfigOrDie => bool
  | _ => res unit
  end.

Abbreviation mprog := (prog mresp).
Abbreviation mevent := (event mresp).
Abbreviation mcallc c := (@do_call mcall mresp c).

Local Open Scope prog_scope.

(** [SetupWithManager] of [arkcluster_controller.go], of [modupdate_controller.go] and of the
    webhook. *)
Definition SetupArkCluster (r : ArkClusterReconciler) : mprog (res unit) :=
  mcallc (Complete (MkBuilder KindCluster
    [KindPod; KindService; KindPVC; KindConfigMap; KindSecret] None) (ArkReconciler r)).
Definition SetupModUpdate (r : ModUpdateReconciler) : mprog (res unit) :=
  mcallc (Complete (MkBuilder KindCluster [] (Some "modupdate")) (ModsReconciler r)).
Definition SetupArkClusterWebhookWithManager : mprog (res unit) := mcallc (CompleteWebhook KindCluster).

(** [if err := p; err != nil { os.Exit(code) }]; the exit status of a panic is 2. *)
Definition or_exit (code : Z) (p : mprog (res unit)) (k : mprog Z) : mprog Z :=
  let* r := p in match r with Err _ => Ret code | Ok _ => k end.

(** [main] once the command line is parsed.  The result is the exit status. *)
Definition run_operator (Getenv : string -> string) (f : Flags) : mprog Z :=
  let* _ := mcallc (SetLogger (libFlags f)) in
  let* config := mcallc GetConfigOrDie in
  if negb config then Ret 1
  else
    or_exit 1 (mcallc (NewManager (manager_options f))) (
    or_exit 1 (SetupArkCluster (MkArkClusterReconciler true)) (
    or_exit 1 (SetupModUpdate (MkModUpdateReconciler (Getenv "CURSEFORGE_BASE_URL"))) (
    or_exit 1 (if negb (String.eqb (Getenv "ENABLE_WEBHOOKS") "false")
               then SetupArkClusterWebhookWithManager else Ret (Ok tt)) (
    or_exit 1 (mcallc (AddCheck (Healthz "healthz"))) (
    or_exit 1 (mcallc (AddCheck (Readyz "readyz"))) (
    let* _ := mcallc SetupSignalHandler in
    or_exit 1 (mcallc Start) (Ret 0))))))).

(** [init] and [main]; [flag.Parse] ends the program with status 2 on a bad command line and 0
    after the usage. *)
Definition main (Getenv : string -> string) (args : list string) : mprog Z :=
  or_exit 2 (mcallc (AddToScheme ClientGoScheme)) (
  or_exit 2 (mcallc (AddToScheme (GroupScheme SchemeGroupVersion))) (
  match Parse CommandLine args default_flags with
  | Usage => Ret 0
  | BadFlag => Ret 2
  | Parsed f _ => run_operator Getenv f
  end)).

(** ** The order of the start *)

Definition succeeded (e : mevent) : bool :=
  let 'Ev c r := e in
  match c as c return mresp c -> bool with
  | SetLogger _ | SetupSignalHandler => fun _ => true
  | GetConfigOrDie => fun r => r
  | _ => fun r => match r with Ok _ => true | Err _ => false end
  end r.

(** The program makes the calls [cs] as long as they succeed and returns 0; at the first that
    fails it stops with another status. *)
Definition follows (p : mprog Z) (cs : list mcall) : Prop :=
  forall tr code, exec p tr code ->
    ((ev_call <$> tr) = cs /\ Forall succeeded tr /\ code = 0) \/
    (exists tr' e cs', tr = tr' ++ [e] /\ cs = (ev_call <$> tr) ++ cs' /\ Forall succeeded tr' /\
      succeeded e = false /\ (code = 1 \/ code = 2)).

Lemma follows_done : follows (Ret 0) [].
Proof. intros tr code H. exec_inv. left. split_and!; [done|constructor|done]. Qed.

Lemma follows_act c k cs :
  (forall r, succeeded (Ev c r) = true -> follows (k r) cs) ->
  (forall r, succeeded (Ev c r) = false -> k r = Ret 1 \/ k r = Ret 2) ->
  follows (Act c k) (c :: cs).
Proof.
  intros Hok Hfail tr code (r & tr1 & -> & H)%exec_act_inv. destruct (succeeded (Ev c r)) eqn:E.
  - destruct (Hok r E _ _ H) as [(<- & Hs & ->)|(tr' & e & cs' & -> & -> & Hs & He & Hc)].
    + left. split_and!; [done|by constructor; [rewrite E|]|done].
    + right. exists (Ev c r :: tr'), e, cs'. split_and!; [done..|by constructor; [rewrite E|]|done|done].
  - right. exists [], (Ev c r), cs. destruct (Hfail r E) as [Hk|Hk]; rewrite Hk in H; exec_inv;
      (split_and!; [done..|constructor|done|tauto]).
Qed.

(** The calls of the start. *)
Definition startup (Getenv : string -> string) (f : Flags) : list mcall :=
  [SetLogger (libFlags f); GetConfigOrDie; NewManager (manager_options f);
   Complete (MkBuilder KindCluster [KindPod; KindService; KindPVC; KindConfigMap; KindSecret] None)
     (ArkReconciler (MkArkClusterReconciler true));
   Complete (MkBuilder KindCluster [] (Some "modupdate"))
     (ModsReconciler (MkModUpdateReconciler (Getenv "CURSEFORGE_BASE_URL")))] ++
  (if String.eqb (Getenv "ENABLE_WEBHOOKS") "false" then [] else [CompleteWebhook KindCluster]) ++
  [AddCheck (Healthz "healthz"); AddCheck (Readyz "readyz"); SetupSignalHandler; Start].

Ltac follow := 
  repeat (cbn [or_exit bind do_call]; first
    [ apply follows_act; [intros [] ?; try done|intros [] ?; cbn in *; try done; by auto]
    | apply follows_done ]).

Lemma run_operator_follows Getenv f : follows (run_operator Getenv f) (startup Getenv f).
Proof.
  unfold run_operator, startup, SetupArkCluster, SetupModUpdate, SetupArkClusterWebhookWithManager, or_exit.
  destruct (String.eqb (Getenv "ENABLE_WEBHOOKS") "false"); cbn [negb app]; follow.
Qed.

Lemma main_follows Getenv args f rest :
  Parse CommandLine args default_flags = Parsed f rest ->
  follows (main Getenv args)
    (AddToScheme ClientGoScheme :: AddToScheme (GroupScheme SchemeGroupVersion) :: startup Getenv f).
Proof.
  intros Hp. unfold main, or_exit. rewrite Hp. cbn [bind do_call].
  apply follows_act; [intros [] ?; [|done]|intros [] ?; by auto]. cbn [bind do_call].
  apply follows_act; [intros [] ?; [|done]|intros [] ?; by auto]. apply run_operator_follows.
Qed.
End Operator.

(** ** What the start guarantees *)

Lemma split_at_last {A} (x : A) a1 a2 b : x ∉ b -> a1 ++ x :: a2 = b ++ [x] -> a1 = b /\ a2 = [].
Proof.
  revert b. induction a1 as [|y a1 IH]; intros [|z b] Hb H; cbn in H.
  - injection H as H. by rewrite H.
  - injection H as -> H. by apply not_elem_of_cons in Hb as [[] _].
  - injection H as -> H. by destruct a1.
  - injection H as -> H. apply not_elem_of_cons in Hb as [_ Hb]. by destruct (IH b Hb H) as [-> ->].
Qed.

Section Start.
Context {L : OperatorLib} (Getenv : string -> string) (args rest : list string) (f : Flags).
Hypothesis Hparse : Parse CommandLine args default_flags = Parsed f rest.
#[local] Set Default Proof Using "All".

(** The calls before [Start]. *)
Definition before_start : list mcall :=
  AddToScheme ClientGoScheme :: AddToScheme (GroupScheme SchemeGroupVersion) :: removelast (startup Getenv f).

Lemma Start_last : (Start ∉ before_start) /\
  (AddToScheme ClientGoScheme :: AddToScheme (GroupScheme SchemeGroupVersion) :: startup Getenv f)
  = before_start ++ [Start].
Proof.
  unfold before_start, startup. destruct (String.eqb _ "false"); (split; [|done]);
    cbn; rewrite !not_elem_of_cons; split_and!; try done; by intros ?%elem_of_nil.
Qed.

Lemma started tr code tr1 r tr2 :
  exec (main Getenv args) tr code -> tr = tr1 ++ Ev Start r :: tr2 ->
  tr2 = [] /\ ev_call <$> tr1 = before_start /\ Forall succeeded tr1.
Proof.
  intros Hex Htr. destruct Start_last as [Hnot Hall].
  destruct (main_follows Getenv args f rest Hparse _ _ Hex) as [(Hc & Hs & _)|(tr' & e & cs' & Ht & Hc & Hs & _)].
  - rewrite Htr, fmap_app, fmap_cons, Hall in Hc. apply split_at_last in Hc as [Hc1 Hc2]; [|done].
    apply fmap_nil_inv in Hc2. rewrite Htr in Hs. apply Forall_app in Hs as [Hs _]. done.
  - rewrite Hall, Htr, fmap_app, fmap_cons, <- app_assoc in Hc. cbn [app] in Hc. symmetry in Hc.
    apply split_at_last in Hc as [Hc1 Hc2]; [|done]. apply app_nil in Hc2 as [Hc2 _].
    apply fmap_nil_inv in Hc2. subst tr2. rewrite Ht in Htr. apply app_inj_tail in Htr as [-> _]. done.
Qed.
End Start.

(** C22: the operator runs only when it is complete.  In every execution of [main] with a command
    line that parses: the exit status is 0 exactly when every call succeeded, and the first that
    fails is the last; the manager is started only after the schemes were registered, the manager
    made with the options of the command line, both controllers completed, the health and the
    readiness check added, and the webhook registered, unless [ENABLE_WEBHOOKS] is [false]; and
    nothing is done after it stops. *)
Theorem operator_starts {L : OperatorLib} Getenv args f rest tr code :
  Parse CommandLine args default_flags = Parsed f rest -> exec (main Getenv args) tr code ->
  (code = 0 <-> Forall succeeded tr) /\
  (forall tr1 e tr2, tr = tr1 ++ e :: tr2 -> succeeded e = false -> tr2 = []) /\
  (forall tr1 r tr2, tr = tr1 ++ Ev Start r :: tr2 ->
     tr2 = [] /\ Forall succeeded tr1 /\
     AddToScheme (GroupScheme SchemeGroupVersion) ∈ (ev_call <$> tr1) /\
     NewManager (manager_options f) ∈ (ev_call <$> tr1) /\
     (exists b, Complete b (ArkReconciler (MkArkClusterReconciler true)) ∈ (ev_call <$> tr1)) /\
     (exists b, Complete b (ModsReconciler (MkModUpdateReconciler (Getenv "CURSEFORGE_BASE_URL"))) ∈ (ev_call <$> tr1)) /\
     (CompleteWebhook KindCluster ∈ (ev_call <$> tr1) <-> Getenv "ENABLE_WEBHOOKS" <> "false") /\
     AddCheck (Healthz "healthz") ∈ (ev_call <$> tr1) /\ AddCheck (Readyz "readyz") ∈ (ev_call <$> tr1)).
Proof.
  intros Hp Hex. pose proof (main_follows _ _ _ _ Hp _ _ Hex) as Hf. split_and!.
  - destruct Hf as [(_ & Hs & ->)|(tr' & e & cs' & -> & _ & _ & He & Hc)]; [done|].
    split; [by destruct Hc as [-> | ->]|]. intros [_ [Hs _]%Forall_cons]%Forall_app. by rewrite He in Hs.
  - intros tr1 e tr2 Htr He. destruct Hf as [(_ & Hs & _)|(tr' & e' & cs' & Ht & _ & Hs & _)].
    + rewrite Htr in Hs. apply Forall_app in Hs as [_ [Hs _]%Forall_cons]. by rewrite He in Hs.
    + destruct tr2 as [|e2 tr2] using rev_ind; [done|]. rewrite Ht, app_comm_cons, app_assoc in Htr.
      apply app_inj_tail in Htr as [-> _]. apply Forall_app in Hs as [_ [Hs _]%Forall_cons]. by rewrite He in Hs.
  - intros tr1 r tr2 Htr. destruct (started _ _ _ _ Hp _ _ _ _ _ Hex Htr) as (-> & -> & Hs).
    unfold before_start, startup. destruct (String.eqb_spec (Getenv "ENABLE_WEBHOOKS") "false") as [E|E];
      cbn [app removelast]; (split_and!; [done|done|..]);
      try set_solver; try (eexists; set_solver).
Qed.

(** ** The command line *)

(** The command line that sets every flag of the operator. *)
Definition args_of {L : OperatorLib} (f : Flags) : list string :=
  let bool_value (b : bool) := if b then "true" else "false" in
  [assign "metrics-bind-address" (metricsAddr f);
   assign "health-probe-bind-address" (probeAddr f);
   assign "leader-elect" (bool_value (enableLeaderElection f));
   assign "metrics-secure" (bool_value (secureMetrics f));
   assign "webhook-cert-path" (webhookCertPath f);
   assign "webhook-cert-name" (webhookCertName f);
   assign "webhook-cert-key" (webhookCertKey f);
   assign "metrics-cert-path" (metricsCertPath f);
   assign "metrics-cert-name" (metricsCertName f);
   assign "metrics-cert-key" (metricsCertKey f);
   assign "enable-http2" (bool_value (enableHTTP2 f))].

(** every configuration of the operator's own flags can be given on the command line, any values,
    and is what [Parse] makes of it. *)
Theorem args_roundtrip {L : OperatorLib} f :
  libFlags f = lib_defaults true -> Parse CommandLine (args_of f) default_flags = Parsed f [].
Proof.
  intros Hl. destruct f as [ma mp mn mk wp wn wk le pa sm h2 lf]. cbn in Hl. subst lf. unfold args_of.
  cbn [metricsAddr probeAddr enableLeaderElection secureMetrics webhookCertPath webhookCertName
    webhookCertKey metricsCertPath metricsCertName metricsCertKey enableHTTP2].
  assert (Hb : forall b : bool, ParseBool (if b then "true" else "false") = Some b) by by intros [].
  repeat (erewrite Parse_assign;
    [|split; [done|by repeat constructor]|done|cbn; rewrite ?Hb; reflexivity]).
  reflexivity.
Qed.

Definition demo_operator_lib : OperatorLib := {|
  LibFlags := unit; lib_defaults _ := tt; lib_formal _ := None; lib_set _ _ _ := None |}.

Lemma args_roundtrip_witness :
  Parse (CommandLine (L := demo_operator_lib))
    (args_of ((default_flags (L := demo_operator_lib)) <| metricsAddr := ":8443" |> <| enableHTTP2 := true |>))
    default_flags
  = Parsed (default_flags <| metricsAddr := ":8443" |> <| enableHTTP2 := true |>) [].
Proof. apply (args_roundtrip (L := demo_operator_lib)). reflexivity. Defined.

(** What setting one flag leaves alone. *)
Lemma set_keeps {L : OperatorLib} name value (v v' : Flags) :
  set_flag CommandLine name value v = Some v' ->
  (name <> "enable-http2" -> enableHTTP2 v' = enableHTTP2 v) /\
  (name <> "metrics-secure" -> secureMetrics v' = secureMetrics v).
Proof.
  cbn. repeat match goal with |- context [String.eqb name ?n] => destruct (String.eqb_spec name n) as [->|] end;
    cbn; try (intros [= <-]; done).
  - destruct (ParseBool value); cbn; [|done]. by intros [= <-].
  - destruct (ParseBool value); cbn; [|done]. by intros [= <-].
  - destruct (ParseBool value); cbn; [|done]. by intros [= <-].
  - destruct (lib_set _ _ _); cbn; [|done]. by intros [= <-].
Qed.

(** The configuration a server gets from its options. *)
Definition configured (opts : list (TLSConfig -> TLSConfig)) (c : TLSConfig) : TLSConfig :=
  foldl (fun c opt => opt c) c opts.

(** No argument is this flag. *)
Definition unset (n : string) (args : list string) : Prop :=
  forall s value, s ∈ args -> classify s <> Flag n value.

(** C23: the servers are hardened unless the command line says otherwise.  Without an argument
    [enable-http2], whatever else is given, the webhook server and the metrics server offer
    HTTP/1.1 alone, whatever their configuration was; without an argument [metrics-secure], the
    metrics are served over TLS and to authorized clients only; and a certificate is watched
    exactly when its path was given. *)
Theorem secure_by_default {L : OperatorLib} args f rest :
  Parse CommandLine args default_flags = Parsed f rest ->
  let opts := manager_options f in
  (unset "enable-http2" args -> forall c,
     NextProtos (configured (wh_TLSOpts (WebhookServer opts)) c) = ["http/1.1"] /\
     NextProtos (configured (m_TLSOpts (Metrics opts)) c) = ["http/1.1"]) /\
  (unset "metrics-secure" args ->
     SecureServing (Metrics opts) = true /\
     FilterProvider (Metrics opts) = Some WithAuthenticationAndAuthorization) /\
  wh_CertDir (WebhookServer opts) = webhookCertPath f /\ m_CertDir (Metrics opts) = metricsCertPath f.
Proof.
  intros Hp. cbn zeta.
  assert (Hh : wh_TLSOpts (WebhookServer (manager_options f)) = tlsOpts f /\
    m_TLSOpts (Metrics (manager_options f)) = tlsOpts f /\
    SecureServing (Metrics (manager_options f)) = secureMetrics f /\
    FilterProvider (Metrics (manager_options f))
      = if secureMetrics f then Some WithAuthenticationAndAuthorization else None).
  { cbn. unfold webhookServerOptions, metricsServerOptions. by repeat case_match. }
  destruct Hh as (-> & -> & -> & ->). split_and!.
  - intros Hn c. assert (enableHTTP2 f = false) as Hf.
    { refine (Parse_keeps CommandLine (fun v => enableHTTP2 v = false) _ args Hn _ default_flags f rest eq_refl Hp).
      intros name value v v' Hne Hset <-. by apply (set_keeps _ _ _ _ Hset). }
    unfold tlsOpts. by rewrite Hf.
  - intros Hn. assert (secureMetrics f = true) as ->; [|done].
    refine (Parse_keeps CommandLine (fun v => secureMetrics v = true) _ args Hn _ default_flags f rest eq_refl Hp).
    intros name value v v' Hne Hset <-. by apply (set_keeps _ _ _ _ Hset).
  - cbn. unfold webhookServerOptions. by destruct (webhookCertPath f).
  - cbn. unfold metricsServerOptions. by destruct (metricsCertPath f).
Qed.

(** [--leader-elect --metrics-bind-address :8443], as the manifests give it. *)
Definition demo_args : list string := ["--metrics-bind-address=:8443"; "--leader-elect"; "-health-probe-bind-address"; ":8081"].
Definition demo_flags : Flags (L := demo_operator_lib) :=
  (default_flags (L := demo_operator_lib)) <| metricsAddr := ":8443" |> <| enableLeaderElection := true |>.

Lemma secure_by_default_witness :
  SecureServing (Metrics (manager_options demo_flags)) = true /\
  NextProtos (configured (wh_TLSOpts (WebhookServer (manager_options demo_flags))) (MkTLSConfig ["h2"])) = ["http/1.1"].
Proof.
  destruct (secure_by_default (L := demo_operator_lib) demo_args demo_flags []) as (Hh & Hs & _); [reflexivity|].
  assert (Hu : forall n, n <> "metrics-bind-address" -> n <> "leader-elect" ->
    n <> "health-probe-bind-address" -> unset n demo_args).
  { intros n H1 H2 H3 s value Hin.
    repeat (apply elem_of_cons in Hin as [->|Hin]; [cbn; congruence|]). by apply elem_of_nil in Hin. }
  split; [by apply Hs, Hu|by apply Hh, Hu].
Defined.

(** A start in which everything succeeds. *)
Definition demo_run_answer (c : mcall (L := demo_operator_lib)) : mresp c :=
  match c return mresp c with
  | SetLogger _ | SetupSignalHandler => tt
  | GetConfigOrDie => true
  | _ => Ok tt
  end.
Definition demo_env (name : string) : string :=
  if String.eqb name "CURSEFORGE_BASE_URL" then "http://fake-curseforge" else "".
Definition start_run : list (event mresp) * Z :=
  let '(tr, code, _) := run (fun c (_ : unit) => (demo_run_answer c, tt)) (main demo_env demo_args) tt in (tr, code).

Lemma start_run_exec : exec (main demo_env demo_args) start_run.1 start_run.2.
Proof.
  unfold start_run. destruct (run _ _ tt) as [[tr code] u] eqn:E. by apply run_exec in E.
Qed.

Lemma operator_starts_witness :
  exists tr1, start_run.1 = tr1 ++ [Ev Start (Ok tt)] /\ length tr1 = 11%nat /\
    start_run.2 = 0 /\ Forall succeeded tr1 /\ NewManager (manager_options demo_flags) ∈ (ev_call <$> tr1) /\
    CompleteWebhook KindCluster ∈ (ev_call <$> tr1).
Proof.
  destruct (operator_starts (L := demo_operator_lib) demo_env demo_args demo_flags [] start_run.1 start_run.2)
    as (_ & _ & H); [reflexivity|exact start_run_exec|].
  assert (exists tr1, start_run.1 = tr1 ++ [Ev Start (Ok tt)] /\ length tr1 = 11%nat) as (tr1 & Htr & Hlen)
    by (eexists [_; _; _; _; _; _; _; _; _; _; _]; split; reflexivity).
  exists tr1. destruct (H tr1 (Ok tt) [] Htr) as (_ & Hs & _ & Hm & _ & _ & Hw & _).
  split_and!; [exact Htr|exact Hlen|reflexivity|exact Hs|exact Hm|apply Hw; discriminate].
Defined.

(** ** The operator and CurseForge *)

(** the mod controller that the operator runs asks the API at [CURSEFORGE_BASE_URL], or
    CurseForge's when the variable is empty or unset, and no other: whatever the reconciler that a
    start completed posts, in any reconcile, goes to [/v1/mods] there. *)
Theorem operator_asks_curseforge {L : OperatorLib} Getenv args f rest tr code b r a ns name tr' res url headers body x :
  Parse CommandLine args default_flags = Parsed f rest -> exec (main Getenv args) tr code ->
  Ev (Complete b (ModsReconciler r)) a ∈ tr ->
  exec (ModUpdate.Reconcile r ns name) tr' res -> Ev (HttpPost url headers body) x ∈ tr' ->
  url = (if String.eqb (Getenv "CURSEFORGE_BASE_URL") "" then "https://api.curseforge.com"
         else Getenv "CURSEFORGE_BASE_URL") +:+ "/v1/mods".
Proof.
  intros Hp Hex Hr Hrec Hpost.
  assert (Complete b (ModsReconciler r) ∈ AddToScheme ClientGoScheme :: AddToScheme (GroupScheme SchemeGroupVersion)
    :: startup Getenv f) as Hin.
  { apply (list_elem_of_fmap_2 ev_call) in Hr. cbn in Hr.
    destruct (main_follows _ _ _ _ Hp _ _ Hex) as [(<- & _)|(_ & _ & cs' & _ & -> & _)]; [done|].
    apply elem_of_app. by left. }
  assert (r = MkModUpdateReconciler (Getenv "CURSEFORGE_BASE_URL")) as ->.
  { unfold startup in Hin. destruct (String.eqb _ "false"); cbn [app] in Hin;
      repeat (apply elem_of_cons in Hin as [Hin|Hin]; [by inv Hin|]); by apply elem_of_nil in Hin. }
  apply list_elem_of_split in Hpost as (tr1 & tr2 & ->).
  destruct (wp_exec _ _ _ _ _ _ _ (wp_Reconcile _ ns name) Hrec (admits_any _ _)) as [_ Hg].
  destruct (Hg tr1 _ x tr2 eq_refl) as (c & auto & sec & key & _ & _ & _ & -> & _). done.
Qed.

(** The first reconcile of that start's controller, on a cluster with one mod. *)
Definition polled_run : list kevent * res Result :=
  run_with (with_stored KindCluster auto_cluster (with_stored KindSecret key_secret (post_answer demo_data)))
    (ModUpdate.Reconcile (MkModUpdateReconciler "http://fake-curseforge") "ns" "c").

Lemma operator_asks_curseforge_witness :
  exists url headers body x, (Ev (HttpPost url headers body) x : kevent) ∈ polled_run.1 /\
    url = "http://fake-curseforge/v1/mods".
Proof.
  pose proof (run_with_exec _ _ : exec _ polled_run.1 polled_run.2) as Hex.
  assert (exists url headers body x, (Ev (HttpPost url headers body) x : kevent) ∈ polled_run.1) as (url & headers & body & x & Hin).
  { eexists _, _, _, _. do 2 right. left. }
  exists url, headers, body, x. split; [exact Hin|].
  rewrite (operator_asks_curseforge (L := demo_operator_lib) demo_env demo_args demo_flags [] start_run.1 start_run.2
    (MkBuilder KindCluster [] (Some "modupdate")) (MkModUpdateReconciler "http://fake-curseforge") (Ok tt)
    "ns" "c" polled_run.1 polled_run.2 url headers body x); try done.
  - exact start_run_exec.
  - do 6 right. left.
Defined.
