(* ===== verification/Ownership.v ===== *)
(** * Everything the operator makes belongs to the cluster

    Every object a reconcile creates or writes back is owned by the cluster and carries its label:
    Kubernetes deletes it with the cluster, garbage collection finds it, and a change of it wakes
    the controller, if its kind is one that the operator watches.  A reconcile is proved
    step by step with the rules of [owns], which follow the monad of the reconciler. *)

From S2P Require Import Prelude GoStd Effects ApiTypes Kube Ark Status Ini Resources Workload Rcon Finalizer Controller ControllerSafety MapPass Life Flag Operator.

Local Open Scope prog_scope.

(** The object belongs to the cluster called [n]. *)
Definition belongs_to (n : string) (m : ObjectMeta) : Prop :=
  MkOwnerReference "ArkCluster" n true ∈ OwnerReferences m /\
  Labels m !! "ark.watteel.com/cluster" = Some n.

(** The kinds of object a reconcile makes. *)
Definition made : list kind := [KindPod; KindService; KindPVC; KindConfigMap; KindSecret; KindJob].

Definition owned (n : string) (c : call) : Prop :=
  match c with
  | Create k o | CouEnd k o => belongs_to n (obj_meta o) /\ k ∈ made
  | _ => True
  end.

(** ** Calls of the components *)

Lemma emits_owned_read n {A} (p : kprog A) (P : call -> Prop) :
  emits P p -> (forall c, P c -> owned n c) -> emits (owned n) p.
Proof. intros He HP. by eapply emits_mono. Qed.

Section Ensure.
Context {L : K8sLib} {HL : K8sLaws L}.
#[local] Set Default Proof Using "All".

Lemma SetControllerReference_belongs cluster m m' :
  Labels m !! "ark.watteel.com/cluster" = Some (cluster_name cluster) ->
  SetControllerReference cluster m = Ok m' -> belongs_to (cluster_name cluster) m'.
Proof.
  intros Hl (_ & _ & Hl' & _ & _ & Ho)%SetControllerReference_owner. split; [done|]. by rewrite Hl'.
Qed.

(** [CreateOrUpdate] with a callback that only makes objects of the cluster. *)
Lemma emits_CreateOrUpdate_owned n k o f :
  k ∈ made -> (forall x, emits (owned n) (f x)) ->
  (forall x tr y, exec (f x) tr (Ok y) -> belongs_to n (obj_meta y)) ->
  emits (owned n) (CreateOrUpdate k o f).
Proof.
  intros Hk Hf Hy. apply emits_act; [done|]. intros [x|e]; [|done]. unfold emits.
  apply wp_seq. apply (wp_exec_intro _ _ (owned n)); [apply Hf|done|]. intros tr [y|e] Hex _; [|by apply wp_ret].
  apply wp_act; [split; [by eapply Hy|done]|]. intros r _. by apply wp_ret.
Qed.

Lemma owned_ensurePVC cluster name size sc mode :
  emits (owned (cluster_name cluster)) (ensurePVC cluster name size sc mode).
Proof.
  unfold ensurePVC. destruct (ParseQuantity size); [|done].
  apply emits_bind; [|intros [?|e]; [done|]; by destruct (negb _)].
  apply emits_CreateOrUpdate_owned; [set_solver|done|]. intros x tr y Hex. exec_inv.
  unfold mutate_pvc in *. destruct (SetControllerReference _ _) as [m|] eqn:Hs; [|done]. simplify_eq.
  eapply SetControllerReference_belongs, Hs. cbn. by rewrite lookup_insert_eq.
Qed.

Lemma owned_EnsureAdminPasswordSecret cluster :
  emits (owned (cluster_name cluster)) (EnsureAdminPasswordSecret cluster).
Proof.
  unfold EnsureAdminPasswordSecret. apply emits_bind; [|intros [?|e]; [done|]; by destruct (negb _)].
  apply emits_CreateOrUpdate_owned; [set_solver|..].
  - intros sec. unfold mutate_secret. apply emits_bind.
    + destruct (_ !! _); [done|]. apply emits_act; [done|]. by intros [].
    + intros [data|e]; [|done]. by destruct (SetControllerReference _ _).
  - intros sec tr y Hex. unfold mutate_secret in Hex. apply exec_bind_inv in Hex as (tr1 & d & tr2 & -> & _ & Hex).
    destruct d as [data|e]; [|by exec_inv].
    destruct (SetControllerReference _ _) as [m|] eqn:Hs; exec_inv; simplify_eq.
    eapply SetControllerReference_belongs, Hs. cbn. by rewrite lookup_insert_eq.
Qed.

Lemma owned_EnsureService cluster id i : emits (owned (cluster_name cluster)) (EnsureService cluster id i).
Proof.
  apply emits_CreateOrUpdate_owned; [set_solver|done|]. intros x tr y Hex. exec_inv.
  unfold mutate_service in *. destruct (SetControllerReference _ _) as [m|] eqn:Hs; [|done]. simplify_eq.
  eapply SetControllerReference_belongs, Hs. cbn. by rewrite lookup_insert_ne, lookup_insert_eq.
Qed.

Lemma owned_EnsureMapINIConfigMaps cluster id :
  emits (owned (cluster_name cluster)) (EnsureMapINIConfigMaps cluster id).
Proof.
  assert (Hr : forall ms key, emits (owned (cluster_name cluster)) (resolveINI cluster ms key)).
  { intros ms key. unfold resolveINI. cbv zeta. repeat case_match; try done;
      (apply emits_act; [done|]; by intros []). }
  assert (Hw : forall name key content,
    emits (owned (cluster_name cluster)) (writeINIConfigMap cluster name key content)).
  { intros. apply emits_CreateOrUpdate_owned; [set_solver|done|]. intros x tr y Hex. exec_inv.
    unfold mutate_cm in *. destruct (SetControllerReference _ _) as [m|] eqn:Hs; [|done]. simplify_eq.
    eapply SetControllerReference_belongs, Hs. cbn. by rewrite lookup_insert_eq. }
  unfold EnsureMapINIConfigMaps. do 2 (apply emits_bind; [apply Hr|intros ?]).
  apply emits_bind; [apply Hw|]. intros [?|?]; [apply Hw|done].
Qed.

Lemma owned_ensure_map_resources cluster id i :
  emits (owned (cluster_name cluster)) (ensure_map_resources cluster id i).
Proof.
  unfold ensure_map_resources, EnsureSavesPVC, EnsureServerPVC.
  do 3 (apply emits_and_then; [apply owned_ensurePVC|intros _]).
  apply emits_and_then; [apply owned_EnsureMapINIConfigMaps|intros _]. apply owned_EnsureService.
Qed.

Lemma owned_EnsureInitJob cluster id side : emits (owned (cluster_name cluster)) (EnsureInitJob cluster id side).
Proof.
  unfold EnsureInitJob. apply emits_act; [done|]. intros [j|e]; [done|]. destruct (negb _); [done|].
  destruct (SetControllerReference _ _) as [m|] eqn:Hs; [|done]. apply emits_act.
  - split; [|set_solver]. by eapply SetControllerReference_belongs, Hs.
  - intros [?|e']; [done|]. by destruct (IsAlreadyExists e').
Qed.

Lemma owned_ensurePodForMap cluster mapSpec i v hash :
  emits (owned (cluster_name cluster)) (ensurePodForMap cluster mapSpec i v hash).
Proof.
  unfold ensurePodForMap. destruct (SetControllerReference _ _) as [m|] eqn:Hs; [|done]. apply emits_act.
  - split; [|set_solver]. eapply SetControllerReference_belongs, Hs. by cbn.
  - intros [?|e']; [done|]. by destruct (IsAlreadyExists e').
Qed.
End Ensure.

(** ** Rules for the reconciler's monad *)

Section Rules.
Variable n : string.

(** Every call [m] makes is owned, as long as the reconcile holds the cluster called [n], and it
    goes on holding it. *)
Definition owns {A} (m : rM A) : Prop :=
  forall s h, cluster_name (rs_cluster s) = n ->
    wp any (fun _ => owned n) (m s) (fun x _ => cluster_name (rs_cluster x.2) = n) h.

Lemma owns_ret {A} (a : A) : owns (m_ret a).
Proof. intros s h Hs. by apply wp_ret. Qed.
Lemma owns_fail {A} e : owns (@m_fail _ _ _ A e).
Proof. intros s h Hs. by apply wp_ret. Qed.
Lemma owns_busy : owns set_busy.
Proof. intros s h Hs. by apply wp_ret. Qed.
Lemma owns_map ms : owns (get_map ms).
Proof. intros s h Hs. by apply wp_ret. Qed.
Lemma owns_state : owns m_get.
Proof. intros s h Hs. by apply wp_ret. Qed.
Lemma owns_on_cluster f : (forall c, cluster_name (f c) = cluster_name c) -> owns (on_cluster f).
Proof. intros Hf s h Hs. apply wp_ret. cbn. by rewrite Hf. Qed.
Lemma owns_set_cluster c : cluster_name c = n -> owns (on_cluster (fun _ => c)).
Proof. intros Hc s h Hs. by apply wp_ret. Qed.
Lemma owns_on_map ms f : owns (on_map ms f).
Proof. by apply owns_on_cluster. Qed.

Lemma owns_lift {A} (p : kprog A) : emits (owned n) p -> owns (m_lift p).
Proof. intros He s h Hs. apply wp_m_lift. apply (wp_exec_intro _ _ (owned n)); done. Qed.
Lemma owns_lift_res {A} (p : kprog (res A)) : emits (owned n) p -> owns (m_lift_res p).
Proof. intros He s h Hs. apply wp_m_lift_res. apply (wp_exec_intro _ _ (owned n)); done. Qed.

Lemma owns_bind {A B} (m : rM A) (f : A -> rM B) : owns m -> (forall a, owns (f a)) -> owns (m_bind m f).
Proof.
  intros Hm Hf s h Hs. apply wp_m_bind. eapply wp_mono; [|by apply Hm].
  intros [[a|e] s'] h' Hs'; [by apply Hf|done].
Qed.

(** The cluster that is read is the one that is held. *)
Lemma owns_cluster {B} (f : ArkCluster -> rM B) :
  (forall c, cluster_name c = n -> owns (f c)) -> owns (m_bind get_cluster f).
Proof. intros Hf s h Hs. apply wp_m_bind, wp_ret. by apply Hf. Qed.

Lemma owns_try {A} (m : rM A) : owns m -> owns (m_try m).
Proof. intros Hm s h Hs. apply wp_m_try. by apply Hm. Qed.

Lemma owns_for {A} (l : list A) (body : A -> rM unit) : (forall a, owns (body a)) -> owns (m_for l body).
Proof.
  intros Hb s h Hs. apply (wp_m_for _ _ _ _ (fun s _ => cluster_name (rs_cluster s) = n)); [|done].
  intros x s' h' _ Hs'. by apply Hb.
Qed.

Lemma owns_status_update : owns status_update.
Proof. intros s h Hs. apply wp_act; [done|]. intros u _. apply wp_ret. by destruct u. Qed.

Lemma owns_persistStatus : owns persistStatus.
Proof.
  intros s h Hs. unfold persistStatus. apply wp_seq. eapply wp_mono; [|by apply owns_status_update].
  intros [[?|e] s'] h' Hs'; [by apply wp_ret|]. destruct (negb _); by apply wp_ret.
Qed.

Lemma owns_condition id cond : owns (set_map_condition id cond).
Proof.
  intros s h Hs. unfold set_map_condition. apply wp_seq.
  apply (wp_exec_intro _ _ is_now); [apply emits_SetMapCondition|by intros ? []|].
  intros tr c Hex _. apply wp_ret. cbn. rewrite <- Hs. unfold SetMapCondition in Hex.
  destruct (find_status _ _) as [[i m]|]; [|by exec_inv].
  apply exec_bind_inv in Hex as (tr1 & conds & tr2 & -> & _ & Hex). by exec_inv.
Qed.
End Rules.

(** One step of a proof that a function of the reconciler [owns]. *)
Ltac owns_step :=
  cbv zeta;
  lazymatch goal with
  | |- owns _ (m_bind get_cluster _) => apply owns_cluster; intros ? ?
  | |- owns _ (m_bind _ _) => apply owns_bind; [|intros ?]
  | |- owns _ (m_ret _) => apply owns_ret
  | |- owns _ (m_fail _) => apply owns_fail
  | |- owns _ set_busy => apply owns_busy
  | |- owns _ (get_map _) => apply owns_map
  | |- owns _ m_get => apply owns_state
  | |- owns _ (on_map _ _) => apply owns_on_map
  | |- owns _ (on_cluster _) => apply owns_on_cluster; intros ?; try done
  | |- owns _ (m_try _) => apply owns_try
  | |- owns _ (m_for _ _) => apply owns_for; intros ?
  | |- owns _ status_update => apply owns_status_update
  | |- owns _ persistStatus => apply owns_persistStatus
  | |- owns _ (set_map_condition _ _) => apply owns_condition
  | |- owns _ (m_lift _) => apply owns_lift
  | |- owns _ (m_lift_res _) => apply owns_lift_res
  | |- owns _ (match ?x with _ => _ end) => destruct x eqn:?
  end.

(** What the flows call besides: reads, the network, the clock. *)
Ltac quiet_call :=
  lazymatch goal with
  | |- emits (owned _) (kcall _) => by apply emits_act
  | |- emits (owned _) (shouldRollback _) => eapply emits_owned_read; [apply emits_shouldRollback|by intros []]
  | |- emits (owned _) (InitJobStatus _ _ _) => eapply emits_owned_read; [apply emits_InitJobStatus|by intros []]
  | |- emits (owned _) (Controller.readAdminPassword _) =>
      eapply emits_owned_read; [apply emits_readAdminPassword|by intros []]
  | |- emits (owned _) (computePodHash _ _ _ _) => eapply emits_owned_read; [apply emits_computePodHash|by intros []]
  | |- emits (owned _) (AnnounceShutdown _ _ _ _ _) =>
      eapply emits_owned_read; [apply emits_net_AnnounceShutdown|by intros []]
  | |- emits (owned _) (SaveAndExit _ _ _) => eapply emits_owned_read; [apply emits_net_SaveAndExit|by intros []]
  end.

Section Reconciler.
Context {L : K8sLib} {HL : K8sLaws L}.
#[local] Set Default Proof Using "All".
Variable n : string.

Ltac owns_steps :=
  repeat (owns_step || quiet_call);
  repeat match goal with H : cluster_name ?c = _ |- emits (owned _) _ => rewrite <- H; clear H end;
  try lazymatch goal with
  | |- emits _ (EnsureInitJob _ _ _) => apply owned_EnsureInitJob
  | |- emits _ (ensurePodForMap _ _ _ _ _) => apply owned_ensurePodForMap
  end.

Lemma owns_firstStart mapSpec i ms hash : owns n (firstStart mapSpec i ms hash).
Proof. unfold firstStart. owns_steps. Qed.

Lemma owns_steady r mapSpec ms pod : owns n (steady r mapSpec ms pod).
Proof. unfold steady, rollback. owns_steps. Qed.

Lemma owns_rollUpdate ctx mapSpec i ms pod : owns n (rollUpdate ctx mapSpec i ms pod).
Proof. unfold rollUpdate, start_drain, swap. owns_steps. Qed.

Lemma EnsureMapStatus_name c id : cluster_name (EnsureMapStatus c id).2 = cluster_name c.
Proof. unfold EnsureMapStatus. by destruct (find_status _ _) as [[]|]. Qed.

Lemma owns_refreshAddress mapSpec i ms : owns n (refreshAddress mapSpec i ms).
Proof. unfold refreshAddress. owns_steps. Qed.

Lemma owns_reconcileMap r ctx mapSpec i mid : owns n (reconcileMap r ctx mapSpec i mid).
Proof.
  unfold reconcileMap, listMapPods. apply owns_cluster. intros c Hc. apply owns_bind; intros.
  { apply owns_lift_res. rewrite <- Hc. apply owned_ensure_map_resources. }
  pose proof (EnsureMapStatus_name c (map_ID mapSpec)) as Hn.
  destruct (EnsureMapStatus c (map_ID mapSpec)) as [ms c'] eqn:E. cbn in Hn.
  apply owns_bind; [apply owns_set_cluster; congruence|]. intros _. clear c c' Hc Hn E.
  owns_steps;
    lazymatch goal with
    | |- owns _ (refreshAddress _ _ _) => apply owns_refreshAddress
    | |- owns _ (firstStart _ _ _ _) => apply owns_firstStart
    | |- owns _ (steady _ _ _ _) => apply owns_steady
    | |- owns _ (rollUpdate _ _ _ _ _) => apply owns_rollUpdate
    end.
Qed.

Lemma owns_reconcile_cluster r ctx : owns n (reconcile_cluster r ctx).
Proof.
  unfold reconcile_cluster. apply owns_cluster. intros c Hc.
  apply owns_bind; [apply owns_lift_res; rewrite <- Hc; apply owned_EnsureAdminPasswordSecret|intros _].
  apply owns_bind; [apply owns_lift_res; rewrite <- Hc; apply owned_ensurePVC|intros _]. clear Hc.
  owns_steps; [apply owns_reconcileMap|].
  eapply emits_owned_read; [apply emits_gcOrphanedMaps|]. intros c' [Hr|(k & o & -> & _)]; [by destruct c'|done].
Qed.

Lemma Ensure_name c tr r c' : exec (Ensure c) tr (r, c') -> cluster_name c' = cluster_name c.
Proof. unfold Ensure. destruct (ContainsFinalizer _ _); intros H; exec_inv; by simplify_eq. Qed.
End Reconciler.

(** ** The whole reconcile *)

(** C16: whatever a reconcile makes belongs to the cluster it read: every object that is created, or
    written back by [CreateOrUpdate], is controlled by the cluster, so that Kubernetes deletes it
    with the cluster, and is labelled with its name, so that garbage collection lists it; and its
    kind is one that the manager is told to watch when the controller is set up, so that its
    changes wake the controller, but for the install jobs. *)
Theorem everything_owned {L : K8sLib} {HL : K8sLaws L} {O : OperatorLib} r ctx ns name cluster tr res k o :
  exec (Controller.Reconcile r ctx ns name) (Ev (Get KindCluster ns name) (Ok cluster) :: tr) res ->
  (exists a, Ev (Create k o) a ∈ tr) \/ (exists a, Ev (CouEnd k o) a ∈ tr) ->
  MkOwnerReference "ArkCluster" (cluster_name cluster) true ∈ OwnerReferences (obj_meta o) /\
  Labels (obj_meta o) !! "ark.watteel.com/cluster" = Some (cluster_name cluster) /\
  forall setup x, exec (SetupArkCluster r) setup x ->
    exists b a, setup = [Ev (Complete b (ArkReconciler r)) a] /\ (k ∈ Owns b \/ k = KindJob).
Proof.
  intros Hex Hin. set (n := cluster_name cluster).
  assert (Hall : forall e : kevent, e ∈ tr -> owned n (ev_call e)).
  { apply Reconcile_inv in Hex. intros e He. destruct (DeletionTimestamp (cluster_meta cluster)).
    - destruct Hex as (y & Hex & _). pose proof (emits_exec _ _ _ _ (emits_RunFinalize ctx cluster) Hex e He) as Hq.
      destruct Hq as [Hq|[Hq|[c' ->]]]; [by destruct (ev_call e)..|done].
    - destruct (decide _).
      + destruct Hex as (s & Hex). apply list_elem_of_split in He as (l1 & l2 & ->).
        pose proof (owns_reconcile_cluster n r ctx (MkRState cluster false) [] eq_refl) as Hwp. destruct e as [c a].
        destruct (wp_exec _ _ _ _ _ _ _ Hwp Hex (admits_any _ _)) as [_ Hg]. by apply (Hg l1 c a l2).
      + destruct Hex as (? & ? & -> & _). by apply list_elem_of_singleton in He as ->. }
  assert (owned n (Create k o)) as [[Ho Hl] Hk].
  { destruct Hin as [[a Ha]|[a Ha]]; exact (Hall _ Ha). }
  split; [done|]. split; [done|]. intros setup x Hs. unfold SetupArkCluster in Hs.
  apply exec_act_inv in Hs as (a & tr' & -> & Hs). exec_inv. eexists _, _. split; [done|]. cbn.
  unfold made in Hk. set_solver.
Qed.

(** The pod that the update of [second_run] creates. *)
Definition creates_pod (e : kevent) : bool := match ev_call e with Create KindPod _ => true | _ => false end.

Lemma creates_pod_in tr : existsb creates_pod tr = true -> exists p a, (Ev (Create KindPod p) a : kevent) ∈ tr.
Proof.
  intros ([c a] & Hin & H)%existsb_exists. apply list_elem_of_In in Hin. destruct c as [| |k o| | | | | | | | | | | | | | |]; try done.
  destruct k; try done. by exists o, a.
Qed.

Lemma everything_owned_witness :
  exists p a, (Ev (Create KindPod p) a : kevent) ∈ second_run /\
    MkOwnerReference "ArkCluster" "c" true ∈ OwnerReferences (pod_meta p).
Proof.
  destruct (creates_pod_in second_run) as (p & a & Hin); [vm_compute; reflexivity|].
  exists p, a. split; [exact Hin|].
  destruct (everything_owned (HL := demo_laws) (O := demo_operator_lib) (MkArkClusterReconciler true) None "ns" "c"
    drained_cluster second_run (demo_run (30 * Minute) drained_cluster).2.1 KindPod p) as (Ho & _ & _).
  - apply (Reconcile_exec (HL := demo_laws) _ _ _ _ _ _ _ (demo_run (30 * Minute) drained_cluster).2.2).
    + vm_compute. reflexivity.
    + apply (bool_decide_unpack _). vm_compute. exact I.
    + pose proof (demo_reconcile_exec (30 * Minute) drained_cluster) as H. unfold second_run.
      revert H. generalize (demo_run (30 * Minute) drained_cluster). intros [tr [x s]] H. exact H.
  - left. exists a. exact Hin.
  - assert (cluster_name drained_cluster = "c") as <- by (vm_compute; reflexivity). exact Ho.
Defined.
